(* ===== verification/_CoqProject ===== *)
-Q . S2P
Prelude.v
Types.v
TypesFacts.v
Engine.v
EngineInv.v
EngineVotes.v
EngineSafety.v
EngineAgreement.v
EngineExamples.v
EngineTermination.v
EngineLiveness.v
EngineProps.v
CommitProofs.v
Bls.v
AuditCerts.v
Params.v
Pow.v
Committee.v
History.v
Epochs.v
TxPool.v
TxPoolFacts.v
TxPoolBest.v
TxPoolProps.v
Ipld.v
IpldFacts.v
Car.v
CarFacts.v
Index.v
IndexFacts.v
Forks.v
TrieIface.v
Trie.v
TrieTree.v
TrieCodec.v
TrieSession.v
TrieRemove.v
TrieCommit.v
TrieProps.v
TrieProofs.v
Store.v
StoreFacts.v
StoreHistory.v
StoreProps.v
Overlay.v
BlockStore.v
Snapshot.v
SnapshotFacts.v
ChainTables.v
BlockCerts.v
Exec.v
Queries.v
Hooks.v
HooksFacts.v
Chain.v
ChainFacts.v
ForkChoice.v
ForkChoiceFacts.v
ChainHistory.v
ChainProps.v
ChainHistoryFacts.v
TextCodec.v
Vault.v
VaultFacts.v
VaultProps.v
Der.v
DerFacts.v
Tpm.v
TpmFacts.v
TpmProps.v
Intel.v
Tdx.v
TdxFacts.v
TdxProps.v
Bitswap.v
BitswapFacts.v
Nodes.v
NodesFacts.v
Sync.v
SyncFacts.v
