(* ===== verification/Prelude.v ===== *)
(** * Boltchain: a verification development

    Boltchain is an EVM chain that starts as a proof-of-work chain and moves to a BFT proof-of-stake
    committee.  This library models the parts of its Rust workspace (src/crates) that decide what
    the chain agrees on, what it accepts and how its data is named, and proves that they do what
    they are meant to.

    ** The program and the files that model it

    - consensus/src/types.rs: Types.v (validator sets, signer bitmaps, signed messages,
      certificates, commit proofs), facts in TypesFacts.v.
    - consensus/src/engine.rs: Engine.v, the whole state machine of a validator.  [Engine] is the
      struct, one definition per method; methods that call each other are one mutual fixpoint
      with fuel.  EngineInv.v has the induction principle over a call ([closed]) and the fuel
      bookkeeping; EngineVotes.v and EngineSafety.v the invariants of one node and of a system of
      nodes; EngineAgreement.v agreement; EngineTermination.v termination; EngineLiveness.v the
      progress of rounds; EngineProps.v the properties of single nodes; CommitProofs.v the proofs handed to other nodes;
      EngineExamples.v concrete runs, among them four defects of the code (two more, with the engine's
      endless walk and its abort, are at the end of EngineTermination.v).
    - consensus/src/lib.rs and primitives/src/bls.rs: Bls.v, the two signature schemes over an abstract
      pairing library ([Blst]).  The engine is proved against the interface [Scheme] with its
      laws [SchemeLaws]; Bls.v gives the instances.
    - consensus/src/audit.rs: AuditCerts.v, certificates of audit, verdict and attestation panels.
    - primitives/src/params.rs: Params.v.  pow/src/asert.rs and pow/src/lib.rs: Pow.v (difficulty,
      seals, nonce search).
    - system/src/committee.rs: Committee.v.  system/src/history.rs: History.v.  The epoch and phase
      rules of system/src/hooks.rs: Epochs.v; its system calls before a block: Hooks.v and HooksFacts.v,
      over the contract calls and queries of system/src/queries.rs, abi.rs and addresses.rs: Queries.v.
    - txpool/src/lib.rs: TxPool.v (the pool), TxPoolFacts.v (its invariant and operations),
      TxPoolBest.v (block building), TxPoolProps.v.
    - ipld/src/lib.rs: Ipld.v and IpldFacts.v (content addressing).  ipld/src/car.rs: Car.v and
      CarFacts.v (archives and traversal).  ipld/src/deal.rs and ipld/src/history.rs: Index.v and
      IndexFacts.v (deal and epoch indexes, snapshot chunks).
    - primitives/src/forks.rs: Forks.v.
    - store/src/trie.rs: Trie.v (sessions, node codec, commit, proofs), against the interface
      TrieIface.v; TrieTree.v has the trees that nodes stand for, TrieCodec.v, TrieSession.v,
      TrieRemove.v and TrieCommit.v the facts of each part, TrieProps.v and TrieProofs.v the theorems
      and the instance of the interface.
    - store/src/db.rs and store/src/state.rs: Store.v (flat state, changes, history, past views),
      StoreFacts.v, StoreHistory.v, StoreProps.v; the block tables and store/src/addr_index.rs:
      BlockStore.v; store/src/snapshot.rs: Snapshot.v and SnapshotFacts.v.
    - exec/src/block.rs: Exec.v, the block executor over an abstract EVM ([Revm]).
    - chain/src/overlay.rs: Overlay.v.  chain/src/lib.rs: BlockCerts.v (the certificates a block
      carries) and Chain.v (build, verify, commit, import, restore, open), an operation being a
      computation of the monad [CM] on a [Chain]; chain/src/pow.rs: ForkChoice.v; chain/src/history.rs:
      ChainHistory.v.  ChainTables.v has the invariant of the block tables, ChainFacts.v and
      ForkChoiceFacts.v the rules of a Hoare logic for [CM] and the operations' specifications,
      ChainProps.v and ChainHistoryFacts.v the theorems.
    - net/src/bitswap.rs: Bitswap.v, the handling of messages as functions and the concurrent fetches
      and probes as steps of one system ([bitswap_step]); BitswapFacts.v.  net/src/nodes.rs: Nodes.v
      and NodesFacts.v, the census of nodes.
    - sync/src/lib.rs: Sync.v, the follower as computations of the monad [SM] on a [Chain], over the
      operations of Chain.v and ForkChoice.v, the network's answers being a parameter that
      Bitswap.v stands behind; SyncFacts.v.
    - vault/src/lib.rs: Vault.v (sealing, opening, recovery, recipients), VaultFacts.v, VaultProps.v; its
      base32 and hex forms, and the base64 of attest/src/der.rs: TextCodec.v.
    - attest/src/der.rs: Der.v and DerFacts.v (DER, certificates, CRLs, PEM).  attest/src/intel.rs:
      Intel.v (collateral and TCB levels).  attest/src/tdx.rs: Tdx.v, TdxFacts.v, TdxProps.v.
      attest/src/tpm.rs: Tpm.v, TpmFacts.v, TpmProps.v.

    ** How code becomes definitions

    A [u64] is a [Z] and every addition, subtraction and product that can leave its width is wrapped
    ([wrap]), as the release profile does; saturating and checked operations are written out.  A
    hash is a [Z], a byte string a list of [Z].  An index out of range, an [expect] on [None] or a
    division by zero is the outcome [Panic]; errors are values of [result].  A [HashMap] is a
    [gmap]; where the code iterates one, the order is an argument and the theorems hold for every
    order.  Loops that are not structural have fuel, and a theorem says how much is enough:
    [20 * 2^64 + 10] for a call of the engine (handle_terminates), the number of links for a
    traversal, the length of the input for a reader, the number of side blocks and two for the walks of
    fork choice (fork_choice_walks_end), the number of stored blocks for the ancestors of a checkpoint
    (ancestors_end), the walk limit and one for a mined branch (mined_walk_ends); pool loops take the
    number of their elements, readers of TPM logs and DER the length of their input.  The parents of an
    announced block of the committee are followed without a bound in the code: their walk takes fuel
    as an argument, and the theorems hold for any.
    Libraries outside the workspace (hashes, BLS, RLP, dag-cbor, CIDs, varints, alloy transactions,
    the EVM, AEAD and key exchange, Reed-Solomon, P-256, X.509, AES, JSON, multiaddresses) are classes, with the laws the theorems need as separate classes, each with an
    instance in the witnesses.

    ** What the theorems show

    - No two finality proofs of an epoch are for different branches, whatever messages were sent
      (commit_proofs_agree), given that validators with at most a third of the weight are faulty,
      that signatures of honest validators are not forged, that bitmaps have at most 2^16 bits and that
      honest nodes vote and propose only blocks whose hash stands for their parent and round, which
      validate (node/src/validator.rs) checks for the blocks of the proof-of-stake phase.  Under the
      same conditions the last final blocks of two nodes are on one branch, unless one of them was
      shown a block that gives a certified hash another parent or round, which the engine stores
      unchecked (agreement; Poisoned is such a run).  Every call returns as long as the blocks the engine
      holds and is handed close no cycle of parent links and it was not restarted after the
      epoch's end (handle_terminates, whose condition [steady] is kept by every call; Cycle and LateRestart
      show that both are needed), with a result that does not depend on fuel (handle_fuel); nodes
      sign at most one vote per round and never go back (signing_discipline,
      engine_moves_forward); formed certificates verify; final blocks are a chain; a restart
      keeps the node's promises; and a round whose timeouts by a quorum arrive is left, in whatever
      order and among whatever other calls that keep the engine steady (quorum_timeouts_end_round).
    - Blocks settled by stake stay canonical through every sequence of operations, failed
      reorganisations included (settled_blocks_stay); the canonical chain is linked from genesis to
      the head and its total difficulty is the sum of the difficulties (canonical_chain_linked); what
      importing a mined block does on each outcome (import_mined_outcome).  These assume that no two
      headers that occur have the same hash and that a branch's total difficulty fits 256 bits ([Universe]).
    - Executed blocks keep the gas and size limits (executed_block_within_limits), issue at most the
      scheduled reward and, once per epoch, what the reward contract answers when asked about the
      emission of the epoch before, 40% of it if that epoch was mined under checkpoints
      (pre_block_issues_at_most), audit only what may be audited (deal_audits_are_auditable), and the certificates a
      producer keeps are those receivers accept (kept_certificates_accepted).
    - The state root is that of the flat tables, undoing a block inverts it, past views within the
      history window of the highest block ever applied are past states
      (incremental_root_matches, unwind_inverts_apply, past_state_view); the trie holds exactly its
      content, whatever the order of updates, and proofs check (trie_matches_content,
      root_determines_content, proof_checks); the overlay of pending blocks is the state that
      committing them gives.
    - A snapshot rebuilds the state it was taken of (snapshot_rebuilds_state), and a node that starts
      from a checkpoint has the state of the trusted block (checkpoint_import_trusted).
    - A follower's chain stays in order and its settled blocks stay whatever is announced and whatever
      the network answers (follower_keeps_settled); a block of the committee becomes the head only
      under an accepted proof of finality (announced_head_is_final); following a mined branch is
      bounded (mined_walk_ends); an announcement opens to its block (announcement_round_trip).
    - Fetches and probes return what was asked for, verified, however they interleave
      (fetched_blocks_verify), and complete when peers serve (served_fetch_completes); the census is
      bounded, lists who is live, and a heartbeat speaks for its author alone, at most once per interval
      unless the author was dropped in between (census_well_formed, census_lists_live,
      heartbeat_speaks_for_author).
    - A sealed file opens for every recipient from enough intact shards, and whatever blocks are
      supplied gives the file or a precise error (sealed_file_opens, open_gives_file_or_error).
    - An accepted TDX quote or TPM appraisal rests on a chain of signatures to the trust anchor
      (quote_chain_of_trust, appraisal_rests_on_tpm); collateral never goes back
      (collateral_moves_forward); verifying a quote never panics (quote_verification_total); PEM, event
      logs, reports and credentials round-trip.
    - A peer whose fork id is accepted follows the same forks so far (accepted_peers_share_forks).
    - The pool's indexes stay consistent, its limits hold but for the bytes of replacements, and no
      operation aborts (pool_consistent); a transaction is admitted exactly when it meets every rule
      (add_admits); block building, clean-up and pending nonces behave as documented.
    - Blocks, archives, indexes and snapshots decode to what was encoded, and decoded content does
      not depend on who supplied it.
    - Certificates of panels, difficulty, seeds, nonce search, emission, committee sampling,
      sharding, audit draws and the phases have the stated meaning.
    - Defects found while modelling are theorems on concrete inputs (Poisoned, Overwrite, EarlyEnd
      and LongBitmap in EngineExamples.v; Cycle and LateRestart in EngineTermination.v; overflowing_cost_admitted and
      replacement_passes_byte_limit in TxPoolProps.v; trailing_header_bytes in IpldFacts.v; pruned_view_wrong in
      StoreProps.v; forged_snapshot_accepted in ChainHistoryFacts.v; forged_parent_committed in
      SyncFacts.v; shared_wants_drop_block in BitswapFacts.v; expired_authors_kept and evicted_author_renews in NodesFacts.v;
      manifest_zero_k_aborts in VaultProps.v; truncated_log_aborts in TpmProps.v).

    ** Not modelled

    The EVM and the Solidity contracts it runs, which are parameters; ABI encoding; libmdbx and the
    binary layout of its tables, whose entries are kept decoded; the parsing of genesis files and the
    deployment of contracts at genesis (primitives/src/genesis.rs, system/src/genesis.rs): serde formats
    and EVM runs; gossip and streams (net/src/lib.rs, the transport of bitswap.rs): asynchronous I/O
    of libp2p; the simulated TEEs (attest/src/sim.rs, tpm_sim.rs) and the JSON form of evidence; RPC, whose
    methods convert types and query the chain; the simulators, which are test harnesses; and the node
    executable (node/src), which wires the components to files, HTTP and the network.  An operation of the chain is one
    step: interleavings of operations that release a lock in the middle are not modelled.
    Serialization by dag-cbor and RLP, metrics, logging and time measurement are left out of the
    modelled components.

    ** Plan

    Next: the parts of the node with logic of their own behind the I/O, first the duties of a
    validator (node/src/validator.rs) and the miner (node/src/miner.rs), then the conversions of RPC. *)

From stdpp Require Import base list list_numbers sorting gmap strings.
From Stdlib Require Import ZArith Lia Ascii.

#[global] Set Default Goal Selector "!".

Declare Scope bolt_scope.
Delimit Scope bolt_scope with bolt.
Open Scope Z_scope.

Create HintDb bolt.
Create Rewrite HintDb bolt.

(** ** Machine integers

    A Rust unsigned integer of width [w] is a [Z] in [0, 2^w).  The release profile of the
    workspace leaves [overflow-checks] off, so [+], [-] and [*] wrap around; [wrap w] is that
    reduction. *)

Definition wrap (w x : Z) : Z := x mod 2 ^ w.

Abbreviation u8 := (wrap 8).
Abbreviation u16 := (wrap 16).
Abbreviation u32 := (wrap 32).
Abbreviation u64 := (wrap 64).
Abbreviation u128 := (wrap 128).

Definition U64_MAX : Z := 2 ^ 64 - 1.
Definition U256_MAX : Z := 2 ^ 256 - 1.

Definition in_range (w x : Z) : Prop := 0 <= x < 2 ^ w.

#[export] Instance in_range_dec w x : Decision (in_range w x).
Proof. unfold in_range. apply _. Defined.

(** Saturating and checked arithmetic of the standard library. *)
Definition saturating_sub (a b : Z) : Z := Z.max 0 (a - b).
Definition saturating_mul (w a b : Z) : Z := Z.min (2 ^ w - 1) (a * b).
Definition saturating_add (w a b : Z) : Z := Z.min (2 ^ w - 1) (a + b).

(** [usize::div_ceil]. *)
Definition div_ceil (a b : Z) : Z := (a + b - 1) / b.

Lemma wrap_small w x : in_range w x -> wrap w x = x.
Proof. unfold wrap, in_range. intros. apply Z.mod_small. lia. Qed.

Lemma wrap_range w x : 0 <= w -> in_range w (wrap w x).
Proof.
  unfold wrap, in_range. intros. apply Z.mod_pos_bound, Z.pow_pos_nonneg; lia.
Qed.

Lemma wrap_u64_succ r : 0 <= r < U64_MAX -> u64 (r + 1) = r + 1.
Proof. unfold U64_MAX. intros. apply wrap_small. unfold in_range. lia. Qed.

#[export] Hint Resolve wrap_range : bolt.
#[export] Hint Rewrite wrap_small using (unfold in_range; lia) : bolt.

(** ** Big-endian byte strings

    A byte is a [Z] in [0, 256); a byte string is a list of them.  [be_bytes n x] is
    [x.to_be_bytes()] for an integer of [n] bytes, [be_val] is [from_be_bytes]. *)

Abbreviation bytes := (list Z).

Fixpoint be_bytes (n : nat) (x : Z) : bytes :=
  match n with
  | O => []
  | S n => be_bytes n (x / 256) ++ [x mod 256]
  end.

Definition be_val (b : bytes) : Z := foldl (fun acc x => acc * 256 + x) 0 b.

Definition byte_list (b : bytes) : Prop := Forall (fun x => 0 <= x < 256) b.

Lemma be_bytes_length n x : length (be_bytes n x) = n.
Proof. revert x. induction n; intros x; simpl; [done|]. rewrite length_app, IHn. simpl. lia. Qed.

Lemma be_bytes_range n x : byte_list (be_bytes n x).
Proof.
  revert x. induction n; intros x; simpl; [constructor|].
  apply Forall_app; split; [apply IHn|].
  constructor; [|constructor]. apply Z.mod_pos_bound. lia.
Qed.

Lemma be_val_snoc b x : be_val (b ++ [x]) = be_val b * 256 + x.
Proof. unfold be_val. by rewrite foldl_app. Qed.

Lemma be_val_bytes n x : be_val (be_bytes n x) = x mod 2 ^ (8 * Z.of_nat n).
Proof.
  revert x. induction n as [|n IH]; intros x; [by rewrite Z.mod_1_r|].
  simpl be_bytes. rewrite be_val_snoc, IH.
  replace (8 * Z.of_nat (S n)) with (8 + 8 * Z.of_nat n) by lia.
  rewrite Z.pow_add_r by lia. change (2 ^ 8) with 256.
  rewrite Z.rem_mul_r by lia. lia.
Qed.

Lemma be_val_bytes_small n x : in_range (8 * Z.of_nat n) x -> be_val (be_bytes n x) = x.
Proof. intros. rewrite be_val_bytes. by apply Z.mod_small. Qed.

Lemma be_bytes_inj n x y :
  in_range (8 * Z.of_nat n) x -> in_range (8 * Z.of_nat n) y ->
  be_bytes n x = be_bytes n y -> x = y.
Proof.
  intros Hx Hy E. rewrite <-(be_val_bytes_small n x), <-(be_val_bytes_small n y) by done.
  by rewrite E.
Qed.

Lemma be_val_nonneg b : byte_list b -> 0 <= be_val b.
Proof.
  intros H. induction b as [|x b IH] using rev_ind; [done|].
  apply Forall_app in H as [H1 H2]. inversion H2; subst. rewrite be_val_snoc.
  specialize (IH H1). lia.
Qed.

Lemma be_val_range b : byte_list b -> in_range (8 * Z.of_nat (length b)) (be_val b).
Proof.
  unfold in_range. intros H. induction b as [|x b IH] using rev_ind; [done|].
  apply Forall_app in H as [H1 H2]. inversion H2; subst. rewrite be_val_snoc.
  specialize (IH H1). rewrite length_app. simpl.
  replace (8 * Z.of_nat (length b + 1)) with (8 * Z.of_nat (length b) + 8) by lia.
  rewrite Z.pow_add_r by lia. change (2 ^ 8) with 256. lia.
Qed.

Lemma be_bytes_val b : byte_list b -> be_bytes (length b) (be_val b) = b.
Proof.
  intros H. induction b as [|x b IH] using rev_ind; [done|].
  apply Forall_app in H as [H1 H2]. inversion H2; subst. rewrite be_val_snoc.
  rewrite length_app. simpl length. replace (length b + 1)%nat with (S (length b)) by lia.
  simpl. rewrite Z.div_add_l by lia. rewrite (Z.div_small x) by lia. rewrite Z.add_0_r.
  rewrite IH by done. f_equal. rewrite Z.add_comm, Z.mod_add by lia.
  by rewrite Z.mod_small.
Qed.

#[export] Hint Resolve be_bytes_length be_bytes_range : bolt.

(** The bytes of a Rust byte-string literal. *)
Fixpoint ascii_bytes (s : string) : bytes :=
  match s with
  | EmptyString => []
  | String c s => Z.of_nat (nat_of_ascii c) :: ascii_bytes s
  end.

(** ** Fallible code

    [result E A] is Rust's [Result]; [outcome A] is what running a piece of code can do:
    return, abort (an out-of-range index, [expect] on [None], a division by zero; the release
    profile has [panic = "abort"]), or exhaust the fuel a definition by fuel was given. *)

Inductive result (E A : Type) : Type :=
| Ok (a : A)
| Err (e : E).
Arguments Ok {E A} a.
Arguments Err {E A} e.

Definition result_bind {E A B} (m : result E A) (k : A -> result E B) : result E B :=
  match m with Ok a => k a | Err e => Err e end.

(** [Option::ok_or]. *)
Definition ok_or {E A} (o : option A) (e : E) : result E A :=
  match o with Some a => Ok a | None => Err e end.

Notation "x <-? m ; k" := (result_bind m (fun x => k))
  (at level 100, m at next level, right associativity) : bolt_scope.

(** The first successful step of a computation that returned. *)
Lemma result_bind_ok {E A B} (m : result E A) (k : A -> result E B) b :
  result_bind m k = Ok b -> exists a, m = Ok a /\ k a = Ok b.
Proof. destruct m as [a|]; [|done]. intros H. by exists a. Qed.

Inductive outcome (A : Type) : Type :=
| Done (a : A)
| Panic
| OutOfFuel.
Arguments Done {A} a.
Arguments Panic {A}.
Arguments OutOfFuel {A}.

Definition outcome_bind {A B} (m : outcome A) (k : A -> outcome B) : outcome B :=
  match m with Done a => k a | Panic => Panic | OutOfFuel => OutOfFuel end.

Notation "x <!- m ; k" := (outcome_bind m (fun x => k))
  (at level 100, m at next level, right associativity) : bolt_scope.

(** ** Effects

    [M S W A] is code that mutates a state [S] ([&mut self]), pushes values of type [W] to an
    output buffer ([out: &mut Vec<W>]) and may abort. *)

Definition M (S W A : Type) : Type := S -> outcome (A * S * list W).

Section effects.
Context {S W : Type}.

Definition ret {A} (a : A) : M S W A := fun s => Done (a, s, []).

Definition bind {A B} (m : M S W A) (k : A -> M S W B) : M S W B := fun s =>
  match m s with
  | Done (a, s1, w1) =>
      match k a s1 with
      | Done (b, s2, w2) => Done (b, s2, w1 ++ w2)
      | Panic => Panic
      | OutOfFuel => OutOfFuel
      end
  | Panic => Panic
  | OutOfFuel => OutOfFuel
  end.

Definition get : M S W S := fun s => Done (s, s, []).
Definition gets {A} (f : S -> A) : M S W A := fun s => Done (f s, s, []).
Definition modify (f : S -> S) : M S W unit := fun s => Done (tt, f s, []).
Definition push (w : W) : M S W unit := fun s => Done (tt, s, [w]).
Definition panic {A} : M S W A := fun _ => Panic.
Definition no_fuel {A} : M S W A := fun _ => OutOfFuel.

(** Lifts a pure computation that may abort. *)
Definition lift {A} (o : outcome A) : M S W A := fun s =>
  match o with Done a => Done (a, s, []) | Panic => Panic | OutOfFuel => OutOfFuel end.

(** Runs [m] with a fresh output buffer and hands it to the caller. *)
Definition capture {A} (m : M S W A) : M S W (A * list W) := fun s =>
  match m s with
  | Done (a, s1, w) => Done ((a, w), s1, [])
  | Panic => Panic
  | OutOfFuel => OutOfFuel
  end.

(** [out.extend(l)]. *)
Definition push_all (l : list W) : M S W unit := fun s => Done (tt, s, l).

(** [for x in l { f(x) }]; the loop stops after an [x] for which [f] returns [true]
    ([break]). *)
Fixpoint for_until {A} (f : A -> M S W bool) (l : list A) : M S W unit :=
  match l with
  | [] => ret tt
  | x :: l => bind (f x) (fun stop : bool => if stop then ret tt else for_until f l)
  end.

Definition for_each {A} (f : A -> M S W unit) (l : list A) : M S W unit :=
  for_until (fun x => bind (f x) (fun _ => ret false)) l.

(** *** Weakest preconditions

    [wp PP FF m Q s]: from state [s], if [m] returns then [Q] holds of the result, the new state
    and the output; aborting is allowed only if [PP], running out of fuel only if [FF].  With
    [FF := False] it is total correctness. *)
Definition wp (PP FF : Prop) {A} (m : M S W A) (Q : A -> S -> list W -> Prop) (s : S) : Prop :=
  match m s with
  | Done (a, s', w) => Q a s' w
  | Panic => PP
  | OutOfFuel => FF
  end.

Context (PP FF : Prop).
Abbreviation WP := (wp PP FF).

Lemma wp_mono {A} (m : M S W A) (Q Q' : A -> S -> list W -> Prop) s :
  (forall a s' w, Q a s' w -> Q' a s' w) -> WP m Q s -> WP m Q' s.
Proof. unfold wp. destruct (m s) as [[[a s'] w]| |]; auto. Qed.

Lemma wp_ret {A} (a : A) Q s : Q a s [] -> WP (ret a) Q s.
Proof. done. Qed.

Lemma wp_bind {A B} (m : M S W A) (k : A -> M S W B) Q s :
  WP m (fun a s1 w1 => WP (k a) (fun b s2 w2 => Q b s2 (w1 ++ w2)) s1) s ->
  WP (bind m k) Q s.
Proof.
  unfold wp, bind. destruct (m s) as [[[a s1] w1]| |]; auto.
  destruct (k a s1) as [[[b s2] w2]| |]; auto.
Qed.

Lemma wp_gets {A} (f : S -> A) Q s : Q (f s) s [] -> WP (gets f) Q s.
Proof. done. Qed.
Lemma wp_get Q s : Q s s [] -> WP get Q s.
Proof. done. Qed.
Lemma wp_modify f Q s : Q tt (f s) [] -> WP (modify f) Q s.
Proof. done. Qed.
Lemma wp_push x Q s : Q tt s [x] -> WP (push x) Q s.
Proof. done. Qed.
Lemma wp_push_all l Q s : Q tt s l -> WP (push_all l) Q s.
Proof. done. Qed.
Lemma wp_no_fuel {A} Q s : FF -> WP (@no_fuel A) Q s.
Proof. done. Qed.
Lemma wp_panic {A} Q s : PP -> WP (@panic A) Q s.
Proof. done. Qed.
Lemma wp_lift {A} (o : outcome A) Q s :
  (forall a, o = Done a -> Q a s []) -> (o = Panic -> PP) -> (o = OutOfFuel -> FF) ->
  WP (lift o) Q s.
Proof. unfold wp, lift. destruct o; auto. Qed.
Lemma wp_capture {A} (m : M S W A) Q s :
  WP m (fun a s' w => Q (a, w) s' []) s -> WP (capture m) Q s.
Proof. unfold wp, capture. destruct (m s) as [[[a s'] w]| |]; auto. Qed.

(** A loop preserves what each iteration preserves. *)
Lemma wp_for_until {A} (f : A -> M S W bool) l (I : S -> Prop) s :
  (forall x s, x ∈ l -> I s -> WP (f x) (fun _ s' _ => I s') s) ->
  I s -> WP (for_until f l) (fun _ s' _ => I s') s.
Proof.
  revert s. induction l as [|x l IH]; intros s Hf Hs; [done|].
  simpl. apply wp_bind. eapply wp_mono; [|apply Hf; [left|done]].
  intros stop s' w Hs'. destruct stop; [done|].
  eapply wp_mono; [|apply IH; [|done]]; [done|].
  intros y s0 Hy. apply Hf. by right.
Qed.

Lemma wp_for_each {A} (f : A -> M S W unit) l (I : S -> Prop) s :
  (forall x s, x ∈ l -> I s -> WP (f x) (fun _ s' _ => I s') s) ->
  I s -> WP (for_each f l) (fun _ s' _ => I s') s.
Proof.
  intros Hf. apply wp_for_until. intros x s0 Hx Hs. apply wp_bind.
  eapply wp_mono; [|apply Hf; done]. done.
Qed.
End effects.

Notation "x <- m ; k" := (bind m (fun x => k))
  (at level 100, m at next level, right associativity) : bolt_scope.
Notation "m ;; k" := (bind m (fun _ => k))
  (at level 100, right associativity) : bolt_scope.
