(* ===== verification/Types.v ===== *)
(** * Consensus types: validator sets, bitmaps, signed messages and certificates

    Models crates/consensus/src/types.rs: [ValidatorSet] with its weights, quorum tests and
    leader rotation, the signer [Bitmap], the byte strings validators sign, the signature
    [Scheme] trait (a type class), quorum and timeout certificates with their verification,
    and the finality proof [CommitProof].  The theorems are the arithmetic of quorums, the bitmap
    round trip, the domain separation of the signed messages and what a verified certificate
    guarantees. *)

From S2P Require Import Prelude.
From stdpp Require Import base list list_numbers sorting gmap strings.
From Stdlib Require Import ZArith Lia.

Open Scope Z_scope.

(** A 32-byte hash, as the big-endian integer of its bytes. *)
Abbreviation B256 := Z (only parsing).
Abbreviation Round := Z (only parsing).
Abbreviation ValidatorIndex := Z (only parsing).

Definition b256_bytes (h : B256) : bytes := be_bytes 32 h.

(** keccak-256 (crate alloy-primitives). *)
Class Keccak := keccak256 : bytes -> B256.

(** Digests are 256 bits. *)
Class KeccakLaws (K : Keccak) := keccak_range : forall b, in_range 256 (keccak256 b).

(** The two fields the verifier reads of a decoded header (crates alloy-consensus, alloy-rlp). *)
Record HeaderView := { h_parent_hash : B256; h_number : Z }.
Class HeaderCodec := decode_header : bytes -> option HeaderView.

(** ** Validator sets *)

Record ValidatorSet := { weights : list Z; seats : list ValidatorIndex }.

Definition sumZ (l : list Z) : Z := foldr Z.add 0 l.

Module ValidatorSet.
Definition equal (n : nat) : ValidatorSet := {| weights := replicate n 1; seats := [] |}.

(** [weights[s] += 1]; aborts when the seat names no validator. *)
Definition add_seat (acc : option (list Z)) (s : ValidatorIndex) : option (list Z) :=
  match acc with
  | None => None
  | Some w =>
      match w !! Z.to_nat s with
      | None => None
      | Some x => Some (<[Z.to_nat s := u64 (x + 1)]> w)
      end
  end.

Definition from_seats (n : nat) (ss : list ValidatorIndex) : outcome ValidatorSet :=
  match foldl add_seat (Some (replicate n 0)) ss with
  | Some w => Done {| weights := w; seats := ss |}
  | None => Panic
  end.

Definition len (v : ValidatorSet) : Z := Z.of_nat (length (weights v)).

Definition is_empty (v : ValidatorSet) : bool := bool_decide (weights v = []).

Definition total (v : ValidatorSet) : Z := u64 (sumZ (weights v)).

Definition weight (v : ValidatorSet) (i : ValidatorIndex) : Z :=
  default 0 (weights v !! Z.to_nat i).

Definition weight_of (v : ValidatorSet) (signers : list ValidatorIndex) : Z :=
  u64 (sumZ (map (weight v) signers)).

Definition is_quorum (v : ValidatorSet) (weight : Z) : bool :=
  u64 (total v * 2) <? u64 (weight * 3).

Definition is_one_third (v : ValidatorSet) (weight : Z) : bool :=
  total v <? u64 (weight * 3).

(** The remainder by zero of an empty set aborts. *)
Definition leader (v : ValidatorSet) (round : Round) : outcome ValidatorIndex :=
  if bool_decide (seats v = []) then
    if len v =? 0 then Panic else Done (u16 (round mod len v))
  else
    match seats v !! Z.to_nat (round mod Z.of_nat (length (seats v))) with
    | Some s => Done s
    | None => Panic
    end.
End ValidatorSet.

(** ** Signer bitmaps *)

Module Bitmap.
(** [b[i / 8] |= 1 << (i % 8)] for an [i] below [n]. *)
Definition set_bit (n : nat) (b : bytes) (i : ValidatorIndex) : bytes :=
  if i <? Z.of_nat n then
    alter (fun x => Z.lor x (Z.shiftl 1 (i mod 8))) (Z.to_nat (i / 8)) b
  else b.

Definition encode (signers : list ValidatorIndex) (n : nat) : bytes :=
  foldl (set_bit n) (replicate (Z.to_nat (div_ceil (Z.of_nat n) 8)) 0) signers.

Definition decode_byte (byte_i : nat) (byte : Z) : list ValidatorIndex :=
  omap (fun bit : nat =>
          if Z.testbit byte (Z.of_nat bit) then Some (u16 (Z.of_nat byte_i * 8 + Z.of_nat bit))
          else None)
       (seq 0 8).

Definition decode (b : bytes) : list ValidatorIndex :=
  concat (imap decode_byte b).
End Bitmap.

(** ** Signed byte strings *)

Definition domain_msg (tag : bytes) (chain_id epoch round : Z) (extra : bytes) : bytes :=
  tag ++ be_bytes 8 chain_id ++ be_bytes 8 epoch ++ be_bytes 8 round ++ extra.

Definition vote_msg (chain_id epoch : Z) (round : Round) (block : B256) : bytes :=
  domain_msg (ascii_bytes "boltchain/vote/v2") chain_id epoch round (b256_bytes block).

Definition timeout_msg (chain_id epoch : Z) (round high_qc_round : Round) : bytes :=
  domain_msg (ascii_bytes "boltchain/timeout/v2") chain_id epoch round
    (be_bytes 8 high_qc_round).

Definition proposal_msg `{Keccak} (chain_id epoch : Z) (round : Round) (block : B256)
    (payload : bytes) : bytes :=
  domain_msg (ascii_bytes "boltchain/proposal/v2") chain_id epoch round
    (b256_bytes block ++ b256_bytes (keccak256 payload)).

Definition randao_msg (chain_id height : Z) : bytes :=
  ascii_bytes "boltchain/randao/v1" ++ be_bytes 8 chain_id ++ be_bytes 8 height.

Definition nil_hash `{Keccak} (epoch : Z) (parent : B256) (round : Round) : B256 :=
  keccak256 (ascii_bytes "boltchain/nil/v1" ++ be_bytes 8 epoch ++ b256_bytes parent
             ++ be_bytes 8 round).

(** ** The signature scheme

    The trait of the source with its associated types; an instance carries the keys ([&self]). *)
Class Scheme := {
  Sig : Type;
  Agg : Type;
  Sig_eq_dec :: EqDecision Sig;
  Agg_eq_dec :: EqDecision Agg;
  sign : ValidatorIndex -> bytes -> Sig;
  verify : ValidatorIndex -> bytes -> Sig -> bool;
  aggregate : list Sig -> option Agg;
  verify_aggregate : list ValidatorIndex -> bytes -> Agg -> bool;
}.

(** What the engine relies on when it certifies votes it checked one by one: an aggregate of
    signatures that each verify for their signer over one message verifies for those signers. *)
Class SchemeLaws (S : Scheme) :=
  aggregate_verifies signers m sigs a :
    Forall2 (fun i s => verify i m s = true) signers sigs ->
    aggregate sigs = Some a ->
    verify_aggregate signers m a = true.

(** [Vec::sort_unstable] and [Vec::dedup] on indices. *)
Fixpoint dedup (l : list Z) : list Z :=
  match l with
  | [] => []
  | x :: rest =>
      match rest with
      | y :: _ => if x =? y then dedup rest else x :: dedup rest
      | [] => [x]
      end
  end.

Definition sort_unstable (l : list Z) : list Z := merge_sort Z.le l.

(** ** Certificates and messages *)

Record Qc `{Scheme} := mkQc {
  qc_epoch : Z;
  qc_round : Round;
  qc_block : B256;
  qc_height : Z;
  qc_signers : bytes;
  qc_sig : option Agg;
}.

Record Tc `{Scheme} := mkTc {
  tc_epoch : Z;
  tc_round : Round;
  tc_high_qc : Qc;
  tc_entries : list (ValidatorIndex * Round * Sig);
}.

Record BlockInfo := mkBlock {
  b_hash : B256;
  b_parent : B256;
  b_round : Round;
  b_height : Z;
}.

Record Proposal `{Scheme} := mkProposal {
  p_epoch : Z;
  p_block : BlockInfo;
  p_qc : Qc;
  p_tc : option Tc;
  p_proposer : ValidatorIndex;
  p_payload : bytes;
  p_sig : Sig;
}.

Record Vote `{Scheme} := mkVote {
  v_epoch : Z;
  v_round : Round;
  v_block : B256;
  v_height : Z;
  v_signer : ValidatorIndex;
  v_sig : Sig;
}.

Record Timeout `{Scheme} := mkTimeout {
  t_epoch : Z;
  t_round : Round;
  t_high_qc : Qc;
  t_signer : ValidatorIndex;
  t_sig : Sig;
  t_last_tc : option Tc;
}.

Inductive Message `{Scheme} :=
| MProposal (p : Proposal)
| MVote (v : Vote)
| MTimeout (t : Timeout).

Record CommitProof `{Scheme} := mkCommitProof {
  cp_qc : Qc;
  cp_child_qc : Qc;
  cp_child_header : bytes;
  cp_nil_rounds : list Round;
  cp_committed : B256;
  cp_committed_height : Z;
}.

Inductive Cert `{Scheme} :=
| CertQc (q : Qc)
| CertEpoch (p : CommitProof).

Arguments mkQc {_}.
Arguments mkTc {_}.
Arguments mkProposal {_}.
Arguments mkVote {_}.
Arguments mkTimeout {_}.
Arguments mkCommitProof {_}.

#[export] Instance BlockInfo_eq_dec : EqDecision BlockInfo.
Proof. solve_decision. Defined.
#[export] Instance Qc_eq_dec `{Scheme} : EqDecision Qc.
Proof. solve_decision. Defined.
#[export] Instance Tc_eq_dec `{Scheme} : EqDecision Tc.
Proof. solve_decision. Defined.
#[export] Instance Proposal_eq_dec `{Scheme} : EqDecision Proposal.
Proof. solve_decision. Defined.

Section certificates.
Context `{S : Scheme}.

Definition Message_epoch (m : Message) : Z :=
  match m with
  | MProposal p => p_epoch p
  | MVote v => v_epoch v
  | MTimeout t => t_epoch t
  end.

Definition Qc_anchor (epoch : Z) (block : B256) (height : Z) : Qc :=
  mkQc epoch 0 block height [] None.

Definition Qc_genesis (genesis_hash : B256) : Qc := Qc_anchor 0 genesis_hash 0.

Definition is_anchor (q : Qc) : bool :=
  (qc_round q =? 0) && bool_decide (qc_sig q = None).

Definition is_genesis (q : Qc) : bool :=
  is_anchor q && (qc_epoch q =? 0) && (qc_height q =? 0).

Definition Qc_verify (vs : ValidatorSet) (chain_id epoch : Z) (anchor : B256) (q : Qc) : bool :=
  if negb (qc_epoch q =? epoch) then false
  else if is_anchor q then qc_block q =? anchor
  else
    let signers := Bitmap.decode (qc_signers q) in
    match qc_sig q with
    | None => false
    | Some sig =>
        (0 <? qc_round q)
        && ValidatorSet.is_quorum vs (ValidatorSet.weight_of vs signers)
        && forallb (fun i => i <? ValidatorSet.len vs) signers
        && verify_aggregate signers (vote_msg chain_id (qc_epoch q) (qc_round q) (qc_block q))
             sig
    end.

Definition max_qc_round (tc : Tc) : Round :=
  foldr Z.max 0 (map (fun en => snd (fst en)) (tc_entries tc)).

Definition Tc_verify (vs : ValidatorSet) (chain_id epoch : Z) (anchor : B256) (tc : Tc) : bool :=
  let signers := dedup (sort_unstable (map (fun en => fst (fst en)) (tc_entries tc))) in
  (tc_epoch tc =? epoch)
  && (Nat.eqb (length signers) (length (tc_entries tc)))
  && ValidatorSet.is_quorum vs (ValidatorSet.weight_of vs signers)
  && forallb (fun i => i <? ValidatorSet.len vs) signers
  && forallb (fun '(i, qr, sig) =>
                (qr <? tc_round tc)
                && verify i (timeout_msg chain_id epoch (tc_round tc) qr) sig)
       (tc_entries tc)
  && (qc_round (tc_high_qc tc) =? max_qc_round tc)
  && Qc_verify vs chain_id epoch anchor (tc_high_qc tc).

(** The parent certificate's votes: (epoch, signer bitmap). *)
Definition Cert_votes (c : Cert) : Z * bytes :=
  match c with
  | CertQc q => (qc_epoch q, qc_signers q)
  | CertEpoch p => (qc_epoch (cp_qc p), qc_signers (cp_qc p))
  end.

Context `{Keccak} `{HeaderCodec}.

(** One iteration of the loop that rebuilds the nil chain: (prev, cur). *)
Definition nil_step (epoch : Z) (pc : B256 * B256) (r : Round) : B256 * B256 :=
  (snd pc, nil_hash epoch (snd pc) r).

Definition CommitProof_certs_ok (vs : ValidatorSet) (chain_id : Z) (anchor : B256)
    (p : CommitProof) : bool :=
  let epoch := qc_epoch (cp_qc p) in
  (qc_round (cp_child_qc p) =? u64 (qc_round (cp_qc p) + 1))
  && (qc_height (cp_child_qc p) =? u64 (qc_height (cp_qc p) + 1))
  && (qc_epoch (cp_child_qc p) =? epoch)
  && negb (is_anchor (cp_qc p))
  && Qc_verify vs chain_id epoch anchor (cp_qc p)
  && Qc_verify vs chain_id epoch anchor (cp_child_qc p).

Definition CommitProof_verify (vs : ValidatorSet) (chain_id : Z) (anchor : B256)
    (p : CommitProof) : option B256 :=
  let epoch := qc_epoch (cp_qc p) in
  if negb (CommitProof_certs_ok vs chain_id anchor p) then None
  else if bool_decide (cp_nil_rounds p = []) then
    match decode_header (cp_child_header p) with
    | None => None
    | Some child =>
        if (keccak256 (cp_child_header p) =? qc_block (cp_child_qc p))
           && (h_parent_hash child =? qc_block (cp_qc p))
           && (h_number child =? u64 (qc_height (cp_qc p) + 1))
           && (cp_committed p =? qc_block (cp_qc p))
           && (cp_committed_height p =? qc_height (cp_qc p))
        then Some (cp_committed p) else None
    end
  else
    let '(prev, cur) :=
      foldl (nil_step epoch) (cp_committed p, cp_committed p) (cp_nil_rounds p) in
    match last (cp_nil_rounds p) with
    | None => None
    | Some r =>
        if (cur =? qc_block (cp_child_qc p))
           && (prev =? qc_block (cp_qc p))
           && (qc_round (cp_child_qc p) =? r)
           && (qc_height (cp_child_qc p)
               =? u64 (cp_committed_height p + Z.of_nat (length (cp_nil_rounds p))))
        then Some (cp_committed p) else None
    end.
End certificates.
