(* ===== verification/TypesFacts.v ===== *)
(** * Facts about the consensus types

    Quorum arithmetic (two quorums share an honest validator when the others hold at most a third
    of the weight), leaders, the bitmap round trip, the injectivity and domain separation of
    the signed byte strings. *)

From S2P Require Import Prelude Types.
From stdpp Require Import base list list_numbers sorting gmap strings.
From Stdlib Require Import ZArith Lia.

Open Scope Z_scope.

(** ** Sums *)

Lemma sumZ_app l k : sumZ (l ++ k) = sumZ l + sumZ k.
Proof. induction l; simpl; lia. Qed.

Lemma sumZ_perm l k : l ≡ₚ k -> sumZ l = sumZ k.
Proof. induction 1; simpl; lia. Qed.

Lemma sumZ_nonneg l : Forall (fun x => 0 <= x) l -> 0 <= sumZ l.
Proof. induction 1; simpl; lia. Qed.

Lemma sumZ_map_le {A} (f g : A -> Z) l :
  (forall x, x ∈ l -> f x <= g x) -> sumZ (map f l) <= sumZ (map g l).
Proof.
  induction l as [|x l IH]; intros H; simpl; [lia|].
  pose proof (H x ltac:(left)). specialize (IH ltac:(intros; apply H; by right)). lia.
Qed.

Lemma sumZ_map_add {A} (f g : A -> Z) l :
  sumZ (map (fun x => f x + g x) l) = sumZ (map f l) + sumZ (map g l).
Proof. induction l; simpl; lia. Qed.

Lemma sumZ_map_filter {A} (P : A -> Prop) `{!forall x, Decision (P x)} (f : A -> Z) l :
  sumZ (map f (filter P l)) = sumZ (map (fun x => if decide (P x) then f x else 0) l).
Proof.
  induction l as [|x l IH]; [done|]. rewrite filter_cons. simpl.
  case_decide; simpl; lia.
Qed.

(** ** Quorums *)
Section quorum.
Context (vs : ValidatorSet).

Definition indices : list Z := map Z.of_nat (seq 0 (length (weights vs))).

(** The weight of the validators that satisfy [P]. *)
Definition weight_where (P : Z -> Prop) `{!forall i, Decision (P i)} : Z :=
  sumZ (map (ValidatorSet.weight vs) (filter P indices)).

(** Weights are counts of committee seats: far below the width of [u64]. *)
Definition wf_set : Prop :=
  Forall (fun w => 0 <= w) (weights vs) /\ 3 * sumZ (weights vs) < 2 ^ 64.

Lemma elem_of_indices i : i ∈ indices <-> 0 <= i < ValidatorSet.len vs.
Proof.
  unfold indices, ValidatorSet.len. rewrite list_elem_of_In, in_map_iff. split.
  - intros (n & <- & Hn%in_seq). lia.
  - intros Hi. exists (Z.to_nat i). rewrite in_seq. lia.
Qed.

Lemma NoDup_indices : NoDup indices.
Proof.
  unfold indices. apply NoDup_fmap_2; [|apply NoDup_seq]. intros x y. lia.
Qed.

Lemma sum_indices : sumZ (map (ValidatorSet.weight vs) indices) = sumZ (weights vs).
Proof.
  unfold indices, ValidatorSet.weight. rewrite map_map.
  rewrite (map_ext _ (fun n : nat => default 0 (weights vs !! n)))
    by (intros; by rewrite Nat2Z.id).
  induction (weights vs) as [|w ws IH]; [done|].
  cbn [length seq map sumZ foldr]. rewrite <-seq_shift, map_map. simpl. f_equal. apply IH.
Qed.

Context (Hwf : wf_set).

Lemma weight_nonneg i : 0 <= ValidatorSet.weight vs i.
Proof.
  unfold ValidatorSet.weight. destruct (weights vs !! Z.to_nat i) as [w|] eqn:E; simpl; [|lia].
  destruct Hwf as [Hw _]. eapply (Forall_lookup_1 _ _ _ _ Hw E).
Qed.

Lemma total_sum : ValidatorSet.total vs = sumZ (weights vs).
Proof.
  unfold ValidatorSet.total. apply wrap_small. destruct Hwf as [Hw Hs].
  pose proof (sumZ_nonneg _ Hw). unfold in_range. lia.
Qed.

Lemma sum_signers l :
  NoDup l -> Forall (fun i => 0 <= i < ValidatorSet.len vs) l ->
  sumZ (map (ValidatorSet.weight vs) l) = weight_where (fun i => i ∈ l).
Proof.
  intros Hd Hl. unfold weight_where. apply sumZ_perm, fmap_Permutation.
  apply NoDup_Permutation; [done|apply NoDup_filter, NoDup_indices|].
  intros i. rewrite list_elem_of_filter, elem_of_indices. rewrite Forall_forall in Hl.
  split; [auto|]. by intros [? _].
Qed.

Lemma weight_where_total P `{!forall i, Decision (P i)} :
  0 <= weight_where P <= sumZ (weights vs).
Proof.
  unfold weight_where. split.
  - apply sumZ_nonneg, Forall_forall. intros x Hx.
    apply list_elem_of_In, in_map_iff in Hx as (i & <- & _). apply weight_nonneg.
  - rewrite <-sum_indices, sumZ_map_filter. apply sumZ_map_le. intros i _.
    pose proof (weight_nonneg i). case_decide; lia.
Qed.

Lemma weight_of_signers l :
  NoDup l -> Forall (fun i => 0 <= i < ValidatorSet.len vs) l ->
  ValidatorSet.weight_of vs l = weight_where (fun i => i ∈ l).
Proof.
  intros Hd Hl. unfold ValidatorSet.weight_of. rewrite sum_signers by done.
  apply wrap_small. destruct Hwf as [_ Hs].
  pose proof (weight_where_total (fun i => i ∈ l)). unfold in_range. lia.
Qed.

Lemma is_quorum_spec w :
  0 <= w <= sumZ (weights vs) ->
  ValidatorSet.is_quorum vs w = true <-> 2 * sumZ (weights vs) < 3 * w.
Proof.
  intros Hw. unfold ValidatorSet.is_quorum. rewrite total_sum. destruct Hwf as [_ Hs].
  rewrite !wrap_small by (unfold in_range; lia). rewrite Z.ltb_lt. lia.
Qed.

Definition quorum (l : list Z) : Prop :=
  NoDup l /\ Forall (fun i => 0 <= i < ValidatorSet.len vs) l
  /\ ValidatorSet.is_quorum vs (ValidatorSet.weight_of vs l) = true.

Lemma quorum_weight l : quorum l -> 2 * sumZ (weights vs) < 3 * weight_where (fun i => i ∈ l).
Proof.
  intros (Hd & Hl & Hq). rewrite weight_of_signers in Hq by done.
  apply is_quorum_spec in Hq; [done|]. apply weight_where_total.
Qed.

(** Two quorums share a validator outside any set of at most a third of the weight. *)
Lemma quorum_intersection l1 l2 (byz : Z -> Prop) `{!forall i, Decision (byz i)} :
  quorum l1 -> quorum l2 -> 3 * weight_where byz <= sumZ (weights vs) ->
  exists i, i ∈ l1 /\ i ∈ l2 /\ ~ byz i.
Proof.
  intros H1%quorum_weight H2%quorum_weight Hb.
  destruct (decide (Exists (fun i => i ∈ l2 /\ ~ byz i) l1)) as [He|He].
  { apply Exists_exists in He as (i & ? & ? & ?). eauto. }
  exfalso.
  assert (forall i, i ∈ l1 -> i ∈ l2 -> byz i) as Hbyz.
  { intros i Hi1 Hi2. destruct (decide (byz i)); [done|]. exfalso. apply He, Exists_exists.
    eauto. }
  assert (weight_where (fun i => i ∈ l1) + weight_where (fun i => i ∈ l2)
          <= sumZ (weights vs) + weight_where byz); [|lia].
  unfold weight_where. rewrite <-sum_indices, !sumZ_map_filter, <-!sumZ_map_add.
  apply sumZ_map_le. intros i _. pose proof (weight_nonneg i).
  repeat case_decide; try lia. exfalso. naive_solver.
Qed.

Lemma quorum_honest l (byz : Z -> Prop) `{!forall i, Decision (byz i)} :
  quorum l -> 3 * weight_where byz <= sumZ (weights vs) -> exists i, i ∈ l /\ ~ byz i.
Proof.
  intros Hq Hb. destruct (quorum_intersection l l byz Hq Hq Hb) as (i & ? & _ & ?). eauto.
Qed.
End quorum.

(** ** Seats and leaders *)

(** How many seats validator [i] holds. *)
Definition seat_count (ss : list Z) (i : Z) : Z := Z.of_nat (length (filter (fun s => s = i) ss)).

Lemma seat_count_snoc ss s i :
  seat_count (ss ++ [s]) i = seat_count ss i + (if decide (s = i) then 1 else 0).
Proof.
  unfold seat_count. rewrite filter_app, length_app, filter_cons, filter_nil.
  case_decide; simpl; lia.
Qed.

Lemma add_seats_spec n ss w :
  Forall (fun s => 0 <= s) ss -> Z.of_nat (length ss) < 2 ^ 64 ->
  foldl ValidatorSet.add_seat (Some (replicate n 0)) ss = Some w ->
  length w = n /\ Forall (fun s => s < Z.of_nat n) ss
  /\ forall i, (i < n)%nat -> w !! i = Some (seat_count ss (Z.of_nat i)).
Proof.
  revert w. induction ss as [|s ss IH] using rev_ind; intros w Hs Hl Hw.
  { simpl in Hw. injection Hw as <-. rewrite length_replicate. split; [done|]. split; [done|].
    intros i Hi. by apply lookup_replicate_2. }
  rewrite foldl_app in Hw. rewrite length_app in Hl. simpl in Hl, Hw.
  apply Forall_app in Hs as [Hs Hs1]. inversion Hs1 as [|? ? Hs0]; subst.
  unfold ValidatorSet.add_seat in Hw at 1.
  destruct (foldl _ _ ss) as [w0|] eqn:E; [|done].
  destruct (IH w0) as (Hlen & Hlt & Hcnt); [done|lia|done|].
  destruct (w0 !! Z.to_nat s) as [x|] eqn:Ex; [|done]. injection Hw as <-.
  pose proof (lookup_lt_Some _ _ _ Ex) as Hlt'.
  rewrite length_insert. split; [done|]. split.
  { apply Forall_app. split; [done|]. constructor; [lia|constructor]. }
  intros i Hi. rewrite seat_count_snoc. specialize (Hcnt i Hi).
  destruct (decide (Z.to_nat s = i)) as [<-|Hne].
  - rewrite list_lookup_insert_eq by lia. rewrite decide_True by lia. f_equal.
    rewrite Ex in Hcnt. injection Hcnt as ->. apply wrap_small. unfold in_range, seat_count.
    pose proof (length_filter (fun s0 => s0 = Z.of_nat (Z.to_nat s)) ss). lia.
  - rewrite list_lookup_insert_ne by done. rewrite decide_False by lia. by rewrite Z.add_0_r.
Qed.

#[export] Instance outcome_eq_dec {A} `{EqDecision A} : EqDecision (outcome A).
Proof. solve_decision. Defined.

Lemma from_seats_weights n ss vs :
  Forall (fun s => 0 <= s) ss -> Z.of_nat (length ss) < 2 ^ 64 ->
  ValidatorSet.from_seats n ss = Done vs ->
  seats vs = ss /\ length (weights vs) = n /\ Forall (fun s => s < Z.of_nat n) ss
  /\ forall i, 0 <= i < Z.of_nat n -> ValidatorSet.weight vs i = seat_count ss i.
Proof.
  intros Hs Hl. unfold ValidatorSet.from_seats.
  destruct (foldl _ _ ss) as [w|] eqn:E; intros Hd; [|done]. injection Hd as <-.
  destruct (add_seats_spec n ss w) as (Hlen & Hlt & Hcnt); [done..|].
  split; [done|]. split; [done|]. split; [done|]. intros i Hi.
  unfold ValidatorSet.weight. simpl. rewrite Hcnt by lia. simpl. f_equal. lia.
Qed.

Lemma sum_seat_counts n ss :
  Forall (fun s => 0 <= s < Z.of_nat n) ss ->
  sumZ (map (fun i => seat_count ss (Z.of_nat i)) (seq 0 n)) = Z.of_nat (length ss).
Proof.
  induction ss as [|s ss IH] using rev_ind; intros H.
  { rewrite (map_ext _ (fun _ => 0)) by done. induction (seq 0 n); done. }
  apply Forall_app in H as [H1 H2]. inversion H2 as [|? ? Hs]; subst.
  rewrite (map_ext _ (fun i => seat_count ss (Z.of_nat i)
                               + (if decide (s = Z.of_nat i) then 1 else 0)))
    by (intros; apply seat_count_snoc).
  rewrite sumZ_map_add, IH by done. rewrite length_app. simpl.
  assert (forall k m, (k <= Z.to_nat s < k + m)%nat ->
    sumZ (map (fun i => if decide (s = Z.of_nat i) then 1 else 0) (seq k m)) = 1) as Hone.
  { intros k m. revert k. induction m as [|m IHm]; intros k Hk; [lia|]. simpl.
    destruct (decide (s = Z.of_nat k)) as [E|].
    - assert (sumZ (map (fun i => if decide (s = Z.of_nat i) then 1 else 0) (seq (S k) m)) = 0)
        as ->; [|lia].
      assert (forall j, (k < j)%nat ->
        sumZ (map (fun i => if decide (s = Z.of_nat i) then 1 else 0) (seq j m)) = 0) as Hz;
        [|apply Hz; lia].
      clear IHm Hk. induction m as [|m IHm]; intros j Hj; [done|]. simpl.
      rewrite decide_False by lia. rewrite IHm by lia. done.
    - rewrite IHm by lia. done. }
  rewrite Hone by lia. lia.
Qed.

Lemma from_seats_total n ss vs :
  Forall (fun s => 0 <= s) ss -> Z.of_nat (length ss) < 2 ^ 64 ->
  ValidatorSet.from_seats n ss = Done vs ->
  sumZ (weights vs) = Z.of_nat (length ss) /\ Forall (fun w => 0 <= w) (weights vs).
Proof.
  intros Hs Hl Hd. destruct (from_seats_weights n ss vs) as (_ & Hlen & Hlt & Hw); [done..|].
  assert (forall i w, weights vs !! i = Some w -> w = seat_count ss (Z.of_nat i)) as Hlook.
  { intros i w Hi. pose proof (lookup_lt_Some _ _ _ Hi).
    specialize (Hw (Z.of_nat i) ltac:(lia)). unfold ValidatorSet.weight in Hw.
    rewrite Nat2Z.id, Hi in Hw. done. }
  split.
  - rewrite <-sum_indices. unfold indices. rewrite map_map, Hlen.
    rewrite <-(sum_seat_counts n ss).
    + f_equal. apply map_ext_in. intros i Hi%in_seq. apply Hw. lia.
    + rewrite Forall_forall in Hs, Hlt |- *. intros s ?. split; auto.
  - apply Forall_lookup. intros i w ->%Hlook. unfold seat_count. lia.
Qed.

(** [from_seats] gives weights whose quorum arithmetic does not overflow. *)
Lemma from_seats_wf n ss vs :
  Forall (fun s => 0 <= s) ss -> 3 * Z.of_nat (length ss) < 2 ^ 64 ->
  ValidatorSet.from_seats n ss = Done vs -> wf_set vs.
Proof.
  intros Hs Hl Hd. destruct (from_seats_total n ss vs) as [E H0]; [done|lia|done|].
  split; [done|]. lia.
Qed.

Lemma leader_seat vs r s :
  seats vs <> [] -> 0 <= r ->
  ValidatorSet.leader vs r = Done s
  <-> seats vs !! Z.to_nat (r mod Z.of_nat (length (seats vs))) = Some s.
Proof.
  intros Hne Hr. unfold ValidatorSet.leader. rewrite bool_decide_eq_false_2 by done.
  destruct (seats vs !! _); split; intros H; try done; by injection H as ->.
Qed.

Lemma filter_lookup_count (ss : list Z) i k (f : Z -> outcome Z) :
  (forall j, (j < length ss)%nat -> f (Z.of_nat (k + j)) = Done (default 0 (ss !! j))) ->
  Z.of_nat (length (filter (fun r => f r = Done i) (map Z.of_nat (seq k (length ss)))))
  = seat_count ss i.
Proof.
  unfold seat_count. revert k. induction ss as [|s ss IH]; intros k Hf; [done|].
  simpl. rewrite !filter_cons.
  pose proof (Hf 0%nat ltac:(simpl; lia)) as H0. rewrite Nat.add_0_r in H0. simpl in H0.
  specialize (IH (S k)). rewrite H0.
  assert (Z.of_nat (length (filter (fun r => f r = Done i)
            (map Z.of_nat (seq (S k) (length ss))))) = Z.of_nat (length (filter (fun s => s = i) ss)))
    as E.
  { apply IH. intros j Hj. replace (S k + j)%nat with (k + S j)%nat by lia.
    apply (Hf (S j)). simpl. lia. }
  repeat case_decide; simpl; try lia; exfalso; naive_solver.
Qed.

(** Over a full rotation of the seats every validator leads exactly as many
    rounds as it has weight. *)
Theorem leader_rotation n ss vs k i :
  Forall (fun s => 0 <= s) ss -> 0 < Z.of_nat (length ss) < 2 ^ 64 ->
  ValidatorSet.from_seats n ss = Done vs -> 0 <= i < Z.of_nat n ->
  Z.of_nat (length (filter (fun r => ValidatorSet.leader vs r = Done i)
    (map Z.of_nat (seq (k * length ss) (length ss)))))
  = ValidatorSet.weight vs i.
Proof.
  intros Hs Hl Hd Hi. destruct (from_seats_weights n ss vs) as (Hss & _ & _ & Hw); [done|lia|done|].
  rewrite Hw by done. apply filter_lookup_count. intros j Hj.
  assert (seats vs <> []) as Hne by (rewrite Hss; destruct ss; [simpl in Hl; lia|done]).
  apply leader_seat; [done|lia|]. rewrite Hss.
  replace (Z.of_nat (k * length ss + j)) with (Z.of_nat j + Z.of_nat k * Z.of_nat (length ss)) by lia.
  rewrite Z.mod_add, Z.mod_small, Nat2Z.id by lia.
  destruct (lookup_lt_is_Some_2 ss j Hj) as [x ->]. done.
Qed.

(** ** Bitmaps *)

Lemma sorted_lt_ext (l k : list Z) :
  StronglySorted Z.lt l -> StronglySorted Z.lt k -> (forall i, i ∈ l <-> i ∈ k) -> l = k.
Proof.
  revert k. induction l as [|x l IH]; intros k Hl Hk H.
  { destruct k as [|y k]; [done|]. exfalso. assert (y ∈ []) by (apply H; left). set_solver. }
  destruct k as [|y k].
  { exfalso. assert (x ∈ []) by (apply H; left). set_solver. }
  inversion Hl as [|? ? Hl1 Hx]; inversion Hk as [|? ? Hk1 Hy]; subst.
  rewrite Forall_forall in Hx, Hy.
  assert (x = y) as ->.
  { pose proof (proj1 (H x) ltac:(left)) as [->|Hxk]%elem_of_cons; [done|].
    pose proof (proj2 (H y) ltac:(left)) as [->|Hyl]%elem_of_cons; [done|].
    specialize (Hx _ Hyl). specialize (Hy _ Hxk). lia. }
  f_equal. apply IH; [done..|]. intros i. split; intros Hi.
  - pose proof (proj1 (H i) ltac:(by right)) as [->|]%elem_of_cons; [|done].
    specialize (Hx _ Hi). lia.
  - pose proof (proj2 (H i) ltac:(by right)) as [->|]%elem_of_cons; [|done].
    specialize (Hy _ Hi). lia.
Qed.

Lemma sorted_lt_NoDup (l : list Z) : StronglySorted Z.lt l -> NoDup l.
Proof.
  induction 1 as [|x l Hl IH Hx]; constructor; [|done].
  intros Hi. rewrite Forall_forall in Hx. specialize (Hx _ Hi). lia.
Qed.

Lemma omap_sorted (f : nat -> option Z) l :
  StronglySorted lt l ->
  (forall a b x y, a ∈ l -> b ∈ l -> (a < b)%nat -> f a = Some x -> f b = Some y -> x < y) ->
  StronglySorted Z.lt (omap f l).
Proof.
  intros Hl Hf. induction Hl as [|a l Hl IH Ha]; [constructor|]. simpl.
  assert (StronglySorted Z.lt (omap f l)) as IH'.
  { apply IH. intros b c x y Hb Hc. apply Hf; by right. }
  destruct (f a) as [x|] eqn:E; [|done]. constructor; [done|].
  apply Forall_forall. intros y Hy. apply list_elem_of_omap in Hy as (b & Hb & Eb).
  rewrite Forall_forall in Ha. eapply Hf; [left|by right|by apply Ha|done..].
Qed.

Lemma seq_sorted k n : StronglySorted lt (seq k n).
Proof.
  revert k. induction n as [|n IH]; intros k; simpl; constructor; [done|].
  apply Forall_forall. intros x Hx%list_elem_of_In%in_seq. lia.
Qed.

Module BitmapFacts.
Import Bitmap.

(** Bit [i] of the bitmap [b]. *)
Definition bit (b : bytes) (i : Z) : bool :=
  Z.testbit (default 0 (b !! Z.to_nat (i / 8))) (i mod 8).

Lemma elem_of_decode_byte k x i :
  Z.of_nat k * 8 + 8 <= 65536 ->
  i ∈ decode_byte k x
  <-> exists j, 0 <= j < 8 /\ i = Z.of_nat k * 8 + j /\ Z.testbit x j = true.
Proof.
  intros Hk. unfold decode_byte. rewrite list_elem_of_omap. split.
  - intros (j & Hj%list_elem_of_In%in_seq & E). destruct (Z.testbit x _) eqn:Et; [|done].
    injection E as <-. exists (Z.of_nat j). rewrite wrap_small by (unfold in_range; lia).
    split; [lia|]. done.
  - intros (j & Hj & -> & Et). exists (Z.to_nat j). split.
    { apply list_elem_of_In, in_seq. lia. }
    rewrite Z2Nat.id by lia. rewrite Et, wrap_small by (unfold in_range; lia). done.
Qed.

Lemma decode_byte_sorted k x :
  Z.of_nat k * 8 + 8 <= 65536 -> StronglySorted Z.lt (decode_byte k x).
Proof.
  intros Hk. unfold decode_byte. apply (omap_sorted _ (seq 0 8)); [apply seq_sorted|].
  intros a c y z Ha%list_elem_of_In%in_seq Hc%list_elem_of_In%in_seq Hac Ea Ec.
  destruct (Z.testbit x (Z.of_nat a)); [|done]. destruct (Z.testbit x (Z.of_nat c)); [|done].
  injection Ea as <-. injection Ec as <-. rewrite !wrap_small by (unfold in_range; lia). lia.
Qed.

Definition decode_from (k : nat) (b : bytes) : list Z :=
  concat (imap (fun j => decode_byte (k + j)) b).

Lemma decode_from_cons k x b :
  decode_from k (x :: b) = decode_byte k x ++ decode_from (S k) b.
Proof.
  unfold decode_from. simpl. rewrite Nat.add_0_r. f_equal. f_equal.
  apply imap_ext. intros j y _. simpl. f_equal. lia.
Qed.

Lemma elem_of_decode_from k b i :
  (Z.of_nat k + Z.of_nat (length b)) * 8 <= 65536 ->
  i ∈ decode_from k b
  <-> Z.of_nat k * 8 <= i /\ Z.testbit (default 0 (b !! (Z.to_nat (i / 8) - k)%nat)) (i mod 8) = true.
Proof.
  revert k. induction b as [|x b IH]; intros k Hk.
  { change (decode_from k []) with (@nil Z). change (@nil Z !! _) with (@None Z).
    cbn [default]. rewrite Z.testbit_0_l. set_solver. }
  simpl in Hk. rewrite decode_from_cons, elem_of_app, IH, elem_of_decode_byte by lia. split.
  - intros [(j & Hj & -> & Et)|[Hi Et]].
    + split; [lia|]. replace ((Z.of_nat k * 8 + j) / 8) with (Z.of_nat k) by
        (rewrite Z.add_comm, Z.div_add, Z.div_small; lia).
      replace ((Z.of_nat k * 8 + j) mod 8) with j by
        (rewrite Z.add_comm, Z.mod_add, Z.mod_small; lia).
      rewrite Nat2Z.id, Nat.sub_diag. done.
    + split; [lia|]. assert (S k <= Z.to_nat (i / 8))%nat.
      { apply Nat2Z.inj_le. rewrite Z2Nat.id by (apply Z.div_pos; lia).
        apply Z.div_le_lower_bound; lia. }
      replace (Z.to_nat (i / 8) - k)%nat with (S (Z.to_nat (i / 8) - S k)) by lia. done.
  - intros [Hi Et]. assert (0 <= i) as H0 by lia. pose proof (Z.div_pos i 8 H0 ltac:(lia)).
    pose proof (Z.mod_pos_bound i 8 ltac:(lia)). pose proof (Z.div_mod i 8 ltac:(lia)).
    destruct (decide (Z.to_nat (i / 8) = k)) as [E|Hne].
    + left. rewrite E, Nat.sub_diag in Et. exists (i mod 8). split; [done|]. split; [lia|done].
    + right. split; [lia|].
      replace (Z.to_nat (i / 8) - k)%nat with (S (Z.to_nat (i / 8) - S k)) in Et by lia. done.
Qed.

Lemma decode_from_sorted k b :
  (Z.of_nat k + Z.of_nat (length b)) * 8 <= 65536 -> StronglySorted Z.lt (decode_from k b).
Proof.
  revert k. induction b as [|x b IH]; intros k Hk; [constructor|]. simpl in Hk.
  rewrite decode_from_cons. apply StronglySorted_app_2; [|apply decode_byte_sorted; lia|
    apply IH; lia].
  intros y z Hy Hz. apply elem_of_decode_byte in Hy as (j & Hj & -> & _); [|lia].
  apply elem_of_decode_from in Hz as [Hz _]; lia.
Qed.

Lemma decode_sorted b : Z.of_nat (length b) * 8 <= 65536 -> StronglySorted Z.lt (decode b).
Proof. intros. apply (decode_from_sorted 0). lia. Qed.

Lemma elem_of_decode b i :
  Z.of_nat (length b) * 8 <= 65536 -> i ∈ decode b <-> 0 <= i /\ bit b i = true.
Proof.
  intros. change (decode b) with (decode_from 0 b). rewrite elem_of_decode_from by lia.
  unfold bit. rewrite Nat.sub_0_r. done.
Qed.

Lemma bit_set_bit n b i j :
  0 <= i -> 0 <= j -> (i < Z.of_nat n -> (Z.to_nat (i / 8) < length b)%nat) ->
  bit (set_bit n b i) j = (bit b j || ((i =? j) && (i <? Z.of_nat n)))%bool.
Proof.
  intros Hi Hj Hlen. unfold bit, set_bit.
  destruct (Z.ltb_spec i (Z.of_nat n)) as [Hn|]; [|by rewrite andb_false_r, orb_false_r].
  rewrite andb_true_r. specialize (Hlen Hn).
  pose proof (Z.mod_pos_bound i 8 ltac:(lia)). pose proof (Z.mod_pos_bound j 8 ltac:(lia)).
  pose proof (Z.div_mod i 8 ltac:(lia)). pose proof (Z.div_mod j 8 ltac:(lia)).
  pose proof (Z.div_pos i 8 Hi ltac:(lia)). pose proof (Z.div_pos j 8 Hj ltac:(lia)).
  destruct (decide (Z.to_nat (i / 8) = Z.to_nat (j / 8))) as [E|Hne].
  - destruct (lookup_lt_is_Some_2 b _ Hlen) as [x Hx].
    rewrite <-E, list_lookup_alter_eq, Hx. simpl. rewrite Z.lor_spec, Z.shiftl_spec by lia.
    f_equal. destruct (Z.eqb_spec i j) as [<-|Hij]; [by rewrite Z.sub_diag|].
    assert (j mod 8 - i mod 8 <> 0) as Hne by lia.
    change 1 with (2 ^ 0). by apply Z.pow2_bits_false.
  - rewrite list_lookup_alter_ne by done. destruct (Z.eqb_spec i j) as [->|];
      [done|by rewrite orb_false_r].
Qed.

Lemma length_set_bit n b i : length (set_bit n b i) = length b.
Proof. unfold set_bit. destruct (_ <? _); [apply length_alter|done]. Qed.

Lemma length_encode l n : length (encode l n) = Z.to_nat (div_ceil (Z.of_nat n) 8).
Proof.
  unfold encode. generalize (Z.to_nat (div_ceil (Z.of_nat n) 8)) as m. intros m.
  induction l as [|i l IH] using rev_ind; simpl; [apply length_replicate|].
  rewrite foldl_app. cbn [foldl]. by rewrite length_set_bit.
Qed.

Lemma div_ceil_bound n i :
  0 <= i < Z.of_nat n -> (Z.to_nat (i / 8) < Z.to_nat (div_ceil (Z.of_nat n) 8))%nat.
Proof.
  intros Hi. unfold div_ceil. apply Z2Nat.inj_lt.
  - apply Z.div_pos; lia.
  - apply Z.div_pos; lia.
  - pose proof (Z.div_mod i 8 ltac:(lia)). pose proof (Z.mod_pos_bound i 8 ltac:(lia)).
    assert (i / 8 + 1 <= (Z.of_nat n + 8 - 1) / 8); [|lia].
    apply Z.div_le_lower_bound; lia.
Qed.

Lemma bit_encode l n j :
  Forall (fun i => 0 <= i) l -> 0 <= j ->
  bit (encode l n) j = bool_decide (j ∈ l /\ j < Z.of_nat n).
Proof.
  intros Hl Hj. induction l as [|i l IH] using rev_ind.
  - rewrite bool_decide_eq_false_2 by set_solver. unfold bit, encode. simpl.
    destruct (replicate _ _ !! _) as [x|] eqn:E; simpl; [|apply Z.testbit_0_l].
    apply lookup_replicate in E as [-> _]. apply Z.testbit_0_l.
  - apply Forall_app in Hl as [Hl Hi]. inversion Hi; subst. specialize (IH Hl).
    unfold encode in *. rewrite foldl_app. cbn [foldl].
    rewrite bit_set_bit, IH; [|done|done|].
    + apply eq_true_iff_eq. rewrite orb_true_iff, andb_true_iff, !bool_decide_eq_true.
      rewrite elem_of_app, list_elem_of_singleton, Z.eqb_eq, Z.ltb_lt. naive_solver.
    + intros Hn. fold (encode l n). rewrite length_encode. apply div_ceil_bound. lia.
Qed.

Lemma encode_width l n : Z.of_nat n <= 65536 -> Z.of_nat (length (encode l n)) * 8 <= 65536.
Proof.
  intros Hn. rewrite length_encode. unfold div_ceil.
  rewrite Z2Nat.id by (apply Z.div_pos; lia).
  assert ((Z.of_nat n + 8 - 1) / 8 < 8193); [|lia]. apply Z.div_lt_upper_bound; lia.
Qed.

(** The bitmap of a set of validators lists exactly them, in ascending order. *)
Lemma decode_encode l n :
  Z.of_nat n <= 65536 -> StronglySorted Z.lt l ->
  Forall (fun i => 0 <= i < Z.of_nat n) l -> decode (encode l n) = l.
Proof.
  intros Hn Hs Hl. pose proof (encode_width l n Hn) as Hw.
  apply sorted_lt_ext; [by apply decode_sorted|done|]. intros i.
  rewrite elem_of_decode by done. rewrite Forall_forall in Hl. split.
  - intros [Hi Hb]. rewrite bit_encode in Hb; [|apply Forall_forall; intros ? ?%Hl; lia|done].
    apply bool_decide_eq_true in Hb. apply Hb.
  - intros Hi. specialize (Hl _ Hi) as Hr. split; [lia|].
    rewrite bit_encode; [|apply Forall_forall; intros ? ?%Hl; lia|lia].
    apply bool_decide_eq_true. split; [done|lia].
Qed.
End BitmapFacts.

(** ** Signed byte strings *)

Lemma domain_msg_inj tag c c' e e' r r' x x' :
  in_range 64 c -> in_range 64 c' -> in_range 64 e -> in_range 64 e' ->
  in_range 64 r -> in_range 64 r' ->
  domain_msg tag c e r x = domain_msg tag c' e' r' x' -> c = c' /\ e = e' /\ r = r' /\ x = x'.
Proof.
  intros ? ? ? ? ? ?. unfold domain_msg. intros E%app_inv_head.
  apply app_inj_1 in E as [E1 E]; [|by rewrite !be_bytes_length].
  apply app_inj_1 in E as [E2 E]; [|by rewrite !be_bytes_length].
  apply app_inj_1 in E as [E3 E]; [|by rewrite !be_bytes_length].
  repeat split; [by apply (be_bytes_inj 8)|by apply (be_bytes_inj 8)|by apply (be_bytes_inj 8)|done].
Qed.

Lemma vote_msg_inj c c' e e' r r' b b' :
  in_range 64 c -> in_range 64 c' -> in_range 64 e -> in_range 64 e' ->
  in_range 64 r -> in_range 64 r' -> in_range 256 b -> in_range 256 b' ->
  vote_msg c e r b = vote_msg c' e' r' b' -> c = c' /\ e = e' /\ r = r' /\ b = b'.
Proof.
  intros ? ? ? ? ? ? ? ? E. apply domain_msg_inj in E as (-> & -> & -> & E); try done.
  repeat split. by apply (be_bytes_inj 32).
Qed.

Lemma timeout_msg_inj c c' e e' r r' q q' :
  in_range 64 c -> in_range 64 c' -> in_range 64 e -> in_range 64 e' ->
  in_range 64 r -> in_range 64 r' -> in_range 64 q -> in_range 64 q' ->
  timeout_msg c e r q = timeout_msg c' e' r' q' -> c = c' /\ e = e' /\ r = r' /\ q = q'.
Proof.
  intros ? ? ? ? ? ? ? ? E. apply domain_msg_inj in E as (-> & -> & -> & E); try done.
  repeat split. by apply (be_bytes_inj 8).
Qed.

Lemma vote_not_timeout c c' e e' r r' b q : vote_msg c e r b <> timeout_msg c' e' r' q.
Proof. intros E. done. Qed.

Lemma vote_not_proposal `{Keccak} c c' e e' r r' b b' pl :
  vote_msg c e r b <> proposal_msg c' e' r' b' pl.
Proof. intros E. done. Qed.

Lemma timeout_not_proposal `{Keccak} c c' e e' r r' q b pl :
  timeout_msg c e r q <> proposal_msg c' e' r' b pl.
Proof. intros E. done. Qed.

Lemma randao_not_vote c h c' e r b : randao_msg c h <> vote_msg c' e r b.
Proof. intros E. done. Qed.

