(* ===== verification/Engine.v ===== *)
(** * The consensus engine

    Models crates/consensus/src/engine.rs: two-chain HotStuff with Jolteon's voting and timeout
    rules, as the state machine of the source.  [Engine] is the struct, each method is a
    definition in the effect monad [M Engine Action] (the mutated engine and the actions pushed
    to [out]); [self.cfg] and [self.scheme] are never assigned after construction and are
    arguments.  The methods call one another recursively (a certificate enters a round, which may
    propose a nil block, whose vote may complete a certificate): they are defined by fuel, and
    EngineTermination.v shows that fuel always suffices.

    [HashMap]s and [BTreeMap]s are [gmap]s; where the source iterates over a [BTreeMap] the model
    lists it in key order. *)

From S2P Require Import Prelude Types.
From stdpp Require Import base list list_numbers sorting gmap strings.
From Stdlib Require Import ZArith Lia.

Open Scope Z_scope.
Open Scope bolt_scope.

Record Config := mkConfig {
  chain_id : Z;
  epoch : Z;
  validators : ValidatorSet;
  me : list ValidatorIndex;
  anchor : BlockInfo;
  end_height : Z;
  base_timeout_ms : Z;
}.

(** Single-epoch configuration starting at genesis. *)
Definition Config_genesis (chain_id : Z) (validators : ValidatorSet)
    (me : option ValidatorIndex) (genesis : B256) (base_timeout_ms : Z) : Config :=
  mkConfig chain_id 0 validators (option_list me) (mkBlock genesis 0 0 0) U64_MAX
    base_timeout_ms.

Record Persisted `{Scheme} := mkPersisted {
  ps_epoch : Z;
  ps_committed : BlockInfo;
  ps_committed_qc : Qc;
  ps_high_qc : Qc;
  ps_last_voted : Round;
  ps_blocks : list BlockInfo;
}.
Arguments mkPersisted {_}.

Inductive Action `{Scheme} :=
| Broadcast (m : Message)
| SendTo (to : ValidatorIndex) (m : Message)
| Validate (p : Proposal)
| Propose (round : Round) (qc : Qc) (tc : option Tc)
| Commit (blocks : list BlockInfo) (proof : CommitProof)
| FetchBlock (h : B256)
| EpochEnd (block : BlockInfo) (proof : CommitProof)
| ScheduleTimeout (round : Round) (after_ms : Z).

Record VoteSet `{Scheme} := mkVoteSet {
  vs_height : Z;
  vs_sigs : gmap ValidatorIndex Sig;
  vs_pending : gmap ValidatorIndex Sig;
  vs_done : bool;
}.
Arguments mkVoteSet {_}.

Record TimeoutSet `{Scheme} := mkTimeoutSet {
  ts_entries : gmap ValidatorIndex (Round * Sig);
  ts_high_qc : Qc;
  ts_done : bool;
}.
Arguments mkTimeoutSet {_}.

(** What an engine puts its signature on: a vote for a proposal's block, a timeout of a round
    with the certificate it reports, a proposal. *)
Inductive Signed `{Scheme} :=
| SignedVote (p : Proposal)
| SignedTimeout (round : Round) (high_qc : Qc)
| SignedProposal (block : BlockInfo) (payload : bytes).

Record Engine `{Scheme} := mkEngine {
  e_round : Round;
  e_last_voted : Round;
  e_high_qc : Qc;
  e_entry_tc : option Tc;
  e_blocks : gmap B256 BlockInfo;
  e_qcs : gmap B256 Qc;
  e_committed : BlockInfo;
  e_votes : gmap (Round * B256) VoteSet;
  e_timeouts : gmap Round TimeoutSet;
  e_pending : gmap B256 Proposal;
  e_timed_out : gset Round;
  e_proposed : gset Round;
  e_consecutive_timeouts : Z;
  e_blocked_commit : option Qc;
  e_requested : gset B256;
  e_finished : bool;
  (** History variable: what the engine signed, latest first. Never read by the code. *)
  e_signed : list Signed;
}.
Arguments mkEngine {_}.

(** Field assignments. *)
Section setters.
Context `{Scheme}.

Definition set_round (v : Round) (e : Engine) : Engine :=
  mkEngine
    v (e_last_voted e) (e_high_qc e) (e_entry_tc e) (e_blocks e) (e_qcs e)
    (e_committed e) (e_votes e) (e_timeouts e) (e_pending e) (e_timed_out e)
    (e_proposed e) (e_consecutive_timeouts e) (e_blocked_commit e) (e_requested e)
    (e_finished e) (e_signed e).
Definition set_last_voted (v : Round) (e : Engine) : Engine :=
  mkEngine
    (e_round e) v (e_high_qc e) (e_entry_tc e) (e_blocks e) (e_qcs e) (e_committed e)
    (e_votes e) (e_timeouts e) (e_pending e) (e_timed_out e) (e_proposed e)
    (e_consecutive_timeouts e) (e_blocked_commit e) (e_requested e) (e_finished e)
    (e_signed e).
Definition set_high_qc (v : Qc) (e : Engine) : Engine :=
  mkEngine
    (e_round e) (e_last_voted e) v (e_entry_tc e) (e_blocks e) (e_qcs e) (e_committed
    e) (e_votes e) (e_timeouts e) (e_pending e) (e_timed_out e) (e_proposed e)
    (e_consecutive_timeouts e) (e_blocked_commit e) (e_requested e) (e_finished e)
    (e_signed e).
Definition set_entry_tc (v : option Tc) (e : Engine) : Engine :=
  mkEngine
    (e_round e) (e_last_voted e) (e_high_qc e) v (e_blocks e) (e_qcs e) (e_committed
    e) (e_votes e) (e_timeouts e) (e_pending e) (e_timed_out e) (e_proposed e)
    (e_consecutive_timeouts e) (e_blocked_commit e) (e_requested e) (e_finished e)
    (e_signed e).
Definition set_blocks (v : gmap B256 BlockInfo) (e : Engine) : Engine :=
  mkEngine
    (e_round e) (e_last_voted e) (e_high_qc e) (e_entry_tc e) v (e_qcs e) (e_committed
    e) (e_votes e) (e_timeouts e) (e_pending e) (e_timed_out e) (e_proposed e)
    (e_consecutive_timeouts e) (e_blocked_commit e) (e_requested e) (e_finished e)
    (e_signed e).
Definition set_qcs (v : gmap B256 Qc) (e : Engine) : Engine :=
  mkEngine
    (e_round e) (e_last_voted e) (e_high_qc e) (e_entry_tc e) (e_blocks e) v
    (e_committed e) (e_votes e) (e_timeouts e) (e_pending e) (e_timed_out e)
    (e_proposed e) (e_consecutive_timeouts e) (e_blocked_commit e) (e_requested e)
    (e_finished e) (e_signed e).
Definition set_committed (v : BlockInfo) (e : Engine) : Engine :=
  mkEngine
    (e_round e) (e_last_voted e) (e_high_qc e) (e_entry_tc e) (e_blocks e) (e_qcs e) v
    (e_votes e) (e_timeouts e) (e_pending e) (e_timed_out e) (e_proposed e)
    (e_consecutive_timeouts e) (e_blocked_commit e) (e_requested e) (e_finished e)
    (e_signed e).
Definition set_votes (v : gmap (Round * B256) VoteSet) (e : Engine) : Engine :=
  mkEngine
    (e_round e) (e_last_voted e) (e_high_qc e) (e_entry_tc e) (e_blocks e) (e_qcs e)
    (e_committed e) v (e_timeouts e) (e_pending e) (e_timed_out e) (e_proposed e)
    (e_consecutive_timeouts e) (e_blocked_commit e) (e_requested e) (e_finished e)
    (e_signed e).
Definition set_timeouts (v : gmap Round TimeoutSet) (e : Engine) : Engine :=
  mkEngine
    (e_round e) (e_last_voted e) (e_high_qc e) (e_entry_tc e) (e_blocks e) (e_qcs e)
    (e_committed e) (e_votes e) v (e_pending e) (e_timed_out e) (e_proposed e)
    (e_consecutive_timeouts e) (e_blocked_commit e) (e_requested e) (e_finished e)
    (e_signed e).
Definition set_pending (v : gmap B256 Proposal) (e : Engine) : Engine :=
  mkEngine
    (e_round e) (e_last_voted e) (e_high_qc e) (e_entry_tc e) (e_blocks e) (e_qcs e)
    (e_committed e) (e_votes e) (e_timeouts e) v (e_timed_out e) (e_proposed e)
    (e_consecutive_timeouts e) (e_blocked_commit e) (e_requested e) (e_finished e)
    (e_signed e).
Definition set_timed_out (v : gset Round) (e : Engine) : Engine :=
  mkEngine
    (e_round e) (e_last_voted e) (e_high_qc e) (e_entry_tc e) (e_blocks e) (e_qcs e)
    (e_committed e) (e_votes e) (e_timeouts e) (e_pending e) v (e_proposed e)
    (e_consecutive_timeouts e) (e_blocked_commit e) (e_requested e) (e_finished e)
    (e_signed e).
Definition set_proposed (v : gset Round) (e : Engine) : Engine :=
  mkEngine
    (e_round e) (e_last_voted e) (e_high_qc e) (e_entry_tc e) (e_blocks e) (e_qcs e)
    (e_committed e) (e_votes e) (e_timeouts e) (e_pending e) (e_timed_out e) v
    (e_consecutive_timeouts e) (e_blocked_commit e) (e_requested e) (e_finished e)
    (e_signed e).
Definition set_consecutive_timeouts (v : Z) (e : Engine) : Engine :=
  mkEngine
    (e_round e) (e_last_voted e) (e_high_qc e) (e_entry_tc e) (e_blocks e) (e_qcs e)
    (e_committed e) (e_votes e) (e_timeouts e) (e_pending e) (e_timed_out e)
    (e_proposed e) v (e_blocked_commit e) (e_requested e) (e_finished e) (e_signed e).
Definition set_blocked_commit (v : option Qc) (e : Engine) : Engine :=
  mkEngine
    (e_round e) (e_last_voted e) (e_high_qc e) (e_entry_tc e) (e_blocks e) (e_qcs e)
    (e_committed e) (e_votes e) (e_timeouts e) (e_pending e) (e_timed_out e)
    (e_proposed e) (e_consecutive_timeouts e) v (e_requested e) (e_finished e)
    (e_signed e).
Definition set_requested (v : gset B256) (e : Engine) : Engine :=
  mkEngine
    (e_round e) (e_last_voted e) (e_high_qc e) (e_entry_tc e) (e_blocks e) (e_qcs e)
    (e_committed e) (e_votes e) (e_timeouts e) (e_pending e) (e_timed_out e)
    (e_proposed e) (e_consecutive_timeouts e) (e_blocked_commit e) v (e_finished e)
    (e_signed e).
Definition set_finished (v : bool) (e : Engine) : Engine :=
  mkEngine
    (e_round e) (e_last_voted e) (e_high_qc e) (e_entry_tc e) (e_blocks e) (e_qcs e)
    (e_committed e) (e_votes e) (e_timeouts e) (e_pending e) (e_timed_out e)
    (e_proposed e) (e_consecutive_timeouts e) (e_blocked_commit e) (e_requested e) v
    (e_signed e).
Definition set_signed (v : list Signed) (e : Engine) : Engine :=
  mkEngine
    (e_round e) (e_last_voted e) (e_high_qc e) (e_entry_tc e) (e_blocks e) (e_qcs e)
    (e_committed e) (e_votes e) (e_timeouts e) (e_pending e) (e_timed_out e)
    (e_proposed e) (e_consecutive_timeouts e) (e_blocked_commit e) (e_requested e)
    (e_finished e) v.
End setters.

(** Entries of a [BTreeMap] keyed by index, in key order. *)
Definition key_le {A} (x y : Z * A) : Prop := fst x <= fst y.
#[export] Instance key_le_dec {A} : RelDecision (@key_le A).
Proof. intros x y. unfold key_le. apply _. Defined.

Definition btree_to_list {A} (m : gmap Z A) : list (Z * A) := merge_sort key_le (map_to_list m).
Definition btree_keys {A} (m : gmap Z A) : list Z := map fst (btree_to_list m).
Definition btree_values {A} (m : gmap Z A) : list A := map snd (btree_to_list m).

(** What following parent links from a block down to the committed block finds. *)
Inductive Walk :=
| WalkChain (chain : list BlockInfo)   (** the blocks passed, newest first *)
| WalkFork                             (** a block at or below the committed height *)
| WalkMissing (h : B256)               (** a parent that is not in the tree *)
| WalkLoop.                            (** more steps than blocks: the loop does not end *)

Section engine.
Context `{S : Scheme} `{K : Keccak}.

Abbreviation MM := (M Engine Action).

(** ** Construction *)

Definition new (cfg : Config) : Engine :=
  let a := anchor cfg in
  let gqc := Qc_anchor (epoch cfg) (b_hash a) (b_height a) in
  {| e_round := 0; e_last_voted := 0; e_high_qc := gqc; e_entry_tc := None;
     e_blocks := {[ b_hash a := a ]}; e_qcs := {[ b_hash a := gqc ]};
     e_committed := a; e_votes := ∅; e_timeouts := ∅; e_pending := ∅;
     e_timed_out := ∅; e_proposed := ∅; e_consecutive_timeouts := 0;
     e_blocked_commit := None; e_requested := ∅; e_finished := false; e_signed := [] |}.

(** The persisted committed block replaces the tree when it is above the anchor. *)
Definition resume_committed (cfg : Config) (p : Persisted) (e : Engine) : Engine :=
  if b_height (anchor cfg) <? b_height (ps_committed p) then
    let c := ps_committed p in
    set_committed c
      (set_qcs {[ b_hash c := ps_committed_qc p ]}
        (set_blocks {[ b_hash c := c ]} e))
  else e.

Definition resume_block (h : Z) (m : gmap B256 BlockInfo) (b : BlockInfo)
  : gmap B256 BlockInfo :=
  if h <? b_height b then <[b_hash b := b]> m else m.

Definition resume (cfg : Config) (p : Persisted) : Engine :=
  let e := new cfg in
  if negb (ps_epoch p =? epoch cfg) then e
  else
    let e := resume_committed cfg p e in
    let e := set_blocks
      (foldl (resume_block (b_height (e_committed e))) (e_blocks e) (ps_blocks p)) e in
    let e := set_qcs (<[qc_block (ps_high_qc p) := ps_high_qc p]> (e_qcs e)) e in
    let e := set_high_qc (ps_high_qc p) e in
    let e := set_last_voted (ps_last_voted p) e in
    set_round (Z.max (qc_round (e_high_qc e)) (e_last_voted e)) e.

Definition reanchored (cfg : Config) (last_voted : Round) : Engine :=
  set_round last_voted (set_last_voted last_voted (new cfg)).

(** [sort_by_key(|b| (b.height, b.round))]. *)
Definition block_key_le (x y : BlockInfo) : Prop :=
  b_height x < b_height y \/ (b_height x = b_height y /\ b_round x <= b_round y).
#[export] Instance block_key_le_dec : RelDecision block_key_le.
Proof. intros x y. unfold block_key_le. apply _. Defined.

Definition anchor_qc (cfg : Config) : Qc :=
  Qc_anchor (epoch cfg) (b_hash (anchor cfg)) (b_height (anchor cfg)).

Definition persisted (cfg : Config) (e : Engine) : Persisted :=
  mkPersisted (epoch cfg) (e_committed e)
    (default (anchor_qc cfg) (e_qcs e !! b_hash (e_committed e)))
    (e_high_qc e) (e_last_voted e)
    (merge_sort block_key_le
       (List.filter (fun b => b_height (e_committed e) <? b_height b)
          (map snd (map_to_list (e_blocks e))))).

(** ** Queries *)

Definition certified_round (e : Engine) (block : B256) : option Round :=
  qc_round <$> e_qcs e !! block.

Definition is_me (cfg : Config) (v : ValidatorIndex) : bool := bool_decide (v ∈ me cfg).

Definition is_nil_height (cfg : Config) (height : Z) : bool := end_height cfg <? height.

Definition leader (cfg : Config) (r : Round) : outcome ValidatorIndex :=
  ValidatorSet.leader (validators cfg) r.

Definition timeout_ms (cfg : Config) (e : Engine) : Z :=
  u64 (Z.shiftl (base_timeout_ms cfg) (Z.min (e_consecutive_timeouts e) 3)).

Definition verify_qc (cfg : Config) (q : Qc) : bool :=
  Qc_verify (validators cfg) (chain_id cfg) (epoch cfg) (b_hash (anchor cfg)) q.

Definition verify_tc (cfg : Config) (tc : Tc) : bool :=
  Tc_verify (validators cfg) (chain_id cfg) (epoch cfg) (b_hash (anchor cfg)) tc.

Definition safe_to_vote (p : Proposal) : bool :=
  let r := b_round (p_block p) in
  if u64 (qc_round (p_qc p) + 1) =? r then true
  else
    match p_tc p with
    | Some tc => (u64 (tc_round tc + 1) =? r) && (max_qc_round tc <=? qc_round (p_qc p))
    | None => false
    end.

(** ** Pruning and commits *)

(** [*r + 1 >= keep_from]. *)
Definition keeps (keep_from r : Round) : bool := keep_from <=? u64 (r + 1).

Definition prune_engine (e : Engine) : Engine :=
  let keep_from := saturating_sub (e_round e) 2 in
  let h := b_height (e_committed e) in
  let blocks := filter (fun kv => h <= b_height (snd kv)) (e_blocks e) in
  set_qcs (filter (fun kv => is_Some (blocks !! fst kv)) (e_qcs e))
    (set_blocks blocks
      (set_pending (filter (fun kv => h < b_height (p_block (snd kv))) (e_pending e))
        (set_proposed (filter (fun r => Is_true (keeps keep_from r)) (e_proposed e))
          (set_timed_out (filter (fun r => Is_true (keeps keep_from r)) (e_timed_out e))
            (set_timeouts
              (filter (fun kv => Is_true (keeps keep_from (fst kv))) (e_timeouts e))
              (set_votes
                (filter (fun kv => Is_true (keeps keep_from (fst (fst kv)))) (e_votes e))
                e)))))).

(** Keeps the latest certificate whose commit is blocked. *)
Definition blocked_by (qc : Qc) (e : Engine) : Engine :=
  match e_blocked_commit e with
  | Some q => if qc_round q <? qc_round qc then set_blocked_commit (Some qc) e else e
  | None => set_blocked_commit (Some qc) e
  end.

Definition unblocked_by (qc : Qc) (e : Engine) : Engine :=
  match e_blocked_commit e with
  | Some q => if qc_round q <=? qc_round qc then set_blocked_commit None e else e
  | None => e
  end.

Definition block_on (qc : Qc) (missing : B256) : MM unit :=
  modify (blocked_by qc) ;;
  e <- get ;
  if bool_decide (missing ∈ e_requested e) then ret tt
  else modify (set_requested ({[missing]} ∪ e_requested e)) ;; push (FetchBlock missing).

Fixpoint walk_back (n : nat) (e : Engine) (cur : BlockInfo) (chain : list BlockInfo) : Walk :=
  if b_parent cur =? b_hash (e_committed e) then WalkChain chain
  else
    match n with
    | O => WalkLoop
    | Datatypes.S n =>
        match e_blocks e !! b_parent cur with
        | Some parent =>
            if b_height (e_committed e) <? b_height parent
            then walk_back n e parent (chain ++ [parent])
            else WalkFork
        | None => WalkMissing (b_parent cur)
        end
    end.

(** The loop of [proof_for] over the nil blocks: the rounds passed and the last real block;
    a parent missing from the tree aborts ([expect]). *)
Fixpoint nil_walk (n : nat) (e : Engine) (end_ : Z) (cur : BlockInfo) (rounds : list Round)
  : outcome (list Round * BlockInfo) :=
  if end_ <? b_height cur then
    match n with
    | O => OutOfFuel
    | Datatypes.S n =>
        match e_blocks e !! b_parent cur with
        | Some parent => nil_walk n e end_ parent (rounds ++ [b_round cur])
        | None => Panic
        end
    end
  else Done (rounds, cur).

Definition walk_fuel (e : Engine) : nat := Datatypes.S (size (e_blocks e)).

Definition proof_for (cfg : Config) (e : Engine) (p b : BlockInfo) (pqc bqc : Qc)
  : outcome CommitProof :=
  if b_height b <=? end_height cfg then
    Done (mkCommitProof pqc bqc [] [] (b_hash p) (b_height p))
  else
    match nil_walk (walk_fuel e) e (end_height cfg) p [b_round b] with
    | Done (rounds, cur) =>
        Done (mkCommitProof pqc bqc [] (reverse rounds) (b_hash cur) (b_height cur))
    | Panic => Panic
    | OutOfFuel => OutOfFuel
    end.

(** The part of [try_commit] after the walk: P and its ancestors become final. *)
Definition commit_chain (cfg : Config) (qc : Qc) (b p : BlockInfo) (pqc : Qc)
    (chain : list BlockInfo) : MM unit :=
  let end_ := end_height cfg in
  modify (set_committed p) ;;
  modify (unblocked_by qc) ;;
  let real := List.filter (fun x => b_height x <=? end_) (reverse chain) in
  e <- get ;
  proof <- lift (proof_for cfg e p b pqc qc) ;
  (if bool_decide (real = []) then ret tt else push (Commit real proof)) ;;
  if end_ <=? b_height p then
    modify (set_finished true) ;;
    e <- get ;
    push (EpochEnd (default p (e_blocks e !! cp_committed proof)) proof)
  else ret tt.

Definition try_commit (cfg : Config) (qc : Qc) : MM unit :=
  e <- get ;
  if e_finished e then ret tt else
  match e_blocks e !! qc_block qc with
  | None => block_on qc (qc_block qc)
  | Some b =>
      match e_blocks e !! b_parent b with
      | None =>
          if u64 (b_height (e_committed e) + 1) <? b_height b then block_on qc (b_parent b)
          else ret tt
      | Some p =>
          if negb (u64 (b_round p + 1) =? b_round b)
             || (b_height p <=? b_height (e_committed e)) then ret tt
          else
            match e_qcs e !! b_hash p with
            | None => ret tt
            | Some pqc =>
                match walk_back (walk_fuel e) e p [p] with
                | WalkFork => ret tt
                | WalkMissing h => block_on qc h
                | WalkLoop => no_fuel
                | WalkChain chain => commit_chain cfg qc b p pqc chain
                end
            end
      end
  end.

(** ** Vote collection *)

(** [for sig in [old, v.sig] { if verify { sigs.insert; break } }]. *)
Definition insert_genuine (signer : ValidatorIndex) (msg : bytes) (old new : Sig)
    (sigs : gmap ValidatorIndex Sig) : gmap ValidatorIndex Sig :=
  if verify signer msg old then <[signer := old]> sigs
  else if verify signer msg new then <[signer := new]> sigs
  else sigs.

(** Adds vote [v] to its set; [None] when the method returns at once. *)
Definition vote_set_add (set : VoteSet) (v : Vote) (msg : bytes) : option VoteSet :=
  if vs_done set || negb (vs_height set =? v_height v)
     || bool_decide (is_Some (vs_sigs set !! v_signer v)) then None
  else
    match vs_pending set !! v_signer v with
    | Some s =>
        if bool_decide (s = v_sig v) then None
        else Some (mkVoteSet (vs_height set)
                     (insert_genuine (v_signer v) msg s (v_sig v) (vs_sigs set))
                     (delete (v_signer v) (vs_pending set)) (vs_done set))
    | None =>
        Some (mkVoteSet (vs_height set) (vs_sigs set)
                (<[v_signer v := v_sig v]> (vs_pending set)) (vs_done set))
    end.

(** Moves the pending votes that verify to the checked ones. *)
Definition check_pending (msg : bytes) (set : VoteSet) : VoteSet :=
  mkVoteSet (vs_height set)
    (foldl (fun sigs '(i, sig) => if verify i msg sig then <[i := sig]> sigs else sigs)
       (vs_sigs set) (btree_to_list (vs_pending set)))
    ∅ (vs_done set).

Definition set_done (set : VoteSet) : VoteSet :=
  mkVoteSet (vs_height set) (vs_sigs set) (vs_pending set) true.

(** Whether the collected votes make a certificate: the new set, and the signers and
    aggregate if they do. *)
Definition vote_set_certify (vs : ValidatorSet) (msg : bytes) (set : VoteSet)
  : VoteSet * option (list ValidatorIndex * Agg) :=
  let all := btree_keys (vs_sigs set) ++ btree_keys (vs_pending set) in
  if negb (ValidatorSet.is_quorum vs (ValidatorSet.weight_of vs all)) then (set, None)
  else
    let signers := sort_unstable all in
    let sig_of i := match vs_sigs set !! i with
                    | Some s => Some s
                    | None => vs_pending set !! i
                    end in
    let agg := match aggregate (omap sig_of signers) with
               | Some a =>
                   if bool_decide (vs_pending set = ∅) || verify_aggregate signers msg a
                   then Some a else None
               | None => None
               end in
    match agg with
    | Some a => (set_done set, Some (signers, a))
    | None =>
        let set := check_pending msg set in
        let signers := btree_keys (vs_sigs set) in
        if negb (ValidatorSet.is_quorum vs (ValidatorSet.weight_of vs signers)) then (set, None)
        else
          match aggregate (btree_values (vs_sigs set)) with
          | Some a => (set_done set, Some (signers, a))
          | None => (set, None)
          end
    end.

(** ** Proposal checks *)

(** The conditions under which [on_proposal] drops the message (its first [if] and the
    timeout certificate's), given the leader of the proposal's round. *)
Definition proposal_ok (cfg : Config) (p : Proposal) (l : ValidatorIndex) : bool :=
  let b := p_block p in
  (p_proposer p =? l)
  && negb (b_round b =? 0)
  && (b_parent b =? qc_block (p_qc p))
  && (b_height b =? u64 (qc_height (p_qc p) + 1))
  && (qc_round (p_qc p) <? b_round b)
  && negb (is_nil_height cfg (b_height b)
           && (negb (b_hash b =? nil_hash (epoch cfg) (b_parent b) (b_round b))
               || negb (bool_decide (p_payload p = []))))
  && verify (p_proposer p)
       (proposal_msg (chain_id cfg) (epoch cfg) (b_round b) (b_hash b) (p_payload p)) (p_sig p)
  && verify_qc cfg (p_qc p)
  && match p_tc p with
     | Some tc => (u64 (tc_round tc + 1) =? b_round b) && verify_tc cfg tc
     | None => true
     end.

Definition is_validate (h : B256) (a : Action) : bool :=
  match a with Validate x => b_hash (p_block x) =? h | _ => false end.

(** Removes the first action for which [f] holds; [None] when there is none. *)
Fixpoint remove_first (f : Action -> bool) (l : list Action) : option (list Action) :=
  match l with
  | [] => None
  | a :: l => if f a then Some l
              else match remove_first f l with Some l' => Some (a :: l') | None => None end
  end.

(** ** The methods *)

Section methods.
Context (cfg : Config).

Definition sign_log (s : Signed) : MM unit :=
  modify (fun e => set_signed (s :: e_signed e) e).

(** [self.qcs.entry(qc.block).or_insert_with(..)]. *)
Definition record_qc (qc : Qc) (e : Engine) : Engine :=
  match e_qcs e !! qc_block qc with
  | Some _ => e
  | None => set_qcs (<[qc_block qc := qc]> (e_qcs e)) e
  end.

Definition raise_high (qc : Qc) (e : Engine) : Engine :=
  if qc_round (e_high_qc e) <? qc_round qc then set_high_qc qc e else e.

(** The block's place in the tree, if unknown and above the committed height. *)
Definition remember_block (b : BlockInfo) (e : Engine) : Engine :=
  match e_blocks e !! b_hash b with
  | Some _ => e
  | None => if b_height (e_committed e) <? b_height b
            then set_blocks (<[b_hash b := b]> (e_blocks e)) e else e
  end.

Fixpoint process_qc (n : nat) (qc : Qc) : MM unit :=
  match n with O => no_fuel | Datatypes.S n =>
    modify (record_qc qc) ;;
    modify (raise_high qc) ;;
    try_commit cfg qc ;;
    e <- get ;
    if e_round e <=? qc_round qc then
      modify (set_consecutive_timeouts 0) ;;
      enter_round n (u64 (qc_round qc + 1)) None
    else ret tt
  end

with enter_round (n : nat) (round : Round) (tc : option Tc) : MM unit :=
  match n with O => no_fuel | Datatypes.S n =>
    e <- get ;
    if round <=? e_round e then ret tt else
    modify (fun e => set_requested ∅ (set_entry_tc tc (set_round round e))) ;;
    e <- get ;
    match e_blocked_commit e with Some qc => try_commit cfg qc | None => ret tt end ;;
    e <- get ;
    if e_finished e then ret tt else
    push (ScheduleTimeout round (timeout_ms cfg e)) ;;
    modify prune_engine ;;
    l <- lift (leader cfg round) ;
    e <- get ;
    if is_me cfg l && negb (bool_decide (round ∈ e_proposed e)) then
      modify (set_proposed ({[round]} ∪ e_proposed e)) ;;
      let qc := e_high_qc e in
      let tc := e_entry_tc e in
      let height := u64 (qc_height qc + 1) in
      if is_nil_height cfg height then
        on_proposed n (mkBlock (nil_hash (epoch cfg) (qc_block qc) round)
                         (qc_block qc) round height) qc tc []
      else push (Propose round qc tc)
    else ret tt
  end

with on_proposed (n : nat) (block : BlockInfo) (qc : Qc) (tc : option Tc) (payload : bytes)
  : MM unit :=
  match n with O => no_fuel | Datatypes.S n =>
    l <- lift (leader cfg (b_round block)) ;
    e <- get ;
    if negb (b_round block =? e_round e) || negb (is_me cfg l) || e_finished e then ret tt
    else
      sign_log (SignedProposal block payload) ;;
      let p := mkProposal (epoch cfg) block qc tc l payload
        (sign l (proposal_msg (chain_id cfg) (epoch cfg) (b_round block) (b_hash block)
                   payload)) in
      out <- capture (push (Broadcast (MProposal p)) ;; on_proposal n p) ;
      match remove_first (is_validate (b_hash block)) (snd out) with
      | Some rest => push_all rest ;; on_validated n (b_hash block) true
      | None => push_all (snd out)
      end
  end

with on_proposal (n : nat) (p : Proposal) : MM unit :=
  match n with O => no_fuel | Datatypes.S n =>
    let b := p_block p in
    if negb (p_epoch p =? epoch cfg) then ret tt else
    l <- lift (leader cfg (b_round b)) ;
    if negb (proposal_ok cfg p l) then ret tt else
    modify (remember_block b) ;;
    process_qc n (p_qc p) ;;
    match p_tc p with Some tc => process_tc n tc | None => ret tt end ;;
    e <- get ;
    if negb (b_round b =? e_round e) || (b_round b <=? e_last_voted e)
       || bool_decide (me cfg = []) || e_finished e then ret tt
    else if negb (safe_to_vote p) then ret tt
    else if bool_decide (is_Some (e_pending e !! b_hash b)) then ret tt
    else
      modify (set_pending (<[b_hash b := p]> (e_pending e))) ;;
      if is_nil_height cfg (b_height b) then on_validated n (b_hash b) true
      else push (Validate p)
  end

with process_tc (n : nat) (tc : Tc) : MM unit :=
  match n with O => no_fuel | Datatypes.S n =>
    process_qc n (tc_high_qc tc) ;;
    e <- get ;
    if e_round e <=? tc_round tc then enter_round n (u64 (tc_round tc + 1)) (Some tc)
    else ret tt
  end

with on_validated (n : nat) (block : B256) (valid : bool) : MM unit :=
  match n with O => no_fuel | Datatypes.S n =>
    e <- get ;
    match e_pending e !! block with
    | None => ret tt
    | Some p =>
        modify (set_pending (delete block (e_pending e))) ;;
        if negb valid then ret tt else
        let r := b_round (p_block p) in
        e <- get ;
        if negb (r =? e_round e) || (r <=? e_last_voted e) || negb (safe_to_vote p)
           || e_finished e then ret tt
        else if bool_decide (me cfg = []) then ret tt
        else
          modify (set_last_voted r) ;;
          sign_log (SignedVote p) ;;
          next <- lift (leader cfg (u64 (r + 1))) ;
          let msg := vote_msg (chain_id cfg) (epoch cfg) r (b_hash (p_block p)) in
          for_each (fun i =>
            let vote := mkVote (epoch cfg) r (b_hash (p_block p)) (b_height (p_block p)) i
                          (sign i msg) in
            if is_me cfg next then on_vote n vote
            else push (SendTo next (MVote vote))) (me cfg)
    end
  end

with on_vote (n : nat) (v : Vote) : MM unit :=
  match n with O => no_fuel | Datatypes.S n =>
    l <- lift (leader cfg (u64 (v_round v + 1))) ;
    e <- get ;
    if negb (is_me cfg l) || negb (v_epoch v =? epoch cfg)
       || (ValidatorSet.len (validators cfg) <=? v_signer v)
       || (u64 (v_round v + 2) <? e_round e) then ret tt
    else
      let key := (v_round v, v_block v) in
      let msg := vote_msg (chain_id cfg) (epoch cfg) (v_round v) (v_block v) in
      let set := default (mkVoteSet (v_height v) ∅ ∅ false) (e_votes e !! key) in
      match vote_set_add set v msg with
      | None => modify (fun e => set_votes (<[key := set]> (e_votes e)) e)
      | Some set =>
          let '(set, cert) := vote_set_certify (validators cfg) msg set in
          modify (fun e => set_votes (<[key := set]> (e_votes e)) e) ;;
          match cert with
          | None => ret tt
          | Some (signers, agg) =>
              process_qc n
                (mkQc (epoch cfg) (v_round v) (v_block v) (vs_height set)
                   (Bitmap.encode signers (length (weights (validators cfg)))) (Some agg))
          end
      end
  end.
End methods.

Section timeouts.
Context (cfg : Config).

Definition timeout_set_add (t : Timeout) (set : TimeoutSet) : TimeoutSet :=
  mkTimeoutSet
    (<[t_signer t := (qc_round (t_high_qc t), t_sig t)]> (ts_entries set))
    (if qc_round (ts_high_qc set) <? qc_round (t_high_qc t) then t_high_qc t
     else ts_high_qc set)
    (ts_done set).

Definition timeout_set_done (set : TimeoutSet) : TimeoutSet :=
  mkTimeoutSet (ts_entries set) (ts_high_qc set) true.

(** The certificate a complete set of timeouts makes. *)
Definition make_tc (round : Round) (set : TimeoutSet) : Tc :=
  mkTc (epoch cfg) round (ts_high_qc set)
    (map (fun '(i, (r, s)) => (i, r, s)) (btree_to_list (ts_entries set))).

(** The first [if] of [on_timeout_msg]. *)
Definition timeout_ok (e : Engine) (t : Timeout) : bool :=
  (t_epoch t =? epoch cfg)
  && (t_signer t <? ValidatorSet.len (validators cfg))
  && negb (u64 (t_round t + 2) <? e_round e)
  && (qc_round (t_high_qc t) <? t_round t)
  && verify (t_signer t)
       (timeout_msg (chain_id cfg) (epoch cfg) (t_round t) (qc_round (t_high_qc t))) (t_sig t)
  && verify_qc cfg (t_high_qc t).

Fixpoint local_timeout (n : nat) : MM unit :=
  match n with O => no_fuel | Datatypes.S n =>
    e <- get ;
    let round := e_round e in
    modify (fun e => set_consecutive_timeouts
              (saturating_add 32 (e_consecutive_timeouts e) 1)
              (set_last_voted (Z.max (e_last_voted e) round) e)) ;;
    e <- get ;
    push (ScheduleTimeout round (timeout_ms cfg e)) ;;
    if bool_decide (me cfg = []) then ret tt else
    modify (fun e => set_timed_out ({[round]} ∪ e_timed_out e) e) ;;
    let msg := timeout_msg (chain_id cfg) (epoch cfg) round (qc_round (e_high_qc e)) in
    sign_log (SignedTimeout round (e_high_qc e)) ;;
    for_until (fun i =>
      e <- get ;
      let t := mkTimeout (epoch cfg) round (e_high_qc e) i (sign i msg) (e_entry_tc e) in
      push (Broadcast (MTimeout t)) ;;
      on_timeout_msg n t ;;
      e <- get ;
      ret (negb (e_round e =? round))) (me cfg)
  end

with on_timeout_msg (n : nat) (t : Timeout) : MM unit :=
  match n with O => no_fuel | Datatypes.S n =>
    e <- get ;
    if negb (timeout_ok e t) then ret tt else
    match t_last_tc t with
    | Some tc =>
        if (u64 (tc_round tc + 1) =? t_round t) && (e_round e <=? tc_round tc)
           && verify_tc cfg tc
        then process_tc cfg n tc else ret tt
    | None => ret tt
    end ;;
    process_qc cfg n (t_high_qc t) ;;
    e <- get ;
    let set := default (mkTimeoutSet ∅ (t_high_qc t) false) (e_timeouts e !! t_round t) in
    if ts_done set then
      modify (fun e => set_timeouts (<[t_round t := set]> (e_timeouts e)) e)
    else
      let set := timeout_set_add t set in
      let weight := ValidatorSet.weight_of (validators cfg) (btree_keys (ts_entries set)) in
      if ValidatorSet.is_quorum (validators cfg) weight then
        modify (fun e =>
          set_timeouts (<[t_round t := timeout_set_done set]> (e_timeouts e)) e) ;;
        process_tc cfg n (make_tc (t_round t) set)
      else
        modify (fun e => set_timeouts (<[t_round t := set]> (e_timeouts e)) e) ;;
        e <- get ;
        if ValidatorSet.is_one_third (validators cfg) weight
           && (t_round t =? e_round e) && negb (bool_decide (t_round t ∈ e_timed_out e))
        then local_timeout n
        else ret tt
  end.

Definition on_timeout (n : nat) (round : Round) : MM unit :=
  e <- get ;
  if negb (round =? e_round e) || e_finished e then ret tt else local_timeout n.

(** ** Remaining entry points *)

Definition start (n : nat) : MM unit :=
  e <- get ;
  enter_round cfg n (u64 (e_round e + 1)) None.

Definition on_block (block : BlockInfo) : MM unit :=
  modify (fun e => set_requested (e_requested e ∖ {[b_hash block]}) e) ;;
  modify (fun e =>
    if b_height (e_committed e) <? b_height block
    then set_blocks (<[b_hash block := block]> (e_blocks e)) e else e) ;;
  e <- get ;
  match e_blocked_commit e with Some qc => try_commit cfg qc | None => ret tt end.

Definition on_message (n : nat) (m : Message) : MM unit :=
  e <- get ;
  if negb (Message_epoch m =? epoch cfg) || e_finished e then ret tt
  else match m with
       | MProposal p => on_proposal cfg n p
       | MVote v => on_vote cfg n v
       | MTimeout t => on_timeout_msg n t
       end.

Definition on_external_commit (n : nat) (block : BlockInfo) (qc : Qc) : MM unit :=
  e <- get ;
  if (b_height block <=? b_height (e_committed e)) || negb (verify_qc cfg qc)
     || negb (qc_block qc =? b_hash block) then ret tt
  else
    modify (set_blocks (<[b_hash block := block]> (e_blocks e))) ;;
    modify (set_committed block) ;;
    process_qc cfg n qc.

(** The calls a node makes on its engine. *)
Inductive Input :=
| IStart
| IMessage (m : Message)
| IValidated (block : B256) (valid : bool)
| IProposed (block : BlockInfo) (qc : Qc) (tc : option Tc) (payload : bytes)
| ITimeout (round : Round)
| IBlock (block : BlockInfo)
| IExternalCommit (block : BlockInfo) (qc : Qc).

Definition handle (n : nat) (i : Input) : MM unit :=
  match i with
  | IStart => start n
  | IMessage m => on_message n m
  | IValidated b valid => on_validated cfg n b valid
  | IProposed b qc tc payload => on_proposed cfg n b qc tc payload
  | ITimeout r => on_timeout n r
  | IBlock b => on_block b
  | IExternalCommit b qc => on_external_commit n b qc
  end.
End timeouts.
End engine.
