(* ===== verification/EngineInv.v ===== *)
(** * Invariants of the consensus engine: the proof principle

    An invariant of the engine is a predicate closed under the elementary updates the methods
    make, each under the guard the code establishes first ([closed]).  [handle_preserves] is the
    induction over the mutually recursive methods, done once: every call a node can make on its
    engine preserves a closed predicate and moves the engine forward in the order [mono]
    (rounds, votes, the highest certificate and the committed height never go back, signatures
    are never forgotten).  EngineSafety.v and EngineTermination.v instantiate it. *)

From S2P Require Import Prelude Types Engine.
From stdpp Require Import base list list_numbers sorting gmap strings.
From Stdlib Require Import ZArith Lia.

Open Scope Z_scope.
Open Scope bolt_scope.

(** ** Well-typed values: every integer field fits its Rust type *)
Section welltyped.
Context `{S : Scheme}.

(** A signer bitmap that covers at most the 65536 indices of a [u16].  [bitmap::decode] truncates
    the indices of a longer one, so they repeat ([EngineExamples.LongBitmap.long_bitmap_forges_quorum]);
    the code does not check the length, the theorems about certificates assume it. *)
Definition fits (b : bytes) : Prop := Z.of_nat (length b) * 8 <= 65536.

Definition wt_qc (q : Qc) : Prop :=
  in_range 64 (qc_epoch q) /\ in_range 64 (qc_round q) /\ in_range 256 (qc_block q)
  /\ in_range 64 (qc_height q) /\ fits (qc_signers q).

Definition wt_tc (tc : Tc) : Prop :=
  in_range 64 (tc_round tc) /\ wt_qc (tc_high_qc tc)
  /\ Forall (fun '(i, r, _) => in_range 16 i /\ in_range 64 r) (tc_entries tc).

Definition wt_block (b : BlockInfo) : Prop :=
  in_range 256 (b_hash b) /\ in_range 256 (b_parent b) /\ in_range 64 (b_round b)
  /\ in_range 64 (b_height b).

Definition wt_otc (o : option Tc) : Prop := match o with Some tc => wt_tc tc | None => True end.

Definition wt_proposal (p : Proposal) : Prop :=
  wt_block (p_block p) /\ wt_qc (p_qc p) /\ wt_otc (p_tc p).

Definition wt_vote (v : Vote) : Prop :=
  in_range 64 (v_round v) /\ in_range 256 (v_block v) /\ in_range 64 (v_height v)
  /\ in_range 16 (v_signer v).

Definition wt_timeout (t : Timeout) : Prop :=
  in_range 64 (t_round t) /\ wt_qc (t_high_qc t) /\ in_range 16 (t_signer t)
  /\ wt_otc (t_last_tc t).

Definition wt_message (m : Message) : Prop :=
  match m with
  | MProposal p => wt_proposal p
  | MVote v => wt_vote v
  | MTimeout t => wt_timeout t
  end.

Definition wt_config (cfg : Config) : Prop :=
  in_range 64 (chain_id cfg) /\ in_range 64 (epoch cfg) /\ wt_block (anchor cfg)
  /\ b_round (anchor cfg) = 0 /\ in_range 64 (end_height cfg)
  /\ Forall (in_range 16) (me cfg).

Definition wt_input (i : Input) : Prop :=
  match i with
  | IStart | IValidated _ _ | ITimeout _ => True
  | IMessage m => wt_message m
  | IProposed b qc tc _ => wt_block b /\ wt_qc qc /\ wt_otc tc
  | IBlock b => wt_block b
  | IExternalCommit b qc => wt_block b /\ wt_qc qc
  end.
End welltyped.

#[export] Instance wt_qc_dec `{S : Scheme} q : Decision (wt_qc q).
Proof. unfold wt_qc, fits. apply _. Defined.
#[export] Instance wt_tc_dec `{S : Scheme} tc : Decision (wt_tc tc).
Proof.
  unfold wt_tc. apply and_dec; [apply _|]. apply and_dec; [apply _|].
  apply Forall_dec. intros [[i r] s]. apply _.
Defined.
#[export] Instance wt_otc_dec `{S : Scheme} o : Decision (wt_otc o).
Proof. destruct o; simpl; apply _. Defined.
#[export] Instance wt_block_dec b : Decision (wt_block b).
Proof. unfold wt_block. apply _. Defined.
#[export] Instance wt_proposal_dec `{S : Scheme} p : Decision (wt_proposal p).
Proof. unfold wt_proposal. apply _. Defined.
#[export] Instance wt_vote_dec `{S : Scheme} v : Decision (wt_vote v).
Proof. unfold wt_vote. apply _. Defined.
#[export] Instance wt_timeout_dec `{S : Scheme} t : Decision (wt_timeout t).
Proof. unfold wt_timeout. apply _. Defined.
#[export] Instance wt_message_dec `{S : Scheme} m : Decision (wt_message m).
Proof. destruct m; simpl; apply _. Defined.
#[export] Instance wt_input_dec `{S : Scheme} i : Decision (wt_input i).
Proof. destruct i; simpl; apply _. Defined.

Section principle.
Context `{S : Scheme} `{K : Keccak} (cfg : Config).

(** A certificate the engine may hold: the epoch's anchor, or more than two thirds of the
    weight over one vote message.  ([Qc_verify] also asks for a positive round.) *)
Definition backed (q : Qc) : Prop :=
  qc_epoch q = epoch cfg
  /\ ((is_anchor q = true /\ qc_block q = b_hash (anchor cfg))
      \/ exists sig, qc_sig q = Some sig
         /\ ValidatorSet.is_quorum (validators cfg)
              (ValidatorSet.weight_of (validators cfg) (Bitmap.decode (qc_signers q))) = true
         /\ Forall (fun i => i < ValidatorSet.len (validators cfg))
              (Bitmap.decode (qc_signers q))
         /\ verify_aggregate (Bitmap.decode (qc_signers q))
              (vote_msg (chain_id cfg) (epoch cfg) (qc_round q) (qc_block q)) sig = true).

Definition qc_ok (q : Qc) : Prop := wt_qc q /\ backed q.
(** A timeout certificate the engine may act on.  One it formed itself need not verify: see
    [EngineExamples.Overwrite.timeout_overwrite]. *)
Definition tc_ok (tc : Tc) : Prop := wt_tc tc /\ qc_ok (tc_high_qc tc).
Definition otc_ok (o : option Tc) : Prop := match o with Some tc => tc_ok tc | None => True end.

Definition prop_ok (p : Proposal) : Prop :=
  wt_proposal p /\ p_epoch p = epoch cfg
  /\ exists l, leader cfg (b_round (p_block p)) = Done l /\ proposal_ok cfg p l = true.

Definition high_round (e : Engine) : Round := qc_round (e_high_qc e).

(** The engine only moves forward. *)
Record advance (e e' : Engine) : Prop := {
  adv_round : e_round e <= e_round e';
  adv_voted : e_last_voted e <= e_last_voted e';
  adv_high : high_round e <= high_round e';
  adv_committed : b_height (e_committed e) <= b_height (e_committed e');
  adv_finished : e_finished e = true -> e_finished e' = true;
  adv_signed : exists l, e_signed e' = l ++ e_signed e;
}.

(** It remembers that it timed out in its round as long as it stays there. *)
Record mono (e e' : Engine) : Prop := {
  mono_advance : advance e e';
  mono_timed : e_round e' = e_round e ->
    e_round e ∈ e_timed_out e -> e_round e' ∈ e_timed_out e';
}.

#[export] Instance advance_refl : Reflexive advance.
Proof. intros e. constructor; try lia; [done|]. by exists []. Qed.

#[export] Instance advance_trans : Transitive advance.
Proof.
  intros e1 e2 e3 [? ? ? ? ? [l1 E1]] [? ? ? ? ? [l2 E2]]. constructor; try lia; [auto|].
  exists (l2 ++ l1). by rewrite E2, E1, app_assoc.
Qed.

#[export] Instance mono_refl : Reflexive mono.
Proof. intros e. split; [reflexivity|auto]. Qed.

#[export] Instance mono_trans : Transitive mono.
Proof.
  intros e1 e2 e3 [A1 T1] [A2 T2]. split; [by transitivity e2|]. intros E H.
  pose proof (adv_round _ _ A1). pose proof (adv_round _ _ A2).
  assert (e_round e2 = e_round e1) as E2 by lia. apply T2; [lia|]. rewrite E2 in *. auto.
Qed.

(** Entering a later round. *)
Lemma advance_mono e e' : advance e e' -> e_round e < e_round e' -> mono e e'.
Proof. intros A H. split; [done|]. lia. Qed.

(** Equal up to bookkeeping no invariant mentions. *)
Record same_core (e e' : Engine) : Prop := {
  sc_round : e_round e' = e_round e;
  sc_voted : e_last_voted e' = e_last_voted e;
  sc_high : e_high_qc e' = e_high_qc e;
  sc_tc : e_entry_tc e' = e_entry_tc e;
  sc_blocks : e_blocks e' = e_blocks e;
  sc_qcs : e_qcs e' = e_qcs e;
  sc_committed : e_committed e' = e_committed e;
  sc_votes : e_votes e' = e_votes e;
  sc_timeouts : e_timeouts e' = e_timeouts e;
  sc_pending : e_pending e' = e_pending e;
  sc_blocked : e_blocked_commit e' = e_blocked_commit e;
  sc_finished : e_finished e' = e_finished e;
  sc_signed : e_signed e' = e_signed e;
}.

Lemma same_core_mono e e' :
  same_core e e' -> (e_finished e = true -> e_finished e' = true) ->
  e_timed_out e ⊆ e_timed_out e' -> mono e e'.
Proof.
  intros [] ? Ht. split.
  - constructor; unfold high_round; rewrite ?sc_round0, ?sc_voted0,
      ?sc_high0, ?sc_committed0, ?sc_signed0; try lia; [done|by exists []].
  - rewrite sc_round0. intros _. apply Ht.
Qed.

(** What is said of the blocks the engine is shown ([tree_ok]: nothing at all, or in
    EngineAgreement.v that the list of shown blocks has it, or in EngineTermination.v that its parent
    link closes no cycle), of the blocks reported final through another path ([ext_ok]) and of the
    blocks this node proposes ([own_ok]). *)
Context (tree_ok ext_ok own_ok : BlockInfo -> Prop).

Definition tree_input (i : Input) : Prop :=
  match i with
  | IMessage (MProposal p) => tree_ok (p_block p)
  | IBlock b => tree_ok b
  | IExternalCommit b _ => tree_ok b /\ ext_ok b
  | IProposed b _ _ _ => own_ok b
  | _ => True
  end.

(** A block the engine was shown, or that it proposed itself. *)
Definition known (e : Engine) (b : BlockInfo) : Prop :=
  tree_ok b \/ exists payload, SignedProposal b payload ∈ e_signed e.

Lemma known_mono e e' b : advance e e' -> known e b -> known e' b.
Proof.
  intros [_ _ _ _ _ [l E]] [H|[pl H]]; [by left|]. right. exists pl. rewrite E.
  apply elem_of_app. by right.
Qed.

(** What it guarantees of the blocks the node hands to [on_block]. *)
Context (fetch_ok : BlockInfo -> Prop).

Definition fetch_input (i : Input) : Prop :=
  match i with IBlock b => fetch_ok b | _ => True end.

Definition new_vote_set (e : Engine) (v : Vote) : VoteSet :=
  default (mkVoteSet (v_height v) ∅ ∅ false) (e_votes e !! (v_round v, v_block v)).

Definition put_votes (e : Engine) (v : Vote) (set : VoteSet) : Engine :=
  set_votes (<[(v_round v, v_block v) := set]> (e_votes e)) e.

Definition new_timeout_set (e : Engine) (t : Timeout) : TimeoutSet :=
  default (mkTimeoutSet ∅ (t_high_qc t) false) (e_timeouts e !! t_round t).

Definition put_timeouts (e : Engine) (t : Timeout) (set : TimeoutSet) : Engine :=
  set_timeouts (<[t_round t := set]> (e_timeouts e)) e.

Definition vote_qc (v : Vote) (set : VoteSet) (signers : list ValidatorIndex) (agg : Agg) : Qc :=
  mkQc (epoch cfg) (v_round v) (v_block v) (vs_height set)
    (Bitmap.encode signers (length (weights (validators cfg)))) (Some agg).

Definition vote_bytes (v : Vote) : bytes :=
  vote_msg (chain_id cfg) (epoch cfg) (v_round v) (v_block v).

(** [qc] makes P final: it certifies B, and P is B's parent, one round earlier, certified. *)
Record commits (e : Engine) (qc : Qc) (b p : BlockInfo) (pqc : Qc) (chain : list BlockInfo)
  : Prop := {
  cm_b : e_blocks e !! qc_block qc = Some b;
  cm_p : e_blocks e !! b_parent b = Some p;
  cm_rounds : u64 (b_round p + 1) = b_round b;
  cm_height : b_height (e_committed e) < b_height p;
  cm_pqc : e_qcs e !! b_hash p = Some pqc;
  cm_chain : walk_back (walk_fuel e) e p [p] = WalkChain chain;
  cm_live : e_finished e = false;
}.

(** P is final; at the epoch's last height the engine is finished. *)
Definition committed_to (p : BlockInfo) (e : Engine) : Engine :=
  if end_height cfg <=? b_height p then set_finished true (set_committed p e) else set_committed p e.

(** Predicates preserved by the engine's elementary updates; aborting is allowed if [PP], a
    walk that does not end if [FF]. *)
Record closed (PP FF : Prop) (I : Engine -> Prop) : Prop := {
  c_core e e' : same_core e e' -> I e -> I e';
  c_range e : I e -> in_range 64 (e_round e);
  c_high_ok e : I e -> qc_ok (e_high_qc e);
  c_tc_ok e : I e -> otc_ok (e_entry_tc e);
  c_blocked_ok e q : I e -> e_blocked_commit e = Some q -> qc_ok q;
  c_pending_ok e h p : I e -> e_pending e !! h = Some p ->
    prop_ok p /\ known e (p_block p) /\ qc_round (p_qc p) <= high_round e;
  c_qcs e qc : I e -> qc_ok qc -> e_qcs e !! qc_block qc = None ->
    I (set_qcs (<[qc_block qc := qc]> (e_qcs e)) e);
  c_high e qc : I e -> qc_ok qc -> high_round e < qc_round qc -> I (set_high_qc qc e);
  c_round e r tc : I e -> e_round e < r -> in_range 64 r -> otc_ok tc ->
    I (set_entry_tc tc (set_round r e));
  c_prune e : I e -> I (prune_engine e);
  c_block e p : I e -> prop_ok p -> known e (p_block p) ->
    e_blocks e !! b_hash (p_block p) = None ->
    b_height (e_committed e) < b_height (p_block p) ->
    I (set_blocks (<[b_hash (p_block p) := p_block p]> (e_blocks e)) e);
  c_pending_insert e p : I e -> prop_ok p -> known e (p_block p) -> safe_to_vote p = true ->
    qc_round (p_qc p) <= high_round e ->
    I (set_pending (<[b_hash (p_block p) := p]> (e_pending e)) e);
  c_pending_delete e h : I e -> I (set_pending (delete h (e_pending e)) e);
  c_vote e p : I e -> prop_ok p -> known e (p_block p) ->
    b_round (p_block p) = e_round e -> e_last_voted e < b_round (p_block p) ->
    safe_to_vote p = true -> qc_round (p_qc p) <= high_round e ->
    I (set_signed (SignedVote p :: e_signed e) (set_last_voted (b_round (p_block p)) e));
  c_last_voted e : I e -> I (set_last_voted (Z.max (e_last_voted e) (e_round e)) e);
  c_timeout e : I e -> e_round e <= e_last_voted e ->
    I (set_signed (SignedTimeout (e_round e) (e_high_qc e) :: e_signed e) e);
  c_sign_proposal e b payload : I e -> own_ok b ->
    I (set_signed (SignedProposal b payload :: e_signed e) e);
  c_votes_none e v : I e -> wt_vote v ->
    vote_set_add (new_vote_set e v) v (vote_bytes v) = None ->
    I (put_votes e v (new_vote_set e v));
  c_votes_some e v set set' cert : I e -> wt_vote v ->
    v_epoch v = epoch cfg -> v_signer v < ValidatorSet.len (validators cfg) ->
    vote_set_add (new_vote_set e v) v (vote_bytes v) = Some set ->
    vote_set_certify (validators cfg) (vote_bytes v) set = (set', cert) ->
    I (put_votes e v set')
    /\ (forall signers agg, cert = Some (signers, agg) -> qc_ok (vote_qc v set' signers agg));
  c_timeouts_done e t : I e -> wt_timeout t -> ts_done (new_timeout_set e t) = true ->
    I (put_timeouts e t (new_timeout_set e t));
  c_timeouts e e0 t : I e -> wt_timeout t -> timeout_ok cfg e0 t = true ->
    ts_done (new_timeout_set e t) = false ->
    let set := timeout_set_add t (new_timeout_set e t) in
    I (put_timeouts e t set) /\ I (put_timeouts e t (timeout_set_done set))
    /\ (ValidatorSet.is_quorum (validators cfg)
          (ValidatorSet.weight_of (validators cfg) (btree_keys (ts_entries set))) = true ->
        tc_ok (make_tc cfg (t_round t) set));
  c_commit e qc b p pqc chain : I e -> qc_ok qc -> commits e qc b p pqc chain ->
    I (committed_to p e);
  c_proof e qc b p pqc chain : I e -> qc_ok qc -> commits e qc b p pqc chain ->
    proof_for cfg e p b pqc qc = Panic -> PP;
  c_proof_ends e qc b p pqc chain : I e -> qc_ok qc -> commits e qc b p pqc chain ->
    proof_for cfg e p b pqc qc = OutOfFuel -> FF;
  c_walk_ends e h p : I e -> e_blocks e !! h = Some p ->
    walk_back (walk_fuel e) e p [p] = WalkLoop -> FF;
  c_blocked e qc : I e -> qc_ok qc -> I (set_blocked_commit (Some qc) e);
  c_unblocked e : I e -> I (set_blocked_commit None e);
  c_fetched e b : I e -> wt_block b -> tree_ok b -> fetch_ok b ->
    b_height (e_committed e) < b_height b ->
    I (set_blocks (<[b_hash b := b]> (e_blocks e)) e);
  c_external e b qc : I e -> wt_block b -> tree_ok b -> ext_ok b -> qc_ok qc -> qc_block qc = b_hash b ->
    b_height (e_committed e) < b_height b ->
    I (set_committed b (set_blocks (<[b_hash b := b]> (e_blocks e)) e));
  c_leader r : leader cfg r = Panic -> PP;
}.

(** ** What the checks of the code establish *)

Lemma verify_qc_ok q : wt_qc q -> verify_qc cfg q = true -> qc_ok q.
Proof.
  intros Hwt Hv. split; [done|]. unfold verify_qc, Qc_verify in Hv. unfold backed.
  destruct (Z.eqb_spec (qc_epoch q) (epoch cfg)) as [E|]; simpl in Hv; [|done].
  split; [done|]. destruct (is_anchor q) eqn:Ea.
  { left. split; [done|]. by apply Z.eqb_eq. }
  right. destruct (qc_sig q) as [sig|]; [|done].
  rewrite !andb_true_iff in Hv. destruct Hv as [[[_ Hq] Hall] Hagg].
  exists sig. rewrite E in Hagg. repeat split; try done.
  apply Forall_forall. intros i Hi. rewrite forallb_forall in Hall.
  apply list_elem_of_In, Hall in Hi. lia.
Qed.

Lemma verify_tc_ok tc : wt_tc tc -> verify_tc cfg tc = true -> tc_ok tc.
Proof.
  intros Hwt Hv. split; [done|]. destruct Hwt as (Hr & Hq & He).
  unfold verify_tc, Tc_verify in Hv.
  rewrite !andb_true_iff in Hv. apply verify_qc_ok; [done|]. apply Hv.
Qed.

Lemma prop_qc_ok p : prop_ok p -> qc_ok (p_qc p).
Proof.
  intros ((Hb & Hq & Ht) & _ & l & _ & Hp). unfold proposal_ok in Hp.
  rewrite !andb_true_iff in Hp. apply verify_qc_ok; [done|]. apply Hp.
Qed.

Lemma prop_tc_ok p : prop_ok p -> otc_ok (p_tc p).
Proof.
  intros ((Hb & Hq & Ht) & _ & l & _ & Hp). unfold proposal_ok in Hp.
  rewrite !andb_true_iff in Hp. destruct (p_tc p) as [tc|]; [|done].
  destruct Hp as [_ [_ Hp]%andb_true_iff]. by apply verify_tc_ok.
Qed.

Lemma timeout_qc_ok e t : wt_timeout t -> timeout_ok cfg e t = true -> qc_ok (t_high_qc t).
Proof.
  intros (_ & Hq & _) Ht. unfold timeout_ok in Ht. rewrite !andb_true_iff in Ht.
  apply verify_qc_ok; [done|]. apply Ht.
Qed.

Lemma proof_for_blocks e e' p b pqc qc :
  e_blocks e' = e_blocks e -> proof_for cfg e' p b pqc qc = proof_for cfg e p b pqc qc.
Proof.
  intros E. unfold proof_for, walk_fuel. rewrite E.
  generalize (Datatypes.S (size (e_blocks e))) as n, p as cur, [b_round b] as rounds.
  assert (forall n cur rounds, nil_walk n e' (end_height cfg) cur rounds
                               = nil_walk n e (end_height cfg) cur rounds) as Hw.
  { induction n; intros cur rounds; simpl; [done|]. rewrite E.
    destruct (end_height cfg <? b_height cur); [|done].
    destruct (e_blocks e !! b_parent cur); [|done]. apply IHn. }
  intros n cur rounds. by rewrite Hw.
Qed.

(** ** The induction over the methods *)
Section induction.
Context (PP FF : Prop) (I : Engine -> Prop) (C : closed PP FF I).
Context (Hcfg : wt_config cfg) (HK : KeccakLaws K).
(** The nil blocks the engine proposes on its own. *)
Context (Hnil : forall q r, qc_ok q -> in_range 64 r ->
  is_nil_height cfg (u64 (qc_height q + 1)) = true ->
  own_ok (mkBlock (nil_hash (epoch cfg) (qc_block q) r) (qc_block q) r
            (u64 (qc_height q + 1)))).

Definition post (R : relation Engine) (e e' : Engine) : Prop := I e' /\ R e e'.

Lemma post_refl e : I e -> post mono e e.
Proof. intros H. split; [done|reflexivity]. Qed.

Lemma post_trans_in R `{!Transitive R} e1 e2 e3 : R e1 e2 -> post R e2 e3 -> post R e1 e3.
Proof. intros H [HI Hm]. split; [done|]. by transitivity e2. Qed.

Definition post_trans := @post_trans_in mono mono_trans.

Lemma post_core e e' :
  I e -> same_core e e' -> (e_finished e = true -> e_finished e' = true) ->
  e_timed_out e ⊆ e_timed_out e' -> post mono e e'.
Proof. intros HI Hc Hf Ht. split; [by eapply c_core|]. by apply same_core_mono. Qed.

Abbreviation PostR R e := (fun (_ : unit) e' (_ : list Action) => post R e e').
Abbreviation Post e := (PostR mono e).
Abbreviation wp := (wp PP FF).

#[local] Instance mono_preorder : PreOrder mono.
Proof. split; apply _. Qed.
#[local] Instance advance_preorder : PreOrder advance.
Proof. split; apply _. Qed.

Section sequencing.
Context (R : relation Engine) `{!PreOrder R}.

(** Sequencing two steps that both move forward. *)
Lemma wp_seq_in {A} (m : M Engine Action A) (k : A -> M Engine Action unit) e :
  wp m (fun a e1 _ => R e e1 /\ wp (k a) (PostR R e1) e1) e ->
  wp (bind m k) (PostR R e) e.
Proof.
  intros H. apply wp_bind. eapply wp_mono; [|apply H]. intros a e1 w [Hm Hk].
  eapply wp_mono; [|apply Hk]. intros [] e2 w2 Hp. by eapply post_trans_in; [apply _|..].
Qed.

Lemma wp_update_in f (k : unit -> M Engine Action unit) e :
  R e (f e) -> wp (k tt) (PostR R (f e)) (f e) -> wp (bind (modify f) k) (PostR R e) e.
Proof. intros. apply wp_seq_in. split; done. Qed.

Lemma wp_read_in (k : Engine -> M Engine Action unit) e :
  wp (k e) (PostR R e) e -> wp (bind get k) (PostR R e) e.
Proof. intros H. apply wp_seq_in. split; [reflexivity|done]. Qed.

Lemma leader_ends r : leader cfg r <> OutOfFuel.
Proof. unfold leader, ValidatorSet.leader. repeat case_match; done. Qed.

Lemma wp_leader_in r (k : Z -> M Engine Action unit) e :
  (forall l, leader cfg r = Done l -> wp (k l) (PostR R e) e) ->
  wp (bind (lift (leader cfg r)) k) (PostR R e) e.
Proof.
  intros H. apply wp_seq_in, wp_lift; [|apply (c_leader _ _ _ C)|by intros ?%leader_ends].
  intros l Hl. split; [reflexivity|]. by apply H.
Qed.

Lemma wp_call_in (m k : M Engine Action unit) e :
  wp m (PostR R e) e -> (forall e1, post R e e1 -> wp k (PostR R e1) e1) ->
  wp (bind m (fun _ => k)) (PostR R e) e.
Proof.
  intros Hm Hk. apply wp_seq_in. eapply wp_mono; [|apply Hm].
  intros [] e1 w Hp. split; [apply Hp|]. by apply Hk.
Qed.

Lemma wp_emit_in w k e :
  wp (k tt) (PostR R e) e -> wp (bind (push w) k) (PostR R e) e.
Proof. intros H. apply wp_seq_in. split; [reflexivity|done]. Qed.
End sequencing.

Definition wp_seq {A} := @wp_seq_in mono mono_preorder A.
Definition wp_update := @wp_update_in mono mono_preorder.
Definition wp_read := @wp_read_in mono mono_preorder.
Definition wp_leader := @wp_leader_in mono mono_preorder.
Definition wp_call := @wp_call_in mono mono_preorder.
Definition wp_emit := @wp_emit_in mono mono_preorder.

(** A step that keeps the engine in its order also keeps it in the weaker one. *)
Lemma post_weaken e (m : M Engine Action unit) :
  wp m (Post e) e -> wp m (PostR advance e) e.
Proof. apply wp_mono. intros [] e' w [HI [HA _]]. done. Qed.

Ltac core := constructor; reflexivity.
Ltac onward := constructor; unfold high_round; simpl;
  first [done | lia | by exists [] | by eexists [_]].
Ltac forward := split; [onward | simpl; first [by auto | lia | set_solver]].
Ltac aside := apply same_core_mono; [core | done | simpl; set_solver].
Ltac stay := apply wp_ret, post_refl; done.

Lemma prune_advance e : advance e (prune_engine e).
Proof. onward. Qed.

(** Fuel that suffices for a method of height [k] in the call graph within one round: a method
    calls only lower ones before the engine enters a later round. *)
Definition fueled (k : Z) (n : nat) (e : Engine) : Prop :=
  FF \/ 10 * (2 ^ 64 - e_round e) + k <= Z.of_nat n.

Lemma fueled_call k k' n e e' :
  fueled k (Datatypes.S n) e -> advance e e' -> k' < k -> fueled k' n e'.
Proof. intros [H|H] [Hr _ _ _ _ _] Hk; [by left|]. right. lia. Qed.

Lemma fueled_next k k' n e e' :
  fueled k (Datatypes.S n) e -> advance e e' -> e_round e < e_round e' -> k' < k + 10 ->
  fueled k' n e'.
Proof. intros [H|H] _ Hr Hk; [by left|]. right. lia. Qed.

Lemma fueled_zero k e : I e -> 0 < k -> fueled k 0 e -> FF.
Proof.
  intros HI Hk [H|H]; [done|]. destruct (c_range _ _ _ C _ HI). unfold in_range in *. lia.
Qed.

Lemma block_on_spec qc h e : I e -> qc_ok qc -> wp (block_on qc h) (Post e) e.
Proof.
  intros HI Hqc. unfold block_on.
  assert (post mono e (blocked_by qc e)) as Hf.
  { unfold blocked_by. destruct (e_blocked_commit e) as [q|]; [destruct (_ <? _)|].
    - split; [by apply (c_blocked _ _ _ C)|]. forward.
    - by apply post_refl.
    - split; [by apply (c_blocked _ _ _ C)|]. forward. }
  apply wp_update; [apply Hf|]. apply wp_read. case_bool_decide.
  { apply wp_ret, post_refl, Hf. }
  apply wp_update; [aside|].
  apply wp_push, post_refl. eapply (c_core _ _ _ C); [|apply Hf]. core.
Qed.

Lemma commit_chain_spec qc b p pqc chain e :
  I e -> qc_ok qc -> commits e qc b p pqc chain ->
  wp (commit_chain cfg qc b p pqc chain) (Post e) e.
Proof.
  intros HI Hqc Hc. unfold commit_chain. pose proof (cm_height _ _ _ _ _ _ Hc) as Hh.
  assert (I (unblocked_by qc (committed_to p e))) as HI1.
  { assert (I (committed_to p e)) by (eapply (c_commit _ _ _ C); done). unfold unblocked_by.
    destruct (e_blocked_commit _); [destruct (_ <=? _)|]; [by apply (c_unblocked _ _ _ C)|done..]. }
  apply wp_update; [forward|].
  assert (mono (set_committed p e) (unblocked_by qc (set_committed p e))
          /\ e_blocks (unblocked_by qc (set_committed p e)) = e_blocks e) as [Hf Hb].
  { unfold unblocked_by. cbn. destruct (e_blocked_commit e) as [q|]; [destruct (_ <=? _)|];
      (split; [forward|done]). }
  apply wp_update; [exact Hf|]. cbv zeta.
  apply wp_read. rewrite (proof_for_blocks _ _ p b pqc qc Hb).
  apply wp_seq, wp_lift; [|by eapply (c_proof _ _ _ C)|by eapply (c_proof_ends _ _ _ C)].
  intros proof _. split; [reflexivity|].
  assert (unblocked_by qc (committed_to p e)
          = if end_height cfg <=? b_height p then set_finished true (unblocked_by qc (set_committed p e))
            else unblocked_by qc (set_committed p e)) as Ef.
  { unfold unblocked_by, committed_to. destruct (_ <=? b_height p); [|done]. cbn.
    destruct (e_blocked_commit e) as [q|]; [destruct (_ <=? _)|]; done. }
  rewrite Ef in HI1. set (e1 := unblocked_by qc (set_committed p e)) in *. clearbody e1.
  apply wp_seq. apply wp_mono with (Q := fun _ e' _ => e' = e1);
    [|case_bool_decide; [by apply wp_ret|by apply wp_push]].
  intros _ ? _ ->. split; [reflexivity|]. destruct (_ <=? _); [|stay].
  apply wp_update; [forward|]. apply wp_read, wp_push, post_refl, HI1.
Qed.

Lemma try_commit_spec qc e : I e -> qc_ok qc -> wp (try_commit cfg qc) (Post e) e.
Proof.
  intros HI Hqc. unfold try_commit. apply wp_read.
  destruct (e_finished e) eqn:Efin; [stay|].
  destruct (e_blocks e !! qc_block qc) as [b|] eqn:Eb; [|by apply block_on_spec].
  destruct (e_blocks e !! b_parent b) as [p|] eqn:Ep;
    [|destruct (_ <? _); [by apply block_on_spec|stay]].
  destruct (Z.eqb_spec (u64 (b_round p + 1)) (b_round b)); cbn [negb orb]; [|stay].
  destruct (Z.leb_spec (b_height p) (b_height (e_committed e))); [stay|].
  destruct (e_qcs e !! b_hash p) as [pqc|] eqn:Eq; [|stay].
  destruct (walk_back _ _ _ _) as [chain| |h|] eqn:Ew; [|stay|by apply block_on_spec|].
  2:{ apply wp_no_fuel. by eapply (c_walk_ends _ _ _ C). }
  apply commit_chain_spec; done.
Qed.

(** The methods of the first group at fuel [n]. *)
Record specs (n : nat) : Prop := {
  s_process_qc qc e : I e -> qc_ok qc -> fueled 2 n e ->
    wp (process_qc cfg n qc)
      (fun _ e' _ => post mono e e' /\ qc_round qc <= high_round e') e;
  s_enter_round r tc e : I e -> in_range 64 r -> otc_ok tc -> fueled 1 n e ->
    wp (enter_round cfg n r tc) (Post e) e;
  s_on_proposed b qc tc payload e : I e -> wt_block b -> wt_qc qc -> wt_otc tc ->
    own_ok b -> fueled 6 n e -> wp (on_proposed cfg n b qc tc payload) (Post e) e;
  s_on_proposal p e : I e -> wt_proposal p -> known e (p_block p) -> fueled 5 n e ->
    wp (on_proposal cfg n p) (Post e) e;
  s_process_tc tc e : I e -> tc_ok tc -> fueled 3 n e ->
    wp (process_tc cfg n tc) (Post e) e;
  s_on_validated h valid e : I e -> fueled 4 n e ->
    wp (on_validated cfg n h valid) (Post e) e;
  s_on_vote v e : I e -> wt_vote v -> fueled 3 n e -> wp (on_vote cfg n v) (Post e) e;
}.

Lemma process_qc_spec n qc e :
  specs n -> I e -> qc_ok qc -> fueled 2 (Datatypes.S n) e ->
  wp (process_qc cfg (Datatypes.S n) qc)
    (fun _ e' _ => post mono e e' /\ qc_round qc <= high_round e') e.
Proof.
  intros IH HI Hqc Hn. cbn [process_qc]. apply wp_bind, wp_modify, wp_bind, wp_modify.
  set (e1 := record_qc qc e).
  assert (post mono e e1) as [HI1 M1].
  { unfold e1, record_qc. destruct (e_qcs e !! qc_block qc) eqn:E; [by apply post_refl|].
    split; [by apply (c_qcs _ _ _ C)|]. forward. }
  set (e2 := raise_high qc e1).
  assert (post mono e1 e2 /\ qc_round qc <= high_round e2) as [[HI2 M2] Hh].
  { unfold e2, raise_high. destruct (Z.ltb_spec (qc_round (e_high_qc e1)) (qc_round qc)).
    - split; [split; [by apply (c_high _ _ _ C)|forward]|]. unfold high_round. simpl. lia.
    - split; [by apply post_refl|]. unfold high_round. lia. }
  assert (mono e e2) as M by (by transitivity e1). clearbody e2. clear e1 HI1 M1 M2.
  apply wp_bind. eapply wp_mono; [|by apply try_commit_spec].
  intros [] e3 w [HI3 M3]. apply wp_bind, wp_get.
  assert (mono e e3) as M' by (by transitivity e2).
  assert (qc_round qc <= high_round e3) as Hh3 by (destruct M3 as [[] _]; lia).
  destruct (_ <=? _); [|apply wp_ret; split; [split|]; done].
  apply wp_bind, wp_modify.
  assert (post mono e3 (set_consecutive_timeouts 0 e3)) as [HI4 M4]
    by (apply post_core; [done|core|done|done]).
  eapply wp_mono; [|apply s_enter_round; [done|done|by apply wrap_range|done|]].
  - intros [] e4 w4 [HI5 M5]. split; [split; [done|]|].
    + etransitivity; [apply M'|]. by etransitivity.
    + destruct M4 as [[] _], M5 as [[] _]. lia.
  - eapply fueled_call; [done| |lia]. etransitivity; [apply M'|apply M4].
Qed.

Lemma process_qc_post n qc e :
  specs n -> I e -> qc_ok qc -> fueled 2 n e -> wp (process_qc cfg n qc) (Post e) e.
Proof.
  intros Hn HI Hqc Hf. eapply wp_mono; [|by apply s_process_qc]. intros [] e' w [H _]. apply H.
Qed.

(** The part of [enter_round] after the blocked commit was retried: [e1] is the engine in its
    new round, [e] the one before. *)
Lemma entered_spec n r e e1 :
  specs n -> I e1 -> advance e e1 -> e_round e < e_round e1 -> in_range 64 r ->
  fueled 1 (Datatypes.S n) e ->
  wp (modify prune_engine ;;
      l <- lift (leader cfg r) ;
      e <- get ;
      if is_me cfg l && negb (bool_decide (r ∈ e_proposed e)) then
        modify (set_proposed ({[r]} ∪ e_proposed e)) ;;
        if is_nil_height cfg (u64 (qc_height (e_high_qc e) + 1)) then
          on_proposed cfg n (mkBlock (nil_hash (epoch cfg) (qc_block (e_high_qc e)) r)
                           (qc_block (e_high_qc e)) r (u64 (qc_height (e_high_qc e) + 1)))
            (e_high_qc e) (e_entry_tc e) []
        else push (Propose r (e_high_qc e) (e_entry_tc e))
      else ret tt) (PostR advance e1) e1.
Proof.
  intros IH HI1 A1 Hlt Hr Hn.
  assert (I (prune_engine e1)) as HI2 by (by apply (c_prune _ _ _ C)).
  apply (wp_update_in advance); [apply prune_advance|].
  assert (advance e (prune_engine e1) /\ e_round (prune_engine e1) = e_round e1) as [A2 Er]
    by (split; [transitivity e1; [done|apply prune_advance]|done]).
  generalize dependent (prune_engine e1). intros e2 HI2 A2 Er. apply post_weaken.
  apply wp_leader. intros l Hl. apply wp_read. destruct (_ && _); [|stay].
  apply wp_update; [aside|]. set (e3 := set_proposed _ e2).
  assert (I e3) as HI3 by (eapply (c_core _ _ _ C); [|apply HI2]; core).
  destruct (is_nil_height _ _) eqn:En; [|apply wp_push; by apply post_refl].
  pose proof (c_high_ok _ _ _ C _ HI2) as Hok. pose proof Hok as [Hwt _].
  pose proof Hwt as (_ & _ & Hb & _ & _).
  apply s_on_proposed; [done|done| |done| |by apply Hnil|].
  - split; [apply HK|]. split; [done|]. split; [done|]. by apply wrap_range.
  - pose proof (c_tc_ok _ _ _ C _ HI2) as Ht. destruct (e_entry_tc e2); [apply Ht|done].
  - eapply (fueled_next _ _ _ e); [done| |simpl; lia|lia].
    etransitivity; [apply A2|]. onward.
Qed.

Lemma enter_round_spec n r tc e :
  specs n -> I e -> in_range 64 r -> otc_ok tc -> fueled 1 (Datatypes.S n) e ->
  wp (enter_round cfg (Datatypes.S n) r tc) (Post e) e.
Proof.
  intros IH HI Hr Htc Hn. cbn [enter_round]. apply wp_read.
  destruct (Z.leb_spec r (e_round e)); [stay|].
  assert (I (set_entry_tc tc (set_round r e))) as HI1 by (by apply (c_round _ _ _ C)).
  apply wp_bind, wp_modify. set (e1 := set_requested _ _).
  assert (I e1) as HI2 by (eapply (c_core _ _ _ C); [|apply HI1]; core).
  assert (advance e e1 /\ e_round e < e_round e1) as [A1 Hlt] by (split; [onward|done]).
  clearbody e1.
  eapply wp_mono with (Q := PostR advance e1).
  { intros [] e' w [HI' A']. split; [done|].
    apply advance_mono; [by transitivity e1|]. destruct A'. lia. }
  apply (wp_read_in advance), (wp_call_in advance).
  { apply post_weaken. destruct (e_blocked_commit _) as [q|] eqn:Eq; [|stay].
    apply try_commit_spec; [done|]. by eapply (c_blocked_ok _ _ _ C). }
  intros e2 [HI3 A2]. apply (wp_read_in advance).
  destruct (e_finished e2) eqn:Ef; [apply post_weaken; stay|].
  apply (wp_emit_in advance). apply (entered_spec n r e); [done|done| | |done|done].
  - by transitivity e1.
  - destruct A2. lia.
Qed.

Lemma on_proposed_spec n b qc tc payload e :
  specs n -> I e -> wt_block b -> wt_qc qc -> wt_otc tc -> own_ok b ->
  fueled 6 (Datatypes.S n) e ->
  wp (on_proposed cfg (Datatypes.S n) b qc tc payload) (Post e) e.
Proof.
  intros IH HI Hb Hqc Htc Hown Hn. cbn [on_proposed]. apply wp_leader. intros l Hl.
  apply wp_read. destruct (_ || _); [stay|].
  assert (mono e (set_signed (SignedProposal b payload :: e_signed e) e)) as M1 by forward.
  apply wp_update; [exact M1|].
  assert (I (set_signed (SignedProposal b payload :: e_signed e) e)) as HI1
    by (by apply (c_sign_proposal _ _ _ C)).
  cbv zeta. set (p := mkProposal _ _ _ _ _ _ _). set (e1 := set_signed _ e) in *.
  assert (known e1 (p_block p)) as Hkn by (right; exists payload; left).
  apply wp_seq, wp_capture, wp_bind, wp_push.
  eapply wp_mono; [|apply (s_on_proposal _ IH p e1); [done|done|done|]].
  2:{ eapply fueled_call; [done|apply M1|lia]. }
  intros [] e2 w [HI2 M2]. split; [done|].
  destruct (remove_first _ _); [|apply wp_push_all; by apply post_refl].
  apply wp_bind, wp_push_all. apply s_on_validated; [done|done|].
  eapply fueled_call; [done| |lia]. etransitivity; [apply M1|apply M2].
Qed.

Lemma on_proposal_spec n p e :
  specs n -> I e -> wt_proposal p -> known e (p_block p) -> fueled 5 (Datatypes.S n) e ->
  wp (on_proposal cfg (Datatypes.S n) p) (Post e) e.
Proof.
  intros IH HI Hp Ht Hn. cbn [on_proposal]. destruct (Z.eqb_spec (p_epoch p) (epoch cfg));
    cbn [negb]; [|stay].
  apply wp_leader. intros l Hl. destruct (proposal_ok cfg p l) eqn:Eok; cbn [negb]; [|stay].
  assert (prop_ok p) as Hpo by (split; [done|]; split; [done|]; by exists l).
  assert (post mono e (remember_block (p_block p) e)) as [HI1 M1].
  { unfold remember_block. destruct (e_blocks e !! b_hash (p_block p)) eqn:E; [by apply post_refl|].
    destruct (Z.ltb_spec (b_height (e_committed e)) (b_height (p_block p)));
      [|by apply post_refl].
    split; [by apply (c_block _ _ _ C)|]. forward. }
  apply wp_update; [done|]. set (e1 := remember_block _ e) in *. clearbody e1.
  apply wp_seq. eapply wp_mono; [|apply (s_process_qc _ IH); [done|by apply prop_qc_ok|]].
  2:{ eapply fueled_call; [done|apply M1|lia]. }
  intros [] e2 w [[HI2 M2] Hh]. split; [done|].
  assert (advance e e2) as A2 by (etransitivity; [apply M1|apply M2]).
  apply wp_seq. eapply wp_mono with (Q := Post e2).
  2:{ pose proof (prop_tc_ok _ Hpo) as Htc. destruct (p_tc p) as [tc|]; [|stay].
      apply s_process_tc; [done|done|done|]. eapply fueled_call; [done|done|lia]. }
  intros [] e3 w3 [HI3 M3]. split; [done|].
  assert (advance e e3) as A3 by (etransitivity; [apply A2|apply M3]).
  assert (qc_round (p_qc p) <= high_round e3) as Hh3 by (destruct M3 as [[] _]; lia).
  assert (known e3 (p_block p)) as Hk3 by (by eapply known_mono).
  apply wp_read. destruct (_ || _); [stay|].
  destruct (safe_to_vote p) eqn:Es; cbn [negb]; [|stay]. case_bool_decide; [stay|].
  apply wp_update; [forward|].
  assert (I (set_pending (<[b_hash (p_block p) := p]> (e_pending e3)) e3)) as HI4
    by (by apply (c_pending_insert _ _ _ C)).
  destruct (is_nil_height _ _); [|apply wp_push; by apply post_refl].
  apply s_on_validated; [done|done|]. eapply fueled_call; [done| |lia].
  etransitivity; [apply A3|]. onward.
Qed.

Lemma process_tc_spec n tc e :
  specs n -> I e -> tc_ok tc -> fueled 3 (Datatypes.S n) e ->
  wp (process_tc cfg (Datatypes.S n) tc) (Post e) e.
Proof.
  intros IH HI Htc Hn. cbn [process_tc]. apply wp_call.
  { apply process_qc_post; [done|done|apply Htc|]. eapply fueled_call; [done|done|lia]. }
  intros e1 [HI1 M1]. apply wp_read. destruct (_ <=? _); [|stay].
  apply s_enter_round; [done|done|by apply wrap_range|done|].
  eapply fueled_call; [done|apply M1|lia].
Qed.

Lemma on_validated_spec n h valid e :
  specs n -> I e -> fueled 4 (Datatypes.S n) e ->
  wp (on_validated cfg (Datatypes.S n) h valid) (Post e) e.
Proof.
  intros IH HI Hn. simpl on_validated. apply wp_read.
  destruct (e_pending e !! h) as [p|] eqn:Ep; [|stay].
  destruct (c_pending_ok _ _ _ C _ _ _ HI Ep) as (Hp & Ht & Hh).
  assert (I (set_pending (delete h (e_pending e)) e)) as HI1
    by (by apply (c_pending_delete _ _ _ C)).
  apply wp_update; [forward|]. destruct valid; cbn [negb]; [|stay].
  cbv zeta. apply wp_read. set (e1 := set_pending _ e) in *.
  assert (qc_round (p_qc p) <= high_round e1) as Hh1 by done.
  assert (known e1 (p_block p)) as Hk1 by done.
  assert (e_round e1 = e_round e) as Er1 by done. clearbody e1.
  destruct (Z.eqb_spec (b_round (p_block p)) (e_round e1)) as [Er|]; cbn [negb orb]; [|stay].
  destruct (Z.leb_spec (b_round (p_block p)) (e_last_voted e1)); cbn [orb]; [stay|].
  destruct (safe_to_vote p) eqn:Es; cbn [negb orb]; [|stay].
  destruct (e_finished e1); [stay|]. case_bool_decide; [stay|].
  apply wp_update; [forward|]. unfold sign_log. apply wp_update; [forward|]. cbn beta.
  set (e2 := set_signed _ _).
  assert (I e2) as HI2 by (by apply (c_vote _ _ _ C e1 p)).
  assert (e_round e2 = e_round e) as Er2 by (by rewrite <-Er1). clearbody e2.
  apply wp_leader. intros next _. cbv zeta.
  destruct Hp as [[(Hbh & _ & Hbr & Hbt) _] _].
  pose proof Hcfg as (_ & _ & _ & _ & _ & Hme). rewrite Forall_forall in Hme.
  apply wp_for_each with (I := post mono e2); [|by apply post_refl].
  intros i e3 Hi [HI3 M3]. eapply wp_mono with (Q := Post e3).
  { intros [] e4 w. by apply post_trans. }
  destruct (is_me _ _); [|apply wp_push; by apply post_refl].
  apply s_on_vote; [done|done| |].
  - repeat split; simpl; try apply Hbh; try apply Hbr; try apply Hbt; by apply Hme.
  - destruct Hn as [Hn|Hn]; [by left|right]. destruct M3 as [[] _]. lia.
Qed.

Lemma on_vote_spec n v e :
  specs n -> I e -> wt_vote v -> fueled 3 (Datatypes.S n) e ->
  wp (on_vote cfg (Datatypes.S n) v) (Post e) e.
Proof.
  intros IH HI Hv Hn. cbn [on_vote]. apply wp_leader. intros l _. apply wp_read.
  destruct (is_me cfg l); cbn [negb orb]; [|stay].
  destruct (Z.eqb_spec (v_epoch v) (epoch cfg)); cbn [negb orb]; [|stay].
  destruct (Z.leb_spec (ValidatorSet.len (validators cfg)) (v_signer v)); cbn [orb]; [stay|].
  destruct (_ <? _); [stay|]. cbv zeta.
  change (default _ (e_votes e !! (v_round v, v_block v))) with (new_vote_set e v).
  change (vote_msg _ _ (v_round v) (v_block v)) with (vote_bytes v).
  destruct (vote_set_add _ _ _) as [set|] eqn:Ea.
  2:{ apply wp_modify. split; [by apply (c_votes_none _ _ _ C)|]. forward. }
  destruct (vote_set_certify _ _ set) as [set' cert] eqn:Ec.
  destruct (c_votes_some _ _ _ C e v set set' cert) as [HI1 Hcert]; [done..|].
  apply wp_update; [forward|].
  change (set_votes (<[(v_round v, v_block v) := set']> (e_votes e)) e)
    with (put_votes e v set').
  destruct cert as [[signers agg]|]; [|stay].
  apply process_qc_post; [done|done|by apply Hcert|].
  eapply fueled_call; [done| |lia]. onward.
Qed.

Lemma all_specs n : specs n.
Proof.
  induction n as [|n IH].
  { split; intros; apply wp_no_fuel; (eapply fueled_zero; [| |done]; [done|lia]). }
  split; intros.
  - by apply process_qc_spec.
  - by apply enter_round_spec.
  - by apply on_proposed_spec.
  - by apply on_proposal_spec.
  - by apply process_tc_spec.
  - by apply on_validated_spec.
  - by apply on_vote_spec.
Qed.

(** The two methods of the second group call each other at most once per round: a timeout
    message starts the local timeout only where the engine has not timed out yet. *)
Definition msg_fueled (n : nat) (e : Engine) : Prop :=
  FF \/ 20 * (2 ^ 64 - e_round e) + (if decide (e_round e ∈ e_timed_out e) then 0 else 4) + 1
        <= Z.of_nat n.
Definition local_fueled (n : nat) (e : Engine) : Prop :=
  FF \/ 20 * (2 ^ 64 - e_round e) + 2 <= Z.of_nat n.

Lemma msg_fueled_mono n e e' : msg_fueled n e -> mono e e' -> msg_fueled n e'.
Proof.
  intros [H|H] [[Hr _ _ _ _ _] Ht]; [by left|right].
  destruct (decide (e_round e' = e_round e)) as [E|]; [|repeat case_decide; lia].
  rewrite E in *. do 2 case_decide; try lia. exfalso. auto.
Qed.

Lemma msg_fueled_call k n e :
  I e -> k <= 10 -> msg_fueled (Datatypes.S n) e -> fueled k n e.
Proof.
  intros HI Hk [H|H]; [by left|right]. destruct (c_range _ _ _ C _ HI) as [_ ?].
  case_decide; lia.
Qed.

(** The methods of the second group at fuel [n]. *)
Record timeout_specs (n : nat) : Prop := {
  s_local_timeout e : I e -> local_fueled n e -> wp (local_timeout cfg n) (Post e) e;
  s_on_timeout_msg t e : I e -> wt_timeout t -> msg_fueled n e ->
    wp (on_timeout_msg cfg n t) (Post e) e;
}.

Lemma local_timeout_spec n e :
  timeout_specs n -> I e -> local_fueled (Datatypes.S n) e ->
  wp (local_timeout cfg (Datatypes.S n)) (Post e) e.
Proof.
  intros IH HI Hn. simpl local_timeout. apply wp_read. cbv zeta. apply wp_update; [forward|].
  set (e1 := set_consecutive_timeouts _ _).
  assert (I e1 /\ e_round e1 = e_round e /\ e_round e1 <= e_last_voted e1) as (HI1 & Hr & Hv).
  { split; [|simpl; lia]. eapply (c_core _ _ _ C); [|by apply (c_last_voted _ _ _ C)]. core. }
  rewrite <-Hr. clearbody e1. apply wp_read, wp_emit. case_bool_decide; [stay|].
  apply wp_update; [aside|].
  unfold sign_log. apply wp_update; [forward|]. cbn beta.
  set (e2 := set_signed _ _).
  assert (I e2) as HI2.
  { apply (c_timeout _ _ _ C (set_timed_out _ e1)); [|done].
    eapply (c_core _ _ _ C); [|apply HI1]. core. }
  assert (msg_fueled n e2) as Hn2.
  { destruct Hn as [Hn|Hn]; [by left|right]. simpl. rewrite decide_True by set_solver. lia. }
  pose proof (c_range _ _ _ C _ HI1) as Hrange. clearbody e2.
  pose proof Hcfg as (_ & _ & _ & _ & _ & Hme). rewrite Forall_forall in Hme.
  apply wp_for_until with (I := post mono e2); [|by apply post_refl].
  intros i e3 Hi [HI3 M3]. apply wp_bind, wp_get. cbv zeta. apply wp_bind, wp_push, wp_bind.
  eapply wp_mono; [|apply s_on_timeout_msg; [done|done| |by eapply msg_fueled_mono]].
  - intros [] e4 w Hp. apply wp_bind, wp_get, wp_ret. eapply post_trans; done.
  - pose proof (c_high_ok _ _ _ C _ HI3) as [Hq _].
    pose proof (c_tc_ok _ _ _ C _ HI3) as Htc.
    split; [done|]. split; [done|]. split; [by apply Hme|]. simpl.
    destruct (e_entry_tc e3); [apply Htc|done].
Qed.

Lemma on_timeout_msg_spec n t e :
  timeout_specs n -> I e -> wt_timeout t -> msg_fueled (Datatypes.S n) e ->
  wp (on_timeout_msg cfg (Datatypes.S n) t) (Post e) e.
Proof.
  intros IH HI Ht Hn. cbn [on_timeout_msg]. apply wp_read.
  destruct (timeout_ok cfg e t) eqn:Eok; cbn [negb]; [|stay].
  apply wp_call.
  { destruct (t_last_tc t) as [tc|] eqn:Etc; [|stay].
    destruct (_ && _) eqn:Ec; [|stay]. apply andb_true_iff in Ec as [_ Ev].
    apply s_process_tc; [apply all_specs|done| |by apply msg_fueled_call].
    apply verify_tc_ok; [|done].
    destruct Ht as (_ & _ & _ & Ht). rewrite Etc in Ht. done. }
  intros e1 [HI1 M1]. apply wp_call.
  { apply process_qc_post; [apply all_specs|done|by eapply timeout_qc_ok|].
    apply msg_fueled_call; [done|done|]. by eapply msg_fueled_mono. }
  intros e2 [HI2 M2]. apply wp_read. cbv zeta.
  assert (msg_fueled (Datatypes.S n) e2) as Hn2
    by (do 2 (eapply msg_fueled_mono; [|done]); done).
  change (default _ (e_timeouts e2 !! t_round t)) with (new_timeout_set e2 t).
  destruct (ts_done (new_timeout_set e2 t)) eqn:Ed.
  { apply wp_modify. split; [by apply (c_timeouts_done _ _ _ C)|]. forward. }
  destruct (c_timeouts _ _ _ C e2 e t) as (HI3 & HI4 & Htc); [done..|].
  destruct (ValidatorSet.is_quorum _ _).
  - apply wp_update; [forward|].
    apply s_process_tc; [apply all_specs|done|by apply Htc|].
    by apply (msg_fueled_call 3 n e2).
  - apply wp_update; [forward|]. apply wp_read. destruct (_ && _) eqn:El; [|stay].
    apply s_local_timeout; [done|done|].
    rewrite !andb_true_iff in El. destruct El as [[_ Er%Z.eqb_eq] Eto].
    simpl in Er. rewrite Er in Eto. apply negb_true_iff, bool_decide_eq_false in Eto.
    destruct Hn2 as [Hn2|Hn2]; [by left|right]. simpl in *.
    rewrite decide_False in Hn2 by done. lia.
Qed.

Lemma local_zero e : I e -> local_fueled 0 e -> FF.
Proof. intros HI [H|H]; [done|]. destruct (c_range _ _ _ C _ HI). lia. Qed.

Lemma msg_zero e : I e -> msg_fueled 0 e -> FF.
Proof. intros HI [H|H]; [done|]. destruct (c_range _ _ _ C _ HI). case_decide; lia. Qed.

Lemma all_timeout_specs n : timeout_specs n.
Proof.
  induction n as [|n IH].
  { split; intros; apply wp_no_fuel; [by eapply local_zero|by eapply msg_zero]. }
  split; intros; [by apply local_timeout_spec|by apply on_timeout_msg_spec].
Qed.

(** Fuel for any call. *)
Definition call_fueled (n : nat) : Prop := FF \/ 20 * 2 ^ 64 + 10 <= Z.of_nat n.

Lemma call_fueled_first k n e : I e -> k <= 10 -> call_fueled n -> fueled k n e.
Proof.
  intros HI Hk [H|H]; [by left|right]. destruct (c_range _ _ _ C e HI). lia.
Qed.

Lemma call_fueled_local n e : I e -> call_fueled n -> local_fueled n e.
Proof. intros HI [H|H]; [by left|right]. destruct (c_range _ _ _ C e HI). lia. Qed.

Lemma call_fueled_msg n e : I e -> call_fueled n -> msg_fueled n e.
Proof.
  intros HI [H|H]; [by left|right]. destruct (c_range _ _ _ C e HI). case_decide; lia.
Qed.

(** Every call on the engine preserves a closed predicate and moves it forward. *)
Theorem handle_preserves n i e :
  I e -> wt_input i -> tree_input i -> fetch_input i -> call_fueled n -> wp (handle cfg n i) (Post e) e.
Proof.
  intros HI Hwt Htree Hfetch Hn. pose proof (all_specs n) as A. pose proof (all_timeout_specs n) as T.
  destruct i as [|m|h valid|b qc tc payload|r|b|b qc]; cbn [handle].
  - apply wp_read. apply s_enter_round;
      [done|done|by apply wrap_range|done|by apply call_fueled_first].
  - apply wp_read. destruct (_ || _); [stay|].
    destruct m.
    + apply s_on_proposal; [done|done|done|by left|by apply call_fueled_first].
    + apply s_on_vote; [done|done|done|by apply call_fueled_first].
    + apply s_on_timeout_msg; [done|done|done|by apply call_fueled_msg].
  - apply s_on_validated; [done|done|by apply call_fueled_first].
  - destruct Hwt as (? & ? & ?). apply s_on_proposed; [done..|by apply call_fueled_first].
  - apply wp_read. destruct (_ || _); [stay|].
    apply s_local_timeout; [done|done|by apply call_fueled_local].
  - apply wp_update; [aside|].
    set (e1 := set_requested _ e).
    assert (I e1) as HI1 by (eapply (c_core _ _ _ C); [|apply HI]; core). clearbody e1.
    set (f := fun e0 : Engine => if _ <? _ then _ else _).
    assert (post mono e1 (f e1)) as [HI2 M2].
    { unfold f. destruct (Z.ltb_spec (b_height (e_committed e1)) (b_height b));
        [|by apply post_refl]. split; [by apply (c_fetched _ _ _ C)|]. forward. }
    apply wp_update; [done|]. apply wp_read.
    destruct (e_blocked_commit _) as [q|] eqn:Eq; [|stay].
    apply try_commit_spec; [done|]. by eapply (c_blocked_ok _ _ _ C).
  - destruct Hwt as [Hb Hq]. destruct Htree as [Ht Hx]. apply wp_read.
    destruct (Z.leb_spec (b_height b) (b_height (e_committed e))); cbn [orb]; [stay|].
    destruct (verify_qc cfg qc) eqn:Ev; cbn [negb orb]; [|stay].
    destruct (Z.eqb_spec (qc_block qc) (b_hash b)); cbn [negb]; [|stay].
    assert (qc_ok qc) as Hok by (by apply verify_qc_ok).
    apply wp_update; [forward|]. apply wp_update; [forward|].
    assert (I (set_committed b (set_blocks (<[b_hash b := b]> (e_blocks e)) e))) as HI1
      by (by apply (c_external _ _ _ C e b qc)).
    apply process_qc_post; [done|done|done|by apply call_fueled_first].
Qed.
End induction.
End principle.


