(* ===== verification/EngineVotes.v ===== *)
(** * Vote and timeout collection

    The certificates an engine forms from the votes and timeouts it collected are ones every
    verifier accepts: a quorum of distinct members whose signatures (checked one by one or as an
    aggregate) verify, recorded in the bitmap; a timeout certificate whose high certificate is
    the highest one reported. *)

From S2P Require Import Prelude Types TypesFacts Engine EngineInv.
From stdpp Require Import base list list_numbers sorting gmap strings.
From Stdlib Require Import ZArith Lia.

Open Scope Z_scope.

(** ** Listings of a [BTreeMap] *)

#[export] Instance Zle_total : Total Z.le.
Proof. intros x y. lia. Qed.
#[export] Instance key_le_total {A} : Total (@key_le A).
Proof. intros x y. unfold key_le. lia. Qed.
#[export] Instance key_le_trans {A} : Transitive (@key_le A).
Proof. intros x y z. unfold key_le. lia. Qed.

Lemma sorted_le_lt (l : list Z) : StronglySorted Z.le l -> NoDup l -> StronglySorted Z.lt l.
Proof.
  induction 1 as [|x l Hl IH Hx]; intros Hd; [constructor|].
  apply NoDup_cons in Hd as [Hn Hd]. constructor; [auto|].
  rewrite Forall_forall in Hx |- *. intros y Hy. specialize (Hx _ Hy).
  assert (x <> y) by (by intros ->). lia.
Qed.

Lemma elem_of_btree_list {A} (m : gmap Z A) k v : (k, v) ∈ btree_to_list m <-> m !! k = Some v.
Proof. unfold btree_to_list. by rewrite merge_sort_Permutation, elem_of_map_to_list. Qed.

Lemma elem_of_btree_keys {A} (m : gmap Z A) k : k ∈ btree_keys m <-> is_Some (m !! k).
Proof.
  unfold btree_keys. rewrite list_elem_of_In, in_map_iff. split.
  - intros ([k' v] & <- & H%list_elem_of_In%elem_of_btree_list). by exists v.
  - intros [v H]. exists (k, v). split; [done|]. by apply list_elem_of_In, elem_of_btree_list.
Qed.

Lemma btree_keys_NoDup {A} (m : gmap Z A) : NoDup (btree_keys m).
Proof.
  unfold btree_keys, btree_to_list. change (map fst) with (fmap (M := list) (@fst Z A)).
  rewrite merge_sort_Permutation. apply NoDup_fst_map_to_list.
Qed.

Lemma btree_keys_sorted {A} (m : gmap Z A) : StronglySorted Z.lt (btree_keys m).
Proof.
  apply sorted_le_lt; [|apply btree_keys_NoDup]. unfold btree_keys, btree_to_list.
  pose proof (StronglySorted_merge_sort (@key_le A) (map_to_list m)) as H.
  induction H as [|x l Hl IH Hx]; simpl; constructor; [done|].
  apply Forall_forall. intros k Hk.
  apply list_elem_of_In, in_map_iff in Hk as (y & <- & Hy%list_elem_of_In).
  exact (proj1 (Forall_forall (key_le x) l) Hx y Hy).
Qed.

Lemma btree_keys_values {A} (m : gmap Z A) (P : Z -> A -> Prop) :
  (forall k v, m !! k = Some v -> P k v) -> Forall2 P (btree_keys m) (btree_values m).
Proof.
  intros H. unfold btree_keys, btree_values.
  assert (forall k v, (k, v) ∈ btree_to_list m -> P k v) as H'
    by (intros k v ?%elem_of_btree_list; auto).
  induction (btree_to_list m) as [|[k v] l IH]; simpl; constructor; [apply H'; left|].
  apply IH. intros. apply H'. by right.
Qed.

Lemma weight_of_perm vs l k :
  l ≡ₚ k -> ValidatorSet.weight_of vs l = ValidatorSet.weight_of vs k.
Proof.
  intros H. unfold ValidatorSet.weight_of. f_equal. by apply sumZ_perm, fmap_Permutation.
Qed.

Lemma sort_unstable_lt l : NoDup l -> StronglySorted Z.lt (sort_unstable l).
Proof.
  intros Hd. unfold sort_unstable. apply sorted_le_lt.
  - apply StronglySorted_merge_sort; apply _.
  - by rewrite merge_sort_Permutation.
Qed.

Lemma sort_unstable_perm l : sort_unstable l ≡ₚ l.
Proof. apply merge_sort_Permutation. Qed.

Lemma omap_Forall2 {A B} (f : A -> option B) (P : A -> B -> Prop) l :
  Forall (fun x => exists y, f x = Some y /\ P x y) l -> Forall2 P l (omap f l).
Proof.
  induction 1 as [|x l (y & E & Hp) _ IH]; simpl; [constructor|].
  rewrite E. by constructor.
Qed.

Lemma dedup_length l : (length (dedup l) <= length l)%nat.
Proof.
  induction l as [|x l IH]; [done|]. simpl. destruct l as [|y l]; [done|].
  destruct (x =? y); simpl in *; lia.
Qed.

Lemma dedup_NoDup l : StronglySorted Z.le l -> length (dedup l) = length l -> NoDup l.
Proof.
  induction 1 as [|x l Hl IH Hx]; intros E; [constructor|]. simpl in E.
  destruct l as [|y l]; [apply NoDup_singleton|].
  pose proof (dedup_length (y :: l)) as Hd.
  destruct (Z.eqb_spec x y) as [->|Hne]; [simpl in *; lia|].
  simpl length in E. injection E as E. constructor; [|by apply IH].
  intros Hin. inversion Hl as [|? ? _ Hy]; subst. rewrite Forall_forall in Hx, Hy.
  apply elem_of_cons in Hin as [->|Hin]; [done|].
  pose proof (Hx y ltac:(left)). specialize (Hy _ Hin). lia.
Qed.

Lemma dedup_sorted l : StronglySorted Z.lt l -> dedup l = l.
Proof.
  induction 1 as [|x l Hl IH Hx]; [done|]. simpl. destruct l as [|y l]; [done|].
  inversion Hx; subst. destruct (Z.eqb_spec x y); [lia|]. by rewrite IH.
Qed.

Section votes.
Context `{S : Scheme} `{K : Keccak} {L : SchemeLaws S} (cfg : Config).

(** Indices of the committee, and the committee fits in a [u16]. *)
Definition member (i : ValidatorIndex) : Prop :=
  0 <= i < ValidatorSet.len (validators cfg).

Definition small_committee : Prop := ValidatorSet.len (validators cfg) <= 65536.

(** ** Vote sets *)

Definition msg_of (k : Round * B256) : bytes :=
  vote_msg (chain_id cfg) (epoch cfg) (fst k) (snd k).

Record vote_set_ok (k : Round * B256) (set : VoteSet) : Prop := {
  vso_round : in_range 64 (fst k);
  vso_block : in_range 256 (snd k);
  vso_height : in_range 64 (vs_height set);
  vso_sigs i s : vs_sigs set !! i = Some s -> member i /\ verify i (msg_of k) s = true;
  vso_pending i s : vs_pending set !! i = Some s -> member i /\ vs_sigs set !! i = None;
}.

Lemma insert_genuine_spec i msg old new sigs j s :
  insert_genuine i msg old new sigs !! j = Some s ->
  sigs !! j = Some s \/ (j = i /\ verify j msg s = true).
Proof.
  unfold insert_genuine. destruct (verify i msg old) eqn:E1; [|destruct (verify i msg new) eqn:E2];
    try (intros [[<- <-]|[_ ?]]%lookup_insert_Some; auto); auto.
Qed.

Lemma vote_set_add_ok k set v set' :
  vote_set_ok k set -> member (v_signer v) ->
  vote_set_add set v (msg_of k) = Some set' -> vote_set_ok k set'.
Proof.
  intros [Hr Hb Hh Hs Hp] Hm. unfold vote_set_add.
  destruct (vs_done set || negb (vs_height set =? v_height v)
            || bool_decide (is_Some (vs_sigs set !! v_signer v))) eqn:E; [done|].
  apply orb_false_iff in E as [_ Hno%bool_decide_eq_false].
  rewrite <-eq_None_not_Some in Hno.
  destruct (vs_pending set !! v_signer v) as [s0|] eqn:Es.
  - case_bool_decide; [done|]. intros [= <-]. constructor; simpl; try done.
    + intros i s [Hi|[-> Hv]]%insert_genuine_spec; [by apply Hs|done].
    + intros i s [Hne Hi]%lookup_delete_Some. split; [by apply (Hp i s)|].
      apply eq_None_not_Some. intros [s' [Hi'|[-> _]]%insert_genuine_spec]; [|done].
      apply (Hp i s) in Hi as [_ Hi]. congruence.
  - intros [= <-]. constructor; simpl; try done.
    intros i s [[<- <-]|[Hne Hi]]%lookup_insert_Some; [done|by apply (Hp i s)].
Qed.

Lemma check_pending_sigs msg set i s :
  vs_sigs (check_pending msg set) !! i = Some s ->
  vs_sigs set !! i = Some s
  \/ (vs_pending set !! i = Some s /\ verify i msg s = true).
Proof.
  unfold check_pending. simpl.
  assert (forall j x, (j, x) ∈ btree_to_list (vs_pending set) -> vs_pending set !! j = Some x)
    as Hin by (intros j x; by rewrite elem_of_btree_list).
  revert Hin. generalize (btree_to_list (vs_pending set)) as l.
  induction l as [|[j x] l IH] using rev_ind; intros Hin; [by left|].
  rewrite foldl_app. cbn [foldl]. intros H.
  assert (forall j0 x0, (j0, x0) ∈ l -> vs_pending set !! j0 = Some x0) as Hin'
    by (intros; apply Hin, elem_of_app; by left).
  destruct (verify j msg x) eqn:Ev; [|by apply IH].
  apply lookup_insert_Some in H as [[<- <-]|[_ H]]; [|by apply IH].
  right. split; [|done]. apply Hin, elem_of_app. right. left.
Qed.

Lemma check_pending_ok k set : vote_set_ok k set -> vote_set_ok k (check_pending (msg_of k) set).
Proof.
  intros [Hr Hb Hh Hs Hp]. constructor; try done.
  intros i s [Hi|[Hi Hv]]%check_pending_sigs; [by apply Hs|]. split; [|done].
  by apply (Hp i s).
Qed.

Lemma set_done_ok k set : vote_set_ok k set -> vote_set_ok k (set_done set).
Proof. intros []. by constructor. Qed.

(** A strictly sorted list of members with a verified aggregate is a backed certificate. *)
Lemma formed_backed r h height signers a :
  small_committee -> StronglySorted Z.lt signers -> Forall member signers ->
  ValidatorSet.is_quorum (validators cfg)
    (ValidatorSet.weight_of (validators cfg) signers) = true ->
  verify_aggregate signers (vote_msg (chain_id cfg) (epoch cfg) r h) a = true ->
  backed cfg (mkQc (epoch cfg) r h height
                (Bitmap.encode signers (length (weights (validators cfg)))) (Some a)).
Proof.
  intros Hsmall Hs Hm Hq Hv. split; [done|]. right. exists a. simpl.
  assert (Bitmap.decode (Bitmap.encode signers (length (weights (validators cfg)))) = signers)
    as ->.
  { apply BitmapFacts.decode_encode; [exact Hsmall|done|exact Hm]. }
  split; [done|]. split; [done|]. split; [|done].
  eapply Forall_impl; [exact Hm|]. intros i [_ ?]. done.
Qed.

(** The certificate formed from the collected votes. *)
Lemma vote_set_certify_ok k set set' cert :
  small_committee -> vote_set_ok k set ->
  vote_set_certify (validators cfg) (msg_of k) set = (set', cert) ->
  vote_set_ok k set'
  /\ forall signers a, cert = Some (signers, a) ->
     StronglySorted Z.lt signers /\ Forall member signers
     /\ ValidatorSet.is_quorum (validators cfg)
          (ValidatorSet.weight_of (validators cfg) signers) = true
     /\ verify_aggregate signers (msg_of k) a = true.
Proof.
  intros Hsmall Hok. unfold vote_set_certify.
  set (all := btree_keys (vs_sigs set) ++ btree_keys (vs_pending set)).
  destruct (ValidatorSet.is_quorum _ (ValidatorSet.weight_of _ all)) eqn:Eq; cbn [negb].
  2:{ intros [= <- <-]. done. }
  assert (NoDup all) as Hd.
  { apply NoDup_app. split; [apply btree_keys_NoDup|]. split; [|apply btree_keys_NoDup].
    intros i [s Hi]%elem_of_btree_keys [s' Hi']%elem_of_btree_keys.
    apply (vso_pending _ _ Hok) in Hi' as [_ Hi']. congruence. }
  assert (Forall member all) as Hm.
  { apply Forall_forall. intros i [Hi|Hi]%elem_of_app; apply elem_of_btree_keys in Hi as [s Hi];
      [by apply (vso_sigs _ _ Hok i s)|by apply (vso_pending _ _ Hok i s)]. }
  set (signers := sort_unstable all).
  assert (Forall member signers) as Hm' by (unfold signers; by rewrite (sort_unstable_perm all)).
  set (sig_of := fun i => match vs_sigs set !! i with Some s => Some s | None => _ end).
  set (agg := match aggregate _ with Some a => _ | None => None end).
  destruct agg as [a|] eqn:Ea.
  - intros [= <- <-]. split; [by apply set_done_ok|]. intros ? ? [= <- <-].
    split; [by apply sort_unstable_lt|]. split; [done|]. split.
    { unfold signers. by rewrite (weight_of_perm _ _ _ (sort_unstable_perm all)). }
    unfold agg in Ea. destruct (aggregate (omap sig_of signers)) as [a'|] eqn:Eagg; [|done].
    destruct (bool_decide (vs_pending set = ∅)) eqn:Ep; simpl in Ea.
    2:{ destruct (verify_aggregate signers (msg_of k) a') eqn:Ev; congruence. }
    injection Ea as ->. apply bool_decide_eq_true in Ep.
    eapply aggregate_verifies; [|exact Eagg]. apply omap_Forall2, Forall_forall.
    intros i Hi. unfold signers in Hi. rewrite (sort_unstable_perm all) in Hi.
    apply elem_of_app in Hi as [Hi|Hi]; apply elem_of_btree_keys in Hi as [s Hi].
    + exists s. unfold sig_of. rewrite Hi. split; [done|]. by apply (vso_sigs _ _ Hok i s).
    + rewrite Ep, lookup_empty in Hi. done.
  - clear agg Ea. pose proof (check_pending_ok k set Hok) as Hok'.
    set (set1 := check_pending (msg_of k) set) in *.
    destruct (ValidatorSet.is_quorum _ (ValidatorSet.weight_of _ (btree_keys (vs_sigs set1))))
      eqn:Eq1; cbn [negb]; [|by intros [= <- <-]].
    destruct (aggregate (btree_values (vs_sigs set1))) as [a|] eqn:Eagg; [|by intros [= <- <-]].
    intros [= <- <-]. split; [by apply set_done_ok|]. intros ? ? [= <- <-].
    split; [apply btree_keys_sorted|]. split.
    { apply Forall_forall. intros i [s Hi]%elem_of_btree_keys. by apply (vso_sigs _ _ Hok' i s). }
    split; [done|]. eapply aggregate_verifies; [|exact Eagg].
    apply btree_keys_values. intros i s Hi. by apply (vso_sigs _ _ Hok' i s).
Qed.

(** ** Timeout sets *)

Record timeout_set_ok (r : Round) (set : TimeoutSet) : Prop := {
  tso_round : in_range 64 r;
  tso_wt : wt_qc (ts_high_qc set);
  tso_high : verify_qc cfg (ts_high_qc set) = true;
  tso_entries i q s : ts_entries set !! i = Some (q, s) ->
    member i /\ in_range 16 i /\ in_range 64 q /\ q < r
    /\ verify i (timeout_msg (chain_id cfg) (epoch cfg) r q) s = true;
}.

Lemma timeout_set_add_ok e t set :
  wt_timeout t -> timeout_ok cfg e t = true -> timeout_set_ok (t_round t) set ->
  timeout_set_ok (t_round t) (timeout_set_add t set).
Proof.
  intros (Hr & Hq & Hs & _) Hok [_ Hwt Hv He]. unfold timeout_ok in Hok.
  rewrite !andb_true_iff in Hok. destruct Hok as [[[[[_ Hlen] _] Hlt] Hsig] Hver].
  constructor; simpl; [done| | |].
  - destruct (qc_round (ts_high_qc set) <? _); [apply Hq|apply Hwt].
  - destruct (qc_round (ts_high_qc set) <? _); [apply Hver|apply Hv].
  - intros i q s [[<- [= <- <-]]|[_ Hi]]%lookup_insert_Some; [|by apply He].
    split; [unfold member; destruct Hs; lia|]. split; [done|].
    split; [apply Hq|]. split; [lia|done].
Qed.

Lemma new_timeout_set_ok e0 e t :
  (forall r set, e_timeouts e !! r = Some set -> timeout_set_ok r set) ->
  wt_timeout t -> timeout_ok cfg e0 t = true ->
  timeout_set_ok (t_round t) (new_timeout_set e t).
Proof.
  intros Hall (Hr & Hq & Hs & _) Hok. unfold new_timeout_set.
  destruct (e_timeouts e !! t_round t) as [set|] eqn:E; [by apply Hall|]. simpl.
  unfold timeout_ok in Hok. rewrite !andb_true_iff in Hok.
  constructor; simpl; [done|done|apply Hok|]. intros i q s. by rewrite lookup_empty.
Qed.

Lemma timeout_set_done_ok r set :
  timeout_set_ok r set -> timeout_set_ok r (timeout_set_done set).
Proof. intros []. by constructor. Qed.

Lemma make_tc_ok r set : timeout_set_ok r set -> tc_ok cfg (make_tc cfg r set).
Proof.
  intros [Hr Hwt Hv He]. split; [split; [done|]; split; [done|]|by apply verify_qc_ok].
  apply Forall_forall. intros [[i q] s] Hi. unfold make_tc in Hi. simpl in Hi.
  apply list_elem_of_In, in_map_iff in Hi as ([i' [q' s']] & [= -> -> ->] & Hi).
  apply list_elem_of_In, elem_of_btree_list, He in Hi as (_ & ? & ? & _). done.
Qed.

(** The reported certificate is the highest one of the entries. *)
Definition reports_max (set : TimeoutSet) : Prop :=
  (exists i s, ts_entries set !! i = Some (qc_round (ts_high_qc set), s))
  /\ forall i q s, ts_entries set !! i = Some (q, s) -> q <= qc_round (ts_high_qc set).

Lemma reports_max_first t set :
  ts_entries set = ∅ -> ts_high_qc set = t_high_qc t -> reports_max (timeout_set_add t set).
Proof.
  intros E Eq. unfold timeout_set_add, reports_max. simpl. rewrite E, Eq, Z.ltb_irrefl.
  split; [exists (t_signer t), (t_sig t); apply lookup_insert_eq|].
  intros i q s [[<- [= <- <-]]|[_ Hi]]%lookup_insert_Some; [lia|]. by rewrite lookup_empty in Hi.
Qed.

(** A timeout of a signer not yet in the set keeps the maximum. *)
Lemma reports_max_add t set :
  reports_max set -> ts_entries set !! t_signer t = None -> reports_max (timeout_set_add t set).
Proof.
  intros [(i & s & Hi) Hmax] Hno. unfold timeout_set_add, reports_max. simpl.
  destruct (Z.ltb_spec (qc_round (ts_high_qc set)) (qc_round (t_high_qc t))).
  - split; [exists (t_signer t), (t_sig t); apply lookup_insert_eq|].
    intros j q s' [[<- [= <- <-]]|[_ Hj]]%lookup_insert_Some; [lia|]. apply Hmax in Hj. lia.
  - split.
    + exists i, s. rewrite lookup_insert_ne; [done|]. intros E. congruence.
    + intros j q s' [[<- [= <- <-]]|[_ Hj]]%lookup_insert_Some; [lia|]. by apply Hmax in Hj.
Qed.

Lemma make_tc_signers r set :
  sort_unstable (map (fun en => fst (fst en)) (tc_entries (make_tc cfg r set)))
  = btree_keys (ts_entries set).
Proof.
  assert (map (fun en => fst (fst en)) (tc_entries (make_tc cfg r set))
          = btree_keys (ts_entries set)) as ->.
  { unfold make_tc, btree_keys. simpl. rewrite map_map. apply map_ext. by intros [i [q s]]. }
  apply sorted_lt_ext.
  - apply sort_unstable_lt, btree_keys_NoDup.
  - apply btree_keys_sorted.
  - intros i. by rewrite (sort_unstable_perm _).
Qed.

Lemma make_tc_max r set :
  timeout_set_ok r set -> reports_max set ->
  max_qc_round (make_tc cfg r set) = qc_round (ts_high_qc set).
Proof.
  intros Hok [(i & s & Hi) Hmax]. unfold max_qc_round, make_tc. simpl. rewrite map_map.
  assert (forall l : list (Z * (Z * Sig)),
    (forall j q x, (j, (q, x)) ∈ l -> 0 <= q <= qc_round (ts_high_qc set)) ->
    foldr Z.max 0 (map (fun en => snd (fst (let '(i, (r, s)) := en in (i, r, s)))) l)
    <= Z.max 0 (qc_round (ts_high_qc set))
    /\ ((i, (qc_round (ts_high_qc set), s)) ∈ l ->
        qc_round (ts_high_qc set)
        <= foldr Z.max 0 (map (fun en => snd (fst (let '(i, (r, s)) := en in (i, r, s)))) l)))
    as Hfold.
  { induction l as [|[j [q x]] l IH]; intros Hl; simpl.
    - split; [lia|set_solver].
    - pose proof (Hl j q x ltac:(left)). destruct IH as [IH1 IH2];
        [intros; eapply Hl; right; done|]. split; [lia|].
      intros [[= _ <- _]|Hin]%elem_of_cons; [lia|]. specialize (IH2 Hin). lia. }
  destruct (Hfold (btree_to_list (ts_entries set))) as [H1 H2].
  - intros j q x Hj%elem_of_btree_list. split; [|by eapply Hmax].
    apply (tso_entries _ _ Hok) in Hj as (_ & _ & [? _] & _). done.
  - rewrite <-elem_of_btree_list in Hi. specialize (H2 Hi).
    pose proof (tso_wt _ _ Hok) as (_ & [? _] & _). lia.
Qed.

(** A complete set of timeouts that reports its maximum makes a certificate that verifies. *)
Lemma make_tc_verifies r set :
  timeout_set_ok r set -> reports_max set ->
  ValidatorSet.is_quorum (validators cfg)
    (ValidatorSet.weight_of (validators cfg) (btree_keys (ts_entries set))) = true ->
  verify_tc cfg (make_tc cfg r set) = true.
Proof.
  intros Hok Hmax Hq. unfold verify_tc, Tc_verify.
  rewrite make_tc_signers, make_tc_max, (dedup_sorted _ (btree_keys_sorted _)) by done.
  rewrite !andb_true_iff, Hq. repeat split; try apply Z.eqb_refl.
  - apply Nat.eqb_eq. unfold make_tc, btree_keys. simpl. by rewrite !length_map.
  - apply forallb_forall. intros i [[q s] Hi]%list_elem_of_In%elem_of_btree_keys.
    apply (tso_entries _ _ Hok) in Hi as [[_ Hi] _]. by apply Z.ltb_lt.
  - apply forallb_forall. intros [[i q] s] Hi.
    apply in_map_iff in Hi as ([i' [q' s']] & [= -> -> ->] & Hi).
    apply list_elem_of_In, elem_of_btree_list, (tso_entries _ _ Hok) in Hi
      as (_ & _ & _ & Hlt & Hv). apply andb_true_iff. split; [by apply Z.ltb_lt|done].
  - apply (tso_high _ _ Hok).
Qed.
End votes.
