(* ===== verification/EngineSafety.v ===== *)
(** * Safety of the consensus engine

    The invariant of a single engine ([Inv]) with the discipline its signatures follow, its
    preservation by every call (through the principle of EngineInv.v).  EngineAgreement.v proves
    agreement from it. *)

From S2P Require Import Prelude Types TypesFacts Engine EngineInv EngineVotes.
From stdpp Require Import base list list_numbers sorting gmap strings.
From Stdlib Require Import ZArith Lia.

Open Scope Z_scope.
Open Scope bolt_scope.

Section invariant.
Context `{S : Scheme} `{K : Keccak} {L : SchemeLaws S} (cfg : Config).
Context (tree_ok ext_ok : BlockInfo -> Prop).

Abbreviation known := (known tree_ok).

(** The order in which an engine signs (latest first): it votes once per round, for proposals
    the voting rule allows, in increasing rounds, never in a round at or below one it timed out
    in; and a timeout reports a certificate at least as high as the one of every proposal it
    voted for before. *)
Inductive disciplined : list Signed -> Prop :=
| disciplined_nil : disciplined []
| disciplined_vote p l :
    prop_ok cfg p -> safe_to_vote p = true ->
    (forall p', SignedVote p' ∈ l -> b_round (p_block p') < b_round (p_block p)) ->
    (forall r q, SignedTimeout r q ∈ l -> r < b_round (p_block p)) ->
    disciplined l -> disciplined (SignedVote p :: l)
| disciplined_timeout r q l :
    qc_ok cfg q -> in_range 64 r ->
    (forall p, SignedVote p ∈ l -> qc_round (p_qc p) <= qc_round q) ->
    disciplined l -> disciplined (SignedTimeout r q :: l)
| disciplined_proposal b payload l :
    disciplined l -> disciplined (SignedProposal b payload :: l).

(** [c] was finalised by the two-chain rule (or reported final by the environment). *)
Definition final (e : Engine) (c : BlockInfo) : Prop :=
  c = anchor cfg \/ ext_ok c
  \/ exists b qc, known e b /\ known e c /\ qc_ok cfg qc /\ qc_block qc = b_hash b
       /\ b_parent b = b_hash c /\ b_round b = u64 (b_round c + 1)
       /\ wt_block b /\ wt_block c.

Record Inv (e : Engine) : Prop := {
  inv_range : in_range 64 (e_round e);
  inv_voted : in_range 64 (e_last_voted e);
  inv_high : qc_ok cfg (e_high_qc e);
  inv_tc : otc_ok cfg (e_entry_tc e);
  inv_blocked q : e_blocked_commit e = Some q -> qc_ok cfg q;
  inv_pending h p : e_pending e !! h = Some p ->
    prop_ok cfg p /\ known e (p_block p) /\ qc_round (p_qc p) <= high_round e;
  inv_qcs h q : e_qcs e !! h = Some q -> qc_ok cfg q;
  inv_blocks h b : e_blocks e !! h = Some b ->
    b_hash b = h /\ wt_block b /\ known e b;
  inv_votes k set : e_votes e !! k = Some set -> vote_set_ok cfg k set;
  inv_timeouts r set : e_timeouts e !! r = Some set -> timeout_set_ok cfg r set;
  inv_log : disciplined (e_signed e);
  inv_log_votes p : SignedVote p ∈ e_signed e ->
    known e (p_block p) /\ b_round (p_block p) <= e_last_voted e
    /\ qc_round (p_qc p) <= high_round e;
  inv_log_timeouts r q : SignedTimeout r q ∈ e_signed e -> r <= e_last_voted e;
  inv_committed : final e (e_committed e);
  inv_root : wt_block (e_committed e) /\ known e (e_committed e);
}.

Lemma final_mono e e' c : advance e e' -> final e c -> final e' c.
Proof.
  intros Hm [H|[H|(b & qc & Hb & Hc & H)]]; [by left|right; by left|].
  right. right. exists b, qc. split; [by eapply known_mono|]. split; [by eapply known_mono|done].
Qed.

Context (Hcfg : wt_config cfg) (HK : KeccakLaws K) (Hsmall : small_committee cfg).
Context (Hanchor : tree_ok (anchor cfg)).

Lemma anchor_ok : qc_ok cfg (anchor_qc cfg).
Proof.
  destruct Hcfg as (_ & He & (Hh & _ & _ & Ht) & _).
  split; [|split; [done|by left]].
  split; [done|]. split; [done|]. split; [done|]. split; [done|]. unfold fits. simpl. lia.
Qed.

(** A fresh engine satisfies the invariant. *)
Lemma Inv_new : Inv (new cfg).
Proof.
  constructor; simpl; try done; try set_solver.
  - apply anchor_ok.
  - intros h q [<- <-]%lookup_singleton_Some. apply anchor_ok.
  - intros h b [<- <-]%lookup_singleton_Some. split; [done|]. split; [apply Hcfg|by left].
  - constructor.
  - by left.
  - split; [apply Hcfg|by left].
Qed.

Lemma same_core_eq e e' :
  same_core e e' ->
  e' = set_timed_out (e_timed_out e') (set_proposed (e_proposed e')
         (set_consecutive_timeouts (e_consecutive_timeouts e')
            (set_requested (e_requested e') (set_finished (e_finished e') e)))).
Proof. destruct e, e'. intros []. simpl in *. by subst. Qed.

Lemma Inv_core e e' : same_core e e' -> Inv e -> Inv e'.
Proof. intros ->%same_core_eq []. by constructor. Qed.

(** Updates of one field. *)
Lemma Inv_qcs e qc :
  Inv e -> qc_ok cfg qc -> Inv (set_qcs (<[qc_block qc := qc]> (e_qcs e)) e).
Proof.
  intros [] Hqc. constructor; try assumption. simpl.
  intros h q [[<- <-]|[_ Hq]]%lookup_insert_Some; [done|eauto].
Qed.

Lemma Inv_high e qc :
  Inv e -> qc_ok cfg qc -> high_round e < qc_round qc -> Inv (set_high_qc qc e).
Proof.
  intros [] Hqc Hlt. constructor; try assumption; unfold high_round in *; simpl.
  - intros h p Hp. destruct (inv_pending0 h p Hp) as (? & ? & ?). split; [done|].
    split; [done|]. simpl. lia.
  - intros p Hp. destruct (inv_log_votes0 p Hp) as (? & ? & ?). split; [done|].
    split; [done|]. lia.
Qed.

Lemma Inv_prune e : Inv e -> Inv (prune_engine e).
Proof.
  intros []. constructor; try assumption; simpl.
  - intros h p [Hp _]%map_lookup_filter_Some. by apply (inv_pending0 h).
  - intros h q [Hq _]%map_lookup_filter_Some. eauto.
  - intros h b [Hb _]%map_lookup_filter_Some. by apply inv_blocks0.
  - intros k set [Hk _]%map_lookup_filter_Some. auto.
  - intros r set [Hk _]%map_lookup_filter_Some. auto.
Qed.

Lemma Inv_block e b :
  Inv e -> wt_block b -> known e b ->
  Inv (set_blocks (<[b_hash b := b]> (e_blocks e)) e).
Proof.
  intros [] Hb Hk. constructor; try assumption. simpl.
  intros h b' [[<- <-]|[_ H]]%lookup_insert_Some; [|by apply inv_blocks0].
  done.
Qed.

Lemma Inv_pending_insert e p :
  Inv e -> prop_ok cfg p -> known e (p_block p) -> qc_round (p_qc p) <= high_round e ->
  Inv (set_pending (<[b_hash (p_block p) := p]> (e_pending e)) e).
Proof.
  intros [] Hp Hk Hq. constructor; try assumption. simpl.
  intros h p' [[<- <-]|[_ H]]%lookup_insert_Some; [done|by apply (inv_pending0 h)].
Qed.

Lemma Inv_pending_delete e h : Inv e -> Inv (set_pending (delete h (e_pending e)) e).
Proof.
  intros []. constructor; try assumption. simpl.
  intros h' p [_ H]%lookup_delete_Some. by apply (inv_pending0 h').
Qed.

(** A new signature, with the highest signed round raised to [lv]. *)
Lemma Inv_sign e s lv :
  Inv e -> e_last_voted e <= lv -> in_range 64 lv -> disciplined (s :: e_signed e) ->
  (forall p, s = SignedVote p -> known e (p_block p) /\ b_round (p_block p) <= lv
             /\ qc_round (p_qc p) <= high_round e) ->
  (forall r q, s = SignedTimeout r q -> r <= lv) ->
  Inv (set_signed (s :: e_signed e) (set_last_voted lv e)).
Proof.
  intros HI Hlv Hrg Hd Hv Ht. set (e' := set_signed _ _).
  assert (advance e e') as Hm.
  { constructor; unfold high_round; simpl; first [done | lia | by exists [s]]. }
  assert (forall b, known e b -> known e' b) as Hk by (intros b; by apply known_mono).
  pose proof (final_mono _ _ _ Hm (inv_committed _ HI)) as Hf.
  destruct HI. constructor; try assumption; simpl.
  - intros h p Hp. destruct (inv_pending0 h p Hp) as (? & ? & ?). auto.
  - intros h b Hb. destruct (inv_blocks0 h b Hb) as (? & ? & ?); auto.
  - intros p [<-|Hp]%elem_of_cons.
    + destruct (Hv p eq_refl) as (? & ? & ?). auto.
    + destruct (inv_log_votes0 p Hp) as (? & ? & ?). split; [auto|]. split; [lia|done].
  - intros r q [<-|Hp]%elem_of_cons; [by eapply Ht|].
    specialize (inv_log_timeouts0 r q Hp). lia.
  - destruct inv_root0. auto.
Qed.

Lemma Inv_vote e p :
  Inv e -> prop_ok cfg p -> known e (p_block p) -> e_last_voted e < b_round (p_block p) ->
  safe_to_vote p = true -> qc_round (p_qc p) <= high_round e ->
  Inv (set_signed (SignedVote p :: e_signed e) (set_last_voted (b_round (p_block p)) e)).
Proof.
  intros HI Hp Hk Hlt Hs Hq. apply Inv_sign; [done|lia|apply Hp| |by intros ? [= <-]|done].
  constructor; [done|done| | |by apply HI].
  - intros p' Hp'. apply (inv_log_votes _ HI) in Hp' as (_ & ? & _). lia.
  - intros r q Hr. apply (inv_log_timeouts _ HI) in Hr. lia.
Qed.

Lemma Inv_last_voted e lv :
  Inv e -> e_last_voted e <= lv -> in_range 64 lv -> Inv (set_last_voted lv e).
Proof.
  intros [] Hlv Hrg. constructor; try assumption; simpl.
  - intros p Hp. destruct (inv_log_votes0 p Hp) as (? & ? & ?). split; [done|].
    split; [lia|done].
  - intros r q Hr. specialize (inv_log_timeouts0 r q Hr). lia.
Qed.

Lemma set_last_voted_id e : set_last_voted (e_last_voted e) e = e.
Proof. by destruct e. Qed.

Lemma Inv_timeout e :
  Inv e -> e_round e <= e_last_voted e ->
  Inv (set_signed (SignedTimeout (e_round e) (e_high_qc e) :: e_signed e) e).
Proof.
  intros HI Hle. rewrite <-(set_last_voted_id e) at 4.
  apply Inv_sign; [done|lia|apply HI| |done|by intros ? ? [= <- _]].
  constructor; [apply HI|apply HI| |by apply HI].
  intros p Hp. apply (inv_log_votes _ HI) in Hp as (_ & _ & ?). done.
Qed.

Lemma Inv_sign_proposal e b payload :
  Inv e -> Inv (set_signed (SignedProposal b payload :: e_signed e) e).
Proof.
  intros HI. rewrite <-(set_last_voted_id e) at 2.
  apply Inv_sign; [done|lia|apply HI| |done|done]. constructor. apply HI.
Qed.

Lemma new_vote_set_ok e v :
  Inv e -> wt_vote v -> vote_set_ok cfg (v_round v, v_block v) (new_vote_set e v).
Proof.
  intros HI (Hr & Hb & Hh & _). unfold new_vote_set.
  destruct (e_votes e !! _) as [set|] eqn:E; simpl; [by apply (inv_votes _ HI)|].
  constructor; simpl; try done.
Qed.

Lemma Inv_put_votes e v set :
  Inv e -> vote_set_ok cfg (v_round v, v_block v) set -> Inv (put_votes e v set).
Proof.
  intros [] Hok. constructor; try assumption. simpl.
  intros k s [[<- <-]|[_ H]]%lookup_insert_Some; [done|auto].
Qed.

Lemma Inv_put_timeouts e t set :
  Inv e -> timeout_set_ok cfg (t_round t) set -> Inv (put_timeouts e t set).
Proof.
  intros [] Hok. constructor; try assumption. simpl.
  intros k s [[<- <-]|[_ H]]%lookup_insert_Some; [done|auto].
Qed.

Lemma Inv_votes_some e v set set' cert :
  Inv e -> wt_vote v -> v_signer v < ValidatorSet.len (validators cfg) ->
  vote_set_add (new_vote_set e v) v (vote_bytes cfg v) = Some set ->
  vote_set_certify (validators cfg) (vote_bytes cfg v) set = (set', cert) ->
  Inv (put_votes e v set')
  /\ (forall signers agg, cert = Some (signers, agg) ->
      qc_ok cfg (vote_qc cfg v set' signers agg)).
Proof.
  intros HI Hv Hm Ha Hc. pose proof Hv as (Hr & Hb & _ & [Hs _]).
  assert (vote_set_ok cfg (v_round v, v_block v) set) as Hok.
  { eapply vote_set_add_ok; [by apply new_vote_set_ok| |exact Ha]. split; [done|lia]. }
  destruct (vote_set_certify_ok cfg (v_round v, v_block v) set set' cert Hsmall Hok Hc)
    as [Hok' Hcert].
  split; [by apply Inv_put_votes|]. intros signers agg E.
  destruct (Hcert signers agg E) as (Hss & Hmem & Hq & Hver).
  split; [|by apply formed_backed].
  split; [apply Hcfg|]. split; [done|]. split; [done|]. split; [apply (vso_height _ _ _ Hok')|].
  apply BitmapFacts.encode_width. exact Hsmall.
Qed.

Lemma Inv_commit e qc b p pqc chain :
  Inv e -> qc_ok cfg qc -> commits e qc b p pqc chain -> Inv (committed_to cfg p e).
Proof.
  intros HI Hqc [Hb Hp Hr Hh Hpq _ _].
  destruct (inv_blocks _ HI _ _ Hb) as (Hbh & Hbw & Hbk).
  destruct (inv_blocks _ HI _ _ Hp) as (Hph & Hpw & Hpk).
  assert (final e p) as Hf; [|unfold committed_to; destruct (_ <=? _); destruct HI; by constructor].
  right. right.
  exists b, qc. split; [done|]. split; [done|]. split; [done|]. split; [done|].
  split; [done|]. split; [done|]. done.
Qed.

(** The invariant is closed under the engine's updates. *)
Lemma Inv_closed own_ok fetch_ok : closed cfg tree_ok ext_ok own_ok fetch_ok True True Inv.
Proof.
  constructor.
  - apply Inv_core.
  - intros e HI. apply HI.
  - intros e HI. apply HI.
  - intros e HI. apply HI.
  - intros e q HI. apply HI.
  - intros e h p HI. apply HI.
  - intros e qc HI Hq _. by apply Inv_qcs.
  - intros e qc. apply Inv_high.
  - intros e r tc [] Hlt Hr Htc. by constructor.
  - apply Inv_prune.
  - intros e p HI [[Hb _] _] Hk _ _. by apply Inv_block.
  - intros e p HI Hp Hk _ Hq. by apply Inv_pending_insert.
  - apply Inv_pending_delete.
  - intros e p HI Hp Hk _ Hlt Hs Hq. by apply Inv_vote.
  - intros e HI. pose proof (inv_range _ HI). pose proof (inv_voted _ HI).
    apply Inv_last_voted; [done|lia|]. unfold in_range in *. lia.
  - apply Inv_timeout.
  - intros e b payload HI _. by apply Inv_sign_proposal.
  - intros e v HI Hv _. apply Inv_put_votes; [done|]. by apply new_vote_set_ok.
  - intros e v set set' cert HI Hv _ Hm. by apply Inv_votes_some.
  - intros e t HI Ht Hd. apply Inv_put_timeouts; [done|].
    unfold new_timeout_set in *. destruct (e_timeouts e !! t_round t) as [set|] eqn:E;
      [by apply (inv_timeouts _ HI)|done].
  - intros e e0 t HI Ht Hok Hd. cbv zeta.
    assert (timeout_set_ok cfg (t_round t) (timeout_set_add t (new_timeout_set e t))) as Hset.
    { eapply timeout_set_add_ok; [done|exact Hok|].
      eapply new_timeout_set_ok; [apply HI|done|exact Hok]. }
    split; [by apply Inv_put_timeouts|].
    split; [apply Inv_put_timeouts; [done|by apply timeout_set_done_ok]|].
    intros _. by apply make_tc_ok.
  - apply Inv_commit.
  - done.
  - done.
  - done.
  - intros e qc [] Hq. constructor; try assumption. by intros ? [= <-].
  - intros e []. by constructor.
  - intros e b HI Hb Ht _ _. apply Inv_block; [done|done|by left].
  - intros e b qc HI Hb Ht Hx _ _ _.
    apply (Inv_block e b) in HI as []; [|done|by left]. constructor; try assumption.
    + right. by left.
    + split; [done|by left].
  - done.
Qed.

(** Every call preserves the invariant and moves the engine forward. *)
Lemma Inv_handle n i e e' out :
  Inv e -> wt_input i -> tree_input tree_ok ext_ok (fun _ => True) i ->
  handle cfg n i e = Done (tt, e', out) -> Inv e' /\ mono e e'.
Proof.
  intros HI Hwt Ht Hd.
  pose proof (handle_preserves cfg tree_ok ext_ok (fun _ => True) (fun _ => True) True True Inv
    (Inv_closed _ _) Hcfg HK ltac:(done) n i e HI Hwt Ht ltac:(by destruct i) ltac:(by left)) as H. unfold wp in H. by rewrite Hd in H.
Qed.

(** ** Restarts

    A node that stops and starts again resumes from what it persisted; the signatures it made
    before stay part of its history. *)
Definition restart (e : Engine) : Engine :=
  set_signed (e_signed e) (resume cfg (persisted cfg e)).

Lemma persisted_blocks e b :
  b ∈ ps_blocks (persisted cfg e) -> exists h, e_blocks e !! h = Some b.
Proof.
  unfold persisted. simpl. rewrite merge_sort_Permutation, list_elem_of_In, filter_In.
  intros [Hb _]. apply in_map_iff in Hb as ([h b'] & <- & Hb).
  exists h. by apply list_elem_of_In, elem_of_map_to_list in Hb.
Qed.

Lemma resume_blocks_lookup ht m l h b :
  foldl (resume_block ht) m l !! h = Some b ->
  m !! h = Some b \/ (b ∈ l /\ b_hash b = h).
Proof.
  revert m. induction l as [|x l IH]; intros m; [by left|]. simpl. intros H.
  apply IH in H as [H|[H ?]]; [|right; split; [by right|done]].
  unfold resume_block in H. destruct (_ <? _); [|by left].
  apply lookup_insert_Some in H as [[<- <-]|[_ H]]; [right; split; [left|done]|by left].
Qed.

(** The root of the resumed tree: the committed block, or the anchor. *)
Lemma resume_root e e0 :
  Inv e -> e0 = resume_committed cfg (persisted cfg e) (new cfg) ->
  (e_committed e0 = e_committed e \/ e_committed e0 = anchor cfg)
  /\ e_blocks e0 = {[ b_hash (e_committed e0) := e_committed e0 ]}
  /\ (forall h q, e_qcs e0 !! h = Some q -> qc_ok cfg q).
Proof.
  intros HI ->. unfold resume_committed. destruct (_ <? _); simpl.
  - split; [by left|]. split; [done|]. intros h q [<- <-]%lookup_singleton_Some.
    destruct (e_qcs e !! b_hash (e_committed e)) as [q|] eqn:E; simpl;
      [by eapply (inv_qcs _ HI)|apply anchor_ok].
  - split; [by right|]. split; [done|]. intros h q [<- <-]%lookup_singleton_Some.
    apply anchor_ok.
Qed.

Lemma Inv_restart e : Inv e -> Inv (restart e).
Proof.
  intros HI. unfold restart, resume. cbn [ps_epoch persisted]. rewrite Z.eqb_refl.
  cbn [negb]. cbv zeta.
  remember (resume_committed cfg (persisted cfg e) (new cfg)) as e0 eqn:E0.
  destruct (resume_root e e0 HI E0) as (Hc & Hb & Hq).
  assert (wt_block (e_committed e0) /\ known e (e_committed e0)
          /\ final e (e_committed e0)) as (Hw & Hk & Hf).
  { destruct Hc as [->| ->].
    - destruct (inv_root _ HI). split; [done|]. split; [done|apply HI].
    - split; [apply Hcfg|]. split; by left. }
  assert (e_entry_tc e0 = None /\ e_blocked_commit e0 = None /\ e_pending e0 = ∅
          /\ e_votes e0 = ∅ /\ e_timeouts e0 = ∅) as (Htc & Hbl & Hp & Hv & Ht).
  { rewrite E0. unfold resume_committed. by destruct (_ <? _). }
  constructor; simpl; rewrite ?Htc, ?Hbl, ?Hp, ?Hv, ?Ht; try done; try apply HI.
  - pose proof (inv_voted _ HI). destruct (inv_high _ HI) as [(_ & Hr & _) _].
    unfold in_range in *. lia.
  - intros h q [[<- <-]|[_ H]]%lookup_insert_Some; [apply HI|by eapply Hq].
  - intros h b [H|[H <-]]%resume_blocks_lookup.
    + rewrite Hb in H. apply lookup_singleton_Some in H as [<- <-]. done.
    + apply persisted_blocks in H as [h H].
      destruct (inv_blocks _ HI _ _ H) as (_ & ? & ?). done.
Qed.
End invariant.

