(* ===== verification/EngineAgreement.v ===== *)
(** * Agreement

    A system of honest nodes, each running the engine for its seats from the epoch's start
    through any sequence of calls and restarts, with any messages from anyone, also proposals that
    give a hash another parent or round than the hash stands for.  If the seats no honest node holds
    weigh at most a third, signatures cannot be forged and honest nodes vote only for blocks they
    have validated, then the blocks that are provably final are on one branch
    ([final_blocks_agree], which CommitProofs.v lifts to finality proofs), and so are the blocks two
    honest nodes hold as final, unless one of them was shown a false block ([agreement]). *)

From S2P Require Import Prelude Types TypesFacts Engine EngineInv EngineVotes EngineSafety.
From stdpp Require Import base list list_numbers sorting gmap strings relations.
From Stdlib Require Import ZArith Lia.

Open Scope Z_scope.

Section agreement.
Context `{S : Scheme} `{K : Keccak} {L : SchemeLaws S} {HK : KeccakLaws K}.

(** The configuration of the node that holds the seats [l]. *)
Definition with_me (cfg : Config) (l : list ValidatorIndex) : Config :=
  mkConfig (chain_id cfg) (epoch cfg) (validators cfg) l (anchor cfg) (end_height cfg)
    (base_timeout_ms cfg).

(** ** Runs *)

Section runs.
Context (cfg : Config) (tree_ok ext_ok : BlockInfo -> Prop).

Inductive reachable : Engine -> Prop :=
| reach_new : reachable (new cfg)
| reach_call n i e e' out :
    reachable e -> wt_input i -> tree_input tree_ok ext_ok (fun _ => True) i ->
    handle cfg n i e = Done (tt, e', out) -> reachable e'
| reach_restart e : reachable e -> reachable (restart cfg e).

Lemma reachable_Inv e :
  wt_config cfg -> small_committee cfg -> tree_ok (anchor cfg) ->
  reachable e -> Inv cfg tree_ok ext_ok e.
Proof.
  intros Hc Hs Ha. induction 1.
  - by apply Inv_new.
  - by eapply Inv_handle.
  - by apply Inv_restart.
Qed.
End runs.

(** ** The system *)

Context (cfg : Config).

(** The parent and round a block hash stands for. *)
Context (tree : B256 -> option (B256 * Round)).
Definition in_tree (b : BlockInfo) : Prop := tree (b_hash b) = Some (b_parent b, b_round b).

(** What a finality proof establishes: [c] has a certified child of the next round. *)
Definition two_chain (c : BlockInfo) : Prop :=
  exists b qc, in_tree b /\ in_tree c /\ qc_ok cfg qc /\ qc_block qc = b_hash b
    /\ b_parent b = b_hash c /\ b_round b = u64 (b_round c + 1)
    /\ wt_block b /\ wt_block c.

(** An honest node: the seats it signs for, the blocks it was shown (in proposals, and by its own
    node), and the state of its engine. *)
Record Node := mkNode {
  n_seats : list ValidatorIndex;
  n_shown : list BlockInfo;
  n_engine : Engine;
}.

Definition shown (nd : Node) (b : BlockInfo) : Prop := b = anchor cfg \/ b ∈ n_shown nd.

(** A block under the hash of a certified block, or of the parent of one, that claims another parent
    or round than the hash stands for.  [on_proposal] stores the block of a proposal unchecked. *)
Definition false_block (x : BlockInfo) : Prop :=
  ~ in_tree x
  /\ exists q, qc_ok cfg q /\ (qc_block q = b_hash x \/ exists r, tree (qc_block q) = Some (b_hash x, r)).

#[export] Instance in_tree_dec b : Decision (in_tree b).
Proof. unfold in_tree. apply _. Defined.

Definition signed_bytes (s : Signed) : bytes :=
  match s with
  | SignedVote p =>
      vote_msg (chain_id cfg) (epoch cfg) (b_round (p_block p)) (b_hash (p_block p))
  | SignedTimeout r q => timeout_msg (chain_id cfg) (epoch cfg) r (qc_round q)
  | SignedProposal b payload =>
      proposal_msg (chain_id cfg) (epoch cfg) (b_round b) (b_hash b) payload
  end.

Definition has_signed (nd : Node) (m : bytes) : Prop :=
  exists s, s ∈ e_signed (n_engine nd) /\ signed_bytes s = m.

(** A node that runs the engine on any messages.  It votes for a block after validating it: the
    header hashes to the block's hash and names the parent and the round; and its own proposals are
    blocks it built. *)
Record honest_run (nd : Node) : Prop := {
  hr_seats : Forall (in_range 16) (n_seats nd);
  hr_reach : reachable (with_me cfg (n_seats nd)) (shown nd) two_chain (n_engine nd);
  hr_votes p : SignedVote p ∈ e_signed (n_engine nd) -> in_tree (p_block p);
  hr_proposals b payload : SignedProposal b payload ∈ e_signed (n_engine nd) -> in_tree b;
}.

(** Signatures of an honest seat exist only on what its node signed. *)
Record unforgeable (nd : Node) : Prop := {
  uf_single i m s : i ∈ n_seats nd -> verify i m s = true -> has_signed nd m;
  uf_aggregate i signers m a : i ∈ n_seats nd -> i ∈ signers ->
    verify_aggregate signers m a = true -> has_signed nd m;
}.

Context (nodes : list Node).

Definition byzantine (i : ValidatorIndex) : Prop :=
  Forall (fun nd => i ∉ n_seats nd) nodes.
#[export] Instance byzantine_dec i : Decision (byzantine i).
Proof. unfold byzantine. apply _. Defined.

Record system : Prop := {
  sys_cfg : wt_config (with_me cfg []);
  sys_set : wf_set (validators cfg);
  sys_small : small_committee cfg;
  sys_anchor : in_tree (anchor cfg);
  sys_rounds h p r : tree h = Some (p, r) -> r < U64_MAX;
  sys_runs : Forall honest_run nodes;
  sys_sigs : Forall unforgeable nodes;
  sys_third : 3 * weight_where (validators cfg) byzantine <= sumZ (weights (validators cfg));
}.

Context (Hsys : system).

Lemma honest_node i : ~ byzantine i -> exists nd, nd ∈ nodes /\ i ∈ n_seats nd.
Proof.
  unfold byzantine. intros H. destruct (decide (Exists (fun nd => i ∈ n_seats nd) nodes)) as [He|He].
  - apply Exists_exists in He as (nd & ? & ?). eauto.
  - exfalso. apply H, Forall_forall. intros nd Hnd Hi. apply He, Exists_exists. eauto.
Qed.

Lemma node_inv nd :
  nd ∈ nodes -> Inv (with_me cfg (n_seats nd)) (shown nd) two_chain (n_engine nd).
Proof.
  intros Hn. destruct Hsys as [Hc _ Hs _ _ Hr _ _]. rewrite Forall_forall in Hr.
  destruct (Hr _ Hn) as [Hseats Hreach _ _].
  apply reachable_Inv; [|exact Hs|by left|done].
  destruct Hc as (? & ? & ? & ? & ? & _). by repeat (split; [done|]).
Qed.

(** A block a node knows is in the tree, or the node was shown it. *)
Lemma node_known nd b :
  nd ∈ nodes -> known (shown nd) (n_engine nd) b -> in_tree b \/ (b ∈ n_shown nd /\ ~ in_tree b).
Proof.
  intros Hn Hk. destruct (decide (in_tree b)) as [|Hb]; [by left|]. right. split; [|done].
  destruct Hk as [[->|H]|[pl H]]; [by destruct Hb; apply (sys_anchor Hsys)|done|].
  destruct Hb. pose proof (sys_runs Hsys) as Hr. rewrite Forall_forall in Hr.
  by eapply (hr_proposals _ (Hr _ Hn)).
Qed.

Lemma disciplined_vote_in c l p :
  disciplined c l -> SignedVote p ∈ l -> prop_ok c p /\ safe_to_vote p = true.
Proof.
  induction 1; intros [Heq|Hin]%elem_of_cons || (intros Hn; by apply elem_of_nil in Hn);
    try discriminate; auto. by injection Heq as ->.
Qed.

Lemma disciplined_timeout_in c l r q :
  disciplined c l -> SignedTimeout r q ∈ l -> in_range 64 r /\ wt_qc q.
Proof.
  induction 1; intros [Heq|Hin]%elem_of_cons || (intros Hn; by apply elem_of_nil in Hn);
    try discriminate; auto. injection Heq as -> ->. by destruct H.
Qed.

(** A vote of an honest node: for a well-formed proposal of a block of the tree. *)
Lemma node_vote nd p :
  nd ∈ nodes -> SignedVote p ∈ e_signed (n_engine nd) ->
  prop_ok cfg p /\ safe_to_vote p = true /\ in_tree (p_block p).
Proof.
  intros Hn Hp. pose proof (node_inv _ Hn) as HI.
  destruct (disciplined_vote_in _ _ _ (inv_log _ _ _ _ HI) Hp) as [H1 H2].
  split; [exact H1|]. split; [done|].
  pose proof (sys_runs Hsys) as Hr. rewrite Forall_forall in Hr. by apply (hr_votes _ (Hr _ Hn)).
Qed.

Lemma signed_vote nd r h :
  nd ∈ nodes -> in_range 64 r -> in_range 256 h ->
  has_signed nd (vote_msg (chain_id cfg) (epoch cfg) r h) ->
  exists p, SignedVote p ∈ e_signed (n_engine nd)
    /\ b_round (p_block p) = r /\ b_hash (p_block p) = h.
Proof.
  intros Hn Hr Hh (s & Hs & E). destruct (sys_cfg Hsys) as (Hc & He & _).
  destruct s as [p|r' q|b pl]; simpl in E.
  - destruct (node_vote nd p Hn Hs) as [[[(Hbh & _ & Hbr & _) _] _] _].
    apply vote_msg_inj in E as (_ & _ & <- & <-); eauto.
  - symmetry in E. by apply vote_not_timeout in E.
  - symmetry in E. by apply vote_not_proposal in E.
Qed.

Lemma signed_timeout nd r qr :
  nd ∈ nodes -> in_range 64 r -> in_range 64 qr ->
  has_signed nd (timeout_msg (chain_id cfg) (epoch cfg) r qr) ->
  exists q, SignedTimeout r q ∈ e_signed (n_engine nd) /\ qc_round q = qr.
Proof.
  intros Hn Hr Hq (s & Hs & E). destruct (sys_cfg Hsys) as (Hc & He & _).
  pose proof (node_inv _ Hn) as HI. destruct s as [p|r' q|b pl]; simpl in E.
  - by apply vote_not_timeout in E.
  - destruct (disciplined_timeout_in _ _ _ _ (inv_log _ _ _ _ HI) Hs) as (? & _ & ? & _).
    apply timeout_msg_inj in E as (_ & _ & <- & <-); eauto.
  - symmetry in E. by apply timeout_not_proposal in E.
Qed.

(** ** Certificates *)

Definition certified (q : Qc) : Prop := qc_ok cfg q /\ is_anchor q = false.

(** [p] is an honest vote behind [q]. *)
Definition votes_for (nd : Node) (p : Proposal) (q : Qc) : Prop :=
  nd ∈ nodes /\ SignedVote p ∈ e_signed (n_engine nd)
  /\ b_round (p_block p) = qc_round q /\ b_hash (p_block p) = qc_block q.

Lemma certified_quorum q :
  certified q ->
  quorum (validators cfg) (Bitmap.decode (qc_signers q))
  /\ forall i nd, i ∈ Bitmap.decode (qc_signers q) -> nd ∈ nodes -> i ∈ n_seats nd ->
     exists p, votes_for nd p q.
Proof.
  intros [[(He & Hr & Hb & Hh & Hf) [Hep [[Ha _]|(sig & Hsig & Hq & Hlen & Hv)]]] Hna];
    [congruence|].
  split.
  - split; [by apply sorted_lt_NoDup, BitmapFacts.decode_sorted|]. split; [|done].
    rewrite Forall_forall in Hlen |- *. intros i Hi. split; [|by apply Hlen].
    by apply BitmapFacts.elem_of_decode in Hi as [? _].
  - intros i nd Hi Hn Hseat.
    pose proof (sys_sigs Hsys) as Hu. rewrite Forall_forall in Hu.
    apply (uf_aggregate _ (Hu _ Hn)) with (i := i) in Hv; [|done|done].
    apply signed_vote in Hv as (p & Hp & Epr & Eph); [|done|done|done].
    by exists p.
Qed.

Lemma certified_vote q : certified q -> exists nd p, votes_for nd p q.
Proof.
  intros Hq. destruct (certified_quorum q Hq) as [Hquo Hvotes].
  destruct (quorum_honest _ (sys_set Hsys) _ byzantine Hquo (sys_third Hsys)) as (i & Hi & Hb).
  destruct (honest_node i Hb) as (nd & Hn & Hs). destruct (Hvotes i nd Hi Hn Hs). eauto.
Qed.

(** The round of a certificate is the round of its block, and it is positive. *)
Lemma certified_round_tree q :
  certified q ->
  exists parent, tree (qc_block q) = Some (parent, qc_round q) /\ 0 < qc_round q.
Proof.
  intros Hq. destruct (certified_vote q Hq) as (nd & p & Hn & Hp & Er & Eh).
  destruct (node_vote nd p Hn Hp) as (Hok & _ & Ht). exists (b_parent (p_block p)).
  rewrite <-Er, <-Eh. split; [done|]. destruct Hok as ((_ & (_ & Hqr & _) & _) & _ & l & _ & Hpo).
  unfold proposal_ok in Hpo. rewrite !andb_true_iff in Hpo.
  destruct Hpo as [[[[[_ Hlt] _] _] _] _]. unfold in_range in Hqr. lia.
Qed.

(** ** The discipline of one log *)

Lemma disciplined_vote_unique c l p1 p2 :
  disciplined c l -> SignedVote p1 ∈ l -> SignedVote p2 ∈ l ->
  b_round (p_block p1) = b_round (p_block p2) -> p1 = p2.
Proof.
  induction 1 as [|p l Hp Hs Hv Ht Hd IH|r q l Hq Hr Hv Hd IH|b pl l Hd IH];
    [intros Hn; by apply elem_of_nil in Hn|..];
    rewrite !elem_of_cons; intros [E1|H1] [E2|H2] E; try discriminate; auto.
  - congruence.
  - injection E1 as ->. apply Hv in H2. lia.
  - injection E2 as ->. apply Hv in H1. lia.
Qed.

Lemma disciplined_vote_timeout c l p r q :
  disciplined c l -> SignedVote p ∈ l -> SignedTimeout r q ∈ l ->
  b_round (p_block p) <= r -> qc_round (p_qc p) <= qc_round q.
Proof.
  induction 1 as [|p' l Hp Hs Hv Ht Hd IH|r' q' l Hq Hr Hv Hd IH|b pl l Hd IH];
    [intros Hn; by apply elem_of_nil in Hn|..];
    rewrite !elem_of_cons; intros [E1|H1] [E2|H2] E; try discriminate; auto.
  - injection E1 as ->. apply Ht in H2. lia.
  - injection E2 as -> ->. by apply Hv.
Qed.

(** ** At most one certified block per round *)

Lemma same_round q1 q2 :
  certified q1 -> certified q2 -> qc_round q1 = qc_round q2 -> qc_block q1 = qc_block q2.
Proof.
  intros H1 H2 E. destruct (certified_quorum _ H1) as [Q1 V1].
  destruct (certified_quorum _ H2) as [Q2 V2].
  destruct (quorum_intersection _ (sys_set Hsys) _ _ byzantine Q1 Q2 (sys_third Hsys))
    as (i & Hi1 & Hi2 & Hb).
  destruct (honest_node i Hb) as (nd & Hn & Hs).
  destruct (V1 i nd Hi1 Hn Hs) as (p1 & _ & Hp1 & Er1 & Eb1).
  destruct (V2 i nd Hi2 Hn Hs) as (p2 & _ & Hp2 & Er2 & Eb2).
  assert (p1 = p2) as ->; [|congruence].
  eapply disciplined_vote_unique; [apply (inv_log _ _ _ _ (node_inv _ Hn))|done|done|congruence].
Qed.

(** ** What an honest vote says about the block's parent *)

Lemma ok_anchor_or_certified q :
  qc_ok cfg q -> certified q \/ (qc_round q = 0 /\ qc_block q = b_hash (anchor cfg)).
Proof.
  intros Hq. destruct (is_anchor q) eqn:Ea; [|left; done]. right.
  destruct Hq as [_ [_ [[_ ->]|(sig & Hs & _)]]]; unfold is_anchor in Ea;
    apply andb_true_iff in Ea as [Er%Z.eqb_eq Es%bool_decide_eq_true]; [done|congruence].
Qed.

(** The round of an acceptable certificate is its block's. *)
Lemma ok_round q parent r :
  qc_ok cfg q -> tree (qc_block q) = Some (parent, r) -> qc_round q = r.
Proof.
  intros Hq Ht. destruct (ok_anchor_or_certified q Hq) as [Hc|[Er Eb]].
  - destruct (certified_round_tree q Hc) as (p & E & _). congruence.
  - pose proof (sys_anchor Hsys) as Ha. unfold in_tree in Ha. rewrite <-Eb, Ht in Ha.
    destruct (sys_cfg Hsys) as (_ & _ & _ & H0 & _). simpl in H0. congruence.
Qed.

Lemma vote_parent nd p q :
  votes_for nd p q ->
  qc_ok cfg (p_qc p) /\ tree (qc_block q) = Some (qc_block (p_qc p), qc_round q)
  /\ qc_round (p_qc p) < qc_round q
  /\ (qc_round (p_qc p) + 1 = qc_round q
      \/ exists tc, wt_tc tc /\ verify_tc cfg tc = true /\ tc_round tc + 1 = qc_round q
           /\ max_qc_round tc <= qc_round (p_qc p)).
Proof.
  intros (Hn & Hp & Er & Eh). destruct (node_vote nd p Hn Hp) as (Hok & Hsafe & Ht).
  pose proof (prop_qc_ok _ _ Hok) as Hqc. split; [done|].
  destruct Hok as ((Hb & Hq & Htc) & _ & l & _ & Hpo).
  unfold proposal_ok in Hpo. rewrite !andb_true_iff in Hpo.
  destruct Hpo as [[[[[[[[_ _] Hpar] _] Hlt] _] _] _] Htcv].
  apply Z.eqb_eq in Hpar. apply Z.ltb_lt in Hlt.
  assert (in_range 64 (qc_round q)) as Hrange by (rewrite <-Er; apply Hb).
  assert (in_range 64 (qc_round (p_qc p))) as Hrange' by apply Hq.
  rewrite <-Er, <-Eh, <-Hpar. split; [done|]. split; [done|].
  unfold safe_to_vote in Hsafe. unfold in_range in *.
  destruct (Z.eqb_spec (u64 (qc_round (p_qc p) + 1)) (b_round (p_block p))) as [E|].
  { left. rewrite wrap_small in E; [done|unfold in_range; lia]. }
  right. destruct (p_tc p) as [tc|]; [|done]. exists tc.
  apply andb_true_iff in Hsafe as [E1%Z.eqb_eq E2%Z.leb_le].
  apply andb_true_iff in Htcv as [_ Hv]. split; [done|]. split; [done|]. split; [|done].
  destruct Htc as ([H0 H1] & _). destruct (decide (tc_round tc = 2 ^ 64 - 1)) as [E|].
  - exfalso. rewrite E in E1. replace (u64 (2 ^ 64 - 1 + 1)) with 0 in E1 by reflexivity. lia.
  - rewrite wrap_small in E1; [done|unfold in_range; lia].
Qed.

(** ** Timeout certificates *)

Lemma max_qc_round_entry tc i qr s :
  (i, qr, s) ∈ tc_entries tc -> qr <= max_qc_round tc.
Proof.
  unfold max_qc_round. induction (tc_entries tc) as [|en l IH]; intros H;
    [by apply elem_of_nil in H|].
  simpl. apply elem_of_cons in H as [<-|H]; simpl; [lia|]. specialize (IH H). lia.
Qed.

(** The signers of a verified timeout certificate are a quorum, and each honest one signed a
    timeout of that round that reports a certificate no higher than the maximum. *)
Lemma tc_quorum tc :
  wt_tc tc -> verify_tc cfg tc = true ->
  exists Q, quorum (validators cfg) Q
  /\ forall i nd, i ∈ Q -> nd ∈ nodes -> i ∈ n_seats nd ->
     exists q, SignedTimeout (tc_round tc) q ∈ e_signed (n_engine nd)
       /\ qc_round q <= max_qc_round tc.
Proof.
  intros (Hr & _ & Hwt) Hv. unfold verify_tc, Tc_verify in Hv.
  rewrite !andb_true_iff in Hv. destruct Hv as [[[[[[_ Hlen] Hq] Hm] Hsig] _] _].
  set (ids := map (fun en => fst (fst en)) (tc_entries tc)) in *.
  apply Nat.eqb_eq in Hlen.
  assert (length (sort_unstable ids) = length (tc_entries tc)) as Hl.
  { rewrite (Permutation_length (sort_unstable_perm ids)). unfold ids. apply length_map. }
  assert (NoDup (sort_unstable ids)) as Hnd.
  { apply dedup_NoDup; [apply StronglySorted_merge_sort; apply _|]. by rewrite Hl. }
  assert (StronglySorted Z.lt (sort_unstable ids)) as Hlt.
  { apply sort_unstable_lt. by rewrite <-(sort_unstable_perm ids). }
  rewrite (dedup_sorted _ Hlt) in Hq, Hm, Hlen.
  assert (forall i, i ∈ sort_unstable ids -> exists qr s, (i, qr, s) ∈ tc_entries tc) as Hin.
  { intros i Hi. rewrite (sort_unstable_perm ids) in Hi. unfold ids in Hi.
    apply list_elem_of_In, in_map_iff in Hi as ([[i' qr] s] & <- & Hi).
    exists qr, s. by apply list_elem_of_In. }
  rewrite Forall_forall in Hwt. rewrite forallb_forall in Hsig, Hm.
  exists (sort_unstable ids). split.
  - split; [done|]. split; [|done]. apply Forall_forall. intros i Hi.
    pose proof (Hm i ltac:(by apply list_elem_of_In)) as Hl2%Z.ltb_lt.
    destruct (Hin i Hi) as (qr & s & He). apply Hwt in He as [[H0 _] _]. done.
  - intros i nd Hi Hn Hs. destruct (Hin i Hi) as (qr & s & He).
    pose proof (Hsig _ ltac:(by apply list_elem_of_In)) as [_ Hver]%andb_true_iff.
    pose proof (sys_sigs Hsys) as Hu. rewrite Forall_forall in Hu.
    apply (uf_single _ (Hu _ Hn)) in Hver; [|done].
    apply signed_timeout in Hver as (q & Hq' & <-); [|done|done|].
    + exists q. split; [done|]. by eapply max_qc_round_entry.
    + by apply Hwt in He as [_ H].
Qed.

(** ** Branches *)

Definition parent_of (h p : B256) : Prop := exists r, tree h = Some (p, r).
(** [extends h a]: [a] is [h] or an ancestor of it. *)
Definition extends (h a : B256) : Prop := rtc parent_of h a.

Lemma certified_extends_anchor n q :
  certified q -> (Z.to_nat (qc_round q) < n)%nat -> extends (qc_block q) (b_hash (anchor cfg)).
Proof.
  revert q. induction n as [|n IH]; intros q Hq Hn; [lia|].
  destruct (certified_vote q Hq) as (nd & p & Hv).
  destruct (vote_parent nd p q Hv) as (Hok & Ht & Hlt & _).
  apply rtc_l with (qc_block (p_qc p)); [by eexists|].
  destruct (ok_anchor_or_certified _ Hok) as [Hc|[_ ->]]; [|constructor].
  apply IH; [done|]. destruct (certified_round_tree _ Hc) as (_ & _ & ?). lia.
Qed.

Section final_block.
(** [c] is final: [qc] certifies its child [b] of the next round. *)
Context (c b : BlockInfo) (qc : Qc).
Context (Hb : in_tree b) (Hc : in_tree c) (Hqc : qc_ok cfg qc) (Eb : qc_block qc = b_hash b)
  (Hpar : b_parent b = b_hash c) (Hround : b_round b = u64 (b_round c + 1))
  (Hwb : wt_block b) (Hwc : wt_block c).

Lemma child_round : b_round b = b_round c + 1.
Proof.
  rewrite Hround. apply wrap_u64_succ. split; [apply Hwc|]. by eapply (sys_rounds Hsys).
Qed.

Lemma child_certified : certified qc /\ qc_round qc = b_round b.
Proof.
  assert (qc_round qc = b_round b) as E.
  { eapply ok_round; [done|]. rewrite Eb. exact Hb. }
  split; [|done]. destruct (ok_anchor_or_certified qc Hqc) as [?|[E0 _]]; [done|].
  exfalso. pose proof child_round. destruct Hwc as (_ & _ & [? _] & _). lia.
Qed.

(** The certificate of [c] a vote for [b] carried. *)
Lemma child_vote nd p :
  votes_for nd p qc ->
  qc_ok cfg (p_qc p) /\ qc_block (p_qc p) = b_hash c /\ qc_round (p_qc p) = b_round c.
Proof.
  intros Hv. destruct (vote_parent nd p qc Hv) as (Hok & Ht & _).
  assert (qc_block (p_qc p) = b_hash c) as E.
  { unfold in_tree in Hb. rewrite Eb, Hb in Ht. injection Ht as E _. congruence. }
  split; [done|]. split; [done|]. eapply ok_round; [done|]. rewrite E. exact Hc.
Qed.

Lemma parent_anchor_or_certified :
  (exists q, certified q /\ qc_block q = b_hash c /\ qc_round q = b_round c)
  \/ b_hash c = b_hash (anchor cfg).
Proof.
  destruct child_certified as [Hcert _]. destruct (certified_vote qc Hcert) as (nd & p & Hv).
  destruct (child_vote nd p Hv) as (Hok & E1 & E2).
  destruct (ok_anchor_or_certified _ Hok) as [?|[_ ?]]; [left; eauto|right; congruence].
Qed.

(** A vote two or more rounds later carries a certificate at least as high as [c]'s. *)
Lemma later_vote_qc nd p q :
  votes_for nd p q -> b_round c + 1 < qc_round q -> b_round c <= qc_round (p_qc p).
Proof.
  intros Hv Hlt. destruct (vote_parent nd p q Hv) as (_ & _ & _ & [E|(tc & Hwt & Htc & Er & Hm)]);
    [lia|].
  destruct (tc_quorum tc Hwt Htc) as (Q & HQ & Htimeouts).
  destruct child_certified as [Hcert Hqr]. destruct (certified_quorum qc Hcert) as [HQ' Hvotes].
  destruct (quorum_intersection _ (sys_set Hsys) _ _ byzantine HQ HQ' (sys_third Hsys))
    as (i & Hi & Hi' & Hby).
  destruct (honest_node i Hby) as (nd' & Hn & Hs).
  destruct (Htimeouts i nd' Hi Hn Hs) as (hq & Hto & Hle).
  destruct (Hvotes i nd' Hi' Hn Hs) as (pb & Hvb).
  destruct (child_vote nd' pb Hvb) as (_ & _ & Epb).
  destruct Hvb as (_ & Hpb & Erb & _).
  pose proof (disciplined_vote_timeout _ _ pb (tc_round tc) hq
    (inv_log _ _ _ _ (node_inv _ Hn)) Hpb Hto) as Hord.
  pose proof child_round. lia.
Qed.

(** Every block certified in [c]'s round or later is on [c]'s branch. *)
Lemma certified_extends_final n q :
  certified q -> b_round c <= qc_round q -> (Z.to_nat (qc_round q) < n)%nat ->
  extends (qc_block q) (b_hash c).
Proof.
  revert q. induction n as [|n IH]; intros q Hq Hle Hn; [lia|].
  destruct child_certified as [Hcert Hqr]. pose proof child_round as Hcr.
  destruct (certified_round_tree q Hq) as (_ & _ & Hpos).
  destruct (decide (qc_round q = b_round c)) as [E|Hne].
  { destruct parent_anchor_or_certified as [(q0 & Hq0 & <- & Er)|Ea].
    - rewrite (same_round q q0) by (done || congruence). constructor.
    - rewrite Ea. by eapply certified_extends_anchor. }
  destruct (decide (qc_round q = b_round c + 1)) as [E|Hne'].
  { rewrite (same_round q qc), Eb by (done || congruence).
    apply rtc_l with (b_hash c); [|constructor]. exists (b_round b). rewrite <-Hpar. exact Hb. }
  destruct (certified_vote q Hq) as (nd & p & Hv).
  pose proof (later_vote_qc nd p q Hv ltac:(lia)) as Hle'.
  destruct (vote_parent nd p q Hv) as (Hok & Ht & Hlt & _).
  apply rtc_l with (qc_block (p_qc p)); [by eexists|].
  destruct (ok_anchor_or_certified _ Hok) as [Hcq|[E0 E1]].
  - apply IH; [done|done|]. destruct (certified_round_tree _ Hcq) as (_ & _ & ?). lia.
  - destruct parent_anchor_or_certified as [(q0 & Hq0 & _ & Er)|Ea].
    + destruct (certified_round_tree _ Hq0) as (_ & _ & ?). lia.
    + rewrite E1, Ea. constructor.
Qed.
End final_block.

(** Two final blocks are on one branch. *)
Lemma final_blocks_agree c1 c2 :
  two_chain c1 -> two_chain c2 -> b_round c1 <= b_round c2 ->
  extends (b_hash c2) (b_hash c1) \/ extends (b_hash c1) (b_hash c2).
Proof.
  intros (b1 & q1 & Hb1 & Hc1 & Hq1 & Eb1 & Hp1 & Hr1 & Hwb1 & Hwc1)
    (b2 & q2 & Hb2 & Hc2 & Hq2 & Eb2 & Hp2 & Hr2 & Hwb2 & Hwc2) Hle.
  destruct (parent_anchor_or_certified c2 b2 q2) as [(q & Hq & <- & Er)|Ea]; try done.
  - left. eapply (certified_extends_final c1 b1 q1); eauto. by rewrite Er.
  - right. rewrite Ea.
    destruct (parent_anchor_or_certified c1 b1 q1) as [(q & Hq & <- & Er)| ->]; try done.
    + apply (certified_extends_anchor (Datatypes.S (Z.to_nat (qc_round q)))); [done|lia].
    + constructor.
Qed.

(** What a node holds as final is provably final, or rests on a false block the node was shown. *)
Lemma node_final nd :
  nd ∈ nodes ->
  e_committed (n_engine nd) = anchor cfg \/ two_chain (e_committed (n_engine nd))
  \/ Exists false_block (n_shown nd).
Proof.
  intros Hn. destruct (inv_committed _ _ _ _ (node_inv _ Hn))
    as [H|[H|(b & q & Hkb & Hkc & Hq & Eb & Hp & Hr & Hwb & Hwc)]]; [by left|by right; left|right].
  destruct (node_known nd b Hn Hkb) as [Hb|[Hin Hf]].
  2:{ right. apply Exists_exists. exists b. split; [done|]. split; [done|]. eauto. }
  destruct (node_known nd _ Hn Hkc) as [Hc|[Hin Hf]]; [left; by exists b, q|].
  right. apply Exists_exists. eexists. split; [exact Hin|]. split; [done|].
  exists q. split; [done|]. right. exists (b_round b). rewrite Eb, <-Hp. exact Hb.
Qed.

Lemma two_chain_anchor c : two_chain c -> extends (b_hash c) (b_hash (anchor cfg)).
Proof.
  intros (b & q & Hb & Hc & Hq & Eb & Hp & Hr & Hwb & Hwc).
  destruct (parent_anchor_or_certified c b q) as [(q0 & Hq0 & <- & _)| ->];
    [done..| |constructor].
  apply (certified_extends_anchor (Datatypes.S (Z.to_nat (qc_round q0)))); [done|lia].
Qed.
End agreement.

(** C1.  Agreement.  In a system of honest nodes that run the engine through any sequence of
    calls and restarts and any messages whose certificates have bitmaps of at most 2^16 bits, where
    the seats of no honest node weigh at most a third of the committee, signatures of honest seats
    are not forged and honest nodes vote only for blocks whose hash they have checked to stand for
    the parent and round (external commits, which the node never reports, being of final blocks),
    the last final blocks of any two honest nodes lie on one branch: one is
    the other or an ancestor of it.  The only way out is the one the code leaves open
    ([Poisoned.conflicting_commits]): one of the two nodes was shown a [false_block], a block under
    the hash of a certified block, or of its parent, with another parent or round than it has. *)
Theorem agreement `{S : Scheme} `{K : Keccak} `{!SchemeLaws S} `{!KeccakLaws K}
    (cfg : Config) (tree : B256 -> option (B256 * Round)) (nodes : list Node)
    (Hsys : system cfg tree nodes) (n1 n2 : Node) (H1 : n1 ∈ nodes) (H2 : n2 ∈ nodes) :
  let h1 := b_hash (e_committed (n_engine n1)) in
  let h2 := b_hash (e_committed (n_engine n2)) in
  extends tree h1 h2 \/ extends tree h2 h1
  \/ Exists (false_block cfg tree) (n_shown n1 ++ n_shown n2).
Proof.
  cbv zeta. rewrite Exists_app. destruct (node_final _ _ _ Hsys n1 H1) as [->|[F1|?]]; [| |tauto];
    (destruct (node_final _ _ _ Hsys n2 H2) as [->|[F2|?]]; [| |tauto]).
  - left. constructor.
  - right. left. by eapply two_chain_anchor.
  - left. by eapply two_chain_anchor.
  - destruct (Z.le_ge_cases (b_round (e_committed (n_engine n1)))
                (b_round (e_committed (n_engine n2)))).
    + destruct (final_blocks_agree _ _ _ Hsys _ _ F1 F2); auto.
    + destruct (final_blocks_agree _ _ _ Hsys _ _ F2 F1); auto.
Qed.
