(* ===== verification/EngineExamples.v ===== *)
(** * Executions of the consensus engine

    A toy instance of the engine's parameters (a polynomial hash, signatures as signed pairs that
    exist only where a table says so) on which whole runs evaluate.  It shows that the hypotheses
    of the theorems can hold together, and replays the executions behind the findings: a quorum
    forged with an over-long signer bitmap, conflicting commits after a proposal for a known hash
    with another parent, an epoch ended early through the unsigned height of a certificate, and a
    timeout certificate formed by the engine that does not verify. *)

From S2P Require Import Prelude Types TypesFacts Engine EngineInv EngineVotes EngineSafety.
From S2P Require Import EngineAgreement.
From stdpp Require Import base list list_numbers sorting gmap strings relations.
From Stdlib Require Import ZArith Lia.

Open Scope Z_scope.
Open Scope bolt_scope.

Module Toy.
(** Hashes of one-byte strings are small, all others are at least 2^255. *)
Definition mix : Z -> Z -> Z := fun acc x => wrap 255 (acc * 257 + x + 1).

#[export] Instance keccak : Keccak := fun b =>
  match b with
  | [x] => wrap 255 (1800 + x)
  | _ => 2 ^ 255 + wrap 255 (foldl mix 7 b)
  end.

Lemma keccak_long b : (1 < length b)%nat -> 2 ^ 255 <= keccak256 b.
Proof.
  intros H. unfold keccak256, keccak.
  pose proof (wrap_range 255 (foldl mix 7 b) ltac:(lia)) as [? _].
  destruct b as [|x [|y b]]; simpl in H; [lia|lia|]. lia.
Qed.

Lemma nil_long e p r : 2 ^ 255 <= nil_hash e p r.
Proof. apply keccak_long. rewrite !length_app, !be_bytes_length. simpl. lia. Qed.

#[export] Instance keccak_laws : KeccakLaws keccak.
Proof.
  intros b. unfold keccak256, keccak, in_range.
  pose proof (wrap_range 255 (foldl mix 7 b) ltac:(lia)) as [? ?].
  destruct b as [|x [|y b]]; [lia| |lia].
  pose proof (wrap_range 255 (1800 + x) ltac:(lia)) as [? ?]. lia.
Qed.

(** A signature names its signer and message; the signatures that exist are those over the
    messages [made] lists for the signer ([None]: all of them, a Byzantine signer). *)
Section scheme.
Context (made : Z -> option (list bytes)).

Definition exists_sig (i : Z) (m : bytes) : bool :=
  match made i with Some l => bool_decide (m ∈ l) | None => true end.

#[local] Instance scheme : Scheme := {|
  Sig := Z * bytes;
  Agg := list (Z * bytes);
  sign i m := (i, m);
  verify i m s := bool_decide (s = (i, m)) && exists_sig i m;
  aggregate l := Some l;
  verify_aggregate signers m a :=
    bool_decide (a = map (fun i => (i, m)) signers)
    && forallb (fun i => exists_sig i m) signers;
|}.

#[export] Instance scheme_laws : SchemeLaws scheme.
Proof.
  intros signers m sigs a H [= <-]. simpl in *. apply andb_true_iff.
  induction H as [|i s signers sigs Hs _ [IH1 IH2]]; [done|].
  apply andb_true_iff in Hs as [->%bool_decide_eq_true Hs].
  apply bool_decide_eq_true in IH1 as ->. simpl. rewrite Hs, IH2.
  split; [|done]. by apply bool_decide_eq_true.
Qed.

Lemma verify_made i m s l :
  made i = Some l -> verify i m s = true -> m ∈ l.
Proof.
  intros Hl [_ H]%andb_true_iff. unfold exists_sig in H. rewrite Hl in H.
  by apply bool_decide_eq_true in H.
Qed.

Lemma verify_aggregate_made i signers m a l :
  made i = Some l -> i ∈ signers -> verify_aggregate signers m a = true -> m ∈ l.
Proof.
  intros Hl Hi [_ H]%andb_true_iff. rewrite forallb_forall in H.
  apply list_elem_of_In, H in Hi. unfold exists_sig in Hi. rewrite Hl in Hi.
  by apply bool_decide_eq_true in Hi.
Qed.

(** The node signed everything its seats are said to have signed. *)
Definition signed_all (cfg : Config) (nd : Node) : bool :=
  forallb (fun i => match made i with
                    | Some l => forallb (fun m => bool_decide
                        (m ∈ map (signed_bytes cfg) (e_signed (n_engine nd)))) l
                    | None => false
                    end) (n_seats nd).

Lemma signed_all_unforgeable cfg nd : signed_all cfg nd = true -> unforgeable cfg nd.
Proof.
  intros H. unfold signed_all in H. rewrite forallb_forall in H.
  assert (forall i m, i ∈ n_seats nd ->
    (forall l, made i = Some l -> m ∈ l) -> has_signed cfg nd m) as Hm.
  { intros i m Hi Hl. apply list_elem_of_In, H in Hi. destruct (made i) as [l|]; [|done].
    rewrite forallb_forall in Hi. specialize (Hl l eq_refl).
    apply list_elem_of_In, Hi, bool_decide_eq_true, list_elem_of_fmap in Hl as (s & -> & Hs).
    by exists s. }
  constructor.
  - intros i m s Hi Hv. apply (Hm i); [done|]. intros l Hl. by eapply verify_made.
  - intros i signers m a Hi Hin Hv. apply (Hm i); [done|]. intros l Hl.
    by eapply verify_aggregate_made.
Qed.
End scheme.

(** ** Runs *)
Section runs.
Context `{S : Scheme} (cfg : Config) (tree_ok : BlockInfo -> bool).

Definition input_ok (i : Input) : bool :=
  bool_decide (wt_input i)
  && match i with
     | IMessage (MProposal p) => tree_ok (p_block p)
     | IBlock b => tree_ok b
     | IExternalCommit _ _ => false
     | _ => true
     end.

(** The engine after a sequence of calls. *)
Fixpoint run (l : list Input) (e : Engine) : option Engine :=
  match l with
  | [] => Some e
  | i :: l =>
      if input_ok i then
        match handle cfg 40 i e with
        | Done (_, e', _) => run l e'
        | _ => None
        end
      else None
  end.

(** Everything a sequence of calls puts out. *)
Fixpoint outputs (l : list Input) (e : Engine) : list Action :=
  match l with
  | [] => []
  | i :: l =>
      match handle cfg 40 i e with
      | Done (_, e', out) => out ++ outputs l e'
      | _ => []
      end
  end.

Lemma run_reachable (P Q : BlockInfo -> Prop) l e e' :
  (forall b, tree_ok b = true -> P b) ->
  reachable cfg P Q e -> run l e = Some e' -> reachable cfg P Q e'.
Proof.
  intros HP. revert e. induction l as [|i l IH]; intros e He; [by intros [= <-]|].
  simpl. destruct (input_ok i) eqn:Ei; [|done].
  destruct (handle cfg 40 i e) as [[[[] e1] out]| |] eqn:Eh; [|done..].
  intros Hr. apply (IH e1); [|done].
  apply andb_true_iff in Ei as [Hwt%bool_decide_eq_true Ht].
  eapply reach_call; [exact He|exact Hwt| |exact Eh].
  clear Eh Hr IH. destruct i as [|[]| | | | |]; simpl in *; auto. done.
Qed.
(** The blocks a sequence of calls shows the engine. *)
Definition shown_by (i : Input) : option BlockInfo :=
  match i with
  | IMessage (MProposal p) => Some (p_block p)
  | IBlock b | IExternalCommit b _ => Some b
  | _ => None
  end.
Definition shown_in (l : list Input) : list BlockInfo := omap shown_by l.

Lemma run_shown (P Q : BlockInfo -> Prop) l e e' :
  Forall P (shown_in l) -> reachable cfg P Q e -> run l e = Some e' -> reachable cfg P Q e'.
Proof.
  revert e. induction l as [|i l IH]; intros e Hl He; [by intros [= <-]|].
  simpl. destruct (input_ok i) eqn:Ei; [|done].
  destruct (handle cfg 40 i e) as [[[[] e1] out]| |] eqn:Eh; [|done..].
  assert (Forall P (shown_in l) /\ forall b, shown_by i = Some b -> P b) as [Hl' Hi].
  { unfold shown_in in Hl. cbn in Hl. destruct (shown_by i); [|done].
    apply Forall_cons in Hl as [? ?]. split; [done|]. by intros ? [= <-]. }
  apply (IH e1); [done|].
  apply andb_true_iff in Ei as [Hwt%bool_decide_eq_true Ht].
  eapply reach_call; [exact He|exact Hwt| |exact Eh].
  clear Eh IH Hl Hl'. destruct i as [|[]| | | | |]; simpl in *; auto. done.
Qed.
End runs.
End Toy.
Import Toy.

(** ** Four validators, one of them Byzantine (3), in every scenario *)
Module Four.
Definition cfg (ss : list Z) (end_ : Z) : Config :=
  mkConfig 1 0 {| weights := [1; 1; 1; 1]; seats := ss |} [] (mkBlock 100 99 0 0) end_ 1000.

Section messages.
Context (made : Z -> option (list bytes)).
#[local] Instance sch : Scheme := Toy.scheme made.

Definition vote_cert (b : BlockInfo) (signers : list Z) : Qc :=
  mkQc 0 (b_round b) (b_hash b) (b_height b) (Bitmap.encode signers 4)
    (Some (map (fun i => (i, vote_msg 1 0 (b_round b) (b_hash b))) signers)).

Definition proposal (b : BlockInfo) (qc : Qc) (tc : option Tc) (proposer : Z)
    (payload : bytes) : Input :=
  IMessage (MProposal (mkProposal 0 b qc tc proposer payload
    (proposer, proposal_msg 1 0 (b_round b) (b_hash b) payload))).

Definition vote (b : BlockInfo) (i : Z) : Input :=
  IMessage (MVote (mkVote 0 (b_round b) (b_hash b) (b_height b) i
    (i, vote_msg 1 0 (b_round b) (b_hash b)))).

Definition timeout (r : Z) (qc : Qc) (i : Z) : Input :=
  IMessage (MTimeout (mkTimeout 0 r qc i (i, timeout_msg 1 0 r (qc_round qc)) None)).

Definition timeout_cert (r : Z) (qc : Qc) (l : list (Z * Z)) : Tc :=
  mkTc 0 r qc (map (fun '(i, qr) => (i, qr, (i, timeout_msg 1 0 r qr))) l).

Definition engine (ss : list Z) (end_ : Z) (tree_ok : BlockInfo -> bool) (seat : Z)
    (l : list Input) : Engine :=
  let c := with_me (cfg ss end_) [seat] in
  default (new c) (Toy.run c tree_ok l (new c)).
End messages.
End Four.

(** The node of a scenario. *)
Definition scenario (made : Z -> option (list bytes)) (ss : list Z) (end_ : Z) (tree_ok : BlockInfo -> bool)
    (i : Z) (l : list Input) : Node (S := Toy.scheme made) :=
  let S := Toy.scheme made in mkNode [i] (shown_in l) (Four.engine made ss end_ tree_ok i l).

(** Its votes and proposals are for blocks of the tree. *)
Definition signs_tree `{S : Scheme} (tree : Z -> option (Z * Z)) (nd : Node) : bool :=
  forallb (fun s => match s with
                    | SignedVote p => bool_decide (in_tree tree (p_block p))
                    | SignedProposal b _ => bool_decide (in_tree tree b)
                    | SignedTimeout _ _ => true
                    end) (e_signed (n_engine nd)).

Lemma scenario_run made ss end_ tree_ok tree i l :
  let S := Toy.scheme made in
  in_range 16 i -> signs_tree tree (scenario made ss end_ tree_ok i l) = true ->
  honest_run (Four.cfg ss end_) tree (scenario made ss end_ tree_ok i l).
Proof.
  cbv zeta. intros Hi Hs. unfold signs_tree in Hs. rewrite forallb_forall in Hs. split.
  - constructor; [done|constructor].
  - unfold scenario. cbn [n_seats n_engine]. unfold Four.engine.
    destruct (run _ _ l (new _)) as [e|] eqn:E; simpl; [|constructor].
    eapply run_shown; [|constructor|exact E]. apply Forall_forall. intros b Hb. by right.
  - intros p Hp%list_elem_of_In%Hs. by apply bool_decide_eq_true in Hp.
  - intros b payload Hb%list_elem_of_In%Hs. by apply bool_decide_eq_true in Hb.
Qed.

(** Three honest nodes finalise a block: A and B are proposed in rounds 1 and 2 and certified; the
    certificate of B, in the Byzantine leader's proposal of round 3, finalises A at node 0. Node 1
    has not seen it yet. *)
Module Normal.
Definition A := mkBlock 1801 100 1 1.
Definition B := mkBlock 1802 1801 2 2.
Definition C := mkBlock 1803 1802 3 3.
Definition ss : list Z := [0; 1; 2; 3].

Definition tree (h : Z) : option (Z * Z) :=
  if h =? 100 then Some (99, 0) else if h =? 1801 then Some (100, 1)
  else if h =? 1802 then Some (1801, 2) else if h =? 1803 then Some (1802, 3) else None.
Definition tree_ok (b : BlockInfo) : bool :=
  bool_decide (tree (b_hash b) = Some (b_parent b, b_round b)).

Definition votes_made : list bytes := [vote_msg 1 0 1 1801; vote_msg 1 0 2 1802].
Definition made (i : Z) : option (list bytes) :=
  if i =? 0 then Some votes_made
  else if i =? 1 then Some (proposal_msg 1 0 1 1801 [1] :: votes_made)
  else if i =? 2 then Some (proposal_msg 1 0 2 1802 [2] :: votes_made)
  else None.
#[export] Instance sch : Scheme := Toy.scheme made.

Definition qc0 : Qc := Qc_anchor 0 100 0.
Definition qc1 : Qc := Four.vote_cert made A [0; 1; 2].
Definition qc2 : Qc := Four.vote_cert made B [0; 1; 2].
Definition pA := Four.proposal made A qc0 None 1 [1].
Definition pB := Four.proposal made B qc1 None 2 [2].
Definition pC := Four.proposal made C qc2 None 3 [3].

Definition engine := Four.engine made ss 1000 tree_ok.
Definition node : Z -> list Input -> Node := scenario made ss 1000 tree_ok.
Definition nodes : list Node := [
  node 0 [IStart; pA; IValidated 1801 true; pB; IValidated 1802 true; pC];
  node 1 [IStart; IProposed A qc0 None [1]; pB; IValidated 1802 true];
  node 2 [IStart; pA; IValidated 1801 true; Four.vote made A 0; Four.vote made A 1;
          IProposed B qc1 None [2]; pC] ].

Lemma nodes_committed :
  map (fun nd => b_hash (e_committed (n_engine nd))) nodes = [1801; 100; 1801].
Proof. vm_compute. reflexivity. Qed.
End Normal.

(** The engine of a scenario is one its node can reach. *)
Lemma four_reachable made ss end_ tree_ok seat l (P Q : BlockInfo -> Prop) :
  let S := Toy.scheme made in
  let c := with_me (Four.cfg ss end_) [seat] in
  (forall b, tree_ok b = true -> P b) ->
  reachable c P Q (Four.engine made ss end_ tree_ok seat l).
Proof.
  cbv zeta. intros HP. unfold Four.engine.
  destruct (run _ _ l (new _)) as [e|] eqn:E; simpl; [|constructor].
  eapply run_reachable; [exact HP| |exact E]. constructor.
Qed.

Module NormalFacts.
Import Normal.

Lemma normal_system : system (Four.cfg ss 1000) tree nodes.
Proof.
  constructor.
  - unfold wt_config. apply (bool_decide_unpack _). by vm_compute.
  - split; [|by vm_compute]. apply (bool_decide_unpack _). by vm_compute.
  - by vm_compute.
  - done.
  - intros h p r. unfold tree, U64_MAX. repeat case_match; intros [=]; subst; lia.
  - do 3 (apply Forall_cons_2; [apply scenario_run; by vm_compute|]). constructor.
  - do 3 (apply Forall_cons_2; [apply signed_all_unforgeable; by vm_compute|]). constructor.
  - by vm_compute.
Qed.

Lemma agreement_witness :
  let h nd := b_hash (e_committed (n_engine nd)) in
  exists n1 n2, h n1 = 1801 /\ h n2 = 100
    /\ (extends tree (h n1) (h n2) \/ extends tree (h n2) (h n1)).
Proof.
  cbv zeta.
  exists (node 0 [IStart; pA; IValidated 1801 true; pB; IValidated 1802 true; pC]),
    (node 1 [IStart; IProposed A qc0 None [1]; pB; IValidated 1802 true]).
  split; [by vm_compute|]. split; [by vm_compute|].
  set (n1 := node 0 _). set (n2 := node 1 _).
  destruct (agreement (Four.cfg ss 1000) tree nodes normal_system n1 n2) as [H|[H|H]].
  - left.
  - right. left.
  - left. exact H.
  - right. exact H.
  - exfalso. apply Exists_exists in H as (x & Hx & Hf & _). apply Hf. clear Hf. revert x Hx.
    apply Forall_forall, (bool_decide_unpack _). vm_compute. reflexivity.
Defined.
End NormalFacts.

(** ** A proposal for a known hash with another parent

    The engine enters the block of a proposal into its tree before the payload is validated, and
    nothing ties the hash to the parent and round the proposal claims.  Leaders are 1, 3, 0, 1, 3
    in rounds 1 to 5.  Q is certified in round 1, but the Byzantine leader of round 2 hides the
    certificate; rounds 1 and 2 time out and the chain goes on with P1 and P2.  Before node 2
    sees P2 it gets a proposal of round 2 that gives P2's hash the parent Q. *)
Module Poisoned.
Definition Q := mkBlock 101 100 1 1.
Definition P1 := mkBlock 111 100 3 1.
Definition P2 := mkBlock 112 111 4 2.
Definition P3 := mkBlock 113 112 5 3.
Definition fake := mkBlock 112 101 2 2.
Definition ss : list Z := [0; 1; 3].
Definition cfg := Four.cfg ss 1000.

Definition signed_by_all : list bytes := [
  vote_msg 1 0 1 101; timeout_msg 1 0 1 0; timeout_msg 1 0 2 0; vote_msg 1 0 3 111;
  vote_msg 1 0 4 112].
Definition made (i : Z) : option (list bytes) :=
  if i =? 0 then Some (proposal_msg 1 0 3 111 [3] :: signed_by_all)
  else if i =? 1
  then Some (proposal_msg 1 0 1 101 [1] :: proposal_msg 1 0 4 112 [4] :: signed_by_all)
  else if i =? 2 then Some signed_by_all
  else None.
#[export] Instance sch : Scheme := Toy.scheme made.

Definition qc0 : Qc := Qc_anchor 0 100 0.
Definition qc1 : Qc := Four.vote_cert made Q [0; 1; 2].
Definition qc3 : Qc := Four.vote_cert made P1 [0; 1; 2].
Definition qc4 : Qc := Four.vote_cert made P2 [0; 1; 2].
Definition tc2 : Tc := Four.timeout_cert made 2 qc0 [(0, 0); (1, 0); (2, 0)].
Definition pQ := Four.proposal made Q qc0 None 1 [1].
Definition pP1 := Four.proposal made P1 qc0 (Some tc2) 0 [3].
Definition pP2 := Four.proposal made P2 qc3 None 1 [4].
Definition pP3 := Four.proposal made P3 qc4 None 3 [5].
Definition pfake := Four.proposal made fake qc1 None 3 [].
(** Rounds 1 and 2 end by timeout; [i] and [j] are the peers heard. *)
Definition timeouts (i j : Z) : list Input := [
  ITimeout 1; Four.timeout made 1 qc0 i; Four.timeout made 1 qc0 j;
  ITimeout 2; Four.timeout made 2 qc0 i; Four.timeout made 2 qc0 j].

Definition node (i : Z) (l : list Input) : Node :=
  scenario made ss 1000 (fun _ => true) i l.
Definition n0 := node 0 ([IStart; pQ; IValidated 101 true] ++ timeouts 1 2
  ++ [IProposed P1 qc0 (Some tc2) [3]; pP2; IValidated 112 true; pP3]).
Definition n1 := node 1 ([IStart; IProposed Q qc0 None [1]] ++ timeouts 0 2
  ++ [pP1; IValidated 111 true; Four.vote made P1 0; Four.vote made P1 2;
      IProposed P2 qc3 None [4]]).
Definition n2 := node 2 ([IStart; pQ; IValidated 101 true] ++ timeouts 0 1
  ++ [pP1; IValidated 111 true; pfake; pP2; IValidated 112 true; pP3]).
Definition nodes : list Node := [n0; n1; n2].

(** What the hashes of the honest blocks stand for. *)
Definition tree (h : Z) : option (Z * Z) :=
  if h =? 100 then Some (99, 0) else if h =? 101 then Some (100, 1) else if h =? 111 then Some (100, 3)
  else if h =? 112 then Some (111, 4) else if h =? 113 then Some (112, 5) else None.

(** Honest nodes holding three quarters of the weight, unforged signatures and votes for validated
    blocks only do not suffice for agreement when blocks enter the engine unchecked: nodes 0 and
    2 finalise different children of the anchor.  Node 2 was shown a false block. *)
Theorem conflicting_commits :
  system cfg tree nodes
  /\ e_committed (n_engine n0) = P1 /\ e_committed (n_engine n2) = Q
  /\ fake ∈ n_shown n2 /\ false_block cfg tree fake.
Proof.
  assert (system cfg tree nodes) as Hsys.
  { constructor.
    - unfold wt_config. apply (bool_decide_unpack _). by vm_compute.
    - split; [|by vm_compute]. apply (bool_decide_unpack _). by vm_compute.
    - by vm_compute.
    - done.
    - intros h p r. unfold tree, U64_MAX. repeat case_match; intros [=]; subst; lia.
    - do 3 (apply Forall_cons_2; [apply scenario_run; by vm_compute|]). constructor.
    - do 3 (apply Forall_cons_2; [apply signed_all_unforgeable; by vm_compute|]). constructor.
    - by vm_compute. }
  split; [exact Hsys|]. split; [by vm_compute|]. split; [by vm_compute|].
  split; [apply (bool_decide_unpack _); by vm_compute|]. split; [by vm_compute|].
  exists qc4. split; [|by left]. apply verify_qc_ok; [|by vm_compute].
  apply (bool_decide_unpack _). by vm_compute.
Qed.
End Poisoned.

(** ** A timeout certificate that does not verify

    The engine keeps the highest certificate of a round's timeouts but lets a signer's later
    timeout replace its entry. The Byzantine validator reports the hidden certificate of round 1,
    then the anchor: the certificate node 0 forms carries the former and the entries do not. *)
Module Overwrite.
Definition Q := mkBlock 101 100 1 1.
Definition ss : list Z := [0; 1; 3].
Definition cfg := Four.cfg ss 1000.
Definition made (i : Z) : option (list bytes) :=
  let l := [vote_msg 1 0 1 101; timeout_msg 1 0 1 0; timeout_msg 1 0 2 0] in
  if i =? 0 then Some l
  else if i =? 1 then Some (proposal_msg 1 0 1 101 [1] :: l)
  else if i =? 2 then Some [timeout_msg 1 0 1 0]
  else None.
#[export] Instance sch : Scheme := Toy.scheme made.

Definition qc0 : Qc := Qc_anchor 0 100 0.
Definition qc1 : Qc := Four.vote_cert made Q [0; 1; 3].
Definition node (i : Z) (l : list Input) : Node :=
  scenario made ss 1000 (fun _ => true) i l.
Definition n0 := node 0 [
  IStart; Four.proposal made Q qc0 None 1 [1]; IValidated 101 true;
  ITimeout 1; Four.timeout made 1 qc0 1; Four.timeout made 1 qc0 2; ITimeout 2;
  Four.timeout made 2 qc1 3; Four.timeout made 2 qc0 3; Four.timeout made 2 qc0 1].
Definition n1 := node 1 [
  IStart; IProposed Q qc0 None [1]; ITimeout 1; Four.timeout made 1 qc0 0;
  Four.timeout made 1 qc0 2; ITimeout 2].
Definition n2 := node 2 [IStart; ITimeout 1].

Theorem timeout_overwrite :
  Forall (unforgeable cfg) [n0; n1; n2]
  /\ exists tc, e_entry_tc (n_engine n0) = Some tc
       /\ verify_tc (with_me cfg [0]) tc = false.
Proof.
  split.
  - do 3 (apply Forall_cons_2; [apply signed_all_unforgeable; by vm_compute|]). constructor.
  - eexists. split; [vm_compute; reflexivity|by vm_compute].
Qed.
End Overwrite.

(** ** The height of a certificate is not signed

    Votes sign the round and the block only, so a Byzantine leader may raise the height of the
    certificate it builds on.  With end height 10, the leader of round 3 presents the certificate
    of B (height 2) as one of height 10 and proposes a nil block on it; nodes vote for nil blocks
    without validation, and the next one ends the epoch with B as its last block. *)
Module EarlyEnd.
Definition A := mkBlock 101 100 1 1.
Definition B := mkBlock 102 101 2 2.
Definition h3 : Z := Eval vm_compute in nil_hash 0 102 3.
Definition h4 : Z := Eval vm_compute in nil_hash 0 h3 4.
Definition N3 := mkBlock h3 102 3 11.
Definition N4 := mkBlock h4 h3 4 12.
Definition ss : list Z := [0; 1; 2; 3].
Definition cfg := Four.cfg ss 10.
Definition made (i : Z) : option (list bytes) :=
  let l := map (fun b => vote_msg 1 0 (b_round b) (b_hash b)) [A; B; N3; N4] in
  if i =? 0 then Some (proposal_msg 1 0 4 (b_hash N4) [] :: l)
  else if i =? 1 then Some (proposal_msg 1 0 1 101 [1] :: l)
  else if i =? 2 then Some (proposal_msg 1 0 2 102 [2] :: l)
  else None.
#[export] Instance sch : Scheme := Toy.scheme made.

Definition qc0 : Qc := Qc_anchor 0 100 0.
Definition cert b := Four.vote_cert made b [0; 1; 2].
Definition raised : Qc := cert (mkBlock 102 101 2 10).
Definition pA := Four.proposal made A qc0 None 1 [1].
Definition pB := Four.proposal made B (cert A) None 2 [2].
Definition pN3 := Four.proposal made N3 raised None 3 [].
Definition pN4 := Four.proposal made N4 (cert N3) None 0 [].
Definition votes b i j := [Four.vote made b i; Four.vote made b j].

Definition calls0 : list Input :=
  [IStart; pA; IValidated 101 true; pB; IValidated 102 true; pN3] ++ votes N3 1 2.
Definition calls1 : list Input :=
  [IStart; IProposed A qc0 None [1]; pB; IValidated 102 true; pN3; pN4] ++ votes N4 0 2.
Definition calls2 : list Input :=
  [IStart; pA; IValidated 101 true] ++ votes A 0 1 ++ [IProposed B (cert A) None [2]; pN3; pN4].
Definition node (i : Z) (l : list Input) : Node :=
  scenario made ss 10 (fun _ => true) i l.
Definition nodes : list Node := [node 0 calls0; node 1 calls1; node 2 calls2].

Definition ends_epoch (b : BlockInfo) (a : Action) : bool :=
  match a with EpochEnd b' _ => bool_decide (b' = b) | _ => false end.

Theorem epoch_ends_early :
  Forall (unforgeable cfg) nodes
  /\ 3 * weight_where (validators cfg) (byzantine nodes) <= sumZ (weights (validators cfg))
  /\ existsb (ends_epoch B)
       (outputs (with_me cfg [1]) calls1 (new (with_me cfg [1]))) = true
  /\ b_height B < end_height cfg.
Proof.
  split; [|split; [|split]].
  - do 3 (apply Forall_cons_2; [apply signed_all_unforgeable; by vm_compute|]). constructor.
  - by vm_compute.
  - by vm_compute.
  - by vm_compute.
Qed.
End EarlyEnd.

(** ** A signer bitmap longer than the index type

    [bitmap::decode] truncates bit positions to [u16] and [Qc::verify] does not bound the length:
    bits 3, 65539 and 131075 are three times validator 3. *)
Module LongBitmap.
Definition gap : bytes := replicate (Z.to_nat 8191) 0.
Definition bitmap : bytes := [8] ++ gap ++ [8] ++ gap ++ [8].
Definition vs : ValidatorSet := {| weights := [1; 1; 1; 1]; seats := [] |}.

Lemma decode_zeros (f : nat -> nat) n :
  concat (imap (fun i => Bitmap.decode_byte (f i)) (replicate n 0)) = [].
Proof.
  revert f. induction n as [|n IH]; intros f; [done|].
  cbn [replicate]. rewrite imap_cons. apply (IH (fun i => f (Datatypes.S i))).
Qed.

Lemma decode_eight k : Bitmap.decode_byte k 8 = [u16 (Z.of_nat k * 8 + 3)].
Proof. reflexivity. Qed.

Lemma decode_spread n :
  Bitmap.decode ([8] ++ replicate n 0 ++ [8] ++ replicate n 0 ++ [8])
  = map (fun k => u16 (k * (1 + Z.of_nat n) * 8 + 3)) [0; 1; 2].
Proof.
  unfold Bitmap.decode. rewrite !imap_app, !concat_app, !length_replicate.
  unfold compose. cbn [length imap concat].
  rewrite !(decode_zeros (fun _ => _)), !decode_eight, !app_nil_r, !app_nil_l.
  cbn [map app]. repeat match goal with |- _ :: _ = _ :: _ => f_equal end; f_equal; lia.
Qed.

Lemma bitmap_signers : Bitmap.decode bitmap = [3; 3; 3].
Proof. unfold bitmap, gap. rewrite decode_spread, Z2Nat.id by lia. reflexivity. Qed.

(** With one signature of its own, one validator of four certifies any block. *)
Theorem long_bitmap_forges_quorum `{S : Scheme} `{!SchemeLaws S} chain_id epoch anchor r h
    height s a :
  0 < r ->
  verify 3 (vote_msg chain_id epoch r h) s = true ->
  aggregate [s; s; s] = Some a ->
  Qc_verify vs chain_id epoch anchor (mkQc epoch r h height bitmap (Some a)) = true.
Proof.
  intros Hr Hs Ha. unfold Qc_verify, is_anchor.
  cbn [qc_epoch qc_round qc_sig qc_block qc_signers]. rewrite Z.eqb_refl, bitmap_signers.
  cbn [negb]. replace (r =? 0) with false by lia. replace (0 <? r) with true by lia.
  rewrite (aggregate_verifies [3; 3; 3] _ [s; s; s] a); [done| |done].
  repeat constructor; done.
Qed.
End LongBitmap.
