(* ===== verification/EngineTermination.v ===== *)
(** * Termination of the consensus engine

    The methods are defined by fuel.  This file shows that the fuel is immaterial: more fuel never
    changes a result ([handle_fuel]), and with [20 * 2^64 + 10] units every call returns
    ([handle_terminates]).  The methods call each other around cycles, but a cycle passes through
    [enter_round], which raises the round below 2^64, or through [local_timeout], which runs once
    per round.  The walks along parent links end because no chain of them comes back to its start
    ([ranked]); the engine does not ensure this of the blocks it is shown, and hangs where it fails
    ([Cycle.proposal_hangs]).  An engine resumed after the end of its epoch aborts
    ([LateRestart.resumed_commit_aborts]). *)

From S2P Require Import Prelude Types TypesFacts Engine EngineInv EngineVotes EngineSafety.
From S2P Require Import EngineAgreement EngineExamples.
From stdpp Require Import base list list_numbers sorting gmap strings relations.
From Stdlib Require Import ZArith Lia.

Open Scope Z_scope.
Open Scope bolt_scope.

(** ** More fuel never changes a result *)
Section fuel.
Context {S W : Type}.

(** [m'] does what [m] does wherever [m] has fuel enough. *)
Definition refines {A} (m m' : M S W A) : Prop := forall s, m s <> OutOfFuel -> m' s = m s.

Lemma refines_refl {A} (m : M S W A) : refines m m.
Proof. done. Qed.

Lemma refines_no_fuel {A} (m : M S W A) : refines no_fuel m.
Proof. by intros s H. Qed.

Lemma refines_bind {A B} (m m' : M S W A) (k k' : A -> M S W B) :
  refines m m' -> (forall a, refines (k a) (k' a)) -> refines (bind m k) (bind m' k').
Proof.
  intros Hm Hk s. unfold bind. intros H. rewrite Hm by (by destruct (m s)).
  destruct (m s) as [[[a s1] w1]| |]; [|done..].
  rewrite Hk; [done|]. by destruct (k a s1) as [[[]]| |].
Qed.

Lemma refines_capture {A} (m m' : M S W A) :
  refines m m' -> refines (capture m) (capture m').
Proof.
  intros Hm s. unfold capture. intros H. rewrite Hm; [done|]. by destruct (m s) as [[[]]| |].
Qed.

Lemma refines_for_until {A} (f f' : A -> M S W bool) l :
  (forall x, refines (f x) (f' x)) -> refines (for_until f l) (for_until f' l).
Proof.
  intros Hf. induction l as [|x l IH]; [done|]. cbn [for_until]. apply refines_bind; [apply Hf|].
  by intros [].
Qed.

Lemma refines_for_each {A} (f f' : A -> M S W unit) l :
  (forall x, refines (f x) (f' x)) -> refines (for_each f l) (for_each f' l).
Proof.
  intros Hf. apply refines_for_until. intros x. apply refines_bind; [apply Hf|done].
Qed.
End fuel.

#[export] Hint Resolve refines_refl refines_no_fuel : bolt.

(** Follows the structure of a method, using the hypotheses about the ones it calls. *)
Ltac refine_step :=
  match goal with
  | |- forall _, refines _ _ => intros ?
  | |- refines ?m ?m => apply refines_refl
  | |- refines no_fuel _ => apply refines_no_fuel
  | |- refines (bind _ _) (bind _ _) => apply refines_bind
  | |- refines (capture _) (capture _) => apply refines_capture
  | |- refines (for_each _ _) (for_each _ _) => apply refines_for_each
  | |- refines (for_until _ _) (for_until _ _) => apply refines_for_until
  | |- refines (if ?b then _ else _) (if ?b then _ else _) => destruct b
  | |- refines (match ?o with Some _ => _ | None => _ end) _ => destruct o
  | |- refines (let '(_, _) := ?o in _) _ => destruct o
  | H : _ |- refines _ _ => apply H
  end.

Section engine_fuel.
Context `{S : Scheme} `{K : Keccak} (cfg : Config).

Record refined (n : nat) : Prop := {
  f_process_qc qc : refines (process_qc cfg n qc) (process_qc cfg (Datatypes.S n) qc);
  f_enter_round r tc : refines (enter_round cfg n r tc) (enter_round cfg (Datatypes.S n) r tc);
  f_on_proposed b qc tc pl :
    refines (on_proposed cfg n b qc tc pl) (on_proposed cfg (Datatypes.S n) b qc tc pl);
  f_on_proposal p : refines (on_proposal cfg n p) (on_proposal cfg (Datatypes.S n) p);
  f_process_tc tc : refines (process_tc cfg n tc) (process_tc cfg (Datatypes.S n) tc);
  f_on_validated h v : refines (on_validated cfg n h v) (on_validated cfg (Datatypes.S n) h v);
  f_on_vote v : refines (on_vote cfg n v) (on_vote cfg (Datatypes.S n) v);
}.

Lemma all_refined n : refined n.
Proof.
  induction n as [|n [H1 H2 H3 H4 H5 H6 H7]]; [split; intros; apply refines_no_fuel|].
  split; intros; remember (Datatypes.S n) as k; rewrite Heqk at 1;
    [simpl process_qc|simpl enter_round|simpl on_proposed|simpl on_proposal|simpl process_tc
    |simpl on_validated|simpl on_vote]; cbv zeta; subst k; repeat refine_step.
Qed.

Record timeouts_refined (n : nat) : Prop := {
  f_local_timeout : refines (local_timeout cfg n) (local_timeout cfg (Datatypes.S n));
  f_on_timeout_msg t : refines (on_timeout_msg cfg n t) (on_timeout_msg cfg (Datatypes.S n) t);
}.

Lemma all_timeouts_refined n : timeouts_refined n.
Proof.
  pose proof (fun n => f_process_qc n (all_refined n)) as Hq.
  pose proof (fun n => f_process_tc n (all_refined n)) as Ht.
  induction n as [|n [H1 H2]]; [split; intros; apply refines_no_fuel|].
  split; intros; remember (Datatypes.S n) as k; rewrite Heqk at 1;
    [simpl local_timeout|simpl on_timeout_msg]; cbv zeta; subst k; repeat refine_step.
Qed.

Lemma handle_refined n i : refines (handle cfg n i) (handle cfg (Datatypes.S n) i).
Proof.
  destruct (all_refined n) as [H1 H2 H3 H4 H5 H6 H7], (all_timeouts_refined n) as [H8 H9].
  destruct i as [|[]| | | | |]; unfold handle, start, on_message, on_timeout, on_external_commit;
    repeat refine_step.
Qed.

Lemma handle_fuel_le n m i e :
  (n <= m)%nat -> handle cfg n i e <> OutOfFuel -> handle cfg m i e = handle cfg n i e.
Proof.
  intros Hle Hn. induction Hle as [|m Hle IH]; [done|].
  rewrite <-IH. apply handle_refined. by rewrite IH.
Qed.
End engine_fuel.

(** ** The walks along parent links end *)
Section walks.
Context (rank : B256 -> nat).

(** A block's parent has a smaller rank than the block: links cannot close a cycle. *)
Definition ranked (b : BlockInfo) : Prop := (rank (b_parent b) < rank (b_hash b))%nat.

Context `{S : Scheme} (e : Engine).
Context (Hb : forall h b, e_blocks e !! h = Some b -> b_hash b = h /\ ranked b).

(** The blocks that can still come below [r]. *)
Definition below (r : nat) : gmap B256 BlockInfo :=
  filter (fun kv => (rank (fst kv) < r)%nat) (e_blocks e).

Lemma below_parent b p :
  e_blocks e !! b_parent b = Some p -> ranked b ->
  (size (below (rank (b_hash p))) < size (below (rank (b_hash b))))%nat.
Proof.
  intros Hp Hr. destruct (Hb _ _ Hp) as [E _]. unfold ranked in Hr.
  apply map_subset_size, map_subset_alt. unfold below. split.
  - apply map_filter_subseteq_ext. intros h x _ Hx. simpl in *. rewrite E in Hx. lia.
  - exists (b_parent b). rewrite E. split.
    + apply map_lookup_filter_None_2. right. intros x _. simpl. lia.
    + exists p. by apply map_lookup_filter_Some_2.
Qed.

Lemma walk_back_ends n cur chain :
  ranked cur -> (size (below (rank (b_hash cur))) < n)%nat ->
  walk_back n e cur chain <> WalkLoop.
Proof.
  revert cur chain. induction n as [|n IH]; intros cur chain Hr Hn; [lia|].
  cbn [walk_back]. destruct (_ =? _); [done|].
  destruct (e_blocks e !! b_parent cur) as [p|] eqn:Ep; [|done].
  destruct (_ <? _); [|done]. pose proof (below_parent _ _ Ep Hr).
  apply IH; [|lia]. by apply (Hb _ _ Ep).
Qed.

Lemma nil_walk_ends n end_ cur rounds :
  ranked cur -> (size (below (rank (b_hash cur))) < n)%nat ->
  nil_walk n e end_ cur rounds <> OutOfFuel.
Proof.
  revert cur rounds. induction n as [|n IH]; intros cur rounds Hr Hn; [lia|].
  cbn [nil_walk]. destruct (_ <? _); [|done].
  destruct (e_blocks e !! b_parent cur) as [p|] eqn:Ep; [|done].
  pose proof (below_parent _ _ Ep Hr). apply IH; [|lia]. by apply (Hb _ _ Ep).
Qed.

(** Where the walk back from [cur] reached the committed block, the walk over the nil blocks stops
    there at the latest. *)
Lemma nil_walk_returns n m end_ cur chain chain' rounds x :
  e_blocks e !! b_hash (e_committed e) = Some x -> b_height x <= end_ ->
  walk_back n e cur chain = WalkChain chain' -> nil_walk m e end_ cur rounds <> Panic.
Proof.
  intros Hx Hh. revert m cur chain rounds. induction n as [|n IH]; intros m cur chain rounds;
    cbn [walk_back]; destruct (Z.eqb_spec (b_parent cur) (b_hash (e_committed e))) as [E|_].
  1,3: intros _; destruct m as [|m]; cbn [nil_walk]; (destruct (_ <? _); [|done]); [done|];
    rewrite E, Hx; destruct m; cbn [nil_walk]; by replace (end_ <? b_height x) with false by lia.
  - done.
  - destruct (e_blocks e !! b_parent cur) as [p|] eqn:Ep; [|done]. destruct (_ <? _); [|done].
    intros Hw. destruct m as [|m]; cbn [nil_walk]; (destruct (_ <? _); [|done]); [done|].
    rewrite Ep. by eapply IH.
Qed.

Lemma walk_fuel_enough r : (size (below r) < walk_fuel e)%nat.
Proof.
  unfold walk_fuel. enough (size (below r) <= size (e_blocks e))%nat by lia.
  apply map_subseteq_size, map_filter_subseteq.
Qed.
End walks.

(** ** Every call returns *)
Section termination.
Context `{S : Scheme} `{K : Keccak} {L : SchemeLaws S} {HK : KeccakLaws K} (cfg : Config).
Context (rank : B256 -> nat).

(** The nil blocks on certified blocks do not form cycles. *)
Definition nil_ranked : Prop := forall q r,
  qc_ok cfg q -> in_range 64 r -> is_nil_height cfg (u64 (qc_height q + 1)) = true ->
  ranked rank (mkBlock (nil_hash (epoch cfg) (qc_block q) r) (qc_block q) r (u64 (qc_height q + 1))).

(** The committee has a leader for every round. *)
Definition led : Prop :=
  seats (validators cfg) <> [] \/ ValidatorSet.len (validators cfg) <> 0.

Lemma led_leader r : led -> leader cfg r <> Panic.
Proof.
  unfold led, leader, ValidatorSet.leader. intros Hled. case_bool_decide as Hs.
  { destruct (Z.eqb_spec (ValidatorSet.len (validators cfg)) 0) as [Hl|]; [|done].
    destruct Hled; congruence. }
  destruct (seats (validators cfg) !! _) as [s|] eqn:E; [done|]. exfalso.
  apply lookup_ge_None in E.
  assert (0 < Z.of_nat (length (seats (validators cfg)))).
  { destruct (seats (validators cfg)); [done|]. simpl. lia. }
  pose proof (Z.mod_pos_bound r (Z.of_nat (length (seats (validators cfg)))) ltac:(lia)). lia.
Qed.

(** What the engine holds: no chain of parent links among the blocks it stores, has waiting for
    validation or proposed comes back to its start; and, until the epoch is finished, the last
    final block is stored and not above the epoch's end. *)
Record steady (e : Engine) : Prop := {
  sd_blocks h b : e_blocks e !! h = Some b -> ranked rank b;
  sd_pending h p : e_pending e !! h = Some p -> ranked rank (p_block p);
  sd_proposed b payload : SignedProposal b payload ∈ e_signed e -> ranked rank b;
  sd_root : e_finished e = true \/ exists x, e_blocks e !! b_hash (e_committed e) = Some x
    /\ b_height (e_committed e) <= b_height x <= end_height cfg;
}.

(** What a call hands to it: a block that closes no cycle; a block fetched from the node's chain
    is not above the epoch's end. *)
Definition steady_input (i : Input) : Prop :=
  match i with
  | IMessage (MProposal p) => ranked rank (p_block p)
  | IProposed b _ _ _ => ranked rank b
  | IBlock b | IExternalCommit b _ => ranked rank b /\ b_height b <= end_height cfg
  | _ => True
  end.

Abbreviation any := (fun _ : BlockInfo => True).
Abbreviation real := (fun b => b_height b <= end_height cfg).

Definition Inv_steady (e : Engine) : Prop := Inv cfg any any e /\ steady e.

Context (Hcfg : wt_config cfg) (Hsmall : small_committee cfg) (Hnil : nil_ranked) (Hled : led).

Lemma known_ranked e b : steady e -> known (ranked rank) e b -> ranked rank b.
Proof. intros Hs [H|[pl H]]; [done|by eapply sd_proposed]. Qed.

Lemma blocks_ranked e h b :
  Inv_steady e -> e_blocks e !! h = Some b -> b_hash b = h /\ ranked rank b.
Proof.
  intros [HI Hs] Hb. split; [by destruct (inv_blocks _ _ _ _ HI h b Hb)|by eapply sd_blocks].
Qed.

Lemma walk_ends e h p :
  Inv_steady e -> e_blocks e !! h = Some p -> walk_back (walk_fuel e) e p [p] <> WalkLoop.
Proof.
  intros HI Hp. eapply (walk_back_ends rank).
  - intros h' b. by apply blocks_ranked.
  - by apply (blocks_ranked e h).
  - apply walk_fuel_enough.
Qed.

Lemma proof_returns e qc p b pqc qc' chain :
  Inv_steady e -> commits e qc b p pqc chain ->
  exists proof, proof_for cfg e p b pqc qc' = Done proof.
Proof.
  intros HI Hc. unfold proof_for. destruct (_ <=? _); [by eexists|].
  pose proof (nil_walk_ends rank e ltac:(intros h' b'; by apply blocks_ranked)
    (walk_fuel e) (end_height cfg) p [b_round b]
    ltac:(by eapply (blocks_ranked e); [|eapply cm_p]) (walk_fuel_enough rank e _)) as H1.
  destruct (sd_root _ (proj2 HI)) as [Hf|(x & Hx & _ & Hh)]; [by rewrite (cm_live _ _ _ _ _ _ Hc) in Hf|].
  pose proof (nil_walk_returns e _ (walk_fuel e) (end_height cfg) p [p] chain [b_round b] x Hx Hh
    (cm_chain _ _ _ _ _ _ Hc)) as H2.
  destruct (nil_walk _ _ _ _ _) as [[]| |]; [by eexists|done..].
Qed.

(** Updates of other fields. *)
Lemma steady_same e e' :
  e_blocks e' = e_blocks e -> e_pending e' = e_pending e -> e_committed e' = e_committed e ->
  e_finished e' = e_finished e ->
  (forall b payload, SignedProposal b payload ∈ e_signed e' -> SignedProposal b payload ∈ e_signed e) ->
  steady e -> steady e'.
Proof. intros Eb Ep Ec Ef Es [H1 H2 H3 H4]. split; rewrite ?Eb, ?Ep, ?Ec, ?Ef; eauto. Qed.

Lemma steady_block e b :
  steady e -> ranked rank b ->
  e_finished e = true
  \/ (b_hash b = b_hash (e_committed e) -> b_height (e_committed e) <= b_height b <= end_height cfg) ->
  steady (set_blocks (<[b_hash b := b]> (e_blocks e)) e).
Proof.
  intros [H1 H2 H3 H4] Hb Hroot. split; simpl; [|done..|].
  - intros h b' [[_ <-]|[_ ?]]%lookup_insert_Some; eauto.
  - destruct Hroot as [|Hroot]; [by left|]. destruct H4 as [|(x & Hx & Hh)]; [by left|right].
    destruct (decide (b_hash b = b_hash (e_committed e))) as [E|Hne].
    + exists b. rewrite E, lookup_insert_eq. auto.
    + exists x. by rewrite lookup_insert_ne.
Qed.

Lemma steady_prune e : steady e -> steady (prune_engine e).
Proof.
  intros [H1 H2 H3 H4]. split; simpl; [| |done|].
  - intros h b [Hb _]%map_lookup_filter_Some. eauto.
  - intros h p [Hp _]%map_lookup_filter_Some. eauto.
  - destruct H4 as [|(x & Hx & Hh)]; [by left|right]. exists x. split; [|done].
    apply map_lookup_filter_Some. split; [done|]. simpl. lia.
Qed.

Lemma steady_commit e qc b p pqc chain :
  Inv_steady e -> commits e qc b p pqc chain -> steady (committed_to cfg p e).
Proof.
  intros [HI [H1 H2 H3 _]] [_ Hp _ _ _ _ _]. unfold committed_to.
  destruct (Z.leb_spec (end_height cfg) (b_height p)); split; simpl; try done; [by left|right].
  exists p. destruct (inv_blocks _ _ _ _ HI _ _ Hp) as (-> & _). split; [done|lia].
Qed.

Ltac same := match goal with H : steady ?e |- _ => apply (steady_same e); [reflexivity..|simpl; set_solver|exact H] end.

Lemma Inv_steady_closed :
  closed cfg (ranked rank) real (ranked rank) real False False Inv_steady.
Proof.
  assert (forall e b, known any e b) as Hany by (by intros e b; left).
  pose proof (Inv_closed cfg any any Hcfg Hsmall (ranked rank) real) as C.
  constructor.
  - intros e e' Hc [HI Hs]. split; [by eapply (c_core _ _ _ _ _ _ _ _ C)|]. destruct Hc.
    eapply steady_same; [done..| |exact Hs]. intros b pl. by rewrite sc_signed.
  - intros e [HI _]. apply HI.
  - intros e [HI _]. apply HI.
  - intros e [HI _]. apply HI.
  - intros e q [HI _]. apply HI.
  - intros e h p [HI Hs] Hp. destruct (inv_pending _ _ _ _ HI _ _ Hp) as (? & _ & ?).
    split; [done|]. split; [|done]. left. by eapply sd_pending.
  - intros e qc [HI Hs] Hq Hn. split; [by apply (c_qcs _ _ _ _ _ _ _ _ C)|same].
  - intros e qc [HI Hs] Hq Hn. split; [by apply (c_high _ _ _ _ _ _ _ _ C)|same].
  - intros e r tc [HI Hs] H1 H2 H3. split; [by apply (c_round _ _ _ _ _ _ _ _ C)|same].
  - intros e [HI Hs]. split; [by apply (c_prune _ _ _ _ _ _ _ _ C)|by apply steady_prune].
  - intros e p [HI Hs] Hp Hk Hn Hh. split; [by apply (c_block _ _ _ _ _ _ _ _ C)|].
    apply steady_block; [done|by eapply known_ranked|].
    destruct (sd_root _ Hs) as [|(x & Hx & _)]; [by left|right]. intros E. congruence.
  - intros e p [HI Hs] Hp Hk H1 H2. split; [by apply (c_pending_insert _ _ _ _ _ _ _ _ C)|].
    pose proof (known_ranked _ _ Hs Hk). destruct Hs. split; try done.
    simpl. intros h p' [[_ <-]|[_ ?]]%lookup_insert_Some; eauto.
  - intros e h [HI Hs]. split; [by apply (c_pending_delete _ _ _ _ _ _ _ _ C)|].
    destruct Hs. split; try done. simpl. intros h' p' [_ ?]%lookup_delete_Some; eauto.
  - intros e p [HI Hs] Hp Hk H1 H2 H3 H4. split; [by apply (c_vote _ _ _ _ _ _ _ _ C)|same].
  - intros e [HI Hs]. split; [by apply (c_last_voted _ _ _ _ _ _ _ _ C)|same].
  - intros e [HI Hs] H1. split; [by apply (c_timeout _ _ _ _ _ _ _ _ C)|same].
  - intros e b pl [HI Hs] Hb. split; [by apply (c_sign_proposal _ _ _ _ _ _ _ _ C)|].
    destruct Hs. split; try done. simpl. intros b' pl' [[= -> _]|?]%elem_of_cons; eauto.
  - intros e v [HI Hs] H1 H2. split; [by apply (c_votes_none _ _ _ _ _ _ _ _ C)|same].
  - intros e v set set' cert [HI Hs] H1 H2 H3 H4 H5.
    destruct (c_votes_some _ _ _ _ _ _ _ _ C e v set set' cert) as [? ?]; [done..|].
    split; [split; [done|same]|done].
  - intros e t [HI Hs] H1 H2. split; [by apply (c_timeouts_done _ _ _ _ _ _ _ _ C)|same].
  - intros e e0 t [HI Hs] H1 H2 H3.
    destruct (c_timeouts _ _ _ _ _ _ _ _ C e e0 t) as (? & ? & ?); [done..|].
    split; [split; [done|same]|]. split; [split; [done|same]|done].
  - intros e qc b p pqc chain [HI Hs] Hq Hc. split; [by eapply (c_commit _ _ _ _ _ _ _ _ C)|].
    by eapply steady_commit.
  - intros e qc b p pqc chain HI _ Hc. by destruct (proof_returns e qc p b pqc qc chain HI Hc) as [? ->].
  - intros e qc b p pqc chain HI _ Hc. by destruct (proof_returns e qc p b pqc qc chain HI Hc) as [? ->].
  - intros e h p HI Hp Hw. by eapply walk_ends.
  - intros e qc [HI Hs] Hq. split; [by apply (c_blocked _ _ _ _ _ _ _ _ C)|same].
  - intros e [HI Hs]. split; [by apply (c_unblocked _ _ _ _ _ _ _ _ C)|same].
  - intros e b [HI Hs] Hw Hr Hf Hh. split; [by apply (c_fetched _ _ _ _ _ _ _ _ C)|].
    apply steady_block; [done|done|]. right. intros _. lia.
  - intros e b qc [HI Hs] Hw Hr Hx Hq E Hh. split; [by eapply (c_external _ _ _ _ _ _ _ _ C)|].
    assert (steady (set_blocks (<[b_hash b := b]> (e_blocks e)) e)) as [H1 H2 H3 _].
    { apply steady_block; [done|done|]. right. intros _. lia. }
    split; try done. simpl. right. exists b. rewrite lookup_insert_eq. split; [done|lia].
  - intros r. by apply led_leader.
Qed.

Lemma handle_steady n i e :
  Inv_steady e -> wt_input i -> steady_input i -> 20 * 2 ^ 64 + 10 <= Z.of_nat n ->
  exists e' out, handle cfg n i e = Done (tt, e', out) /\ Inv_steady e'.
Proof.
  intros HI Hwt Hi Hn.
  assert (tree_input (ranked rank) real (ranked rank) i /\ fetch_input real i) as [Ht Hf]
    by (destruct i as [|[]| | | | |]; simpl in *; tauto).
  pose proof (handle_preserves cfg (ranked rank) real (ranked rank) real False False Inv_steady
    Inv_steady_closed Hcfg HK Hnil n i e HI Hwt Ht Hf ltac:(by right)) as H. unfold wp in H.
  destruct (handle cfg n i e) as [[[[] e'] out]| |]; [|done..]. exists e', out. split; [done|apply H].
Qed.

(** A fresh engine is steady. *)
Lemma steady_new : ranked rank (anchor cfg) -> b_height (anchor cfg) <= end_height cfg -> steady (new cfg).
Proof.
  intros Ha Hh. split; simpl.
  - by intros h b [_ <-]%lookup_singleton_Some.
  - done.
  - intros b pl H. by apply elem_of_nil in H.
  - right. exists (anchor cfg). rewrite lookup_singleton_eq. split; [done|lia].
Qed.
End termination.

(** C23.  Every call on an engine returns, in any state the engine can reach by any sequence of calls
    and restarts and with any well-typed argument, also in an epoch with an end, as long as
    the parent links among the blocks it holds, the block it is handed and the nil blocks on
    certified blocks do not close a cycle, and its last final block is stored and not above the end
    of the epoch unless the epoch is finished ([steady]).  The call does not abort and needs
    at most [20 * 2^64 + 10] units of fuel, a bound that depends on nothing but the width of a
    round number: the recursion through rounds, timeouts and self-delivered messages is finite.  The
    engine is steady again after it; a fresh one is ([steady_new]).  Both conditions are needed:
    [Cycle.proposal_hangs] and [LateRestart.resumed_commit_aborts]. *)
Theorem handle_terminates `{S : Scheme} `{K : Keccak} `{!SchemeLaws S} `{!KeccakLaws K}
    (cfg : Config) (rank : B256 -> nat) (n : nat) (i : Input) (e : Engine)
    (Hcfg : wt_config cfg) (Hsmall : small_committee cfg) (Hled : led cfg) (Hnil : nil_ranked cfg rank)
    (He : reachable cfg (fun _ => True) (fun _ => True) e) (Hs : steady cfg rank e)
    (Hwt : wt_input i) (Hi : steady_input cfg rank i) (Hn : 20 * 2 ^ 64 + 10 <= Z.of_nat n) :
  exists e' out, handle cfg n i e = Done (tt, e', out) /\ steady cfg rank e'.
Proof.
  destruct (handle_steady cfg rank Hcfg Hsmall Hnil Hled n i e) as (e' & out & E & _ & Hs'); [|done..|eauto].
  split; [by apply reachable_Inv|done].
Qed.

(** Fuel is immaterial: what a call returns with some fuel it returns with any larger amount,
    so executions evaluated with little fuel are the executions of the engine. *)
Theorem handle_fuel `{S : Scheme} `{K : Keccak} (cfg : Config) (n m : nat) (i : Input)
    (e : Engine) (r : outcome (unit * Engine * list Action)) :
  (n <= m)%nat -> handle cfg n i e = r -> r <> OutOfFuel -> handle cfg m i e = r.
Proof. intros Hle <- Hn. by apply handle_fuel_le. Qed.

(** ** Witnesses *)
Module TerminationWitness.
Import Toy Normal.

Definition cfg0 : Config := with_me (Four.cfg ss 1000) [0].
(** Node 0 after it received the proposal of round 1. *)
Definition waiting : Engine := Four.engine made ss 1000 tree_ok 0 [IStart; pA].

Definition blocks_of `{S : Scheme} (e : Engine) : list BlockInfo :=
  map snd (map_to_list (e_blocks e)) ++ map (fun hp => p_block (snd hp)) (map_to_list (e_pending e))
  ++ omap (fun s => match s with SignedProposal b _ => Some b | _ => None end) (e_signed e).

(** Blocks with parents of smaller hashes, and the last final block among them. *)
Lemma steady_check `{S : Scheme} cfg (e : Engine) x :
  forallb (fun b => (0 <=? b_parent b) && (b_parent b <? b_hash b)) (blocks_of e) = true ->
  e_blocks e !! b_hash (e_committed e) = Some x ->
  b_height (e_committed e) <= b_height x <= end_height cfg -> steady cfg Z.to_nat e.
Proof.
  intros Hb Hx Hh. rewrite forallb_forall in Hb.
  assert (forall b, In b (blocks_of e) -> ranked Z.to_nat b) as Hr.
  { intros b Hin%Hb. unfold ranked. lia. }
  unfold blocks_of in Hr. split.
  - intros h b Hl. apply Hr, in_app_iff. left. apply in_map_iff. exists (h, b). split; [done|].
    by apply list_elem_of_In, elem_of_map_to_list.
  - intros h p Hl. apply Hr, in_app_iff. right. apply in_app_iff. left. apply in_map_iff.
    exists (h, p). split; [done|]. by apply list_elem_of_In, elem_of_map_to_list.
  - intros b pl Hin. apply Hr, in_app_iff. right. apply in_app_iff. right.
    apply list_elem_of_In, list_elem_of_omap. by exists (SignedProposal b pl).
  - right. by exists x.
Qed.

(** Certified blocks have small hashes, nil blocks large ones. *)
Lemma nil_ranked0 : nil_ranked cfg0 Z.to_nat.
Proof.
  intros q r Hq _ _. unfold ranked. cbn [b_parent b_hash].
  pose proof (nil_long 0 (qc_block q) r) as Hl. change (epoch cfg0) with 0.
  enough (0 <= qc_block q < 2 ^ 255) by lia. clear Hl.
  destruct (ok_anchor_or_certified (Four.cfg ss 1000) q Hq) as [Hc|[_ ->]]; [|cbn; lia].
  destruct (certified_round_tree _ _ _ NormalFacts.normal_system q Hc) as (p & Ht & _).
  unfold tree in Ht. repeat (case_match; [lia|]). discriminate.
Qed.

Lemma handle_terminates_witness :
  exists n e' out, handle cfg0 n (IValidated 1801 true) waiting = Done (tt, e', out)
    /\ steady cfg0 Z.to_nat e'.
Proof.
  set (n := Z.to_nat (20 * 2 ^ 64 + 10)). exists n.
  assert (20 * 2 ^ 64 + 10 <= Z.of_nat n) as Hn by (unfold n; rewrite Z2Nat.id; lia).
  clearbody n. apply handle_terminates.
  - unfold wt_config. apply (bool_decide_unpack _). by vm_compute.
  - by vm_compute.
  - left. done.
  - apply nil_ranked0.
  - by apply four_reachable.
  - apply (steady_check _ _ (mkBlock 100 99 0 0)); [by vm_compute|by vm_compute|].
    assert (e_committed waiting = mkBlock 100 99 0 0) as -> by (vm_compute; reflexivity). cbn. lia.
  - done.
  - done.
  - exact Hn.
Defined.

(** The vote node 0 casts, evaluated with little fuel, is what any larger amount gives. *)
Lemma handle_fuel_witness :
  let r := handle cfg0 40 (IValidated 1801 true) waiting in
  r <> OutOfFuel /\ handle cfg0 4000 (IValidated 1801 true) waiting = r.
Proof.
  assert (handle cfg0 40 (IValidated 1801 true) waiting <> OutOfFuel) as H.
  { intros E.
    assert (match handle cfg0 40 (IValidated 1801 true) waiting with
            | OutOfFuel => false | _ => true end = true) as F by (vm_compute; reflexivity).
    rewrite E in F. discriminate. }
  split; [exact H|].
  apply (handle_fuel cfg0 40 4000 (IValidated 1801 true) waiting); [lia|done|exact H].
Defined.
End TerminationWitness.

(** ** A proposal that closes a cycle

    Node 0 missed the proposal of round 1: it has B, of round 2, and the commit of B's certificate
    waits for B's parent.  The Byzantine leader of round 3 sends it a block under the missing hash
    that names B as its parent.  [try_commit] then follows the parent links from B for ever. *)
Module Cycle.
Import Toy.
Definition A := mkBlock 1801 100 1 1.
Definition B := mkBlock 1802 1801 2 2.
Definition fake := mkBlock 1801 1802 3 3.
Definition ss : list Z := [0; 1; 2; 3].
Definition cfg := Four.cfg ss 1000.
Definition tree := Normal.tree.

Definition votes_made : list bytes := [vote_msg 1 0 1 1801; vote_msg 1 0 2 1802].
Definition made (i : Z) : option (list bytes) :=
  if i =? 0 then Some []
  else if i =? 1 then Some (proposal_msg 1 0 1 1801 [1] :: votes_made)
  else if i =? 2 then Some (proposal_msg 1 0 2 1802 [2] :: votes_made)
  else None.
#[export] Instance sch : Scheme := Toy.scheme made.

Definition qc0 : Qc := Qc_anchor 0 100 0.
Definition cert b := Four.vote_cert made b [1; 2; 3].
Definition pA := Four.proposal made A qc0 None 1 [1].
Definition pB := Four.proposal made B (cert A) None 2 [2].
Definition pfake := Four.proposal made fake (cert B) None 3 [].
Definition node := scenario made ss 1000 (fun _ => true).
Definition n0 := node 0 [IStart; pB].
Definition n1 := node 1 [IStart; IProposed A qc0 None [1]; pB; IValidated 1802 true].
Definition n2 := node 2 [IStart; pA; IValidated 1801 true; Four.vote made A 1; Four.vote made A 3;
  IProposed B (cert A) None [2]].
Definition nodes : list Node := [n0; n1; n2].

(** Three honest nodes of four, unforged signatures and votes for validated blocks only: the
    well-typed proposal does not return at node 0, whatever the fuel. *)
Theorem proposal_hangs :
  system cfg tree nodes /\ wt_input pfake
  /\ forall n, handle (with_me cfg [0]) n pfake (n_engine n0) = OutOfFuel.
Proof.
  split; [|split; [apply (bool_decide_unpack _); by vm_compute|]].
  - constructor.
    + unfold wt_config. apply (bool_decide_unpack _). by vm_compute.
    + split; [|by vm_compute]. apply (bool_decide_unpack _). by vm_compute.
    + by vm_compute.
    + done.
    + intros h p r. unfold tree, Normal.tree, U64_MAX. repeat case_match; intros [=]; subst; lia.
    + do 3 (apply Forall_cons_2; [apply scenario_run; by vm_compute|]). constructor.
    + do 3 (apply Forall_cons_2; [apply signed_all_unforgeable; by vm_compute|]). constructor.
    + by vm_compute.
  - intros n. destruct (handle _ n _ _) as [r| |] eqn:E; [exfalso|exfalso|done];
      apply (handle_fuel _ n (4 + n)) in E; [|lia|done| |lia|done];
      vm_compute in E; discriminate.
Qed.
End Cycle.

(** ** A restart after the end of the epoch

    What a node persists does not say that the epoch is finished.  With end height 2, the nil
    block N4 becomes final with B and ends the epoch.  A node that stops then and resumes no longer
    has B, and aborts at the next commit ([expect] in [proof_for]). *)
Module LateRestart.
Import Toy.
Definition made (i : Z) : option (list bytes) := None.
#[local] Instance sch : Scheme := Toy.scheme made.
Definition A := mkBlock 101 100 1 1.
Definition B := mkBlock 102 101 2 2.
Definition h4 : Z := Eval vm_compute in nil_hash 0 102 4.
Definition h5 : Z := Eval vm_compute in nil_hash 0 h4 5.
Definition h6 : Z := Eval vm_compute in nil_hash 0 h5 6.
Definition h7 : Z := Eval vm_compute in nil_hash 0 h6 7.
Definition N4 := mkBlock h4 102 4 3.
Definition N5 := mkBlock h5 h4 5 4.
Definition N6 := mkBlock h6 h5 6 5.
Definition N7 := mkBlock h7 h6 7 6.
Definition cfg := with_me (Four.cfg [3] 2) [0].
Definition cert b := Four.vote_cert made b [1; 2; 3].
Definition next (b parent : BlockInfo) := Four.proposal made b (cert parent) None 3 [].
Definition tc3 := Four.timeout_cert made 3 (cert B) [(1, 2); (2, 2); (3, 2)].
Definition calls : list Input := [
  IStart; Four.proposal made A (Qc_anchor 0 100 0) None 3 []; IValidated 101 true;
  next B A; IValidated 102 true; Four.proposal made N4 (cert B) (Some tc3) 3 []; next N5 N4; next N6 N5].
Definition stopped : Engine := Four.engine made [3] 2 (fun _ => true) 0 calls.
Definition resumed : Engine := restart cfg stopped.

Theorem resumed_commit_aborts :
  reachable cfg (fun _ => True) (fun _ => True) resumed
  /\ e_finished stopped = true /\ e_finished resumed = false
  /\ wt_input (next N7 N6) /\ handle cfg 40 (next N7 N6) resumed = Panic.
Proof.
  split; [apply reach_restart; by apply four_reachable|]. split; [by vm_compute|].
  split; [by vm_compute|]. split; [apply (bool_decide_unpack _); by vm_compute|].
  by vm_compute.
Qed.
End LateRestart.
