(* ===== verification/EngineLiveness.v ===== *)
(** * Progress of the consensus engine

    The pacemaker part of liveness: a round whose leader fails ends.  Once the timeouts of a
    quorum for a round have been delivered, in any order and mixed with any other calls, the
    engine has left the round ([quorum_timeouts_end_round]).  What a call may do to the collected
    timeouts is a relation on engines ([settles] for the methods that do not collect timeouts,
    [collects] for those that do), shown by following the methods' structure. *)

From S2P Require Import Prelude Types TypesFacts Engine EngineInv EngineVotes EngineSafety.
From S2P Require Import EngineAgreement EngineExamples EngineTermination.
From stdpp Require Import base list list_numbers sorting gmap strings relations.
From Stdlib Require Import ZArith Lia.

Open Scope Z_scope.
Open Scope bolt_scope.

(** ** Steps of a preorder *)
Section steps.
Context {S W : Type} (R : relation S) `{!PreOrder R}.

(** Wherever [m] returns from [s], it returns in a state above [s]. *)
Definition step {A} (m : M S W A) (s : S) : Prop := wp True True m (fun _ s' _ => R s s') s.

Lemma step_ret {A} (a : A) s : step (ret a) s.
Proof. by apply wp_ret. Qed.
Lemma step_push w s : step (push w) s.
Proof. by apply wp_push. Qed.
Lemma step_push_all l s : step (push_all l) s.
Proof. by apply wp_push_all. Qed.
Lemma step_no_fuel {A} s : step (@no_fuel S W A) s.
Proof. by apply wp_no_fuel. Qed.
Lemma step_lift {A} (o : outcome A) s : step (lift o) s.
Proof. by apply wp_lift. Qed.
Lemma step_modify f s : R s (f s) -> step (modify f) s.
Proof. intros H. by apply wp_modify. Qed.
Lemma step_capture {A} (m : M S W A) s : step m s -> step (capture m) s.
Proof. intros H. apply wp_capture. exact H. Qed.
Lemma step_bind {A B} (m : M S W A) (k : A -> M S W B) s :
  step m s -> (forall a s1, R s s1 -> step (k a) s1) -> step (bind m k) s.
Proof.
  intros Hm Hk. apply wp_bind. eapply wp_mono; [|apply Hm]. intros a s1 w H1.
  eapply wp_mono; [|apply (Hk a s1 H1)]. intros b s2 w2 H2. by transitivity s1.
Qed.
Lemma step_get {B} (k : S -> M S W B) s : step (k s) s -> step (bind get k) s.
Proof. intros H. apply wp_bind, wp_get, H. Qed.
Lemma step_update {B} f (k : unit -> M S W B) s :
  R s (f s) -> step (k tt) (f s) -> step (bind (modify f) k) s.
Proof.
  intros H Hk. apply wp_bind, wp_modify. eapply wp_mono; [|apply Hk].
  intros b s2 w H2. by transitivity (f s).
Qed.
Lemma step_for_until {A} (f : A -> M S W bool) l s :
  (forall x s, step (f x) s) -> step (for_until f l) s.
Proof.
  intros Hf. apply (wp_for_until _ _ f l (R s) s); [|done].
  intros x s1 _ H1. eapply wp_mono; [|apply Hf]. intros b s2 w H2. by transitivity s1.
Qed.
Lemma step_for_each {A} (f : A -> M S W unit) l s :
  (forall x s, step (f x) s) -> step (for_each f l) s.
Proof.
  intros Hf. apply step_for_until. intros x s1. apply step_bind; [apply Hf|].
  intros. apply step_ret.
Qed.

(** A step of [R] is one of a weaker relation. *)
Lemma step_done {A} (m : M S W A) s a s' w : step m s -> m s = Done (a, s', w) -> R s s'.
Proof. unfold step, wp. intros H E. by rewrite E in H. Qed.
End steps.

Lemma step_weaken {S W A} (R R' : relation S) (m : M S W A) s :
  (forall s s', R s s' -> R' s s') -> step R m s -> step R' m s.
Proof. intros H. apply wp_mono. intros _ s' _. apply H. Qed.

(** Follows the structure of a method; [upd] shows that an elementary update is a step, [call] that
    a call is one. *)
Ltac walk upd call :=
  repeat match goal with
    | |- step _ (bind get _) _ => apply step_get
    | |- step _ (bind (modify _) _) _ => apply step_update; [apply _|upd|]
    | |- step _ (bind _ _) _ => apply step_bind; [apply _| |intros ? ? _]
    | |- step _ (ret _) _ => apply step_ret, _
    | |- step _ (push _) _ => apply step_push, _
    | |- step _ (push_all _) _ => apply step_push_all, _
    | |- step _ no_fuel _ => apply step_no_fuel
    | |- step _ (lift _) _ => apply step_lift, _
    | |- step _ (capture _) _ => apply step_capture
    | |- step _ (modify _) _ => apply step_modify; upd
    | |- step _ (for_each _ _) _ => apply step_for_each; [apply _|intros ? ?]
    | |- step _ (for_until _ _) _ => apply step_for_until; [apply _|intros ? ?]
    | |- step _ (let _ := _ in _) _ => cbv zeta
    | |- step _ (if ?b then _ else _) _ => destruct b
    | |- step _ (match ?o with _ => _ end) _ => destruct o
    | |- step _ _ _ => call
    end.

(** ** What the methods do to the collected timeouts *)
Section progress.
Context `{S : Scheme} `{K : Keccak} (cfg : Config).

(** The methods of the first group only move rounds forward and drop timeouts of old rounds. *)
Record settles (e e' : Engine) : Prop := {
  se_round : e_round e <= e_round e';
  se_finished : e_finished e = true -> e_finished e' = true;
  se_less : e_timeouts e' ⊆ e_timeouts e;
  se_kept r : 0 <= r < U64_MAX -> e_round e' <= r -> e_timeouts e' !! r = e_timeouts e !! r;
}.

#[export] Instance settles_preorder : PreOrder settles.
Proof.
  split.
  - intros e. by split.
  - intros e1 e2 e3 [R1 F1 L1 K1] [R2 F2 L2 K2]. split; [lia|auto|by transitivity (e_timeouts e2)|].
    intros r Hr H3. rewrite K2 by done. apply K1; [done|lia].
Qed.

(** An update of other fields. *)
Lemma settles_same e e' :
  e_round e' = e_round e -> (e_finished e = true -> e_finished e' = true) ->
  e_timeouts e' = e_timeouts e -> settles e e'.
Proof. intros Hr Hf Ht. split; [lia|done|by rewrite Ht|by rewrite Ht]. Qed.

Lemma settles_prune e : settles e (prune_engine e).
Proof.
  split; [done|done|apply map_filter_subseteq|]. intros r Hr He. simpl in He |- *.
  destruct (e_timeouts e !! r) as [set|] eqn:E.
  - apply map_lookup_filter_Some. split; [done|]. unfold keeps.
    rewrite wrap_u64_succ by done. apply Is_true_true, Z.leb_le. simpl.
    unfold saturating_sub. lia.
  - by apply map_lookup_filter_None_2; left.
Qed.

Lemma settles_commit_chain qc b p pqc chain e : step settles (commit_chain cfg qc b p pqc chain) e.
Proof.
  unfold commit_chain. cbv zeta. apply step_update; [apply _|by apply settles_same|].
  apply step_update; [apply _| |].
  { unfold unblocked_by. repeat case_match; by apply settles_same. }
  apply step_get, step_bind; [apply _|apply step_lift, _|]. intros proof e1 _.
  apply step_bind; [apply _|case_bool_decide; [apply step_ret|apply step_push]; apply _|].
  intros _ e2 _. destruct (_ <=? _); [|apply step_ret, _].
  apply step_update; [apply _|by apply settles_same|]. apply step_get, step_push, _.
Qed.

Lemma settles_block_on qc h e : step settles (block_on qc h) e.
Proof.
  unfold block_on. apply step_update; [apply _| |].
  { unfold blocked_by. repeat case_match; by apply settles_same. }
  apply step_get. case_bool_decide; [apply step_ret, _|].
  apply step_update; [apply _|by apply settles_same|apply step_push, _].
Qed.

Lemma settles_try_commit qc e : step settles (try_commit cfg qc) e.
Proof.
  unfold try_commit. apply step_get.
  repeat case_match; first [apply step_ret, _ | apply step_no_fuel
    | apply settles_block_on | apply settles_commit_chain].
Qed.

(** The methods of the first group at fuel [n]. *)
Record settling (n : nat) : Prop := {
  l_process_qc qc e : step settles (process_qc cfg n qc) e;
  l_enter_round r tc e : step settles (enter_round cfg n r tc) e;
  l_on_proposed b qc tc pl e : step settles (on_proposed cfg n b qc tc pl) e;
  l_on_proposal p e : step settles (on_proposal cfg n p) e;
  l_process_tc tc e : step settles (process_tc cfg n tc) e;
  l_on_validated h v e : step settles (on_validated cfg n h v) e;
  l_on_vote v e : step settles (on_vote cfg n v) e;
}.

Ltac same := first [apply settles_prune | by apply settles_same].
Ltac called := first [apply settles_try_commit | match goal with H : settling _ |- _ => apply H end].

Lemma settles_remember b e : settles e (remember_block b e).
Proof. unfold remember_block. repeat case_match; by apply settles_same. Qed.
Lemma settles_record qc e : settles e (record_qc qc e).
Proof. unfold record_qc. repeat case_match; by apply settles_same. Qed.
Lemma settles_raise qc e : settles e (raise_high qc e).
Proof. unfold raise_high. repeat case_match; by apply settles_same. Qed.

(** Entering a round, once the engine is in it. *)
Lemma enter_round_settles n r tc e :
  settling n -> step (fun e e' => settles e e' /\ r <= e_round e') (enter_round cfg (Datatypes.S n) r tc) e.
Proof.
  intros Hn. cbn [enter_round]. apply step_get. destruct (Z.leb_spec r (e_round e)) as [Hle|Hlt].
  { by apply wp_ret. }
  apply wp_bind, wp_modify. set (e1 := set_requested _ _).
  assert (settles e e1) as H1 by (split; [simpl; lia|done|done|done]).
  assert (r <= e_round e1) as Hr by done. clearbody e1.
  eapply wp_mono with (Q := fun _ e' _ => settles e1 e').
  { intros _ e' _ H2. split; [by transitivity e1|]. destruct H2. lia. }
  match goal with |- wp _ _ ?m _ _ => change (step settles m e1) end.
  walk same called.
Qed.

Lemma all_settling n : settling n.
Proof.
  induction n as [|n IH]; [split; intros; apply step_no_fuel|].
  split; intros.
  - cbn [process_qc]. apply step_update; [apply _|apply settles_record|].
    apply step_update; [apply _|apply settles_raise|]. walk same called.
  - eapply step_weaken; [|by apply enter_round_settles]. by intros ? ? [].
  - simpl on_proposed. unfold sign_log. cbv zeta. walk same called.
  - cbn [on_proposal]. cbv zeta.
    walk ltac:(first [apply settles_remember|same]) called.
  - cbn [process_tc]. walk same called.
  - simpl on_validated. unfold sign_log. cbv zeta. walk same called.
  - cbn [on_vote]. cbv zeta. walk same called.
Qed.

(** Acting on a timeout certificate ends its round. *)
Lemma process_tc_reaches n tc e :
  0 <= tc_round tc < U64_MAX ->
  step (fun e e' => settles e e' /\ tc_round tc < e_round e') (process_tc cfg n tc) e.
Proof.
  intros Htc. destruct n as [|n]; [apply wp_no_fuel; done|]. cbn [process_tc].
  apply wp_bind. eapply wp_mono; [|apply (l_process_qc _ (all_settling n))].
  intros ? e1 ? H1. apply wp_bind, wp_get.
  destruct (Z.leb_spec (e_round e1) (tc_round tc)); [|apply wp_ret; by split].
  destruct n as [|n]; [apply wp_no_fuel; done|].
  eapply wp_mono; [|apply (enter_round_settles n), all_settling].
  intros ? e2 ? [H2 Hr]. rewrite wrap_u64_succ in Hr by done.
  split; [by transitivity e1|lia].
Qed.

(** *** Timeouts are kept until their round ends *)

Definition live_round (r : Round) : Prop := 0 <= r < U64_MAX.

(** Who timed out in round [r], as far as the engine heard. *)
Definition senders (e : Engine) (r : Round) : gset ValidatorIndex :=
  match e_timeouts e !! r with Some set => dom (ts_entries set) | None => ∅ end.

Definition set_quorum (set : TimeoutSet) : bool :=
  ValidatorSet.is_quorum (validators cfg)
    (ValidatorSet.weight_of (validators cfg) (btree_keys (ts_entries set))).

(** The engine has left every round for which it holds the timeouts of a quorum. *)
Definition cold (e : Engine) : Prop := forall r set,
  live_round r -> e_timeouts e !! r = Some set ->
  ts_done set = true \/ set_quorum set = true -> r < e_round e.

Record collects (e e' : Engine) : Prop := {
  co_round : e_round e <= e_round e';
  co_finished : e_finished e = true -> e_finished e' = true;
  co_kept r : live_round r -> e_round e' <= r -> senders e r ⊆ senders e' r;
  co_cold : cold e -> cold e';
}.

#[export] Instance collects_preorder : PreOrder collects.
Proof.
  split.
  - intros e. by split.
  - intros e1 e2 e3 [R1 F1 K1 C1] [R2 F2 K2 C2]. split; [lia|auto| |auto].
    intros r Hr H3. transitivity (senders e2 r); [apply K1; [done|lia]|by apply K2].
Qed.

Lemma settles_collects e e' : settles e e' -> collects e e'.
Proof.
  intros [R F L Kp]. split; [done|done| |].
  - intros r Hr H. unfold senders. by rewrite Kp.
  - intros Hc r set Hr Hl Hh. pose proof (Hc r set Hr (lookup_weaken _ _ _ _ Hl L) Hh). lia.
Qed.

(** A set that is neither complete nor a quorum replaces a smaller one. *)
Lemma collects_put e t set :
  ts_done set = false -> set_quorum set = false -> senders e (t_round t) ⊆ dom (ts_entries set) ->
  collects e (put_timeouts e t set).
Proof.
  intros Hd Hq Hs. split; [done|done| |].
  - intros r _ _. unfold senders at 2. simpl. destruct (decide (r = t_round t)) as [->|].
    + by rewrite lookup_insert_eq.
    + rewrite lookup_insert_ne by done. done.
  - intros Hc r set' Hr. simpl. intros [[<- <-]|[_ Hl]]%lookup_insert_Some Hh; [|by eapply Hc].
    destruct Hh; congruence.
Qed.

(** A complete set ends its round. *)
Lemma collects_done e e3 e4 t set :
  e3 = put_timeouts e t set -> senders e (t_round t) ⊆ dom (ts_entries set) ->
  settles e3 e4 -> (live_round (t_round t) -> t_round t < e_round e4) -> collects e e4.
Proof.
  intros -> Hs [R F L Kp] Hr4. split; [done|done| |].
  - intros r Hr H4. unfold senders at 2. rewrite Kp by done. simpl.
    destruct (decide (r = t_round t)) as [->|].
    + specialize (Hr4 Hr). lia.
    + rewrite lookup_insert_ne by done. done.
  - intros Hc r set' Hr Hl Hh. apply (lookup_weaken _ _ _ _) with (2 := L) in Hl. simpl in Hl.
    apply lookup_insert_Some in Hl as [[<- <-]|[_ Hl]]; [by apply Hr4|].
    pose proof (Hc r set' Hr Hl Hh). simpl in R. lia.
Qed.

Lemma senders_new e t : senders e (t_round t) = dom (ts_entries (new_timeout_set e t)).
Proof.
  unfold senders, new_timeout_set. destruct (e_timeouts e !! t_round t); simpl; [done|].
  by rewrite dom_empty_L.
Qed.

Lemma senders_add e t : senders e (t_round t) ⊆ dom (ts_entries (timeout_set_add t (new_timeout_set e t))).
Proof. rewrite senders_new. simpl. rewrite dom_insert_L. set_solver. Qed.

(** What a timeout message does. *)
Definition heard (t : Timeout) (e e' : Engine) : Prop :=
  collects e e' /\ (timeout_ok cfg e t = true -> live_round (t_round t) -> cold e ->
    t_round t < e_round e' \/ t_signer t ∈ senders e' (t_round t)).

Record collecting (n : nat) : Prop := {
  l_local_timeout e : step collects (local_timeout cfg n) e;
  l_on_timeout_msg t e : step (heard t) (on_timeout_msg cfg n t) e;
}.

(** The part of [on_timeout_msg] after the certificates it carries were processed. *)
Lemma collect_timeout n t e :
  collecting n ->
  let set := new_timeout_set e t in
  step (fun e e' => collects e e' /\ (live_round (t_round t) -> cold e ->
          t_round t < e_round e' \/ t_signer t ∈ senders e' (t_round t)))
    (if ts_done set then modify (fun e => set_timeouts (<[t_round t := set]> (e_timeouts e)) e)
     else
       let set := timeout_set_add t set in
       if set_quorum set then
         modify (fun e => set_timeouts (<[t_round t := timeout_set_done set]> (e_timeouts e)) e) ;;
         process_tc cfg n (make_tc cfg (t_round t) set)
       else
         modify (fun e => set_timeouts (<[t_round t := set]> (e_timeouts e)) e) ;;
         e <- get ;
         if ValidatorSet.is_one_third (validators cfg)
              (ValidatorSet.weight_of (validators cfg) (btree_keys (ts_entries set)))
            && (t_round t =? e_round e) && negb (bool_decide (t_round t ∈ e_timed_out e))
         then local_timeout cfg n else ret tt) e.
Proof.
  intros IH set. destruct (ts_done set) eqn:Ed.
  - apply wp_modify. unfold set, new_timeout_set in *.
    destruct (e_timeouts e !! t_round t) as [old|] eqn:E; [|done]. simpl in *.
    split; [|intros Hr Hc; left; apply (Hc _ old Hr E); by left].
    apply settles_collects, settles_same; [done|done|]. simpl. by apply insert_id.
  - cbv zeta. pose proof (senders_add e t) as Hadd. fold set in Hadd.
    assert (t_signer t ∈ dom (ts_entries (timeout_set_add t set))) as Hin
      by (simpl; rewrite dom_insert_L; set_solver).
    destruct (set_quorum _) eqn:Eq.
    + apply wp_bind, wp_modify.
      set (e3 := set_timeouts _ e).
      assert (forall e4, settles e3 e4 -> (live_round (t_round t) -> t_round t < e_round e4) ->
        collects e e4) as Hdone by (intros e4; by apply collects_done with (set := timeout_set_done (timeout_set_add t set))).
      clearbody e3. destruct (decide (live_round (t_round t))) as [Hr|Hr].
      * eapply wp_mono; [|apply (process_tc_reaches n (make_tc cfg (t_round t) _)); exact Hr].
        intros ? e4 ? [H4 Hlt]. split; [by apply Hdone|]. intros _ _. by left.
      * eapply wp_mono; [|apply (l_process_tc _ (all_settling n))].
        intros ? e4 ? H4. split; [by apply Hdone|]. by intros ?.
    + assert (collects e (put_timeouts e t (timeout_set_add t set))) as H3 by (by apply collects_put).
      assert (t_signer t ∈ senders (put_timeouts e t (timeout_set_add t set)) (t_round t)) as Hs3
        by (unfold senders; simpl; by rewrite lookup_insert_eq).
      apply wp_bind, wp_modify, wp_bind, wp_get.
      change (set_timeouts _ e) with (put_timeouts e t (timeout_set_add t set)).
      generalize dependent (put_timeouts e t (timeout_set_add t set)). intros e3 H3 Hs3.
      destruct (_ && _); [|apply wp_ret; split; [done|by right]].
      eapply wp_mono; [|apply (l_local_timeout _ IH)].
      intros ? e4 ? H4. split; [by transitivity e3|]. intros Hr _.
      destruct (Z.lt_ge_cases (t_round t) (e_round e4)); [by left|right].
      by apply (co_kept _ _ H4).
Qed.

Ltac kept := apply settles_collects; same.

Lemma cold_settles e e' : settles e e' -> cold e -> cold e'.
Proof. intros H. apply settles_collects, H. Qed.

Lemma on_timeout_msg_heard n t e :
  collecting n -> step (heard t) (on_timeout_msg cfg (Datatypes.S n) t) e.
Proof.
  intros IH. cbn [on_timeout_msg]. apply wp_bind, wp_get.
  destruct (timeout_ok cfg e t) eqn:Eok; cbn [negb]; [|apply wp_ret; split; [done|congruence]].
  apply wp_bind. eapply wp_mono with (Q := fun _ e1 _ => settles e e1).
  2:{ match goal with |- wp _ _ ?m _ _ => change (step settles m e) end.
      walk same ltac:(apply (l_process_tc _ (all_settling n))). }
  intros ? e1 ? H1. apply wp_bind. eapply wp_mono; [|apply (l_process_qc _ (all_settling n))].
  intros ? e2 ? H2. apply wp_bind, wp_get. assert (settles e e2) as H by (by transitivity e1).
  eapply wp_mono; [|apply (collect_timeout n t e2 IH)].
  intros ? e3 ? [H3 Hs]. split; [transitivity e2; [by apply settles_collects|done]|].
  intros _ Hr Hc. apply Hs; [done|]. by apply (cold_settles e).
Qed.

Lemma all_collecting n : collecting n.
Proof.
  induction n as [|n IH]; [split; intros; apply step_no_fuel|].
  split; intros; [|by apply on_timeout_msg_heard].
  simpl local_timeout. unfold sign_log. cbv zeta. walk kept fail.
  eapply step_weaken; [|apply (l_on_timeout_msg _ IH)]. by intros ? ? [].
Qed.

Lemma handle_collects n i e : step collects (handle cfg n i) e.
Proof.
  pose proof (all_settling n) as H1. pose proof (all_collecting n) as H2.
  assert (forall A (m : M Engine Action A) e, step settles m e -> step collects m e) as W
    by (intros; eapply step_weaken; [apply settles_collects|done]).
  destruct i as [|[]| | | | |]; unfold handle, start, on_message, on_timeout, on_external_commit, on_block;
    walk ltac:(first [kept | apply settles_collects; case_match; by apply settles_same])
      ltac:(first [apply W; called | apply H2]).
  eapply step_weaken; [|apply (l_on_timeout_msg _ H2)]. by intros ? ? [].
Qed.

(** *** Runs *)

(** A sequence of calls on an engine, each of which returned. *)
Inductive calls (n : nat) : list Input -> Engine -> Engine -> Prop :=
| calls_nil e : calls n [] e e
| calls_cons i l e e1 e2 out :
    handle cfg n i e = Done (tt, e1, out) -> calls n l e1 e2 -> calls n (i :: l) e e2.

Lemma calls_collect n l e e' : calls n l e e' -> collects e e'.
Proof.
  induction 1 as [|i l e e1 e2 out Hi _ IH]; [done|].
  transitivity e1; [|done]. exact (step_done collects _ _ _ _ _ (handle_collects n i e) Hi).
Qed.

Lemma reachable_cold tree_ok ext_ok e : reachable cfg tree_ok ext_ok e -> cold e.
Proof.
  induction 1 as [|n i e e' out He IH _ _ Hh|e He IH].
  - intros r set _. simpl. by rewrite lookup_empty.
  - exact (co_cold _ _ (step_done collects _ _ _ _ _ (handle_collects n i e) Hh) IH).
  - intros r set _. unfold restart, resume, resume_committed.
    repeat case_match; simpl; by rewrite lookup_empty.
Qed.

(** A timeout for round [r] that the engine accepts while it has not passed the round. *)
Definition timeout_for (r : Round) (t : Timeout) : Prop :=
  t_round t = r /\ t_epoch t = epoch cfg /\ t_signer t < ValidatorSet.len (validators cfg)
  /\ qc_round (t_high_qc t) < r
  /\ verify (t_signer t) (timeout_msg (chain_id cfg) (epoch cfg) r (qc_round (t_high_qc t))) (t_sig t) = true
  /\ verify_qc cfg (t_high_qc t) = true.

Lemma timeout_for_ok e r t :
  timeout_for r t -> 0 <= r < U64_MAX - 1 -> e_round e <= r -> timeout_ok cfg e t = true.
Proof.
  intros (Hr & He & Hs & Hq & Hv & Hqc) Hl Hround. unfold timeout_ok. rewrite Hr, He.
  rewrite Z.eqb_refl, Hv, Hqc, !andb_true_r, !andb_true_iff. unfold U64_MAX in Hl.
  repeat split; [lia| |lia]. apply negb_true_iff, Z.ltb_ge.
  rewrite wrap_small by (unfold in_range; lia). lia.
Qed.

(** A delivered timeout is kept until its round ends. *)
Lemma delivered n l e e' r t :
  calls n l e e' -> cold e -> IMessage (MTimeout t) ∈ l -> timeout_for r t ->
  0 <= r < U64_MAX - 1 ->
  e_finished e' = true \/ r < e_round e' \/ t_signer t ∈ senders e' r.
Proof.
  intros Hl Hc Hin Ht Hr. revert Hc Hin.
  induction Hl as [|i l e e1 e2 out Hi Hl IH]; intros Hc Hin; [by apply elem_of_nil in Hin|].
  pose proof (step_done collects _ _ _ _ _ (handle_collects n i e) Hi) as H1.
  pose proof (calls_collect n l e1 e2 Hl) as H2.
  apply elem_of_cons in Hin as [<-|Hin]; [|apply IH; [by apply H1|done]].
  cbn [handle] in Hi. unfold on_message, bind, get in Hi. simpl in Hi.
  destruct (e_finished e) eqn:Ef; [left; by apply H2, H1|].
  pose proof Ht as (Er & Ee & _). rewrite Ee, Z.eqb_refl in Hi. simpl in Hi.
  destruct (Z.lt_ge_cases r (e_round e)) as [Hlt|Hge].
  { right. left. destruct H1, H2. lia. }
  destruct (on_timeout_msg cfg n t e) as [[[[] e1'] w]| |] eqn:Em; [|done..].
  injection Hi as -> _.
  pose proof (step_done _ _ _ _ _ _ (l_on_timeout_msg n (all_collecting n) t e) Em) as [_ Hh].
  assert (live_round r) as Hlive by (unfold live_round; lia).
  rewrite Er in Hh. destruct Hh as [Hlt|Hs]; [by apply (timeout_for_ok _ r)|done|done| |].
  { right. left. destruct H2. lia. }
  right. destruct (Z.lt_ge_cases r (e_round e2)); [by left|right].
  by apply (co_kept _ _ H2).
Qed.

Lemma quorum_grows l k :
  wf_set (validators cfg) -> quorum (validators cfg) l -> NoDup k ->
  Forall (fun i => 0 <= i < ValidatorSet.len (validators cfg)) k -> (forall i, i ∈ l -> i ∈ k) ->
  ValidatorSet.is_quorum (validators cfg) (ValidatorSet.weight_of (validators cfg) k) = true.
Proof.
  intros Hwf Hq Hd Hk Hs. apply quorum_weight in Hq; [|done].
  rewrite weight_of_signers by done. apply is_quorum_spec; [done|by apply weight_where_total|].
  enough (weight_where (validators cfg) (fun i => i ∈ l)
          <= weight_where (validators cfg) (fun i => i ∈ k)) by lia.
  unfold weight_where. rewrite !sumZ_map_filter. apply sumZ_map_le. intros i _.
  pose proof (weight_nonneg (validators cfg) Hwf i). repeat case_decide; try lia.
  exfalso. auto.
Qed.

Lemma quorum_heard tree_ok ext_ok n l e e' r ts :
  wf_set (validators cfg) -> cold e -> Inv cfg tree_ok ext_ok e' -> calls n l e e' ->
  0 <= r < U64_MAX - 1 -> Forall (timeout_for r) ts ->
  (forall t, t ∈ ts -> IMessage (MTimeout t) ∈ l) -> quorum (validators cfg) (map t_signer ts) ->
  e_finished e' = true \/ r < e_round e'.
Proof.
  intros Hwf Hc HI Hl Hr Hts Hin Hq.
  destruct (e_finished e') eqn:Ef; [by left|right].
  destruct (Z.lt_ge_cases r (e_round e')) as [|Hge]; [done|exfalso].
  assert (forall i, i ∈ map t_signer ts -> i ∈ senders e' r) as Hs.
  { intros i Hi. apply list_elem_of_In, in_map_iff in Hi as (t & <- & Ht%list_elem_of_In).
    rewrite Forall_forall in Hts.
    destruct (delivered n l e e' r t) as [?|[?|?]]; [by auto..|congruence|lia|done]. }
  unfold senders in Hs. destruct (e_timeouts e' !! r) as [set|] eqn:E.
  - enough (r < e_round e') by lia.
    eapply (co_cold _ _ (calls_collect n l e e' Hl) Hc); [unfold live_round; lia|exact E|]. right.
    eapply quorum_grows; [done|exact Hq|apply btree_keys_NoDup| |].
    + apply Forall_forall. intros i [[q s] Hi]%elem_of_btree_keys.
      by apply (tso_entries _ _ _ (inv_timeouts _ _ _ _ HI r set E)) in Hi as [? _].
    + intros i Hi. apply elem_of_btree_keys, elem_of_dom, Hs, Hi.
  - destruct ts as [|t ts]; [|by specialize (Hs _ (list_elem_of_here _ _))].
    pose proof (sumZ_nonneg _ (proj1 Hwf)). destruct Hq as (_ & _ & Hq).
    change (ValidatorSet.weight_of (validators cfg) (map t_signer [])) with 0 in Hq.
    apply is_quorum_spec in Hq; [lia|done|lia].
Qed.
End progress.

(** C2.  A failed round ends (liveness of the pacemaker).  Take an engine in any state it can reach by
    any calls and restarts, and any sequence of well-typed calls on it that contains, in any order and
    mixed with anything else, the timeout messages of a quorum for a round [r].  Under the
    conditions of [handle_terminates] (a committee with a leader for every round; no cycle of parent
    links among the blocks the engine holds, those the calls hand to it and the nil blocks on
    certified blocks; fetched blocks not above the epoch's end; not restarted after that end) every
    call returns, and afterwards the engine is in a later round than [r] or has finished its
    epoch. *)
Theorem quorum_timeouts_end_round `{S : Scheme} `{K : Keccak} `{!SchemeLaws S} `{!KeccakLaws K}
    (cfg : Config) (rank : B256 -> nat) (n : nat) (e : Engine) (l : list Input) (r : Round) (ts : list Timeout)
    (Hcfg : wt_config cfg) (Hsmall : small_committee cfg) (Hwf : wf_set (validators cfg))
    (Hled : led cfg) (Hnil : nil_ranked cfg rank)
    (He : reachable cfg (fun _ => True) (fun _ => True) e) (Hs : steady cfg rank e)
    (Hl : Forall (fun i => wt_input i /\ steady_input cfg rank i) l)
    (Hr : 0 <= r < U64_MAX - 1)
    (Hts : Forall (timeout_for cfg r) ts)
    (Hin : forall t, t ∈ ts -> IMessage (MTimeout t) ∈ l)
    (Hq : quorum (validators cfg) (map t_signer ts))
    (Hn : 20 * 2 ^ 64 + 10 <= Z.of_nat n) :
  exists e', calls cfg n l e e' /\ (e_finished e' = true \/ r < e_round e').
Proof.
  assert (Inv_steady cfg rank e) as HI by (split; [by apply reachable_Inv|done]).
  assert (exists e', calls cfg n l e e' /\ Inv_steady cfg rank e') as (e' & Hc & HI').
  { clear Hin He Hs. revert e HI. induction Hl as [|i l [Hwt Ht] Hl' IH]; intros e HI.
    - exists e. split; [constructor|done].
    - destruct (handle_steady cfg rank Hcfg Hsmall Hnil Hled n i e HI Hwt Ht Hn) as (e1 & out & Eh & HI1).
      destruct (IH e1 HI1) as (e' & Hc & HI'). exists e'. split; [by econstructor|done]. }
  exists e'. split; [done|].
  eapply quorum_heard; [done|by eapply reachable_cold|apply HI'|done|done|done|done|done].
Qed.

(** ** Witness: the timeouts of nodes 1, 2 and 3 take a started node 0 out of round 1, whose
    leader's proposal it never saw. *)
Module LivenessWitness.
Import Toy Normal.

Definition made1 (i : Z) : option (list bytes) := Some [timeout_msg 1 0 1 0].
#[local] Instance sch1 : Scheme := Toy.scheme made1.
Definition cfg0 : Config := with_me (Four.cfg ss 1000) [0].
Definition started : Engine := Four.engine made1 ss 1000 tree_ok 0 [IStart].
Definition late (i : Z) : Timeout := mkTimeout 0 1 (Qc_anchor 0 100 0) i (i, timeout_msg 1 0 1 0) None.

(** Nobody voted: only the anchor has a certificate. *)
Lemma nil_ranked1 : nil_ranked cfg0 Z.to_nat.
Proof.
  intros q r Hq _ _. unfold ranked. cbn [b_parent b_hash].
  pose proof (nil_long 0 (qc_block q) r) as Hl. change (epoch cfg0) with 0.
  enough (qc_block q = 100) by lia. clear Hl.
  destruct (ok_anchor_or_certified (Four.cfg ss 1000) q Hq) as [Hc|[_ ->]]; [exfalso|done].
  destruct Hc as [[_ [_ [[Ha _]|(sig & _ & Hquo & _ & Hv)]]] Hna]; [congruence|].
  destruct (Bitmap.decode (qc_signers q)) as [|i signers]; [by vm_compute in Hquo|].
  apply (verify_aggregate_made made1 i _ _ _ _ eq_refl) in Hv; [|left].
  apply list_elem_of_singleton in Hv. by apply vote_not_timeout in Hv.
Qed.

Lemma quorum_timeouts_end_round_witness :
  e_round started = 1 /\ exists n e',
    calls cfg0 n [IMessage (MTimeout (late 3)); ITimeout 1; IMessage (MTimeout (late 1));
                  IMessage (MTimeout (late 2))] started e'
    /\ (e_finished e' = true \/ 1 < e_round e').
Proof.
  split; [by vm_compute|].
  set (n := Z.to_nat (20 * 2 ^ 64 + 10)). exists n.
  assert (20 * 2 ^ 64 + 10 <= Z.of_nat n) as Hn by (unfold n; rewrite Z2Nat.id; lia).
  clearbody n.
  apply (quorum_timeouts_end_round cfg0 Z.to_nat n started _ 1 [late 1; late 2; late 3]).
  - unfold wt_config. apply (bool_decide_unpack _). by vm_compute.
  - by vm_compute.
  - split; [apply (bool_decide_unpack _); by vm_compute|by vm_compute].
  - left. done.
  - apply nil_ranked1.
  - by apply four_reachable.
  - apply (TerminationWitness.steady_check _ _ (mkBlock 100 99 0 0)); [by vm_compute|by vm_compute|].
    assert (e_committed started = mkBlock 100 99 0 0) as -> by (vm_compute; reflexivity). cbn. lia.
  - repeat constructor; apply (bool_decide_unpack _); by vm_compute.
  - unfold U64_MAX. lia.
  - repeat constructor; by vm_compute.
  - intros t Ht. set_solver.
  - split; [|split]; [|apply (bool_decide_unpack _); by vm_compute|by vm_compute].
    apply (bool_decide_unpack _). by vm_compute.
  - exact Hn.
Defined.
End LivenessWitness.
