(* ===== verification/EngineProps.v ===== *)
(** * What one engine guarantees

    Corollaries of the invariant for a single reachable engine: the discipline of its signatures
    across restarts, that it only moves forward, that the certificates it forms verify, that the
    blocks it reports final form a chain, and what survives a restart. *)

From S2P Require Import Prelude Types TypesFacts Engine EngineInv EngineVotes EngineSafety.
From S2P Require Import EngineAgreement EngineExamples.
From stdpp Require Import base list list_numbers sorting gmap strings relations.
From Stdlib Require Import ZArith Lia.

Open Scope Z_scope.
Open Scope bolt_scope.

(** ** Certificates *)

Lemma backed_verify `{S : Scheme} `{K : Keccak} cfg q :
  backed cfg q -> is_anchor q = false -> 0 < qc_round q -> verify_qc cfg q = true.
Proof.
  intros [He [[Ha _]|(sig & Hs & Hq & Hall & Hv)]] Hna Hr; [congruence|].
  unfold verify_qc, Qc_verify. rewrite He, Z.eqb_refl, Hna, Hs, Hq. cbn [negb].
  rewrite Hv, !andb_true_iff. split; [split; [split; [lia|done]|]|done].
  apply forallb_forall. intros i Hi%list_elem_of_In. rewrite Forall_forall in Hall.
  apply Z.ltb_lt. by apply Hall.
Qed.

(** The set of timeouts after [ts] arrived in order, none of them replacing another. *)
Definition collect `{S : Scheme} (t : Timeout) (ts : list Timeout) : TimeoutSet :=
  foldl (fun set t => timeout_set_add t set) (mkTimeoutSet ∅ (t_high_qc t) false) (t :: ts).

Section collected.
Context `{S : Scheme} `{K : Keccak} (cfg : Config).

Lemma collect_from e r ts set :
  timeout_set_ok cfg r set -> reports_max set ->
  Forall (fun t => wt_timeout t /\ t_round t = r /\ timeout_ok cfg e t = true) ts ->
  NoDup (map t_signer ts) ->
  Forall (fun t => ts_entries set !! t_signer t = None) ts ->
  timeout_set_ok cfg r (foldl (fun set t => timeout_set_add t set) set ts)
  /\ reports_max (foldl (fun set t => timeout_set_add t set) set ts).
Proof.
  revert set. induction ts as [|t ts IH]; intros set Hok Hmax Hts Hnd Hnew; [done|].
  apply Forall_cons in Hts as [(Hwt & Hr & Ht) Hts]. apply Forall_cons in Hnew as [Hn Hnew].
  apply NoDup_cons in Hnd as [Hnt Hnd]. simpl. apply IH; [| |done|done|].
  - subst r. by eapply timeout_set_add_ok.
  - by apply reports_max_add.
  - rewrite Forall_forall in Hnew |- *. intros t' Ht'. simpl. rewrite lookup_insert_ne.
    + by apply Hnew.
    + intros E. apply Hnt. rewrite E. apply list_elem_of_In, in_map, list_elem_of_In, Ht'.
Qed.
End collected.

(** ** Chains of final blocks *)

(** Each block's parent is the one before it, the first one's is [h]. *)
Fixpoint linked (h : B256) (l : list BlockInfo) : Prop :=
  match l with
  | [] => True
  | b :: l => b_parent b = h /\ linked (b_hash b) l
  end.

Section chains.
Context `{S : Scheme} `{K : Keccak} (cfg : Config) (e : Engine).
Context (Hkeys : forall h b, e_blocks e !! h = Some b -> b_hash b = h).

Lemma walk_back_linked n cur acc c :
  linked (b_hash cur) acc -> walk_back n e cur (reverse acc ++ [cur]) = WalkChain c ->
  linked (b_hash (e_committed e)) (reverse c) /\ exists pre, reverse c = pre ++ cur :: acc.
Proof.
  revert cur acc. induction n as [|n IH]; intros cur acc Hacc; cbn [walk_back];
    destruct (Z.eqb_spec (b_parent cur) (b_hash (e_committed e))) as [E|]; try done.
  1,2: intros [= <-]; rewrite reverse_app, reverse_involutive; split; [done|by exists []].
  destruct (e_blocks e !! b_parent cur) as [p|] eqn:Ep; [|done].
  destruct (_ <? _); [|done]. intros Hw.
  rewrite <-reverse_cons in Hw. destruct (IH p (cur :: acc)) as [Hl [pre Hpre]].
  - split; [|done]. by rewrite (Hkeys _ _ Ep).
  - exact Hw.
  - split; [done|]. exists (pre ++ [p]). by rewrite Hpre, <-app_assoc.
Qed.

Lemma commit_chain_output qc b p pqc chain e' out blocks proof :
  commit_chain cfg qc b p pqc chain e = Done (tt, e', out) ->
  Commit blocks proof ∈ out ->
  blocks = List.filter (fun x => b_height x <=? end_height cfg) (reverse chain)
  /\ e_committed e' = p.
Proof.
  unfold commit_chain, bind, modify, get, lift, push, ret. simpl.
  assert (e_committed (unblocked_by qc (set_committed p e)) = p) as Ec.
  { unfold unblocked_by. simpl. repeat case_match; done. }
  destruct (proof_for _ _ _ _ _ _) as [pf| |]; [|done..].
  case_bool_decide; destruct (_ <=? _); intros [= <- <-];
    rewrite ?elem_of_cons, ?elem_of_app, ?elem_of_nil; intros Hin;
    repeat (destruct Hin as [Hin|Hin]); rewrite ?elem_of_cons, ?elem_of_nil in *;
    try done; destruct Hin as [[= <- <-]|Hin] || injection Hin as -> ->; try done;
    by destruct Hin.
Qed.
End chains.

Lemma bind_get {S W A} (k : S -> M S W A) s : bind get k s = k s s.
Proof. unfold bind, get. by destruct (k s s) as [[[]]| |]. Qed.

Lemma block_on_output `{S : Scheme} qc h (e e' : Engine) out a :
  block_on qc h e = Done (tt, e', out) -> a ∈ out -> a = FetchBlock h.
Proof.
  unfold block_on, bind, modify, get, push, ret. case_bool_decide; intros [= <- <-].
  - by intros ?%elem_of_nil.
  - by intros ?%list_elem_of_singleton.
Qed.

Lemma try_commit_output `{S : Scheme} `{K : Keccak} cfg qc (e e' : Engine) out blocks proof :
  (forall h b, e_blocks e !! h = Some b -> b_hash b = h) ->
  try_commit cfg qc e = Done (tt, e', out) -> Commit blocks proof ∈ out ->
  exists chain, linked (b_hash (e_committed e)) chain /\ last chain = Some (e_committed e')
    /\ blocks = List.filter (fun x => b_height x <=? end_height cfg) chain.
Proof.
  intros Hkeys. unfold try_commit. rewrite bind_get.
  assert (forall h, block_on qc h e = Done (tt, e', out) -> Commit blocks proof ∈ out -> False)
    as Hblock by (intros h Hb Hin; by apply (block_on_output _ _ _ _ _ _ Hb) in Hin).
  assert (@ret Engine Action _ tt e = Done (tt, e', out) -> Commit blocks proof ∈ out -> False)
    as Hret by (intros [= <- <-]; by intros ?%elem_of_nil).
  repeat match goal with
  | |- (if ?b then _ else _) _ = _ -> _ => destruct b
  | |- match ?m with _ => _ end _ = _ -> _ => destruct m eqn:?
  | |- ret tt _ = _ -> _ => intros; exfalso; by eauto
  | |- block_on _ _ _ = _ -> _ => intros; exfalso; by eauto
  end; [|done].
  intros Hc Hin. destruct (commit_chain_output _ _ _ _ _ _ _ _ _ _ _ Hc Hin) as [-> ->].
  match goal with H : walk_back _ _ ?p _ = _ |- _ =>
    apply (walk_back_linked e Hkeys _ p []) in H as (Hl & pre & Hpre); [|done] end.
  exists (reverse chain). split; [done|]. split; [|done]. by rewrite Hpre, last_snoc.
Qed.

(** ** Restarts *)

Lemma resume_keeps ht b l m :
  b ∈ l -> ht < b_height b -> (forall b', b' ∈ l -> b_hash b' = b_hash b -> b' = b) ->
  foldl (resume_block ht) m l !! b_hash b = Some b.
Proof.
  intros Hin Hh. revert m Hin. induction l as [|x l IH] using rev_ind; intros m Hin Huniq.
  { by apply elem_of_nil in Hin. }
  rewrite foldl_snoc. unfold resume_block at 1.
  destruct (decide (b_hash x = b_hash b)) as [E|Hne].
  - assert (x = b) as -> by (apply Huniq; [apply elem_of_app; right; left|done]).
    replace (ht <? b_height b) with true by lia. apply lookup_insert_eq.
  - assert (foldl (resume_block ht) m l !! b_hash b = Some b) as H.
    { apply IH.
      - apply elem_of_app in Hin as [?|Hin]; [done|]. apply list_elem_of_singleton in Hin. congruence.
      - intros b' Hb'. apply Huniq. apply elem_of_app. by left. }
    destruct (_ <? _); [|done]. by rewrite lookup_insert_ne.
Qed.

Section restarts.
Context `{S : Scheme} `{K : Keccak} (cfg : Config).

Lemma restart_committed (e : Engine) :
  e_committed (restart cfg e)
  = if b_height (anchor cfg) <? b_height (e_committed e) then e_committed e else anchor cfg.
Proof.
  unfold restart, resume. cbn [ps_epoch persisted]. rewrite Z.eqb_refl. simpl.
  unfold resume_committed. cbn. by destruct (_ <? _).
Qed.

Lemma restart_block (e : Engine) h b :
  (forall h b, e_blocks e !! h = Some b -> b_hash b = h) ->
  e_blocks e !! h = Some b -> b_height (e_committed e) < b_height b ->
  b_height (e_committed (restart cfg e)) <= b_height (e_committed e) ->
  e_blocks (restart cfg e) !! h = Some b.
Proof.
  intros Hkeys Hb Hh Hle. rewrite restart_committed in Hle.
  assert (forall x, x ∈ ps_blocks (persisted cfg e) <->
    (exists k, e_blocks e !! k = Some x) /\ b_height (e_committed e) < b_height x) as Hps.
  { intros x. unfold persisted. simpl.
    rewrite (merge_sort_Permutation _ _), list_elem_of_In, filter_In, in_map_iff, Z.ltb_lt.
    split.
    - intros [([k x'] & <- & Hx) Hlt]. split; [|done]. exists k.
      by apply list_elem_of_In, elem_of_map_to_list in Hx.
    - intros [[k Hk] Hlt]. split; [|done]. exists (k, x). split; [done|].
      by apply list_elem_of_In, elem_of_map_to_list. }
  unfold restart, resume. cbn [ps_epoch persisted]. rewrite Z.eqb_refl. cbn [negb].
  change (e_blocks _) with
    (foldl (resume_block (b_height (e_committed (resume_committed cfg (persisted cfg e) (new cfg)))))
       (e_blocks (resume_committed cfg (persisted cfg e) (new cfg))) (ps_blocks (persisted cfg e))).
  rewrite <-(Hkeys _ _ Hb). apply resume_keeps.
  - apply Hps. eauto.
  - unfold resume_committed. cbn. destruct (_ <? _); simpl in *; lia.
  - intros b' [[k Hk] _]%Hps E. pose proof (Hkeys _ _ Hk) as E'.
    rewrite E, (Hkeys _ _ Hb) in E'. subst k. congruence.
Qed.
End restarts.

(** C24.  The signatures of an engine follow the protocol's discipline, across any sequence of calls
    and restarts: it never votes for two proposals of one round, votes only for proposals that
    pass the checks of [on_proposal] and the voting rule, and whenever it has voted in a round and
    timed out in that round or a later one, the timeout reports a certificate at least as high as
    the one the proposal it voted for carried. *)
Theorem signing_discipline `{S : Scheme} `{K : Keccak} `{!SchemeLaws S} `{!KeccakLaws K}
    (cfg : Config) (tree_ok ext_ok : BlockInfo -> Prop) (e : Engine)
    (Hcfg : wt_config cfg) (Hsmall : small_committee cfg) (Hanchor : tree_ok (anchor cfg))
    (He : reachable cfg tree_ok ext_ok e) :
  (forall p1 p2, SignedVote p1 ∈ e_signed e -> SignedVote p2 ∈ e_signed e ->
     b_round (p_block p1) = b_round (p_block p2) -> p1 = p2)
  /\ (forall p, SignedVote p ∈ e_signed e ->
        prop_ok cfg p /\ safe_to_vote p = true /\ b_round (p_block p) <= e_last_voted e)
  /\ (forall p r q, SignedVote p ∈ e_signed e -> SignedTimeout r q ∈ e_signed e ->
        b_round (p_block p) <= r -> qc_round (p_qc p) <= qc_round q).
Proof.
  pose proof (reachable_Inv cfg tree_ok ext_ok e Hcfg Hsmall Hanchor He) as HI.
  pose proof (inv_log _ _ _ _ HI) as Hd. split; [|split].
  - intros p1 p2 H1 H2. by apply (disciplined_vote_unique cfg (e_signed e)).
  - intros p Hp. destruct (disciplined_vote_in cfg _ _ Hd Hp). split; [done|]. split; [done|].
    by apply (inv_log_votes _ _ _ _ HI).
  - intros p r q Hp Hr. by apply (disciplined_vote_timeout cfg (e_signed e)).
Qed.

(** An engine only moves forward: no call lowers its round, the last round it voted in, the
    round of its highest certificate or its committed height, reopens a finished epoch or takes
    back a signature. *)
Theorem engine_moves_forward `{S : Scheme} `{K : Keccak} `{!SchemeLaws S} `{!KeccakLaws K}
    (cfg : Config) (tree_ok ext_ok : BlockInfo -> Prop) (n : nat) (i : Input) (e e' : Engine)
    (out : list Action)
    (Hcfg : wt_config cfg) (Hsmall : small_committee cfg) (Hanchor : tree_ok (anchor cfg))
    (He : reachable cfg tree_ok ext_ok e)
    (Hwt : wt_input i) (Hi : tree_input tree_ok ext_ok (fun _ => True) i)
    (Hcall : handle cfg n i e = Done (tt, e', out)) :
  advance e e'.
Proof.
  pose proof (reachable_Inv cfg tree_ok ext_ok e Hcfg Hsmall Hanchor He) as HI.
  eapply mono_advance, Inv_handle; eauto.
Qed.

(** A certificate the engine forms from votes verifies: whenever the vote that completes a set
    of a reachable engine makes [on_vote] build a quorum certificate, every node accepts it,
    although the votes were not all checked one by one. *)
Theorem formed_certificate_verifies `{S : Scheme} `{K : Keccak} `{!SchemeLaws S} `{!KeccakLaws K}
    (cfg : Config) (tree_ok ext_ok : BlockInfo -> Prop) (e : Engine) (v : Vote)
    (set set' : VoteSet) (signers : list ValidatorIndex) (agg : Agg)
    (Hcfg : wt_config cfg) (Hsmall : small_committee cfg) (Hanchor : tree_ok (anchor cfg))
    (He : reachable cfg tree_ok ext_ok e) (Hwt : wt_vote v) (Hr : 0 < v_round v)
    (Hv : v_signer v < ValidatorSet.len (validators cfg))
    (Hadd : vote_set_add (new_vote_set e v) v (vote_bytes cfg v) = Some set)
    (Hcert : vote_set_certify (validators cfg) (vote_bytes cfg v) set
             = (set', Some (signers, agg))) :
  verify_qc cfg (vote_qc cfg v set' signers agg) = true.
Proof.
  pose proof (reachable_Inv cfg tree_ok ext_ok e Hcfg Hsmall Hanchor He) as HI.
  edestruct Inv_votes_some as [_ H]; eauto.
  destruct (H signers agg eq_refl) as [_ Hb]. apply backed_verify; [done| |done].
  unfold is_anchor. simpl. by rewrite andb_comm.
Qed.

(** Timeouts of distinct signers make a certificate that verifies: if [on_timeout_msg] accepted
    each of them and they reach a quorum, the timeout certificate it builds passes
    [Tc::verify]. *)
Theorem timeouts_certify `{S : Scheme} `{K : Keccak} `{!SchemeLaws S} (cfg : Config)
    (e : Engine) (r : Round)
    (t : Timeout) (ts : list Timeout)
    (Hts : Forall (fun t => wt_timeout t /\ t_round t = r /\ timeout_ok cfg e t = true) (t :: ts))
    (Hdistinct : NoDup (map t_signer (t :: ts)))
    (Hq : ValidatorSet.is_quorum (validators cfg)
            (ValidatorSet.weight_of (validators cfg) (btree_keys (ts_entries (collect t ts))))
          = true) :
  verify_tc cfg (make_tc cfg r (collect t ts)) = true.
Proof.
  apply Forall_cons in Hts as [(Hwt & Hr & Ht) Hts]. subst r.
  apply NoDup_cons in Hdistinct as [Hnew Hnd].
  set (set0 := mkTimeoutSet ∅ (t_high_qc t) false).
  assert (timeout_set_ok cfg (t_round t) (timeout_set_add t set0)) as Hok.
  { eapply timeout_set_add_ok; [done|done|].
    assert (set0 = new_timeout_set (set_timeouts ∅ e) t) as ->
      by (unfold new_timeout_set; simpl; by rewrite lookup_empty).
    eapply new_timeout_set_ok; [|done|done]. simpl. intros r set. by rewrite lookup_empty. }
  assert (Forall (fun t' => ts_entries (timeout_set_add t set0) !! t_signer t' = None) ts) as Hno.
  { apply Forall_forall. intros t' Ht'. simpl. apply lookup_insert_None. split; [done|].
    intros E. apply Hnew. rewrite E. apply list_elem_of_In, in_map, list_elem_of_In, Ht'. }
  assert (reports_max (timeout_set_add t set0)) as Hmax0 by (by apply reports_max_first).
  destruct (collect_from cfg e (t_round t) ts _ Hok Hmax0 Hts Hnd Hno) as [Hok' Hmax].
  exact (make_tc_verifies cfg (t_round t) _ Hok' Hmax Hq).
Qed.

Lemma reachable_above `{S : Scheme} `{K : Keccak} `{!SchemeLaws S} `{!KeccakLaws K}
    (cfg : Config) (tree_ok ext_ok : BlockInfo -> Prop) (e : Engine) :
  wt_config cfg -> small_committee cfg -> tree_ok (anchor cfg) ->
  reachable cfg tree_ok ext_ok e -> b_height (anchor cfg) <= b_height (e_committed e).
Proof.
  intros Hcfg Hsmall Ha. induction 1 as [|n i e e' out He IH Hwt Hi Hh|e He IH]; [done| |].
  - pose proof (reachable_Inv cfg tree_ok ext_ok e Hcfg Hsmall Ha He) as HI.
    edestruct Inv_handle as [_ [[] _]]; eauto. lia.
  - rewrite restart_committed. destruct (_ <? _); lia.
Qed.

(** What the engine reports final is a chain: when [try_commit] emits [Commit blocks], the
    blocks are those up to the epoch's end height of a chain of parent links that starts at the
    block committed before, ends at the one committed now, and leaves nothing out. *)
Theorem committed_blocks_chain `{S : Scheme} `{K : Keccak} (cfg : Config)
    (tree_ok ext_ok : BlockInfo -> Prop) (qc : Qc) (e e' : Engine) (out : list Action)
    (blocks : list BlockInfo) (proof : CommitProof)
    (HI : Inv cfg tree_ok ext_ok e)
    (Hcall : try_commit cfg qc e = Done (tt, e', out))
    (Hout : Commit blocks proof ∈ out) :
  exists chain, linked (b_hash (e_committed e)) chain /\ last chain = Some (e_committed e')
    /\ blocks = List.filter (fun x => b_height x <=? end_height cfg) chain.
Proof.
  eapply try_commit_output; [|exact Hcall|exact Hout].
  intros h b Hb. by apply (inv_blocks _ _ _ _ HI).
Qed.

(** C26.  A restart keeps what safety and liveness need: an engine rebuilt from what it persisted
    has the same last voted round, highest certificate and committed block (the anchor, if nothing
    was committed), knows every block it knew above it, and continues from the round of its
    last vote or certificate. *)
Theorem restart_keeps `{S : Scheme} `{K : Keccak} `{!SchemeLaws S} `{!KeccakLaws K}
    (cfg : Config) (tree_ok ext_ok : BlockInfo -> Prop) (e : Engine)
    (Hcfg : wt_config cfg) (Hsmall : small_committee cfg) (Hanchor : tree_ok (anchor cfg))
    (He : reachable cfg tree_ok ext_ok e) :
  let e' := resume cfg (persisted cfg e) in
  e_last_voted e' = e_last_voted e /\ e_high_qc e' = e_high_qc e
  /\ e_round e' = Z.max (high_round e) (e_last_voted e)
  /\ b_height (e_committed e') = b_height (e_committed e)
  /\ (b_height (anchor cfg) < b_height (e_committed e) -> e_committed e' = e_committed e)
  /\ (forall h b, e_blocks e !! h = Some b -> b_height (e_committed e) < b_height b ->
      e_blocks e' !! h = Some b).
Proof.
  pose proof (reachable_Inv cfg tree_ok ext_ok e Hcfg Hsmall Hanchor He) as HI.
  pose proof (reachable_above cfg tree_ok ext_ok e Hcfg Hsmall Hanchor He) as Hab.
  cbv zeta.
  pose proof (restart_committed cfg e) as Hc.
  change (e_committed (restart cfg e)) with (e_committed (resume cfg (persisted cfg e))) in Hc.
  assert (b_height (e_committed (resume cfg (persisted cfg e))) = b_height (e_committed e)) as Hh.
  { rewrite Hc. destruct (Z.ltb_spec (b_height (anchor cfg)) (b_height (e_committed e))); lia. }
  split; [|split; [|split; [|split; [exact Hh|split]]]].
  1,2,3: unfold resume; cbn [ps_epoch persisted]; rewrite Z.eqb_refl; reflexivity.
  - intros Hlt. rewrite Hc. by replace (_ <? _) with true by lia.
  - intros h b Hb Hgt. change (e_blocks (restart cfg e) !! h = Some b).
    apply restart_block; [|done|done|unfold restart; simpl; lia].
    intros k x Hk. by apply (inv_blocks _ _ _ _ HI).
Qed.

(** ** Witnesses *)
Module PropsWitness.
Import Toy.

Ltac computes := apply (bool_decide_unpack _); by vm_compute.

Section poisoned.
Import Poisoned.
Definition voter : Engine := n_engine n0.

Lemma voter_reachable :
  reachable (with_me cfg [0]) (fun _ => True) (fun _ => False) voter.
Proof. by apply four_reachable. Qed.

(** Node 0 of the scenario signed three votes, a proposal and two timeouts. *)
Lemma signing_discipline_witness :
  length (e_signed voter) = 6%nat
  /\ forall p1 p2, SignedVote p1 ∈ e_signed voter -> SignedVote p2 ∈ e_signed voter ->
     b_round (p_block p1) = b_round (p_block p2) -> p1 = p2.
Proof.
  split; [vm_compute; reflexivity|].
  destruct (signing_discipline (with_me cfg [0]) (fun _ => True) (fun _ => False) voter)
    as [H _]; [unfold wt_config; computes|by vm_compute|done|apply voter_reachable|exact H].
Defined.

Definition timeout_of (i : Z) : Timeout :=
  mkTimeout 0 1 qc0 i (i, timeout_msg 1 0 1 0) None.

Lemma timeouts_certify_witness :
  verify_tc cfg (make_tc cfg 1 (collect (timeout_of 0) [timeout_of 2; timeout_of 3])) = true.
Proof.
  apply (timeouts_certify cfg (new cfg) 1 (timeout_of 0) [timeout_of 2; timeout_of 3]).
  - computes.
  - computes.
  - by vm_compute.
Defined.
End poisoned.

Section normal.
Import Normal.
Definition cfg0 : Config := with_me (Four.cfg ss 1000) [0].
Definition calls : list Input := [IStart; pA; IValidated 1801 true; pB; IValidated 1802 true].
(** Node 0 before the proposal of round 3 finalises A. *)
Definition before : Engine := engine 0 calls.

Lemma engine_reachable i l :
  reachable (with_me (Four.cfg ss 1000) [i]) (in_tree tree) (fun _ => False) (engine i l).
Proof. apply four_reachable. intros b Hb. by apply bool_decide_eq_true in Hb. Qed.

Lemma cfg_wt i : in_range 16 i -> wt_config (with_me (Four.cfg ss 1000) [i]).
Proof.
  intros Hi. split; [computes|]. split; [computes|]. split; [computes|]. split; [done|].
  split; [computes|]. apply Forall_cons_2; [done|constructor].
Qed.

Lemma range0 : in_range 16 0.
Proof. by split. Qed.
Lemma range2 : in_range 16 2.
Proof. by split. Qed.

Lemma engine_moves_forward_witness :
  exists e' out, handle cfg0 40 pC before = Done (tt, e', out)
    /\ b_hash (e_committed e') = 1801 /\ advance before e'.
Proof.
  assert (match handle cfg0 40 pC before with
          | Done (_, e', _) => b_hash (e_committed e') =? 1801
          | _ => false end = true) as E by (vm_compute; reflexivity).
  destruct (handle cfg0 40 pC before) as [[[[] e'] out]| |] eqn:Eh; [|discriminate E..].
  exists e', out. split; [reflexivity|]. split; [exact (proj1 (Z.eqb_eq _ _) E)|].
  apply (engine_moves_forward cfg0 (in_tree tree) (fun _ => False) 40 pC before e' out).
  - exact (cfg_wt 0 range0).
  - vm_compute. discriminate.
  - exact eq_refl.
  - apply engine_reachable.
  - apply (bool_decide_unpack _). vm_compute. exact I.
  - exact eq_refl.
  - exact Eh.
Defined.

Lemma committed_blocks_chain_witness :
  exists e' out proof chain,
    try_commit cfg0 qc2 before = Done (tt, e', out) /\ Commit [A] proof ∈ out
    /\ linked 100 chain /\ last chain = Some (e_committed e').
Proof.
  assert (match try_commit cfg0 qc2 before with
          | Done (_, _, [Commit l _]) => bool_decide (l = [A])
          | _ => false end = true) as E by (vm_compute; reflexivity).
  destruct (try_commit cfg0 qc2 before) as [[[[] e'] out]| |] eqn:Eh; [|discriminate E..].
  destruct out as [|[| | | |l proof| | |] [|]]; try discriminate E.
  apply bool_decide_eq_true in E as ->.
  destruct (committed_blocks_chain cfg0 (in_tree tree) (fun _ => False) qc2 before e'
    [Commit [A] proof] [A] proof) as (chain & H1 & H2 & _).
  - apply reachable_Inv;
      [exact (cfg_wt 0 range0)|vm_compute; discriminate|exact eq_refl|apply engine_reachable].
  - exact Eh.
  - left.
  - exists e', [Commit [A] proof], proof, chain.
    split; [reflexivity|]. split; [left|]. split; [|exact H2].
    replace 100 with (b_hash (e_committed before)) by (vm_compute; reflexivity). exact H1.
Defined.

Lemma restart_keeps_witness :
  let e := engine 0 (calls ++ [pC]) in
  e_committed (resume cfg0 (persisted cfg0 e)) = A
  /\ e_last_voted (resume cfg0 (persisted cfg0 e)) = 2.
Proof.
  destruct (restart_keeps cfg0 (in_tree tree) (fun _ => False) (engine 0 (calls ++ [pC])))
    as (Hv & _ & _ & _ & Hc & _);
    [exact (cfg_wt 0 range0)|by vm_compute|exact eq_refl|apply engine_reachable|].
  cbv zeta in *. split.
  - rewrite Hc; [vm_compute; reflexivity|by vm_compute].
  - rewrite Hv. vm_compute. reflexivity.
Defined.

(** Node 2 with the votes of 0 and its own; the vote of 1 completes the certificate. *)
Definition collector : Engine := engine 2 [IStart; pA; IValidated 1801 true; Four.vote made A 0].
Definition last_vote : Vote := mkVote 0 1 1801 1 1 (1, vote_msg 1 0 1 1801).

Lemma formed_certificate_verifies_witness :
  let c := with_me (Four.cfg ss 1000) [2] in
  exists set' signers agg, verify_qc c (vote_qc c last_vote set' signers agg) = true
    /\ signers = [0; 1; 2].
Proof.
  cbv zeta. set (c := with_me (Four.cfg ss 1000) [2]).
  destruct (vote_set_add (new_vote_set collector last_vote) last_vote (vote_bytes c last_vote))
    as [set|] eqn:Ea.
  2:{ assert (is_Some (vote_set_add (new_vote_set collector last_vote) last_vote
                         (vote_bytes c last_vote))) as [x Hx] by computes. congruence. }
  assert (match vote_set_add (new_vote_set collector last_vote) last_vote
                  (vote_bytes c last_vote) with
          | Some set => match vote_set_certify (validators c) (vote_bytes c last_vote) set with
                        | (_, Some (l, _)) => bool_decide (l = [0; 1; 2])
                        | _ => false end
          | None => false end = true) as E by (vm_compute; reflexivity).
  rewrite Ea in E.
  destruct (vote_set_certify (validators c) (vote_bytes c last_vote) set)
    as [set' [[signers agg]|]] eqn:Ec; [|discriminate E].
  apply bool_decide_eq_true in E.
  exists set', signers, agg. split; [|exact E].
  apply (formed_certificate_verifies c (in_tree tree) (fun _ => False) collector last_vote set
           set' signers agg).
  - exact (cfg_wt 2 range2).
  - vm_compute. discriminate.
  - exact eq_refl.
  - apply engine_reachable.
  - apply (bool_decide_unpack _). vm_compute. exact I.
  - reflexivity.
  - reflexivity.
  - exact Ea.
  - exact Ec.
Defined.
End normal.
End PropsWitness.
