(* ===== verification/CommitProofs.v ===== *)
(** * Finality proofs

    What a verifier that only holds the committee of an epoch learns from a [CommitProof]
    (crates/consensus/src/types.rs, [CommitProof::verify]): blocks two verified proofs name are
    on one branch.  The verifier sees headers and hashes only, so the theorem states what it
    relies on: a header names the parent of the block it hashes to, and so does a nil hash. *)

From S2P Require Import Prelude Types TypesFacts Engine EngineInv EngineVotes EngineSafety.
From S2P Require Import EngineAgreement EngineExamples.
From stdpp Require Import base list list_numbers sorting gmap strings relations.
From Stdlib Require Import ZArith Lia.

Open Scope Z_scope.

(** Paths of a deterministic relation from one point are ordered. *)
Lemma rtc_linear {A} (R : relation A) x y z :
  (forall a b c, R a b -> R a c -> b = c) -> rtc R x y -> rtc R x z -> rtc R y z \/ rtc R z y.
Proof.
  intros Hd H. revert z. induction H as [x|x x' y Hxx' Hx'y IH]; intros z Hz; [by left|].
  inversion Hz as [|? x'' ? Hxx'' Hx''z]; subst.
  - right. by eapply rtc_l.
  - rewrite (Hd _ _ _ Hxx'' Hxx') in Hx''z. auto.
Qed.

Section proofs.
Context `{S : Scheme} `{K : Keccak} `{HC : HeaderCodec} {L : SchemeLaws S} {HK : KeccakLaws K}.
Context (cfg : Config) (tree : B256 -> option (B256 * Round)) (nodes : list Node).

(** What hashes commit to. *)
Record hash_binding : Prop := {
  hb_header hdr v p r : decode_header hdr = Some v -> tree (keccak256 hdr) = Some (p, r) ->
    h_parent_hash v = p;
  hb_nil p r p' r' : tree (nil_hash (epoch cfg) p r) = Some (p', r') -> p' = p;
  hb_anchor p r : nil_hash (epoch cfg) p r <> b_hash (anchor cfg);
}.

Context (Hsys : system cfg tree nodes) (Hb : hash_binding).

Abbreviation certified := (certified cfg).
Abbreviation extends := (extends tree).

Lemma extends_linear h a b : extends h a -> extends h b -> extends a b \/ extends b a.
Proof.
  apply rtc_linear. intros x y z [r1 E1] [r2 E2]. congruence.
Qed.

(** The parent of a certified block has an acceptable certificate of its own. *)
Lemma certified_parent q :
  certified q -> exists q', qc_ok cfg q' /\ tree (qc_block q) = Some (qc_block q', qc_round q).
Proof.
  intros Hq. destruct (certified_vote _ _ _ Hsys q Hq) as (nd & p & Hv).
  destruct (vote_parent _ _ _ Hsys nd p q Hv) as (Hok & Ht & _). eauto.
Qed.

(** Two certificates of consecutive rounds over a block and its child make the block final. *)
Lemma consecutive_final q cq :
  qc_ok cfg q -> qc_ok cfg cq -> is_anchor q = false -> is_anchor cq = false ->
  qc_round cq = u64 (qc_round q + 1) ->
  (forall p r, tree (qc_block cq) = Some (p, r) -> p = qc_block q) ->
  exists c, two_chain cfg tree c /\ b_hash c = qc_block q.
Proof.
  intros Hq Hcq Ha Hca Hr Hpar.
  destruct (certified_parent q (conj Hq Ha)) as (q' & [Hwt' _] & Ht).
  destruct (certified_parent cq (conj Hcq Hca)) as (q'' & _ & Htc).
  pose proof (Hpar _ _ Htc) as E. rewrite E in Htc.
  pose proof Hq as [(_ & Hqr & Hqb & _) _]. pose proof Hcq as [(_ & Hcr & Hcb & _) _].
  destruct Hwt' as (_ & _ & Hb' & _).
  exists (mkBlock (qc_block q) (qc_block q') (qc_round q) 0). split; [|done].
  exists (mkBlock (qc_block cq) (qc_block q) (qc_round cq) 0), cq.
  assert (in_range 64 0) by (by split). unfold wt_block.
  repeat (split; [done|]). done.
Qed.

(** The chain of nil blocks the verifier rebuilds. *)
Definition nil_chain (c : B256) (l : list Round) : B256 :=
  snd (foldl (nil_step (epoch cfg)) (c, c) l).

Lemma nil_chain_snoc c l r :
  foldl (nil_step (epoch cfg)) (c, c) (l ++ [r])
  = (nil_chain c l, nil_hash (epoch cfg) (nil_chain c l) r).
Proof. by rewrite foldl_snoc. Qed.

Lemma nil_chain_extends c l q :
  qc_ok cfg q -> qc_block q = nil_chain c l -> extends (qc_block q) c.
Proof.
  revert q. induction l as [|r l IH] using rev_ind; intros q Hq E; [rewrite E; constructor|].
  unfold nil_chain in E. rewrite nil_chain_snoc in E. cbn [snd] in E.
  destruct (ok_anchor_or_certified _ q Hq) as [Hc|[_ Ea]].
  - destruct (certified_parent q Hc) as (q' & Hq' & Ht).
    pose proof Ht as Ht'. rewrite E in Ht'. apply (hb_nil Hb) in Ht'.
    eapply rtc_l; [by eexists|]. by apply IH.
  - exfalso. rewrite E in Ea. by apply (hb_anchor Hb) in Ea.
Qed.

Lemma verified_certs p :
  qc_epoch (cp_qc p) = epoch cfg -> wt_qc (cp_qc p) -> wt_qc (cp_child_qc p) ->
  qc_round (cp_qc p) < U64_MAX ->
  CommitProof_certs_ok (validators cfg) (chain_id cfg) (b_hash (anchor cfg)) p = true ->
  qc_ok cfg (cp_qc p) /\ qc_ok cfg (cp_child_qc p) /\ is_anchor (cp_qc p) = false
  /\ is_anchor (cp_child_qc p) = false
  /\ qc_round (cp_child_qc p) = u64 (qc_round (cp_qc p) + 1).
Proof.
  intros He Hq Hc Hr. unfold CommitProof_certs_ok. rewrite He, !andb_true_iff.
  intros [[[[[E%Z.eqb_eq _] _] Ha%negb_true_iff] V1] V2].
  pose proof (verify_qc_ok cfg _ Hq V1). pose proof (verify_qc_ok cfg _ Hc V2).
  do 3 (split; [done|]). split; [|done]. unfold is_anchor. rewrite E, wrap_u64_succ.
  - pose proof Hq as (_ & [? _] & _).
    destruct (Z.eqb_spec (qc_round (cp_qc p) + 1) 0); [lia|done].
  - split; [apply Hq|done].
Qed.

(** A verified proof names a final block, or an ancestor of one. *)
Lemma verified_final p c :
  qc_epoch (cp_qc p) = epoch cfg -> wt_qc (cp_qc p) -> wt_qc (cp_child_qc p) ->
  qc_round (cp_qc p) < U64_MAX ->
  CommitProof_verify (validators cfg) (chain_id cfg) (b_hash (anchor cfg)) p = Some c ->
  exists f, two_chain cfg tree f /\ extends (b_hash f) c.
Proof.
  intros He Hq Hc Hr. unfold CommitProof_verify. rewrite He.
  destruct (CommitProof_certs_ok _ _ _ p) eqn:Ec; [|done]. cbn [negb].
  destruct (verified_certs p He Hq Hc Hr Ec) as (Oq & Oc & Aq & Ac & Er).
  case_bool_decide as Hn.
  - destruct (decode_header _) as [v|] eqn:Ed; [|done]. destruct (_ && _) eqn:E; [|done].
    intros [= <-]. rewrite !andb_true_iff in E.
    destruct E as [[[[Eh%Z.eqb_eq Ep%Z.eqb_eq] _] Ecm%Z.eqb_eq] _].
    destruct (consecutive_final _ _ Oq Oc Aq Ac Er) as (f & Hf & Eb).
    + intros p0 r Ht. rewrite <-Eh in Ht. pose proof (hb_header Hb _ _ _ _ Ed Ht). congruence.
    + exists f. split; [done|]. rewrite Eb, Ecm. constructor.
  - destruct (cp_nil_rounds p) as [|r l _] eqn:El using rev_ind; [done|].
    rewrite nil_chain_snoc, last_snoc.
    destruct (_ && _) eqn:E; [|done]. intros [= <-]. rewrite !andb_true_iff in E.
    destruct E as [[[Ecur%Z.eqb_eq Eprev%Z.eqb_eq] _] _].
    destruct (consecutive_final _ _ Oq Oc Aq Ac Er) as (f & Hf & Eb).
    + intros p0 r0 Ht. rewrite <-Ecur in Ht. apply (hb_nil Hb) in Ht. congruence.
    + exists f. split; [done|]. rewrite Eb.
      apply (nil_chain_extends _ l); [done|]. by rewrite <-Eprev.
Qed.
End proofs.

(** C25.  Finality proofs agree.  In a system of honest nodes that run the engine on any well-typed
    messages, also on proposals that give a hash a wrong parent, where the seats of no honest node
    weigh at most a third of the committee, signatures of honest seats are not forged, honest nodes
    vote and propose only blocks whose hash stands for their parent and round, and headers and nil
    hashes bind the parent: if two [CommitProof]s of the epoch whose certificates have bitmaps of at
    most 2^16 bits ([wt_qc]; the code does not check it, [LongBitmap]) and rounds below [U64_MAX] verify
    against its committee and anchor, the blocks they prove final are on one branch, whoever made
    the proofs, also at the epoch's end where the certificates are over nil blocks. *)
Theorem commit_proofs_agree `{S : Scheme} `{K : Keccak} `{HeaderCodec} `{!SchemeLaws S}
    `{!KeccakLaws K} (cfg : Config) (tree : B256 -> option (B256 * Round)) (nodes : list Node)
    (p1 p2 : CommitProof) (c1 c2 : B256)
    (Hsys : system cfg tree nodes) (Hb : hash_binding cfg tree)
    (He : Forall (fun p => qc_epoch (cp_qc p) = epoch cfg /\ wt_qc (cp_qc p)
                    /\ wt_qc (cp_child_qc p) /\ qc_round (cp_qc p) < U64_MAX) [p1; p2])
    (H1 : CommitProof_verify (validators cfg) (chain_id cfg) (b_hash (anchor cfg)) p1 = Some c1)
    (H2 : CommitProof_verify (validators cfg) (chain_id cfg) (b_hash (anchor cfg)) p2 = Some c2) :
  extends tree c1 c2 \/ extends tree c2 c1.
Proof.
  apply Forall_cons in He as [(E1 & W1 & X1 & R1) He].
  apply Forall_cons in He as [(E2 & W2 & X2 & R2) _].
  destruct (verified_final cfg tree nodes Hsys Hb p1 c1 E1 W1 X1 R1 H1) as (f1 & F1 & P1).
  destruct (verified_final cfg tree nodes Hsys Hb p2 c2 E2 W2 X2 R2 H2) as (f2 & F2 & P2).
  assert (extends tree (b_hash f2) (b_hash f1) \/ extends tree (b_hash f1) (b_hash f2)) as [Hf|Hf].
  { destruct (Z.le_ge_cases (b_round f1) (b_round f2)).
    - by eapply final_blocks_agree.
    - apply or_comm. by eapply final_blocks_agree. }
  - apply (extends_linear tree (b_hash f2)); [|done]. unfold extends in *.
    by transitivity (b_hash f1).
  - apply (extends_linear tree (b_hash f1)); [done|]. unfold extends in *.
    by transitivity (b_hash f2).
Qed.

(** ** Witness *)
Module ProofWitness.
Import Toy Normal.

(** Headers are one byte; a block's hash is the hash of its header. *)
#[export] Instance codec : HeaderCodec := fun hdr =>
  match hdr with
  | [1] => Some {| h_parent_hash := 100; h_number := 1 |}
  | [2] => Some {| h_parent_hash := 1801; h_number := 2 |}
  | [3] => Some {| h_parent_hash := 1802; h_number := 3 |}
  | _ => None
  end.

Lemma binding : hash_binding (Four.cfg ss 1000) tree.
Proof.
  constructor.
  - intros hdr v p r. unfold decode_header, codec. repeat case_match; try done; subst;
      intros [= <-]; vm_compute; congruence.
  - intros p r p' r'. pose proof (nil_long 0 p r) as H. cbn [epoch Four.cfg].
    generalize dependent (nil_hash 0 p r). intros h Hh. unfold tree.
    repeat (case_match; [lia|]). discriminate.
  - intros p r. pose proof (nil_long 0 p r) as H. cbn [epoch Four.cfg anchor b_hash].
    generalize dependent (nil_hash 0 p r). intros h Hh. lia.
Qed.

(** Two proofs of A, by different signers. *)
Definition proof_by (signers : list Z) : CommitProof :=
  mkCommitProof (Four.vote_cert made A signers) (Four.vote_cert made B [0; 1; 2]) [2] [] 1801 1.

Lemma commit_proofs_agree_witness :
  extends tree 1801 1801 \/ extends tree 1801 1801.
Proof.
  apply (commit_proofs_agree (Four.cfg ss 1000) tree nodes (proof_by [0; 1; 2])
           (proof_by [0; 1; 3]) 1801 1801 NormalFacts.normal_system binding).
  - apply Forall_cons_2; [|apply Forall_cons_2; [|constructor]];
      (split; [done|]; split; [|split]; apply (bool_decide_unpack _); by vm_compute).
  - by vm_compute.
  - by vm_compute.
Defined.
End ProofWitness.
