(* ===== verification/Bls.v ===== *)
(** * BLS signatures and the schemes of the engine

    Models crates/primitives/src/bls.rs (the wrappers around the blst library) and the two
    instances of the [Scheme] trait in crates/consensus/src/lib.rs: [BlsScheme] for production and
    [MockScheme] for the simulator.  blst itself is a parameter ([Blst]) with the laws the wrappers
    rely on ([BlstLaws]); from them both schemes satisfy what the engine asks of a
    scheme ([SchemeLaws]). *)

From S2P Require Import Prelude Types.
From stdpp Require Import base list list_numbers sorting gmap strings.
From Stdlib Require Import ZArith Lia.

Open Scope Z_scope.

(** The calls made to blst's [min_pk] module. *)
Class Blst := {
  SecretKey : Type;
  PublicKey : Type;
  Signature : Type;
  key_validate : bytes -> option PublicKey;
  sig_validate : bytes -> option Signature;
  sk_to_pk : SecretKey -> PublicKey;
  sk_sign : SecretKey -> bytes -> bytes -> Signature;         (** message, DST *)
  sig_verify : Signature -> bytes -> bytes -> PublicKey -> bool;  (** message, DST, key *)
  sig_fast_aggregate_verify : Signature -> bytes -> bytes -> list PublicKey -> bool;
  aggregate_sigs : list Signature -> option Signature;
  compress_pk : PublicKey -> bytes;
  compress_sig : Signature -> bytes;
  serialize_pk : PublicKey -> bytes;                          (** x || y, 48 bytes each *)
  serialize_sig : Signature -> bytes;                         (** four times 48 bytes *)
}.

(** Documented behaviour of blst: a compressed signature decodes to itself; an aggregate of
    signatures that verify one by one over a message verifies for their keys, whatever their
    order. *)
Class BlstLaws (B : Blst) := {
  validate_compressed sigs a :
    aggregate_sigs sigs = Some a -> sig_validate (compress_sig a) = Some a;
  aggregate_sound pks m dst sigs a :
    sigs <> [] -> Forall2 (fun p s => sig_verify s m dst p = true) pks sigs ->
    aggregate_sigs sigs = Some a -> sig_fast_aggregate_verify a m dst pks = true;
  aggregate_order a m dst pks pks' :
    pks ≡ₚ pks' -> sig_fast_aggregate_verify a m dst pks = sig_fast_aggregate_verify a m dst pks';
  aggregate_empty : aggregate_sigs [] = None;
}.

Abbreviation BlsPublicKey := bytes (only parsing).
Abbreviation BlsSignature := bytes (only parsing).

Definition SIG_DST : bytes := ascii_bytes "BLS_SIG_BLS12381G2_XMD:SHA-256_SSWU_RO_POP_".
Definition POP_DST : bytes := ascii_bytes "BLS_POP_BLS12381G2_XMD:SHA-256_SSWU_RO_POP_".

(** [iter.map(f).collect::<Option<Vec<_>>>()]. *)
Fixpoint collect_some {A B} (f : A -> option B) (l : list A) : option (list B) :=
  match l with
  | [] => Some []
  | x :: l =>
      match f x, collect_some f l with
      | Some y, Some ys => Some (y :: ys)
      | _, _ => None
      end
  end.

Lemma collect_some_Forall2 {A B} (f : A -> option B) l ys :
  collect_some f l = Some ys <-> Forall2 (fun x y => f x = Some y) l ys.
Proof.
  revert ys. induction l as [|x l IH]; intros ys; simpl.
  - split; [intros [= <-]; constructor|]. by inversion 1.
  - split.
    + destruct (f x) as [y|] eqn:E; [|done]. destruct (collect_some f l) as [ys'|]; [|done].
      intros [= <-]. constructor; [done|]. by apply IH.
    + inversion 1 as [|? y ? ys' Hy Hys]; subst. rewrite Hy. apply IH in Hys. by rewrite Hys.
Qed.

Lemma collect_some_total {A B} (f : A -> option B) l :
  Forall (fun x => is_Some (f x)) l -> is_Some (collect_some f l).
Proof.
  induction 1 as [|x l [y Hy] _ [ys Hys]]; simpl; [by eexists|]. rewrite Hy, Hys. by eexists.
Qed.

Lemma collect_some_perm {A B} (f : A -> option B) l l' ys :
  l ≡ₚ l' -> collect_some f l = Some ys -> exists ys', collect_some f l' = Some ys' /\ ys ≡ₚ ys'.
Proof.
  intros Hp. revert ys. induction Hp as [|x l l' _ IH|x y l|l l1 l2 _ IH1 _ IH2];
    intros ys; simpl.
  - eauto.
  - destruct (f x) as [z|]; [|done]. destruct (collect_some f l) as [zs|]; [|done].
    intros [= <-]. destruct (IH zs eq_refl) as (zs' & -> & Hz). eexists. split; [done|].
    by constructor.
  - destruct (f y) as [b|], (f x) as [a|], (collect_some f l) as [zs|]; try done.
    intros [= <-]. eexists. split; [done|]. constructor.
  - intros H. destruct (IH1 _ H) as (zs & H1 & P1). destruct (IH2 _ H1) as (zs' & H2 & P2).
    exists zs'. split; [done|]. by transitivity zs.
Qed.

Section bls.
Context `{B : Blst}.

Definition public_key (sk : SecretKey) : BlsPublicKey := compress_pk (sk_to_pk sk).

Definition bls_sign (sk : SecretKey) (msg : bytes) : BlsSignature :=
  compress_sig (sk_sign sk msg SIG_DST).

Definition proof_of_possession (sk : SecretKey) : BlsSignature :=
  compress_sig (sk_sign sk (public_key sk) POP_DST).

(** EIP-2537 encodings: coordinates of 48 bytes padded to 64. *)
Definition pad64 (coord : bytes) : bytes := replicate 16 0 ++ coord.
Definition slice (b : bytes) (from n : nat) : bytes := take n (drop from b).

Definition pubkey_point (p : BlsPublicKey) : option bytes :=
  match key_validate p with
  | Some p => let raw := serialize_pk p in Some (pad64 (slice raw 0 48) ++ pad64 (slice raw 48 48))
  | None => None
  end.

Definition signature_point (s : BlsSignature) : option bytes :=
  match sig_validate s with
  | Some s =>
      let raw := serialize_sig s in
      Some (concat (map (fun src => pad64 (slice raw src 48)) [48%nat; 0%nat; 144%nat; 96%nat]))
  | None => None
  end.

Definition is_valid_public_key (p : BlsPublicKey) : bool := bool_decide (is_Some (key_validate p)).

Definition bls_verify (p : BlsPublicKey) (msg : bytes) (s : BlsSignature) : bool :=
  match key_validate p, sig_validate s with
  | Some p, Some s => sig_verify s msg SIG_DST p
  | _, _ => false
  end.

Definition verify_possession (p : BlsPublicKey) (pop : BlsSignature) : bool :=
  match key_validate p, sig_validate pop with
  | Some pk, Some s => sig_verify s p POP_DST pk
  | _, _ => false
  end.

Definition prepare (p : BlsPublicKey) : option PublicKey := key_validate p.

Definition verify_prepared (p : PublicKey) (msg : bytes) (s : BlsSignature) : bool :=
  match sig_validate s with Some s => sig_verify s msg SIG_DST p | None => false end.

Definition fast_aggregate_verify_prepared (pks : list PublicKey) (msg : bytes)
    (agg : BlsSignature) : bool :=
  negb (bool_decide (pks = []))
  && match sig_validate agg with
     | Some s => sig_fast_aggregate_verify s msg SIG_DST pks
     | None => false
     end.

Definition bls_aggregate (sigs : list BlsSignature) : option BlsSignature :=
  match collect_some sig_validate sigs with
  | Some parsed =>
      match aggregate_sigs parsed with Some a => Some (compress_sig a) | None => None end
  | None => None
  end.

Definition fast_aggregate_verify (pks : list BlsPublicKey) (msg : bytes) (agg : BlsSignature)
  : bool :=
  match collect_some key_validate pks with
  | Some parsed =>
      match sig_validate agg with
      | Some s => sig_fast_aggregate_verify s msg SIG_DST parsed
      | None => false
      end
  | None => false
  end.

(** ** [BlsScheme] *)

Record BlsScheme := mkBlsScheme {
  bs_keys : list BlsPublicKey;
  bs_prepared : list (option PublicKey);
  bs_secrets : gmap ValidatorIndex SecretKey;
}.

(** The indices at which [sk]'s public key stands get [sk]; later keys overwrite earlier ones. *)
Definition insert_secret (keys : list BlsPublicKey) (m : gmap ValidatorIndex SecretKey)
    (sk : SecretKey) : gmap ValidatorIndex SecretKey :=
  foldl (fun m '(i, k) => if bool_decide (k = public_key sk) then <[u16 (Z.of_nat i) := sk]> m
                          else m)
    m (imap (fun i k => (i, k)) keys).

Definition BlsScheme_new (keys : list BlsPublicKey) (local : list SecretKey) : BlsScheme :=
  mkBlsScheme keys (map prepare keys) (foldl (insert_secret keys) ∅ local).

Definition BlsScheme_signers (s : BlsScheme) : list ValidatorIndex :=
  sort_unstable (map fst (map_to_list (bs_secrets s))).

Definition BlsScheme_key (s : BlsScheme) (i : ValidatorIndex) : option BlsPublicKey :=
  bs_keys s !! Z.to_nat i.

(** [self.prepared.get(i).and_then(Option::as_ref)]. *)
Definition prepared_key (s : BlsScheme) (i : ValidatorIndex) : option PublicKey :=
  match bs_prepared s !! Z.to_nat i with Some o => o | None => None end.

(** Signing for an index without a local key aborts ([expect]). *)
Definition BlsScheme_sign (s : BlsScheme) (me : ValidatorIndex) (msg : bytes)
  : outcome BlsSignature :=
  match bs_secrets s !! me with Some sk => Done (bls_sign sk msg) | None => Panic end.

Definition BlsScheme_verify (s : BlsScheme) (signer : ValidatorIndex) (msg : bytes)
    (sig : BlsSignature) : bool :=
  match prepared_key s signer with Some pk => verify_prepared pk msg sig | None => false end.

Definition BlsScheme_verify_aggregate (s : BlsScheme) (signers : list ValidatorIndex)
    (msg : bytes) (agg : BlsSignature) : bool :=
  match collect_some (prepared_key s) signers with
  | Some pks => fast_aggregate_verify_prepared pks msg agg
  | None => false
  end.

(** The engine signs for its configured seats only, which the node takes from [signers]; elsewhere
    the value is irrelevant. *)
Definition bls_scheme (s : BlsScheme) : Scheme := {|
  Sig := BlsSignature;
  Agg := BlsSignature;
  sign i m := match BlsScheme_sign s i m with Done x => x | _ => [] end;
  verify := BlsScheme_verify s;
  aggregate := bls_aggregate;
  verify_aggregate := BlsScheme_verify_aggregate s;
|}.

Context `{!BlstLaws B}.

(** Signatures that verify one by one parse, and so do their keys. *)
Lemma verified_parts s signers m sigs :
  Forall2 (fun i x => BlsScheme_verify s i m x = true) signers sigs ->
  exists pks parsed, collect_some (prepared_key s) signers = Some pks
    /\ collect_some sig_validate sigs = Some parsed
    /\ Forall2 (fun p x => sig_verify x m SIG_DST p = true) pks parsed.
Proof.
  induction 1 as [|i x signers sigs Hx _ (pks & parsed & E1 & E2 & H)]; simpl.
  - by exists [], [].
  - unfold BlsScheme_verify, verify_prepared in Hx.
    destruct (prepared_key s i) as [pk|]; [|done]. destruct (sig_validate x) as [y|]; [|done].
    rewrite E1, E2. exists (pk :: pks), (y :: parsed). split; [done|]. split; [done|].
    by constructor.
Qed.

Lemma aggregate_parsed sigs parsed a pks m :
  collect_some sig_validate sigs = Some parsed -> bls_aggregate sigs = Some a ->
  Forall2 (fun p x => sig_verify x m SIG_DST p = true) pks parsed ->
  exists x, sig_validate a = Some x /\ sig_fast_aggregate_verify x m SIG_DST pks = true
    /\ pks <> [].
Proof.
  intros E Ha H. unfold bls_aggregate in Ha. rewrite E in Ha.
  destruct (aggregate_sigs parsed) as [x|] eqn:Ex; [|done]. injection Ha as <-.
  assert (parsed <> []) as Hne by (intros ->; by rewrite aggregate_empty in Ex).
  exists x. split; [by eapply validate_compressed|].
  split; [by eapply aggregate_sound|]. intros ->. by inversion H; subst.
Qed.

#[export] Instance bls_scheme_laws s : SchemeLaws (bls_scheme s).
Proof.
  intros signers m sigs a H Ha. simpl in *.
  destruct (verified_parts s signers m sigs H) as (pks & parsed & E1 & E2 & Hp).
  destruct (aggregate_parsed sigs parsed a pks m E2 Ha Hp) as (x & Hx & Hv & Hne).
  unfold BlsScheme_verify_aggregate, fast_aggregate_verify_prepared. rewrite E1, Hx, Hv.
  by rewrite bool_decide_eq_false_2.
Qed.
End bls.

(** ** [MockScheme] *)
Section mock.
Context `{K : Keccak}.

Definition mock_sig (signer : ValidatorIndex) (msg : bytes) : B256 :=
  keccak256 (be_bytes 2 signer ++ msg).

Definition mock_scheme : Scheme := {|
  Sig := B256;
  Agg := list B256;
  sign := mock_sig;
  verify i m s := mock_sig i m =? s;
  aggregate sigs := Some sigs;
  verify_aggregate signers m a :=
    Nat.eqb (length signers) (length a)
    && forallb (fun '(s, x) => mock_sig s m =? x) (zip signers a);
|}.

#[export] Instance mock_scheme_laws : SchemeLaws mock_scheme.
Proof.
  intros signers m sigs a H [= <-]. simpl in *. apply andb_true_iff.
  induction H as [|i s signers sigs Hs _ [IH1 IH2]]; [done|]. simpl. by rewrite Hs.
Qed.
End mock.
