(* ===== verification/AuditCerts.v ===== *)
(** * Panel votes and certificates

    Models crates/consensus/src/audit.rs: votes of a panel on storage audits, compute verdicts and
    TEE attestations, their aggregation into certificates and the verification of both.  The
    three kinds share their shape; what they share is [panel_members], [panel_quorum] and
    [panel_verify].  dag-cbor encodings are left to the serializer. *)

From S2P Require Import Prelude Types TypesFacts EngineInv EngineVotes Bls.
From stdpp Require Import base list list_numbers sorting gmap strings.
From Stdlib Require Import ZArith Lia.

Open Scope Z_scope.

Definition bool_byte (b : bool) : bytes := [if b then 1 else 0].

Definition audit_msg (chain_id epoch task : Z) (passed : bool) : bytes :=
  ascii_bytes "boltchain/audit/v1" ++ be_bytes 8 chain_id ++ be_bytes 8 epoch
  ++ be_bytes 2 task ++ bool_byte passed.

Definition verdict_msg (chain_id epoch job : Z) (at_fault : bool) : bytes :=
  ascii_bytes "boltchain/verdict/v1" ++ be_bytes 8 chain_id ++ be_bytes 8 epoch
  ++ be_bytes 8 job ++ bool_byte at_fault.

Definition attest_msg (chain_id epoch request : Z) (ok : bool) (machine : bytes) : bytes :=
  ascii_bytes "boltchain/attest/v1" ++ be_bytes 8 chain_id ++ be_bytes 8 epoch
  ++ be_bytes 8 request ++ bool_byte ok ++ machine.

(** [m.try_into::<[u8; 32]>().ok()]. *)
Definition machine32 (m : bytes) : option bytes :=
  if Nat.eqb (length m) 32 then Some m else None.

Record AuditVote := mkAuditVote {
  av_epoch : Z; av_task : Z; av_passed : bool; av_member : Z; av_sig : BlsSignature }.

Record AuditCert := mkAuditCert {
  ac_epoch : Z; ac_task : Z; ac_passed : bool; ac_signers : bytes; ac_sig : BlsSignature }.

Record VerdictVote := mkVerdictVote {
  vv_epoch : Z; vv_job : Z; vv_fault : bool; vv_member : Z; vv_sig : BlsSignature }.

Record VerdictCert := mkVerdictCert {
  vc_epoch : Z; vc_job : Z; vc_fault : bool; vc_signers : bytes; vc_sig : BlsSignature }.

Record AttestVote := mkAttestVote {
  tv_epoch : Z; tv_request : Z; tv_ok : bool; tv_machine : bytes; tv_member : Z;
  tv_sig : BlsSignature }.

Record AttestCert := mkAttestCert {
  tc_cert_epoch : Z; tc_request : Z; tc_ok : bool; tc_machine : bytes; tc_signers : bytes;
  tc_cert_sig : BlsSignature }.

Section panel.
Context `{B : Blst}.

(** ** What the three kinds share *)

(** The members in ascending order, if they are distinct and more than two thirds of [n]. *)
Definition panel_members (members : list Z) (n : nat) : option (list Z) :=
  let sorted := dedup (sort_unstable members) in
  if negb (Nat.eqb (length sorted) (length members))
     || (Z.of_nat (length sorted) * 3 <=? Z.of_nat n * 2) then None
  else Some sorted.

(** The signers of a bitmap, if they are more than two thirds of the panel and all in it. *)
Definition panel_quorum (signers : bytes) (n : nat) : option (list Z) :=
  let l := Bitmap.decode signers in
  if (Z.of_nat (length l) * 3 <=? Z.of_nat n * 2) || existsb (fun i => Z.of_nat n <=? i) l then None
  else Some l.

(** The keys of the signers; the indices are in range here. *)
Definition panel_keys (panel : list BlsPublicKey) (l : list Z) : list BlsPublicKey :=
  omap (fun i => panel !! Z.to_nat i) l.

Definition panel_verify (signers msg : bytes) (sig : BlsSignature) (panel : list BlsPublicKey)
  : bool :=
  match panel_quorum signers (length panel) with
  | Some l => fast_aggregate_verify (panel_keys panel l) msg sig
  | None => false
  end.

(** One member's signature. *)
Definition member_verify (member : Z) (msg : bytes) (sig : BlsSignature)
    (panel : list BlsPublicKey) : bool :=
  match panel !! Z.to_nat member with Some pk => bls_verify pk msg sig | None => false end.

(** ** Storage audits *)

Definition AuditVote_sign (key : SecretKey) (chain_id epoch task : Z) (passed : bool) (member : Z)
  : AuditVote :=
  mkAuditVote epoch task passed member (bls_sign key (audit_msg chain_id epoch task passed)).

Definition AuditVote_verify (v : AuditVote) (chain_id : Z) (panel : list BlsPublicKey) : bool :=
  member_verify (av_member v) (audit_msg chain_id (av_epoch v) (av_task v) (av_passed v)) (av_sig v)
    panel.

Definition AuditCert_aggregate (votes : list AuditVote) (n : nat) : option AuditCert :=
  match votes with
  | [] => None
  | first :: _ =>
      if existsb (fun v => negb (av_epoch v =? av_epoch first) || negb (av_task v =? av_task first)
                           || negb (Bool.eqb (av_passed v) (av_passed first))) votes then None
      else
        match panel_members (map av_member votes) n with
        | None => None
        | Some members =>
            match bls_aggregate (map av_sig votes) with
            | None => None
            | Some sig => Some (mkAuditCert (av_epoch first) (av_task first) (av_passed first)
                                  (Bitmap.encode members n) sig)
            end
        end
  end.

Definition AuditCert_verify (c : AuditCert) (chain_id : Z) (panel : list BlsPublicKey) : bool :=
  panel_verify (ac_signers c) (audit_msg chain_id (ac_epoch c) (ac_task c) (ac_passed c)) (ac_sig c)
    panel.

(** ** Compute verdicts *)

Definition VerdictVote_sign (key : SecretKey) (chain_id epoch job : Z) (fault : bool) (member : Z)
  : VerdictVote :=
  mkVerdictVote epoch job fault member (bls_sign key (verdict_msg chain_id epoch job fault)).

Definition VerdictVote_verify (v : VerdictVote) (chain_id : Z) (panel : list BlsPublicKey)
  : bool :=
  member_verify (vv_member v) (verdict_msg chain_id (vv_epoch v) (vv_job v) (vv_fault v)) (vv_sig v)
    panel.

Definition VerdictCert_aggregate (votes : list VerdictVote) (n : nat) : option VerdictCert :=
  match votes with
  | [] => None
  | first :: _ =>
      if existsb (fun v => negb (vv_epoch v =? vv_epoch first) || negb (vv_job v =? vv_job first)
                           || negb (Bool.eqb (vv_fault v) (vv_fault first))) votes then None
      else
        match panel_members (map vv_member votes) n with
        | None => None
        | Some members =>
            match bls_aggregate (map vv_sig votes) with
            | None => None
            | Some sig => Some (mkVerdictCert (vv_epoch first) (vv_job first) (vv_fault first)
                                  (Bitmap.encode members n) sig)
            end
        end
  end.

Definition VerdictCert_verify (c : VerdictCert) (chain_id : Z) (panel : list BlsPublicKey) : bool :=
  panel_verify (vc_signers c) (verdict_msg chain_id (vc_epoch c) (vc_job c) (vc_fault c)) (vc_sig c)
    panel.

(** ** Attestations *)

Definition AttestVote_sign (key : SecretKey) (chain_id epoch request : Z) (ok : bool)
    (machine : bytes) (member : Z) : AttestVote :=
  mkAttestVote epoch request ok machine member
    (bls_sign key (attest_msg chain_id epoch request ok machine)).

Definition AttestVote_verify (v : AttestVote) (chain_id : Z) (panel : list BlsPublicKey) : bool :=
  match machine32 (tv_machine v) with
  | None => false
  | Some m =>
      member_verify (tv_member v) (attest_msg chain_id (tv_epoch v) (tv_request v) (tv_ok v) m)
        (tv_sig v) panel
  end.

Definition AttestCert_aggregate (votes : list AttestVote) (n : nat) : option AttestCert :=
  match votes with
  | [] => None
  | first :: _ =>
      if existsb (fun v => negb (tv_epoch v =? tv_epoch first)
                           || negb (tv_request v =? tv_request first)
                           || negb (Bool.eqb (tv_ok v) (tv_ok first))
                           || negb (bool_decide (tv_machine v = tv_machine first))) votes then None
      else
        match panel_members (map tv_member votes) n with
        | None => None
        | Some members =>
            match bls_aggregate (map tv_sig votes) with
            | None => None
            | Some sig => Some (mkAttestCert (tv_epoch first) (tv_request first) (tv_ok first)
                                  (tv_machine first) (Bitmap.encode members n) sig)
            end
        end
  end.

Definition AttestCert_machine_id (c : AttestCert) : bytes :=
  default (replicate 32 0) (machine32 (tc_machine c)).

Definition AttestCert_verify (c : AttestCert) (chain_id : Z) (panel : list BlsPublicKey) : bool :=
  match machine32 (tc_machine c) with
  | None => false
  | Some m =>
      panel_verify (tc_signers c)
        (attest_msg chain_id (tc_cert_epoch c) (tc_request c) (tc_ok c) m) (tc_cert_sig c) panel
  end.
End panel.

(** ** Facts *)

Lemma sort_dedup l :
  length (dedup (sort_unstable l)) = length l ->
  NoDup l /\ dedup (sort_unstable l) = sort_unstable l.
Proof.
  intros E. assert (StronglySorted Z.le (sort_unstable l)) as Hs
    by (apply (StronglySorted_merge_sort Z.le)).
  assert (NoDup (sort_unstable l)) as Hn.
  { apply dedup_NoDup; [done|]. rewrite E. symmetry.
    apply Permutation_length, sort_unstable_perm. }
  split; [by rewrite <-(sort_unstable_perm l)|].
  apply dedup_sorted, sort_unstable_lt. by rewrite <-(sort_unstable_perm l).
Qed.

Section panel_facts.
Context `{B : Blst} `{!BlstLaws B}.

Lemma member_verified member msg sig panel :
  member_verify member msg sig panel = true ->
  exists pk p x, panel !! Z.to_nat member = Some pk /\ key_validate pk = Some p
    /\ sig_validate sig = Some x /\ sig_verify x msg SIG_DST p = true.
Proof.
  unfold member_verify, bls_verify. destruct (panel !! _) as [pk|]; [|done].
  destruct (key_validate pk) as [p|] eqn:E; [|done]. destruct (sig_validate sig) as [x|]; [|done].
  intros H. by exists pk, p, x.
Qed.

(** The members' keys and signatures, parsed. *)
Lemma members_verified members sigs msg panel :
  Forall2 (fun i s => member_verify i msg s panel = true) members sigs ->
  exists pks parsed, collect_some key_validate (panel_keys panel members) = Some pks
    /\ collect_some sig_validate sigs = Some parsed
    /\ Forall2 (fun p x => sig_verify x msg SIG_DST p = true) pks parsed.
Proof.
  induction 1 as [|i s members sigs Hs _ (pks & parsed & E1 & E2 & H)]; simpl.
  - by exists [], [].
  - apply member_verified in Hs as (pk & p & x & Ek & Ep & Ex & Hv).
    rewrite Ek. simpl. rewrite Ep, E1, Ex, E2. exists (p :: pks), (x :: parsed).
    split; [done|]. split; [done|]. by constructor.
Qed.

Lemma panel_keys_perm panel l l' : l ≡ₚ l' -> panel_keys panel l ≡ₚ panel_keys panel l'.
Proof. intros H. unfold panel_keys. by apply omap_Permutation. Qed.

Lemma panel_quorum_encode members n sorted :
  Z.of_nat n <= 65536 -> panel_members members n = Some sorted ->
  Forall (fun i => 0 <= i < Z.of_nat n) members ->
  sorted ≡ₚ members /\ panel_quorum (Bitmap.encode sorted n) n = Some sorted.
Proof.
  intros Hn Hm Hr. unfold panel_members in Hm.
  destruct (Nat.eqb_spec (length (dedup (sort_unstable members))) (length members)) as [El|];
    cbn [negb orb] in Hm; [|done].
  destruct (Z.leb_spec (Z.of_nat (length (dedup (sort_unstable members))) * 3) (Z.of_nat n * 2))
    as [|Hq]; [done|].
  injection Hm as Hm. destruct (sort_dedup members El) as [Hnd Ed]. rewrite Ed in Hm, Hq.
  subst sorted. split; [apply sort_unstable_perm|].
  assert (Forall (fun i => 0 <= i < Z.of_nat n) (sort_unstable members)) as Hr'
    by (by rewrite (sort_unstable_perm members)).
  unfold panel_quorum. rewrite BitmapFacts.decode_encode; [|done|by apply sort_unstable_lt|done].
  replace (_ <=? Z.of_nat n * 2) with false by lia. cbn [orb].
  destruct (existsb _ _) eqn:Ex; [|done]. exfalso.
  apply existsb_exists in Ex as (i & Hi & Hge). rewrite Forall_forall in Hr'.
  apply list_elem_of_In, Hr' in Hi. lia.
Qed.

(** Verified votes of distinct members, enough of them, aggregate to a certificate that verifies. *)
Lemma panel_aggregate_verifies members sigs msg panel sorted agg :
  Z.of_nat (length panel) <= 65536 -> Forall (fun i => 0 <= i) members ->
  Forall2 (fun i s => member_verify i msg s panel = true) members sigs ->
  panel_members members (length panel) = Some sorted -> bls_aggregate sigs = Some agg ->
  panel_verify (Bitmap.encode sorted (length panel)) msg agg panel = true.
Proof.
  intros Hn Hpos Hv Hm Ha.
  assert (Forall (fun i => 0 <= i < Z.of_nat (length panel)) members) as Hr.
  { clear Hm Ha. induction Hv as [|i s members sigs Hs _ IH]; [constructor|].
    apply Forall_cons in Hpos as [Hi Hpos]. constructor; [|by apply IH].
    apply member_verified in Hs as (pk & _ & _ & Hk & _). apply lookup_lt_Some in Hk. lia. }
  destruct (panel_quorum_encode members (length panel) sorted Hn Hm Hr) as [Hp Hq].
  unfold panel_verify. rewrite Hq.
  destruct (members_verified _ _ _ _ Hv) as (pks & parsed & E1 & E2 & Hpv).
  destruct (aggregate_parsed sigs parsed agg pks msg E2 Ha Hpv) as (x & Ex & Hx & _).
  destruct (collect_some_perm key_validate _ _ _ (panel_keys_perm panel _ _ (symmetry Hp)) E1)
    as (pks' & E1' & Hpp).
  unfold fast_aggregate_verify. rewrite E1', Ex. by rewrite <-(aggregate_order _ _ _ _ _ Hpp).
Qed.
End panel_facts.

(** What a verified certificate shows: distinct members of the panel, more than two thirds of it,
    whose aggregate signature verifies.  (The bitmap must fit the index type.) *)
Lemma panel_verify_sound `{B : Blst} signers msg sig panel :
  fits signers -> panel_verify signers msg sig panel = true ->
  NoDup (Bitmap.decode signers)
  /\ Forall (fun i => 0 <= i < Z.of_nat (length panel)) (Bitmap.decode signers)
  /\ 2 * Z.of_nat (length panel) < 3 * Z.of_nat (length (Bitmap.decode signers))
  /\ fast_aggregate_verify (panel_keys panel (Bitmap.decode signers)) msg sig = true.
Proof.
  intros Hf. unfold panel_verify, panel_quorum.
  destruct (Z.leb_spec (Z.of_nat (length (Bitmap.decode signers)) * 3)
              (Z.of_nat (length panel) * 2)) as [|Hq]; cbn [orb]; [done|].
  destruct (existsb _ _) eqn:Ex; [done|]. intros Hv.
  split; [by apply sorted_lt_NoDup, BitmapFacts.decode_sorted|]. split; [|split; [lia|done]].
  apply Forall_forall. intros i Hi. pose proof Hi as Hi'.
  apply BitmapFacts.elem_of_decode in Hi' as [? _]; [|done]. split; [done|].
  destruct (Z.lt_ge_cases i (Z.of_nat (length panel))) as [|Hge]; [done|]. exfalso.
  assert (existsb (fun i => Z.of_nat (length panel) <=? i) (Bitmap.decode signers) = true);
    [|congruence].
  apply existsb_exists. exists i. split; [by apply list_elem_of_In|]. lia.
Qed.

Lemma range_length (l : list Z) n :
  NoDup l -> Forall (fun i => 0 <= i < Z.of_nat n) l -> (length l <= n)%nat.
Proof.
  intros Hn Hl. rewrite <-(length_seq n 0), <-(length_map Z.of_nat (seq 0 n)).
  apply NoDup_incl_length; [by apply NoDup_ListNoDup|]. intros i Hi.
  rewrite Forall_forall in Hl. apply list_elem_of_In, Hl in Hi.
  apply in_map_iff. exists (Z.to_nat i). split; [lia|]. apply in_seq. lia.
Qed.

(** Two sets of more than two thirds share more than a third. *)
Lemma panel_overlap (l1 l2 : list Z) n :
  NoDup l1 -> NoDup l2 ->
  Forall (fun i => 0 <= i < Z.of_nat n) l1 -> Forall (fun i => 0 <= i < Z.of_nat n) l2 ->
  2 * Z.of_nat n < 3 * Z.of_nat (length l1) -> 2 * Z.of_nat n < 3 * Z.of_nat (length l2) ->
  exists c, NoDup c /\ Z.of_nat n < 3 * Z.of_nat (length c)
    /\ Forall (fun i => i ∈ l1 /\ i ∈ l2) c.
Proof.
  intros N1 N2 R1 R2 Q1 Q2. exists (filter (fun i => i ∈ l2) l1).
  split; [by apply NoDup_filter|]. split.
  - set (rest := filter (fun i => i ∉ l2) l1).
    assert (length l1 = length (filter (fun i => i ∈ l2) l1) + length rest)%nat as E.
    { unfold rest. clear. induction l1 as [|x l1 IH]; [done|]. rewrite !filter_cons.
      repeat case_decide; try done; simpl; lia. }
    assert (length (rest ++ l2) <= n)%nat as Hle; [|rewrite length_app in Hle; lia].
    apply range_length.
    + apply NoDup_app. split; [by apply NoDup_filter|]. split; [|done].
      intros i Hi. by apply list_elem_of_filter in Hi as [? _].
    + apply Forall_app. split; [|done]. apply Forall_forall. intros i Hi.
      rewrite Forall_forall in R1. apply R1. by apply list_elem_of_filter in Hi as [_ ?].
  - apply Forall_forall. intros i Hi. by apply list_elem_of_filter in Hi as [? ?].
Qed.

(** ** Messages *)

Lemma panel_msg_inj tag n c c' e e' x x' (b b' : bool) rest rest' :
  in_range 64 c -> in_range 64 c' -> in_range 64 e -> in_range 64 e' ->
  in_range (8 * Z.of_nat n) x -> in_range (8 * Z.of_nat n) x' ->
  tag ++ be_bytes 8 c ++ be_bytes 8 e ++ be_bytes n x ++ bool_byte b ++ rest
  = tag ++ be_bytes 8 c' ++ be_bytes 8 e' ++ be_bytes n x' ++ bool_byte b' ++ rest' ->
  c = c' /\ e = e' /\ x = x' /\ b = b' /\ rest = rest'.
Proof.
  intros ? ? ? ? ? ? E%app_inv_head.
  apply app_inj_1 in E as [E1 E]; [|by rewrite !be_bytes_length].
  apply app_inj_1 in E as [E2 E]; [|by rewrite !be_bytes_length].
  apply app_inj_1 in E as [E3 E]; [|by rewrite !be_bytes_length].
  apply app_inj_1 in E as [E4 E]; [|by destruct b, b'].
  apply be_bytes_inj in E1, E2, E3; try done. repeat split; try done. by destruct b, b'.
Qed.

(** The kinds of message validators sign. *)
Inductive SignedMessage :=
| SmVote (chain_id epoch round block : Z)
| SmTimeout (chain_id epoch round high : Z)
| SmProposal (chain_id epoch round block : Z) (payload : bytes)
| SmRandao (chain_id height : Z)
| SmAudit (chain_id epoch task : Z) (passed : bool)
| SmVerdict (chain_id epoch job : Z) (fault : bool)
| SmAttest (chain_id epoch request : Z) (ok : bool) (machine : bytes).

Definition sm_bytes `{Keccak} (m : SignedMessage) : bytes :=
  match m with
  | SmVote c e r b => vote_msg c e r b
  | SmTimeout c e r q => timeout_msg c e r q
  | SmProposal c e r b pl => proposal_msg c e r b pl
  | SmRandao c h => randao_msg c h
  | SmAudit c e t p => audit_msg c e t p
  | SmVerdict c e j f => verdict_msg c e j f
  | SmAttest c e r ok m => attest_msg c e r ok m
  end.

(** Every integer fits its type. *)
Definition sm_typed (m : SignedMessage) : Prop :=
  match m with
  | SmVote c e r b => in_range 64 c /\ in_range 64 e /\ in_range 64 r /\ in_range 256 b
  | SmTimeout c e r q => in_range 64 c /\ in_range 64 e /\ in_range 64 r /\ in_range 64 q
  | SmProposal c e r b _ => in_range 64 c /\ in_range 64 e /\ in_range 64 r /\ in_range 256 b
  | SmRandao c h => in_range 64 c /\ in_range 64 h
  | SmAudit c e t _ => in_range 64 c /\ in_range 64 e /\ in_range 16 t
  | SmVerdict c e j _ => in_range 64 c /\ in_range 64 e /\ in_range 64 j
  | SmAttest c e r _ m => in_range 64 c /\ in_range 64 e /\ in_range 64 r
  end.

(** The same message, up to a collision of the hash of a proposal's payload. *)
Definition sm_same `{Keccak} (m m' : SignedMessage) : Prop :=
  match m, m' with
  | SmProposal c e r b pl, SmProposal c' e' r' b' pl' =>
      c = c' /\ e = e' /\ r = r' /\ b = b' /\ keccak256 pl = keccak256 pl'
  | _, _ => m = m'
  end.

Lemma proposal_msg_inj `{K : Keccak} `{!KeccakLaws K} c c' e e' r r' b b' pl pl' :
  in_range 64 c -> in_range 64 c' -> in_range 64 e -> in_range 64 e' ->
  in_range 64 r -> in_range 64 r' -> in_range 256 b -> in_range 256 b' ->
  proposal_msg c e r b pl = proposal_msg c' e' r' b' pl' ->
  c = c' /\ e = e' /\ r = r' /\ b = b' /\ keccak256 pl = keccak256 pl'.
Proof.
  intros ? ? ? ? ? ? ? ? E. apply domain_msg_inj in E as (-> & -> & -> & E); try done.
  unfold b256_bytes in E. apply app_inj_1 in E as [E1 E2]; [|by rewrite !be_bytes_length].
  repeat split; apply (be_bytes_inj 32); try done; apply keccak_range.
Qed.

(** C39.  Signed messages never collide across kinds: the byte strings validators sign for votes,
    timeouts, proposals, randomness, audits, verdicts and attestations determine the kind of
    message and every field (a proposal's payload up to its hash), so a signature given for one
    purpose, chain, epoch or round cannot serve another. *)
Theorem signed_messages_separate `{K : Keccak} `{!KeccakLaws K} (m m' : SignedMessage)
    (Hm : sm_typed m) (Hm' : sm_typed m') (E : sm_bytes m = sm_bytes m') :
  sm_same m m'.
Proof.
  destruct m, m'; simpl in Hm, Hm', E; try discriminate E; simpl.
  - apply vote_msg_inj in E as (-> & -> & -> & ->); tauto.
  - apply timeout_msg_inj in E as (-> & -> & -> & ->); tauto.
  - apply proposal_msg_inj in E; tauto.
  - unfold randao_msg in E. apply app_inv_head in E.
    apply app_inj_1 in E as [E1 E2]; [|by rewrite !be_bytes_length].
    apply (be_bytes_inj 8) in E1, E2; try tauto. by subst.
  - apply (panel_msg_inj _ 2 _ _ _ _ _ _ _ _ [] []) in E as (-> & -> & -> & -> & _); tauto.
  - apply (panel_msg_inj _ 8 _ _ _ _ _ _ _ _ [] []) in E as (-> & -> & -> & -> & _); tauto.
  - apply (panel_msg_inj _ 8) in E as (-> & -> & -> & -> & ->); tauto.
Qed.

(** ** Certificates *)
Section certificates.
Context `{B : Blst} `{!BlstLaws B} (chain_id : Z) (panel : list BlsPublicKey).
Context (Hn : Z.of_nat (length panel) <= 65536).

(** From the votes' own checks to what [panel_aggregate_verifies] needs. *)
Lemma votes_verified {V} (votes : list V) (member : V -> Z) (sig : V -> BlsSignature)
    (msg : V -> bytes) m :
  Forall (fun v => 0 <= member v /\ member_verify (member v) (msg v) (sig v) panel = true) votes ->
  Forall (fun v => msg v = m) votes ->
  Forall (fun i => 0 <= i) (map member votes)
  /\ Forall2 (fun i s => member_verify i m s panel = true) (map member votes) (map sig votes).
Proof.
  induction votes as [|v votes IH]; intros Hv Hm; [by split; constructor|].
  apply Forall_cons in Hv as [[Hp Hv] Hvs]. apply Forall_cons in Hm as [E Hms].
  destruct (IH Hvs Hms) as [H1 H2]. split; simpl; constructor; try done. by rewrite <-E.
Qed.

Lemma existsb_none {V} (f : V -> bool) l : existsb f l = false -> Forall (fun v => f v = false) l.
Proof.
  induction l as [|v l IH]; simpl; [constructor|]. intros [? ?]%orb_false_iff. constructor; auto.
Qed.

(** The branch of [aggregate] that returns a certificate, and the fields its votes share. *)
Ltac open_aggregate Hc Ex :=
  destruct (existsb _ _) eqn:Ex; [done|];
  destruct (panel_members _ _) as [?|] eqn:?; [|done];
  destruct (bls_aggregate _) as [?|] eqn:?; [|done]; injection Hc as <-.
Ltac same_fields Ex :=
  apply existsb_none in Ex; eapply Forall_impl; [exact Ex|]; intros ?; cbn beta;
  rewrite !orb_false_iff, !negb_false_iff.

Lemma audit_aggregate votes c :
  Forall (fun v => 0 <= av_member v /\ AuditVote_verify v chain_id panel = true) votes ->
  AuditCert_aggregate votes (length panel) = Some c -> AuditCert_verify c chain_id panel = true.
Proof.
  intros Hv Hc. destruct votes as [|first votes]; [done|]. unfold AuditCert_aggregate in Hc.
  open_aggregate Hc Ex.
  edestruct (votes_verified (first :: votes) av_member av_sig) as [H1 H2]; [exact Hv| |].
  2:{ by eapply panel_aggregate_verifies. }
  same_fields Ex. intros [[->%Z.eqb_eq ->%Z.eqb_eq] ->%Bool.eqb_prop]. done.
Qed.

Lemma verdict_aggregate votes c :
  Forall (fun v => 0 <= vv_member v /\ VerdictVote_verify v chain_id panel = true) votes ->
  VerdictCert_aggregate votes (length panel) = Some c ->
  VerdictCert_verify c chain_id panel = true.
Proof.
  intros Hv Hc. destruct votes as [|first votes]; [done|]. unfold VerdictCert_aggregate in Hc.
  open_aggregate Hc Ex.
  edestruct (votes_verified (first :: votes) vv_member vv_sig) as [H1 H2]; [exact Hv| |].
  2:{ by eapply panel_aggregate_verifies. }
  same_fields Ex. intros [[->%Z.eqb_eq ->%Z.eqb_eq] ->%Bool.eqb_prop]. done.
Qed.

Lemma attest_aggregate votes c :
  Forall (fun v => 0 <= tv_member v /\ AttestVote_verify v chain_id panel = true) votes ->
  AttestCert_aggregate votes (length panel) = Some c -> AttestCert_verify c chain_id panel = true.
Proof.
  intros Hv Hc. destruct votes as [|first votes]; [done|]. unfold AttestCert_aggregate in Hc.
  open_aggregate Hc Ex.
  unfold AttestCert_verify. cbn [tc_machine tc_signers tc_cert_epoch tc_request tc_ok tc_cert_sig].
  assert (Forall (fun v => 0 <= tv_member v
    /\ member_verify (tv_member v) (attest_msg chain_id (tv_epoch v) (tv_request v) (tv_ok v)
         (tv_machine v)) (tv_sig v) panel = true) (first :: votes)
    /\ machine32 (tv_machine first) = Some (tv_machine first)) as [Hv' Em1].
  { assert (forall v, AttestVote_verify v chain_id panel = true ->
      machine32 (tv_machine v) = Some (tv_machine v)
      /\ member_verify (tv_member v) (attest_msg chain_id (tv_epoch v) (tv_request v) (tv_ok v)
           (tv_machine v)) (tv_sig v) panel = true) as Hone.
    { intros v. unfold AttestVote_verify, machine32. by destruct (Nat.eqb _ _). }
    split.
    - eapply Forall_impl; [exact Hv|]. intros v [? [_ ?]%Hone]. done.
    - apply Forall_cons in Hv as [[_ [? _]%Hone] _]. done. }
  rewrite Em1. edestruct (votes_verified (first :: votes) tv_member tv_sig) as [H1 H2];
    [exact Hv'| |].
  2:{ by eapply panel_aggregate_verifies. }
  same_fields Ex.
  intros [[[->%Z.eqb_eq ->%Z.eqb_eq] ->%Bool.eqb_prop] ->%bool_decide_eq_true]. done.
Qed.
End certificates.

(** Certificates made from checked votes verify: whenever [aggregate] makes a certificate for a
    panel out of votes that each verify against it, the certificate verifies against the panel, for
    storage audits, compute verdicts and attestations alike (blst's laws assumed). *)
Theorem panel_certificates_verify `{B : Blst} `{!BlstLaws B} (chain_id : Z)
    (panel : list BlsPublicKey) (Hn : Z.of_nat (length panel) <= 65536) :
  (forall votes c,
     Forall (fun v => 0 <= av_member v /\ AuditVote_verify v chain_id panel = true) votes ->
     AuditCert_aggregate votes (length panel) = Some c ->
     AuditCert_verify c chain_id panel = true)
  /\ (forall votes c,
     Forall (fun v => 0 <= vv_member v /\ VerdictVote_verify v chain_id panel = true) votes ->
     VerdictCert_aggregate votes (length panel) = Some c ->
     VerdictCert_verify c chain_id panel = true)
  /\ (forall votes c,
     Forall (fun v => 0 <= tv_member v /\ AttestVote_verify v chain_id panel = true) votes ->
     AttestCert_aggregate votes (length panel) = Some c ->
     AttestCert_verify c chain_id panel = true).
Proof.
  split; [|split]; intros votes c.
  - by apply audit_aggregate.
  - by apply verdict_aggregate.
  - by apply attest_aggregate.
Qed.

(** Opposite decisions of one panel need a third of it to contradict itself: if two verdict
    certificates on one job of one epoch verify and disagree, more than a third of the panel's
    members are in both bitmaps, each under both verdicts.  (Bitmaps within the index type.) *)
Theorem opposite_verdicts_share_signers `{B : Blst} (chain_id : Z) (panel : list BlsPublicKey)
    (c1 c2 : VerdictCert)
    (F1 : fits (vc_signers c1)) (F2 : fits (vc_signers c2))
    (H1 : VerdictCert_verify c1 chain_id panel = true)
    (H2 : VerdictCert_verify c2 chain_id panel = true)
    (Hepoch : vc_epoch c1 = vc_epoch c2) (Hjob : vc_job c1 = vc_job c2)
    (Hfault : vc_fault c1 <> vc_fault c2) :
  exists common, NoDup common /\ Z.of_nat (length panel) < 3 * Z.of_nat (length common)
    /\ Forall (fun i => i ∈ Bitmap.decode (vc_signers c1) /\ i ∈ Bitmap.decode (vc_signers c2)
                 /\ is_Some (panel !! Z.to_nat i)) common
    /\ verdict_msg chain_id (vc_epoch c1) (vc_job c1) (vc_fault c1)
       <> verdict_msg chain_id (vc_epoch c1) (vc_job c1) (vc_fault c2).
Proof.
  apply panel_verify_sound in H1 as (N1 & R1 & Q1 & _); [|done].
  apply panel_verify_sound in H2 as (N2 & R2 & Q2 & _); [|done].
  destruct (panel_overlap _ _ _ N1 N2 R1 R2 Q1 Q2) as (c & Hc & Hlen & Hall).
  exists c. split; [done|]. split; [done|]. split.
  - eapply Forall_impl; [exact Hall|]. intros i [Hi1 Hi2]. split; [done|]. split; [done|].
    apply lookup_lt_is_Some. rewrite Forall_forall in R1. apply R1 in Hi1. lia.
  - unfold verdict_msg, bool_byte. intros E. do 4 apply app_inv_head in E.
    destruct (vc_fault c1), (vc_fault c2); done.
Qed.

(** ** Witnesses *)
Module AuditWitness.
(** A scheme with the homomorphism of BLS: a signature is the key times a hash of the message. *)
#[export] Instance toy : Blst := {|
  SecretKey := Z; PublicKey := Z; Signature := Z;
  key_validate b := match b with [p] => Some p | _ => None end;
  sig_validate b := match b with [s] => Some s | _ => None end;
  sk_to_pk sk := sk;
  sk_sign sk m dst := sk * (1 + be_val (m ++ dst));
  sig_verify s m dst p := s =? p * (1 + be_val (m ++ dst));
  sig_fast_aggregate_verify s m dst pks := s =? sumZ pks * (1 + be_val (m ++ dst));
  aggregate_sigs l := match l with [] => None | _ => Some (sumZ l) end;
  compress_pk p := [p]; compress_sig s := [s];
  serialize_pk p := be_bytes 96 p; serialize_sig s := be_bytes 192 s;
|}.

#[export] Instance toy_laws : BlstLaws toy.
Proof.
  split; simpl.
  - done.
  - intros pks m dst sigs a Hne H Ha. apply Z.eqb_eq.
    assert (a = sumZ sigs) as -> by (by destruct sigs; [|injection Ha as <-]). clear Hne Ha.
    induction H as [|p x pks xs Hx _ IH]; [done|]. apply Z.eqb_eq in Hx. simpl in *. lia.
  - intros a m dst pks pks' Hp. by rewrite (sumZ_perm _ _ Hp).
  - done.
Qed.

Definition panel : list bytes := [[11]; [12]; [13]; [14]].
Definition vote (member sk : Z) (fault : bool) : VerdictVote := VerdictVote_sign sk 1 7 3 fault member.
Definition cert (fault : bool) (l : list (Z * Z)) : option VerdictCert :=
  VerdictCert_aggregate (map (fun '(i, sk) => vote i sk fault) l) 4.

Lemma panel_certificates_verify_witness :
  exists c, cert true [(2, 13); (0, 11); (3, 14)] = Some c /\ VerdictCert_verify c 1 panel = true.
Proof.
  destruct (cert true [(2, 13); (0, 11); (3, 14)]) as [c|] eqn:E; [|vm_compute in E; discriminate].
  exists c. split; [done|].
  destruct (panel_certificates_verify 1 panel) as (_ & H & _); [by vm_compute|].
  eapply H; [|exact E]. repeat (apply Forall_cons; split; [by vm_compute|]). constructor.
Defined.

(** Members 0 and 3 sign both verdicts. *)
Lemma opposite_verdicts_share_signers_witness :
  exists c1 c2, VerdictCert_verify c1 1 panel = true /\ VerdictCert_verify c2 1 panel = true
    /\ exists common, 4 < 3 * Z.of_nat (length common)
       /\ Forall (fun i => i ∈ Bitmap.decode (vc_signers c1) /\ i ∈ Bitmap.decode (vc_signers c2)
                    /\ is_Some (panel !! Z.to_nat i)) common.
Proof.
  exists (default (mkVerdictCert 0 0 true [] []) (cert true [(0, 11); (1, 12); (3, 14)])),
    (default (mkVerdictCert 0 0 true [] []) (cert false [(0, 11); (2, 13); (3, 14)])).
  split; [by vm_compute|]. split; [by vm_compute|].
  edestruct (opposite_verdicts_share_signers 1 panel
    (default (mkVerdictCert 0 0 true [] []) (cert true [(0, 11); (1, 12); (3, 14)]))
    (default (mkVerdictCert 0 0 true [] []) (cert false [(0, 11); (2, 13); (3, 14)])))
    as (common & _ & Hl & Hall & _); [by vm_compute|by vm_compute|by vm_compute|by vm_compute
    |by vm_compute|by vm_compute|by vm_compute|].
  exists common. split; [exact Hl|exact Hall].
Defined.

Lemma signed_messages_separate_witness :
  let K : Keccak := fun b => wrap 256 (be_val b) in
  sm_same (SmAudit 1 2 3 true) (SmAudit 1 2 3 true).
Proof.
  intros K. assert (KeccakLaws K) as HK by (intros b; by apply wrap_range).
  apply (signed_messages_separate (SmAudit 1 2 3 true) (SmAudit 1 2 3 true));
    [repeat split; by vm_compute|repeat split; by vm_compute|reflexivity].
Defined.
End AuditWitness.
