(* ===== verification/Params.v ===== *)
(** * Protocol constants and emission

    Models crates/primitives/src/params.rs: the constants the other components use and the block
    rewards. *)

From S2P Require Import Prelude.
From stdpp Require Import base list.
From Stdlib Require Import ZArith Lia.

Open Scope Z_scope.

Definition CHAIN_ID : Z := 8017.
Definition SLOT_SECONDS : Z := 6.
Definition EPOCH_SLOTS : Z := 14400.
Definition MIN_COMMITTEE_SIZE : Z := 512.
Definition DEFAULT_GAS_LIMIT : Z := 30000000.
Definition GAS_LIMIT_RANGE : Z * Z := (15000000, 60000000).
Definition MAX_RLP_BLOCK_SIZE : Z := 10 * 1024 * 1024 - 2 * 1024 * 1024.
Definition MIN_BASE_FEE_WEI : Z := 10000000.
Definition UNBONDING_EPOCHS : Z := 14.
Definition RECENT_PINNED_EPOCHS : Z := 7.
Definition HISTORY_REPLICATION : Z := 16.
Definition STORAGE_REPLICATION : Z := 16.
Definition STORAGE_ID_BASE : Z := Z.shiftl 1 31.
Definition AUDIT_TASKS : Z := 16.
Definition DEAL_AUDIT_TASKS : Z := 16.
Definition AUDIT_PANEL : Z := 16.
Definition AUDIT_SLASH_BPS : Z := 100.
Definition MAX_IPLD_BLOCK_BYTES : Z := Z.shiftl 1 20.
Definition INLINE_BODY_BYTES : Z := 64 * 1024.
Definition WEI_PER_BOLT : Z := 1000000000000000000.
Definition MIN_STAKE_WEI : Z := 64 * WEI_PER_BOLT.
Definition INITIAL_BLOCK_REWARD_BOLT : Z := 32.
Definition STORAGE_BLOCK_REWARD_BOLT : Z := 1.
Definition TAIL_CONSENSUS_REWARD_BOLT : Z := 1.
Definition HALVING_SECONDS : Z := 4 * 365 * 86400.
Definition CHECKPOINT_MIN_STAKERS : Z := 32.
Definition CHECKPOINT_MIN_TOTAL_STAKE_BOLT : Z := 1000000.
Definition CHECKPOINT_DEPTH : Z := 32.
Definition CHECKPOINT_MINER_BPS : Z := 6000.
Definition POS_MIN_STAKERS : Z := 128.
Definition POS_MIN_TOTAL_STAKE_BOLT : Z := 10000000.
Definition POS_STREAK_EPOCHS : Z := 14.
Definition POW_BLOCK_SECONDS : Z := 12.
Definition POW_HALF_LIFE_SECONDS : Z := 3600.
Definition POW_INITIAL_DIFFICULTY : Z := Z.shiftl 1 18.
Definition MAX_REORG_DEPTH : Z := 128.

Definition emission_era (genesis_timestamp timestamp : Z) : Z :=
  saturating_sub timestamp genesis_timestamp / HALVING_SECONDS.

(** [checked_shr] succeeds below the width of [u64]; the argument is at most 63. *)
Definition consensus_reward (era : Z) : Z :=
  let total := Z.shiftr INITIAL_BLOCK_REWARD_BOLT (Z.min era 63) in
  let bolt := Z.max (saturating_sub total STORAGE_BLOCK_REWARD_BOLT) TAIL_CONSENSUS_REWARD_BOLT in
  wrap 256 (bolt * WEI_PER_BOLT).

Definition storage_reward : Z := wrap 256 (STORAGE_BLOCK_REWARD_BOLT * WEI_PER_BOLT).

Definition share (amount bps : Z) : Z := wrap 256 (amount * bps) / 10000.

Lemma reward_bolt era :
  0 <= era ->
  consensus_reward era + storage_reward = Z.max (Z.shiftr 32 (Z.min era 63)) 2 * WEI_PER_BOLT.
Proof.
  intros He. unfold consensus_reward, storage_reward, INITIAL_BLOCK_REWARD_BOLT,
    STORAGE_BLOCK_REWARD_BOLT, TAIL_CONSENSUS_REWARD_BOLT, WEI_PER_BOLT.
  assert (0 <= Z.shiftr 32 (Z.min era 63) <= 32) as H.
  { rewrite Z.shiftr_div_pow2 by lia. pose proof (Z.pow_pos_nonneg 2 (Z.min era 63)).
    split; [apply Z.div_pos; lia|]. apply Z.div_le_upper_bound; nia. }
  unfold saturating_sub. rewrite !wrap_small by (unfold in_range; lia). lia.
Qed.

(** Emission: a block's whole reward is 32 BOLT halved once per era of chain time, at least the
    2 BOLT of the tail; eras and rewards never go back as time passes, and the miner's and the
    committee's shares of an amount never exceed it and lose at most one wei. *)
Theorem emission_schedule (g t t' amount bps : Z)
    (Ht : 0 <= t <= t') (Hg : 0 <= g)
    (Ha : 0 <= amount < 2 ^ 240) (Hb : 0 <= bps <= 10000) :
  let reward x := consensus_reward (emission_era g x) + storage_reward in
  reward t' <= reward t
  /\ emission_era g t <= emission_era g t'
  /\ (forall era, 0 <= era ->
      consensus_reward era + storage_reward = Z.max (32 / 2 ^ Z.min era 63) 2 * WEI_PER_BOLT)
  /\ amount - 1 <= share amount bps + share amount (10000 - bps) <= amount.
Proof.
  cbv zeta. assert (emission_era g t <= emission_era g t') as Hm.
  { unfold emission_era, saturating_sub, HALVING_SECONDS. apply Z.div_le_mono; lia. }
  assert (0 <= emission_era g t) as H0
    by (unfold emission_era, saturating_sub, HALVING_SECONDS; apply Z.div_pos; lia).
  split; [|split; [done|split]].
  - rewrite !reward_bolt by lia. rewrite !Z.shiftr_div_pow2 by lia.
    apply Z.mul_le_mono_nonneg_r; [by vm_compute|]. apply Z.max_le_compat_r.
    apply Z.div_le_compat_l; [lia|]. split; [apply Z.pow_pos_nonneg; lia|].
    apply Z.pow_le_mono_r; lia.
  - intros era He. rewrite reward_bolt by done. by rewrite Z.shiftr_div_pow2 by lia.
  - unfold share. rewrite !wrap_small by (unfold in_range; nia).
    Z.div_mod_to_equations. lia.
Qed.

Module ParamsWitness.
Lemma emission_schedule_witness :
  consensus_reward (emission_era 1000 (1000 + 5 * HALVING_SECONDS)) + storage_reward
  <= consensus_reward (emission_era 1000 2000) + storage_reward.
Proof.
  destruct (emission_schedule 1000 2000 (1000 + 5 * HALVING_SECONDS) 100 6000) as [H _];
    [by vm_compute|lia|lia|lia|exact H].
Defined.
End ParamsWitness.
