(* ===== verification/Pow.v ===== *)
(** * Proof of work

    Models crates/pow/src/asert.rs (the difficulty adjustment) and crates/pow/src/lib.rs (seed
    heights, seals, the target test and the nonce search).  RandomBOLT itself is a C library; a
    hasher is a parameter ([Hasher]) that hashes a batch of inputs. *)

From S2P Require Import Prelude Types.
From stdpp Require Import base list list_numbers gmap strings.
From Stdlib Require Import ZArith Lia.

Open Scope Z_scope.
Open Scope bolt_scope.

(** ** Difficulty *)

Record AsertParams := mkAsert {
  spacing : Z;
  half_life : Z;
  initial : Z;
  minimum : Z;
}.

(** [2^(frac / 65536) * 65536], the cubic approximation of aserti3-2d. *)
Definition asert_factor (frac : Z) : Z :=
  65536 + Z.shiftr (195766423245049 * frac + 971821376 * frac * frac + 5127 * frac * frac * frac
                    + Z.shiftl 1 47) 48.

(** [U256::leading_zeros]. *)
Definition leading_zeros (d : Z) : Z := if d =? 0 then 256 else 255 - Z.log2 d.

(** The exponent in 1/65536 units. *)
Definition asert_exponent (params : AsertParams) (solve_time : Z) : Z :=
  (solve_time - spacing params) * 65536 / Z.max (half_life params) 1.

(** The parent's difficulty scaled by [2^(- exponent / 65536)]. *)
Definition asert_scale (parent_difficulty exponent : Z) : Z :=
  let shifts := exponent / 65536 in
  let frac := exponent mod 65536 in
  let d := saturating_mul 256 parent_difficulty 65536 / asert_factor frac in
  if 0 <=? shifts then
    if 256 <=? shifts then 0 else Z.shiftr d shifts
  else
    let s := - shifts in
    if (256 <=? s) || (leading_zeros d <? s) then U256_MAX else Z.shiftl d s.

Definition next_difficulty (params : AsertParams) (parent_number parent_difficulty solve_time : Z)
  : Z :=
  if parent_number <=? 1 then Z.max (initial params) (minimum params)
  else Z.max (asert_scale parent_difficulty (asert_exponent params solve_time)) (minimum params).

(** ** Seeds and seals *)

Definition SEED_EPOCH : Z := 2048.
Definition SEED_LAG : Z := 64.

Definition seed_height (height : Z) : Z :=
  if height <=? SEED_EPOCH + SEED_LAG then 0
  else (height - SEED_LAG - 1) / SEED_EPOCH * SEED_EPOCH.

(** The fields of a header that sealing touches; [hash_slow] is its RLP hash (alloy). *)
Class SealedHeader := {
  Header : Type;
  hash_slow : Header -> B256;
  with_nonce : Header -> Z -> Header;
  nonce_of : Header -> Z;
  difficulty_of : Header -> Z;
}.

Definition seal_hash `{SealedHeader} (h : Header) : B256 := hash_slow (with_nonce h 0).

Definition pow_input (seal : B256) (nonce : Z) : bytes := b256_bytes seal ++ be_bytes 8 nonce.

Definition meets (pow difficulty : Z) : bool :=
  if difficulty =? 0 then false else pow <=? U256_MAX / difficulty.

Definition work (difficulty : Z) : Z := difficulty.

Definition key_for `{Keccak} (seed_block : B256) : B256 :=
  keccak256 (ascii_bytes "boltchain/pow-key/v1" ++ b256_bytes seed_block).

(** ** Hashing and searching *)

Inductive Algorithm := RandomBolt | KeccakAlgorithm.

(** [Hasher::hash_batch] of randombolt.rs: the hashes of the inputs under a key, or an error. *)
Class Hasher := {
  PowError : Type;
  hasher_batch : B256 -> list bytes -> result PowError (list B256);
}.

Section pow.
Context `{K : Keccak} `{H : Hasher}.

(** [light] and [with_mode] make a hasher exactly for RandomBOLT. *)
Definition hash_batch (algorithm : Algorithm) (key : B256) (inputs : list bytes)
  : result PowError (list B256) :=
  match algorithm with
  | RandomBolt => hasher_batch key inputs
  | KeccakAlgorithm => Ok (map (fun i => keccak256 (b256_bytes key ++ i)) inputs)
  end.

(** [.remove(0)] of an empty batch aborts. *)
Definition pow_hash (algorithm : Algorithm) (key seal : B256) (nonce : Z)
  : outcome (result PowError B256) :=
  match hash_batch algorithm key [pow_input seal nonce] with
  | Err e => Done (Err e)
  | Ok (h :: _) => Done (Ok h)
  | Ok [] => Panic
  end.

Definition pow_verify `{SealedHeader} (algorithm : Algorithm) (key : B256) (h : Header)
  : outcome (result PowError bool) :=
  match pow_hash algorithm key (seal_hash h) (nonce_of h) with
  | Done (Ok pow) => Done (Ok (meets pow (difficulty_of h)))
  | Done (Err e) => Done (Err e)
  | Panic => Panic
  | OutOfFuel => OutOfFuel
  end.

(** The first hash of a batch that meets the difficulty, with its place. *)
Fixpoint first_meeting (difficulty : Z) (i : Z) (l : list B256) : option (Z * B256) :=
  match l with
  | [] => None
  | pow :: l => if meets pow difficulty then Some (i, pow) else first_meeting difficulty (i + 1) l
  end.

Definition BATCH : Z := 16.

(** The loop of [search]: [n] is the next nonce, [done] the nonces tried; [stop] is what the flag
    shows at each turn. *)
Fixpoint search_loop (fuel : nat) (algorithm : Algorithm) (key seal : B256)
    (difficulty step tries : Z) (stop : nat -> bool) (turn : nat) (n done : Z)
  : outcome (result PowError (option (Z * B256))) :=
  if tries <=? done then Done (Ok None)
  else
    match fuel with
    | O => OutOfFuel
    | S fuel =>
        if stop turn then Done (Ok None)
        else
          let count := Z.min BATCH (tries - done) in
          let inputs := map (fun i => pow_input seal (u64 (n + u64 (Z.of_nat i * step))))
                          (seq 0 (Z.to_nat count)) in
          match hash_batch algorithm key inputs with
          | Err e => Done (Err e)
          | Ok pows =>
              match first_meeting difficulty 0 pows with
              | Some (i, pow) => Done (Ok (Some (u64 (n + u64 (i * step)), pow)))
              | None =>
                  search_loop fuel algorithm key seal difficulty step tries stop (S turn)
                    (u64 (n + u64 (count * step))) (done + count)
              end
          end
    end.

(** One turn per batch. *)
Definition search (algorithm : Algorithm) (key seal : B256) (difficulty start step tries : Z)
    (stop : nat -> bool) : outcome (result PowError (option (Z * B256))) :=
  search_loop (Z.to_nat tries) algorithm key seal difficulty step tries stop 0 start 0.
End pow.

(** ** Facts: the difficulty *)

Lemma asert_factor_mono a b : 0 <= a <= b -> asert_factor a <= asert_factor b.
Proof.
  intros H. unfold asert_factor. rewrite !Z.shiftr_div_pow2 by lia.
  assert (a * a <= b * b) by (apply Z.mul_le_mono_nonneg; lia).
  assert (a * a * a <= b * b * b) by (apply Z.mul_le_mono_nonneg; lia).
  apply Z.add_le_mono_l, Z.div_le_mono; [lia|]. rewrite <-!Z.mul_assoc in *. lia.
Qed.

Lemma asert_factor_range f : 0 <= f < 65536 -> 65536 <= asert_factor f <= 131072.
Proof.
  intros H. split.
  - transitivity (asert_factor 0); [by vm_compute|]. apply asert_factor_mono. lia.
  - transitivity (asert_factor 65535); [apply asert_factor_mono; lia|by vm_compute].
Qed.

Lemma frac_range e : 0 <= e mod 65536 < 65536.
Proof. apply Z.mod_pos_bound. lia. Qed.

(** The divisor of a slow block's difficulty. *)
Definition asert_divisor (e : Z) : Z := asert_factor (e mod 65536) * 2 ^ (e / 65536).

Lemma asert_divisor_mono e1 e2 : 0 <= e1 <= e2 -> asert_divisor e1 <= asert_divisor e2.
Proof.
  intros H. unfold asert_divisor. pose proof (frac_range e1) as F1. pose proof (frac_range e2) as F2.
  pose proof (asert_factor_range _ F1) as [L1 U1]. pose proof (asert_factor_range _ F2) as [L2 U2].
  assert (0 <= e1 / 65536) by (apply Z.div_pos; lia).
  assert (e1 / 65536 <= e2 / 65536) as Hs by (apply Z.div_le_mono; lia).
  destruct (decide (e1 / 65536 = e2 / 65536)) as [E|Hne].
  - rewrite <-E. apply Z.mul_le_mono_nonneg_r; [apply Z.pow_nonneg; lia|].
    apply asert_factor_mono. split; [lia|].
    pose proof (Z.div_mod e1 65536). pose proof (Z.div_mod e2 65536). lia.
  - transitivity (65536 * 2 ^ (e1 / 65536 + 1)).
    + rewrite Z.pow_add_r by lia. change (2 ^ 1) with 2.
      pose proof (Z.pow_pos_nonneg 2 (e1 / 65536)). nia.
    + apply Z.mul_le_mono_nonneg; [lia|lia|apply Z.pow_nonneg; lia|].
      apply Z.pow_le_mono_r; lia.
Qed.

Lemma asert_divisor_large e : 0 <= e -> 65536 <= asert_divisor e.
Proof.
  intros H. transitivity (asert_divisor 0); [by vm_compute|]. apply asert_divisor_mono. lia.
Qed.

(** On the slow side the new difficulty is one division. *)
Lemma asert_scale_slow pd e :
  0 <= pd -> 0 <= e -> asert_scale pd e = saturating_mul 256 pd 65536 / asert_divisor e.
Proof.
  intros Hp He. unfold asert_scale, asert_divisor.
  pose proof (asert_factor_range _ (frac_range e)) as [L _].
  assert (0 <= e / 65536) as Hs by (apply Z.div_pos; lia).
  assert (0 <= saturating_mul 256 pd 65536 < 2 ^ 256) as HX by (unfold saturating_mul; lia).
  replace (0 <=? e / 65536) with true by lia.
  destruct (Z.leb_spec 256 (e / 65536)) as [Hbig|Hsmall].
  - symmetry. apply Z.div_small. split; [lia|].
    apply Z.lt_le_trans with (2 ^ (e / 65536)).
    + apply Z.lt_le_trans with (2 ^ 256); [lia|]. apply Z.pow_le_mono_r; lia.
    + pose proof (Z.pow_pos_nonneg 2 (e / 65536)). nia.
  - rewrite Z.shiftr_div_pow2 by lia. rewrite Z.div_div; [done|lia|].
    apply Z.pow_pos_nonneg; lia.
Qed.

Lemma asert_exponent_mono params t1 t2 :
  t1 <= t2 -> asert_exponent params t1 <= asert_exponent params t2.
Proof. intros H. unfold asert_exponent. apply Z.div_le_mono; lia. Qed.

Lemma asert_exponent_slow params t : spacing params <= t -> 0 <= asert_exponent params t.
Proof. intros H. unfold asert_exponent. apply Z.div_pos; lia. Qed.

(** On the fast side at most two units are lost to rounding. *)
Lemma asert_scale_fast pd e :
  0 <= pd < 2 ^ 240 -> e < 0 -> pd - 2 <= asert_scale pd e.
Proof.
  intros Hp He. unfold asert_scale.
  assert (e / 65536 < 0) as Hs by (apply Z.div_lt_upper_bound; lia).
  replace (0 <=? e / 65536) with false by lia.
  destruct (_ || _) eqn:Eb; [unfold U256_MAX; lia|].
  apply orb_false_iff in Eb as [E1 _].
  replace (saturating_mul 256 pd 65536) with (pd * 65536) by (unfold saturating_mul; lia).
  pose proof (asert_factor_range _ (frac_range e)) as [L U].
  set (f := asert_factor (e mod 65536)) in *. set (s := - (e / 65536)) in *.
  rewrite Z.shiftl_mul_pow2 by lia.
  assert (pd / 2 <= pd * 65536 / f) as Hd.
  { transitivity (pd * 65536 / 131072).
    - replace 131072 with (2 * 65536) by lia. rewrite Z.div_mul_cancel_r; lia.
    - apply Z.div_le_compat_l; lia. }
  pose proof (Z.div_mod pd 2). pose proof (Z.mod_pos_bound pd 2).
  assert (2 ^ 1 <= 2 ^ s) as Hpow by (apply Z.pow_le_mono_r; lia).
  change (2 ^ 1) with 2 in Hpow. transitivity (pd / 2 * 2); [lia|].
  apply Z.mul_le_mono_nonneg; [apply Z.div_pos; lia|lia|lia|lia].
Qed.

Lemma asert_scale_range pd e : 0 <= pd -> 0 <= asert_scale pd e <= U256_MAX.
Proof.
  intros Hp. destruct (Z.le_gt_cases 0 e) as [He|He].
  - rewrite asert_scale_slow by done. pose proof (asert_divisor_large e He).
    assert (0 <= saturating_mul 256 pd 65536 <= U256_MAX) as HX
      by (unfold saturating_mul, U256_MAX; lia).
    split; [apply Z.div_pos; lia|]. transitivity (saturating_mul 256 pd 65536); [|lia].
    apply Z.div_le_upper_bound; nia.
  - unfold asert_scale. assert (e / 65536 < 0) as Hs by (apply Z.div_lt_upper_bound; lia).
    replace (0 <=? e / 65536) with false by lia.
    pose proof (asert_factor_range _ (frac_range e)) as [L _].
    assert (0 <= saturating_mul 256 pd 65536 / asert_factor (e mod 65536)) as Hd
      by (apply Z.div_pos; [unfold saturating_mul; lia|lia]).
    set (d := _ / asert_factor _) in *. set (s := - (e / 65536)) in *.
    destruct ((256 <=? s) || (leading_zeros d <? s)) eqn:Eb; [unfold U256_MAX; lia|].
    apply orb_false_iff in Eb as [E1%Z.leb_gt E2%Z.ltb_ge]. rewrite Z.shiftl_mul_pow2 by lia.
    pose proof (Z.pow_pos_nonneg 2 s). split; [nia|]. unfold leading_zeros in E2.
    destruct (Z.eqb_spec d 0) as [->|]; [unfold U256_MAX; lia|].
    assert (d * 2 ^ s < 2 ^ 256); [|unfold U256_MAX; lia].
    apply Z.lt_le_trans with (2 ^ Z.succ (Z.log2 d) * 2 ^ s).
    + apply Z.mul_lt_mono_pos_r; [lia|]. apply Z.log2_spec. lia.
    + pose proof (Z.log2_nonneg d). rewrite <-Z.pow_add_r by lia. apply Z.pow_le_mono_r; lia.
Qed.

Lemma asert_exponent_steps params k :
  0 < half_life params -> asert_exponent params (spacing params + k * half_life params) = k * 65536.
Proof.
  intros H. unfold asert_exponent. rewrite Z.max_l by lia.
  replace ((spacing params + k * half_life params - spacing params) * 65536)
    with (k * 65536 * half_life params) by ring.
  apply Z.div_mul. lia.
Qed.

Lemma asert_scale_steps pd k :
  0 < pd < 2 ^ 240 ->
  asert_scale pd (k * 65536)
  = if 0 <=? k then pd / 2 ^ k else Z.min U256_MAX (pd * 2 ^ (- k)).
Proof.
  intros Hp. unfold asert_scale. rewrite Z.div_mul, Z.mod_mul by lia.
  change (asert_factor 0) with 65536.
  replace (saturating_mul 256 pd 65536) with (pd * 65536) by (unfold saturating_mul; lia).
  rewrite Z.div_mul by lia. destruct (Z.leb_spec 0 k) as [Hk|Hk].
  - destruct (Z.leb_spec 256 k) as [Hbig|].
    + symmetry. apply Z.div_small. split; [lia|].
      apply Z.lt_le_trans with (2 ^ 256); [lia|]. apply Z.pow_le_mono_r; lia.
    + by rewrite Z.shiftr_div_pow2.
  - unfold leading_zeros. replace (pd =? 0) with false by lia.
    pose proof (Z.log2_spec pd ltac:(lia)) as [Hl Hu].
    pose proof (Z.log2_nonneg pd) as Hn.
    rewrite Z.shiftl_mul_pow2 by lia.
    destruct ((256 <=? - k) || (255 - Z.log2 pd <? - k)) eqn:Eb.
    + rewrite Z.min_l; [done|]. transitivity (2 ^ Z.log2 pd * 2 ^ (- k)).
      * rewrite <-Z.pow_add_r by lia. unfold U256_MAX.
        assert (2 ^ 256 <= 2 ^ (Z.log2 pd + - k)); [|lia]. apply Z.pow_le_mono_r; lia.
      * apply Z.mul_le_mono_nonneg_r; [apply Z.pow_nonneg; lia|lia].
    + rewrite Z.min_r; [done|]. apply orb_false_iff in Eb as [_ Eb].
      assert (pd * 2 ^ (- k) < 2 ^ 256); [|unfold U256_MAX; lia].
      apply Z.lt_le_trans with (2 ^ Z.succ (Z.log2 pd) * 2 ^ (- k)).
      * apply Z.mul_lt_mono_pos_r; [apply Z.pow_pos_nonneg; lia|lia].
      * rewrite <-Z.pow_add_r by lia. apply Z.pow_le_mono_r; lia.
Qed.

(** The half-life is exact: a solve time of [spacing + k * half_life] divides the difficulty by
    [2^k] and one of [spacing - k * half_life] multiplies it by [2^k], capped at the largest
    [U256]; a block on schedule keeps it.  All subject to the minimum. *)
Theorem asert_half_life (params : AsertParams) (n pd k : Z)
    (Hn : 1 < n) (Hpd : 0 < pd < 2 ^ 240) (Hl : 0 < half_life params) :
  next_difficulty params n pd (spacing params + k * half_life params)
  = Z.max (if 0 <=? k then pd / 2 ^ k else Z.min U256_MAX (pd * 2 ^ (- k))) (minimum params).
Proof.
  unfold next_difficulty. replace (n <=? 1) with false by lia.
  by rewrite asert_exponent_steps, asert_scale_steps.
Qed.

(** The difficulty answers solve times in the right direction: the slower a late block, the
    lower the next difficulty, never above the parent's; an early block never lowers it by more
    than the two units integer rounding can cost; the result is never below the minimum and always
    a [U256]. *)
Theorem asert_direction (params : AsertParams) (n pd t1 t2 : Z)
    (Hn : 1 < n) (Hpd : 0 <= pd < 2 ^ 240) (Hmin : 0 <= minimum params <= U256_MAX)
    (Ht : spacing params <= t1 <= t2) :
  next_difficulty params n pd t2 <= next_difficulty params n pd t1
  /\ next_difficulty params n pd t1 <= Z.max pd (minimum params)
  /\ (forall t, t < spacing params -> pd - 2 <= next_difficulty params n pd t)
  /\ (forall t, minimum params <= next_difficulty params n pd t <= U256_MAX).
Proof.
  unfold next_difficulty. replace (n <=? 1) with false by lia.
  pose proof (asert_exponent_slow params t1 ltac:(lia)) as He.
  pose proof (asert_exponent_mono params t1 t2 ltac:(lia)) as Hm.
  rewrite !asert_scale_slow by lia.
  assert (0 <= saturating_mul 256 pd 65536 <= pd * 65536) as HX by (unfold saturating_mul; lia).
  split; [|split; [|split]].
  - apply Z.max_le_compat_r, Z.div_le_compat_l; [lia|].
    pose proof (asert_divisor_large _ He). pose proof (asert_divisor_mono _ _ (conj He Hm)). lia.
  - apply Z.max_le_compat_r. transitivity (saturating_mul 256 pd 65536 / 65536).
    + apply Z.div_le_compat_l; [lia|]. pose proof (asert_divisor_large _ He). lia.
    + apply Z.div_le_upper_bound; lia.
  - intros t Hlt. etransitivity; [|apply Z.le_max_l]. apply asert_scale_fast; [done|].
    unfold asert_exponent. apply Z.div_lt_upper_bound; lia.
  - intros t. pose proof (asert_scale_range pd (asert_exponent params t)). lia.
Qed.

(** ** Facts: seeds, targets and the search *)

(** The key block of height [h] is old enough for every miner to know it and recent enough to
    rotate: [seed_height h] is a multiple of the epoch; above the first epoch it lies more than
    the lag and at most an epoch and the lag below [h]; it never decreases with [h]. *)
Theorem seed_height_lags (h h' : Z) (Hh : 0 <= h <= h') :
  seed_height h mod SEED_EPOCH = 0
  /\ 0 <= seed_height h <= seed_height h'
  /\ (SEED_EPOCH + SEED_LAG < h -> seed_height h + SEED_LAG < h <= seed_height h + SEED_EPOCH + SEED_LAG)
  /\ (h <= SEED_EPOCH + SEED_LAG -> seed_height h = 0).
Proof.
  unfold seed_height, SEED_EPOCH, SEED_LAG.
  destruct (Z.leb_spec h (2048 + 64)); destruct (Z.leb_spec h' (2048 + 64));
    repeat split; try lia; Z.div_mod_to_equations; lia.
Qed.

(** The target test is exact: a hash meets a positive difficulty iff the product fits 256 bits,
    so a hash that meets a difficulty meets every lower one, and none meets zero. *)
Theorem meets_product (pow d d' : Z) (Hpow : in_range 256 pow) (Hd : 0 < d' <= d) :
  (meets pow d = true <-> pow * d <= U256_MAX)
  /\ (meets pow d = true -> meets pow d' = true)
  /\ meets pow 0 = false.
Proof.
  assert (forall x, 0 < x -> (meets pow x = true <-> pow * x <= U256_MAX)) as H.
  { intros x Hx. unfold meets. replace (x =? 0) with false by lia. rewrite Z.leb_le. split.
    - intros Hle. pose proof (Z.mul_div_le U256_MAX x Hx). nia.
    - intros Hle. apply Z.div_le_lower_bound; lia. }
  split; [apply H; lia|]. split; [|done]. rewrite !H by lia. destruct Hpow. nia.
Qed.

(** A hasher hashes the inputs of a batch one by one. *)
Class HasherLaws `{Keccak} (H : Hasher) := {
  hash1 : Algorithm -> B256 -> bytes -> B256;
  batch_pointwise key l r : hasher_batch key l = Ok r -> r = map (hash1 RandomBolt key) l;
  keccak_pointwise key i : hash1 KeccakAlgorithm key i = keccak256 (b256_bytes key ++ i);
}.

Section search_facts.
Context `{K : Keccak} `{H : Hasher} {HL : HasherLaws H}.
Context (alg : Algorithm) (key seal difficulty start step tries : Z) (stop : nat -> bool).

Lemma hash_batch_pointwise l r : hash_batch alg key l = Ok r -> r = map (hash1 alg key) l.
Proof.
  unfold hash_batch. destruct alg.
  - apply batch_pointwise.
  - intros [= <-]. apply map_ext. intros i. by rewrite keccak_pointwise.
Qed.

(** The [k]-th nonce and its hash. *)
Definition nonce_at (k : Z) : Z := u64 (start + k * step).
Definition pow_at (k : Z) : B256 := hash1 alg key (pow_input seal (nonce_at k)).

Lemma first_meeting_spec i l :
  match first_meeting difficulty i l with
  | Some (j, pow) =>
      exists m : nat, j = i + Z.of_nat m /\ l !! m = Some pow /\ meets pow difficulty = true
        /\ forall m' x, (m' < m)%nat -> l !! m' = Some x -> meets x difficulty = false
  | None => Forall (fun x => meets x difficulty = false) l
  end.
Proof.
  revert i. induction l as [|x l IH]; intros i; simpl; [constructor|].
  destruct (meets x difficulty) eqn:E.
  - exists 0%nat. split; [lia|]. split; [done|]. split; [done|]. lia.
  - specialize (IH (i + 1)). destruct (first_meeting difficulty (i + 1) l) as [[j pow]|].
    + destruct IH as (m & -> & Hm & Hok & Hmin). exists (S m). split; [lia|]. split; [done|].
      split; [done|]. intros [|m'] y Hlt Hy; [by injection Hy as <-|].
      apply (Hmin m' y); [lia|done].
    + by constructor.
Qed.

Lemma wrap_step done' i : u64 (nonce_at done' + u64 (i * step)) = nonce_at (done' + i).
Proof.
  unfold nonce_at, wrap. rewrite <-Zplus_mod. f_equal. ring.
Qed.

(** What the search may return: the first nonce that meets the difficulty, or nothing. *)
Definition search_post (r : result PowError (option (Z * B256))) (stopped : Prop) : Prop :=
  match r with
  | Ok (Some (nonce, pow)) =>
      exists k, 0 <= k < tries /\ nonce = nonce_at k /\ pow = pow_at k
        /\ meets pow difficulty = true
        /\ forall j, 0 <= j < k -> meets (pow_at j) difficulty = false
  | Ok None => stopped \/ forall j, 0 <= j < tries -> meets (pow_at j) difficulty = false
  | Err e => exists l, hash_batch alg key l = Err e
  end.

Lemma search_loop_spec fuel turn done_ :
  0 <= done_ -> (Z.to_nat (tries - done_) <= fuel)%nat ->
  (forall j, 0 <= j < done_ -> meets (pow_at j) difficulty = false) ->
  exists r, search_loop fuel alg key seal difficulty step tries stop turn (nonce_at done_) done_
            = Done r /\ search_post r (exists t, stop t = true).
Proof.
  revert turn done_. induction fuel as [|fuel IH]; intros turn done_ Hd Hf Hno;
    cbn [search_loop]; (destruct (Z.leb_spec tries done_) as [Hle|Hgt];
      [eexists; split; [reflexivity|]; right; intros; apply Hno; lia|]); [lia|].
  destruct (stop turn) eqn:Es; [eexists; split; [reflexivity|]; left; eauto|].
  set (count := Z.min BATCH (tries - done_)).
  assert (1 <= count <= tries - done_) as Hc by (unfold count, BATCH; lia).
  set (inputs := map _ (seq 0 (Z.to_nat count))).
  assert (forall m : nat, (m < Z.to_nat count)%nat ->
    inputs !! m = Some (pow_input seal (nonce_at (done_ + Z.of_nat m)))) as Hin.
  { intros m Hm. unfold inputs. rewrite list_lookup_fmap, lookup_seq_lt by done. simpl.
    by rewrite wrap_step. }
  assert (length inputs = Z.to_nat count) as Hlen by (unfold inputs; by rewrite length_map, length_seq).
  destruct (hash_batch alg key inputs) as [pows|e] eqn:Eh; [|eexists; split; [reflexivity|]; eexists; done].
  apply hash_batch_pointwise in Eh. subst pows.
  pose proof (first_meeting_spec 0 (map (hash1 alg key) inputs)) as Hfm.
  destruct (first_meeting difficulty 0 _) as [[i pow]|].
  - destruct Hfm as (m & -> & Hm & Hok & Hmin). rewrite Z.add_0_l, wrap_step.
    assert (m < Z.to_nat count)%nat as Hlt
      by (apply lookup_lt_Some in Hm; by rewrite length_map, Hlen in Hm).
    rewrite list_lookup_fmap, Hin in Hm by done. injection Hm as <-.
    eexists. split; [reflexivity|]. exists (done_ + Z.of_nat m). split; [lia|].
    do 3 (split; [done|]). intros j Hj. destruct (Z.lt_ge_cases j done_); [apply Hno; lia|].
    apply (Hmin (Z.to_nat (j - done_))); [lia|].
    rewrite list_lookup_fmap, Hin by lia. simpl. unfold pow_at. do 4 f_equal. lia.
  - rewrite wrap_step. apply IH; [lia|lia|]. intros j Hj.
    destruct (Z.lt_ge_cases j done_); [apply Hno; lia|]. rewrite Forall_lookup in Hfm.
    apply (Hfm (Z.to_nat (j - done_))). rewrite list_lookup_fmap, Hin by lia. simpl.
    unfold pow_at. do 4 f_equal. lia.
Qed.
End search_facts.

(** The nonce search is exhaustive and exact.  It always returns; what it returns is the first
    of the nonces [start, start + step, ...] (modulo 2^64, [tries] of them) whose hash meets the
    difficulty, with that hash; it returns nothing only if it was stopped or none of them
    does; an error is the hasher's.  (The hasher hashes batches pointwise.) *)
Theorem search_exhaustive `{K : Keccak} `{H : Hasher} {HL : HasherLaws H} (alg : Algorithm)
    (key seal difficulty start step tries : Z) (stop : nat -> bool) (Hstart : in_range 64 start) :
  exists r, search alg key seal difficulty start step tries stop = Done r
    /\ search_post alg key seal difficulty start step tries r (exists t, stop t = true).
Proof.
  assert (nonce_at start step 0 = start) as E
    by (unfold nonce_at; rewrite Z.mul_0_l, Z.add_0_r; by apply wrap_small).
  pose proof (search_loop_spec alg key seal difficulty start step tries stop (Z.to_nat tries) 0 0
    ltac:(lia) ltac:(lia) ltac:(lia)) as Hs.
  rewrite E in Hs. exact Hs.
Qed.

(** ** Witnesses *)
Module PowWitness.
Definition params : AsertParams := mkAsert 10 60 1000 16.

Lemma asert_half_life_witness :
  next_difficulty params 7 1000 (10 + 2 * 60) = 250 /\ next_difficulty params 7 1000 10 = 1000.
Proof.
  split.
  - etransitivity; [apply (asert_half_life params 7 1000 2); [lia|lia|by vm_compute]|reflexivity].
  - etransitivity; [apply (asert_half_life params 7 1000 0); [lia|lia|by vm_compute]|reflexivity].
Defined.

Lemma asert_direction_witness :
  next_difficulty params 7 1000 50 <= next_difficulty params 7 1000 20
  /\ 998 <= next_difficulty params 7 1000 3.
Proof.
  destruct (asert_direction params 7 1000 20 50) as (H1 & _ & H3 & _);
    [lia|lia|by vm_compute|by vm_compute|].
  split; [exact H1|]. apply H3. by vm_compute.
Defined.

Lemma seed_height_lags_witness : seed_height 5000 + 64 < 5000 <= seed_height 5000 + 2048 + 64.
Proof.
  destruct (seed_height_lags 5000 6000) as (_ & _ & H & _); [lia|]. apply H. by vm_compute.
Defined.

Lemma meets_product_witness : meets (2 ^ 250) 32 = true /\ meets (2 ^ 250) 7 = true.
Proof.
  destruct (meets_product (2 ^ 250) 32 7) as (_ & H & _); [by vm_compute|lia|].
  split; [by vm_compute|]. apply H. by vm_compute.
Defined.

#[export] Instance toy_keccak : Keccak := fun b => wrap 256 (be_val b * 2 ^ 200).
#[export] Instance toy_hasher : Hasher :=
  {| PowError := unit; hasher_batch key l := Ok (map (fun b => keccak256 (b256_bytes key ++ b)) l) |}.
#[export] Instance toy_hasher_laws : HasherLaws toy_hasher.
Proof.
  refine {| hash1 := fun _ key b => keccak256 (b256_bytes key ++ b) |}; [|done].
  by intros key l r [= <-].
Defined.

(** Nonces 5, 8, 11, ... *)
Lemma search_exhaustive_witness :
  exists r, search KeccakAlgorithm 1 2 (2 ^ 30) 5 3 40 (fun _ => false) = Done r
    /\ search_post KeccakAlgorithm 1 2 (2 ^ 30) 5 3 40 r
         (exists t : nat, (fun _ => false) t = true).
Proof.
  apply (search_exhaustive KeccakAlgorithm 1 2 (2 ^ 30) 5 3 40 (fun _ => false)).
  by split.
Defined.
End PowWitness.
