(* ===== verification/Committee.v ===== *)
(** * Committee sampling

    Models crates/system/src/committee.rs: stake-weighted sampling of seats with replacement and the
    byte encoding of the seats.  [outcome] marks the two ways [sample] can abort: inputs of
    different lengths and an index out of range. *)

From S2P Require Import Prelude Types TypesFacts.
From stdpp Require Import base list list_numbers gmap strings.
From Stdlib Require Import ZArith Lia.

Open Scope Z_scope.

Record Committee := mkCommittee {
  members : list Z;
  c_weights : list Z;
  c_seats : list Z;
}.

Definition Committee_equal (ids : list Z) : Committee :=
  mkCommittee ids (replicate (length ids) 1) (seqZ 0 (u16 (Z.of_nat (length ids)))).

(** The running totals of the stakes ([U256] addition wraps). *)
Fixpoint cumulate (total : Z) (stakes : list Z) : list Z :=
  match stakes with
  | [] => []
  | s :: stakes => let total := wrap 256 (total + s) in total :: cumulate total stakes
  end.

(** [slice::partition_point] on a partitioned slice: the length of the prefix that satisfies [f]. *)
Fixpoint partition_point (f : Z -> bool) (l : list Z) : nat :=
  match l with
  | [] => 0
  | x :: l => if f x then S (partition_point f l) else 0
  end.

(** State of the loop: the committee so far and the index of each member. *)
Definition SampleState : Type := Committee * gmap Z Z.

(** [index_of.entry(id).or_insert_with(..)]: a new member gets the next index and no weight. *)
Definition member_index (id : Z) (st : SampleState) : Z * SampleState :=
  let '(c, index_of) := st in
  match index_of !! id with
  | Some m => (m, st)
  | None =>
      let m := u16 (Z.of_nat (length (members c))) in
      (m, (mkCommittee (members c ++ [id]) (c_weights c ++ [0]) (c_seats c), <[id := m]> index_of))
  end.

(** [weights[m] += 1] on [u16] and [seats.push(m)]. *)
Definition take_seat (m : Z) (c : Committee) : outcome Committee :=
  match c_weights c !! Z.to_nat m with
  | Some w => Done (mkCommittee (members c) (<[Z.to_nat m := u16 (w + 1)]> (c_weights c))
                      (c_seats c ++ [m]))
  | None => Panic
  end.

Section sampling.
Context `{K : Keccak}.

Definition seat_draw (seed epoch total : Z) (i : Z) : Z :=
  be_val (b256_bytes (keccak256 (b256_bytes seed ++ be_bytes 8 epoch ++ be_bytes 4 i))) mod total.

Definition sample_seat (seed epoch : Z) (ids cumulative : list Z) (total : Z) (i : Z)
    (st : SampleState) : outcome SampleState :=
  let r := seat_draw seed epoch total i in
  match ids !! partition_point (fun c => c <=? r) cumulative with
  | None => Panic
  | Some id =>
      let '(m, (c, index_of)) := member_index id st in
      match take_seat m c with
      | Done c => Done (c, index_of)
      | Panic => Panic
      | OutOfFuel => OutOfFuel
      end
  end.

(** Seats [i, i + 1, ..., i + n - 1]. *)
Fixpoint sample_seats (seed epoch : Z) (ids cumulative : list Z) (total : Z) (n : nat) (i : Z)
    (st : SampleState) : outcome SampleState :=
  match n with
  | O => Done st
  | S n =>
      match sample_seat seed epoch ids cumulative total i st with
      | Done st => sample_seats seed epoch ids cumulative total n (i + 1) st
      | Panic => Panic
      | OutOfFuel => OutOfFuel
      end
  end.

Definition Committee_default : Committee := mkCommittee [] [] [].

Definition sample (seed epoch : Z) (ids stakes : list Z) (size : Z) : outcome Committee :=
  if negb (Nat.eqb (length ids) (length stakes)) then Panic
  else
    let cumulative := cumulate 0 stakes in
    let total := default 0 (last cumulative) in
    if total =? 0 then Done Committee_default
    else
      match sample_seats seed epoch ids cumulative total (Z.to_nat size) 0 (Committee_default, ∅) with
      | Done (c, _) => Done c
      | Panic => Panic
      | OutOfFuel => OutOfFuel
      end.
End sampling.

Definition seats_bytes (c : Committee) : bytes := concat (map (be_bytes 2) (c_seats c)).

(** [seats.chunks_exact(2)]: an odd last byte is dropped. *)
Fixpoint u16_chunks (b : bytes) : list Z :=
  match b with
  | x :: y :: b => be_val [x; y] :: u16_chunks b
  | _ => []
  end.

Definition from_parts (ms ws : list Z) (seats : bytes) : Committee :=
  mkCommittee ms ws (u16_chunks seats).

Definition Committee_is_empty (c : Committee) : bool := bool_decide (members c = []).

(** ** Facts: picking a validator by stake *)

(** The stakes before the [k]-th validator. *)
Definition stake_before (stakes : list Z) (k : nat) : Z := sumZ (take k stakes).

Lemma cumulate_lookup stakes t k s :
  0 <= t -> Forall (fun x => 0 <= x) stakes -> t + sumZ stakes < 2 ^ 256 ->
  stakes !! k = Some s ->
  cumulate t stakes !! k = Some (t + stake_before stakes k + s).
Proof.
  revert t k. induction stakes as [|x stakes IH]; intros t k Ht Hpos Hsum Hk; [done|].
  apply Forall_cons in Hpos as [Hx Hpos]. simpl in Hsum.
  pose proof (sumZ_nonneg stakes Hpos). simpl. rewrite (wrap_small 256) by (unfold in_range; lia).
  destruct k as [|k]; simpl in *; [injection Hk as ->; unfold stake_before; simpl; f_equal; lia|].
  rewrite (IH (t + x) k); [|lia|done|lia|done]. unfold stake_before. simpl. f_equal. lia.
Qed.

Lemma cumulate_length t stakes : length (cumulate t stakes) = length stakes.
Proof. revert t. induction stakes; intros t; simpl; [done|]. by rewrite IHstakes. Qed.

Lemma partition_point_spec f l :
  (forall i x, (i < partition_point f l)%nat -> l !! i = Some x -> f x = true)
  /\ (forall x, l !! partition_point f l = Some x -> f x = false)
  /\ (partition_point f l <= length l)%nat.
Proof.
  induction l as [|y l (IH1 & IH2 & IH3)]; simpl; [split; [|split]; (done || lia)|].
  destruct (f y) eqn:E; simpl.
  - split; [|split; [done|lia]]. intros [|i] x Hi Hx; [by injection Hx as <-|].
    apply (IH1 i); [lia|done].
  - split; [|split; [|lia]]; [lia|]. by intros x [= <-].
Qed.

Lemma stake_before_succ stakes k s :
  stakes !! k = Some s -> stake_before stakes (S k) = stake_before stakes k + s.
Proof.
  intros Hk. unfold stake_before. rewrite (take_S_r _ _ _ Hk), sumZ_app. simpl. lia.
Qed.

Lemma stake_before_full stakes : stake_before stakes (length stakes) = sumZ stakes.
Proof. unfold stake_before. by rewrite firstn_all. Qed.

Lemma stake_before_le stakes k k' :
  Forall (fun x => 0 <= x) stakes -> (k <= k')%nat -> stake_before stakes k <= stake_before stakes k'.
Proof.
  unfold stake_before. intros Hpos. revert k k'.
  induction Hpos as [|x stakes Hx Hpos IH]; intros k k' Hk; [by rewrite !take_nil|].
  destruct k as [|k], k' as [|k']; simpl; try lia.
  - pose proof (sumZ_nonneg (take k' stakes) (Forall_take _ _ _ Hpos)). lia.
  - specialize (IH k k' ltac:(lia)). lia.
Qed.

(** The validator picked by [r] is the one whose share of the stakes contains [r]. *)
Lemma pick_spec stakes r :
  Forall (fun x => 0 <= x) stakes -> sumZ stakes < 2 ^ 256 -> 0 <= r < sumZ stakes ->
  exists s, stakes !! partition_point (fun c => c <=? r) (cumulate 0 stakes) = Some s
    /\ stake_before stakes (partition_point (fun c => c <=? r) (cumulate 0 stakes)) <= r
       < stake_before stakes (partition_point (fun c => c <=? r) (cumulate 0 stakes)) + s.
Proof.
  intros Hpos Hsum Hr. set (k := partition_point _ _).
  destruct (partition_point_spec (fun c => c <=? r) (cumulate 0 stakes)) as (Hlt & Hge & Hle).
  fold k in Hlt, Hge, Hle. rewrite cumulate_length in Hle.
  assert (stake_before stakes k <= r) as Hb.
  { destruct k as [|j] eqn:Ek; [unfold stake_before; simpl; lia|].
    destruct (lookup_lt_is_Some_2 stakes j) as [s Hs]; [lia|].
    specialize (Hlt j _ ltac:(lia)
      (cumulate_lookup stakes 0 j s ltac:(lia) Hpos ltac:(lia) Hs)).
    rewrite (stake_before_succ _ _ _ Hs). lia. }
  destruct (stakes !! k) as [s|] eqn:Es.
  - exists s. split; [done|]. split; [done|].
    specialize (Hge _ (cumulate_lookup stakes 0 k s ltac:(lia) Hpos ltac:(lia) Es)). lia.
  - exfalso. apply lookup_ge_None in Es. assert (k = length stakes) as E by lia.
    rewrite E, stake_before_full in Hb. lia.
Qed.

Lemma last_cumulate stakes :
  Forall (fun x => 0 <= x) stakes -> sumZ stakes < 2 ^ 256 ->
  default 0 (last (cumulate 0 stakes)) = sumZ stakes.
Proof.
  intros Hpos Hsum. destruct stakes as [|x stakes] using rev_ind; [done|]. clear IHstakes.
  rewrite last_lookup, cumulate_length, length_app. simpl.
  replace (Init.Nat.pred (length stakes + 1)) with (length stakes) by lia.
  rewrite (cumulate_lookup (stakes ++ [x]) 0 (length stakes) x); [|lia|done|lia|].
  - simpl. unfold stake_before. rewrite take_app_length, sumZ_app. simpl. lia.
  - by rewrite lookup_app_r, Nat.sub_diag by lia.
Qed.

(** ** Facts: the committee *)

Lemma add_seats_total n ss :
  Forall (fun s => 0 <= s < Z.of_nat n) ss ->
  exists w, foldl ValidatorSet.add_seat (Some (replicate n 0)) ss = Some w /\ length w = n.
Proof.
  induction ss as [|s ss IH] using rev_ind; intros H.
  - eexists. split; [reflexivity|]. apply length_replicate.
  - apply Forall_app in H as [H1 H2]. apply Forall_cons in H2 as [Hs _].
    destruct (IH H1) as (w & E & Hw). rewrite foldl_app, E. simpl.
    destruct (lookup_lt_is_Some_2 w (Z.to_nat s)) as [x ->].
    { lia. }
    eexists. split; [reflexivity|]. by rewrite length_insert.
Qed.

(** [id] is a validator with a positive stake. *)
Definition staked (ids stakes : list Z) (id : Z) : Prop :=
  exists k s, ids !! k = Some id /\ stakes !! k = Some s /\ 0 < s.

Record sampled (ids stakes : list Z) (c : Committee) : Prop := {
  sp_nodup : NoDup (members c);
  sp_staked : Forall (staked ids stakes) (members c);
  sp_weights : length (c_weights c) = length (members c);
  sp_counts k w : c_weights c !! k = Some w -> w = seat_count (c_seats c) (Z.of_nat k);
  sp_seats : Forall (fun m => 0 <= m < Z.of_nat (length (members c))) (c_seats c);
  sp_size : (length (members c) <= length (c_seats c))%nat;
}.

(** The index of each member, as the loop keeps it. *)
Definition indexed (c : Committee) (index_of : gmap Z Z) : Prop :=
  forall id m, index_of !! id = Some m <-> 0 <= m /\ members c !! Z.to_nat m = Some id.

Lemma member_index_ok ids stakes id c index_of m c' index_of' :
  sampled ids stakes c -> indexed c index_of -> staked ids stakes id ->
  Z.of_nat (length (c_seats c)) < 65535 ->
  member_index id (c, index_of) = (m, (c', index_of')) ->
  indexed c' index_of' /\ c_seats c' = c_seats c /\ 0 <= m < Z.of_nat (length (members c'))
  /\ NoDup (members c') /\ Forall (staked ids stakes) (members c')
  /\ length (c_weights c') = length (members c')
  /\ (forall k w, c_weights c' !! k = Some w -> w = seat_count (c_seats c) (Z.of_nat k))
  /\ (length (members c') <= S (length (c_seats c)))%nat
  /\ Forall (fun m => 0 <= m < Z.of_nat (length (members c'))) (c_seats c).
Proof.
  intros [Hnd Hst Hw Hcnt Hs Hsz] Hix Hid Hlen. unfold member_index.
  destruct (index_of !! id) as [m0|] eqn:E.
  - intros [= <- <- <-]. apply Hix in E as E'. destruct E' as [H0 Hm].
    apply lookup_lt_Some in Hm. repeat (split; [first [done|lia]|]). done.
  - intros [= <- <- <-]. simpl. rewrite (wrap_small 16) by (unfold in_range; lia).
    assert (id ∉ members c) as Hnew.
    { intros [k Hk]%list_elem_of_lookup. assert (index_of !! id = Some (Z.of_nat k)); [|congruence].
      apply Hix. split; [lia|]. by rewrite Nat2Z.id. }
    split.
    { intros id' m'. cbn [members]. destruct (decide (id' = id)) as [->|Hne].
      - rewrite lookup_insert_eq. split.
        + intros [= <-]. split; [lia|]. by rewrite Nat2Z.id, lookup_app_r, Nat.sub_diag by lia.
        + intros [Hm Hk]. f_equal. destruct (decide (Z.to_nat m' < length (members c))%nat).
          * rewrite lookup_app_l in Hk by done. exfalso. apply Hnew, list_elem_of_lookup. eauto.
          * apply lookup_lt_Some in Hk. rewrite length_app in Hk. simpl in Hk. lia.
      - rewrite lookup_insert_ne by done. rewrite (Hix id' m'). split; intros [Hm Hk];
          (split; [done|]).
        + rewrite lookup_app_l; [done|]. by eapply lookup_lt_Some.
        + apply lookup_snoc_Some in Hk as [[_ ?]|[_ ?]]; [done|congruence]. }
    rewrite !length_app. simpl. split; [done|]. split; [lia|].
    split; [apply NoDup_app; split; [done|]; split; [|apply NoDup_singleton]|].
    { intros x Hx Hx'%list_elem_of_singleton. congruence. }
    split; [apply Forall_app; split; [done|]; by constructor|].
    split; [lia|]. split; [|split; [lia|eapply Forall_impl; [exact Hs|]; simpl; lia]].
    intros k w [[_ Hk]|[-> <-]]%lookup_snoc_Some; [by apply Hcnt|].
    unfold seat_count. symmetry.
    destruct (filter _ (c_seats c)) as [|x l] eqn:Ef; [done|]. exfalso.
    assert (x ∈ filter (fun s => s = Z.of_nat (length (c_weights c))) (c_seats c)) as Hx
      by (rewrite Ef; left).
    apply list_elem_of_filter in Hx as [Heq Hx]. rewrite Forall_forall in Hs. apply Hs in Hx. lia.
Qed.

Lemma take_seat_ok ids stakes c index_of id m c1 index1 :
  sampled ids stakes c -> indexed c index_of -> staked ids stakes id ->
  Z.of_nat (length (c_seats c)) < 65535 ->
  member_index id (c, index_of) = (m, (c1, index1)) ->
  exists c2, take_seat m c1 = Done c2 /\ sampled ids stakes c2 /\ indexed c2 index1
    /\ length (c_seats c2) = S (length (c_seats c)).
Proof.
  intros Hsp Hix Hid Hlen E.
  destruct (member_index_ok _ _ _ _ _ _ _ _ Hsp Hix Hid Hlen E)
    as (Hix1 & Es & Hm & Hnd & Hst & Hw & Hcnt & Hsz & Hseats).
  unfold take_seat. destruct (c_weights c1 !! Z.to_nat m) as [w|] eqn:Ew.
  2:{ exfalso. apply lookup_ge_None in Ew. lia. }
  eexists. split; [reflexivity|]. simpl. split; [|split; [done|rewrite length_app, Es; simpl; lia]].
  pose proof (Hcnt _ _ Ew) as Ec. constructor; simpl; try done.
  - by rewrite length_insert.
  - intros k x Hk. rewrite seat_count_snoc. destruct (decide (Z.to_nat m = k)) as [<-|Hne].
    + rewrite list_lookup_insert_eq in Hk by (by eapply lookup_lt_Some). injection Hk as <-.
      rewrite decide_True by lia. rewrite Es, Ec. apply wrap_small. unfold in_range, seat_count.
      pose proof (length_filter (fun s => s = Z.of_nat (Z.to_nat m)) (c_seats c)). lia.
    + rewrite list_lookup_insert_ne in Hk by done. rewrite decide_False by lia.
      rewrite Es, Z.add_0_r. by apply Hcnt.
  - apply Forall_app. rewrite Es. split; [done|]. by constructor.
  - rewrite length_app, Es. simpl. lia.
Qed.

Section sample_facts.
Context `{K : Keccak} (seed epoch : Z) (ids stakes : list Z).
Context (Hlen : length ids = length stakes) (Hpos : Forall (fun x => 0 <= x) stakes)
  (Hsum : 0 < sumZ stakes < 2 ^ 256).

Lemma sample_seat_ok i c index_of :
  sampled ids stakes c -> indexed c index_of -> Z.of_nat (length (c_seats c)) < 65535 ->
  exists c' index', sample_seat seed epoch ids (cumulate 0 stakes) (sumZ stakes) i (c, index_of)
                    = Done (c', index')
    /\ sampled ids stakes c' /\ indexed c' index' /\ length (c_seats c') = S (length (c_seats c)).
Proof.
  intros Hsp Hix Hl. unfold sample_seat.
  set (r := seat_draw seed epoch (sumZ stakes) i).
  assert (0 <= r < sumZ stakes) as Hr by (apply Z.mod_pos_bound; lia).
  destruct (pick_spec stakes r Hpos ltac:(lia) Hr) as (s & Hs & Hin).
  set (k := partition_point _ _) in *.
  destruct (lookup_lt_is_Some_2 ids k) as [id Hid].
  { rewrite Hlen. by eapply lookup_lt_Some. }
  rewrite Hid. destruct (member_index id (c, index_of)) as [m [c1 index1]] eqn:E.
  assert (staked ids stakes id) as Hst by (exists k, s; split; [done|]; split; [done|]; lia).
  destruct (take_seat_ok _ _ _ _ _ _ _ _ Hsp Hix Hst Hl E) as (c2 & -> & ? & ? & ?).
  by exists c2, index1.
Qed.

Lemma sample_seats_ok n i c index_of :
  sampled ids stakes c -> indexed c index_of ->
  Z.of_nat (length (c_seats c) + n) < 65536 ->
  exists c' index', sample_seats seed epoch ids (cumulate 0 stakes) (sumZ stakes) n i (c, index_of)
                    = Done (c', index')
    /\ sampled ids stakes c' /\ length (c_seats c') = (length (c_seats c) + n)%nat.
Proof.
  revert i c index_of. induction n as [|n IH]; intros i c index_of Hsp Hix Hl; simpl.
  - eexists _, _. split; [reflexivity|]. split; [done|]. lia.
  - destruct (sample_seat_ok i c index_of Hsp Hix ltac:(lia)) as (c1 & ix1 & -> & H1 & H2 & H3).
    destruct (IH (i + 1) c1 ix1 H1 H2 ltac:(lia)) as (c2 & ix2 & -> & H4 & H5).
    eexists _, _. split; [reflexivity|]. split; [done|]. lia.
Qed.
End sample_facts.

(** C40.  Sampling gives a well-formed committee: for stakes whose sum is positive and fits 256 bits,
    [sample] does not abort; it fills exactly [size] seats; members are distinct validators
    with positive stake; and each member's weight is its number of seats, so that the engine's
    [ValidatorSet::from_seats] computes the same weights. *)
Theorem sample_committee `{K : Keccak} (seed epoch : Z) (ids stakes : list Z) (size : Z)
    (Hlen : length ids = length stakes) (Hpos : Forall (fun x => 0 <= x) stakes)
    (Hsum : 0 < sumZ stakes < 2 ^ 256) (Hsize : 0 <= size < 65536) :
  exists c, sample seed epoch ids stakes size = Done c
    /\ Z.of_nat (length (c_seats c)) = size
    /\ NoDup (members c) /\ Forall (staked ids stakes) (members c)
    /\ exists vs, ValidatorSet.from_seats (length (members c)) (c_seats c) = Done vs
        /\ weights vs = c_weights c.
Proof.
  unfold sample. rewrite Hlen, Nat.eqb_refl. cbn [negb].
  rewrite last_cumulate by (done || lia). replace (sumZ stakes =? 0) with false by lia.
  destruct (sample_seats_ok seed epoch ids stakes Hlen Hpos Hsum (Z.to_nat size) 0
    Committee_default ∅) as (c & ix & -> & Hsp & Hl).
  - split; simpl; try done; constructor.
  - intros id m. rewrite lookup_empty. simpl. rewrite lookup_nil. split; [done|]. by intros [_ ?].
  - simpl. lia.
  - exists c. split; [done|]. simpl in Hl. split; [lia|]. split; [apply Hsp|].
    split; [apply Hsp|]. destruct Hsp as [_ _ Hw Hcnt Hs _].
    unfold ValidatorSet.from_seats.
    assert (exists w, foldl ValidatorSet.add_seat (Some (replicate (length (members c)) 0)) (c_seats c)
      = Some w) as [w Ew] by (destruct (add_seats_total _ _ Hs) as (w & ? & _); eauto).
    rewrite Ew. eexists. split; [reflexivity|]. simpl.
    destruct (add_seats_spec (length (members c)) (c_seats c) w) as (Hlw & _ & Hws);
      [eapply Forall_impl; [exact Hs|]; simpl; lia|lia|done|].
    apply list_eq. intros k. destruct (decide (k < length (members c))%nat) as [Hk|Hk].
    + rewrite (Hws k Hk). destruct (lookup_lt_is_Some_2 (c_weights c) k) as [x Hx]; [lia|].
      rewrite Hx. f_equal. symmetry. by apply Hcnt.
    + rewrite !lookup_ge_None_2 by lia. done.
Qed.

(** Draws are proportional to stake: among the [total] possible draws, exactly the [stake_k]
    ones in the [k]-th validator's interval pick it. *)
Theorem sample_proportional (stakes : list Z) (r s : Z) (k : nat)
    (Hpos : Forall (fun x => 0 <= x) stakes) (Hsum : sumZ stakes < 2 ^ 256)
    (Hr : 0 <= r < sumZ stakes) (Hk : stakes !! k = Some s) :
  partition_point (fun c => c <=? r) (cumulate 0 stakes) = k
  <-> stake_before stakes k <= r < stake_before stakes k + s.
Proof.
  destruct (pick_spec stakes r Hpos Hsum Hr) as (s' & Hs' & Hin).
  set (j := partition_point _ _) in *. split.
  - intros <-. rewrite Hk in Hs'. by injection Hs' as <-.
  - intros Hin'. destruct (Nat.lt_trichotomy j k) as [Hlt|[?|Hlt]]; [exfalso|done|exfalso].
    + pose proof (stake_before_le stakes (S j) k Hpos Hlt).
      rewrite (stake_before_succ _ _ _ Hs') in H. lia.
    + pose proof (stake_before_le stakes (S k) j Hpos Hlt).
      rewrite (stake_before_succ _ _ _ Hk) in H. lia.
Qed.

Lemma u16_chunks_seats l :
  Forall (in_range 16) l -> u16_chunks (concat (map (be_bytes 2) l)) = l.
Proof.
  induction 1 as [|s l Hs _ IH]; [done|]. cbn [map concat].
  change (be_val (be_bytes 2 s) :: u16_chunks (concat (map (be_bytes 2) l)) = s :: l).
  rewrite IH. f_equal. by apply be_val_bytes_small.
Qed.

(** The seats survive the trip through [ConsensusRegistry]: rebuilding a committee from its
    members, weights and seat bytes gives it back. *)
Theorem seats_round_trip (c : Committee) (Hs : Forall (in_range 16) (c_seats c)) :
  from_parts (members c) (c_weights c) (seats_bytes c) = c.
Proof. unfold from_parts, seats_bytes. rewrite u16_chunks_seats by done. by destruct c. Qed.

Module CommitteeWitness.
#[export] Instance toy_keccak : Keccak := fun b => wrap 256 (be_val b * 7919 + 13).

Lemma sample_committee_witness :
  exists c, sample 5 3 [1; 2; 3; 4] [1; 0; 2; 4] 8 = Done c
    /\ Z.of_nat (length (c_seats c)) = 8 /\ 2 ∉ members c.
Proof.
  destruct (sample_committee 5 3 [1; 2; 3; 4] [1; 0; 2; 4] 8) as (c & Hc & Hl & _ & Hst & _).
  - done.
  - repeat constructor; lia.
  - simpl. lia.
  - lia.
  - exists c. split; [exact Hc|]. split; [exact Hl|]. intros Hin.
    clear Hc Hl. rewrite Forall_forall in Hst. apply Hst in Hin as (k & s & Hk & Hs & Hpos).
    clear Hst. do 4 (destruct k as [|k]; [simpl in Hk, Hs; simplify_eq; lia|]). discriminate Hk.
Defined.

Lemma sample_proportional_witness :
  partition_point (fun c => c <=? 5) (cumulate 0 [1; 0; 2; 4]) = 3%nat.
Proof.
  apply (sample_proportional [1; 0; 2; 4] 5 4 3); [repeat constructor; lia|simpl; lia|simpl; lia|done|].
  unfold stake_before. simpl. lia.
Defined.

Lemma seats_round_trip_witness :
  from_parts [9; 8] [2; 1] (seats_bytes (mkCommittee [9; 8] [2; 1] [0; 1; 0]))
  = mkCommittee [9; 8] [2; 1] [0; 1; 0].
Proof. apply (seats_round_trip (mkCommittee [9; 8] [2; 1] [0; 1; 0])). repeat constructor; simpl; unfold in_range; lia. Defined.
End CommitteeWitness.
