(* ===== verification/History.v ===== *)
(** * History sharding and audit draws

    Models crates/system/src/history.rs: which providers keep an epoch's data (rendezvous hashing),
    and the audit tasks and panel drawn for an epoch.  [merge_sort] on the lexicographic order of
    pairs stands for [Vec::sort]; the order is total and antisymmetric, so the sorted list is the
    only one.  A reduction modulo zero aborts ([Panic]). *)

From S2P Require Import Prelude Types Params.
From stdpp Require Import base list list_numbers sorting gmap strings.
From Stdlib Require Import ZArith Lia.

Open Scope Z_scope.

(** The order of Rust pairs of unsigned integers. *)
Definition pair_le (a b : Z * Z) : Prop := a.1 < b.1 \/ (a.1 = b.1 /\ a.2 <= b.2).

#[export] Instance pair_le_dec a b : Decision (pair_le a b).
Proof. unfold pair_le. apply _. Defined.

#[export] Instance pair_le_total : Total pair_le.
Proof. intros [a b] [c d]. unfold pair_le. simpl. lia. Qed.

#[export] Instance pair_le_trans : Transitive pair_le.
Proof. intros [a b] [c d] [e f]. unfold pair_le. simpl. lia. Qed.

#[export] Instance pair_le_antisymm : AntiSymm (=) pair_le.
Proof. intros [a b] [c d]. unfold pair_le. simpl. intros. f_equal; lia. Qed.

(** [scored.sort(); scored.into_iter().take(n).map(|(_, id)| id)], with the score of each id. *)
Definition lowest (score : Z -> Z) (ids : list Z) (n : nat) : list Z :=
  map snd (take n (merge_sort pair_le (map (fun id => (score id, id)) ids))).

Section draws.
Context `{K : Keccak}.

Definition closest (index_cid : bytes) (ids : list Z) (n : nat) : list Z :=
  lowest (fun id => keccak256 (index_cid ++ be_bytes 4 id)) ids n.

Definition assignees (index_cid : bytes) (validators storage : list Z) : list Z :=
  closest index_cid validators (Z.to_nat HISTORY_REPLICATION)
  ++ closest index_cid storage (Z.to_nat STORAGE_REPLICATION).

Definition draw (seed : Z) (tag : bytes) (epoch i : Z) : Z :=
  be_val (take 8 (b256_bytes
    (keccak256 (b256_bytes seed ++ tag ++ be_bytes 8 epoch ++ be_bytes 4 i)))).

Definition draw_index (seed : Z) (tag : bytes) (epoch i n : Z) : outcome Z :=
  if n =? 0 then Panic else Done (draw seed tag epoch i mod n).

Record AuditTask := mkAuditTask {
  provider : Z;
  target : Z;
  at_height : Z;
}.

(** [last_old + 1] wraps at [u64::MAX], and the reduction modulo it then aborts. *)
Definition draw_targets (seed epoch last_old : Z) : outcome (list Z) :=
  let n := u64 (last_old + 1) in
  if n =? 0 then Panic
  else Done (map (fun i => draw seed (ascii_bytes "audit/target") epoch (Z.of_nat i) mod n)
               (seq 0 (Z.to_nat AUDIT_TASKS))).

Definition draw_task (seed epoch i target : Z) (assigned : list Z) (first count : Z)
    : outcome (option AuditTask) :=
  if bool_decide (assigned = []) || (count =? 0) then Done None
  else
    match assigned !! Z.to_nat (draw seed (ascii_bytes "audit/provider") epoch i
                                  mod Z.of_nat (length assigned)) with
    | None => Panic
    | Some provider =>
        let height := u64 (first + draw seed (ascii_bytes "audit/block") epoch i mod count) in
        Done (Some (mkAuditTask provider target height))
    end.

Definition draw_panel (seed epoch : Z) (ids : list Z) : list Z :=
  lowest (fun id => draw seed (ascii_bytes "audit/panel") epoch id) ids (Z.to_nat AUDIT_PANEL).
End draws.

(** ** Facts on [lowest] *)

Lemma StronglySorted_filter {A} (R : A -> A -> Prop) (P : A -> Prop) `{!forall x, Decision (P x)} l :
  StronglySorted R l -> StronglySorted R (filter P l).
Proof.
  induction 1 as [|x l Hl IH Hx]; [constructor|]. rewrite filter_cons.
  case_decide; [|done]. constructor; [done|]. rewrite Forall_forall in *.
  intros y [_ Hy]%list_elem_of_filter. by apply Hx.
Qed.

Lemma filter_all {A} (P : A -> Prop) `{!forall x, Decision (P x)} l :
  Forall P l -> filter P l = l.
Proof. induction 1; [done|]. rewrite filter_cons_True by done. congruence. Qed.

(** Filtering commutes with sorting. *)
Lemma merge_sort_filter (P : Z * Z -> Prop) `{!forall x, Decision (P x)} l :
  merge_sort pair_le (filter P l) = filter P (merge_sort pair_le l).
Proof.
  apply (Sorted_unique pair_le).
  - apply Sorted_merge_sort, _.
  - apply StronglySorted_Sorted, StronglySorted_filter, StronglySorted_merge_sort; apply _.
  - rewrite merge_sort_Permutation. by rewrite (merge_sort_Permutation _ l).
Qed.

Lemma take_filter {A} (P : A -> Prop) `{!forall x, Decision (P x)} l n :
  filter P (take n l) `prefix_of` take n (filter P l).
Proof.
  revert n. induction l as [|x l IH]; intros [|n]; simpl; [by apply prefix_nil..|].
  rewrite !filter_cons. destruct (decide (P x)).
  - apply prefix_cons, IH.
  - etrans; [apply IH|]. rewrite <-(take_drop n (take (S n) (filter P l))).
    rewrite take_take. rewrite Nat.min_l by lia. by apply prefix_app_r.
Qed.

Lemma filter_scored (score : Z -> Z) (P : Z -> Prop) `{!forall x, Decision (P x)} ids :
  map (fun id => (score id, id)) (filter P ids)
  = filter (fun p => P p.2) (map (fun id => (score id, id)) ids).
Proof.
  induction ids as [|x ids IH]; [done|]. rewrite filter_cons. simpl. rewrite filter_cons. simpl.
  case_decide; simpl; by rewrite IH.
Qed.

Lemma filter_map_snd (P : Z -> Prop) `{!forall x, Decision (P x)} (l : list (Z * Z)) :
  filter P (map snd l) = map snd (filter (fun p => P p.2) l).
Proof.
  induction l as [|[s x] l IH]; [done|]. cbn [map snd]. rewrite !filter_cons. cbn [snd].
  case_decide; cbn [map snd]; by rewrite IH.
Qed.

(** The chosen ids that stay are chosen again, in the same order and before any other. *)
Lemma lowest_filter score (P : Z -> Prop) `{!forall x, Decision (P x)} ids n :
  filter P (lowest score ids n) `prefix_of` lowest score (filter P ids) n.
Proof.
  unfold lowest. rewrite filter_scored, merge_sort_filter, filter_map_snd.
  destruct (take_filter (fun p => P p.2)
    (merge_sort pair_le (map (fun id => (score id, id)) ids)) n) as [k ->].
  rewrite map_app. by apply prefix_app_r.
Qed.

Lemma map_snd_scored (score : Z -> Z) ids : map snd (map (fun id => (score id, id)) ids) = ids.
Proof. rewrite map_map. apply map_id. Qed.

Lemma sorted_ids score ids :
  map snd (merge_sort pair_le (map (fun id => (score id, id)) ids)) ≡ₚ ids.
Proof.
  transitivity (map snd (map (fun id => (score id, id)) ids)).
  - by apply Permutation_map, merge_sort_Permutation.
  - by rewrite map_snd_scored.
Qed.

Lemma lowest_take score ids n :
  lowest score ids n = take n (map snd (merge_sort pair_le (map (fun id => (score id, id)) ids))).
Proof. unfold lowest. by rewrite firstn_map. Qed.

Lemma lowest_subset score ids n : lowest score ids n ⊆ ids.
Proof.
  intros x Hx. rewrite <-(sorted_ids score ids). rewrite lowest_take in Hx.
  apply elem_of_take in Hx as (i & Hi & _). by eapply list_elem_of_lookup_2.
Qed.

Lemma lowest_NoDup score ids n : NoDup ids -> NoDup (lowest score ids n).
Proof.
  intros H. rewrite lowest_take. eapply sublist_NoDup; [|apply sublist_take].
  by rewrite sorted_ids.
Qed.

Lemma lowest_length score ids n : length (lowest score ids n) = Nat.min n (length ids).
Proof. rewrite lowest_take, length_take. by rewrite sorted_ids. Qed.

Lemma lowest_same score (P : Z -> Prop) `{!forall x, Decision (P x)} ids n :
  Forall P (lowest score ids n) -> lowest score (filter P ids) n = lowest score ids n.
Proof.
  intros HP. pose proof (lowest_filter score P ids n) as Hp.
  rewrite filter_all in Hp by done. symmetry. apply prefix_length_eq; [done|].
  rewrite !lowest_length. pose proof (length_filter P ids). lia.
Qed.

Lemma elem_of_lowest_filter score (P : Z -> Prop) `{!forall x, Decision (P x)} ids n y :
  y ∈ lowest score ids n -> P y -> y ∈ lowest score (filter P ids) n.
Proof.
  intros Hy HP. destruct (lowest_filter score P ids n) as [k ->].
  apply elem_of_app. left. by apply list_elem_of_filter.
Qed.

Lemma filter_ne_length (x : Z) (l : list Z) :
  NoDup l -> (length l <= S (length (filter (fun y => y <> x) l)))%nat.
Proof.
  induction 1 as [|y l Hy _ IH]; [simpl; lia|]. rewrite filter_cons. case_decide as E; simpl; [lia|].
  rewrite filter_all; [lia|]. rewrite Forall_forall. intros z Hz ->.
  apply Hy. destruct (decide (y = x)); [by subst|done].
Qed.

(** Two lists without repetition, of which the second is not longer and keeps all of the first
    but [x], differ in at most one element. *)
Lemma at_most_one_new (x : Z) (old new : list Z) :
  NoDup old -> NoDup new -> (length new <= length old)%nat ->
  (forall y, y ∈ old -> y <> x -> y ∈ new) ->
  (length (filter (fun y => y ∉ old) new) <= 1)%nat.
Proof.
  intros Ho Hn Hl Hk.
  assert (length (filter (fun y => y <> x) old) <= length (filter (fun y => y ∈ old) new))%nat as H1.
  { apply submseteq_length, NoDup_submseteq; [by apply NoDup_filter|].
    intros y. rewrite !list_elem_of_filter. intros [? ?]. auto. }
  pose proof (filter_ne_length x old Ho) as H2.
  assert (length (filter (fun y => y ∈ old) new) + length (filter (fun y => y ∉ old) new)
    = length new)%nat as H3.
  { rewrite <-length_app. apply Permutation_length.
    apply (filter_app_complement (fun y => y ∈ old)). }
  lia.
Qed.

(** Assignments are stable (rendezvous hashing): when a provider [x] leaves, an epoch it did
    not keep keeps exactly the same providers; for an epoch it did keep, every other provider
    keeps its copy, no more copies are kept than before, and at most one provider is new. *)
Theorem assignees_stable `{K : Keccak} (cid : bytes) (validators storage : list Z) (x : Z)
    (Hnd : NoDup (validators ++ storage)) :
  let old := assignees cid validators storage in
  let new := assignees cid (filter (fun y => y <> x) validators)
                           (filter (fun y => y <> x) storage) in
  (x ∉ old -> new = old)
  /\ (forall y, y ∈ old -> y <> x -> y ∈ new)
  /\ (length new <= length old)%nat
  /\ (length (filter (fun y => y ∉ old) new) <= 1)%nat.
Proof.
  intros old new. apply NoDup_app in Hnd as (Hv & Hd & Hs).
  assert (forall y, y ∈ old -> y <> x -> y ∈ new) as Hkeep.
  { intros y [Hy|Hy]%elem_of_app Hne; apply elem_of_app; [left|right];
      by apply (elem_of_lowest_filter _ (fun y => y <> x)). }
  assert (length new <= length old)%nat as Hlen.
  { unfold new, old, assignees, closest. rewrite !length_app, !lowest_length.
    pose proof (length_filter (fun y => y <> x) validators).
    pose proof (length_filter (fun y => y <> x) storage). lia. }
  split; [|split; [done|split; [done|]]].
  - intros Hx. unfold old in Hx. apply not_elem_of_app in Hx as [Hx1 Hx2].
    unfold new, old, assignees, closest.
    f_equal; apply (lowest_same _ (fun y => y <> x)); apply Forall_forall; intros y Hy ->; eauto.
  - apply (at_most_one_new x); [| |done|done]; apply NoDup_app.
    + split; [by apply lowest_NoDup|]. split; [|by apply lowest_NoDup].
      intros y ?%lowest_subset ?%lowest_subset. eapply Hd; eauto.
    + split; [by apply lowest_NoDup, NoDup_filter|]. split; [|by apply lowest_NoDup, NoDup_filter].
      intros y [_ ?]%lowest_subset%list_elem_of_filter [_ ?]%lowest_subset%list_elem_of_filter.
      eapply Hd; eauto.
Qed.

(** Storage providers add copies without displacing validators: however many register, the
    validators assigned are those assigned without them; every assignee is one of the providers
    it was drawn from; and an epoch has 16 copies of each kind, or all there are. *)
Theorem storage_adds_copies `{K : Keccak} (cid : bytes) (validators storage : list Z) :
  exists extra, assignees cid validators storage = assignees cid validators [] ++ extra
    /\ assignees cid validators [] ⊆ validators /\ extra ⊆ storage
    /\ length (assignees cid validators []) = Nat.min 16 (length validators)
    /\ length extra = Nat.min 16 (length storage).
Proof.
  exists (closest cid storage 16). unfold assignees.
  change (closest cid [] (Z.to_nat STORAGE_REPLICATION)) with (@nil Z). rewrite app_nil_r.
  repeat split; [apply lowest_subset|apply lowest_subset|apply lowest_length|apply lowest_length].
Qed.

Lemma draw_bound `{K : Keccak} seed tag epoch i : 0 <= draw seed tag epoch i.
Proof. apply be_val_nonneg. apply Forall_take, be_bytes_range. Qed.

(** Audits are well formed: an epoch has [AUDIT_TASKS] targets among the old epochs; a task
    asks one of the target's assignees for a block of the target's range; and the panel is
    [AUDIT_PANEL] distinct members of the committee, or all of it. *)
Theorem audit_draws `{K : Keccak} (seed epoch last_old i target first count : Z)
    (assigned ids : list Z)
    (Hlo : 0 <= last_old < U64_MAX) (Hfirst : 0 <= first) (Hcount : 0 < count)
    (Hrange : first + count <= 2 ^ 64) (Ha : assigned <> []) (Hnd : NoDup ids) :
  (exists ts, draw_targets seed epoch last_old = Done ts /\ length ts = 16%nat
     /\ Forall (fun t => 0 <= t <= last_old) ts)
  /\ (exists p h, draw_task seed epoch i target assigned first count
                  = Done (Some (mkAuditTask p target h))
      /\ p ∈ assigned /\ first <= h < first + count)
  /\ NoDup (draw_panel seed epoch ids) /\ draw_panel seed epoch ids ⊆ ids
  /\ length (draw_panel seed epoch ids) = Nat.min 16 (length ids).
Proof.
  split; [|split; [|split; [by apply lowest_NoDup|split; [apply lowest_subset|apply lowest_length]]]].
  - unfold draw_targets. rewrite wrap_u64_succ by done. replace (last_old + 1 =? 0) with false by lia.
    eexists. split; [reflexivity|]. split; [done|]. apply Forall_map, Forall_true. intros j. cbv beta.
    pose proof (Z.mod_pos_bound (draw seed (ascii_bytes "audit/target") epoch (Z.of_nat j))
      (last_old + 1) ltac:(lia)). lia.
  - unfold draw_task. rewrite bool_decide_false by done. replace (count =? 0) with false by lia.
    cbn [orb]. assert (0 < Z.of_nat (length assigned)) by (destruct assigned; simpl; [done|lia]).
    pose proof (Z.mod_pos_bound (draw seed (ascii_bytes "audit/provider") epoch i)
      (Z.of_nat (length assigned)) ltac:(lia)) as Hp.
    destruct (lookup_lt_is_Some_2 assigned (Z.to_nat (draw seed (ascii_bytes "audit/provider")
      epoch i mod Z.of_nat (length assigned)))) as [p Ep];
      [apply Nat2Z.inj_lt; rewrite Z2Nat.id; apply Hp|]. rewrite Ep.
    pose proof (Z.mod_pos_bound (draw seed (ascii_bytes "audit/block") epoch i) count Hcount).
    rewrite (wrap_small 64) by (unfold in_range; lia).
    eexists _, _. split; [reflexivity|]. split; [by eapply list_elem_of_lookup_2|lia].
Qed.

Module HistoryWitness.
#[export] Instance toy_keccak : Keccak := fun b => wrap 256 (be_val b * 7919 + 13).

Lemma assignees_stable_witness :
  assignees [1; 2] [3; 4; 5] [9] = [3; 4; 5; 9]
  /\ 5 ∈ assignees [1; 2] (filter (fun y => y <> 4) [3; 4; 5]) (filter (fun y => y <> 4) [9]).
Proof.
  split; [reflexivity|].
  apply (assignees_stable [1; 2] [3; 4; 5] [9] 4).
  - apply (bool_decide_unpack _). reflexivity.
  - apply (bool_decide_unpack _). reflexivity.
  - discriminate.
Defined.

Lemma audit_draws_witness :
  exists p h, draw_task 5 20 0 3 [5; 6; 7] 100 50 = Done (Some (mkAuditTask p 3 h))
    /\ p ∈ [5; 6; 7] /\ 100 <= h < 100 + 50.
Proof.
  apply (audit_draws 5 20 11 0 3 100 50 [5; 6; 7] [1; 2]).
  - unfold U64_MAX. lia.
  - lia.
  - lia.
  - lia.
  - discriminate.
  - apply (bool_decide_unpack _). reflexivity.
Defined.
End HistoryWitness.
