(* ===== verification/Epochs.v ===== *)
(** * Epochs and consensus phases

    Models the first part of crates/system/src/hooks.rs: the epoch arithmetic of [EpochRules] and
    the predicates of [Phase] that say which blocks are mined, which are mined and finalized by a
    checkpoint committee, and which are produced by the PoS committee. *)

From S2P Require Import Prelude Types Params.
From stdpp Require Import base list.
From Stdlib Require Import ZArith Lia.

Open Scope Z_scope.

Record EpochRules := mkEpochRules {
  epoch_slots : Z;
  committee_size : Z;
  checkpoint_min_stakers : Z;
  checkpoint_min_stake : Z;
  checkpoint_depth : Z;
  history_recent_epochs : Z;
  pos_min_stakers : Z;
  pos_min_stake : Z;
  pos_streak : Z;
  genesis_timestamp : Z;
}.

(** A division by zero aborts; genesis files with [epoch_slots = 0] are the only way to one. *)
Definition epoch_of (rules : EpochRules) (height : Z) : outcome Z :=
  if height =? 0 then Done 0
  else if epoch_slots rules =? 0 then Panic
  else Done ((height - 1) / epoch_slots rules).

(** [x.is_multiple_of(0)] is [x == 0]. *)
Definition is_multiple_of (x y : Z) : bool := if y =? 0 then x =? 0 else x mod y =? 0.

Definition is_epoch_start (rules : EpochRules) (height : Z) : bool :=
  (1 <=? height) && is_multiple_of (height - 1) (epoch_slots rules).

Definition epoch_end (rules : EpochRules) (epoch : Z) : Z :=
  u64 (u64 (epoch + 1) * epoch_slots rules).

Record Phase := mkPhase {
  checkpoint_epoch : option Z;
  pos_epoch : option Z;
  checkpoint_streak : Z;
  streak : Z;
}.

(** [o.is_some_and(|e| rules.epoch_of(height) >= e)]: the epoch is computed only if needed. *)
Definition epoch_reached (rules : EpochRules) (o : option Z) (height : Z) : outcome bool :=
  match o with
  | None => Done false
  | Some e => (ep <!- epoch_of rules height; Done (e <=? ep))%bolt
  end.

Definition is_pos (p : Phase) (rules : EpochRules) (height : Z) : outcome bool :=
  epoch_reached rules (pos_epoch p) height.

Definition is_checkpointing (p : Phase) (rules : EpochRules) (height : Z) : outcome bool :=
  (b <!- epoch_reached rules (checkpoint_epoch p) height;
   if b : bool then (pos <!- is_pos p rules height; Done (negb pos)) else Done false)%bolt.

Definition is_checkpoint_epoch (p : Phase) (epoch : Z) : bool :=
  match checkpoint_epoch p with
  | Some e => (e <=? epoch) && match pos_epoch p with Some q => epoch <? q | None => true end
  | None => false
  end.

Definition terminal_is_checkpointed (p : Phase) : bool :=
  match checkpoint_epoch p, pos_epoch p with
  | Some c, Some q => c <? q
  | _, _ => false
  end.

Definition terminal_height (p : Phase) (rules : EpochRules) : option Z :=
  match pos_epoch p with
  | None => None
  | Some e => if e =? 0 then None else Some (epoch_end rules (e - 1))
  end.

(** ** Facts *)

Lemma epoch_of_pos rules height :
  0 < epoch_slots rules -> 0 < height -> epoch_of rules height = Done ((height - 1) / epoch_slots rules).
Proof.
  intros Hs Hh. unfold epoch_of. replace (height =? 0) with false by lia.
  by replace (epoch_slots rules =? 0) with false by lia.
Qed.

(** Epoch [e] is the heights from [e * epoch_slots + 1] to [(e + 1) * epoch_slots]. *)
Lemma epoch_of_range rules height e :
  0 < epoch_slots rules -> 0 < height ->
  epoch_of rules height = Done e <->
  e * epoch_slots rules < height <= (e + 1) * epoch_slots rules.
Proof.
  intros Hs Hh. rewrite epoch_of_pos by done.
  pose proof (Z.div_mod (height - 1) (epoch_slots rules) ltac:(lia)) as Hd.
  pose proof (Z.mod_pos_bound (height - 1) (epoch_slots rules) Hs) as Hm.
  split; [intros [= <-]|intros [H1 H2]]; [nia|]. f_equal. symmetry.
  apply Z.div_unique with (height - 1 - epoch_slots rules * e); nia.
Qed.

Lemma is_pos_spec p rules height q :
  0 < epoch_slots rules -> 0 < height -> 0 <= q -> pos_epoch p = Some q ->
  is_pos p rules height = Done (q * epoch_slots rules <? height).
Proof.
  intros Hs Hh Hq Hp. unfold is_pos, epoch_reached. rewrite Hp, epoch_of_pos by done. simpl. f_equal.
  destruct (epoch_of_range rules height ((height - 1) / epoch_slots rules) Hs Hh) as [H _].
  specialize (H (epoch_of_pos rules height Hs Hh)).
  destruct (Z.leb_spec q ((height - 1) / epoch_slots rules)),
    (Z.ltb_spec (q * epoch_slots rules) height); (done || nia).
Qed.

(** The switch to PoS is a height: once PoS is scheduled for epoch [q > 0], the blocks up to the
    terminal block [q * epoch_slots] are mined and all later ones are the committee's; the first
    of these starts an epoch; a block is never both mined under checkpoints and the committee's;
    and [is_checkpointing] agrees with [is_checkpoint_epoch] of the block's epoch. *)
Theorem phase_switch (p : Phase) (rules : EpochRules) (q height : Z)
    (Hs : 0 < epoch_slots rules) (Hq : 0 < q) (Hfit : q * epoch_slots rules < 2 ^ 64)
    (Hp : pos_epoch p = Some q) (Hh : 0 < height) :
  exists t, terminal_height p rules = Some t
    /\ is_pos p rules height = Done (t <? height)
    /\ is_epoch_start rules (t + 1) = true
    /\ exists e, epoch_of rules height = Done e
        /\ is_checkpointing p rules height = Done (is_checkpoint_epoch p e)
        /\ (is_checkpoint_epoch p e = true -> height <= t).
Proof.
  exists (q * epoch_slots rules).
  assert (terminal_height p rules = Some (q * epoch_slots rules)) as Ht.
  { unfold terminal_height. rewrite Hp. replace (q =? 0) with false by lia. unfold epoch_end.
    rewrite (wrap_small 64 (q - 1 + 1)) by (unfold in_range; nia). f_equal.
    replace (q - 1 + 1) with q by lia. apply wrap_small. unfold in_range. lia. }
  split; [done|]. split; [by apply is_pos_spec; try lia|]. split.
  - unfold is_epoch_start, is_multiple_of. replace (epoch_slots rules =? 0) with false by lia.
    replace (q * epoch_slots rules + 1 - 1) with (q * epoch_slots rules) by lia.
    rewrite Z_mod_mult. simpl. lia.
  - pose proof (epoch_of_pos rules height Hs Hh) as He. eexists. split; [exact He|].
    pose proof (proj1 (epoch_of_range _ _ _ Hs Hh) He) as Hr. split.
    + unfold is_checkpointing, is_checkpoint_epoch, is_pos, epoch_reached. rewrite He, Hp.
      destruct (checkpoint_epoch p) as [c|]; simpl; [|done]. destruct (c <=? _); [|done].
      simpl. f_equal. lia.
    + unfold is_checkpoint_epoch. rewrite Hp. destruct (checkpoint_epoch p) as [c|]; [|done].
      intros [_ H]%andb_prop. nia.
Qed.

Module EpochsWitness.
Definition rules : EpochRules := mkEpochRules 600 512 32 0 32 7 128 0 14 0.
Definition phase : Phase := mkPhase (Some 3) (Some 5) 0 0.

Lemma phase_switch_witness :
  terminal_height phase rules = Some 3000 /\ is_pos phase rules 3001 = Done true
  /\ is_checkpointing phase rules 3000 = Done true.
Proof.
  destruct (phase_switch phase rules 5 3001) as (t & Ht & Hp & _);
    [done|done|simpl; lia|reflexivity|done|].
  assert (t = 3000) as -> by (vm_compute in Ht; congruence).
  split; [exact Ht|]. split; [exact Hp|reflexivity].
Defined.
End EpochsWitness.
