(* ===== verification/TxPool.v ===== *)
(** * The transaction pool

    Models crates/txpool/src/lib.rs.  The pool's state is [Inner], the value behind its mutex: every
    method locks it once and runs to the end, so a method is a state transformer.  Transactions
    are those of the alloy library: the class [AlloyTx] has the accessors the pool calls, and the
    intrinsic-gas function of revm.  A [HashMap] is a [gmap]; where the code iterates one, the
    iteration order is an argument ([senders]) and the theorems hold for every order.  A
    [BTreeMap] iterates in key order ([btree_range]).  [U256] and [usize] arithmetic wraps. *)

From S2P Require Import Prelude Types.
From stdpp Require Import base list list_numbers sorting gmap fin_maps strings.
From Stdlib Require Import ZArith Lia.

Open Scope Z_scope.

Abbreviation Address := Z (only parsing).

Class AlloyTx := {
  TxEnvelope : Type;
  tx_is_eip4844 : TxEnvelope -> bool;
  tx_chain_id : TxEnvelope -> option Z;
  tx_gas_limit : TxEnvelope -> Z;
  tx_max_fee_per_gas : TxEnvelope -> Z;
  tx_max_priority_fee_per_gas : TxEnvelope -> option Z;
  tx_recover_signer : TxEnvelope -> option Address;
  tx_hash : TxEnvelope -> B256;
  tx_encode_2718_len : TxEnvelope -> Z;
  tx_decode_2718 : bytes -> option (TxEnvelope * bytes);
  tx_nonce : TxEnvelope -> Z;
  tx_value : TxEnvelope -> Z;
  tx_effective_tip_per_gas : TxEnvelope -> Z -> option Z;
  tx_access_list : TxEnvelope -> option (list (Address * list B256));
  tx_authorization_count : TxEnvelope -> option Z;
  tx_input : TxEnvelope -> bytes;
  tx_is_create : TxEnvelope -> bool;
  (** revm's initial gas under Osaka: regular, state and floor gas. *)
  calculate_initial_tx_gas : bytes -> bool -> Z -> Z -> Z -> Z * Z * Z;
}.

Definition TX_GAS_LIMIT_CAP : Z := Z.shiftl 1 24.
Definition MAX_TX_BYTES : Z := 128 * 1024.

Record PoolConfig := mkPoolConfig {
  p_chain_id : Z;
  block_gas_limit : Z;
  min_base_fee : Z;
  max_txs : Z;
  max_bytes : Z;
  max_per_sender : Z;
  price_bump_pct : Z;
}.

Definition PoolConfig_new (chain_id block_gas_limit min_base_fee : Z) : PoolConfig :=
  mkPoolConfig chain_id block_gas_limit min_base_fee 4096 (Z.shiftl 16 20) 16 10.

Inductive AddError :=
  | Decode
  | TooLarge
  | SignatureError
  | Blob
  | Unprotected
  | ChainId (id : Z)
  | GasLimit (gas : Z)
  | IntrinsicGas (needed : Z)
  | FeeTooLow
  | NonceTooLow (next : Z)
  | NonceTooHigh
  | InsufficientFunds
  | Underpriced
  | AlreadyKnown
  | PoolFull.

Section pool.
Context `{A : AlloyTx}.

Record PooledTx := mkPooledTx {
  p_tx : TxEnvelope;
  p_sender : Address;
  p_hash : B256;
  p_size : Z;
}.

Definition p_nonce (p : PooledTx) : Z := tx_nonce (p_tx p).
Definition p_tip (p : PooledTx) (base_fee : Z) : option Z :=
  tx_effective_tip_per_gas (p_tx p) base_fee.

(** [AccountState::nonce_balance]. *)
Definition AccountState : Type := Address -> Z * Z.

Record Inner := mkInner {
  by_hash : gmap B256 PooledTx;
  by_sender : gmap Address (gmap Z B256);
  pool_bytes : Z;
}.

Definition Inner_default : Inner := mkInner ∅ ∅ 0.

Definition Inner_remove (hash : B256) (inner : Inner) : Inner :=
  match by_hash inner !! hash with
  | None => inner
  | Some p =>
      let bytes := u64 (pool_bytes inner - p_size p) in
      let senders :=
        match by_sender inner !! p_sender p with
        | None => by_sender inner
        | Some m =>
            let m := delete (p_nonce p) m in
            if bool_decide (m = ∅) then delete (p_sender p) (by_sender inner)
            else <[p_sender p := m]> (by_sender inner)
        end in
      mkInner (delete hash (by_hash inner)) senders bytes
  end.

Definition intrinsic_gas (tx : TxEnvelope) : Z :=
  let '(accounts, storages) :=
    match tx_access_list tx with
    | None => (0, 0)
    | Some al => (Z.of_nat (length al), u64 (sumZ (map (fun i => Z.of_nat (length i.2)) al)))
    end in
  let auths := default 0 (tx_authorization_count tx) in
  let '(regular, state, floor) :=
    calculate_initial_tx_gas (tx_input tx) (tx_is_create tx) accounts storages auths in
  Z.max (u64 (regular + state)) floor.

(** The checks of [add] that do not read the pool: the rules of the chain, then the sender's
    account.  [Ok] gives the recovered sender. *)
Definition admissible (c : PoolConfig) (tx : TxEnvelope) (state : AccountState)
    : result AddError Address :=
  if tx_is_eip4844 tx then Err Blob
  else
    match tx_chain_id tx with
    | None => Err Unprotected
    | Some id =>
        if negb (id =? p_chain_id c) then Err (ChainId id)
        else
          let gas := tx_gas_limit tx in
          if negb ((21000 <=? gas) && (gas <=? Z.min TX_GAS_LIMIT_CAP (block_gas_limit c)))
          then Err (GasLimit gas)
          else
            let needed := intrinsic_gas tx in
            if gas <? needed then Err (IntrinsicGas needed)
            else if (tx_max_fee_per_gas tx <? min_base_fee c)
                 || match tx_max_priority_fee_per_gas tx with
                    | Some p => tx_max_fee_per_gas tx <? p
                    | None => false
                    end
            then Err FeeTooLow
            else
              match tx_recover_signer tx with
              | None => Err SignatureError
              | Some sender =>
                  let '(account_nonce, balance) := state sender in
                  let nonce := tx_nonce tx in
                  if nonce <? account_nonce then Err (NonceTooLow account_nonce)
                  else if u64 (account_nonce + max_per_sender c) <=? nonce then Err NonceTooHigh
                  else
                    let cost := wrap 256 (wrap 256 (gas * tx_max_fee_per_gas tx) + tx_value tx) in
                    if balance <? cost then Err InsufficientFunds
                    else Ok sender
              end
    end.

Definition bump (c : PoolConfig) (x : Z) : Z :=
  u128 (x + u128 (x * price_bump_pct c) / 100).

Definition offered_tip (tx : TxEnvelope) : Z :=
  default (tx_max_fee_per_gas tx) (tx_max_priority_fee_per_gas tx).

(** [inner.by_sender.get(&sender).and_then(|m| m.get(&nonce))]. *)
Definition pooled_at (inner : Inner) (sender : Address) (nonce : Z) : option B256 :=
  m ← by_sender inner !! sender; m !! nonce.

(** [bytes += size], [by_sender.entry(sender).or_default().insert(..)], [by_hash.insert(..)]. *)
Definition insert_tx (tx : TxEnvelope) (sender : Address) (inner : Inner) : Inner :=
  let hash := tx_hash tx in
  let size := tx_encode_2718_len tx in
  mkInner (<[hash := mkPooledTx tx sender hash size]> (by_hash inner))
          (<[sender := <[tx_nonce tx := hash]> (default ∅ (by_sender inner !! sender))]>
             (by_sender inner))
          (u64 (pool_bytes inner + size)).

Definition pool_add (c : PoolConfig) (tx : TxEnvelope) (state : AccountState) (inner : Inner)
    : outcome (Inner * (result AddError B256)) :=
  match admissible c tx state with
  | Err e => Done (inner, Err e)
  | Ok sender =>
      let hash := tx_hash tx in
      let len := tx_encode_2718_len tx in
      if bool_decide (is_Some (by_hash inner !! hash)) then Done (inner, Err AlreadyKnown)
      else
        match pooled_at inner sender (tx_nonce tx) with
        | Some old_hash =>
            match by_hash inner !! old_hash with
            | None => Panic
            | Some old =>
                if (offered_tip tx <? bump c (offered_tip (p_tx old)))
                   || (tx_max_fee_per_gas tx <? bump c (tx_max_fee_per_gas (p_tx old)))
                then Done (inner, Err Underpriced)
                else Done (insert_tx tx sender (Inner_remove old_hash inner), Ok hash)
            end
        | None =>
            if (max_txs c <=? Z.of_nat (size (by_hash inner)))
               || (max_bytes c <? u64 (pool_bytes inner + len))
            then Done (inner, Err PoolFull)
            else Done (insert_tx tx sender inner, Ok hash)
        end
  end.

Definition add_raw_inner (c : PoolConfig) (raw : bytes) (state : AccountState) (inner : Inner)
    : outcome (Inner * (result AddError B256)) :=
  if MAX_TX_BYTES <? Z.of_nat (length raw) then Done (inner, Err TooLarge)
  else
    match tx_decode_2718 raw with
    | None => Done (inner, Err Decode)
    | Some (tx, buf) =>
        if negb (bool_decide (buf = [])) then Done (inner, Err Decode)
        else pool_add c tx state inner
    end.

Definition add_gossiped := add_raw_inner.

(** [add_raw] also returns the calls of the admit hook, if one is registered. *)
Definition add_raw (c : PoolConfig) (hooked : bool) (raw : bytes) (state : AccountState)
    (inner : Inner) : outcome (Inner * (result AddError B256) * list bytes) :=
  (out <!- add_raw_inner c raw state inner;
   match out with
   | (inner, Ok h) => Done (inner, Ok h, if hooked then [raw] else [])
   | (inner, Err e) => Done (inner, Err e, [])
   end)%bolt.

Definition pool_remove (hashes : list B256) (inner : Inner) : Inner :=
  foldl (fun inner h => Inner_remove h inner) inner hashes.

(** The entries of a [BTreeMap] with a key that satisfies [f], in key order. *)
Definition key_le (a b : Z * B256) : Prop := a.1 <= b.1.

#[export] Instance key_le_dec a b : Decision (key_le a b).
Proof. unfold key_le. apply _. Defined.

Definition btree_range (f : Z -> bool) (m : gmap Z B256) : list (Z * B256) :=
  merge_sort key_le (filter (fun kv => f kv.1) (map_to_list m)).

(** One turn of [on_new_block]'s loop: [by_sender[&s]] aborts on a missing sender. *)
Definition drop_stale (state : AccountState) (s : Address) (inner : Inner) : outcome Inner :=
  match by_sender inner !! s with
  | None => Panic
  | Some m => Done (pool_remove (map snd (btree_range (fun n => n <? (state s).1) m)) inner)
  end.

Fixpoint drop_stales (state : AccountState) (senders : list Address) (inner : Inner)
    : outcome Inner :=
  match senders with
  | [] => Done inner
  | s :: senders => (inner <!- drop_stale state s inner; drop_stales state senders inner)%bolt
  end.

(** [senders] are the keys of [by_sender] in the map's iteration order. *)
Definition on_new_block (state : AccountState) (senders : list Address) (inner : Inner)
    : outcome Inner := drop_stales state senders inner.

(** [while m.contains_key(&next) { next += 1; }] *)
Fixpoint first_free (fuel : nat) (m : gmap Z B256) (next : Z) : outcome Z :=
  match fuel with
  | O => OutOfFuel
  | S fuel =>
      if bool_decide (is_Some (m !! next)) then first_free fuel m (u64 (next + 1)) else Done next
  end.

Definition pending_nonce (sender : Address) (account_nonce : Z) (inner : Inner) : outcome Z :=
  match by_sender inner !! sender with
  | None => Done account_nonce
  | Some m => first_free (S (size m)) m account_nonce
  end.

(** The executable run of a sender: consecutive nonces from [expected], each with a tip.
    [nonces.range(start..)] zipped with [start..]. *)
Fixpoint executable_run (inner : Inner) (base_fee expected : Z) (entries : list (Z * B256))
    : outcome (list PooledTx) :=
  match entries with
  | [] => Done []
  | (n, h) :: entries =>
      if negb (n =? expected) then Done []
      else
        match by_hash inner !! h with
        | None => Panic
        | Some p =>
            match p_tip p base_fee with
            | None => Done []
            | Some _ =>
                (run <!- executable_run inner base_fee (u64 (expected + 1)) entries;
                 Done (p :: run))%bolt
            end
        end
  end.

(** The non-empty runs, in the iteration order of [by_sender]. *)
Fixpoint executable_runs (inner : Inner) (base_fee : Z) (state : AccountState)
    (senders : list Address) : outcome (list (list PooledTx)) :=
  match senders with
  | [] => Done []
  | s :: senders =>
      let start := (state s).1 in
      let entries := btree_range (fun n => start <=? n) (default ∅ (by_sender inner !! s)) in
      (run <!- executable_run inner base_fee start entries;
       runs <!- executable_runs inner base_fee state senders;
       Done (if bool_decide (run = []) then runs else run :: runs))%bolt
  end.

(** An entry of the heap: the tip, the run and the position in it.  [BinaryHeap::pop] takes the
    greatest entry for the order of [(u128, Reverse<usize>, usize)]. *)
Definition HeapEntry : Type := Z * nat * nat.

Definition entry_lt (a b : HeapEntry) : bool :=
  let '(ta, ia, ja) := a in
  let '(tb, ib, jb) := b in
  (ta <? tb) || ((ta =? tb) && ((ib <? ia)%nat || ((ib =? ia)%nat && (ja <? jb)%nat))).

Fixpoint heap_max (e : HeapEntry) (heap : list HeapEntry) : HeapEntry :=
  match heap with
  | [] => e
  | x :: heap => heap_max (if entry_lt e x then x else e) heap
  end.

Definition heap_remove (e : HeapEntry) (heap : list HeapEntry) : list HeapEntry :=
  match list_find (fun x => x = e) heap with
  | Some (k, _) => delete k heap
  | None => heap
  end.

Definition heap_pop (heap : list HeapEntry) : option (HeapEntry * list HeapEntry) :=
  match heap with
  | [] => None
  | x :: rest => let e := heap_max x rest in Some (e, heap_remove e heap)
  end.

(** [next.tip(base_fee).unwrap_or(0)]. *)
Definition tip_or_zero (base_fee : Z) (p : PooledTx) : Z := default 0 (p_tip p base_fee).

Fixpoint merge_runs (fuel : nat) (base_fee : Z) (runs : list (list PooledTx))
    (heap : list HeapEntry) : outcome (list (TxEnvelope * Address)) :=
  match fuel with
  | O => OutOfFuel
  | S fuel =>
      match heap_pop heap with
      | None => Done []
      | Some ((_, i, j), heap) =>
          match (runs !! i) ≫= (fun run => run !! j) with
          | None => Panic
          | Some p =>
              let heap :=
                match (runs !! i) ≫= (fun run => run !! S j) with
                | Some next => (tip_or_zero base_fee next, i, S j) :: heap
                | None => heap
                end in
              (out <!- merge_runs fuel base_fee runs heap;
               Done ((p_tx p, p_sender p) :: out))%bolt
          end
      end
  end.

Fixpoint initial_heap (base_fee : Z) (i : nat) (runs : list (list PooledTx))
    : outcome (list HeapEntry) :=
  match runs with
  | [] => Done []
  | [] :: _ => Panic
  | (p :: _) :: runs =>
      (heap <!- initial_heap base_fee (S i) runs; Done ((tip_or_zero base_fee p, i, 0%nat) :: heap))%bolt
  end.

(** The merge pops each transaction of each run once. *)
Definition merge_fuel (runs : list (list PooledTx)) : nat := S (length (concat runs)).

Definition best (base_fee : Z) (state : AccountState) (senders : list Address) (inner : Inner)
    : outcome (list (TxEnvelope * Address)) :=
  (runs <!- executable_runs inner base_fee state senders;
   heap <!- initial_heap base_fee 0 runs;
   merge_runs (merge_fuel runs) base_fee runs heap)%bolt.

Definition pool_get (hash : B256) (inner : Inner) : option PooledTx := by_hash inner !! hash.
Definition pool_len (inner : Inner) : Z := Z.of_nat (size (by_hash inner)).
Definition pool_is_empty (inner : Inner) : bool := pool_len inner =? 0.
End pool.
