(* ===== verification/TxPoolFacts.v ===== *)
(** * Facts on the transaction pool

    The well-formedness invariant of the pool's two indexes, what each operation of TxPool.v does
    to them, and the pool's properties. *)

From S2P Require Import Prelude Types TxPool.
From stdpp Require Import base list list_numbers sorting gmap fin_maps strings.
From Stdlib Require Import ZArith Lia.

Open Scope Z_scope.

Section facts.
Context `{A : AlloyTx}.
Implicit Types (inner : Inner) (p : PooledTx) (c : PoolConfig).

(** The admission rules that depend on the chain's configuration alone. *)
Record chain_rules c (tx : TxEnvelope) : Prop := {
  cr_blob : tx_is_eip4844 tx = false;
  cr_chain : tx_chain_id tx = Some (p_chain_id c);
  cr_gas : 21000 <= tx_gas_limit tx <= Z.min TX_GAS_LIMIT_CAP (block_gas_limit c);
  cr_intrinsic : intrinsic_gas tx <= tx_gas_limit tx;
  cr_fee : min_base_fee c <= tx_max_fee_per_gas tx;
  cr_tip : forall t, tx_max_priority_fee_per_gas tx = Some t -> t <= tx_max_fee_per_gas tx;
}.

(** Every admission rule, of the transaction alone, of its sender's account and of the pool: a new
    transaction needs room, one that takes the place of another needs a higher tip and fee cap. *)
Record admission c (tx : TxEnvelope) (st : AccountState) inner (sender : Address) : Prop := {
  ad_rules : chain_rules c tx;
  ad_signer : tx_recover_signer tx = Some sender;
  ad_nonce : (st sender).1 <= tx_nonce tx < u64 ((st sender).1 + max_per_sender c);
  ad_funds : wrap 256 (wrap 256 (tx_gas_limit tx * tx_max_fee_per_gas tx) + tx_value tx) <= (st sender).2;
  ad_unknown : by_hash inner !! tx_hash tx = None;
  ad_room : pooled_at inner sender (tx_nonce tx) = None ->
    Z.of_nat (size (by_hash inner)) < max_txs c /\ u64 (pool_bytes inner + tx_encode_2718_len tx) <= max_bytes c;
  ad_bump : forall h p, by_hash inner !! h = Some p -> p_sender p = sender -> p_nonce p = tx_nonce tx ->
    let beats new old := u128 (old + u128 (old * price_bump_pct c) / 100) <= new in
    beats (offered_tip tx) (offered_tip (p_tx p)) /\ beats (tx_max_fee_per_gas tx) (tx_max_fee_per_gas (p_tx p));
}.

Definition pool_size (m : gmap B256 PooledTx) : Z := map_fold (fun _ p acc => p_size p + acc) 0 m.

(** The two indexes describe the same transactions, each admitted under the rules. *)
Record pool_wf c inner : Prop := {
  wf_hash : forall h p, by_hash inner !! h = Some p ->
    p_hash p = h /\ tx_hash (p_tx p) = h /\ p_size p = tx_encode_2718_len (p_tx p)
    /\ pooled_at inner (p_sender p) (p_nonce p) = Some h;
  wf_sender : forall s n h, pooled_at inner s n = Some h ->
    exists p, by_hash inner !! h = Some p /\ p_sender p = s /\ p_nonce p = n;
  wf_nonempty : forall s m, by_sender inner !! s = Some m -> m <> ∅;
  wf_bytes : pool_bytes inner = u64 (pool_size (by_hash inner));
  wf_len : Z.of_nat (size (by_hash inner)) <= Z.max 0 (max_txs c);
  wf_rules : forall h p, by_hash inner !! h = Some p ->
    chain_rules c (p_tx p) /\ tx_recover_signer (p_tx p) = Some (p_sender p);
}.

Lemma pool_wf_default c : pool_wf c Inner_default.
Proof. split; simpl; try done. rewrite map_size_empty. lia. Qed.

(** ** Sizes *)

Lemma pool_size_insert m h p :
  m !! h = None -> pool_size (<[h := p]> m) = p_size p + pool_size m.
Proof. intros. unfold pool_size. rewrite map_fold_insert_L; [done| |done]. intros. lia. Qed.

Lemma pool_size_delete m h p :
  m !! h = Some p -> pool_size (delete h m) = pool_size m - p_size p.
Proof.
  intros Hp. rewrite <-(insert_delete_id m h p Hp) at 2.
  rewrite pool_size_insert by apply lookup_delete_eq. lia.
Qed.

(** ** Removing *)

Lemma by_hash_remove h inner : by_hash (Inner_remove h inner) = delete h (by_hash inner).
Proof.
  unfold Inner_remove. destruct (by_hash inner !! h) eqn:E; [done|]. by rewrite delete_id.
Qed.

Lemma by_sender_remove h p inner :
  by_hash inner !! h = Some p ->
  by_sender (Inner_remove h inner)
  = match by_sender inner !! p_sender p with
    | None => by_sender inner
    | Some m => if bool_decide (delete (p_nonce p) m = ∅) then delete (p_sender p) (by_sender inner)
                else <[p_sender p := delete (p_nonce p) m]> (by_sender inner)
    end.
Proof. intros Hp. unfold Inner_remove. by rewrite Hp. Qed.

Lemma by_sender_remove_ne h p inner s :
  by_hash inner !! h = Some p -> s <> p_sender p ->
  by_sender (Inner_remove h inner) !! s = by_sender inner !! s.
Proof.
  intros Hp Hs. rewrite (by_sender_remove h p) by done.
  destruct (by_sender inner !! p_sender p); [|done].
  case_bool_decide; [by rewrite lookup_delete_ne|by rewrite lookup_insert_ne].
Qed.

Lemma pooled_at_remove h p inner s n :
  by_hash inner !! h = Some p ->
  pooled_at (Inner_remove h inner) s n
  = if decide (s = p_sender p /\ n = p_nonce p) then None else pooled_at inner s n.
Proof.
  intros Hp. unfold pooled_at. destruct (decide (s = p_sender p)) as [->|Hs].
  - rewrite (by_sender_remove h p) by done.
    destruct (by_sender inner !! p_sender p) as [m|] eqn:Em; [|rewrite Em; by case_decide].
    case_bool_decide as He.
    + rewrite lookup_delete_eq. simpl. case_decide as Hn; [done|]. symmetry.
      destruct (decide (n = p_nonce p)) as [->|Hne]; [naive_solver|].
      rewrite <-(lookup_delete_ne m (p_nonce p)), He by done. apply lookup_empty.
    + rewrite lookup_insert_eq. simpl. case_decide as Hn.
      * destruct Hn as [_ ->]. apply lookup_delete_eq.
      * apply lookup_delete_ne. naive_solver.
  - rewrite (by_sender_remove_ne h p) by done. rewrite decide_False by naive_solver. done.
Qed.

Lemma remove_wf c h inner : pool_wf c inner -> pool_wf c (Inner_remove h inner).
Proof.
  intros W. destruct (by_hash inner !! h) as [p|] eqn:Hp.
  2: { unfold Inner_remove. by rewrite Hp. }
  destruct (wf_hash _ _ W h p Hp) as (_ & _ & _ & Hat). split.
  - intros h' p'. rewrite by_hash_remove. intros [Hne Hp']%lookup_delete_Some.
    destruct (wf_hash _ _ W h' p' Hp') as (? & ? & ? & Hat'). split_and!; [done..|].
    rewrite (pooled_at_remove h p) by done. rewrite decide_False; [done|]. intros [E1 E2].
    rewrite E1, E2 in Hat'. congruence.
  - intros s n h'. rewrite (pooled_at_remove h p) by done. case_decide as Hd; [done|].
    intros (p' & Hp' & Es & En)%(wf_sender _ _ W). exists p'. split; [|done].
    rewrite by_hash_remove. apply lookup_delete_Some. split; [|done]. intros <-.
    rewrite Hp in Hp'. injection Hp' as <-. auto.
  - intros s m. rewrite (by_sender_remove h p) by done.
    destruct (by_sender inner !! p_sender p) as [m'|] eqn:Em; [|apply (wf_nonempty _ _ W)].
    case_bool_decide.
    + intros [_ ?]%lookup_delete_Some. by eapply (wf_nonempty _ _ W).
    + intros [[_ <-]|[_ ?]]%lookup_insert_Some; [done|]. by eapply (wf_nonempty _ _ W).
  - rewrite by_hash_remove, (pool_size_delete _ _ p) by done. unfold Inner_remove. rewrite Hp. simpl.
    rewrite (wf_bytes _ _ W). unfold wrap. apply Zminus_mod_idemp_l.
  - rewrite by_hash_remove, map_size_delete, Hp. simpl. pose proof (wf_len _ _ W). lia.
  - intros h' p'. rewrite by_hash_remove. intros [_ ?]%lookup_delete_Some. by eapply (wf_rules _ _ W).
Qed.

Lemma removes_wf c hs inner : pool_wf c inner -> pool_wf c (pool_remove hs inner).
Proof. revert inner. induction hs as [|h hs IH]; intros inner W; [done|]. by apply IH, remove_wf. Qed.

Lemma by_hash_removes hs inner h :
  by_hash (pool_remove hs inner) !! h = if decide (h ∈ hs) then None else by_hash inner !! h.
Proof.
  revert inner. induction hs as [|x hs IH]; intros inner.
  - rewrite decide_False; [done|]. apply not_elem_of_nil.
  - unfold pool_remove in *. simpl. rewrite IH, by_hash_remove.
    destruct (decide (h = x)) as [->|Hne].
    + rewrite lookup_delete_eq. rewrite (decide_True (P := x ∈ x :: hs)) by set_solver. by case_decide.
    + rewrite lookup_delete_ne by done. destruct (decide (h ∈ hs)).
      * rewrite decide_True by set_solver. done.
      * rewrite decide_False by set_solver. done.
Qed.

(** ** Admission *)

Lemma admissible_ok c tx st sender :
  admissible c tx st = Ok sender ->
  chain_rules c tx /\ tx_recover_signer tx = Some sender
  /\ (st sender).1 <= tx_nonce tx < u64 ((st sender).1 + max_per_sender c)
  /\ wrap 256 (wrap 256 (tx_gas_limit tx * tx_max_fee_per_gas tx) + tx_value tx) <= (st sender).2.
Proof.
  unfold admissible. destruct (tx_is_eip4844 tx) eqn:Eb; [done|].
  destruct (tx_chain_id tx) as [id|] eqn:Ei; [|done].
  destruct (id =? p_chain_id c) eqn:Eid; [|done]. cbn [negb].
  destruct ((21000 <=? _) && _) eqn:Eg; [|done]. cbn [negb].
  apply andb_prop in Eg as [Eg1 Eg2].
  destruct (_ <? intrinsic_gas tx) eqn:En; [done|].
  destruct (_ || _) eqn:Ef; [done|]. apply orb_false_elim in Ef as [Ef1 Ef2].
  destruct (tx_recover_signer tx) as [s|] eqn:Es; [|done].
  destruct (st s) as [an bal] eqn:Est.
  destruct (tx_nonce tx <? an) eqn:E1; [done|].
  destruct (_ <=? tx_nonce tx) eqn:E2; [done|].
  destruct (bal <? _) eqn:E3; [done|]. intros [= <-]. rewrite Est. simpl.
  split; [|split; [done|split; lia]]. split; [done| | | | |].
  - rewrite Ei. f_equal. lia.
  - lia.
  - lia.
  - lia.
  - intros t Ht. rewrite Ht in Ef2. lia.
Qed.

Lemma admissible_total c tx st sender :
  chain_rules c tx -> tx_recover_signer tx = Some sender ->
  (st sender).1 <= tx_nonce tx < u64 ((st sender).1 + max_per_sender c) ->
  wrap 256 (wrap 256 (tx_gas_limit tx * tx_max_fee_per_gas tx) + tx_value tx) <= (st sender).2 ->
  admissible c tx st = Ok sender.
Proof.
  intros [Hb Hc Hg Hi Hf Ht] Hs Hn Hcost. unfold admissible. rewrite Hb, Hc, Z.eqb_refl, Hs. cbn [negb].
  replace ((21000 <=? _) && _) with true by lia. cbn [negb]. replace (_ <? intrinsic_gas tx) with false by lia.
  replace (tx_max_fee_per_gas tx <? min_base_fee c) with false by lia. cbn [orb].
  replace (match tx_max_priority_fee_per_gas tx with Some _ => _ | None => _ end) with false.
  2:{ destruct (tx_max_priority_fee_per_gas tx) as [t|]; [|done]. specialize (Ht t eq_refl). lia. }
  destruct (st sender) as [an bal]. cbn [fst snd] in *.
  replace (tx_nonce tx <? an) with false by lia. replace (_ <=? tx_nonce tx) with false by lia.
  by replace (bal <? _) with false by lia.
Qed.

Lemma pooled_at_insert tx sender inner s n :
  pooled_at (insert_tx tx sender inner) s n
  = if decide (s = sender /\ n = tx_nonce tx) then Some (tx_hash tx) else pooled_at inner s n.
Proof.
  unfold pooled_at, insert_tx. simpl. destruct (decide (s = sender)) as [->|Hs].
  - rewrite lookup_insert_eq. simpl. destruct (decide (n = tx_nonce tx)) as [->|Hn].
    + rewrite lookup_insert_eq, decide_True by done. done.
    + rewrite lookup_insert_ne by done. rewrite decide_False by naive_solver.
      by destruct (by_sender inner !! sender).
  - rewrite lookup_insert_ne by done. rewrite decide_False by naive_solver. done.
Qed.

Lemma insert_wf c tx sender inner :
  pool_wf c inner -> by_hash inner !! tx_hash tx = None ->
  pooled_at inner sender (tx_nonce tx) = None -> Z.of_nat (size (by_hash inner)) < max_txs c ->
  chain_rules c tx -> tx_recover_signer tx = Some sender ->
  pool_wf c (insert_tx tx sender inner).
Proof.
  intros W Hh Ha Hl Hr Hs. split.
  - intros h p. simpl. intros [[<- <-]|[Hne Hp]]%lookup_insert_Some.
    + simpl. split_and!; [done..|]. rewrite pooled_at_insert. by rewrite decide_True.
    + destruct (wf_hash _ _ W h p Hp) as (? & ? & ? & Hat). split_and!; [done..|].
      rewrite pooled_at_insert, decide_False; [done|]. intros [E1 E2]. rewrite E1, E2 in Hat. congruence.
  - intros s n h. rewrite pooled_at_insert. case_decide as Hd.
    + intros [= <-]. destruct Hd as [-> ->]. eexists. split; [apply lookup_insert_eq|done].
    + intros Hat. destruct (wf_sender _ _ W s n h Hat) as (p & Hp & ? & ?). exists p.
      split; [|done]. simpl. rewrite lookup_insert_ne; [done|]. congruence.
  - intros s m. simpl. intros [[_ <-]|[_ ?]]%lookup_insert_Some; [|by eapply (wf_nonempty _ _ W)].
    apply insert_non_empty.
  - simpl. rewrite pool_size_insert by done. rewrite (wf_bytes _ _ W). simpl. unfold wrap.
    rewrite Zplus_mod_idemp_l. f_equal. lia.
  - simpl. rewrite map_size_insert_None by done. lia.
  - intros h p. simpl. intros [[<- <-]|[_ ?]]%lookup_insert_Some; [done|]. by eapply (wf_rules _ _ W).
Qed.

(** What [add] does to a well-formed pool: it leaves it alone with an error, inserts in a free
    slot within the limits, or replaces the transaction of the same sender and nonce. *)
Inductive add_effect c tx (st : AccountState) inner : Inner -> result AddError B256 -> Prop :=
| add_rejected e : add_effect c tx st inner inner (Err e)
| add_inserted sender :
    admissible c tx st = Ok sender -> by_hash inner !! tx_hash tx = None ->
    pooled_at inner sender (tx_nonce tx) = None ->
    Z.of_nat (size (by_hash inner)) < max_txs c ->
    u64 (pool_bytes inner + tx_encode_2718_len tx) <= max_bytes c ->
    add_effect c tx st inner (insert_tx tx sender inner) (Ok (tx_hash tx))
| add_replaced sender old :
    admissible c tx st = Ok sender -> by_hash inner !! tx_hash tx = None ->
    by_hash inner !! p_hash old = Some old ->
    pooled_at inner sender (tx_nonce tx) = Some (p_hash old) ->
    p_sender old = sender -> p_nonce old = tx_nonce tx ->
    bump c (offered_tip (p_tx old)) <= offered_tip tx ->
    bump c (tx_max_fee_per_gas (p_tx old)) <= tx_max_fee_per_gas tx ->
    add_effect c tx st inner (insert_tx tx sender (Inner_remove (p_hash old) inner)) (Ok (tx_hash tx)).

Lemma add_effects c tx st inner :
  pool_wf c inner ->
  exists inner' r, pool_add c tx st inner = Done (inner', r) /\ add_effect c tx st inner inner' r.
Proof.
  intros W. unfold pool_add. destruct (admissible c tx st) as [sender|e] eqn:Ea.
  2: { eexists _, _. split; [reflexivity|constructor]. }
  case_bool_decide as Hk; [eexists _, _; split; [reflexivity|constructor]|].
  apply eq_None_not_Some in Hk.
  destruct (pooled_at inner sender (tx_nonce tx)) as [old_hash|] eqn:Hat.
  - destruct (wf_sender _ _ W _ _ _ Hat) as (old & Ho & Hs & Hn). rewrite Ho.
    destruct (wf_hash _ _ W _ _ Ho) as (<- & _).
    destruct (_ || _) eqn:Eu; [eexists _, _; split; [reflexivity|constructor]|].
    apply orb_false_elim in Eu as [E1 E2].
    eexists _, _. split; [reflexivity|]. apply add_replaced; (done || lia).
  - destruct (_ || _) eqn:Eu; [eexists _, _; split; [reflexivity|constructor]|].
    apply orb_false_elim in Eu as [E1 E2].
    eexists _, _. split; [reflexivity|]. apply add_inserted; (done || lia).
Qed.

(** A transaction that meets every rule is not refused. *)
Lemma admission_admits c tx st inner sender :
  pool_wf c inner -> admission c tx st inner sender ->
  exists inner', pool_add c tx st inner = Done (inner', Ok (tx_hash tx)).
Proof.
  intros W [Hr Hs Hn Hc Hu Hroom Hbump]. unfold pool_add. rewrite (admissible_total c tx st sender) by done.
  rewrite Hu, bool_decide_false by (by intros [? ?]).
  destruct (pooled_at inner sender (tx_nonce tx)) as [old_hash|] eqn:Hat.
  - destruct (wf_sender _ _ W _ _ _ Hat) as (old & Ho & Hso & Hno). rewrite Ho.
    specialize (Hbump _ _ Ho Hso Hno). cbv zeta beta in Hbump. destruct Hbump as [H1 H2]. unfold bump.
    rewrite (proj2 (Z.ltb_ge _ _) H1), (proj2 (Z.ltb_ge _ _) H2). eauto.
  - destruct (Hroom eq_refl) as [H1 H2]. rewrite (proj2 (Z.leb_gt _ _) H1), (proj2 (Z.ltb_ge _ _) H2). eauto.
Qed.

(** An effect other than a refusal met every rule. *)
Lemma effect_admission c tx st inner inner' h :
  pool_wf c inner -> add_effect c tx st inner inner' (Ok h) -> exists sender, admission c tx st inner sender.
Proof.
  intros W He. inversion He as [|sender Ha Hh Hat Hl Hb|sender old Ha Hh Ho Hat Hs Hn Ht Hf]; subst;
    destruct (admissible_ok _ _ _ _ Ha) as (Hr & Hrec & Hnn & Hc);
    exists (default 0 (tx_recover_signer tx)); rewrite Hrec in *; cbn [default from_option id]; split; try done.
  - intros h p Hp E1 E2. destruct (wf_hash _ _ W h p Hp) as (_ & _ & _ & F). congruence.
  - congruence.
  - intros h p Hp E1 E2. destruct (wf_hash _ _ W h p Hp) as (_ & _ & _ & F).
    assert (p = old) as -> by congruence. done.
Qed.

Lemma size_remove h p inner :
  by_hash inner !! h = Some p ->
  size (by_hash inner) = S (size (by_hash (Inner_remove h inner))).
Proof.
  intros Hp. rewrite by_hash_remove. rewrite <-(insert_delete_id _ _ _ Hp) at 1.
  by rewrite map_size_insert_None by apply lookup_delete_eq.
Qed.

Lemma add_effect_wf c tx st inner inner' r :
  pool_wf c inner -> add_effect c tx st inner inner' r -> pool_wf c inner'.
Proof.
  intros W [e|sender Ha Hh Hat Hl Hb|sender old Ha Hh Ho Hat Hs Hn Ht Hf]; [done| |];
    destruct (admissible_ok _ _ _ _ Ha) as (Hr & Hrec & _).
  - by apply insert_wf.
  - pose proof (size_remove _ _ _ Ho) as Hsz. pose proof (wf_len _ _ W) as Hlen.
    apply insert_wf; [by apply remove_wf| | |lia|done|done].
    + rewrite by_hash_remove. apply lookup_delete_None. by right.
    + rewrite (pooled_at_remove _ old) by done. by rewrite decide_True.
Qed.

(** ** Dropping stale transactions *)

Lemma elem_of_btree_range f (m : gmap Z B256) n h :
  (n, h) ∈ btree_range f m <-> m !! n = Some h /\ f n = true.
Proof.
  unfold btree_range. rewrite merge_sort_Permutation, list_elem_of_filter, elem_of_map_to_list. simpl.
  rewrite Is_true_true. tauto.
Qed.

Lemma by_sender_removes_ne hs inner s s' :
  (forall h p, h ∈ hs -> by_hash inner !! h = Some p -> p_sender p = s) -> s' <> s ->
  by_sender (pool_remove hs inner) !! s' = by_sender inner !! s'.
Proof.
  revert inner. induction hs as [|h hs IH]; intros inner Hs Hne; [done|].
  unfold pool_remove in *. simpl. rewrite IH; [| |done].
  - destruct (by_hash inner !! h) as [p|] eqn:Hp.
    + apply (by_sender_remove_ne h p); [done|]. rewrite (Hs h p); [done|set_solver|done].
    + unfold Inner_remove. by rewrite Hp.
  - intros h' p Hin. rewrite by_hash_remove. intros [_ ?]%lookup_delete_Some.
    apply (Hs h' p); [set_solver|done].
Qed.

Definition stale (st : AccountState) p : Prop := p_nonce p < (st (p_sender p)).1.

Lemma drop_stale_spec c st s inner :
  pool_wf c inner -> is_Some (by_sender inner !! s) ->
  exists inner', drop_stale st s inner = Done inner' /\ pool_wf c inner'
    /\ (forall s', s' <> s -> by_sender inner' !! s' = by_sender inner !! s')
    /\ (forall h p, by_hash inner' !! h = Some p <->
          by_hash inner !! h = Some p /\ ~ (p_sender p = s /\ stale st p)).
Proof.
  intros W [m Hm]. unfold drop_stale. rewrite Hm. eexists. split; [reflexivity|].
  set (hs := map snd _).
  assert (forall h p, by_hash inner !! h = Some p -> h ∈ hs <-> p_sender p = s /\ stale st p) as Hin.
  { intros h p Hp. unfold hs. rewrite list_elem_of_fmap. destruct (wf_hash _ _ W h p Hp) as (_ & _ & _ & Hat).
    split.
    - intros ([n h'] & -> & [Hn Hlt]%elem_of_btree_range). simpl in *.
      destruct (wf_sender _ _ W s n h') as (p' & Hp' & <- & <-);
        [unfold pooled_at; by rewrite Hm|]. rewrite Hp in Hp'. injection Hp' as <-.
      unfold stale. split; [done|]. lia.
    - intros [<- Hst]. exists (p_nonce p, h). split; [done|]. apply elem_of_btree_range.
      unfold stale in Hst. unfold pooled_at in Hat. rewrite Hm in Hat. split; [done|lia]. }
  split; [by apply removes_wf|]. split.
  - intros s' Hne. apply (by_sender_removes_ne _ _ s); [|done]. intros h p Hh Hp. by apply (Hin h p Hp).
  - intros h p. rewrite by_hash_removes. case_decide as Hd.
    + split; [done|]. intros [Hp Hns]. by apply (Hin h p Hp) in Hd.
    + split; [intros Hp|by intros [? _]]. split; [done|]. by rewrite <-(Hin h p Hp).
Qed.

Lemma drop_stales_spec c st senders inner :
  pool_wf c inner -> NoDup senders -> (forall s, s ∈ senders -> is_Some (by_sender inner !! s)) ->
  exists inner', drop_stales st senders inner = Done inner' /\ pool_wf c inner'
    /\ (forall h p, by_hash inner' !! h = Some p <->
          by_hash inner !! h = Some p /\ ~ (p_sender p ∈ senders /\ stale st p)).
Proof.
  revert inner. induction senders as [|s senders IH]; intros inner W Hnd Hs; simpl.
  - eexists. split; [reflexivity|]. split; [done|]. set_solver.
  - apply NoDup_cons in Hnd as [Hnin Hnd].
    destruct (drop_stale_spec c st s inner W) as (i1 & -> & W1 & Hne & Hh1); [apply Hs; set_solver|].
    simpl. destruct (IH i1 W1 Hnd) as (i2 & -> & W2 & Hh2).
    + intros s' Hin. rewrite Hne by set_solver. apply Hs. set_solver.
    + eexists. split; [reflexivity|]. split; [done|]. intros h p. rewrite Hh2, Hh1, elem_of_cons. tauto.
Qed.

(** [senders] enumerates the keys of [by_sender]. *)
Definition sender_order inner (senders : list Address) : Prop :=
  senders ≡ₚ elements (dom (by_sender inner)).

Lemma sender_order_spec inner senders :
  sender_order inner senders ->
  NoDup senders /\ forall s, s ∈ senders <-> is_Some (by_sender inner !! s).
Proof.
  intros Ho. split; [rewrite Ho; apply NoDup_elements|]. intros s.
  by rewrite Ho, elem_of_elements, elem_of_dom.
Qed.

Lemma sender_listed c inner senders h p :
  pool_wf c inner -> sender_order inner senders -> by_hash inner !! h = Some p -> p_sender p ∈ senders.
Proof.
  intros W [_ Ho]%sender_order_spec Hp. apply Ho.
  destruct (wf_hash _ _ W h p Hp) as (_ & _ & _ & Hat). unfold pooled_at in Hat.
  destruct (by_sender inner !! p_sender p); [by eexists|done].
Qed.

Lemma on_new_block_spec c st senders inner :
  pool_wf c inner -> sender_order inner senders ->
  exists inner', on_new_block st senders inner = Done inner' /\ pool_wf c inner'
    /\ (forall h p, by_hash inner' !! h = Some p <-> by_hash inner !! h = Some p /\ ~ stale st p).
Proof.
  intros W Ho. destruct (sender_order_spec _ _ Ho) as [Hnd Hs].
  destruct (drop_stales_spec c st senders inner W Hnd) as (i & Hi & Wi & Hh); [apply Hs|].
  exists i. split; [done|]. split; [done|]. intros h p. rewrite Hh. split.
  - intros [Hp Hn]. split; [done|]. intros ?. apply Hn. split; [|done]. by apply (sender_listed c inner _ h).
  - intros [Hp Hn]. split; [done|]. by intros [_ ?].
Qed.
End facts.
