(* ===== verification/TxPoolBest.v ===== *)
(** * Block building from the pool

    [TxPool::best] against a reference: the runs of executable transactions of each sender
    ([is_run]) and their greedy merge by tip ([greedy]). *)

From S2P Require Import Prelude Types TxPool TxPoolFacts.
From stdpp Require Import base list list_numbers sorting gmap fin_maps strings.
From Stdlib Require Import ZArith Lia.

Open Scope Z_scope.

(** Nonces are [u64]. *)
Class AlloyLaws (A : AlloyTx) : Prop :=
  tx_nonce_range : forall tx, in_range 64 (tx_nonce tx).

Section best.
Context `{A : AlloyTx} {L : AlloyLaws A}.
Implicit Types (inner : Inner) (p : PooledTx) (c : PoolConfig).

(** [p] is the pooled transaction of [s] with nonce [n], and pays the base fee. *)
Definition executable inner (s : Address) (base_fee n : Z) p : Prop :=
  pooled_at inner s n = Some (p_hash p) /\ by_hash inner !! p_hash p = Some p
  /\ is_Some (p_tip p base_fee).

(** The longest sequence of executable transactions of [s] with consecutive nonces from [start]. *)
Definition is_run inner (s : Address) (base_fee start : Z) (run : list PooledTx) : Prop :=
  (forall (k : nat) p, run !! k = Some p -> executable inner s base_fee (start + Z.of_nat k) p)
  /\ forall p, ~ executable inner s base_fee (start + Z.of_nat (length run)) p.

Lemma is_run_nil inner s base_fee start :
  (forall p, ~ executable inner s base_fee start p) -> is_run inner s base_fee start [].
Proof. intros H. split; [done|]. simpl. by rewrite Z.add_0_r. Qed.

Lemma is_run_cons inner s base_fee start p run :
  executable inner s base_fee start p -> is_run inner s base_fee (start + 1) run ->
  is_run inner s base_fee start (p :: run).
Proof.
  intros Hp [Hr Hn]. split.
  - intros [|k] q; simpl.
    + intros [= <-]. by rewrite Z.add_0_r.
    + intros Hq. apply Hr in Hq. by replace (start + Z.of_nat (S k)) with (start + 1 + Z.of_nat k) by lia.
  - simpl. by replace (start + Z.of_nat (S (length run))) with (start + 1 + Z.of_nat (length run)) by lia.
Qed.

Definition strictly_ordered (entries : list (Z * B256)) : Prop :=
  StronglySorted (fun a b => a.1 < b.1) entries.

(** [entries] are those of [s] with a nonce of at least [from], in order. *)
Definition entries_from inner (s : Address) (from : Z) (entries : list (Z * B256)) : Prop :=
  strictly_ordered entries
  /\ forall n h, (n, h) ∈ entries <-> pooled_at inner s n = Some h /\ from <= n.

#[local] Instance key_le_total : Total key_le.
Proof. intros a b. unfold key_le. lia. Qed.

#[local] Instance key_le_trans : Transitive key_le.
Proof. intros a b d. unfold key_le. lia. Qed.

Lemma btree_range_ordered f m : strictly_ordered (btree_range f m).
Proof.
  unfold btree_range, strictly_ordered.
  assert (NoDup (merge_sort key_le (filter (fun kv : Z * B256 => f kv.1) (map_to_list m))).*1) as Hnd.
  { rewrite merge_sort_Permutation.
    eapply sublist_NoDup; [apply (NoDup_fst_map_to_list m)|]. apply fmap_sublist.
    apply sublist_filter. }
  revert Hnd. pose proof (StronglySorted_merge_sort key_le
    (filter (fun kv : Z * B256 => f kv.1) (map_to_list m))) as Hs.
  induction Hs as [|x l Hl IH Hx]; intros Hnd; constructor.
  - apply IH. by apply NoDup_cons in Hnd as [_ ?].
  - apply NoDup_cons in Hnd as [Hnin _]. rewrite Forall_forall in *. intros y Hy.
    specialize (Hx y Hy). unfold key_le in Hx. enough (x.1 <> y.1) by lia.
    intros E. apply Hnin. rewrite E. by apply list_elem_of_fmap_2.
Qed.

Lemma btree_range_entries inner s from :
  entries_from inner s from (btree_range (fun n => from <=? n) (default ∅ (by_sender inner !! s))).
Proof.
  split; [apply btree_range_ordered|]. intros n h. rewrite elem_of_btree_range.
  unfold pooled_at. rewrite Z.leb_le. destruct (by_sender inner !! s); simpl; [done|].
  by rewrite lookup_empty.
Qed.

Lemma entries_from_tail inner s from h entries :
  entries_from inner s from ((from, h) :: entries) -> entries_from inner s (from + 1) entries.
Proof.
  intros [Hs He]. inversion_clear Hs as [|? ? Hs' Hx]. split; [done|]. rewrite Forall_forall in Hx.
  intros n h'. split.
  - intros Hin. specialize (Hx _ Hin). simpl in Hx. destruct (He n h') as [H _].
    destruct H; [by right|]. split; [done|lia].
  - intros [Hat Hle]. assert (from <= n) as Hle' by lia.
    pose proof (proj2 (He n h') (conj Hat Hle')) as [E|?]%elem_of_cons; [|done].
    injection E as -> ->. lia.
Qed.

Lemma pooled_nonce_range c inner s n h :
  pool_wf c inner -> pooled_at inner s n = Some h -> in_range 64 n.
Proof. intros W (p & _ & _ & <-)%(wf_sender _ _ W). apply tx_nonce_range. Qed.

Lemma executable_run_spec c inner s base_fee entries : forall expected,
  pool_wf c inner -> entries_from inner s expected entries ->
  exists run, (forall e, (entries <> [] -> e = expected) ->
                executable_run inner base_fee e entries = Done run)
    /\ is_run inner s base_fee expected run.
Proof.
  induction entries as [|[n h] entries IH]; intros expected W He.
  - exists []. split; [done|]. apply is_run_nil. intros p (Hat & _).
    by pose proof (proj2 (proj2 He _ _) (conj Hat (Z.le_refl _))) as []%not_elem_of_nil.
  - assert (expected <= n /\ pooled_at inner s n = Some h) as [Hle Hat]
      by (destruct (proj1 (proj2 He n h)); [by left|done]).
    destruct (Z.eqb_spec n expected) as [->|Hne].
    2: { exists []. split.
      { intros e ->; [|done]. simpl. by rewrite (proj2 (Z.eqb_neq _ _) Hne). }
      apply is_run_nil. intros p (Hat' & _).
      pose proof (proj2 (proj2 He _ _) (conj Hat' (Z.le_refl _))) as [E|Hin]%elem_of_cons;
        [injection E; lia|].
      destruct He as [Hs _]. inversion_clear Hs as [|? ? ? Hx]. rewrite Forall_forall in Hx.
      specialize (Hx _ Hin). simpl in Hx. lia. }
    destruct (wf_sender _ _ W _ _ _ Hat) as (p & Hp & Hps & Hpn).
    destruct (wf_hash _ _ W _ _ Hp) as (Hph & _).
    destruct (p_tip p base_fee) as [t|] eqn:Et.
    2: { exists []. split.
      { intros e ->; [|done]. simpl. rewrite Z.eqb_refl, Hp, Et. done. }
      apply is_run_nil. intros q (Hat' & Hq & [t Ht]). congruence. }
    destruct (IH (expected + 1) W) as (run & Hrun & Hr); [by eapply entries_from_tail|].
    exists (p :: run). split.
    + intros e ->; [|done]. simpl. rewrite Z.eqb_refl, Hp, Et. simpl. rewrite Hrun; [done|].
      destruct entries as [|[n' h'] entries]; [done|]. intros _. apply wrap_small.
      destruct (proj2 (entries_from_tail _ _ _ _ _ He) n' h') as [[Hat' Hle'] _]; [by left|].
      apply (pooled_nonce_range c) in Hat'; [|done]. apply (pooled_nonce_range c) in Hat; [|done].
      unfold in_range in *. lia.
    + apply is_run_cons; [|done]. rewrite <-Hph in *. by split_and!; [..|eexists].
Qed.

(** ** The heap *)

Lemma entry_lt_tip (a b : HeapEntry) : entry_lt a b = false -> b.1.1 <= a.1.1.
Proof. destruct a as [[ta ia] ja], b as [[tb ib] jb]. simpl. intros [? _]%orb_false_elim. lia. Qed.

Lemma entry_lt_tip_le (a b : HeapEntry) : entry_lt a b = true -> a.1.1 <= b.1.1.
Proof.
  destruct a as [[ta ia] ja], b as [[tb ib] jb]. simpl. intros [?|[? _]%andb_prop]%orb_prop; lia.
Qed.

Lemma heap_max_spec heap : forall e,
  heap_max e heap ∈ e :: heap /\ forall x, x ∈ e :: heap -> x.1.1 <= (heap_max e heap).1.1.
Proof.
  induction heap as [|y heap IH]; intros e; simpl.
  - split; [by left|]. intros x [->|[]%not_elem_of_nil]%elem_of_cons. done.
  - destruct (IH (if entry_lt e y then y else e)) as [H1 H2].
    destruct (entry_lt e y) eqn:E.
    + split; [by right|]. apply entry_lt_tip_le in E.
      pose proof (H2 y ltac:(by left)). intros x [->|Hx]%elem_of_cons; [lia|by apply H2].
    + split; [apply elem_of_cons in H1 as [->|?]; [by left|by right; right]|]. apply entry_lt_tip in E.
      pose proof (H2 e ltac:(by left)).
      intros x [->|[->|Hx]%elem_of_cons]%elem_of_cons; [done|lia|]. apply H2. by right.
Qed.

Lemma heap_remove_perm e heap : e ∈ heap -> heap ≡ₚ e :: heap_remove e heap.
Proof.
  intros Hin. unfold heap_remove. destruct (list_find (fun x => x = e) heap) as [[k x]|] eqn:Ef.
  - apply list_find_Some in Ef as (Hk & -> & _). by apply delete_Permutation.
  - apply list_find_None in Ef. rewrite Forall_forall in Ef. by destruct (Ef e Hin).
Qed.

Lemma heap_pop_spec heap :
  heap = [] \/ exists e heap', heap_pop heap = Some (e, heap') /\ heap ≡ₚ e :: heap'
    /\ forall x, x ∈ heap -> x.1.1 <= e.1.1.
Proof.
  destruct heap as [|x heap]; [by left|right]. destruct (heap_max_spec heap x) as [H1 H2].
  eexists _, _. split; [reflexivity|]. split; [by apply heap_remove_perm|done].
Qed.

(** ** Merging the runs *)

(** [out] merges the runs, taking at each step the first transaction of a run with the greatest
    tip among the runs' first transactions. *)
Inductive greedy (base_fee : Z) : list (list PooledTx) -> list PooledTx -> Prop :=
| greedy_nil runs : Forall (fun run => run = []) runs -> greedy base_fee runs []
| greedy_pick runs (i : nat) p rest out :
    runs !! i = Some (p :: rest) ->
    (forall k q rest', runs !! k = Some (q :: rest') -> tip_or_zero base_fee q <= tip_or_zero base_fee p) ->
    greedy base_fee (<[i := rest]> runs) out ->
    greedy base_fee runs (p :: out).

(** The heap has, for each run with transactions left ([rs] are the remaining parts), an entry
    with the position and tip of the next one. *)
Definition heap_ok (base_fee : Z) (runs rs : list (list PooledTx)) (heap : list HeapEntry) : Prop :=
  NoDup heap
  /\ (forall i r, rs !! i = Some r -> exists run j, runs !! i = Some run /\ r = drop j run)
  /\ forall t i j, (t, i, j) ∈ heap <->
       exists run p rest, runs !! i = Some run /\ drop j run = p :: rest
         /\ rs !! i = Some (p :: rest) /\ t = tip_or_zero base_fee p.

Lemma drop_cons_eq {B} (l : list B) i j x r :
  drop i l = x :: r -> drop j l = x :: r -> i = j.
Proof.
  intros Hi Hj. assert (length (drop i l) = length (drop j l)) as E by congruence.
  assert (length (drop i l) <> 0%nat) by (rewrite Hi; done). rewrite !length_drop in *. lia.
Qed.

Lemma drop_succ {B} (l : list B) j x r : drop j l = x :: r -> drop (S j) l = r.
Proof. intros H. replace (S j) with (j + 1)%nat by lia. rewrite <-drop_drop, H. done. Qed.

Lemma drop_head {B} (l : list B) j : l !! j = head (drop j l).
Proof. rewrite head_lookup, lookup_drop. by rewrite Nat.add_0_r. Qed.

Lemma length_concat_insert {B} (rs : list (list B)) i x r :
  rs !! i = Some (x :: r) -> length (concat rs) = S (length (concat (<[i := r]> rs))).
Proof.
  revert i. induction rs as [|y rs IH]; intros [|i] Hi; simpl in *; [done|done| |].
  - injection Hi as ->. done.
  - rewrite !length_app, (IH i Hi). lia.
Qed.

(** The heap after the entry of run [i] was popped and the next one, if any, pushed. *)
Lemma heap_ok_pop base_fee runs rs t i j run p rest heap :
  heap_ok base_fee runs rs ((t, i, j) :: heap) ->
  runs !! i = Some run -> drop j run = p :: rest -> rs !! i = Some (p :: rest) ->
  heap_ok base_fee runs (<[i := rest]> rs)
    (match run !! S j with Some next => (tip_or_zero base_fee next, i, S j) :: heap | None => heap end).
Proof.
  intros (Hnd & Hr & Hh) Hrun Hd Hrs. apply NoDup_cons in Hnd as [Hnin Hnd].
  pose proof (drop_succ _ _ _ _ Hd) as Hd'. rewrite drop_head, Hd'.
  assert (i < length rs)%nat as Hi by (by eapply lookup_lt_Some).
  assert (forall t' j', (t', i, j') ∉ heap) as Hfree.
  { intros t' j' Hin. destruct (proj1 (Hh t' i j')) as (run' & p' & rest' & E1 & E2 & E3 & E4); [by right|].
    rewrite Hrun in E1. injection E1 as <-. rewrite Hrs in E3. injection E3 as <- <-.
    rewrite (drop_cons_eq _ _ _ _ _ E2 Hd) in Hin.
    destruct (proj1 (Hh t i j)) as (? & q & ? & _ & _ & F3 & F4); [by left|].
    rewrite Hrs in F3. injection F3 as <- <-. by subst. }
  split; [|split].
  - destruct rest; [done|]. simpl. constructor; [apply Hfree|done].
  - intros k r [(<- & -> & _)|[Hne Hk]]%list_lookup_insert_Some; [eauto|by apply Hr].
  - intros t' k j'. destruct (decide (k = i)) as [->|Hne].
    + rewrite list_lookup_insert_eq by done. split.
      * destruct rest as [|q rest]; [by intros ?%Hfree|]. simpl.
        intros [[= -> ->]|?%Hfree]%elem_of_cons; [|done]. by exists run, q, rest.
      * intros (run' & q & rest' & E1 & E2 & [= ->] & ->). rewrite Hrun in E1. injection E1 as <-.
        simpl. rewrite (drop_cons_eq _ _ _ _ _ E2 Hd'). by left.
    + rewrite list_lookup_insert_ne by done. rewrite <-(Hh t' k j').
      destruct rest; simpl; rewrite !elem_of_cons; naive_solver.
Qed.

Lemma heap_ok_nil base_fee runs rs :
  heap_ok base_fee runs rs [] -> Forall (fun run => run = []) rs.
Proof.
  intros (_ & Hr & Hh). apply Forall_lookup. intros i [|p r] Hi; [done|].
  destruct (Hr i _ Hi) as (run & j & Hrun & E).
  assert ((tip_or_zero base_fee p, i, j) ∈ @nil HeapEntry) as []%not_elem_of_nil.
  apply Hh. exists run, p, r. auto.
Qed.

Lemma heap_ok_perm base_fee runs rs heap heap' :
  heap ≡ₚ heap' -> heap_ok base_fee runs rs heap -> heap_ok base_fee runs rs heap'.
Proof.
  intros Hp (Hnd & Hr & Hh). split; [by rewrite <-Hp|]. split; [done|].
  intros t i j. by rewrite <-Hp.
Qed.

Lemma merge_runs_greedy base_fee runs fuel : forall rs heap,
  heap_ok base_fee runs rs heap -> (length (concat rs) < fuel)%nat ->
  exists out, merge_runs fuel base_fee runs heap = Done (map (fun p => (p_tx p, p_sender p)) out)
    /\ greedy base_fee rs out.
Proof.
  induction fuel as [|fuel IH]; intros rs heap Hok Hf; [lia|]. cbn [merge_runs].
  destruct (heap_pop_spec heap) as [->|([[t i] j] & heap' & Hpop & Hperm & Hmax)].
  - exists []. split; [done|]. constructor. by eapply heap_ok_nil.
  - rewrite Hpop. pose proof (heap_ok_perm _ _ _ _ _ Hperm Hok) as Hok'.
    destruct Hok' as (Hnd & Hr & Hh).
    destruct (proj1 (Hh t i j)) as (run & p & rest & Hrun & Hd & Hrs & Et); [by left|].
    rewrite Hrun. cbn [mbind option_bind]. rewrite (drop_head run j), Hd. cbn [head].
    pose proof (heap_ok_pop base_fee runs rs t i j run p rest heap'
      (conj Hnd (conj Hr Hh)) Hrun Hd Hrs) as Hnext.
    destruct (IH _ _ Hnext) as (out & Hout & Hg); [rewrite (length_concat_insert _ _ _ _ Hrs) in Hf; lia|].
    exists (p :: out). split; [exact (f_equal (fun o => outcome_bind o _) Hout)|].
    apply (greedy_pick _ _ i p rest); [done| |done].
    intros k q rest' Hk. destruct (Hr k _ Hk) as (run' & j' & Hrun' & E).
    rewrite <-Et. apply (Hmax (tip_or_zero base_fee q, k, j')). rewrite Hperm. apply Hh.
    exists run', q, rest'. auto.
Qed.

Lemma initial_heap_spec base_fee runs : forall i0,
  Forall (fun run => run <> []) runs ->
  exists heap, initial_heap base_fee i0 runs = Done heap /\ NoDup heap
    /\ forall t i j, (t, i, j) ∈ heap <->
         exists k p rest, i = (i0 + k)%nat /\ j = 0%nat /\ runs !! k = Some (p :: rest)
           /\ t = tip_or_zero base_fee p.
Proof.
  induction runs as [|[|p rest] runs IH]; intros i0 Hne; simpl.
  - exists []. split; [done|]. split; [constructor|]. intros. split; [by intros ?%not_elem_of_nil|].
    by intros (k & p & rest & _ & _ & ? & _).
  - by apply Forall_cons in Hne as [? _].
  - apply Forall_cons in Hne as [_ Hne]. destruct (IH (S i0) Hne) as (heap & -> & Hnd & Hh).
    simpl. eexists. split; [reflexivity|]. split.
    + constructor; [|done]. intros (k & ? & ? & E & _)%Hh. lia.
    + intros t i j. rewrite elem_of_cons, Hh. split.
      * intros [[= -> -> ->]|(k & q & r & -> & -> & ? & ?)].
        -- exists 0%nat, p, rest. by rewrite Nat.add_0_r.
        -- exists (S k), q, r. split; [lia|done].
      * intros ([|k] & q & r & -> & -> & Hk & ->).
        -- injection Hk as <- <-. left. by rewrite Nat.add_0_r.
        -- right. exists k, q, r. split; [lia|done].
Qed.

Lemma initial_heap_ok base_fee runs :
  Forall (fun run => run <> []) runs ->
  exists heap, initial_heap base_fee 0 runs = Done heap /\ heap_ok base_fee runs runs heap.
Proof.
  intros Hne. destruct (initial_heap_spec base_fee runs 0 Hne) as (heap & Hi & Hnd & Hh).
  exists heap. split; [done|]. split; [done|]. split; [intros i r Hr; by exists r, 0%nat|].
  intros t i j. rewrite Hh. split.
  - intros (k & p & rest & -> & -> & Hk & ->). by exists (p :: rest), p, rest.
  - intros (run & p & rest & Hrun & Hd & Hrun' & ->). rewrite Hrun in Hrun'. injection Hrun' as ->.
    exists i, p, rest. split; [done|]. split; [|done].
    by apply (drop_cons_eq _ _ _ p rest Hd).
Qed.

Lemma executable_runs_spec c inner base_fee st senders :
  pool_wf c inner ->
  exists runs, executable_runs inner base_fee st senders = Done (filter (fun run => run <> []) runs)
    /\ Forall2 (fun s run => is_run inner s base_fee (st s).1 run) senders runs.
Proof.
  intros W. induction senders as [|s senders (runs & IH & Hr)]; simpl.
  - by exists [].
  - destruct (executable_run_spec c inner s base_fee _ (st s).1 W (btree_range_entries inner s (st s).1))
      as (run & Hrun & His).
    rewrite Hrun by done. rewrite IH. simpl. exists (run :: runs). split; [|by constructor].
    rewrite filter_cons. destruct run; [by rewrite bool_decide_true, decide_False by tauto|].
    by rewrite bool_decide_false, decide_True.
Qed.

(** ** Each sender's transactions come out in nonce order *)

(** At most one of the lists has elements that satisfy [P]. *)
Fixpoint apart (P : PooledTx -> Prop) (rs : list (list PooledTx)) : Prop :=
  match rs with
  | [] => True
  | r :: rs => (forall p q, p ∈ r -> q ∈ concat rs -> P p -> ~ P q) /\ apart P rs
  end.

Lemma filter_none {B} (P : B -> Prop) `{!forall x, Decision (P x)} l :
  (forall x, x ∈ l -> ~ P x) -> filter P l = [].
Proof.
  induction l as [|x l IH]; intros Hn; [done|]. rewrite filter_cons_False by (apply Hn; by left).
  apply IH. intros y Hy. apply Hn. by right.
Qed.

Lemma elem_of_concat_insert (rs : list (list PooledTx)) i p rest x :
  rs !! i = Some (p :: rest) -> x ∈ concat (<[i := rest]> rs) -> x ∈ concat rs.
Proof.
  revert i. induction rs as [|r rs IH]; intros [|i] Hi; simpl in *; [done|done| |].
  - injection Hi as ->. rewrite !elem_of_app, elem_of_cons. tauto.
  - rewrite !elem_of_app. intros [?|?]; [by left|right; by eapply IH].
Qed.

Lemma elem_of_concat_lookup (rs : list (list PooledTx)) i r x :
  rs !! i = Some r -> x ∈ r -> x ∈ concat rs.
Proof.
  revert i. induction rs as [|y rs IH]; intros [|i] Hi Hx; simpl in *; [done|done| |];
    apply elem_of_app; [left; by injection Hi as ->|right; by eapply IH].
Qed.

Lemma apart_pick P rs i p rest :
  apart P rs -> rs !! i = Some (p :: rest) -> apart P (<[i := rest]> rs).
Proof.
  revert i. induction rs as [|r rs IH]; intros [|i] Ha Hi; simpl in *; [done|done| |]; destruct Ha as [Ha Hrs].
  - injection Hi as ->. split; [|done]. intros x y Hx. apply Ha. by right.
  - split; [|by apply IH]. intros x y Hx Hy. apply Ha; [done|]. by eapply elem_of_concat_insert.
Qed.

Lemma filter_concat_pick P `{!forall x, Decision (P x)} rs i p rest :
  apart P rs -> rs !! i = Some (p :: rest) ->
  filter P (concat rs) = filter P [p] ++ filter P (concat (<[i := rest]> rs)).
Proof.
  revert i. induction rs as [|r rs IH]; intros [|i] Ha Hi; simpl in *; [done|done| |]; destruct Ha as [Ha Hrs].
  - injection Hi as ->. rewrite filter_cons. rewrite !filter_app.
    rewrite filter_cons. case_decide; simpl; done.
  - rewrite !filter_app, (IH i Hrs Hi). destruct (decide (P p)) as [Hp|Hp].
    + rewrite (filter_none P r); [done|]. intros x Hx HPx.
      eapply (Ha x p); [done| |done|done]. eapply elem_of_concat_lookup; [done|by left].
    + rewrite (filter_cons_False P p) by done. done.
Qed.

Lemma concat_all_nil {B} (rs : list (list B)) : Forall (fun r => r = []) rs -> concat rs = [].
Proof. induction 1 as [|? ? -> _ IH]; done. Qed.

Lemma greedy_filter P `{!forall x, Decision (P x)} base_fee rs out :
  greedy base_fee rs out -> apart P rs -> filter P out = filter P (concat rs).
Proof.
  induction 1 as [rs Hn|rs i p rest out Hi Hm _ IH]; intros Ha.
  - by rewrite concat_all_nil.
  - rewrite (filter_concat_pick P rs i p rest) by done. rewrite <-IH by (by eapply apart_pick).
    rewrite !filter_cons. case_decide; done.
Qed.

Lemma concat_nonempty {B} (rs : list (list B)) `{!forall x, Decision (x <> @nil B)} :
  concat (filter (fun r => r <> []) rs) = concat rs.
Proof.
  induction rs as [|[|x r] rs IH]; [done| |]; rewrite filter_cons; simpl.
  - by rewrite decide_False by tauto.
  - rewrite decide_True by done. simpl. by rewrite IH.
Qed.

Lemma apart_nonempty P rs : apart P rs -> apart P (filter (fun r => r <> []) rs).
Proof.
  induction rs as [|r rs IH]; [done|]. intros [Ha Hrs]. rewrite filter_cons.
  case_decide; [|auto]. split; [|auto]. by rewrite concat_nonempty.
Qed.

Definition sent_by (s : Address) p : Prop := p_sender p = s.

Lemma run_sender c inner s base_fee start run :
  pool_wf c inner -> is_run inner s base_fee start run -> Forall (sent_by s) run.
Proof.
  intros W [Hr _]. apply Forall_lookup. intros k p (Hat & Hp & _)%Hr.
  destruct (wf_sender _ _ W _ _ _ Hat) as (p' & Hp' & Hs & _). unfold sent_by. congruence.
Qed.

Lemma runs_of_others s senders runs :
  Forall2 (fun s run => Forall (sent_by s) run) senders runs -> s ∉ senders ->
  forall p, p ∈ concat runs -> ~ sent_by s p.
Proof.
  induction 1 as [|s' run senders runs Hrun _ IH]; intros Hs p; simpl; [by intros ?%not_elem_of_nil|].
  apply not_elem_of_cons in Hs as [Hne Hs]. rewrite Forall_forall in Hrun.
  intros [Hp|Hp]%elem_of_app; [|by apply IH]. intros Hsp. apply Hrun in Hp. unfold sent_by in *. congruence.
Qed.

Lemma runs_apart s senders runs :
  Forall2 (fun s run => Forall (sent_by s) run) senders runs -> NoDup senders ->
  apart (sent_by s) runs.
Proof.
  induction 1 as [|s' run senders runs Hrun Hruns IH]; intros Hnd; [done|].
  apply NoDup_cons in Hnd as [Hs' Hnd]. split; [|auto]. intros p q Hp Hq Hsp.
  rewrite Forall_forall in Hrun. apply Hrun in Hp.
  assert (s = s') as -> by (unfold sent_by in *; congruence). by eapply runs_of_others.
Qed.

Lemma filter_concat_runs s senders runs k run `{!forall p, Decision (sent_by s p)} :
  Forall2 (fun s run => Forall (sent_by s) run) senders runs -> NoDup senders ->
  senders !! k = Some s -> runs !! k = Some run -> filter (sent_by s) (concat runs) = run.
Proof.
  intros HF. revert k. induction HF as [|s' run' senders runs Hrun Hruns IH]; intros k Hnd Hk Hr; [done|].
  apply NoDup_cons in Hnd as [Hs' Hnd]. simpl. rewrite filter_app. destruct k as [|k]; simpl in *.
  - injection Hk as ->. injection Hr as ->. rewrite (filter_none _ (concat runs)).
    + rewrite app_nil_r. clear -Hrun. induction Hrun; [done|]. rewrite filter_cons_True by done. congruence.
    + by eapply runs_of_others.
  - rewrite (filter_none _ run'); [by eapply IH|]. rewrite Forall_forall in Hrun.
    intros p Hp Hsp. apply Hrun in Hp. apply Hs'. apply list_elem_of_lookup_2 in Hk.
    unfold sent_by in *. congruence.
Qed.
End best.
