(* ===== verification/TxPoolProps.v ===== *)
(** * The transaction pool: its properties

    The pool under any sequence of admissions, removals, new heads and clean-ups. *)

From S2P Require Import Prelude Types TxPool TxPoolFacts TxPoolBest.
From stdpp Require Import base list list_numbers sorting gmap fin_maps relations strings.
From Stdlib Require Import ZArith Lia.

Open Scope Z_scope.

Section steps.
Context `{A : AlloyTx}.
Implicit Types (inner : Inner) (p : PooledTx) (c : PoolConfig) (st : AccountState).

(** The pool beside the account state at the head of the chain.  A new head only advances nonces;
    the pool is cleaned up some time after it. *)
Inductive pool_step c : AccountState * Inner -> AccountState * Inner -> Prop :=
| step_add tx st inner inner' r :
    pool_add c tx st inner = Done (inner', r) -> pool_step c (st, inner) (st, inner')
| step_add_raw hooked raw st inner inner' r calls :
    add_raw c hooked raw st inner = Done (inner', r, calls) -> pool_step c (st, inner) (st, inner')
| step_gossip raw st inner inner' r :
    add_gossiped c raw st inner = Done (inner', r) -> pool_step c (st, inner) (st, inner')
| step_remove hs st inner : pool_step c (st, inner) (st, pool_remove hs inner)
| step_head st st' inner :
    (forall a, (st a).1 <= (st' a).1) -> pool_step c (st, inner) (st', inner)
| step_block senders st inner inner' :
    sender_order inner senders -> on_new_block st senders inner = Done inner' ->
    pool_step c (st, inner) (st, inner').

(** From the empty pool; nonces are unsigned. *)
Definition pool_reachable c (s : AccountState * Inner) : Prop :=
  exists st0, (forall a, 0 <= (st0 a).1) /\ rtc (pool_step c) (st0, Inner_default) s.

(** Every pooled nonce is below the sender's window. *)
Definition below_window c st inner : Prop :=
  forall h p, by_hash inner !! h = Some p -> p_nonce p < (st (p_sender p)).1 + max_per_sender c.

Definition pool_inv c (s : AccountState * Inner) : Prop :=
  (forall a, 0 <= (s.1 a).1) /\ pool_wf c s.2 /\ below_window c s.1 s.2.

Lemma window_wrap c st a :
  0 <= max_per_sender c -> 0 <= (st a).1 ->
  u64 ((st a).1 + max_per_sender c) <= (st a).1 + max_per_sender c.
Proof. intros. unfold wrap. apply Z.mod_le; lia. Qed.

Lemma add_inv c tx st inner inner' r :
  0 <= max_per_sender c -> pool_inv c (st, inner) -> pool_add c tx st inner = Done (inner', r) ->
  pool_inv c (st, inner').
Proof.
  intros Hm (Hst & W & Hw) Hadd. simpl in *. destruct (add_effects c tx st inner W) as (i & r' & E & He).
  rewrite Hadd in E. injection E as <- <-. split; [done|]. split; [by eapply add_effect_wf|]. simpl.
  destruct He as [e|sender Ha|sender old Ha]; [done| |]; destruct (admissible_ok _ _ _ _ Ha) as (_ & _ & Hn & _);
    pose proof (window_wrap c st sender Hm (Hst sender)); intros h p; simpl;
    intros [[_ <-]|[_ Hp]]%lookup_insert_Some; [|by eapply Hw| |].
  - unfold p_nonce. simpl. lia.
  - unfold p_nonce. simpl. lia.
  - rewrite by_hash_remove in Hp. apply lookup_delete_Some in Hp as [_ Hp]. by eapply Hw.
Qed.

Lemma add_raw_inner_inv c raw st inner inner' r :
  0 <= max_per_sender c -> pool_inv c (st, inner) -> add_raw_inner c raw st inner = Done (inner', r) ->
  pool_inv c (st, inner').
Proof.
  intros Hm Hi. unfold add_raw_inner. destruct (_ <? _); [by intros [= <- <-]|].
  destruct (tx_decode_2718 raw) as [[tx buf]|]; [|by intros [= <- <-]].
  destruct (negb _); [by intros [= <- <-]|]. by apply add_inv.
Qed.

Lemma add_raw_inv c hooked raw st inner inner' r calls :
  0 <= max_per_sender c -> pool_inv c (st, inner) -> add_raw c hooked raw st inner = Done (inner', r, calls) ->
  pool_inv c (st, inner').
Proof.
  intros Hm Hi. unfold add_raw. destruct (add_raw_inner c raw st inner) as [[i [h|e]]| |] eqn:E;
    [| |done|done]; simpl; intros [= <- <- <-]; by eapply add_raw_inner_inv.
Qed.

Lemma sub_window c st inner inner' :
  (forall h p, by_hash inner' !! h = Some p -> by_hash inner !! h = Some p) ->
  below_window c st inner -> below_window c st inner'.
Proof. intros Hs Hw h p Hp. by eapply Hw, Hs. Qed.

Lemma pool_step_inv c s s' : 0 <= max_per_sender c -> pool_inv c s -> pool_step c s s' -> pool_inv c s'.
Proof.
  intros Hm Hi Hs. destruct Hs as [tx st i i' r E|hk raw st i i' r calls E|raw st i i' r E|hs st i|
    st st' i Hle|senders st i i' Ho E].
  - by eapply add_inv.
  - by eapply add_raw_inv.
  - by eapply add_raw_inner_inv.
  - destruct Hi as (Hst & W & Hw). split; [done|]. split; [by apply removes_wf|].
    eapply sub_window; [|exact Hw]. intros h p. simpl. rewrite by_hash_removes. by case_decide.
  - destruct Hi as (Hst & W & Hw). simpl in *. split; [intros a; specialize (Hst a); specialize (Hle a); simpl; lia|].
    split; [done|]. intros h p Hp. specialize (Hw h p Hp). specialize (Hle (p_sender p)). simpl. lia.
  - destruct Hi as (Hst & W & Hw). destruct (on_new_block_spec c st senders i W Ho) as (i2 & E2 & W2 & Hh).
    simpl in *. rewrite E in E2. injection E2 as <-. split; [done|]. split; [done|].
    eapply sub_window; [|exact Hw]. intros h p Hp. by apply Hh in Hp as [? _].
Qed.

Lemma reachable_inv c s : 0 <= max_per_sender c -> pool_reachable c s -> pool_inv c s.
Proof.
  intros Hm (st0 & Hst & Hr). assert (pool_inv c (st0, Inner_default)) as Hi.
  { split; [done|]. split; [apply pool_wf_default|]. intros h p. simpl. by rewrite lookup_empty. }
  induction Hr as [|x y z Hxy _ IH]; [done|]. apply IH. by eapply pool_step_inv.
Qed.

Lemma best_spec `{!AlloyLaws A} c inner base_fee st senders :
  pool_wf c inner -> NoDup senders ->
  exists runs out, best base_fee st senders inner = Done (map (fun p => (p_tx p, p_sender p)) out)
    /\ Forall2 (fun s run => is_run inner s base_fee (st s).1 run) senders runs
    /\ greedy base_fee (filter (fun run => run <> []) runs) out.
Proof.
  intros W Hnd. destruct (executable_runs_spec c inner base_fee st senders W) as (runs & Hr & HF).
  exists runs. unfold best. rewrite Hr. simpl.
  destruct (initial_heap_ok base_fee (filter (fun run => run <> []) runs)) as (heap & -> & Hok).
  { apply Forall_forall. by intros x [? _]%list_elem_of_filter. }
  simpl. destruct (merge_runs_greedy base_fee _ (merge_fuel (filter (fun run => run <> []) runs)) _ _ Hok)
    as (out & Ho & Hg); [unfold merge_fuel; lia|].
  by exists out.
Qed.

(** ** Free nonces *)

Lemma first_free_spec (m : gmap Z B256) fuel : forall next,
  0 <= next -> next + Z.of_nat fuel <= 2 ^ 64 ->
  ~ (forall k, next <= k < next + Z.of_nat fuel -> is_Some (m !! k)) ->
  exists n, first_free fuel m next = Done n /\ next <= n /\ m !! n = None
    /\ forall k, next <= k < n -> is_Some (m !! k).
Proof.
  induction fuel as [|fuel IH]; intros next H0 Hb Hn; [destruct Hn; intros; lia|]. simpl.
  case_bool_decide as Hs.
  - destruct (decide (fuel = 0)%nat) as [->|Hf].
    { destruct Hn. intros k Hk. by replace k with next by lia. }
    rewrite wrap_small by (unfold in_range; lia).
    destruct (IH (next + 1)) as (n & -> & Hle & Hfree & Hall); [lia|lia| |].
    + intros Hall. apply Hn. intros k Hk. destruct (decide (k = next)) as [->|]; [done|].
      apply Hall. lia.
    + exists n. split; [done|]. split; [lia|]. split; [done|]. intros k Hk.
      destruct (decide (k = next)) as [->|]; [done|]. apply Hall. lia.
  - exists next. split; [done|]. split; [lia|]. split; [by apply eq_None_not_Some|]. lia.
Qed.

Lemma too_few_keys (m : gmap Z B256) next :
  ~ (forall k, next <= k < next + Z.of_nat (S (size m)) -> is_Some (m !! k)).
Proof.
  intros Hall. assert (list_to_set (seqZ next (Z.of_nat (S (size m)))) ⊆ dom m) as Hsub.
  { intros k. rewrite elem_of_list_to_set, elem_of_seqZ, elem_of_dom. apply Hall. }
  apply subseteq_size in Hsub. rewrite size_list_to_set in Hsub by apply NoDup_seqZ.
  rewrite length_seqZ, size_dom in Hsub. lia.
Qed.

Lemma window_size (m : gmap Z B256) a w :
  0 <= w -> (forall k h, m !! k = Some h -> a <= k < a + w) -> Z.of_nat (size m) <= w.
Proof.
  intros Hw Hall. assert (dom m ⊆ list_to_set (seqZ a w)) as Hsub.
  { intros k. rewrite elem_of_list_to_set, elem_of_seqZ, elem_of_dom. intros [h Hh]. by eapply Hall. }
  apply subseteq_size in Hsub. rewrite size_list_to_set in Hsub by apply NoDup_seqZ.
  rewrite length_seqZ, size_dom in Hsub. lia.
Qed.
End steps.


(** A clean-up leaves exactly the transactions that are not stale, and then each sender has at
    most [max_per_sender] of them, all in the window of nonces that starts at its account's. *)
Theorem sender_limit `{A : AlloyTx} (c : PoolConfig) (st : AccountState)
    (inner : Inner) (senders : list Address) (Hmax : 0 <= max_per_sender c)
    (Hr : pool_reachable c (st, inner)) (Ho : sender_order inner senders) :
  exists inner', on_new_block st senders inner = Done inner'
    /\ (forall h p, by_hash inner' !! h = Some p <->
          by_hash inner !! h = Some p /\ (st (p_sender p)).1 <= p_nonce p)
    /\ forall s m, by_sender inner' !! s = Some m ->
         Z.of_nat (size m) <= max_per_sender c
         /\ forall n h, m !! n = Some h -> (st s).1 <= n < (st s).1 + max_per_sender c.
Proof.
  destruct (reachable_inv c _ Hmax Hr) as (_ & W & Hw). simpl in W, Hw.
  destruct (on_new_block_spec c st senders inner W Ho) as (i & Hi & Wi & Hh).
  exists i. split; [done|]. split; [intros h p; rewrite Hh; unfold stale; split; intros [? ?]; split; (done || lia)|].
  intros s m Hm.
  assert (forall n h, m !! n = Some h -> (st s).1 <= n < (st s).1 + max_per_sender c) as Hwin.
  { intros n h Hn. destruct (wf_sender _ _ Wi s n h) as (p & Hp & <- & <-);
      [unfold pooled_at; by rewrite Hm|].
    apply Hh in Hp as [Hp Hns]. specialize (Hw h p Hp). unfold stale in Hns. lia. }
  split; [|done]. by eapply window_size.
Qed.

(** C34.  Admission: a transaction is admitted exactly when it meets every rule of [admission] (no blob
    transaction, the chain's id, gas within the caps and at least the intrinsic gas, a fee cap of at
    least the minimum base fee and of the tip, a valid signature, a nonce in the sender's window, a
    balance of at least the maximal cost modulo [2^256], a hash not pooled yet, room for a new slot or
    a fee cap and tip [price_bump_pct] percent above those replaced); an error leaves the pool as it
    was.  An admitted transaction is then found under its hash, and no other changes, except that
    one with the same sender and nonce is removed.  That the cost wraps is what the code does in
    release builds ([overflowing_cost_admitted]). *)
Theorem add_admits `{A : AlloyTx} (c : PoolConfig) (tx : TxEnvelope) (st : AccountState)
    (inner inner' : Inner) (r : result AddError B256) (W : pool_wf c inner)
    (Hadd : pool_add c tx st inner = Done (inner', r)) :
  match r with
  | Err _ => inner' = inner /\ forall sender, ~ admission c tx st inner sender
  | Ok h =>
      exists sender, h = tx_hash tx /\ admission c tx st inner sender
        /\ by_hash inner' !! h = Some (mkPooledTx tx sender h (tx_encode_2718_len tx))
        /\ pool_bytes inner' = u64 (pool_size (by_hash inner'))
        /\ (forall h' p, h' <> h -> by_hash inner' !! h' = Some p <->
              by_hash inner !! h' = Some p /\ ~ (p_sender p = sender /\ p_nonce p = tx_nonce tx))
  end.
Proof.
  destruct (add_effects c tx st inner W) as (i & r' & E & He). pose proof (add_effect_wf _ _ _ _ _ _ W He) as W'.
  rewrite Hadd in E. injection E as <- <-. destruct r as [h|e].
  2:{ split; [by inversion He|]. intros sender Had. destruct (admission_admits _ _ _ _ _ W Had). congruence. }
  destruct (effect_admission _ _ _ _ _ _ W He) as (sender & Had). exists sender.
  pose proof (ad_signer _ _ _ _ _ Had) as Hsig.
  inversion He as [|sender' Ha Hh Hat|sender' old Ha Hh Ho Hat Hs Hn]; subst;
    destruct (admissible_ok _ _ _ _ Ha) as (_ & Hrec & _); rewrite Hsig in Hrec; injection Hrec as Hse; subst;
    (split; [done|]); (split; [done|]); (split; [apply lookup_insert_eq|]); (split; [apply (wf_bytes _ _ W')|]); simpl.
  - intros h' p Hne. rewrite lookup_insert_ne by done. split; [|by intros [? _]]. intros Hp. split; [done|].
    intros [E1 E2]. destruct (wf_hash _ _ W h' p Hp) as (_ & _ & _ & F). congruence.
  - intros h' p Hne. rewrite lookup_insert_ne, by_hash_remove, lookup_delete_Some by done. split.
    + intros [Hne' Hp]. split; [done|]. intros [E1 E2]. destruct (wf_hash _ _ W h' p Hp) as (_ & _ & _ & F). congruence.
    + intros [Hp Hd]. split; [|done]. intros <-. rewrite Ho in Hp. injection Hp as <-. by apply Hd.
Qed.

(** C35.  Block building: [best] returns the pool's executable transactions and only those; each
    sender's come in nonce order from its account's nonce without a gap, up to the first missing
    or underpaying one; and every transaction has, when it is taken, the greatest tip among the
    next ones of all senders. *)
Theorem best_builds `{A : AlloyTx} `{!AlloyLaws A} (c : PoolConfig) (st : AccountState)
    (inner : Inner) (senders : list Address) (base_fee : Z)
    (W : pool_wf c inner) (Ho : sender_order inner senders) :
  exists runs out, best base_fee st senders inner = Done (map (fun p => (p_tx p, p_sender p)) out)
    /\ Forall2 (fun s run => is_run inner s base_fee (st s).1 run) senders runs
    /\ greedy base_fee (filter (fun run => run <> []) runs) out
    /\ forall k s run, senders !! k = Some s -> runs !! k = Some run ->
         filter (fun p => p_sender p = s) out = run.
Proof.
  destruct (sender_order_spec _ _ Ho) as [Hnd _].
  destruct (best_spec c inner base_fee st senders W Hnd) as (runs & out & Hb & HF & Hg).
  exists runs, out. split; [done|]. split; [done|]. split; [done|]. intros k s run Hk Hr.
  assert (Forall2 (fun s run => Forall (sent_by s) run) senders runs) as HF'.
  { eapply Forall2_impl; [exact HF|]. intros ? ?. by apply run_sender with c. }
  rewrite (greedy_filter (sent_by s) _ _ _ Hg) by (by eapply apart_nonempty, runs_apart).
  rewrite concat_nonempty. by eapply filter_concat_runs.
Qed.

(** [pending_nonce] returns: the first nonce from the account's that is not pooled, all before
    it being pooled. *)
Theorem pending_nonce_free `{A : AlloyTx} (inner : Inner) (s : Address) (account_nonce : Z)
    (H0 : 0 <= account_nonce)
    (Hb : account_nonce + Z.of_nat (size (default ∅ (by_sender inner !! s))) < 2 ^ 64) :
  exists n, pending_nonce s account_nonce inner = Done n /\ account_nonce <= n
    /\ pooled_at inner s n = None
    /\ forall k, account_nonce <= k < n -> is_Some (pooled_at inner s k).
Proof.
  unfold pending_nonce, pooled_at. destruct (by_sender inner !! s) as [m|]; cbn [mbind option_bind]; simpl in Hb.
  - apply (first_free_spec m (S (size m)) account_nonce); [lia|lia|apply too_few_keys].
  - exists account_nonce. split; [done|]. split; [lia|]. split; [done|]. lia.
Qed.

(** ** Concrete transactions

    A transaction given by the values its accessors return. *)

Module PoolWitness.
Record ToyTx := mkToyTx {
  t_sender : Z; t_nonce : Z; t_hash : Z; t_fee : Z; t_tip : Z; t_value : Z; t_len : Z;
}.

#[export] Instance toy_alloy : AlloyTx := {
  TxEnvelope := ToyTx;
  tx_is_eip4844 _ := false;
  tx_chain_id _ := Some 8017;
  tx_gas_limit _ := 21000;
  tx_max_fee_per_gas := t_fee;
  tx_max_priority_fee_per_gas t := Some (t_tip t);
  tx_recover_signer t := Some (t_sender t);
  tx_hash := t_hash;
  tx_encode_2718_len := t_len;
  tx_decode_2718 _ := None;
  tx_nonce t := u64 (t_nonce t);
  tx_value := t_value;
  tx_effective_tip_per_gas t base_fee :=
    if t_fee t <? base_fee then None else Some (Z.min (t_fee t - base_fee) (t_tip t));
  tx_access_list _ := None;
  tx_authorization_count _ := None;
  tx_input _ := [];
  tx_is_create _ := false;
  calculate_initial_tx_gas _ _ _ _ _ := (21000, 0, 21000);
}.

#[export] Instance toy_alloy_laws : AlloyLaws toy_alloy.
Proof. intros tx. by apply wrap_range. Qed.

Definition cfg : PoolConfig := PoolConfig_new 8017 30000000 1000.
Definition rich : AccountState := fun _ => (0, 10 ^ 18).

(** Two transactions of sender 1 and one of sender 2, sent out of order. *)
Definition tx_a := mkToyTx 1 1 11 5000 300 0 100.
Definition tx_b := mkToyTx 1 0 10 5000 200 0 100.
Definition tx_c := mkToyTx 2 0 20 5000 250 0 100.

Definition admit_toy (inner : Inner) (tx : ToyTx) : Inner :=
  match pool_add cfg tx rich inner with Done (inner', _) => inner' | _ => inner end.

Definition pool_of (txs : list ToyTx) : Inner := foldl admit_toy Inner_default txs.

Lemma pool_of_reachable txs : pool_reachable cfg (rich, pool_of txs).
Proof.
  exists rich. split; [done|]. induction txs as [|tx txs IH] using rev_ind; [apply rtc_refl|].
  etrans; [exact IH|]. unfold pool_of at 2. rewrite foldl_app.
  change (rtc (pool_step cfg) (rich, pool_of txs) (rich, admit_toy (pool_of txs) tx)). unfold admit_toy.
  destruct (pool_add (A := toy_alloy) cfg tx rich (pool_of txs)) as [[i r]| |] eqn:E; [|apply rtc_refl..].
  by eapply rtc_once, step_add.
Defined.

Definition pool3 : Inner := pool_of [tx_a; tx_b; tx_c].

Lemma pool3_wf : pool_wf cfg pool3.
Proof. by destruct (reachable_inv cfg _ ltac:(done) (pool_of_reachable [tx_a; tx_b; tx_c])) as (_ & ? & _). Qed.

Lemma pool3_order : sender_order pool3 [2; 1].
Proof.
  unfold sender_order. apply NoDup_Permutation.
  - by apply (bool_decide_unpack _).
  - apply NoDup_elements.
  - intros s. replace (elements (dom (by_sender pool3))) with [2; 1] by (by vm_compute). set_solver.
Qed.


Lemma sender_limit_witness :
  exists inner', on_new_block rich [2; 1] pool3 = Done inner'.
Proof.
  destruct (sender_limit cfg rich pool3 [2; 1]) as (inner' & H & _).
  - apply (bool_decide_unpack _); reflexivity.
  - apply pool_of_reachable.
  - apply pool3_order.
  - exists inner'. exact H.
Defined.

(** A replacement at a tip 10% higher. *)
Definition tx_b' := mkToyTx 1 0 12 5500 220 0 100.

Lemma pool3_replace : pool_add cfg tx_b' rich pool3 = Done (admit_toy pool3 tx_b', Ok 12).
Proof. reflexivity. Qed.

Lemma add_admits_witness :
  pool_add cfg tx_b' rich pool3 = Done (admit_toy pool3 tx_b', Ok 12)
  /\ by_hash (admit_toy pool3 tx_b') !! 10 = None.
Proof.
  split; [apply pool3_replace|].
  destruct (add_admits (A := toy_alloy) cfg tx_b' rich pool3 _ _ pool3_wf pool3_replace) as
    (sender & _ & Had & _ & _ & Hkeep).
  pose proof (ad_signer _ _ _ _ _ Had) as Hs. simpl in Hs. injection Hs as <-. apply eq_None_not_Some. intros [p Hp].
  apply Hkeep in Hp as [Hp Hn]; [|discriminate]. apply Hn.
  assert (by_hash pool3 !! 10 = Some (mkPooledTx tx_b 1 10 100)) as Hp' by reflexivity.
  assert (p = mkPooledTx tx_b 1 10 100) as -> by congruence. split; reflexivity.
Defined.

Lemma best_builds_witness :
  exists out, best 1000 rich [2; 1] pool3 = Done (map (fun p => (p_tx p, p_sender p)) out)
    /\ map (fun p => t_hash (p_tx p)) out = [20; 10; 11].
Proof.
  destruct (best_builds cfg rich pool3 [2; 1] 1000 pool3_wf pool3_order) as (runs & out & H & _).
  exists out. split; [exact H|].
  assert (best 1000 rich [2; 1] pool3 = Done [(tx_c, 2); (tx_b, 1); (tx_a, 1)]) as E by reflexivity.
  rewrite E in H. destruct out as [|p1 [|p2 [|p3 [|]]]]; try discriminate H. simpl in H |- *.
  injection H as H1 _ H2 _ H3 _. rewrite <-H1, <-H2, <-H3. reflexivity.
Defined.

Lemma pending_nonce_free_witness : exists n, pending_nonce 1 0 pool3 = Done n /\ 0 <= n.
Proof.
  destruct (pending_nonce_free pool3 1 0) as (n & H & Hn & _).
  - lia.
  - assert (Z.of_nat (size (default ∅ (by_sender pool3 !! 1))) = 2) as -> by (vm_compute; reflexivity). lia.
  - exists n. split; [exact H|exact Hn].
Defined.

(** The cost of a transaction is computed modulo [2^256]: one whose value is near [2^256] is
    admitted from an account with no balance at all. *)
Theorem overflowing_cost_admitted :
  let tx := mkToyTx 3 0 30 5000 100 (2 ^ 256 - 21000 * 5000) 100 in
  let poor : AccountState := fun _ => (0, 0) in
  exists inner', pool_add cfg tx poor Inner_default = Done (inner', Ok 30).
Proof. eexists. reflexivity. Qed.

(** The byte limit is not checked when a transaction replaces another: the pool grows past it. *)
Theorem replacement_passes_byte_limit :
  let small := mkPoolConfig 8017 30000000 1000 4096 150 16 10 in
  let tx := mkToyTx 1 0 10 5000 200 0 100 in
  let tx' := mkToyTx 1 0 12 5500 220 0 1000 in
  exists i1 i2, pool_add small tx rich Inner_default = Done (i1, Ok 10)
    /\ pool_add small tx' rich i1 = Done (i2, Ok 12) /\ max_bytes small < pool_bytes i2.
Proof.
  eexists _, _. split; [reflexivity|]. split; [reflexivity|]. reflexivity.
Qed.
End PoolWitness.
