(* ===== verification/Ipld.v ===== *)
(** * IPLD blocks

    Models crates/ipld/src/lib.rs: CIDs, verification of content, the envelope that links a block's
    parts, and the split of a block into IPFS blocks and back.  The libraries it calls are
    parameters: SHA-256 ([Sha256]), dag-cbor ([DagCbor], one instance per type), the RLP codecs of
    alloy ([HeaderRlp], [BodyRlp]) and the transactions ([AlloyTx]); their laws are the round
    trips their documentation promises. *)

From S2P Require Import Prelude Types Params TxPool.
From stdpp Require Import base list list_numbers gmap strings.
From Stdlib Require Import ZArith Lia.

Open Scope Z_scope.
Open Scope bolt_scope.

(** ** Content identifiers *)

Definition ETH_BLOCK : Z := 144.
Definition RAW : Z := 85.
Definition DAG_CBOR : Z := 113.
Definition KECCAK_256 : Z := 27.
Definition SHA2_256 : Z := 18.
Definition ENVELOPE_VERSION : Z := 1.

(** A [cid::Cid]: version, codec and multihash (code and digest). *)
Record Cid := mkCid {
  cid_version : Z;
  cid_codec : Z;
  cid_code : Z;
  cid_digest : bytes;
}.

#[export] Instance Cid_eq_dec : EqDecision Cid.
Proof. solve_decision. Defined.

#[export] Program Instance Cid_countable : Countable Cid :=
  inj_countable' (fun c => (cid_version c, cid_codec c, cid_code c, cid_digest c))
    (fun '(v, k, m, d) => mkCid v k m d) _.
Next Obligation. by intros []. Qed.

Definition new_v1 (codec code : Z) (digest : bytes) : Cid := mkCid 1 codec code digest.

Inductive IpldError :=
  | HashMismatch (c : Cid)
  | Unsupported (c : Cid)
  | Malformed (what : string)
  | Missing (c : Cid).

(** ** The libraries *)

Class Sha256 := sha256 : bytes -> bytes.

Class DagCbor (T : Type) := {
  to_vec : T -> bytes;
  from_slice : bytes -> option T;
}.

Class DagCborLaws (T : Type) `{DagCbor T} : Prop :=
  from_to_vec : forall x : T, from_slice (to_vec x) = Some x.

(** The fields of [alloy_consensus::Header] the node reads; [hd_rest] stands for the others. *)
Record BlockHeader := mkBlockHeader {
  hd_parent_hash : B256;
  hd_number : Z;
  hd_timestamp : Z;
  hd_difficulty : Z;
  hd_gas_limit : Z;
  hd_nonce : Z;
  hd_state_root : B256;
  hd_mix_hash : B256;
  hd_transactions_root : B256;
  hd_receipts_root : B256;
  hd_logs_bloom : bytes;
  hd_beneficiary : Address;
  hd_gas_used : Z;
  hd_extra_data : bytes;
  hd_base_fee_per_gas : option Z;
  hd_parent_beacon_block_root : option B256;
  hd_rest : bytes;
}.

#[export] Instance BlockHeader_eq_dec : EqDecision BlockHeader.
Proof. solve_decision. Defined.

(** [Header::encode] and [Header::decode]; [decode] may leave bytes unread. *)
Class HeaderRlp := {
  rlp_header : BlockHeader -> bytes;
  unrlp_header : bytes -> option BlockHeader;
}.

Class HeaderRlpLaws (R : HeaderRlp) : Prop :=
  unrlp_rlp_header : forall h, unrlp_header (rlp_header h) = Some h.

(** RLP of a list of byte strings, and the encoding of a transaction. *)
Class BodyRlp `{AlloyTx} := {
  rlp_list : list bytes -> bytes;
  unrlp_list : bytes -> option (list bytes * bytes);
  tx_encoded_2718 : TxEnvelope -> bytes;
}.

Class BodyRlpLaws `(B : BodyRlp) : Prop := {
  unrlp_rlp_list : forall l, unrlp_list (rlp_list l) = Some (l, []);
  rlp_list_nonempty : forall l, rlp_list l <> [];
  decode_encoded_2718 : forall t, tx_decode_2718 (tx_encoded_2718 t) = Some (t, []);
}.

Definition header_hash `{Keccak} `{HeaderRlp} (h : BlockHeader) : B256 := keccak256 (rlp_header h).

(** ** CIDs of Boltchain data *)

Definition header_cid (block_hash : B256) : Cid :=
  new_v1 ETH_BLOCK KECCAK_256 (b256_bytes block_hash).

Definition block_hash_of (cid : Cid) : option B256 :=
  if (cid_codec cid =? ETH_BLOCK) && (cid_code cid =? KECCAK_256)
     && Nat.eqb (length (cid_digest cid)) 32
  then Some (be_val (cid_digest cid)) else None.

Definition sha256_cid `{Sha256} (codec : Z) (data : bytes) : Cid :=
  new_v1 codec SHA2_256 (sha256 data).

Definition verify `{Keccak} `{Sha256} (cid : Cid) (data : bytes) : result IpldError () :=
  if MAX_IPLD_BLOCK_BYTES <? Z.of_nat (length data) then Err (Malformed "oversized block")
  else
    digest <-? (if (cid_codec cid =? ETH_BLOCK) && (cid_code cid =? KECCAK_256)
                then Ok (b256_bytes (keccak256 data))
                else if ((cid_codec cid =? RAW) || (cid_codec cid =? DAG_CBOR))
                        && (cid_code cid =? SHA2_256)
                then Ok (sha256 data)
                else Err (Unsupported cid));
    if bool_decide (cid_digest cid = digest) then Ok () else Err (HashMismatch cid).

(** ** Envelopes *)

Record Envelope := mkEnvelope {
  env_v : Z;
  env_height : Z;
  env_header : Cid;
  env_parent : option Cid;
  env_chunks : list Cid;
  env_qc : bytes;
  env_audits : list bytes;
}.

Definition Envelope_encode `{DagCbor Envelope} (e : Envelope) : bytes := to_vec e.

Definition Envelope_decode `{DagCbor Envelope} (b : bytes) : result IpldError Envelope :=
  e <-? ok_or (from_slice b) (Malformed "envelope");
  if negb (env_v e =? ENVELOPE_VERSION) then Err (Malformed "envelope version") else Ok e.

Definition Envelope_block_hash (e : Envelope) : option B256 := block_hash_of (env_header e).

(** ** Chunks *)

(** [slice::chunks(n)]: pieces of [n] elements, the last one shorter; [n = 0] aborts in Rust and
    is not used. *)
Fixpoint chunks_aux {A} (fuel : nat) (n : nat) (l : list A) : list (list A) :=
  match fuel, l with
  | S fuel, _ :: _ => take n l :: chunks_aux fuel n (drop n l)
  | _, _ => []
  end.

Definition chunks {A} (n : nat) (l : list A) : list (list A) := chunks_aux (length l) n l.

(** ** Blocks *)

Record BlockBundle := mkBundle {
  bd_root : Cid;
  bd_envelope : Envelope;
  bd_blocks : list (Cid * bytes);
}.

Definition body_len (b : BlockBundle) : Z :=
  sumZ (map (fun cd => Z.of_nat (length cd.2))
    (filter (fun cd => cd.1 ∈ env_chunks (bd_envelope b)) (bd_blocks b))).

Section blocks.
Context `{K : Keccak} `{Sh : Sha256} `{R : HeaderRlp} `{A : AlloyTx} `{B : !BodyRlp}.
Context `{CE : DagCbor Envelope}.

Definition encode_body (txs : list TxEnvelope) : bytes := rlp_list (map tx_encoded_2718 txs).

Fixpoint decode_txs (items : list bytes) : result IpldError (list TxEnvelope) :=
  match items with
  | [] => Ok []
  | b :: items =>
      d <-? ok_or (tx_decode_2718 b) (Malformed "transaction");
      if negb (bool_decide (d.2 = [])) then Err (Malformed "trailing tx bytes")
      else txs <-? decode_txs items; Ok (d.1 :: txs)
  end.

Definition decode_body (body : bytes) : result IpldError (list TxEnvelope) :=
  if bool_decide (body = []) then Ok []
  else
    d <-? ok_or (unrlp_list body) (Malformed "body");
    if negb (bool_decide (d.2 = [])) then Err (Malformed "trailing body bytes")
    else decode_txs d.1.

Definition body_pieces (txs : list TxEnvelope) : list bytes :=
  if bool_decide (txs = []) then []
  else chunks (Z.to_nat MAX_IPLD_BLOCK_BYTES) (encode_body txs).

Definition bundle_with_audits (header : BlockHeader) (txs : list TxEnvelope) (parent : option Cid)
    (qc : bytes) (audits : list bytes) : BlockBundle :=
  let header_rlp := rlp_header header in
  let hcid := header_cid (keccak256 header_rlp) in
  let pieces := map (fun piece => (sha256_cid RAW piece, piece)) (body_pieces txs) in
  let envelope := mkEnvelope ENVELOPE_VERSION (hd_number header) hcid parent (map fst pieces)
                    qc audits in
  let encoded := Envelope_encode envelope in
  let root := sha256_cid DAG_CBOR encoded in
  mkBundle root envelope ((hcid, header_rlp) :: pieces ++ [(root, encoded)]).

Definition bundle (header : BlockHeader) (txs : list TxEnvelope) (parent : option Cid) (qc : bytes)
    : BlockBundle := bundle_with_audits header txs parent qc [].

Record DecodedBlock := mkDecoded {
  db_envelope : Envelope;
  db_header : BlockHeader;
  db_transactions : list TxEnvelope;
}.

Fixpoint fetch_body (chunks : list Cid) (get : Cid -> option bytes) : result IpldError bytes :=
  match chunks with
  | [] => Ok []
  | c :: chunks =>
      if negb (cid_codec c =? RAW) then Err (Unsupported c)
      else
        piece <-? ok_or (get c) (Missing c);
        _ <-? verify c piece;
        rest <-? fetch_body chunks get;
        Ok (piece ++ rest)
  end.

Definition decode_block (envelope : Envelope) (get : Cid -> option bytes)
    : result IpldError DecodedBlock :=
  hbytes <-? ok_or (get (env_header envelope)) (Missing (env_header envelope));
  _ <-? verify (env_header envelope) hbytes;
  header <-? ok_or (unrlp_header hbytes) (Malformed "header");
  if negb (hd_number header =? env_height envelope) then Err (Malformed "height mismatch")
  else
    body <-? fetch_body (env_chunks envelope) get;
    transactions <-? decode_body body;
    Ok (mkDecoded envelope header transactions).
End blocks.
