(* ===== verification/IpldFacts.v ===== *)
(** * Facts on IPLD blocks

    Chunking, and the two directions of the block encoding: a bundle decodes to the block it was made
    from, and what an envelope decodes to does not depend on who supplies its parts. *)

From S2P Require Import Prelude Types Params TxPool Ipld.
From stdpp Require Import base list list_numbers gmap strings.
From Stdlib Require Import ZArith Lia.

Open Scope Z_scope.
Open Scope bolt_scope.

(** Splits a hypothesis that a chain of [?]s returned [Ok]. *)
Ltac inv_ok H :=
  repeat lazymatch type of H with
  | result_bind ?m _ = Ok _ =>
      let E := fresh "E" in destruct m eqn:E; [cbn [result_bind] in H|discriminate H]
  | (if ?b then _ else _) = Ok _ =>
      let E := fresh "E" in destruct b eqn:E; try discriminate H
  end.

Lemma ok_or_Ok {E A} (o : option A) (e : E) a : ok_or o e = Ok a -> o = Some a.
Proof. destruct o; simpl; congruence. Qed.

(** ** Chunks *)

Section chunks.
Context {A : Type} (n : nat) (Hn : (0 < n)%nat).
Implicit Types l : list A.

Lemma chunks_aux_concat fuel : forall l, (length l <= fuel)%nat -> concat (chunks_aux fuel n l) = l.
Proof.
  induction fuel as [|fuel IH]; intros [|x l] Hl; [done|simpl in Hl; lia|done|].
  change (take n (x :: l) ++ concat (chunks_aux fuel n (drop n (x :: l))) = x :: l).
  rewrite IH; [apply take_drop|]. rewrite length_drop. simpl in *. lia.
Qed.

Lemma chunks_concat l : concat (chunks n l) = l.
Proof. by apply chunks_aux_concat. Qed.

Lemma chunks_aux_sizes fuel : forall l,
  Forall (fun g => (0 < length g <= n)%nat) (chunks_aux fuel n l).
Proof.
  induction fuel as [|fuel IH]; intros [|x l]; [constructor..|].
  change (chunks_aux (S fuel) n (x :: l))
    with (take n (x :: l) :: chunks_aux fuel n (drop n (x :: l))).
  constructor; [|apply IH]. rewrite length_take. simpl. lia.
Qed.

Lemma chunks_sizes l : Forall (fun g => (0 < length g <= n)%nat) (chunks n l).
Proof. apply chunks_aux_sizes. Qed.

(** Element [i] is at place [i mod n] of chunk [i / n]. *)
Lemma chunks_aux_lookup fuel : forall l i x,
  (length l <= fuel)%nat -> l !! i = Some x ->
  exists g, chunks_aux fuel n l !! (i / n)%nat = Some g /\ g !! (i mod n)%nat = Some x.
Proof.
  induction fuel as [|fuel IH]; intros [|y l] i x Hl Hi; [done|simpl in Hl; lia|done|].
  change (chunks_aux (S fuel) n (y :: l))
    with (take n (y :: l) :: chunks_aux fuel n (drop n (y :: l))).
  destruct (decide (i < n)%nat) as [Hlt|Hge].
  - rewrite Nat.div_small, Nat.mod_small by done. eexists. split; [done|].
    by rewrite lookup_take_lt.
  - destruct (IH (drop n (y :: l)) (i - n)%nat x) as (g & Hg & Hx).
    + rewrite length_drop. simpl in *. lia.
    + rewrite lookup_drop. by replace (n + (i - n))%nat with i by lia.
    + exists g. assert (i = (i - n) + 1 * n)%nat as E by lia. rewrite E at 1 2.
      rewrite Nat.div_add, Nat.Div0.mod_add by lia. rewrite Nat.add_1_r. done.
Qed.

Lemma chunks_lookup l i x :
  l !! i = Some x ->
  exists g, chunks n l !! (i / n)%nat = Some g /\ g !! (i mod n)%nat = Some x.
Proof. by apply chunks_aux_lookup. Qed.

Lemma chunks_aux_length fuel : forall l,
  (length l <= fuel)%nat -> length (chunks_aux fuel n l) = ((length l + n - 1) / n)%nat.
Proof.
  induction fuel as [|fuel IH]; intros [|x l] Hl; [|simpl in Hl; lia| |].
  - simpl. rewrite Nat.div_small; lia.
  - simpl. rewrite Nat.div_small; lia.
  - change (S (length (chunks_aux fuel n (drop n (x :: l)))) = ((length (x :: l) + n - 1) / n)%nat).
    rewrite IH; [|rewrite length_drop; simpl in *; lia]. rewrite length_drop.
    destruct (decide (length (x :: l) <= n)%nat) as [Hs|Hs].
    + replace (length (x :: l) - n)%nat with 0%nat by lia. rewrite Nat.div_small by lia.
      assert (length (x :: l) <> 0)%nat by done.
      apply Nat.div_unique with (length (x :: l) - 1)%nat; lia.
    + replace (length (x :: l) + n - 1)%nat with (length (x :: l) - n + n - 1 + 1 * n)%nat by lia.
      rewrite Nat.div_add by lia. lia.
Qed.

Lemma chunks_length l : length (chunks n l) = ((length l + n - 1) / n)%nat.
Proof. by apply chunks_aux_length. Qed.
End chunks.

Lemma max_block_bytes : MAX_IPLD_BLOCK_BYTES = 1048576.
Proof. reflexivity. Qed.

(** ** Verification *)

Section facts.
Context `{K : Keccak} `{Sh : Sha256} `{R : HeaderRlp} `{A : AlloyTx} `{B : !BodyRlp}.
Context `{CE : DagCbor Envelope}.

Lemma verify_sha256 codec data :
  codec = RAW \/ codec = DAG_CBOR -> Z.of_nat (length data) <= MAX_IPLD_BLOCK_BYTES ->
  verify (sha256_cid codec data) data = Ok ().
Proof.
  intros Hc Hl. unfold verify. replace (MAX_IPLD_BLOCK_BYTES <? _) with false by lia.
  unfold sha256_cid, new_v1. cbn [cid_codec cid_code cid_digest].
  destruct Hc as [-> | ->]; simpl; by rewrite bool_decide_true.
Qed.

Lemma verify_header data :
  Z.of_nat (length data) <= MAX_IPLD_BLOCK_BYTES ->
  verify (header_cid (keccak256 data)) data = Ok ().
Proof.
  intros Hl. unfold verify. replace (MAX_IPLD_BLOCK_BYTES <? _) with false by lia.
  unfold header_cid, new_v1. cbn [cid_codec cid_code cid_digest].
  change ((ETH_BLOCK =? ETH_BLOCK) && (KECCAK_256 =? KECCAK_256)) with true. cbn [result_bind].
  by rewrite bool_decide_true.
Qed.

(** Two different strings with one digest. *)
Definition collision : Prop :=
  exists x y : bytes, x <> y /\ (keccak256 x = keccak256 y \/ sha256 x = sha256 y).

(** The digest a CID demands determines the content, up to a collision. *)
Lemma verify_unique `{!KeccakLaws K} cid x y u u' :
  verify cid x = Ok u -> verify cid y = Ok u' -> x = y \/ collision.
Proof.
  intros H H0.
  destruct (decide (x = y)) as [|Hne]; [by left|right]. exists x, y. split; [done|].
  revert H H0. unfold verify. destruct (_ <? Z.of_nat (length x)); [done|].
  destruct (_ <? Z.of_nat (length y)); [done|].
  destruct ((cid_codec cid =? ETH_BLOCK) && _); [|destruct (_ && _); [|done]]; cbn [result_bind];
    case_bool_decide as E1; [|done| |done]; case_bool_decide as E2; intros; try done.
  - left. rewrite E1 in E2. by apply (be_bytes_inj 32) in E2; [|apply keccak_range..].
  - right. congruence.
Qed.

(** ** Decoding a bundle *)

Context `{HR : !HeaderRlpLaws R} `{HB : !BodyRlpLaws B}.

Lemma decode_txs_encode txs : decode_txs (map tx_encoded_2718 txs) = Ok txs.
Proof.
  induction txs as [|t txs IH]; [done|]. simpl. rewrite decode_encoded_2718. simpl. by rewrite IH.
Qed.

Lemma decode_body_encode txs : decode_body (encode_body txs) = Ok txs.
Proof.
  unfold decode_body, encode_body. rewrite bool_decide_false by apply rlp_list_nonempty.
  rewrite unrlp_rlp_list. simpl. apply decode_txs_encode.
Qed.

Lemma fetch_body_pieces pieces get :
  Forall (fun p : bytes => Z.of_nat (length p) <= MAX_IPLD_BLOCK_BYTES) pieces ->
  (forall p, p ∈ pieces -> get (sha256_cid RAW p) = Some p) ->
  fetch_body (map (sha256_cid RAW) pieces) get = Ok (concat pieces).
Proof.
  induction 1 as [|p pieces Hp _ IH]; intros Hg; [done|]. cbn [map fetch_body concat].
  rewrite Hg by set_solver. change (cid_codec (sha256_cid RAW p) =? RAW) with true. cbn [negb ok_or result_bind].
  rewrite verify_sha256 by auto. cbn [result_bind]. rewrite IH; [done|]. intros q Hq. apply Hg. set_solver.
Qed.

Lemma body_pieces_sizes txs :
  Forall (fun p : bytes => Z.of_nat (length p) <= MAX_IPLD_BLOCK_BYTES) (body_pieces txs).
Proof.
  unfold body_pieces. case_bool_decide; [constructor|]. eapply Forall_impl.
  - apply chunks_sizes. rewrite max_block_bytes. lia.
  - cbv beta. rewrite max_block_bytes. lia.
Qed.

Lemma decode_body_pieces txs : decode_body (concat (body_pieces txs)) = Ok txs.
Proof.
  unfold body_pieces. case_bool_decide as Ht; [by subst|].
  rewrite chunks_concat by (rewrite max_block_bytes; lia). apply decode_body_encode.
Qed.

(** The header and the pieces are enough to decode a bundle's envelope. *)
Lemma bundle_decodes header txs parent qc audits get :
  Z.of_nat (length (rlp_header header)) <= MAX_IPLD_BLOCK_BYTES ->
  (forall c d, (c, d) ∈ (header_cid (keccak256 (rlp_header header)), rlp_header header)
                        :: map (fun piece => (sha256_cid RAW piece, piece)) (body_pieces txs) -> get c = Some d) ->
  let b := bundle_with_audits header txs parent qc audits in
  decode_block (bd_envelope b) get = Ok (mkDecoded (bd_envelope b) header txs).
Proof.
  intros Hsize Hget b. pose proof (body_pieces_sizes txs) as Hs.
  assert (get (header_cid (keccak256 (rlp_header header))) = Some (rlp_header header)) as Hh by (apply Hget; left).
  assert (forall p, p ∈ body_pieces txs -> get (sha256_cid RAW p) = Some p) as Hp.
  { intros p Hp. apply Hget. right. by apply (list_elem_of_fmap_2 (fun piece => (sha256_cid RAW piece, piece))). }
  unfold decode_block. subst b. cbn [bd_envelope bundle_with_audits env_header env_height env_chunks].
  rewrite Hh. cbn [ok_or result_bind]. rewrite verify_header by done. cbn [result_bind].
  rewrite unrlp_rlp_header. cbn [ok_or result_bind]. rewrite Z.eqb_refl. cbn [negb].
  rewrite map_map. cbn [fst].
  change (map (fun x => sha256_cid RAW x) (body_pieces txs)) with (map (sha256_cid RAW) (body_pieces txs)).
  rewrite (fetch_body_pieces (body_pieces txs) get Hs Hp). cbn [result_bind].
  by rewrite decode_body_pieces.
Qed.
End facts.

(** C36.  A block survives the trip through IPFS: from the envelope of a bundle and any store that
    returns each of its parts under its CID, [decode_block] gives back the header and the
    transactions; the envelope itself decodes; and the header and body parts pass [verify]. *)
Theorem bundle_round_trip `{K : Keccak} `{Sh : Sha256} `{R : HeaderRlp} `{A : AlloyTx}
    `{B : !BodyRlp} `{CE : DagCbor Envelope} `{!HeaderRlpLaws R} `{!BodyRlpLaws B}
    `{!DagCborLaws Envelope} (header : BlockHeader) (txs : list TxEnvelope) (parent : option Cid)
    (qc : bytes) (audits : list bytes) (get : Cid -> option bytes)
    (Hsize : Z.of_nat (length (rlp_header header)) <= MAX_IPLD_BLOCK_BYTES)
    (Hget : forall c d, (c, d) ∈ bd_blocks (bundle_with_audits header txs parent qc audits) ->
              get c = Some d) :
  let b := bundle_with_audits header txs parent qc audits in
  decode_block (bd_envelope b) get = Ok (mkDecoded (bd_envelope b) header txs)
  /\ (data ← get (bd_root b); Some (Envelope_decode data)) = Some (Ok (bd_envelope b))
  /\ Forall (fun cd => cd.1 = bd_root b \/ verify cd.1 cd.2 = Ok ()) (bd_blocks b).
Proof.
  intros b. pose proof (body_pieces_sizes txs) as Hs. split; [|split].
  - apply bundle_decodes; [done|]. intros c d Hd. apply Hget. revert Hd. cbn [bundle_with_audits bd_blocks]. set_solver.
  - rewrite (Hget (bd_root b) (Envelope_encode (bd_envelope b))).
    + cbn [mbind option_bind]. unfold Envelope_decode, Envelope_encode. rewrite from_to_vec. done.
    + right. apply elem_of_app. right. by left.
  - constructor; [right; by apply verify_header|]. apply Forall_app. split.
    + apply Forall_map. eapply Forall_impl; [exact Hs|]. intros p Hl. right.
      apply verify_sha256; [by left|done].
    + constructor; [by left|constructor].
Qed.

Lemma fetch_body_unique `{K : Keccak} `{Sh : Sha256} `{!KeccakLaws K} cs get get' : forall x y,
  fetch_body cs get = Ok x -> fetch_body cs get' = Ok y -> x = y \/ collision.
Proof.
  induction cs as [|c cs IH]; intros x y; cbn [fetch_body]; [left; congruence|].
  destruct (cid_codec c =? RAW); [|done]. cbn [negb]. intros Hx Hy. inv_ok Hx. inv_ok Hy.
  destruct (verify_unique c _ _ _ _ E0 E3) as [->|]; [|by right].
  destruct (IH _ _ eq_refl eq_refl) as [->|]; [|by right]. left. congruence.
Qed.

(** Content addressing: what an envelope decodes to does not depend on who supplies its parts.
    Two suppliers that both make [decode_block] succeed give the same block, unless they exhibit
    a hash collision. *)
Theorem decode_block_unique `{K : Keccak} `{Sh : Sha256} `{R : HeaderRlp} `{A : AlloyTx}
    `{B : !BodyRlp} `{!KeccakLaws K} (env : Envelope) (get get' : Cid -> option bytes)
    (d d' : DecodedBlock) (H : decode_block env get = Ok d) (H' : decode_block env get' = Ok d') :
  d = d' \/ collision.
Proof.
  unfold decode_block in H, H'. inv_ok H. inv_ok H'. injection H as <-. injection H' as <-.
  destruct (verify_unique _ _ _ _ _ E0 E6) as [->|]; [|by right].
  destruct (fetch_body_unique _ _ _ _ _ E3 E9) as [->|]; [|by right]. left. congruence.
Qed.

(** ** Concrete instances *)

Module IpldWitness.
(** Headers and byte lists encoded as lists of integers; an injective digest of 32 bytes is not
    needed here. *)
#[export] Instance toy_keccak : Keccak := fun b => wrap 256 (be_val b * 7919 + 13).
#[export] Instance toy_keccak_laws : KeccakLaws toy_keccak.
Proof. intros b. by apply wrap_range. Qed.

#[export] Instance toy_sha : Sha256 := fun b => be_bytes 32 (be_val b * 31 + 7).

(** An optional field as a tag and a value. *)
Definition toy_opt (o : option Z) : bytes := match o with Some x => [1; x] | None => [0; 0] end.
Definition toy_unopt (t x : Z) : option Z := if t =? 1 then Some x else None.

#[export] Instance toy_rlp : HeaderRlp := {
  rlp_header '(mkBlockHeader a b c d e f g i j rr bl k u x fee p r) :=
    [a; b; c; d; e; f; g; i; j; rr; k; u] ++ toy_opt fee ++ toy_opt p
    ++ [Z.of_nat (length x); Z.of_nat (length bl); Z.of_nat (length r)] ++ x ++ bl ++ r;
  unrlp_header l := match l with
    | a :: b :: c :: d :: e :: f :: g :: i :: j :: rr :: k :: u :: ft :: fv :: pt :: pv :: n :: m :: o :: rest =>
        let n := Z.to_nat n in
        let m := Z.to_nat m in
        Some (mkBlockHeader a b c d e f g i j rr (take m (drop n rest)) k u (take n rest)
                (toy_unopt ft fv) (toy_unopt pt pv) (take (Z.to_nat o) (drop m (drop n rest))))
    | _ => None
    end;
}.

#[export] Instance toy_rlp_laws : HeaderRlpLaws toy_rlp.
Proof.
  intros [a b c d e f g i j rr bl k u x fee p r]. destruct fee as [v|], p as [w|];
    cbn [rlp_header toy_rlp toy_opt app unrlp_header]; cbv zeta;
    by rewrite !Nat2Z.id, take_app_length, drop_app_length, take_app_length, drop_app_length, firstn_all.
Qed.

(** dag-cbor by a countable encoding, in one integer. *)
Definition countable_cbor (T : Type) `{Countable T} : DagCbor T := {|
  to_vec x := [Zpos (encode x)];
  from_slice b := match b with [Zpos p] => decode p | _ => None end;
|}.

Lemma countable_cbor_laws (T : Type) `{Countable T} : @DagCborLaws T (countable_cbor T).
Proof. intros x. apply decode_encode. Qed.

#[export] Instance Envelope_eq_dec : EqDecision Envelope.
Proof. solve_decision. Defined.

#[export] Program Instance Envelope_countable : Countable Envelope :=
  inj_countable' (fun e => (env_v e, env_height e, env_header e, env_parent e, env_chunks e,
                            env_qc e, env_audits e))
    (fun '(a, b, c, d, e, f, g) => mkEnvelope a b c d e f g) _.
Next Obligation. by intros []. Qed.

#[export] Instance toy_cbor : DagCbor Envelope := countable_cbor Envelope.
#[export] Instance toy_cbor_laws : DagCborLaws Envelope := countable_cbor_laws Envelope.

(** Transactions are integers. *)
#[export] Instance toy_txs : AlloyTx := {
  TxEnvelope := Z;
  tx_is_eip4844 _ := false;
  tx_chain_id _ := None;
  tx_gas_limit _ := 0;
  tx_max_fee_per_gas _ := 0;
  tx_max_priority_fee_per_gas _ := None;
  tx_recover_signer t := Some t;
  tx_hash t := t;
  tx_encode_2718_len _ := 1;
  tx_decode_2718 b := match b with t :: b => Some (t, b) | [] => None end;
  tx_nonce _ := 0;
  tx_value _ := 0;
  tx_effective_tip_per_gas _ _ := None;
  tx_access_list _ := None;
  tx_authorization_count _ := None;
  tx_input _ := [];
  tx_is_create _ := false;
  calculate_initial_tx_gas _ _ _ _ _ := (0, 0, 0);
}.

#[export] Instance toy_body : BodyRlp := {
  rlp_list l := [Zpos (encode l)];
  unrlp_list b := match b with
    | Zpos p :: b => match decode p with Some l => Some (l, b) | None => None end
    | _ => None
    end;
  tx_encoded_2718 (t : Z) := [t];
}.

#[export] Instance toy_body_laws : BodyRlpLaws toy_body.
Proof. split; [|done|done]. intros l. simpl. by rewrite decode_encode. Qed.

Definition header : BlockHeader := mkBlockHeader 1 2 3 4 5 6 7 8 12 14 [15] 13 16 [9] (Some 17) (Some 11) [10].
Definition toy_bundle : BlockBundle := bundle_with_audits (A := toy_txs) header [21; 22] None [5] [].
Definition get (c : Cid) : option bytes :=
  match list_find (fun cd => cd.1 = c) (bd_blocks toy_bundle) with
  | Some (_, cd) => Some cd.2
  | None => None
  end.

Lemma bundle_round_trip_witness :
  decode_block (bd_envelope toy_bundle) get = Ok (mkDecoded (A := toy_txs) (bd_envelope toy_bundle) header [21; 22]).
Proof.
  apply (bundle_round_trip (A := toy_txs) header [21; 22] None [5] [] get).
  - vm_compute. discriminate.
  - intros c d Hin.
    assert (Forall (fun cd => get cd.1 = Some cd.2) (bd_blocks toy_bundle)) as Hall.
    { refine (bool_decide_unpack _ (_ : bool_decide _)). vm_compute. exact I. }
    rewrite Forall_forall in Hall. apply (Hall (c, d)). exact Hin.
Defined.

Lemma decode_block_unique_witness :
  mkDecoded (A := toy_txs) (bd_envelope toy_bundle) header [21; 22] = mkDecoded (A := toy_txs) (bd_envelope toy_bundle) header [21; 22]
  \/ collision.
Proof.
  apply (decode_block_unique (bd_envelope toy_bundle) get get); vm_compute; reflexivity.
Defined.

(** [Header::decode] leaves bytes after the header unread, and [decode_block] does not look at
    them: a header followed by more bytes is accepted under the CID of the whole, and the
    decoded header does not have the hash in that CID. *)
Theorem trailing_header_bytes :
  let data := rlp_header header ++ [77] in
  let env := mkEnvelope 1 2 (header_cid (keccak256 data)) None [] [] [] in
  exists d, decode_block env (fun _ => Some data) = Ok d
    /\ Envelope_block_hash env <> Some (header_hash (db_header d)).
Proof. eexists. split; [vm_compute; reflexivity|]. vm_compute. discriminate. Qed.
End IpldWitness.
