(* ===== verification/Car.v ===== *)
(** * CAR archives and traversal

    Models crates/ipld/src/car.rs: writing and reading CAR v1 archives, the links of a block that an
    export follows, and the traversal of everything reachable from a root.  Varints, CID bytes
    and dag-cbor are those of the libraries the code calls. *)

From S2P Require Import Prelude Types Params TxPool Ipld IpldFacts.
From stdpp Require Import base list list_numbers gmap relations strings.
From Stdlib Require Import ZArith Lia.

Open Scope Z_scope.
Open Scope bolt_scope.

(** ** The libraries *)

(** [unsigned_varint::encode::usize] and [decode::usize]. *)
Class Varint := {
  varint_encode : Z -> bytes;
  varint_decode : bytes -> option (Z * bytes);
}.

Class VarintLaws (V : Varint) : Prop := {
  varint_decode_encode : forall n rest,
    in_range 64 n -> varint_decode (varint_encode n ++ rest) = Some (n, rest);
  varint_encode_nonempty : forall n, varint_encode n <> [];
  varint_decode_shorter : forall b n rest,
    varint_decode b = Some (n, rest) -> (length rest < length b)%nat;
  varint_decode_nonneg : forall b n rest, varint_decode b = Some (n, rest) -> 0 <= n;
}.

(** [Cid::to_bytes] and [Cid::read_bytes]: the CID and the bytes after it. *)
Class CidBytes := {
  cid_to_bytes : Cid -> bytes;
  cid_read_bytes : bytes -> option (Cid * bytes);
}.

Class CidBytesLaws (C : CidBytes) : Prop :=
  cid_read_to_bytes : forall c rest, cid_read_bytes (cid_to_bytes c ++ rest) = Some (c, rest).

(** [ipld_core::ipld::Ipld]; the scalars carry no links. *)
Inductive Ipld :=
  | IpScalar
  | IpList (items : list Ipld)
  | IpMap (m : list (string * Ipld))
  | IpLink (c : Cid).

(** ** Archives *)

Record CarHeader := mkCarHeader {
  car_roots : list Cid;
  car_version : Z;
}.

Section car.
Context `{K : Keccak} `{Sh : Sha256} `{V : Varint} `{CB : CidBytes}.
Context `{CH : DagCbor CarHeader} `{CI : DagCbor Ipld}.

Definition put_varint (out : bytes) (n : Z) : bytes := out ++ varint_encode n.

Definition take_varint (buf : bytes) : result IpldError (Z * bytes) :=
  ok_or (varint_decode buf) (Malformed "car varint").

Definition put_section (out : bytes) (block : Cid * bytes) : bytes :=
  let c := cid_to_bytes block.1 in
  put_varint out (Z.of_nat (length c + length block.2)) ++ c ++ block.2.

Definition car_write (roots : list Cid) (blocks : list (Cid * bytes)) : bytes :=
  let header := to_vec (mkCarHeader roots 1) in
  foldl put_section (put_varint [] (Z.of_nat (length header)) ++ header) blocks.

(** [buf.get(..len)]. *)
Definition get_to (buf : bytes) (len : Z) : option bytes :=
  if len <=? Z.of_nat (length buf) then Some (take (Z.to_nat len) buf) else None.

Fixpoint read_sections (fuel : nat) (buf : bytes) : outcome (result IpldError (list (Cid * bytes))) :=
  if bool_decide (buf = []) then Done (Ok [])
  else
    match fuel with
    | O => OutOfFuel
    | S fuel =>
        match take_varint buf with
        | Err e => Done (Err e)
        | Ok (len, buf) =>
            match get_to buf len with
            | None => Done (Err (Malformed "car section"))
            | Some section =>
                match cid_read_bytes section with
                | None => Done (Err (Malformed "car cid"))
                | Some (cid, data) =>
                    match verify cid data with
                    | Err e => Done (Err e)
                    | Ok _ =>
                        (rest <!- read_sections fuel (drop (Z.to_nat len) buf);
                         Done (blocks <-? rest; Ok ((cid, data) :: blocks)))
                    end
                end
            end
        end
    end.

(** Each turn reads at least one byte. *)
Definition car_read (buf : bytes) : outcome (result IpldError (list Cid * list (Cid * bytes))) :=
  match take_varint buf with
  | Err e => Done (Err e)
  | Ok (hlen, buf) =>
      match get_to buf hlen with
      | None => Done (Err (Malformed "car header"))
      | Some hbytes =>
          match from_slice hbytes with
          | None => Done (Err (Malformed "car header"))
          | Some header =>
              if negb (car_version header =? 1) then Done (Err (Malformed "car version"))
              else
                let buf := drop (Z.to_nat hlen) buf in
                (sections <!- read_sections (length buf) buf;
                 Done (blocks <-? sections; Ok (car_roots header, blocks)))
          end
      end
  end.

(** ** Links *)

Definition has_key (k : string) (m : list (string * Ipld)) : bool :=
  existsb (fun kv => String.eqb kv.1 k) m.

Fixpoint collect (node : Ipld) : list Cid :=
  match node with
  | IpLink c => [c]
  | IpList items => flat_map collect items
  | IpMap m =>
      let envelope := has_key "header" m && has_key "parent" m in
      flat_map (fun kv => if negb (envelope && String.eqb kv.1 "parent") then collect kv.2 else []) m
  | IpScalar => []
  end.

Definition links (cid : Cid) (data : bytes) : list Cid :=
  if negb (cid_codec cid =? DAG_CBOR) then []
  else match from_slice data with None => [] | Some node => collect node end.

(** ** Traversal *)

(** The loop over the stack, whose top is the head of the list ([l.reverse(); stack.extend(l)]
    puts the first link on top). *)
Fixpoint traverse_loop (fuel : nat) (get : Cid -> option bytes) (stack : list Cid)
    (seen : gset Cid) (out : list (Cid * bytes)) : outcome (result IpldError (list (Cid * bytes))) :=
  match stack with
  | [] => Done (Ok out)
  | c :: stack =>
      match fuel with
      | O => OutOfFuel
      | S fuel =>
          if bool_decide (c ∈ seen) then traverse_loop fuel get stack seen out
          else
            match get c with
            | None => Done (Err (Missing c))
            | Some data =>
                traverse_loop fuel get (links c data ++ stack) ({[c]} ∪ seen) (out ++ [(c, data)])
            end
      end
  end.

Definition traverse (fuel : nat) (root : Cid) (get : Cid -> option bytes)
    : outcome (result IpldError (list (Cid * bytes))) :=
  traverse_loop fuel get [root] ∅ [].
End car.
