(* ===== verification/CarFacts.v ===== *)
(** * Facts on CAR archives and traversal *)

From S2P Require Import Prelude Types Params TxPool Ipld IpldFacts Car.
From stdpp Require Import base list list_numbers gmap relations strings.
From Stdlib Require Import ZArith Lia.

Open Scope Z_scope.
Open Scope bolt_scope.

Section archives.
Context `{K : Keccak} `{Sh : Sha256} `{V : Varint} `{CB : CidBytes} `{CH : DagCbor CarHeader}.
Context `{HV : !VarintLaws V} `{HC : !CidBytesLaws CB}.

Definition section_bytes (block : Cid * bytes) : bytes :=
  varint_encode (Z.of_nat (length (cid_to_bytes block.1) + length block.2))
  ++ cid_to_bytes block.1 ++ block.2.

Lemma put_sections acc blocks :
  foldl put_section acc blocks = acc ++ concat (map section_bytes blocks).
Proof.
  revert acc. induction blocks as [|b blocks IH]; intros acc; simpl; [by rewrite app_nil_r|].
  rewrite IH. unfold put_section, put_varint, section_bytes. by rewrite <-!app_assoc.
Qed.

Lemma get_to_app a b n : n = Z.of_nat (length a) -> get_to (a ++ b) n = Some a.
Proof.
  intros ->. unfold get_to. rewrite length_app.
  rewrite (proj2 (Z.leb_le _ _)) by lia. rewrite Nat2Z.id. by rewrite take_app_length.
Qed.

(** What a block needs to be archived: it verifies, and its section's length is a [usize]. *)
Definition archivable (block : Cid * bytes) : Prop :=
  verify block.1 block.2 = Ok ()
  /\ in_range 64 (Z.of_nat (length (cid_to_bytes block.1) + length block.2)).

Lemma section_nonempty block : (0 < length (section_bytes block))%nat.
Proof.
  unfold section_bytes. rewrite length_app.
  pose proof (varint_encode_nonempty (Z.of_nat (length (cid_to_bytes block.1) + length block.2))).
  destruct (varint_encode _); simpl; [done|lia].
Qed.

Lemma read_sections_write blocks : forall fuel,
  Forall archivable blocks -> (length (concat (map section_bytes blocks)) <= fuel)%nat ->
  read_sections fuel (concat (map section_bytes blocks)) = Done (Ok blocks).
Proof.
  induction blocks as [|[c d] blocks IH]; intros fuel Ha Hf; [by destruct fuel|].
  apply Forall_cons in Ha as [[Hv Hl] Ha]. cbn [map concat fst snd] in *.
  pose proof (section_nonempty (c, d)) as Hpos. rewrite length_app in Hf.
  destruct fuel as [|fuel]; [lia|]. cbn [read_sections].
  rewrite bool_decide_false by (intros E; apply (f_equal length) in E; rewrite length_app in E; simpl in E; lia).
  unfold take_varint. unfold section_bytes at 1. cbn [fst snd].
  rewrite <-!app_assoc, varint_decode_encode by done. cbn [ok_or].
  rewrite app_assoc. rewrite get_to_app by (rewrite length_app; lia).
  rewrite cid_read_to_bytes, Hv. rewrite Nat2Z.id, <-length_app, drop_app_length.
  rewrite IH by (done || lia). done.
Qed.

Lemma read_sections_verified fuel : forall buf blocks,
  read_sections fuel buf = Done (Ok blocks) -> Forall (fun b => verify b.1 b.2 = Ok ()) blocks.
Proof.
  induction fuel as [|fuel IH]; intros buf blocks; cbn [read_sections].
  - case_bool_decide; [|done]. intros [= <-]. constructor.
  - case_bool_decide; [intros [= <-]; constructor|].
    destruct (take_varint buf) as [[len rest]|]; [|done]. destruct (get_to rest len) as [sec|]; [|done].
    destruct (cid_read_bytes sec) as [[cid data]|]; [|done].
    destruct (verify cid data) as [[]|] eqn:Ev; [|done].
    destruct (read_sections fuel _) as [[bs|e]| |] eqn:Er; cbn; intros [= <-].
    constructor; [done|]. by eapply IH.
Qed.

Lemma get_to_length buf len s : 0 <= len -> get_to buf len = Some s -> (Z.to_nat len <= length buf)%nat.
Proof. unfold get_to. destruct (len <=? _) eqn:E; [lia|done]. Qed.

Lemma read_sections_total fuel : forall buf,
  (length buf <= fuel)%nat -> exists r, read_sections fuel buf = Done r.
Proof.
  induction fuel as [|fuel IH]; intros buf Hl; cbn [read_sections].
  - destruct buf; [|simpl in Hl; lia]. eauto.
  - case_bool_decide; [eauto|]. destruct (take_varint buf) as [[len rest]|] eqn:Ev; [|eauto].
    destruct (get_to rest len) as [sec|]; [|eauto]. destruct (cid_read_bytes sec) as [[cid data]|]; [|eauto].
    destruct (verify cid data) as [[]|]; [|eauto].
    unfold take_varint in Ev. apply ok_or_Ok in Ev. apply varint_decode_shorter in Ev.
    destruct (IH (drop (Z.to_nat len) rest)) as [r ->]; [rewrite length_drop; lia|]. simpl. eauto.
Qed.
End archives.

(** C37.  CAR archives: an archive of blocks that verify reads back as the same roots and blocks, in
    order; reading any byte string returns; and every block of an archive that is accepted
    verifies against its CID. *)
Theorem car_round_trip `{K : Keccak} `{Sh : Sha256} `{V : Varint} `{CB : CidBytes}
    `{CH : DagCbor CarHeader} `{!VarintLaws V} `{!CidBytesLaws CB} `{!DagCborLaws CarHeader}
    (roots : list Cid) (blocks : list (Cid * bytes)) (Hb : Forall archivable blocks)
    (Hh : in_range 64 (Z.of_nat (length (to_vec (mkCarHeader roots 1))))) :
  car_read (car_write roots blocks) = Done (Ok (roots, blocks))
  /\ forall buf, exists r, car_read buf = Done r
       /\ forall rs bs, r = Ok (rs, bs) -> Forall (fun b => verify b.1 b.2 = Ok ()) bs.
Proof.
  split.
  - unfold car_read, car_write, put_varint. rewrite put_sections. cbn [app].
    unfold take_varint. rewrite <-!app_assoc, varint_decode_encode by done. cbn [ok_or].
    rewrite get_to_app by done. rewrite from_to_vec. cbn [car_version negb Z.eqb Pos.eqb].
    rewrite Nat2Z.id, drop_app_length, read_sections_write by (done || lia). done.
  - intros buf. unfold car_read. destruct (take_varint buf) as [[hlen rest]|]; [|by eexists].
    destruct (get_to rest hlen) as [hb|]; [|by eexists]. destruct (from_slice hb) as [hd|]; [|by eexists].
    destruct (negb _); [by eexists|]. cbv zeta.
    destruct (read_sections_total _ (drop (Z.to_nat hlen) rest) (le_n _)) as [r Hr]. rewrite Hr.
    eexists. split; [reflexivity|]. destruct r as [bs|e]; [|done]. cbn [result_bind].
    intros rs bs' [= <- <-]. by eapply read_sections_verified.
Qed.

(** ** Traversal *)

Section traversal.
Context `{CI : DagCbor Ipld} (store : gmap Cid bytes) (root : Cid).

(** [d] is linked from [c], whose data the store has. *)
Definition linked (c d : Cid) : Prop := exists data, store !! c = Some data /\ d ∈ links c data.

Definition reachable (c : Cid) : Prop := rtc linked root c.

(** The links of the blocks not seen yet. *)
Definition unseen_links (seen : gset Cid) : nat :=
  map_fold (fun c data acc => ((if bool_decide (c ∈ seen) then 0 else length (links c data)) + acc)%nat)
    0%nat store.

Record traversal_ok (stack : list Cid) (seen : gset Cid) (out : list (Cid * bytes)) : Prop := {
  tr_seen : forall c, c ∈ seen <-> c ∈ out.*1;
  tr_nodup : NoDup out.*1;
  tr_data : forall c d, (c, d) ∈ out -> store !! c = Some d;
  tr_reach : forall c, c ∈ stack \/ c ∈ seen -> reachable c;
  tr_links : forall c d, (c, d) ∈ out -> forall l, l ∈ links c d -> l ∈ stack \/ l ∈ seen;
  tr_root : root ∈ stack \/ root ∈ seen;
}.

Lemma traversal_start : traversal_ok [root] ∅ [].
Proof.
  split; [set_solver|constructor|set_solver| |set_solver|set_solver].
  intros c [->%list_elem_of_singleton|?]; [apply rtc_refl|set_solver].
Qed.

Lemma traversal_skip c stack seen out :
  traversal_ok (c :: stack) seen out -> c ∈ seen -> traversal_ok stack seen out.
Proof.
  intros [H1 H2 H3 H4 H5 H6] Hc. split; [done|done|done| | |].
  - intros x Hx. apply H4. set_solver.
  - intros x d Hin l Hl. destruct (H5 x d Hin l Hl) as [[->|?]%elem_of_cons|?]; auto.
  - destruct H6 as [[->|?]%elem_of_cons|?]; auto.
Qed.

Lemma traversal_visit c stack seen out data :
  traversal_ok (c :: stack) seen out -> c ∉ seen -> store !! c = Some data ->
  traversal_ok (links c data ++ stack) ({[c]} ∪ seen) (out ++ [(c, data)]).
Proof.
  intros [H1 H2 H3 H4 H5 H6] Hc Hd. split.
  - intros x. rewrite fmap_app, elem_of_app, <-H1. simpl. rewrite list_elem_of_singleton. set_solver.
  - rewrite fmap_app. apply NoDup_app. split; [done|]. split; [|apply NoDup_singleton].
    intros x Hx ->%list_elem_of_singleton. by apply Hc, H1.
  - intros x d [?|[= -> ->]%list_elem_of_singleton]%elem_of_app; [by apply H3|done].
  - intros x [[Hx|Hx]%elem_of_app|[->%elem_of_singleton|Hx]%elem_of_union].
    + eapply rtc_r; [apply H4; left; by left|]. by exists data.
    + apply H4. left. by right.
    + apply H4. left. by left.
    + apply H4. by right.
  - intros x d [Hx|[= -> ->]%list_elem_of_singleton]%elem_of_app l Hl.
    + destruct (H5 x d Hx l Hl) as [[->|?]%elem_of_cons|?].
      * right. set_solver.
      * left. apply elem_of_app. by right.
      * right. set_solver.
    + left. apply elem_of_app. by left.
  - destruct H6 as [[->|?]%elem_of_cons|?]; [right; set_solver|left; apply elem_of_app; by right|right; set_solver].
Qed.

Lemma unseen_links_visit c seen data :
  c ∉ seen -> store !! c = Some data ->
  (unseen_links seen = unseen_links ({[c]} ∪ seen) + length (links c data))%nat.
Proof.
  intros Hc Hd. unfold unseen_links. clear root.
  rewrite <-(insert_delete_id store c data Hd).
  rewrite !map_fold_insert_L; try apply lookup_delete_eq; try (intros; lia).
  rewrite bool_decide_false by done. rewrite (bool_decide_true (c ∈ {[c]} ∪ seen)) by set_solver.
  rewrite Nat.add_0_l, Nat.add_comm. f_equal.
  generalize (lookup_delete_eq store c). generalize (delete c store). intros m.
  induction m as [|i x m Hi IH] using map_ind; intros Hm; [by rewrite !map_fold_empty|].
  rewrite !map_fold_insert_L; try done; try (intros; lia).
  apply lookup_insert_None in Hm as [Hm Hne]. rewrite IH by done. f_equal.
  by rewrite (bool_decide_ext (i ∈ {[c]} ∪ seen) (i ∈ seen)) by set_solver.
Qed.

(** What the traversal promises. *)
Definition traversal_result (r : result IpldError (list (Cid * bytes))) : Prop :=
  match r with
  | Ok out => NoDup out.*1 /\ (forall c d, (c, d) ∈ out <-> reachable c /\ store !! c = Some d)
              /\ forall c, reachable c -> is_Some (store !! c)
  | Err e => exists c, e = Missing c /\ reachable c /\ store !! c = None
  end.

Lemma traversal_done seen out : traversal_ok [] seen out -> traversal_result (Ok out).
Proof.
  intros [H1 H2 H3 H4 H5 H6].
  assert (forall c, c ∈ seen -> exists d, (c, d) ∈ out) as Hout.
  { intros c Hc. apply H1 in Hc. apply list_elem_of_fmap in Hc as ([c' d] & -> & ?). by exists d. }
  assert (forall c, reachable c -> c ∈ seen) as Hclosed.
  { intros c Hc. refine (rtc_ind_r (fun c => c ∈ seen) root _ _ c Hc).
    - destruct H6 as [?%not_elem_of_nil|?]; done.
    - intros x y _ (data & Hx & Hy) Hin. destruct (Hout x Hin) as [d Hd].
      pose proof (H3 x d Hd) as Hd'. rewrite Hx in Hd'. injection Hd' as ->.
      destruct (H5 x d Hd y Hy) as [?%not_elem_of_nil|?]; done. }
  split; [done|]. split.
  - intros c d. split.
    + intros Hin. split; [|by apply H3]. apply H4. right. apply H1.
      by apply (list_elem_of_fmap_2 fst) in Hin.
    + intros [Hr Hd]. destruct (Hout c (Hclosed c Hr)) as [d' Hd'].
      pose proof (H3 c d' Hd') as E. rewrite Hd in E. by injection E as ->.
  - intros c Hr. destruct (Hout c (Hclosed c Hr)) as [d Hd]. exists d. by apply H3.
Qed.

Lemma traverse_loop_spec fuel : forall stack seen out,
  traversal_ok stack seen out -> (length stack + unseen_links seen < fuel)%nat ->
  exists r, traverse_loop fuel (fun c => store !! c) stack seen out = Done r /\ traversal_result r.
Proof.
  induction fuel as [|fuel IH]; intros stack seen out Hok Hf; [lia|].
  destruct stack as [|c stack]; cbn [traverse_loop].
  - eexists. split; [reflexivity|]. by eapply traversal_done.
  - case_bool_decide as Hc.
    + apply IH; [by eapply traversal_skip|]. simpl in Hf. lia.
    + destruct (store !! c) as [data|] eqn:Hd.
      * apply IH; [by apply traversal_visit|].
        rewrite (unseen_links_visit c seen data) in Hf by done. rewrite length_app. simpl in Hf. lia.
      * eexists. split; [reflexivity|]. exists c. split; [done|]. split; [|done].
        apply (tr_reach _ _ _ Hok). left. by left.
Qed.
End traversal.

(** C38.  An export is exactly what a root reaches: from a finite block store, the traversal returns
    (with fuel for every link once); it lists each block reachable from the root once, with its
    data, and nothing else; and it fails exactly when a reachable block is missing, naming one. *)
Theorem traverse_complete `{CI : DagCbor Ipld} (store : gmap Cid bytes) (root : Cid) (fuel : nat)
    (Hf : (1 + unseen_links store ∅ < fuel)%nat) :
  exists r, traverse fuel root (fun c => store !! c) = Done r
    /\ match r with
       | Ok out => NoDup out.*1
           /\ (forall c d, (c, d) ∈ out <-> reachable store root c /\ store !! c = Some d)
           /\ forall c, reachable store root c -> is_Some (store !! c)
       | Err e => exists c, e = Missing c /\ reachable store root c /\ store !! c = None
       end.
Proof. apply traverse_loop_spec; [apply traversal_start|simpl; lia]. Qed.

Module CarWitness.
Import IpldWitness.

#[export] Instance toy_varint : Varint := {
  varint_encode n := [n];
  varint_decode b := match b with n :: b => if n <? 0 then None else Some (n, b) | [] => None end;
}.

#[export] Instance toy_varint_laws : VarintLaws toy_varint.
Proof.
  split; simpl.
  - intros n rest [? _]. by replace (n <? 0) with false by lia.
  - done.
  - intros [|n b] m rest; [done|]. destruct (n <? 0); [done|]. intros [= _ <-]. simpl. lia.
  - intros [|n b] m rest; [done|]. destruct (n <? 0) eqn:E; [done|]. intros [= <- _]. lia.
Qed.

#[export] Instance toy_cid_bytes : CidBytes := {
  cid_to_bytes c := [Zpos (encode c)];
  cid_read_bytes b := match b with
    | Zpos p :: b => match decode p with Some c => Some (c, b) | None => None end
    | _ => None
    end;
}.

#[export] Instance toy_cid_bytes_laws : CidBytesLaws toy_cid_bytes.
Proof. intros c rest. simpl. by rewrite decode_encode. Qed.

#[export] Instance CarHeader_eq_dec : EqDecision CarHeader.
Proof. solve_decision. Defined.

#[export] Program Instance CarHeader_countable : Countable CarHeader :=
  inj_countable' (fun h => (car_roots h, car_version h)) (fun '(r, v) => mkCarHeader r v) _.
Next Obligation. by intros []. Qed.

#[export] Instance toy_car_cbor : DagCbor CarHeader := countable_cbor CarHeader.
#[export] Instance toy_car_cbor_laws : DagCborLaws CarHeader := countable_cbor_laws CarHeader.

(** A node is written as the list of its links. *)
#[export] Instance toy_ipld_cbor : DagCbor Ipld := {
  to_vec _ := [];
  from_slice b := match b with
    | [Zpos p] => match decode (A := list Cid) p with
                  | Some l => Some (IpList (map IpLink l))
                  | None => None
                  end
    | _ => None
    end;
}.

Definition leaf : bytes := [1; 2; 3].
Definition leaf_cid : Cid := sha256_cid RAW leaf.
Definition node : bytes := [Zpos (encode [leaf_cid; leaf_cid])].
Definition node_cid : Cid := sha256_cid DAG_CBOR node.

Lemma car_round_trip_witness :
  car_read (car_write [node_cid] [(node_cid, node); (leaf_cid, leaf)])
  = Done (Ok ([node_cid], [(node_cid, node); (leaf_cid, leaf)])).
Proof.
  apply (car_round_trip [node_cid] [(node_cid, node); (leaf_cid, leaf)]).
  - repeat constructor; vm_compute; (reflexivity || discriminate).
  - split; vm_compute; (reflexivity || discriminate).
Defined.

Definition store : gmap Cid bytes := {[ node_cid := node; leaf_cid := leaf ]}.

Lemma traverse_complete_witness :
  exists r, traverse 10 node_cid (fun c => store !! c) = Done r
    /\ r = Ok [(node_cid, node); (leaf_cid, leaf)].
Proof.
  destruct (traverse_complete store node_cid 10) as (r & Hr & _).
  - apply (bool_decide_unpack _). vm_compute. reflexivity.
  - exists r. split; [exact Hr|]. vm_compute in Hr. injection Hr as <-. vm_compute. reflexivity.
Defined.
End CarWitness.
