(* ===== verification/Index.v ===== *)
(** * Deal and epoch indexes, and snapshot chunks

    Models crates/ipld/src/deal.rs (the index of a storage deal's blocks) and crates/ipld/src/history.rs
    (the index of an epoch's envelopes, and the builder that cuts the flat state into chunks).
    dag-cbor and SHA-256 are parameters, as in Ipld.v. *)

From S2P Require Import Prelude Types Params TxPool Ipld IpldFacts.
From stdpp Require Import base list list_numbers gmap strings.
From Stdlib Require Import ZArith Lia.

Open Scope Z_scope.
Open Scope bolt_scope.

(** [block]: the dag-cbor encoding of a value and its CID. *)
Definition cbor_block `{Sha256} {T} `{DagCbor T} (v : T) : Cid * bytes :=
  (sha256_cid DAG_CBOR (to_vec v), to_vec v).

(** ** Deals *)

Definition DEAL_GROUP : Z := 1024.

Record DealIndex := mkDealIndex {
  di_v : Z;
  di_size : Z;
  di_count : Z;
  di_groups : list Cid;
  di_root : option Cid;
}.

Section deals.
Context `{Sh : Sha256} `{CL : DagCbor (list Cid)} `{CD : DagCbor DealIndex}.

Definition deal_index (blocks : list (Cid * Z)) (root : option Cid)
    : Cid * DealIndex * list (Cid * bytes) :=
  let out := map (fun g => cbor_block (map fst g)) (chunks (Z.to_nat DEAL_GROUP) blocks) in
  let size := u64 (sumZ (map snd blocks)) in
  let idx := mkDealIndex 1 size (Z.of_nat (length blocks)) (map fst out) root in
  ((cbor_block idx).1, idx, out ++ [cbor_block idx]).

Definition DealIndex_decode (b : bytes) : result IpldError DealIndex :=
  i <-? ok_or (from_slice b) (Malformed "deal index");
  if negb (di_v i =? 1)
     || negb (Z.of_nat (length (di_groups i)) =? div_ceil (di_count i) DEAL_GROUP)
  then Err (Malformed "deal index") else Ok i.

(** [self.groups[g]] aborts out of range. *)
Definition locate_deal (i : DealIndex) (index : Z) : outcome (option (Cid * Z)) :=
  if di_count i <=? index then Done None
  else
    match di_groups i !! Z.to_nat (index / DEAL_GROUP) with
    | Some g => Done (Some (g, index mod DEAL_GROUP))
    | None => Panic
    end.

Definition index_blocks (i : DealIndex) (root : Cid) : list Cid := di_groups i ++ [root].

Definition deal_decode_group (b : bytes) : result IpldError (list Cid) :=
  ok_or (from_slice b) (Malformed "deal index group").
End deals.

(** ** Epochs *)

Definition EPOCH_GROUP : Z := 1024.

Record EpochIndex := mkEpochIndex {
  ei_v : Z;
  ei_epoch : Z;
  ei_first : Z;
  ei_count : Z;
  ei_groups : list Cid;
}.

Section epochs.
Context `{Sh : Sha256} `{CL : DagCbor (list Cid)} `{CD : DagCbor EpochIndex}.

Definition epoch_index (epoch first : Z) (envelopes : list Cid) : Cid * list (Cid * bytes) :=
  let blocks := map cbor_block (chunks (Z.to_nat EPOCH_GROUP) envelopes) in
  let root := cbor_block (mkEpochIndex 1 epoch first (Z.of_nat (length envelopes)) (map fst blocks)) in
  (root.1, blocks ++ [root]).

Definition EpochIndex_decode (b : bytes) : result IpldError EpochIndex :=
  i <-? ok_or (from_slice b) (Malformed "epoch index");
  if negb (ei_v i =? 1) then Err (Malformed "epoch index version") else Ok i.

Definition epoch_decode_group (b : bytes) : result IpldError (list Cid) :=
  ok_or (from_slice b) (Malformed "epoch index group").
End epochs.

(** ** Snapshots *)

Definition SNAPSHOT_CHUNK_TARGET : Z := 512 * 1024.
Definition ACCOUNT_OVERHEAD : Z := 20 + 8 + 32 + 32 + 16.
Definition SLOT_SIZE : Z := 64 + 6.

Record SnapshotRoot := mkSnapshotRoot {
  sr_v : Z;
  sr_chain_id : Z;
  sr_number : Z;
  sr_hash : bytes;
  sr_state_root : bytes;
  sr_td : bytes;
  sr_envelope : Cid;
  sr_accounts : list Cid;
  sr_codes : list Cid;
}.

Definition SnapshotRoot_to_block `{Sha256} `{DagCbor SnapshotRoot} (r : SnapshotRoot) : Cid * bytes :=
  cbor_block r.

Definition SnapshotRoot_decode `{DagCbor SnapshotRoot} (b : bytes) : result IpldError SnapshotRoot :=
  r <-? ok_or (from_slice b) (Malformed "snapshot");
  if negb (sr_v r =? 1) || negb (Nat.eqb (length (sr_hash r)) 32)
     || negb (Nat.eqb (length (sr_state_root r)) 32) || negb (Nat.eqb (length (sr_td r)) 32)
  then Err (Malformed "snapshot root") else Ok r.

Record SnapAccount := mkSnapAccount {
  sa_a : bytes;
  sa_n : Z;
  sa_b : bytes;
  sa_c : bytes;
  sa_s : list (bytes * bytes);
  sa_x : bool;
}.

Record SnapshotBuilder := mkBuilder {
  current : list SnapAccount;
  sb_size : Z;
  codes : list bytes;
  code_size : Z;
  sb_accounts : list Cid;
  code_chunks : list Cid;
}.

Definition SnapshotBuilder_default : SnapshotBuilder := mkBuilder [] 0 [] 0 [] [].

Section builder.
Context `{Sh : Sha256} `{CA : DagCbor (list SnapAccount)} `{CC : DagCbor (list bytes)}.

Definition decode_accounts (b : bytes) : result IpldError (list SnapAccount) :=
  ok_or (from_slice b) (Malformed "snapshot chunk").

Definition decode_codes (b : bytes) : result IpldError (list bytes) :=
  ok_or (from_slice b) (Malformed "code chunk").

(** The builder after a flush, and the chunk if there was anything to flush. *)
Definition flush_accounts (s : SnapshotBuilder) : SnapshotBuilder * list (Cid * bytes) :=
  if bool_decide (length (current s) = 0%nat) then (s, [])
  else
    let b := cbor_block (current s) in
    (mkBuilder [] 0 (codes s) (code_size s) (sb_accounts s ++ [b.1]) (code_chunks s), [b]).

Definition flush_codes (s : SnapshotBuilder) : SnapshotBuilder * list (Cid * bytes) :=
  if bool_decide (codes s = []) then (s, [])
  else
    let b := cbor_block (codes s) in
    (mkBuilder (current s) (sb_size s) [] 0 (sb_accounts s) (code_chunks s ++ [b.1]), [b]).

Definition push_entry (e : SnapAccount) (s : SnapshotBuilder) : SnapshotBuilder :=
  mkBuilder (current s ++ [e]) (sb_size s) (codes s) (code_size s) (sb_accounts s) (code_chunks s).

Definition with_size (n : Z) (s : SnapshotBuilder) : SnapshotBuilder :=
  mkBuilder (current s) (u64 n) (codes s) (code_size s) (sb_accounts s) (code_chunks s).

Definition push_slot (e : SnapAccount) (kv : bytes * bytes) : SnapAccount :=
  mkSnapAccount (sa_a e) (sa_n e) (sa_b e) (sa_c e) (sa_s e ++ [kv]) (sa_x e).

(** The loop over an account's storage; [entry x] is a fresh entry of the account. *)
Fixpoint add_slots (entry : bool -> SnapAccount) (storage : list (bytes * bytes)) (cur : SnapAccount)
    (s : SnapshotBuilder) (out : list (Cid * bytes))
    : SnapAccount * SnapshotBuilder * list (Cid * bytes) :=
  match storage with
  | [] => (cur, s, out)
  | kv :: storage =>
      let '(cur, s, out) :=
        if SNAPSHOT_CHUNK_TARGET <? u64 (sb_size s + SLOT_SIZE) then
          let '(s, flushed) := flush_accounts (push_entry cur s) in
          (entry true, with_size ACCOUNT_OVERHEAD s, out ++ flushed)
        else (cur, s, out) in
      add_slots entry storage (push_slot cur kv) (with_size (sb_size s + SLOT_SIZE) s) out
  end.

Definition add_account (address : bytes) (nonce : Z) (balance code_hash : bytes)
    (storage : list (bytes * bytes)) (s : SnapshotBuilder) : SnapshotBuilder * list (Cid * bytes) :=
  let entry x := mkSnapAccount address nonce balance code_hash [] x in
  let s := with_size (sb_size s + ACCOUNT_OVERHEAD) s in
  let '(cur, s, out) := add_slots entry storage (entry false) s [] in
  let s := push_entry cur s in
  if SNAPSHOT_CHUNK_TARGET <? sb_size s then
    let '(s, flushed) := flush_accounts s in (s, out ++ flushed)
  else (s, out).

Definition add_code (code : bytes) (s : SnapshotBuilder) : SnapshotBuilder * list (Cid * bytes) :=
  let '(s, out) :=
    if (SNAPSHOT_CHUNK_TARGET <? u64 (code_size s + Z.of_nat (length code) + 8))
       && negb (bool_decide (codes s = []))
    then flush_codes s else (s, []) in
  (mkBuilder (current s) (sb_size s) (codes s ++ [code])
     (u64 (code_size s + Z.of_nat (length code) + 8)) (sb_accounts s) (code_chunks s), out).

Definition builder_finish (s : SnapshotBuilder) : SnapshotBuilder * list (Cid * bytes) :=
  let '(s, a) := flush_accounts s in
  let '(s, c) := flush_codes s in
  (s, a ++ c).
End builder.
