(* ===== verification/IndexFacts.v ===== *)
(** * Facts on the indexes and the snapshot builder *)

From S2P Require Import Prelude Types TypesFacts Params TxPool Ipld IpldFacts Index.
From stdpp Require Import base list list_numbers gmap strings.
From Stdlib Require Import ZArith Lia.

Open Scope Z_scope.
Open Scope bolt_scope.

Lemma div_ceil_nat n (m : nat) : (0 < m)%nat ->
  div_ceil (Z.of_nat n) (Z.of_nat m) = Z.of_nat ((n + m - 1) / m).
Proof. intros. unfold div_ceil. rewrite Nat2Z.inj_div. f_equal. lia. Qed.

(** The index of a deal finds its blocks: the index root decodes to the index; block [i] of the
    deal is at the place [locate] names, in the group block of that CID; indexes past the end are
    refused; and whatever bytes an index is decoded from, [locate] never aborts. *)
Theorem deal_index_locates `{Sh : Sha256} `{CL : DagCbor (list Cid)} `{CD : DagCbor DealIndex}
    `{!DagCborLaws (list Cid)} `{!DagCborLaws DealIndex} (blocks : list (Cid * Z)) (root : option Cid) :
  let '(cid, idx, out) := deal_index blocks root in
  (exists data, (cid, data) ∈ out /\ DealIndex_decode data = Ok idx)
  /\ (forall (i : nat) c n, blocks !! i = Some (c, n) ->
        exists g pos data l, locate_deal idx (Z.of_nat i) = Done (Some (g, pos))
          /\ (g, data) ∈ out /\ deal_decode_group data = Ok l /\ l !! Z.to_nat pos = Some c)
  /\ (forall i, Z.of_nat (length blocks) <= i -> locate_deal idx i = Done None)
  /\ forall data idx' i, DealIndex_decode data = Ok idx' -> 0 <= i ->
       exists r, locate_deal idx' i = Done r.
Proof.
  unfold deal_index. split_and!.
  - eexists. split; [apply elem_of_app; right; by left|]. unfold DealIndex_decode. rewrite from_to_vec.
    cbn [ok_or result_bind di_v di_groups di_count]. rewrite !length_map, chunks_length by (unfold DEAL_GROUP; lia).
    pose proof (div_ceil_nat (length blocks) (Z.to_nat DEAL_GROUP) ltac:(unfold DEAL_GROUP; lia)) as Hd.
    rewrite Z2Nat.id in Hd by done. rewrite Hd. by rewrite !Z.eqb_refl.
  - intros i c n Hi.
    destruct (chunks_lookup (Z.to_nat DEAL_GROUP) ltac:(unfold DEAL_GROUP; lia) blocks i (c, n) Hi)
      as (g & Hg & Hc).
    exists (cbor_block (map fst g)).1, (Z.of_nat i mod DEAL_GROUP), (to_vec (map fst g)), (map fst g).
    split_and!.
    + unfold locate_deal. cbn [di_count di_groups]. apply lookup_lt_Some in Hi.
      replace (_ <=? _) with false by lia.
      replace (Z.to_nat (Z.of_nat i / DEAL_GROUP)) with (i / Z.to_nat DEAL_GROUP)%nat.
      2: { apply Nat2Z.inj. rewrite Nat2Z.inj_div, !Z2Nat.id; [done| |done].
           apply Z.div_pos; [lia|done]. }
      rewrite map_map. rewrite list_lookup_fmap, Hg. done.
    + apply elem_of_app. left.
      exact (list_elem_of_fmap_2 (fun g : list (Cid * Z) => cbor_block (map fst g)) _ g
               (list_elem_of_lookup_2 _ _ _ Hg)).
    + unfold deal_decode_group. by rewrite from_to_vec.
    + replace (Z.to_nat (Z.of_nat i mod DEAL_GROUP)) with (i mod Z.to_nat DEAL_GROUP)%nat.
      2: { apply Nat2Z.inj. rewrite Nat2Z.inj_mod, !Z2Nat.id; [done| |done].
           by apply Z.mod_pos_bound. }
      rewrite list_lookup_fmap, Hc. done.
  - intros i Hi. unfold locate_deal. cbn [di_count]. by replace (_ <=? _) with true by lia.
  - intros data idx' i Hd Hi. unfold DealIndex_decode in Hd. inv_ok Hd. injection Hd as <-.
    apply orb_false_elim in E0 as [_ E0%negb_false_iff%Z.eqb_eq].
    unfold locate_deal. destruct (di_count a <=? i) eqn:Ec; [eauto|].
    destruct (lookup_lt_is_Some_2 (di_groups a) (Z.to_nat (i / DEAL_GROUP))) as [g ->]; [|eauto].
    apply Nat2Z.inj_lt. rewrite E0, Z2Nat.id by (apply Z.div_pos; [lia|done]).
    unfold div_ceil. apply Z.div_lt_upper_bound; [done|].
    pose proof (Z.div_mod (di_count a + DEAL_GROUP - 1) DEAL_GROUP ltac:(done)) as Hd.
    pose proof (Z.mod_pos_bound (di_count a + DEAL_GROUP - 1) DEAL_GROUP ltac:(done)). lia.
Qed.

(** ** Snapshots *)

Definition append_slots (e : SnapAccount) (l : list (bytes * bytes)) : SnapAccount :=
  mkSnapAccount (sa_a e) (sa_n e) (sa_b e) (sa_c e) (sa_s e ++ l) (sa_x e).

(** The fields every entry of an account repeats. *)
Definition ident (e : SnapAccount) : bytes * Z * bytes * bytes := (sa_a e, sa_n e, sa_b e, sa_c e).

(** How a reader puts entries together: a continuation adds its slots to the entry before it, which
    must be of the same account. *)
Definition merge_step (acc : list SnapAccount) (e : SnapAccount) : list SnapAccount :=
  match last acc with
  | Some p =>
      if sa_x e && bool_decide (ident p = ident e) then take (length acc - 1) acc ++ [append_slots p (sa_s e)]
      else acc ++ [e]
  | None => acc ++ [e]
  end.

Definition merge_entries (l : list SnapAccount) : list SnapAccount := foldl merge_step [] l.

Lemma merge_snoc l e : merge_entries (l ++ [e]) = merge_step (merge_entries l) e.
Proof. unfold merge_entries. by rewrite foldl_app. Qed.

Lemma merge_step_cont acc p e :
  sa_x e = true -> ident p = ident e -> merge_step (acc ++ [p]) e = acc ++ [append_slots p (sa_s e)].
Proof.
  intros Hx Ha. unfold merge_step. rewrite last_snoc, Hx, bool_decide_true by done. cbn [andb].
  rewrite length_app. simpl. rewrite Nat.add_sub. by rewrite take_app_length.
Qed.

Lemma merge_step_new acc e :
  (sa_x e = true -> forall p, last acc = Some p -> ident p <> ident e) -> merge_step acc e = acc ++ [e].
Proof.
  intros H. unfold merge_step. destruct (last acc) as [p|]; [|done].
  destruct (sa_x e); [|done]. by rewrite bool_decide_false by auto.
Qed.

(** Every entry either starts an account or joins the last one. *)
Lemma merge_step_cases acc e :
  merge_step acc e = acc ++ [e]
  \/ exists X p, acc = X ++ [p] /\ sa_x e = true /\ ident p = ident e /\ merge_step acc e = X ++ [append_slots p (sa_s e)].
Proof.
  destruct acc as [|p X _] using rev_ind; [by left|].
  destruct (decide (sa_x e = true /\ ident p = ident e)) as [[Hx Ha]|Hn].
  - right. exists X, p. split_and!; [done|done|done|]. by apply merge_step_cont.
  - left. apply merge_step_new. intros Hx q. rewrite last_snoc. intros [= <-] Ha. by apply Hn.
Qed.

Lemma append_slots_nil p : append_slots p [] = p.
Proof. destruct p. unfold append_slots. simpl. by rewrite app_nil_r. Qed.

Lemma append_slots_app p l l' : append_slots (append_slots p l) l' = append_slots p (l ++ l').
Proof. destruct p. unfold append_slots. simpl. by rewrite app_assoc. Qed.

(** A slot added to the last entry is added to the last account. *)
Lemma merge_push_slot l cur kv X p :
  merge_entries (l ++ [cur]) = X ++ [p] ->
  merge_entries (l ++ [push_slot cur kv]) = X ++ [append_slots p [kv]].
Proof.
  rewrite !merge_snoc. unfold merge_step, ident. cbn [push_slot sa_x sa_a sa_s sa_n sa_b sa_c].
  destruct (last (merge_entries l)) as [q|]; [destruct (_ && _)|]; intros [-> <-]%app_inj_tail.
  - by rewrite append_slots_app.
  - by destruct cur.
  - by destruct cur.
Qed.

Section builder.
Context `{Sh : Sha256} `{CA : DagCbor (list SnapAccount)} `{CC : DagCbor (list bytes)}.

(** Estimated size of an entry and of a list of them. *)
Definition entry_size (e : SnapAccount) : Z := ACCOUNT_OVERHEAD + SLOT_SIZE * Z.of_nat (length (sa_s e)).
Definition entries_size (l : list SnapAccount) : Z := sumZ (map entry_size l).

Lemma entries_size_snoc l e : entries_size (l ++ [e]) = entries_size l + entry_size e.
Proof. unfold entries_size. rewrite map_app, sumZ_app. simpl. lia. Qed.

Definition chunk_blocks (achunks : list (list SnapAccount)) (cchunks : list (list bytes))
    : list (Cid * bytes) := map cbor_block achunks ++ map cbor_block cchunks.

(** The builder [s] after the chunks [achunks] and [cchunks] were cut from the accounts [accs] and
    the codes [cds]. *)
Record builder_ok (s : SnapshotBuilder) (achunks : list (list SnapAccount))
    (cchunks : list (list bytes)) (accs : list SnapAccount) (cds : list bytes) : Prop := {
  bo_accounts : sb_accounts s = map (fun c => (cbor_block c).1) achunks;
  bo_codes : code_chunks s = map (fun c => (cbor_block c).1) cchunks;
  bo_merge : merge_entries (concat achunks ++ current s) = accs;
  bo_code : concat cchunks ++ codes s = cds;
  bo_size : sb_size s = entries_size (current s);
  bo_target : sb_size s <= SNAPSHOT_CHUNK_TARGET;
  bo_chunks : Forall (fun c => entries_size c <= SNAPSHOT_CHUNK_TARGET + ACCOUNT_OVERHEAD) achunks;
}.

(** The builder in the middle of an account, whose entry so far is [cur]. *)
Record slots_ok (s : SnapshotBuilder) (cur : SnapAccount) (achunks : list (list SnapAccount))
    (cchunks : list (list bytes)) (accs : list SnapAccount) (p : SnapAccount) (cds : list bytes)
    : Prop := {
  so_accounts : sb_accounts s = map (fun c => (cbor_block c).1) achunks;
  so_codes : code_chunks s = map (fun c => (cbor_block c).1) cchunks;
  so_merge : merge_entries (concat achunks ++ current s ++ [cur]) = accs ++ [p];
  so_addr : ident cur = ident p;
  so_code : concat cchunks ++ codes s = cds;
  so_size : sb_size s = entries_size (current s) + entry_size cur;
  so_target : 0 <= sb_size s <= SNAPSHOT_CHUNK_TARGET + ACCOUNT_OVERHEAD;
  so_chunks : Forall (fun c => entries_size c <= SNAPSHOT_CHUNK_TARGET + ACCOUNT_OVERHEAD) achunks;
}.

Lemma sizes_fit x : 0 <= x <= SNAPSHOT_CHUNK_TARGET + ACCOUNT_OVERHEAD -> u64 (x + SLOT_SIZE) = x + SLOT_SIZE.
Proof.
  unfold SNAPSHOT_CHUNK_TARGET, ACCOUNT_OVERHEAD, SLOT_SIZE. intros. apply wrap_small. unfold in_range. lia.
Qed.

Lemma entry_size_push e kv : entry_size (push_slot e kv) = entry_size e + SLOT_SIZE.
Proof. unfold entry_size, push_slot. cbn [sa_s]. rewrite length_app. simpl length. lia. Qed.

Lemma flush_nonempty s : current s <> [] ->
  flush_accounts s = (mkBuilder [] 0 (codes s) (code_size s)
                        (sb_accounts s ++ [(cbor_block (current s)).1]) (code_chunks s),
                      [cbor_block (current s)]).
Proof.
  intros H. unfold flush_accounts. rewrite bool_decide_false; [done|].
  intros E%length_zero_iff_nil. done.
Qed.

Lemma entries_size_nonneg l : 0 <= entries_size l.
Proof.
  unfold entries_size. induction l as [|e l IH]; simpl; [lia|].
  unfold entry_size, ACCOUNT_OVERHEAD, SLOT_SIZE in *. lia.
Qed.

(** A chunk is cut: the entry so far goes to it and a continuation starts. *)
Lemma slots_ok_cut s cur e achunks cchunks accs p cds :
  slots_ok s cur achunks cchunks accs p cds -> sa_x e = true -> sa_s e = [] -> ident e = ident cur ->
  exists s', flush_accounts (push_entry cur s) = (s', [cbor_block (current s ++ [cur])])
    /\ slots_ok (with_size ACCOUNT_OVERHEAD s') e (achunks ++ [current s ++ [cur]]) cchunks accs p cds.
Proof.
  intros [H1 H2 H3 Ha H4 H5 H6 H7] Hx Hs He. eexists. split.
  - apply flush_nonempty. unfold push_entry. simpl. by destruct (current s).
  - split; simpl.
    + rewrite map_app, H1. done.
    + done.
    + rewrite concat_app, <-app_assoc. simpl. rewrite app_nil_r, app_assoc, merge_snoc, H3.
      rewrite merge_step_cont by congruence. rewrite Hs. by rewrite append_slots_nil.
    + congruence.
    + done.
    + unfold entry_size. rewrite Hs. reflexivity.
    + unfold SNAPSHOT_CHUNK_TARGET, ACCOUNT_OVERHEAD. rewrite wrap_small by (unfold in_range; lia). lia.
    + apply Forall_app. split; [done|]. constructor; [|constructor].
      rewrite entries_size_snoc. lia.
Qed.

Lemma slots_ok_push s cur kv achunks cchunks accs p cds :
  slots_ok s cur achunks cchunks accs p cds -> sb_size s + SLOT_SIZE <= SNAPSHOT_CHUNK_TARGET ->
  slots_ok (with_size (sb_size s + SLOT_SIZE) s) (push_slot cur kv) achunks cchunks accs
    (append_slots p [kv]) cds.
Proof.
  intros [H1 H2 H3 Ha H4 H5 H6 H7] Hle. split; simpl; [done|done| |done|done| | |done].
  - rewrite app_assoc in *. by apply merge_push_slot.
  - rewrite sizes_fit, entry_size_push by done. lia.
  - rewrite sizes_fit by done. unfold SLOT_SIZE, ACCOUNT_OVERHEAD in *. lia.
Qed.

Lemma chunk_blocks_snoc achunks cchunks c :
  chunk_blocks (achunks ++ [c]) cchunks ≡ₚ chunk_blocks achunks cchunks ++ [cbor_block c].
Proof.
  unfold chunk_blocks. rewrite map_app, <-!app_assoc. apply Permutation_app_head. simpl.
  apply Permutation_cons_append.
Qed.

Lemma add_slots_ok entry a storage : (forall x, sa_x (entry x) = x /\ sa_s (entry x) = [] /\ ident (entry x) = a) ->
  forall cur s out achunks cchunks accs p cds,
  slots_ok s cur achunks cchunks accs p cds -> ident cur = a ->
  exists cur' s' out' new, add_slots entry storage cur s out = (cur', s', out')
    /\ slots_ok s' cur' (achunks ++ new) cchunks accs (append_slots p storage) cds
    /\ out' = out ++ map cbor_block new.
Proof.
  intros He. induction storage as [|kv storage IH]; intros cur s out achunks cchunks accs p cds Hok Hcur.
  - exists cur, s, out, []. rewrite append_slots_nil, !app_nil_r. done.
  - cbn [add_slots]. rewrite sizes_fit by apply (so_target _ _ _ _ _ _ _ Hok).
    destruct (SNAPSHOT_CHUNK_TARGET <? sb_size s + SLOT_SIZE) eqn:Ecut.
    + destruct (He true) as (Hx & Hs & Hea).
      destruct (slots_ok_cut s cur (entry true) achunks cchunks accs p cds Hok Hx Hs ltac:(congruence)) as (s' & -> & Hok').
      pose proof (slots_ok_push _ _ kv _ _ _ _ _ Hok') as Hok''.
      destruct (IH _ _ (out ++ [cbor_block (current s ++ [cur])]) _ _ _ _ _ (Hok'' ltac:(vm_compute; discriminate)) Hea)
        as (cur2 & s2 & out2 & new & -> & Hok2 & ->).
      eexists cur2, s2, _, ((current s ++ [cur]) :: new). split; [reflexivity|]. split.
      * rewrite <-app_assoc in Hok2. rewrite append_slots_app in Hok2. exact Hok2.
      * by rewrite <-app_assoc.
    + destruct (IH _ _ out _ _ _ _ _ (slots_ok_push _ _ kv _ _ _ _ _ Hok ltac:(lia)) Hcur)
        as (cur2 & s2 & out2 & new & -> & Hok2 & ->).
      eexists cur2, s2, _, new. split; [reflexivity|]. split; [|done]. by rewrite append_slots_app in Hok2.
Qed.

Lemma builder_slots s achunks cchunks accs cds a n b c :
  builder_ok s achunks cchunks accs cds ->
  slots_ok (with_size (sb_size s + ACCOUNT_OVERHEAD) s) (mkSnapAccount a n b c [] false) achunks cchunks
    accs (mkSnapAccount a n b c [] false) cds.
Proof.
  intros [H1 H2 H3 H4 H5 H6 H7]. pose proof (entries_size_nonneg (current s)) as H0. split; simpl; try done.
  - rewrite app_assoc, merge_snoc, H3. by apply merge_step_new.
  - rewrite wrap_small; [unfold entry_size, ACCOUNT_OVERHEAD; simpl; lia|].
    unfold in_range, SNAPSHOT_CHUNK_TARGET, ACCOUNT_OVERHEAD in *. lia.
  - unfold SNAPSHOT_CHUNK_TARGET, ACCOUNT_OVERHEAD in *. rewrite wrap_small by (unfold in_range; lia). lia.
Qed.

Lemma flush_ok s achunks cchunks accs cds :
  sb_accounts s = map (fun c => (cbor_block c).1) achunks ->
  code_chunks s = map (fun c => (cbor_block c).1) cchunks ->
  merge_entries (concat achunks ++ current s) = accs -> concat cchunks ++ codes s = cds ->
  sb_size s = entries_size (current s) ->
  sb_size s <= SNAPSHOT_CHUNK_TARGET + ACCOUNT_OVERHEAD ->
  Forall (fun c => entries_size c <= SNAPSHOT_CHUNK_TARGET + ACCOUNT_OVERHEAD) achunks ->
  exists s' new, flush_accounts s = (s', map cbor_block new) /\ current s' = [] /\ codes s' = codes s
    /\ code_size s' = code_size s /\ builder_ok s' (achunks ++ new) cchunks accs cds.
Proof.
  intros H1 H2 H3 H4 H5 H6 H7. destruct (decide (current s = [])) as [Hc|Hc].
  - exists s, []. unfold flush_accounts. rewrite Hc. simpl. rewrite app_nil_r. split_and!; try done.
    split; try done. rewrite H5, Hc. done.
  - exists (mkBuilder [] 0 (codes s) (code_size s) (sb_accounts s ++ [(cbor_block (current s)).1]) (code_chunks s)),
      [current s].
    rewrite flush_nonempty by done. split_and!; try done. split; simpl; try done.
    + by rewrite map_app, H1.
    + rewrite concat_app. simpl. by rewrite !app_nil_r.
    + apply Forall_app. split; [done|]. constructor; [lia|constructor].
Qed.

Lemma add_account_ok s achunks cchunks accs cds a n b c st :
  builder_ok s achunks cchunks accs cds ->
  exists s' new, add_account a n b c st s = (s', map cbor_block new)
    /\ builder_ok s' (achunks ++ new) cchunks (accs ++ [mkSnapAccount a n b c st false]) cds.
Proof.
  intros Hok. unfold add_account.
  destruct (add_slots_ok (fun x => mkSnapAccount a n b c [] x) (a, n, b, c) st (fun x => conj eq_refl (conj eq_refl eq_refl)) _ _ [] _ _ _ _ _
    (builder_slots s achunks cchunks accs cds a n b c Hok) eq_refl)
    as (cur & s1 & out & new & -> & [H1 H2 H3 _ H4 H5 H6 H7] & ->). cbn [app].
  assert (sb_size (push_entry cur s1) = entries_size (current (push_entry cur s1))) as Hsz
    by (simpl; by rewrite entries_size_snoc).
  destruct (SNAPSHOT_CHUNK_TARGET <? sb_size (push_entry cur s1)) eqn:Ecut.
  - destruct (flush_ok (push_entry cur s1) (achunks ++ new) cchunks
      (accs ++ [mkSnapAccount a n b c st false]) cds) as (s' & new' & -> & _ & _ & _ & Hs'); try done.
    + apply H6.
    + exists s', (new ++ new'). rewrite map_app. split; [done|]. by rewrite app_assoc.
  - exists (push_entry cur s1), new. split; [done|]. split; try done. lia.
Qed.

Lemma add_code_ok s achunks cchunks accs cds code :
  builder_ok s achunks cchunks accs cds ->
  exists s' new, add_code code s = (s', map cbor_block new)
    /\ builder_ok s' achunks (cchunks ++ new) accs (cds ++ [code]).
Proof.
  intros [H1 H2 H3 H4 H5 H6 H7]. unfold add_code. destruct (_ && _) eqn:Ecut.
  - apply andb_prop in Ecut as [_ Hne]. apply negb_true_iff, bool_decide_eq_false in Hne.
    unfold flush_codes. rewrite bool_decide_false by done.
    eexists _, [codes s]. split; [reflexivity|]. split; simpl; try done.
    + by rewrite map_app, H2.
    + rewrite concat_app. simpl. rewrite app_nil_r, <-H4. done.
  - eexists _, []. split; [reflexivity|]. split; simpl; try done.
    + by rewrite app_nil_r.
    + by rewrite app_nil_r, <-H4, app_assoc.
Qed.

(** ** Running the builder *)

Inductive build_op :=
  | OpAccount (a : bytes) (n : Z) (b c : bytes) (storage : list (bytes * bytes))
  | OpCode (code : bytes).

Definition run_op (st : SnapshotBuilder * list (Cid * bytes)) (op : build_op)
    : SnapshotBuilder * list (Cid * bytes) :=
  let '(s, out) := match op with
    | OpAccount a n b c storage => add_account a n b c storage st.1
    | OpCode code => add_code code st.1
    end in
  (s, st.2 ++ out).

(** Everything the builder emits for a sequence of accounts and codes, to the last flush. *)
Definition build_snapshot (ops : list build_op) : SnapshotBuilder * list (Cid * bytes) :=
  let '(s, out) := foldl run_op (SnapshotBuilder_default, []) ops in
  let '(s, flushed) := builder_finish s in (s, out ++ flushed).

Definition ops_accounts (ops : list build_op) : list SnapAccount :=
  flat_map (fun op => match op with
    | OpAccount a n b c storage => [mkSnapAccount a n b c storage false]
    | OpCode _ => []
    end) ops.

Definition ops_codes (ops : list build_op) : list bytes :=
  flat_map (fun op => match op with OpAccount _ _ _ _ _ => [] | OpCode code => [code] end) ops.

Lemma run_ops_ok ops :
  exists s out achunks cchunks, foldl run_op (SnapshotBuilder_default, []) ops = (s, out)
    /\ builder_ok s achunks cchunks (ops_accounts ops) (ops_codes ops)
    /\ out ≡ₚ chunk_blocks achunks cchunks.
Proof.
  induction ops as [|op ops (s & out & ac & cc & Hf & Hok & Hout)] using rev_ind.
  - exists SnapshotBuilder_default, [], [], []. split; [done|]. split; [|done].
    split; try done.
  - rewrite foldl_app, Hf. unfold ops_accounts, ops_codes. rewrite !flat_map_app.
    destruct op as [a n b c st|code]; cbn [flat_map app].
    + change (foldl run_op (s, out) [OpAccount a n b c st])
        with (let '(s', o) := add_account a n b c st s in (s', out ++ o)).
      destruct (add_account_ok s ac cc _ _ a n b c st Hok) as (s' & new & -> & Hok').
      eexists s', _, (ac ++ new), cc. split; [reflexivity|]. rewrite app_nil_r. split; [done|].
      rewrite Hout. unfold chunk_blocks. rewrite map_app, <-!app_assoc. apply Permutation_app_head.
      apply Permutation_app_comm.
    + change (foldl run_op (s, out) [OpCode code])
        with (let '(s', o) := add_code code s in (s', out ++ o)).
      destruct (add_code_ok s ac cc _ _ code Hok) as (s' & new & -> & Hok').
      eexists s', _, ac, (cc ++ new). split; [reflexivity|]. rewrite app_nil_r. split; [done|].
      rewrite Hout. unfold chunk_blocks. by rewrite map_app, app_assoc.
Qed.

Lemma finish_ok s ac cc accs cds :
  builder_ok s ac cc accs cds ->
  exists s' new new', builder_finish s = (s', map cbor_block new ++ map cbor_block new')
    /\ builder_ok s' (ac ++ new) (cc ++ new') accs cds /\ current s' = [] /\ codes s' = [].
Proof.
  intros [H1 H2 H3 H4 H5 H6 H7]. unfold builder_finish.
  destruct (flush_ok s ac cc accs cds) as (s1 & new & -> & Hcur & Hcodes & _ & [K1 K2 K3 K4 K5 K6 K7]);
    try done; [unfold ACCOUNT_OVERHEAD; lia|].
  unfold flush_codes. case_bool_decide as Hc.
  - exists s1, new, []. rewrite !app_nil_r. split_and!; try done.
  - eexists _, new, [codes s1]. split; [reflexivity|]. split; [|done]. split; simpl; try done.
    + by rewrite map_app, K2.
    + rewrite concat_app. simpl. by rewrite !app_nil_r.
Qed.
End builder.

(** A snapshot is complete and its chunks are bounded: the chunks the builder emits are, in the
    order of the CIDs it records, groups of account entries and groups of codes; the entries,
    each continuation joined to the entry before it, are exactly the accounts that were added
    with all their storage; the codes are exactly those added; and the estimated size of an
    account chunk exceeds the target by at most one account's overhead. *)
Theorem snapshot_complete `{Sh : Sha256} `{CA : DagCbor (list SnapAccount)} `{CC : DagCbor (list bytes)}
    (ops : list build_op) :
  exists s out achunks cchunks, build_snapshot ops = (s, out)
    /\ out ≡ₚ map cbor_block achunks ++ map cbor_block cchunks
    /\ sb_accounts s = map (fun c => (cbor_block c).1) achunks
    /\ code_chunks s = map (fun c => (cbor_block c).1) cchunks
    /\ merge_entries (concat achunks) = ops_accounts ops
    /\ concat cchunks = ops_codes ops
    /\ Forall (fun c => entries_size c <= SNAPSHOT_CHUNK_TARGET + ACCOUNT_OVERHEAD) achunks.
Proof.
  unfold build_snapshot. destruct (run_ops_ok ops) as (s & out & ac & cc & -> & Hok & Hout).
  destruct (finish_ok s ac cc _ _ Hok) as (s' & new & new' & -> & [H1 H2 H3 H4 H5 H6 H7] & Hcur & Hcodes).
  eexists s', _, (ac ++ new), (cc ++ new'). split; [reflexivity|]. rewrite Hcur in H3. rewrite Hcodes in H4.
  rewrite app_nil_r in H3, H4. split_and!; try done.
  rewrite Hout. unfold chunk_blocks. rewrite !map_app, <-!app_assoc. apply Permutation_app_head.
  rewrite !app_assoc. apply Permutation_app_tail, Permutation_app_comm.
Qed.

Module IndexWitness.
Import IpldWitness.

#[export] Instance DealIndex_eq_dec : EqDecision DealIndex.
Proof. solve_decision. Defined.

#[export] Program Instance DealIndex_countable : Countable DealIndex :=
  inj_countable' (fun i => (di_v i, di_size i, di_count i, di_groups i, di_root i))
    (fun '(v, s, c, g, r) => mkDealIndex v s c g r) _.
Next Obligation. by intros []. Qed.

#[export] Instance toy_group_cbor : DagCbor (list Cid) := countable_cbor (list Cid).
#[export] Instance toy_group_cbor_laws : DagCborLaws (list Cid) := countable_cbor_laws (list Cid).
#[export] Instance toy_deal_cbor : DagCbor DealIndex := countable_cbor DealIndex.
#[export] Instance toy_deal_cbor_laws : DagCborLaws DealIndex := countable_cbor_laws DealIndex.

Definition blocks : list (Cid * Z) := [(sha256_cid RAW [1], 4); (sha256_cid RAW [2], 5)].

Lemma deal_index_locates_witness :
  exists g pos data l, locate_deal (deal_index blocks None).1.2 1 = Done (Some (g, pos))
    /\ (g, data) ∈ (deal_index blocks None).2 /\ deal_decode_group data = Ok l
    /\ l !! Z.to_nat pos = Some (sha256_cid RAW [2]).
Proof.
  pose proof (deal_index_locates blocks None) as H.
  destruct (deal_index blocks None) as [[cid idx] out].
  destruct H as (_ & H & _). apply (H 1%nat (sha256_cid RAW [2]) 5). reflexivity.
Defined.
End IndexWitness.
