(* ===== verification/Forks.v ===== *)
(** * Hard forks and fork identifiers

    Models crates/primitives/src/forks.rs: the fork table of each chain, the test whether a
    feature's rules apply at a height, the fork identifier a node announces (the CRC32 of the
    genesis hash and of the activation heights it has passed, and the next one it schedules) with
    its text form, and the check of a peer's identifier.  The contract code the forks install is
    read from binary files at build time: it is a parameter.  Hexadecimal text is the crate
    alloy-primitives'. *)

From S2P Require Import Prelude Types.
From stdpp Require Import base list list_numbers sorting gmap strings.
From Stdlib Require Import ZArith Lia.

Open Scope Z_scope.

(** ** Fork tables *)

Record IrregularChange := mkIrregular {
  ic_address : Z;
  ic_code : option bytes;
  ic_storage : list (B256 * B256);
}.

Record Fork := mkFork {
  f_name : string;
  f_activation : Z;
  f_changes : list IrregularChange;
}.

(** The code files included in the binary, by name. *)
Class ForkCode := fork_code : string -> bytes.

Definition TESTNET_CHAIN_ID : Z := 8018.
Definition SWARM : string := "swarm".
Definition TEE : string := "tee".
Definition TESTNET_SWARM_ACTIVATION : Z := 2401.
Definition TESTNET_TEE_ACTIVATION : Z := 233401.

Definition install (address : Z) (code : bytes) : IrregularChange := mkIrregular address (Some code) [].

(** [0xB0170000...00nn]. *)
Definition system_address (n : Z) : Z := 0xB017000000000000000000000000000000000000 + n.

Definition TESTNET_FORKS `{ForkCode} : list Fork :=
  [mkFork SWARM TESTNET_SWARM_ACTIVATION
     [mkIrregular (system_address 5) (Some (fork_code "8018-swarm/SwarmStorage.bin")) []];
   mkFork TEE TESTNET_TEE_ACTIVATION
     [install (system_address 6) (fork_code "8018-tee/ComputeMarket.bin");
      install (system_address 7) (fork_code "8018-tee/ModelRegistry.bin");
      install (system_address 8) (fork_code "8018-tee/ImageRegistry.bin");
      install (system_address 9) (fork_code "8018-tee/TeeCollateral.bin");
      install (system_address 10) (fork_code "8018-tee/TdxVerifier.bin");
      install (system_address 11) (fork_code "8018-tee/EnclaveLease.bin");
      install (system_address 12) (fork_code "8018-tee/LimitedWallet.bin")]].

Definition forks `{ForkCode} (chain_id : Z) : list Fork :=
  if chain_id =? TESTNET_CHAIN_ID then TESTNET_FORKS else [].

Definition active `{ForkCode} (chain_id : Z) (feature : string) (number : Z) : bool :=
  match List.find (fun f => bool_decide (f_name f = feature)) (forks chain_id) with
  | Some f => f_activation f <=? number
  | None => true
  end.

(** ** Fork identifiers *)

Record ForkId := mkForkId { fid_hash : bytes; fid_next : Z }.

#[export] Instance ForkId_eq_dec : EqDecision ForkId.
Proof. solve_decision. Defined.

(** [!crc] on 32 bits. *)
Definition not32 (x : Z) : Z := 2 ^ 32 - 1 - x.

Definition crc32_bit (crc : Z) : Z :=
  if Z.testbit crc 0 then Z.lxor (Z.shiftr crc 1) 0xEDB88320 else Z.shiftr crc 1.

Definition crc32_byte (crc b : Z) : Z := Nat.iter 8 crc32_bit (Z.lxor crc b).

Definition crc32_update (crc : Z) (data : bytes) : Z := not32 (foldl crc32_byte (not32 crc) data).

Fixpoint hashes_from (crc : Z) (activations : list Z) {struct activations} : list bytes :=
  match activations with
  | [] => []
  | a :: rest =>
      let crc := crc32_update crc (be_bytes 8 a) in
      be_bytes 4 crc :: hashes_from crc rest
  end.

Definition hashes (genesis : B256) (activations : list Z) : list bytes :=
  let crc := crc32_update 0 (b256_bytes genesis) in
  be_bytes 4 crc :: hashes_from crc activations.

(** [Vec::dedup]: consecutive equal elements are merged. *)
Fixpoint dedup (l : list Z) : list Z :=
  match l with
  | x :: ((y :: _) as rest) => if x =? y then dedup rest else x :: dedup rest
  | _ => l
  end.

Definition activations (fs : list Fork) : list Z :=
  dedup (merge_sort Z.le
    (filter (fun a => 0 < a /\ a <> U64_MAX) (map f_activation fs))).

(** [acts.iter().take_while(|a| **a <= head).count()]. *)
Fixpoint passed (acts : list Z) (head : Z) : nat :=
  match acts with
  | a :: rest => if a <=? head then S (passed rest head) else O
  | [] => O
  end.

(** The index is at most the number of activations, so within [hashes]; [default] is not used. *)
Definition fork_id (genesis : B256) (fs : list Fork) (head : Z) : ForkId :=
  let acts := activations fs in
  let p := passed acts head in
  mkForkId (default [] (hashes genesis acts !! p)) (default 0 (acts !! p)).

Inductive Compatibility := Compatible | PeerKnowsNewerFork | Incompatible.

#[export] Instance Compatibility_eq_dec : EqDecision Compatibility.
Proof. solve_decision. Defined.

(** [iter().position(|h| *h == x)]. *)
Fixpoint position (x : bytes) (l : list bytes) : option nat :=
  match l with
  | [] => None
  | y :: rest => if bool_decide (y = x) then Some O else S <$> position x rest
  end.

Definition check (genesis : B256) (fs : list Fork) (head : Z) (remote : ForkId) : Compatibility :=
  let acts := activations fs in
  let all := hashes genesis acts in
  let p := passed acts head in
  if bool_decide (all !! p = Some (fid_hash remote)) then
    if negb (fid_next remote =? 0) && (fid_next remote <=? head) then Incompatible
    else if negb (fid_next remote =? 0) && negb (bool_decide (fid_next remote ∈ acts))
         then PeerKnowsNewerFork
    else Compatible
  else
    match position (fid_hash remote) (take p all) with
    | Some i => if bool_decide (acts !! i = Some (fid_next remote)) then Compatible else Incompatible
    | None =>
        if bool_decide (fid_hash remote ∈ drop (p + 1) all) then Compatible else Incompatible
    end.

(** ** Text form *)

(** Hexadecimal text (crate alloy-primitives): lower-case digits without a prefix. *)
Class Hex := {
  hex_encode : bytes -> bytes;
  hex_decode : bytes -> option bytes;
}.

Class HexLaws (H : Hex) := {
  hex_round_trip b : byte_list b -> hex_decode (hex_encode b) = Some b;
  hex_digits b : byte_list b -> 45 ∉ hex_encode b;
}.

(** [u64]'s [Display]: decimal digits, at most twenty. *)
Fixpoint dec_digits (fuel : nat) (n : Z) : bytes :=
  match fuel with
  | O => []
  | S fuel => if n <? 10 then [48 + n] else dec_digits fuel (n / 10) ++ [48 + n mod 10]
  end.

Definition dec_u64 (n : Z) : bytes := dec_digits 20 n.

Definition push_digit (acc : option Z) (c : Z) : option Z :=
  match acc with
  | Some v =>
      if (48 <=? c) && (c <=? 57) then
        let v := v * 10 + (c - 48) in if v <=? U64_MAX then Some v else None
      else None
  | None => None
  end.

(** [str::parse::<u64>]: an optional sign [+], then at least one digit, without overflow. *)
Definition parse_u64 (s : bytes) : option Z :=
  match s with
  | [] => None
  | c :: rest =>
      let digits := if (c =? 43) && negb (bool_decide (rest = [])) then rest else s in
      foldl push_digit (Some 0) digits
  end.

(** [str::split_once('-')]. *)
Fixpoint split_once (s : bytes) : option (bytes * bytes) :=
  match s with
  | [] => None
  | c :: rest =>
      if c =? 45 then Some ([], rest)
      else match split_once rest with
           | Some (a, b) => Some (c :: a, b)
           | None => None
           end
  end.

Definition fork_id_fmt `{Hex} (f : ForkId) : bytes :=
  hex_encode (fid_hash f) ++ [45] ++ dec_u64 (fid_next f).

Definition fork_id_from_str `{Hex} (s : bytes) : option ForkId :=
  '(h, n) ← split_once s;
  b ← hex_decode h;
  guard (length b = 4%nat);;
  next ← parse_u64 n;
  Some (mkForkId b next).

(** ** Facts *)

(** Appending to the data continues the checksum. *)
Lemma crc32_update_app crc a b : crc32_update (crc32_update crc a) b = crc32_update crc (a ++ b).
Proof.
  unfold crc32_update. rewrite foldl_app. do 2 f_equal. unfold not32. lia.
Qed.

Definition acts_bytes (acts : list Z) : bytes := concat (map (be_bytes 8) acts).

Lemma hashes_from_lookup crc acts k :
  (k < length acts)%nat ->
  hashes_from crc acts !! k = Some (be_bytes 4 (crc32_update crc (acts_bytes (take (S k) acts)))).
Proof.
  revert crc k. induction acts as [|a acts IH]; intros crc k Hk; cbn [length] in Hk; [lia|].
  cbn [hashes_from]. destruct k as [|k].
  - cbn [lookup list_lookup take]. unfold acts_bytes. cbn [map concat].
    by rewrite app_nil_r.
  - cbn [lookup list_lookup]. rewrite IH by lia. do 2 f_equal.
    by rewrite crc32_update_app.
Qed.

Lemma hashes_lookup genesis acts k :
  (k <= length acts)%nat ->
  hashes genesis acts !! k
  = Some (be_bytes 4 (crc32_update 0 (b256_bytes genesis ++ acts_bytes (take k acts)))).
Proof.
  intros Hk. unfold hashes. destruct k as [|k].
  - cbn [lookup list_lookup take]. unfold acts_bytes. cbn [map concat]. by rewrite app_nil_r.
  - cbn [lookup list_lookup]. rewrite hashes_from_lookup by lia. by rewrite crc32_update_app.
Qed.

Lemma hashes_from_length crc acts : length (hashes_from crc acts) = length acts.
Proof. revert crc. induction acts as [|a acts IH]; intros crc; [done|]. cbn. by rewrite IH. Qed.

Lemma hashes_length genesis acts : length (hashes genesis acts) = S (length acts).
Proof. unfold hashes. cbn [length]. by rewrite hashes_from_length. Qed.

Lemma passed_le acts head : (passed acts head <= length acts)%nat.
Proof. induction acts as [|a acts IH]; cbn; [done|]. case_match; lia. Qed.

Lemma dedup_cons2 a b l :
  dedup (a :: b :: l) = if a =? b then dedup (b :: l) else a :: dedup (b :: l).
Proof. done. Qed.

Lemma elem_of_dedup x l : x ∈ dedup l <-> x ∈ l.
Proof.
  induction l as [|a [|b l] IH]; [done|done|].
  rewrite dedup_cons2. case_match eqn:E.
  - apply Z.eqb_eq in E as ->. rewrite IH. set_solver.
  - rewrite elem_of_cons, IH. set_solver.
Qed.

Lemma dedup_increasing l : StronglySorted Z.le l -> StronglySorted Z.lt (dedup l).
Proof.
  induction l as [|a [|b l] IH]; intros Hs; [constructor|repeat constructor|].
  apply StronglySorted_inv in Hs as [Hs Ha]. rewrite dedup_cons2. case_match eqn:E; [by apply IH|].
  constructor; [by apply IH|]. apply Forall_forall. intros x Hx. rewrite elem_of_dedup in Hx.
  apply Z.eqb_neq in E. rewrite Forall_forall in Ha.
  assert (a <= b) by (apply Ha; set_solver).
  assert (b <= x); [|lia].
  apply StronglySorted_inv in Hs as [_ Hb]. rewrite Forall_forall in Hb.
  apply elem_of_cons in Hx as [->|Hx]; [lia|by apply Hb].
Qed.

Lemma sorted_lookup_lt l i j a b :
  StronglySorted Z.lt l -> l !! i = Some a -> l !! j = Some b -> (i < j)%nat -> a < b.
Proof.
  intros Hs. revert i j. induction Hs as [|x l Hs IH Hx]; intros i j Hi Hj Hij; [done|].
  destruct j as [|j]; [lia|]. cbn in Hj. destruct i as [|i]; cbn in Hi; simplify_eq.
  - rewrite Forall_forall in Hx. eapply Hx, list_elem_of_lookup_2, Hj.
  - eapply IH; eauto. lia.
Qed.

Lemma activations_sorted fs : StronglySorted Z.lt (activations fs).
Proof. apply dedup_increasing, StronglySorted_merge_sort; apply _. Qed.

Lemma elem_of_activations fs a :
  a ∈ activations fs <-> 0 < a /\ a <> U64_MAX /\ exists f, f ∈ fs /\ f_activation f = a.
Proof.
  unfold activations. rewrite elem_of_dedup, merge_sort_Permutation, list_elem_of_filter.
  change (map f_activation fs) with (f_activation <$> fs). rewrite list_elem_of_fmap. split.
  - intros [[? ?] (f & E & ?)]. repeat split; [done|done|]. by exists f.
  - intros (? & ? & f & ? & E). repeat split; [done|done|]. by exists f.
Qed.

(** The activations passed are those up to the head. *)
Lemma passed_filter acts head :
  StronglySorted Z.lt acts -> take (passed acts head) acts = filter (fun a => a <= head) acts.
Proof.
  induction acts as [|a acts IH]; intros Hs; [done|].
  apply StronglySorted_inv in Hs as [Hs Ha]. cbn [passed]. case_match eqn:E.
  - apply Z.leb_le in E. cbn [take]. rewrite filter_cons_True by done. by rewrite IH.
  - apply Z.leb_gt in E. rewrite filter_cons_False by lia. cbn [take]. clear -Ha E.
    induction Ha as [|x l Hx _ IH]; [done|]. rewrite filter_cons_False by lia. done.
Qed.

Lemma passed_lookup acts head k a :
  StronglySorted Z.lt acts -> acts !! k = Some a -> (k < passed acts head)%nat <-> a <= head.
Proof.
  revert k. induction acts as [|b acts IH]; intros k Hs Hk; [done|].
  apply StronglySorted_inv in Hs as [Hs Hb]. cbn [passed].
  destruct k as [|k]; cbn in Hk; simplify_eq.
  - case_match eqn:E; [apply Z.leb_le in E|apply Z.leb_gt in E]; lia.
  - case_match eqn:E.
    + rewrite <-(IH k Hs Hk). lia.
    + apply Z.leb_gt in E. rewrite Forall_forall in Hb.
      specialize (Hb a (list_elem_of_lookup_2 _ _ _ Hk)). lia.
Qed.

Lemma position_Some x l i : position x l = Some i -> l !! i = Some x.
Proof.
  revert i. induction l as [|y l IH]; intros i E; cbn in E; [done|].
  case_bool_decide as Hy; simplify_eq; [done|].
  destruct (position x l) as [j|]; simplify_eq/=. by apply IH.
Qed.

Lemma position_None x l : position x l = None -> x ∉ l.
Proof.
  induction l as [|y l IH]; intros E; cbn in E; [set_solver|].
  case_bool_decide as Hy; [done|]. destruct (position x l) as [j|]; [done|]. set_solver.
Qed.

Lemma position_NoDup x l i : NoDup l -> l !! i = Some x -> position x l = Some i.
Proof.
  intros Hn Hi. destruct (position x l) as [j|] eqn:E.
  - apply position_Some in E. f_equal. by eapply NoDup_lookup.
  - by apply position_None in E as []; apply list_elem_of_lookup_2 with i.
Qed.

(** ** Theorems *)

(** The fork identifier of a node is what the module documents: the CRC32 of the genesis hash
    followed by the activation heights up to the head, in ascending order without repetition, and
    the next scheduled activation, 0 when there is none. *)
Theorem fork_id_summarises (genesis : B256) (fs : list Fork) (head : Z) :
  let acts := activations fs in
  StronglySorted Z.lt acts
  /\ (forall a, a ∈ acts <-> 0 < a /\ a <> U64_MAX /\ exists f, f ∈ fs /\ f_activation f = a)
  /\ fid_hash (fork_id genesis fs head)
     = be_bytes 4 (crc32_update 0 (b256_bytes genesis
                                   ++ concat (map (be_bytes 8) (filter (fun a => a <= head) acts))))
  /\ (fid_next (fork_id genesis fs head) = 0 /\ (forall a, a ∈ acts -> a <= head)
      \/ fid_next (fork_id genesis fs head) ∈ acts /\ head < fid_next (fork_id genesis fs head)
         /\ forall a, a ∈ acts -> head < a -> fid_next (fork_id genesis fs head) <= a).
Proof.
  cbv zeta. pose proof (activations_sorted fs) as Hs.
  split; [done|]. split; [apply elem_of_activations|]. split.
  - unfold fork_id. cbn [fid_hash]. rewrite hashes_lookup by apply passed_le. cbn [from_option id].
    by rewrite passed_filter.
  - unfold fork_id. cbn [fid_next]. set (p := passed (activations fs) head).
    destruct (activations fs !! p) as [n|] eqn:E; cbn [from_option id].
    + right. split; [by eapply list_elem_of_lookup_2|].
      pose proof (passed_lookup _ head _ _ Hs E) as Hp. fold p in Hp. split; [lia|].
      intros a [k Hk]%list_elem_of_lookup_1 Ha.
      pose proof (passed_lookup _ head _ _ Hs Hk) as Hq. fold p in Hq.
      destruct (decide (k = p)) as [->|Hne]; [simplify_eq; lia|].
      apply Z.lt_le_incl. apply (sorted_lookup_lt _ p k n a Hs E Hk). lia.
    + left. split; [done|]. intros a [k Hk]%list_elem_of_lookup_1.
      apply (passed_lookup _ head _ _ Hs Hk). fold p.
      apply lookup_ge_None in E. apply lookup_lt_Some in Hk. lia.
Qed.

(** Two nodes that run the same fork table on the same genesis accept each other at any two
    heights, whichever is behind, as long as the checksums of the table's prefixes are distinct. *)
Theorem same_rules_compatible (genesis : B256) (fs : list Fork) (head head' : Z)
  (Hd : NoDup (hashes genesis (activations fs))) :
  check genesis fs head (fork_id genesis fs head') = Compatible.
Proof.
  pose proof (activations_sorted fs) as Hs. unfold check, fork_id. cbn [fid_hash fid_next].
  set (acts := activations fs) in *. set (p := passed acts head). set (q := passed acts head').
  pose proof (passed_le acts head) as Lp. pose proof (passed_le acts head') as Lq.
  fold p in Lp. fold q in Lq.
  destruct (lookup_lt_is_Some_2 (hashes genesis acts) q) as [h Hh]; [rewrite hashes_length; lia|].
  rewrite Hh. cbn [from_option id]. case_bool_decide as E.
  - assert (p = q) as Epq by (eapply NoDup_lookup; eauto).
    destruct (acts !! q) as [n|] eqn:En; cbn [from_option id]; [|done].
    pose proof (passed_lookup _ head _ _ Hs En) as Hn. fold p in Hn.
    rewrite (bool_decide_eq_true_2 (n ∈ acts)) by (by eapply list_elem_of_lookup_2).
    replace (n <=? head) with false by lia. rewrite !andb_false_r. done.
  - assert (p <> q) by congruence. destruct (decide (q < p)%nat) as [Hlt|Hge].
    + rewrite (position_NoDup _ _ q).
      * destruct (lookup_lt_is_Some_2 acts q) as [n Hn]; [lia|]. rewrite Hn. cbn [from_option id].
        by rewrite bool_decide_eq_true_2.
      * eapply sublist_NoDup; [exact Hd|apply sublist_take].
      * by rewrite lookup_take_lt.
    + destruct (position h (take p (hashes genesis acts))) as [i|] eqn:Ei.
      * apply position_Some in Ei. apply lookup_take_Some in Ei as [Ei Hi].
        assert (i = q) by (eapply NoDup_lookup; eauto). lia.
      * rewrite bool_decide_eq_true_2; [done|].
        apply list_elem_of_lookup. exists (q - (p + 1))%nat. rewrite lookup_drop.
        by replace (p + 1 + (q - (p + 1)))%nat with q by lia.
Qed.

(** A peer that is accepted has passed forks that are a prefix of ours, up to a collision of
    the checksum: its hash is the CRC32 of our genesis and the first [k] of our activations.  If it
    is behind us, the next fork it schedules is the one we passed next; if it is where we are, it
    schedules none or a later one of ours; one it schedules that we do not know asks for an
    upgrade. *)
Theorem accepted_peers_share_forks (genesis : B256) (fs : list Fork) (head : Z) (remote : ForkId)
  (Hc : check genesis fs head remote <> Incompatible) :
  let acts := activations fs in
  exists k, (k <= length acts)%nat
    /\ fid_hash remote = be_bytes 4 (crc32_update 0 (b256_bytes genesis
                                                      ++ concat (map (be_bytes 8) (take k acts))))
    /\ ((k < passed acts head)%nat -> acts !! k = Some (fid_next remote))
    /\ (k = passed acts head ->
        fid_next remote = 0
        \/ head < fid_next remote
           /\ (check genesis fs head remote = Compatible <-> fid_next remote ∈ acts)).
Proof.
  cbv zeta. unfold check in *. set (acts := activations fs) in *. set (p := passed acts head) in *.
  pose proof (passed_le acts head) as Lp. fold p in Lp.
  pose proof (fun k H => hashes_lookup genesis acts k H) as HL.
  case_bool_decide as E.
  - exists p. rewrite HL in E by done. injection E as <-. split; [done|]. split; [done|].
    split; [lia|]. intros _.
    destruct (fid_next remote =? 0) eqn:E0; [left; lia|right].
    cbn [negb andb] in *. destruct (fid_next remote <=? head) eqn:E1; [done|].
    split; [lia|]. case_bool_decide; cbn [negb]; split; by intros.
  - destruct (position _ _) as [i|] eqn:Ei.
    + apply position_Some in Ei. apply lookup_take_Some in Ei as [Ei Hi].
      case_bool_decide as Ea; [|done]. exists i. split; [lia|].
      rewrite HL in Ei by lia. injection Ei as <-. split; [done|]. split; [done|]. lia.
    + case_bool_decide as Ef; [|done]. apply list_elem_of_lookup in Ef as [j Hj].
      rewrite lookup_drop in Hj. assert (p + 1 + j <= length acts)%nat.
      { apply lookup_lt_Some in Hj. rewrite hashes_length in Hj. lia. }
      exists (p + 1 + j)%nat. rewrite HL in Hj by lia. injection Hj as <-.
      split; [lia|]. split; [done|]. lia.
Qed.

(** ** The text form round trip *)

Lemma push_digit_ok v d :
  0 <= d < 10 -> v * 10 + d <= U64_MAX -> push_digit (Some v) (48 + d) = Some (v * 10 + d).
Proof.
  intros Hd Hv. unfold push_digit.
  replace (48 <=? 48 + d) with true by lia. replace (48 + d <=? 57) with true by lia.
  cbn [andb]. replace (48 + d - 48) with d by lia. by replace (v * 10 + d <=? U64_MAX) with true by lia.
Qed.

Lemma dec_digits_parse fuel n :
  0 <= n < 10 ^ Z.of_nat fuel -> (0 < fuel)%nat -> n <= U64_MAX ->
  foldl push_digit (Some 0) (dec_digits fuel n) = Some n
  /\ Forall (fun c => 48 <= c <= 57) (dec_digits fuel n) /\ dec_digits fuel n <> [].
Proof.
  revert n. induction fuel as [|fuel IH]; intros n Hn Hf HU; [lia|]. cbn [dec_digits].
  destruct (n <? 10) eqn:E.
  - cbn [foldl]. rewrite push_digit_ok by lia. split; [done|]. split; [repeat constructor; lia|done].
  - rewrite Nat2Z.inj_succ, Z.pow_succ_r in Hn by lia.
    pose proof (Z.div_mod n 10). pose proof (Z.mod_pos_bound n 10).
    assert (1 <= n / 10) by (apply Z.div_le_lower_bound; lia).
    assert (n / 10 < 10 ^ Z.of_nat fuel) by (apply Z.div_lt_upper_bound; lia).
    destruct (IH (n / 10)) as (IH1 & IH2 & IH3); [lia| |lia|].
    { destruct fuel; [|lia]. cbn in *. lia. }
    rewrite foldl_app, IH1. cbn [foldl]. rewrite push_digit_ok by lia.
    split; [f_equal; lia|].
    split; [apply Forall_app; split; [done|repeat constructor; lia]|].
    by intros [_ ?]%app_nil.
Qed.

Lemma parse_dec_u64 n : in_range 64 n -> parse_u64 (dec_u64 n) = Some n.
Proof.
  intros Hn. destruct (dec_digits_parse 20 n) as (H1 & H2 & H3);
    [change (10 ^ Z.of_nat 20) with 100000000000000000000; unfold in_range in Hn; lia|lia
    |unfold in_range, U64_MAX in *; lia|].
  unfold parse_u64, dec_u64. destruct (dec_digits 20 n) as [|c rest] eqn:E; [done|].
  apply Forall_cons in H2 as [Hc _]. replace (c =? 43) with false by lia. done.
Qed.

Lemma split_once_app a b : 45 ∉ a -> split_once (a ++ [45] ++ b) = Some (a, b).
Proof.
  induction a as [|c a IH]; intros Hn; [done|]. cbn [app split_once].
  apply not_elem_of_cons in Hn as [Hc Ha]. replace (c =? 45) with false by lia.
  cbn [app] in IH. by rewrite IH.
Qed.

(** A fork identifier parses back from its text form. *)
Theorem fork_id_text_round_trip `{H : Hex} `{!HexLaws H} (f : ForkId)
  (Hl : length (fid_hash f) = 4%nat) (Hb : byte_list (fid_hash f)) (Hn : in_range 64 (fid_next f)) :
  fork_id_from_str (fork_id_fmt f) = Some f.
Proof.
  unfold fork_id_from_str, fork_id_fmt. rewrite split_once_app by by apply hex_digits.
  cbn [mbind option_bind]. rewrite hex_round_trip by done. cbn [mbind option_bind].
  rewrite option_guard_True by done. cbn [mbind option_bind]. rewrite parse_dec_u64 by done. by destruct f.
Qed.

(** ** Witnesses *)

Module ForksWitness.
#[export] Instance no_code : ForkCode := fun _ => [].

Definition hex_digit (d : Z) : Z := if d <? 10 then 48 + d else 87 + d.
Definition hex_value (c : Z) : Z := if c <? 58 then c - 48 else c - 87.
Fixpoint from_hex (s : bytes) : option bytes :=
  match s with
  | [] => Some []
  | a :: b :: rest => cons (hex_value a * 16 + hex_value b) <$> from_hex rest
  | _ => None
  end.

#[export] Instance toy_hex : Hex := {|
  hex_encode b := concat (map (fun x => [hex_digit (x / 16); hex_digit (x mod 16)]) b);
  hex_decode := from_hex;
|}.

Lemma hex_digit_ok d : 0 <= d < 16 -> hex_value (hex_digit d) = d /\ hex_digit d <> 45.
Proof. unfold hex_value, hex_digit. repeat case_match; lia. Qed.

#[export] Instance toy_hex_laws : HexLaws toy_hex.
Proof.
  split; intros b Hb; induction Hb as [|x b Hx Hb IH]; try done; cbn in *.
  - rewrite IH. cbn. assert (0 <= x / 16 < 16) by (split; [apply Z.div_pos|apply Z.div_lt_upper_bound]; lia).
    destruct (hex_digit_ok (x / 16)) as [-> _]; [done|].
    destruct (hex_digit_ok (x mod 16)) as [-> _]; [apply Z.mod_pos_bound; lia|].
    do 2 f_equal. pose proof (Z.div_mod x 16). lia.
  - set_solver.
  - assert (0 <= x / 16 < 16) by (split; [apply Z.div_pos|apply Z.div_lt_upper_bound]; lia).
    pose proof (Z.mod_pos_bound x 16). rewrite !not_elem_of_cons.
    destruct (hex_digit_ok (x / 16)), (hex_digit_ok (x mod 16)); try lia. auto.
Qed.

(** The checksum of the standard test vector. *)
Example crc32_standard : crc32_update 0 (ascii_bytes "123456789") = 0xCBF43926.
Proof. reflexivity. Qed.

Definition genesis : B256 := 17.
Definition behind : ForkId := fork_id genesis (forks TESTNET_CHAIN_ID) 10.

Lemma same_rules_compatible_witness :
  check genesis (forks TESTNET_CHAIN_ID) 3000 behind = Compatible.
Proof.
  apply same_rules_compatible. apply (bool_decide_unpack _). vm_compute. exact I.
Defined.

Lemma accepted_peers_share_forks_witness :
  check genesis (forks TESTNET_CHAIN_ID) 3000 behind = Compatible
  /\ exists k, (k <= 2)%nat.
Proof.
  split; [reflexivity|].
  destruct (accepted_peers_share_forks genesis (forks TESTNET_CHAIN_ID) 3000 behind) as (k & Hk & _).
  - intros E. vm_compute in E. discriminate E.
  - exists k. exact Hk.
Defined.

Lemma fork_id_text_round_trip_witness :
  fork_id_fmt (mkForkId [1; 2; 3; 255] 2401) = ascii_bytes "010203ff-2401"
  /\ fork_id_from_str (ascii_bytes "010203ff-2401") = Some (mkForkId [1; 2; 3; 255] 2401).
Proof.
  assert (fork_id_fmt (mkForkId [1; 2; 3; 255] 2401) = ascii_bytes "010203ff-2401") as E
    by reflexivity.
  split; [exact E|]. rewrite <-E.
  apply (fork_id_text_round_trip (mkForkId [1; 2; 3; 255] 2401)); [reflexivity| |].
  - apply (bool_decide_unpack _). vm_compute. exact I.
  - split; [discriminate|reflexivity].
Defined.
End ForksWitness.
