(* ===== verification/TrieIface.v ===== *)
(** * What the trie promises to the state database

    The state database uses the Merkle-Patricia trie of crates/store/src/trie.rs through a
    modification session: it is opened over the stored nodes, updated key by key, and committed
    into a root hash and the node writes to persist.  [TrieOps] has these operations; [TrieLaws] is
    the contract: whatever the order of the updates, the committed root is the reference root of
    the key/value content, and the writes turn the node set of the old content into the node set of
    the new one, with no stale node left. *)

From S2P Require Import Prelude Types.
From stdpp Require Import base list gmap fin_maps.
From Stdlib Require Import ZArith.

Open Scope Z_scope.

(** Root of the empty trie (crate alloy-trie). *)
Definition EMPTY_ROOT_HASH : B256 :=
  0x56e81f171bcc55a6ff8345e692c0f86e5b48e01b996cadc001622fb5e363b421.

(** A nibble path, one nibble per element. *)
Abbreviation Path := (list Z) (only parsing).

Definition NodeWrites : Type := gmap Path (option bytes).

(** Errors of trie operations.  [TrieAbort] is not one of the code's errors: it stands for a panic
    or a loop that does not end, which the callers propagate as they propagate an error. *)
Inductive TrieError :=
  | TrieCorrupt (path : Path)
  | TrieAbort.

(** Applies commit writes: [Some] stores, [None] deletes. *)
Definition apply_writes (writes : NodeWrites) (nodes : gmap Path bytes) : gmap Path bytes :=
  merge (fun w n => match w with Some w => w | None => n end) writes nodes.

Class TrieOps := {
  Session : Type;
  trie_new : gmap Path bytes -> Session;
  trie_insert : B256 -> bytes -> Session -> result TrieError Session;
  trie_remove_key : B256 -> Session -> result TrieError Session;
  trie_commit : Session -> result TrieError (B256 * NodeWrites);
}.

(** The contents a trie may hold: 256-bit keys, non-empty values. *)
Definition content_ok (m : gmap B256 bytes) : Prop :=
  map_Forall (fun k v => in_range 256 k /\ v <> []) m.

Class TrieLaws (T : TrieOps) := {
  nodes_of : gmap B256 bytes -> gmap Path bytes;
  root_of : gmap B256 bytes -> B256;
  (** [editing m0 m s]: the session was opened over the nodes of [m0] and now holds [m]. *)
  editing : gmap B256 bytes -> gmap B256 bytes -> Session -> Prop;
  nodes_of_empty : nodes_of ∅ = ∅;
  root_of_empty : root_of ∅ = EMPTY_ROOT_HASH;
  editing_new m : content_ok m -> editing m m (trie_new (nodes_of m));
  editing_insert m0 m s k v :
    editing m0 m s -> in_range 256 k -> v <> [] ->
    exists s', trie_insert k v s = Ok s' /\ editing m0 (<[k := v]> m) s';
  editing_remove m0 m s k :
    editing m0 m s -> in_range 256 k ->
    exists s', trie_remove_key k s = Ok s' /\ editing m0 (delete k m) s';
  editing_commit m0 m s :
    editing m0 m s ->
    exists writes, trie_commit s = Ok (root_of m, writes)
      /\ apply_writes writes (nodes_of m0) = nodes_of m;
}.
