(* ===== verification/Trie.v ===== *)
(** * The Merkle-Patricia trie

    Models crates/store/src/trie.rs: the path-keyed trie that is updated incrementally.  Nodes are
    stored under their nibble path from the root; a session keeps the changed ones in [dirty] and
    reads the others from the source; [commit] recomputes hashes along modified paths only.  The
    source is the node table (its own errors are those of the database and left out).  RLP strings
    and headers are the crate alloy-rlp's ([NodeRlp]).  Loops have a fuel: the number of nibbles of
    a key bounds them, except on a corrupt extension with an empty key. *)

From S2P Require Import Prelude Types TrieIface.
From stdpp Require Import base list list_numbers gmap fin_maps.
From Stdlib Require Import ZArith Lia.

Open Scope Z_scope.
Open Scope bolt_scope.

(** A child as embedded in its parent; [None] means modified, to recompute at commit. *)
Abbreviation ChildRef := (option bytes) (only parsing).

Inductive Node :=
  | Leaf (key : Path) (value : bytes)
  | Ext (key : Path) (child : ChildRef)
  | Branch (children : list (option ChildRef)).

(** RLP strings and headers: [rlp_header_decode] reads a header and returns whether it is a list, the
    payload length and the bytes from the payload on. *)
Class NodeRlp := {
  rlp_string : bytes -> bytes;
  rlp_list_header : Z -> bytes;
  rlp_header_decode : bytes -> option (bool * Z * bytes);
}.

Definition EMPTY_STRING_CODE : Z := 128.

(** ** Nibbles *)

Definition to_nibbles (key : B256) : Path :=
  concat (map (fun b => [Z.shiftr b 4; Z.land b 15]) (be_bytes 32 key)).

Fixpoint common_prefix (a b : Path) : nat :=
  match a, b with
  | x :: a, y :: b => if x =? y then S (common_prefix a b) else O
  | _, _ => O
  end.

(** [rest.strip_prefix(key)]. *)
Fixpoint strip (key rest : Path) : option Path :=
  match key, rest with
  | [], _ => Some rest
  | x :: key, y :: rest => if x =? y then strip key rest else None
  | _ :: _, [] => None
  end.

Fixpoint hex_pairs (nibbles : Path) : bytes :=
  match nibbles with
  | a :: b :: rest => Z.lor (Z.shiftl a 4) b :: hex_pairs rest
  | _ => []
  end.

(** [pair[1]] of an odd last pair does not occur: the first nibble is taken when the length is odd. *)
Definition hex_prefix (nibbles : Path) (leaf : bool) : bytes :=
  let odd := Nat.odd (length nibbles) in
  let flag := (if leaf then 2 else 0) + (if odd then 1 else 0) in
  match nibbles with
  | n :: rest => if odd then Z.lor (Z.shiftl flag 4) n :: hex_pairs rest
                 else Z.shiftl flag 4 :: hex_pairs nibbles
  | [] => [Z.shiftl flag 4]
  end.

Definition hex_prefix_decode (b : bytes) : option (Path * bool) :=
  match b with
  | [] => None
  | first :: rest =>
      let flag := Z.shiftr first 4 in
      if 3 <? flag then None
      else
        let head := if Z.land flag 1 =? 1 then [Z.land first 15] else [] in
        Some (head ++ concat (map (fun b => [Z.shiftr b 4; Z.land b 15]) rest), Z.land flag 2 =? 2)
  end.

Section codec.
Context `{K : Keccak} `{N : NodeRlp}.

Definition child_ref (rlp : bytes) : bytes :=
  if (length rlp <? 32)%nat then rlp else b256_bytes (keccak256 rlp).

Definition encode_ref (r : bytes) : bytes := if (length r =? 32)%nat then rlp_string r else r.

(** [None] when a child is not resolved: the [expect] panics. *)
Definition encode_child (c : option ChildRef) : option bytes :=
  match c with
  | None => Some [EMPTY_STRING_CODE]
  | Some (Some r) => Some (encode_ref r)
  | Some None => None
  end.

Definition list_of (payload : bytes) : bytes := rlp_list_header (Z.of_nat (length payload)) ++ payload.

Definition encode_node (n : Node) : option bytes :=
  match n with
  | Leaf key value => Some (list_of (rlp_string (hex_prefix key true) ++ rlp_string value))
  | Ext key (Some child) => Some (list_of (rlp_string (hex_prefix key false) ++ encode_ref child))
  | Ext key None => None
  | Branch children =>
      payload ← mapM encode_child children;
      Some (list_of (concat payload ++ [EMPTY_STRING_CODE]))
  end.

(** Splits a payload into its items, headers included.  Every item takes at least one byte, so the
    length bounds the loop. *)
Fixpoint raw_items (fuel : nat) (buf : bytes) : option (list bytes) :=
  match buf, fuel with
  | [], _ => Some []
  | _, O => None
  | _, S fuel =>
      '(_, payload, rest) ← rlp_header_decode buf;
      let total := (length buf - length rest + Z.to_nat payload)%nat in
      if (length buf <? total)%nat then None
      else
        items ← raw_items fuel (drop total buf);
        Some (take total buf :: items)
  end.

(** [b.get(..n)]. *)
Definition get_prefix (b : bytes) (n : Z) : option bytes :=
  if Z.of_nat (length b) <? n then None else Some (take (Z.to_nat n) b).

Definition string_payload (item : bytes) : option bytes :=
  '(is_list, len, b) ← rlp_header_decode item;
  if is_list : bool then None else get_prefix b len.

Definition decode_ref (item : bytes) : option bytes :=
  '(is_list, len, b) ← rlp_header_decode item;
  if is_list : bool then Some item
  else if len =? 32 then Some (take 32 b)
  else None.

Definition decode_child (item : bytes) : option (option ChildRef) :=
  if bool_decide (item = [EMPTY_STRING_CODE]) then Some None
  else (fun r => Some (Some r)) <$> decode_ref item.

Definition decode_node (rlp : bytes) : option Node :=
  '(is_list, len, b) ← rlp_header_decode rlp;
  if negb is_list then None
  else
    payload ← get_prefix b len;
    items ← raw_items (length payload) payload;
    match length items, items with
    | 2%nat, i0 :: i1 :: _ =>
        s ← string_payload i0;
        '(key, leaf) ← hex_prefix_decode s;
        if leaf : bool then v ← string_payload i1; Some (Leaf key v)
        else r ← decode_ref i1; Some (Ext key (Some r))
    | 17%nat, _ =>
        children ← mapM decode_child (take 16 items);
        Some (Branch children)
    | _, _ => None
    end.

(** ** Sessions *)

Record Trie := mkTrie {
  source : gmap Path bytes;
  dirty : gmap Path (option Node);
}.

Definition Trie_new (nodes : gmap Path bytes) : Trie := mkTrie nodes ∅.

Definition Trie_get (path : Path) (s : Trie) : result TrieError (option Node) :=
  match dirty s !! path with
  | Some n => Ok n
  | None =>
      match source s !! path with
      | None => Ok None
      | Some rlp =>
          match decode_node rlp with
          | Some n => Ok (Some n)
          | None => Err (TrieCorrupt path)
          end
      end
  end.

Definition Trie_put (path : Path) (n : Node) (s : Trie) : Trie :=
  mkTrie (source s) (<[path := Some n]> (dirty s)).

Definition Trie_remove (path : Path) (s : Trie) : Trie :=
  mkTrie (source s) (<[path := None]> (dirty s)).

Definition no_children : list (option ChildRef) := replicate 16 None.

(** [children[i] = Some(None)]; an index out of range panics. *)
Definition mark (i : Z) (children : list (option ChildRef)) : result TrieError (list (option ChildRef)) :=
  if (Z.to_nat i <? length children)%nat then Ok (<[Z.to_nat i := Some None]> children) else Err TrieAbort.

(** [key[c]]. *)
Definition nibble_at (key : Path) (c : nat) : result TrieError Z := ok_or (key !! c) TrieAbort.

Fixpoint insert_loop (fuel : nat) (path rest : Path) (value : bytes) (s : Trie) : result TrieError Trie :=
  match fuel with
  | O => Err TrieAbort
  | S fuel =>
      node <-? Trie_get path s;
      match node with
      | None => Ok (Trie_put path (Leaf rest value) s)
      | Some (Leaf lkey lval) =>
          if bool_decide (lkey = rest) then Ok (Trie_put path (Leaf lkey value) s)
          else
            let c := common_prefix lkey rest in
            let bpath := path ++ take c rest in
            x <-? nibble_at lkey c;
            children <-? mark x no_children;
            y <-? nibble_at rest c;
            children <-? mark y children;
            let s := Trie_put (bpath ++ [x]) (Leaf (drop (c + 1) lkey) lval) s in
            let s := Trie_put (bpath ++ [y]) (Leaf (drop (c + 1) rest) value) s in
            let s := Trie_put bpath (Branch children) s in
            Ok (if (0 <? c)%nat then Trie_put path (Ext (take c rest) None) s else s)
      | Some (Ext ekey _) =>
          let c := common_prefix ekey rest in
          if (c =? length ekey)%nat then
            insert_loop fuel (path ++ ekey) (drop c rest) value (Trie_put path (Ext ekey None) s)
          else
            let bpath := path ++ take c ekey in
            x <-? nibble_at ekey c;
            children <-? mark x no_children;
            y <-? nibble_at rest c;
            children <-? mark y children;
            let s := if (0 <? length ekey - c - 1)%nat
                     then Trie_put (bpath ++ [x]) (Ext (drop (c + 1) ekey) None) s else s in
            let s := Trie_put (bpath ++ [y]) (Leaf (drop (c + 1) rest) value) s in
            let s := Trie_put bpath (Branch children) s in
            Ok (if (0 <? c)%nat then Trie_put path (Ext (take c ekey) None) s else s)
      | Some (Branch children) =>
          match rest with
          | [] => Err TrieAbort
          | i :: rest =>
              children <-? mark i children;
              insert_loop fuel (path ++ [i]) rest value (Trie_put path (Branch children) s)
          end
      end
  end.

Definition Trie_insert (key : B256) (value : bytes) (s : Trie) : result TrieError Trie :=
  let full := to_nibbles key in
  insert_loop (S (length full)) [] full value s.

(** The walk to a key: the nodes visited, last first, or [None] when the key is absent. *)
Fixpoint walk (fuel : nat) (path rest : Path) (stack : list (Path * Node)) (s : Trie)
    : result TrieError (option (list (Path * Node))) :=
  match fuel with
  | O => Err TrieAbort
  | S fuel =>
      node <-? Trie_get path s;
      match node with
      | None => Ok None
      | Some (Leaf key v) =>
          if bool_decide (key = rest) then Ok (Some ((path, Leaf key v) :: stack)) else Ok None
      | Some (Ext key r) =>
          match strip key rest with
          | None => Ok None
          | Some rest => walk fuel (path ++ key) rest ((path, Ext key r) :: stack) s
          end
      | Some (Branch children) =>
          match rest with
          | [] => Err TrieAbort
          | i :: rest =>
              c <-? ok_or (children !! Z.to_nat i) TrieAbort;
              match c with
              | None => Ok None
              | Some _ => walk fuel (path ++ [i]) rest ((path, Branch children) :: stack) s
              end
          end
      end
  end.

(** The indexes of the children that are left. *)
Definition remaining (children : list (option ChildRef)) : list nat :=
  List.filter (fun i => match children !! i with Some (Some _) => true | _ => false end) (seq 0 16).

(** Repairs the ancestors from the bottom up; [replaced] is what now sits at [child_path]. *)
Fixpoint repair (stack : list (Path * Node)) (child_path : Path) (replaced : option Node) (s : Trie)
    : result TrieError Trie :=
  match stack with
  | [] => Ok s
  | (p, Branch children) :: stack =>
      slot <-? ok_or (child_path !! length p) TrieAbort;
      children <-? (if (Z.to_nat slot <? length children)%nat
                    then Ok (<[Z.to_nat slot := match replaced with Some _ => Some None | None => None end]> children)
                    else Err TrieAbort);
      match remaining children with
      | _ :: _ :: _ => repair stack p (Some (Branch children)) (Trie_put p (Branch children) s)
      | [] => Err TrieAbort
      | [i] =>
          let i := Z.of_nat i in
          let cpath := p ++ [i] in
          c <-? Trie_get cpath s;
          match c with
          | None => Err (TrieCorrupt cpath)
          | Some (Leaf key value) =>
              let new := Leaf (i :: key) value in
              repair stack p (Some new) (Trie_put p new (Trie_remove cpath s))
          | Some (Ext key _) =>
              let new := Ext (i :: key) None in
              repair stack p (Some new) (Trie_put p new (Trie_remove cpath s))
          | Some (Branch _) =>
              let new := Ext [i] None in
              repair stack p (Some new) (Trie_put p new s)
          end
      end
  | (p, Ext key _) :: stack =>
      match replaced with
      | Some (Leaf k2 value) =>
          let new := Leaf (key ++ k2) value in
          repair stack p (Some new) (Trie_put p new (Trie_remove child_path s))
      | Some (Ext k2 _) =>
          let new := Ext (key ++ k2) None in
          repair stack p (Some new) (Trie_put p new (Trie_remove child_path s))
      | Some (Branch _) =>
          let new := Ext key None in
          repair stack p (Some new) (Trie_put p new s)
      | None => Err (TrieCorrupt p)
      end
  | (p, Leaf _ _) :: _ => Err (TrieCorrupt p)
  end.

Definition Trie_remove_key (key : B256) (s : Trie) : result TrieError Trie :=
  let full := to_nibbles key in
  stack <-? walk (S (length full)) [] full [] s;
  match stack with
  | None => Ok s
  | Some [] => Err TrieAbort
  | Some ((leaf_path, _) :: stack) => repair stack leaf_path None (Trie_remove leaf_path s)
  end.

(** ** Commit *)

(** The children of a branch, left to right: unresolved ones are encoded by [f]. *)
Fixpoint encode_children (f : Path -> Trie * NodeWrites -> result TrieError (bytes * (Trie * NodeWrites)))
    (path : Path) (i : nat) (children : list (option ChildRef)) (st : Trie * NodeWrites)
    : result TrieError (list (option ChildRef) * (Trie * NodeWrites)) :=
  match children with
  | [] => Ok ([], st)
  | Some None :: children =>
      r <-? f (path ++ [Z.of_nat i]) st;
      let '(rlp, st) := r in
      rest <-? encode_children f path (S i) children st;
      Ok (Some (Some (child_ref rlp)) :: rest.1, rest.2)
  | c :: children =>
      rest <-? encode_children f path (S i) children st;
      Ok (c :: rest.1, rest.2)
  end.

Fixpoint encode_at (fuel : nat) (path : Path) (st : Trie * NodeWrites)
    : result TrieError (bytes * (Trie * NodeWrites)) :=
  match fuel with
  | O => Err TrieAbort
  | S fuel =>
      let s := st.1 in
      match dirty s !! path with
      | Some None => Err (TrieCorrupt path)
      | None =>
          rlp <-? ok_or (source s !! path) (TrieCorrupt path);
          Ok (rlp, st)
      | Some (Some node) =>
          r <-? match node with
                | Leaf _ _ => Ok (node, st)
                | Ext key (Some r) => Ok (Ext key (Some r), st)
                | Ext key None =>
                    c <-? encode_at fuel (path ++ key) st;
                    Ok (Ext key (Some (child_ref c.1)), c.2)
                | Branch children =>
                    c <-? encode_children (encode_at fuel) path 0 children st;
                    Ok (Branch c.1, c.2)
                end;
          let '(resolved, (s, writes)) := r in
          rlp <-? ok_or (encode_node resolved) TrieAbort;
          Ok (rlp, (Trie_put path resolved s, <[path := Some rlp]> writes))
      end
  end.

(** Keys have 64 nibbles, so no path is longer. *)
Definition COMMIT_FUEL : nat := 66.

Definition Trie_commit (s : Trie) : result TrieError (B256 * NodeWrites) :=
  root_node <-? Trie_get [] s;
  r <-? match root_node with
        | None => Ok (EMPTY_ROOT_HASH, (s, ∅))
        | Some _ =>
            r <-? encode_at COMMIT_FUEL [] (s, ∅);
            Ok (keccak256 r.1, r.2)
        end;
  let '(root, (s, writes)) := r in
  Ok (root, merge (fun w n => match w, n with
                              | Some w, _ => Some w
                              | None, Some None => Some None
                              | None, _ => None
                              end) writes (dirty s)).

(** ** Proofs of membership *)

Fixpoint proof_loop (fuel : nat) (path rest : Path) (nodes : gmap Path bytes)
    : result TrieError (list bytes) :=
  match fuel with
  | O => Err TrieAbort
  | S fuel =>
      match nodes !! path with
      | None => Ok []
      | Some rlp =>
          node <-? ok_or (decode_node rlp) (TrieCorrupt path);
          let out := if bool_decide (path = []) || (32 <=? length rlp)%nat then [rlp] else [] in
          rest <-? match node with
                   | Leaf _ _ => Ok []
                   | Ext key _ =>
                       match strip key rest with
                       | None => Ok []
                       | Some rest => proof_loop fuel (path ++ key) rest nodes
                       end
                   | Branch children =>
                       match rest with
                       | [] => Ok []
                       | i :: rest =>
                           c <-? ok_or (children !! Z.to_nat i) TrieAbort;
                           match c with
                           | None => Ok []
                           | Some _ => proof_loop fuel (path ++ [i]) rest nodes
                           end
                       end
                   end;
          Ok (out ++ rest)
      end
  end.

Definition proof (nodes : gmap Path bytes) (key : B256) : result TrieError (list bytes) :=
  proof_loop (S (length (to_nibbles key))) [] (to_nibbles key) nodes.
End codec.
