(* ===== verification/TrieTree.v ===== *)
(** * Reference tries

    The trie as a tree: leaves, extensions and branches with their subtrees.  A tree is canonical
    when extensions lead to branches and branches have at least two children; a canonical tree is
    determined by its content, so the tree of a content ([tree_of]) is the same whatever the order
    of the insertions and removals that produced it. *)

From S2P Require Import Prelude Types TrieIface Trie.
From stdpp Require Import base list list_numbers gmap fin_maps.
From Stdlib Require Import ZArith Lia.

Open Scope Z_scope.

Inductive tree :=
  | TLeaf (k : Path) (v : bytes)
  | TExt (k : Path) (t : tree)
  | TBranch (ch : list (option tree)).

Definition nibs (k : Path) : Prop := Forall (fun x => 0 <= x < 16) k.

(** The child at a nibble. *)
Definition child {A} (ch : list (option A)) (i : Z) : option A :=
  if 0 <=? i then default None (ch !! Z.to_nat i) else None.

Fixpoint tlookup (t : tree) (p : Path) : option bytes :=
  match t with
  | TLeaf k v => if bool_decide (k = p) then Some v else None
  | TExt k t => match strip k p with Some q => tlookup t q | None => None end
  | TBranch ch =>
      match p with
      | [] => None
      | i :: q => child (map (fun c => match c with Some t => tlookup t q | None => None end) ch) i
      end
  end.

(** The subtree whose node is stored at a relative path. *)
Fixpoint subtree (t : tree) (p : Path) : option tree :=
  match p with
  | [] => Some t
  | i :: q =>
      match t with
      | TLeaf _ _ => None
      | TExt k t => match strip k p with Some q => subtree t q | None => None end
      | TBranch ch => child (map (fun c => match c with Some t => subtree t q | None => None end) ch) i
      end
  end.

Definition set_child (ch : list (option tree)) (i : Z) (c : option tree) : list (option tree) :=
  <[Z.to_nat i := c]> ch.

Definition fork (x : Z) (a : tree) (y : Z) (b : tree) : tree :=
  TBranch (set_child (set_child (replicate 16 None) x (Some a)) y (Some b)).

(** An extension, unless its key is empty. *)
Definition extend (k : Path) (t : tree) : tree := match k with [] => t | _ => TExt k t end.

Fixpoint tinsert (t : tree) (p : Path) (v : bytes) : tree :=
  match t with
  | TLeaf k w =>
      if bool_decide (k = p) then TLeaf k v
      else
        let c := common_prefix k p in
        extend (take c k)
          (fork (nth c k 0) (TLeaf (drop (c + 1) k) w) (nth c p 0) (TLeaf (drop (c + 1) p) v))
  | TExt k t =>
      let c := common_prefix k p in
      if (c =? length k)%nat then TExt k (tinsert t (drop c p) v)
      else
        extend (take c k)
          (fork (nth c k 0) (extend (drop (c + 1) k) t) (nth c p 0) (TLeaf (drop (c + 1) p) v))
  | TBranch ch =>
      match p with
      | [] => t
      | i :: q =>
          TBranch (alter (fun c => Some (match c with
                                         | Some t => tinsert t q v
                                         | None => TLeaf q v
                                         end)) (Z.to_nat i) ch)
      end
  end.

(** Merging a key above a subtree: what replaces a branch with a single child. *)
Definition prepend (k : Path) (t : tree) : tree :=
  match t with
  | TLeaf k' v => TLeaf (k ++ k') v
  | TExt k' t => TExt (k ++ k') t
  | TBranch _ => TExt k t
  end.

(** The children present, with their index. *)
Definition present {A} (ch : list (option A)) : list nat :=
  List.filter (fun i => match ch !! i with Some (Some _) => true | _ => false end) (seq 0 16).

Definition collapse (ch : list (option tree)) : option tree :=
  match present ch with
  | [i] => match ch !! i with Some (Some t) => Some (prepend [Z.of_nat i] t) | _ => None end
  | [] => None
  | _ => Some (TBranch ch)
  end.

(** Removal of a key the tree holds. *)
Fixpoint tremove (t : tree) (p : Path) : option tree :=
  match t with
  | TLeaf k v => None
  | TExt k t => prepend k <$> tremove t (drop (length k) p)
  | TBranch ch =>
      match p with
      | [] => Some t
      | i :: q =>
          collapse (alter (fun c => match c with Some t => tremove t q | None => None end) (Z.to_nat i) ch)
      end
  end.

(** ** Canonical trees *)

(** [canon n t]: the keys of [t] have [n] nibbles. *)
Inductive canon : nat -> tree -> Prop :=
  | canon_leaf k v : nibs k -> v <> [] -> canon (length k) (TLeaf k v)
  | canon_ext k n ch : k <> [] -> nibs k -> canon n (TBranch ch) -> canon (length k + n) (TExt k (TBranch ch))
  | canon_branch n ch :
      length ch = 16%nat -> (2 <= length (present ch))%nat ->
      (forall i t, ch !! i = Some (Some t) -> canon n t) -> canon (S n) (TBranch ch).

(** ** Lists and nibbles *)

Lemma strip_app k p : strip k (k ++ p) = Some p.
Proof. induction k as [|x k IH]; [done|]. cbn. by rewrite Z.eqb_refl. Qed.

Lemma strip_Some k p q : strip k p = Some q -> p = k ++ q.
Proof.
  revert p. induction k as [|x k IH]; intros p E; cbn in *; [congruence|].
  destruct p as [|y p]; [done|]. destruct (x =? y) eqn:Exy; [|done]. apply Z.eqb_eq in Exy as ->.
  by rewrite (IH p E).
Qed.

Lemma strip_None k p q : strip k p = None -> p <> k ++ q.
Proof. intros E ->. by rewrite strip_app in E. Qed.

Lemma common_prefix_le k p : (common_prefix k p <= length k)%nat /\ (common_prefix k p <= length p)%nat.
Proof.
  revert p. induction k as [|x k IH]; intros [|y p]; cbn; try lia.
  destruct (x =? y); [|lia]. specialize (IH p). lia.
Qed.

Lemma common_prefix_take k p : take (common_prefix k p) k = take (common_prefix k p) p.
Proof.
  revert p. induction k as [|x k IH]; intros [|y p]; cbn; try done.
  destruct (x =? y) eqn:E; [|done]. apply Z.eqb_eq in E as ->. cbn. by rewrite IH.
Qed.

Lemma common_prefix_full k p : common_prefix k p = length k -> p = k ++ drop (length k) p.
Proof.
  intros E. pose proof (common_prefix_take k p) as Et. rewrite E in Et.
  rewrite firstn_all in Et. rewrite <-(take_drop (length k) p) at 1. by rewrite <-Et.
Qed.

Lemma common_prefix_app k p q : common_prefix (k ++ p) (k ++ q) = (length k + common_prefix p q)%nat.
Proof. induction k as [|x k IH]; [done|]. cbn. by rewrite Z.eqb_refl, IH. Qed.

(** Two keys of the same length that differ split into a prefix and two different nibbles. *)
Lemma common_prefix_split k p :
  (common_prefix k p < length k)%nat -> (common_prefix k p < length p)%nat ->
  let c := common_prefix k p in
  exists pre x k' y p', k = pre ++ x :: k' /\ p = pre ++ y :: p' /\ x <> y /\ length pre = c.
Proof.
  revert p. induction k as [|x k IH]; intros [|y p]; cbn; try lia. destruct (x =? y) eqn:E.
  - apply Z.eqb_eq in E as ->. intros Hk Hp. destruct (IH p) as (pre & x' & k' & y' & p' & -> & -> & Hne & Hl); [lia..|].
    exists (y :: pre), x', k', y', p'. cbn. by rewrite Hl.
  - intros _ _. apply Z.eqb_neq in E. by exists [], x, k, y, p.
Qed.

Lemma common_prefix_lt k p :
  length k = length p -> k <> p -> (common_prefix k p < length k)%nat.
Proof.
  intros Hl Hne. pose proof (common_prefix_le k p). destruct (decide (common_prefix k p = length k)) as [E|]; [|lia].
  apply common_prefix_full in E. rewrite Hl, drop_all, app_nil_r in E. congruence.
Qed.

Lemma nibs_app k p : nibs (k ++ p) <-> nibs k /\ nibs p.
Proof. apply Forall_app. Qed.

(** The split case of an insertion, with the prefix and nibbles named. *)
Lemma split_parts pre x k y p :
  x <> y ->
  let c := common_prefix (pre ++ x :: k) (pre ++ y :: p) in
  c = length pre /\ take c (pre ++ x :: k) = pre /\ take c (pre ++ y :: p) = pre
  /\ nth c (pre ++ x :: k) 0 = x /\ nth c (pre ++ y :: p) 0 = y
  /\ drop (c + 1) (pre ++ x :: k) = k /\ drop (c + 1) (pre ++ y :: p) = p
  /\ (pre ++ x :: k) !! c = Some x /\ (pre ++ y :: p) !! c = Some y.
Proof.
  intros Hne. cbv zeta.
  assert (common_prefix (pre ++ x :: k) (pre ++ y :: p) = length pre) as ->.
  { rewrite common_prefix_app. cbn. replace (x =? y) with false by lia. lia. }
  rewrite !take_app_length, !nth_middle. split; [done|]. split; [done|]. split; [done|]. split; [done|]. split; [done|].
  rewrite !drop_app_ge by lia. replace (length pre + 1 - length pre)%nat with 1%nat by lia. cbn.
  split; [done|]. split; [done|]. by rewrite !list_lookup_middle.
Qed.

(** ** Children *)

Lemma child_map {A B} (g : A -> option B) (ch : list (option A)) i :
  child (map (fun c => match c with Some t => g t | None => None end) ch) i
  = match child ch i with Some t => g t | None => None end.
Proof.
  unfold child. case_match; [|done]. change (map ?f ch) with (f <$> ch). rewrite list_lookup_fmap.
  by destruct (ch !! Z.to_nat i) as [[t|]|].
Qed.

Lemma child_nat {A} (ch : list (option A)) i : child ch (Z.of_nat i) = default None (ch !! i).
Proof. unfold child. by rewrite (proj2 (Z.leb_le 0 (Z.of_nat i)) (Zle_0_nat i)), Nat2Z.id. Qed.

Lemma child_Some {A} (ch : list (option A)) i t : child ch i = Some t <-> 0 <= i /\ ch !! Z.to_nat i = Some (Some t).
Proof.
  unfold child. destruct (0 <=? i) eqn:E.
  - destruct (ch !! Z.to_nat i) as [[u|]|]; cbn; split; (naive_solver lia).
  - split; [done|]. lia.
Qed.

Lemma child_alter f (ch : list (option tree)) i j :
  length ch = 16%nat -> 0 <= i < 16 ->
  child (alter f (Z.to_nat i) ch) j = if decide (i = j) then f (child ch i) else child ch j.
Proof.
  intros Hl Hi. unfold child. destruct (decide (i = j)) as [<-|Hne].
  - replace (0 <=? i) with true by lia. rewrite list_lookup_alter_eq.
    destruct (lookup_lt_is_Some_2 ch (Z.to_nat i)) as [c Hc]; [lia|]. by rewrite Hc.
  - case_match; [|done]. rewrite list_lookup_alter_ne; [done|]. lia.
Qed.

Lemma child_set (ch : list (option tree)) i c j :
  length ch = 16%nat -> 0 <= i < 16 -> child (set_child ch i c) j = if decide (i = j) then c else child ch j.
Proof.
  intros Hl Hi. unfold child, set_child. destruct (decide (i = j)) as [<-|Hne].
  - replace (0 <=? i) with true by lia. rewrite list_lookup_insert_eq by lia. done.
  - case_match; [|done]. rewrite list_lookup_insert_ne by lia. done.
Qed.

Lemma length_set_child ch i c : length (set_child ch i c) = length ch.
Proof. apply length_insert. Qed.

Lemma child_none i : child (replicate 16 None : list (option tree)) i = None.
Proof.
  unfold child. case_match; [|done]. destruct (_ !! _) as [c|] eqn:E; [|done].
  by apply lookup_replicate in E as [-> _].
Qed.

Lemma child_range {A} (ch : list (option A)) i t : length ch = 16%nat -> child ch i = Some t -> 0 <= i < 16.
Proof. intros Hl [Hi Hc]%child_Some. apply lookup_lt_Some in Hc. lia. Qed.

Lemma elem_of_present {A} (ch : list (option A)) i :
  length ch = 16%nat -> i ∈ present ch <-> exists t, ch !! i = Some (Some t).
Proof.
  intros Hl. unfold present. rewrite list_elem_of_In, filter_In, <-list_elem_of_In, elem_of_seq. split.
  - intros [_ E]. destruct (ch !! i) as [[t|]|]; [by eauto|done|done].
  - intros [t E]. pose proof (lookup_lt_Some _ _ _ E). split; [lia|by rewrite E].
Qed.

Lemma NoDup_present {A} (ch : list (option A)) : NoDup (present ch).
Proof. apply NoDup_ListNoDup, List.NoDup_filter, NoDup_ListNoDup, NoDup_seq. Qed.

(** Two children suffice. *)
Lemma present_two {A} (ch : list (option A)) i j t u :
  length ch = 16%nat -> child ch i = Some t -> child ch j = Some u -> i <> j -> (2 <= length (present ch))%nat.
Proof.
  intros Hl [Hi Ht]%child_Some [Hj Hu]%child_Some Hne.
  assert (Z.to_nat i ∈ present ch) as H1 by (apply elem_of_present; eauto).
  assert (Z.to_nat j ∈ present ch) as H2 by (apply elem_of_present; eauto).
  destruct (present ch) as [|a [|b l]]; cbn; [set_solver| |lia].
  apply list_elem_of_singleton in H1, H2. lia.
Qed.

Lemma two_present {A} (ch : list (option A)) :
  length ch = 16%nat -> (2 <= length (present ch))%nat ->
  exists i j t u, i <> j /\ child ch i = Some t /\ child ch j = Some u.
Proof.
  intros Hl Hp. pose proof (NoDup_present ch) as Hn.
  destruct (present ch) as [|a [|b l]] eqn:E; cbn in Hp; [lia|lia|].
  assert (a ∈ present ch) as Ha by (rewrite E; set_solver).
  assert (b ∈ present ch) as Hb by (rewrite E; set_solver).
  apply elem_of_present in Ha as [t Ha]; [|done]. apply elem_of_present in Hb as [u Hb]; [|done].
  exists (Z.of_nat a), (Z.of_nat b), t, u. split.
  - intros Eab. apply NoDup_cons in Hn as [Hn _]. apply Hn. replace b with a by lia. set_solver.
  - rewrite !child_Some, !Nat2Z.id. split; split; (done || lia).
Qed.

(** ** Lookups *)

Lemma tlookup_branch ch i q : tlookup (TBranch ch) (i :: q) = match child ch i with Some t => tlookup t q | None => None end.
Proof. cbn [tlookup]. apply (child_map (fun t => tlookup t q)). Qed.

Lemma tlookup_extend k t p : tlookup (extend k t) p = match strip k p with Some q => tlookup t q | None => None end.
Proof. by destruct k. Qed.

Lemma strip_app_l k k' p : strip (k ++ k') p = match strip k p with Some q => strip k' q | None => None end.
Proof.
  revert p. induction k as [|x k IH]; intros p; [done|]. cbn. destruct p as [|y p]; [done|].
  destruct (x =? y); [apply IH|done].
Qed.

Lemma tlookup_leaf k v p : tlookup (TLeaf k v) p = match strip k p with Some [] => Some v | _ => None end.
Proof.
  cbn. case_bool_decide as E.
  - subst p. rewrite <-(app_nil_r k) at 2. by rewrite strip_app.
  - destruct (strip k p) as [[|i q]|] eqn:Es; [|done|done]. apply strip_Some in Es. by rewrite app_nil_r in Es.
Qed.

Lemma tlookup_prepend k t p : tlookup (prepend k t) p = match strip k p with Some q => tlookup t q | None => None end.
Proof.
  destruct t as [k' v|k' t|ch]; cbn [prepend]; [|cbn [tlookup]|done].
  - rewrite tlookup_leaf, strip_app_l. destruct (strip k p); [by rewrite tlookup_leaf|done].
  - rewrite strip_app_l. by destruct (strip k p).
Qed.

Lemma tlookup_fork x a y b p :
  0 <= x < 16 -> 0 <= y < 16 ->
  tlookup (fork x a y b) p
  = match p with
    | [] => None
    | i :: q => if decide (y = i) then tlookup b q else if decide (x = i) then tlookup a q else None
    end.
Proof.
  intros Hx Hy. unfold fork. destruct p as [|i q]; [done|]. rewrite tlookup_branch.
  rewrite child_set by (try done; by rewrite length_set_child, length_replicate).
  case_decide; [done|]. rewrite child_set by (try done; by rewrite length_replicate).
  case_decide; [done|]. by rewrite child_none.
Qed.

Lemma canon_lookup n t p v : canon n t -> tlookup t p = Some v -> length p = n /\ nibs p /\ v <> [].
Proof.
  intros Hc. revert p v. induction Hc as [k w Hk Hw|k n ch Hk Hn Hc IH|n ch Hl Hp Hc IH]; intros p v E.
  - cbn in E. case_bool_decide; [|done]. naive_solver.
  - cbn [tlookup] in E. destruct (strip k p) as [q|] eqn:Es; [|done]. apply strip_Some in Es as ->.
    apply IH in E as (<- & Hq & Hv). rewrite length_app, nibs_app. done.
  - destruct p as [|i q]; [done|]. rewrite tlookup_branch in E. destruct (child ch i) as [t|] eqn:Ei; [|done].
    pose proof (child_range _ _ _ Hl Ei) as Hr. apply child_Some in Ei as [_ Ei].
    destruct (IH _ _ Ei q v E) as (<- & Hq & Hv). split; [done|]. split; [by constructor|done].
Qed.

Lemma canon_inhabited n t : canon n t -> exists p v, tlookup t p = Some v.
Proof.
  induction 1 as [k v Hk Hv|k n ch Hk Hn Hc IH|n ch Hl Hp Hc IH].
  - exists k, v. cbn. by rewrite bool_decide_eq_true_2.
  - destruct IH as (p & v & E). exists (k ++ p), v. cbn [tlookup]. by rewrite strip_app.
  - destruct (two_present ch Hl Hp) as (i & j & t & u & _ & Ei & _).
    destruct (IH (Z.to_nat i) t) as (p & v & E); [by apply child_Some in Ei as [_ ?]|].
    exists (i :: p), v. by rewrite tlookup_branch, Ei.
Qed.

(** A branch holds keys with two different first nibbles. *)
Lemma branch_two n ch : canon n (TBranch ch) ->
  exists i p v j q w, i <> j /\ tlookup (TBranch ch) (i :: p) = Some v /\ tlookup (TBranch ch) (j :: q) = Some w.
Proof.
  intros Hc. inversion Hc as [| |n' ch' Hl Hp Hch]; subst.
  destruct (two_present ch Hl Hp) as (i & j & t & u & Hne & Ei & Ej).
  destruct (canon_inhabited n' t) as (p & v & Ep); [apply child_Some in Ei as [_ ?]; eauto|].
  destruct (canon_inhabited n' u) as (q & w & Eq); [apply child_Some in Ej as [_ ?]; eauto|].
  exists i, p, v, j, q, w. by rewrite !tlookup_branch, Ei, Ej.
Qed.

(** ** Insertion *)

Lemma tree_branch_or_nil n k t : canon n (TExt k t) -> exists ch, t = TBranch ch.
Proof. inversion 1; eauto. Qed.

Lemma canon_extend k n ch : nibs k -> canon n (TBranch ch) -> canon (length k + n) (extend k (TBranch ch)).
Proof. intros Hk Hc. destruct k as [|x k]; [done|]. by constructor. Qed.

Lemma length_fork x a y b : length (set_child (set_child (replicate 16 None) x (Some a)) y (Some b)) = 16%nat.
Proof. by rewrite !length_set_child, length_replicate. Qed.

Lemma child_fork x a y b i :
  0 <= x < 16 -> 0 <= y < 16 ->
  child (set_child (set_child (replicate 16 None) x (Some a)) y (Some b)) i
  = if decide (y = i) then Some b else if decide (x = i) then Some a else None.
Proof.
  intros Hx Hy. rewrite child_set by (try done; by rewrite length_set_child, length_replicate).
  case_decide; [done|]. rewrite child_set by (try done; by rewrite length_replicate).
  case_decide; [done|]. apply child_none.
Qed.

Lemma lookup_child {A} (ch : list (option A)) i t : ch !! i = Some (Some t) -> child ch (Z.of_nat i) = Some t.
Proof. intros E. apply child_Some. rewrite Nat2Z.id. split; [lia|done]. Qed.

Lemma canon_fork n x a y b :
  0 <= x < 16 -> 0 <= y < 16 -> x <> y -> canon n a -> canon n b -> canon (S n) (fork x a y b).
Proof.
  intros Hx Hy Hne Ha Hb. unfold fork. constructor; [apply length_fork| |].
  - apply (present_two _ x y a b); [apply length_fork|..|done]; rewrite child_fork by done.
    + by rewrite decide_False, decide_True by congruence.
    + by rewrite decide_True.
  - intros i t E%lookup_child. rewrite child_fork in E by done. repeat case_decide; naive_solver.
Qed.

Lemma canon_child n ch i t : canon (S n) (TBranch ch) -> child ch i = Some t -> canon n t.
Proof. intros Hc [_ Ei]%child_Some. inversion Hc; subst. eauto. Qed.

Lemma length_present_mono {A} (ch ch' : list (option A)) :
  (forall i, is_Some (child ch i) -> is_Some (child ch' i)) -> length ch = 16%nat -> length ch' = 16%nat ->
  (2 <= length (present ch))%nat -> (2 <= length (present ch'))%nat.
Proof.
  intros Hm Hl Hl' Hp. destruct (two_present ch Hl Hp) as (i & j & t & u & Hne & Ei & Ej).
  destruct (Hm i) as [t' Et]; [eauto|]. destruct (Hm j) as [u' Eu]; [eauto|].
  by apply (present_two ch' i j t' u').
Qed.

Definition oinsert (t : option tree) (p : Path) (v : bytes) : tree :=
  match t with Some t => tinsert t p v | None => TLeaf p v end.

Lemma tinsert_branch ch i q v : tinsert (TBranch ch) (i :: q) v = TBranch (alter (fun c => Some (oinsert c q v)) (Z.to_nat i) ch).
Proof. done. Qed.

Lemma split_lengths (pre : Path) (x : Z) k y p :
  length (pre ++ x :: k) = length (pre ++ y :: p) -> length k = length p.
Proof. rewrite !length_app. cbn. lia. Qed.

Lemma strip_cases pre q : (exists r, q = pre ++ r /\ strip pre q = Some r) \/ strip pre q = None.
Proof. destruct (strip pre q) as [r|] eqn:E; [|by right]. left. exists r. split; [by apply strip_Some|done]. Qed.

Lemma app_cons_ne (pre : Path) x k y p : x <> y -> pre ++ x :: k <> pre ++ y :: p.
Proof. intros Hne E. apply app_inv_head in E. congruence. Qed.

(** The split of an insertion: a fork below the common prefix. *)
Lemma tlookup_split pre x a y p v q :
  0 <= x < 16 -> 0 <= y < 16 -> x <> y ->
  tlookup (extend pre (fork x a y (TLeaf p v))) q
  = if decide (pre ++ y :: p = q) then Some v
    else match strip (pre ++ [x]) q with Some r => tlookup a r | None => None end.
Proof.
  intros Hx Hy Hne. rewrite tlookup_extend, strip_app_l. destruct (strip_cases pre q) as [(r & -> & ->)|E].
  - rewrite tlookup_fork by done. destruct r as [|i r].
    + rewrite decide_False; [done|]. intros E. by apply app_inv_head in E.
    + cbn [strip]. destruct (decide (y = i)) as [<-|Hi].
      * cbn. case_bool_decide as E; [rewrite decide_True by congruence; done|].
        rewrite decide_False; [by replace (x =? y) with false by lia|].
        intros E'. apply app_inv_head in E'. congruence.
      * rewrite (decide_False (P := pre ++ y :: p = pre ++ i :: r)); [|by apply app_cons_ne].
        case_decide as E; [replace (x =? i) with true by lia; done|]. by replace (x =? i) with false by lia.
  - rewrite E. rewrite decide_False; [done|]. intros <-. by rewrite strip_app in E.
Qed.

Lemma strip_refl k q : (match strip k q with Some [] => true | _ => false end) = bool_decide (k = q).
Proof.
  case_bool_decide as E.
  - subst. rewrite <-(app_nil_r q) at 2. by rewrite strip_app.
  - destruct (strip k q) as [[|]|] eqn:Es; try done. apply strip_Some in Es. by rewrite app_nil_r in Es.
Qed.

Lemma tinsert_spec n t p v :
  canon n t -> length p = n -> nibs p -> v <> [] ->
  canon n (tinsert t p v)
  /\ forall q, tlookup (tinsert t p v) q = if decide (p = q) then Some v else tlookup t q.
Proof.
  intros Hc. revert p. induction Hc as [k w Hk Hw|k n ch Hk Hn Hc IH|n ch Hl Hp Hc IH]; intros p Hlp Hnp Hv.
  - cbn [tinsert]. case_bool_decide as E.
    + subst p. split; [by constructor|]. intros q. cbn. repeat case_decide; repeat case_bool_decide; congruence.
    + pose proof (common_prefix_lt k p (eq_sym Hlp) E) as Hlt.
      destruct (common_prefix_split k p) as (pre & x & k' & y & p' & -> & -> & Hne & _); [lia..|].
      destruct (split_parts pre x k' y p' Hne) as (_ & -> & _ & -> & -> & -> & -> & _).
      apply nibs_app in Hk as [Hpre [Hx Hk']%Forall_cons], Hnp as [_ [Hy Hp']%Forall_cons].
      apply split_lengths in Hlp. split.
      * rewrite length_app. unfold fork. apply canon_extend; [done|]. cbn [length].
        apply canon_fork; [done..|by constructor|]. rewrite <-Hlp. by constructor.
      * intros q. rewrite tlookup_split by done. case_decide; [done|]. rewrite tlookup_leaf.
        replace (pre ++ x :: k') with ((pre ++ [x]) ++ k') by by rewrite <-app_assoc. rewrite (strip_app_l (pre ++ [x])).
        destruct (strip (pre ++ [x]) q); [|done]. by rewrite tlookup_leaf.
  - cbn [tinsert]. destruct (Nat.eqb_spec (common_prefix k p) (length k)) as [E|E].
    + rewrite E. pose proof (common_prefix_full k p E) as Ep. set (r := drop (length k) p) in *. clearbody r.
      subst p. rewrite length_app in Hlp. apply nibs_app in Hnp as [_ Hnr].
      assert (length r = n) as Hr by lia. destruct (IH r Hr Hnr Hv) as [IHc IHl]. split.
      * destruct r as [|i r]; [inversion Hc; subst; done|]. rewrite tinsert_branch in *. by constructor.
      * intros q. cbn [tlookup]. destruct (strip_cases k q) as [(r' & -> & ->)|Es].
        -- rewrite IHl. repeat case_decide; try done; simplify_eq.
        -- rewrite Es. rewrite decide_False; [done|]. intros <-. by rewrite strip_app in Es.
    + pose proof (common_prefix_le k p). 
      destruct (common_prefix_split k p) as (pre & x & k' & y & p' & -> & -> & Hne & _); [lia..|].
      destruct (split_parts pre x k' y p' Hne) as (_ & -> & _ & -> & -> & -> & -> & _).
      apply nibs_app in Hn as [Hpre [Hx Hk']%Forall_cons], Hnp as [_ [Hy Hp']%Forall_cons].
      rewrite !length_app in Hlp. cbn in Hlp. split.
      * rewrite length_app. unfold fork. rewrite <-Nat.add_assoc. apply canon_extend; [done|]. cbn [length Nat.add].
        apply canon_fork; [done..|by apply canon_extend|]. replace (length k' + n)%nat with (length p') by lia.
        by constructor.
      * intros q. rewrite tlookup_split by done. case_decide; [done|]. cbn [tlookup].
        replace (pre ++ x :: k') with ((pre ++ [x]) ++ k') by by rewrite <-app_assoc. rewrite (strip_app_l (pre ++ [x])).
        destruct (strip (pre ++ [x]) q); [|done]. apply tlookup_extend.
  - destruct p as [|i p]; [done|]. injection Hlp as Hlp. apply Forall_cons in Hnp as [Hi Hnp].
    rewrite tinsert_branch.
    assert (forall c, child ch i = c -> canon n (oinsert c p v)
      /\ forall q, tlookup (oinsert c p v) q
         = if decide (p = q) then Some v else match c with Some t => tlookup t q | None => None end) as Hins.
    { intros [t|] Ec; cbn [oinsert].
      - apply child_Some in Ec as [_ Ec]. by apply (IH _ _ Ec).
      - split; [rewrite <-Hlp; by constructor|]. intros q. cbn. repeat case_decide; case_bool_decide; congruence. }
    destruct (Hins _ eq_refl) as [Hcan Hlook]. split.
    + constructor; [by rewrite length_alter| |].
      * apply (length_present_mono ch); [|done|by rewrite length_alter|done].
        intros j Hj. rewrite child_alter by done. by case_decide.
      * intros j t Ej%lookup_child. rewrite child_alter in Ej by done. case_decide; [by simplify_eq|].
        apply child_Some in Ej as [_ Ej]. eauto.
    + intros [|j q]; [done|]. rewrite !tlookup_branch, child_alter by done. case_decide as Eij.
      * subst j. rewrite Hlook. repeat case_decide; congruence.
      * rewrite decide_False by congruence. done.
Qed.

(** ** Removal *)

Lemma canon_prepend k n t : k <> [] -> nibs k -> canon n t -> canon (length k + n) (prepend k t).
Proof.
  intros Hk Hn Hc. destruct Hc as [k' v Hk' Hv|k' n ch Hk' Hn' Hc|n ch Hl Hp Hc]; cbn [prepend].
  - rewrite <-length_app. constructor; [by apply nibs_app|done].
  - rewrite Nat.add_assoc, <-length_app. constructor; [by destruct k|by apply nibs_app|done].
  - by repeat constructor.
Qed.

(** Only the given child is present. *)
Lemma present_single {A} (ch : list (option A)) i :
  length ch = 16%nat -> present ch = [i] ->
  exists t, child ch (Z.of_nat i) = Some t /\ forall j, j <> Z.of_nat i -> child ch j = None.
Proof.
  intros Hl E. assert (i ∈ present ch) as Hi by (rewrite E; set_solver).
  apply elem_of_present in Hi as [t Hi]; [|done]. exists t. split; [by apply lookup_child|].
  intros j Hj. destruct (child ch j) as [u|] eqn:Eu; [|done]. apply child_Some in Eu as [H0 Eu].
  assert (Z.to_nat j ∈ present ch) as Hin by (apply elem_of_present; eauto).
  rewrite E in Hin. apply list_elem_of_singleton in Hin. lia.
Qed.

Lemma collapse_spec n ch :
  length ch = 16%nat -> present ch <> [] -> (forall i t, child ch i = Some t -> canon n t) ->
  exists t', collapse ch = Some t' /\ canon (S n) t' /\ forall q, tlookup t' q = tlookup (TBranch ch) q.
Proof.
  intros Hl Hp Hc. unfold collapse. destruct (present ch) as [|i [|j l]] eqn:E; [done| |].
  - destruct (present_single ch i Hl E) as (t & Et & Hoth). pose proof (child_range _ _ _ Hl Et) as Hr.
    pose proof Et as Et'. apply child_Some in Et' as [_ Ei]. rewrite Nat2Z.id in Ei. rewrite Ei.
    eexists. split; [done|]. split.
    + apply (canon_prepend [Z.of_nat i] n); [done| |by eapply Hc]. by apply Forall_singleton.
    + intros q. rewrite tlookup_prepend. destruct q as [|x q]; [done|]. rewrite tlookup_branch. cbn [strip].
      destruct (Z.eqb_spec (Z.of_nat i) x) as [<-|Hx]; [by rewrite Et|]. by rewrite Hoth.
  - eexists. split; [done|]. split; [|done]. constructor; [done|rewrite E; cbn; lia|].
    intros x t Ex%lookup_child. eauto.
Qed.

Lemma present_nonempty {A} (ch : list (option A)) i t : length ch = 16%nat -> child ch i = Some t -> present ch <> [].
Proof.
  intros Hl [_ E]%child_Some Hn. assert (Z.to_nat i ∈ present ch) as Hi by (apply elem_of_present; eauto).
  rewrite Hn in Hi. set_solver.
Qed.

(** Dropping a child of a branch leaves one. *)
Lemma other_child {A} (ch : list (option A)) i :
  length ch = 16%nat -> (2 <= length (present ch))%nat -> exists j t, j <> i /\ child ch j = Some t.
Proof.
  intros Hl Hp. destruct (two_present ch Hl Hp) as (a & b & t & u & Hne & Ea & Eb).
  destruct (decide (a = i)); [exists b, u|exists a, t]; split; congruence.
Qed.

Lemma tremove_branch ch i q :
  tremove (TBranch ch) (i :: q) = collapse (alter (fun c => c ≫= fun t => tremove t q) (Z.to_nat i) ch).
Proof. done. Qed.

Lemma tremove_ext k t p : tremove (TExt k t) p = prepend k <$> tremove t (drop (length k) p).
Proof. done. Qed.

Lemma tlookup_ext k t p : tlookup (TExt k t) p = match strip k p with Some q => tlookup t q | None => None end.
Proof. done. Qed.

Definition olookup (t : option tree) (p : Path) : option bytes := t ≫= fun t => tlookup t p.

Definition ocanon (n : nat) (t : option tree) : Prop := match t with Some t => canon n t | None => True end.

Lemma tremove_spec n t p v :
  canon n t -> tlookup t p = Some v ->
  ocanon n (tremove t p) /\ forall q, olookup (tremove t p) q = if decide (p = q) then None else tlookup t q.
Proof.
  intros Hc. revert p. induction Hc as [k w Hk Hw|k n ch Hk Hn Hc IH|n ch Hl Hp Hc IH]; intros p E.
  - cbn in *. split; [done|]. intros q. case_bool_decide; [|done]. subst. case_decide; [done|]. by rewrite bool_decide_eq_false_2.
  - rewrite tlookup_ext in E. rewrite tremove_ext. destruct (strip_cases k p) as [(r & -> & Es)|Es]; rewrite Es in E; [|done].
    rewrite drop_app_length. destruct (IH r E) as [IHc IHl].
    destruct (tremove (TBranch ch) r) as [t'|] eqn:Et; cbn [fmap option_fmap option_map].
    + split; [by apply canon_prepend|]. intros q. cbn [olookup mbind option_bind]. rewrite tlookup_prepend, tlookup_ext.
      destruct (strip_cases k q) as [(r' & -> & ->)|Eq].
      * cbn in IHl. rewrite IHl. by repeat case_decide; simplify_eq.
      * rewrite Eq. by case_decide.
    + split; [done|]. intros q. cbn [olookup mbind option_bind] in *. rewrite tlookup_ext.
      destruct (strip_cases k q) as [(r' & -> & ->)|Eq]; [|rewrite Eq; by case_decide].
      specialize (IHl r'). by repeat case_decide; simplify_eq.
  - destruct p as [|i p]; [done|]. rewrite tlookup_branch in E. destruct (child ch i) as [t|] eqn:Ei; [|done].
    pose proof (child_range _ _ _ Hl Ei) as Hr. pose proof Ei as [_ Ei']%child_Some.
    destruct (IH _ _ Ei' p E) as [IHc IHl]. rewrite tremove_branch. set (f := fun c => c ≫= fun t => tremove t p).
    destruct (other_child ch i Hl Hp) as (j & u & Hj & Eu).
    destruct (collapse_spec n (alter f (Z.to_nat i) ch)) as (t' & -> & Hc' & Hl').
    { by rewrite length_alter. }
    { eapply (present_nonempty _ j u); [by rewrite length_alter|]. by rewrite child_alter, decide_False. }
    { intros x y Ex. rewrite child_alter in Ex by done. case_decide.
      - rewrite Ei in Ex. cbn in Ex. by rewrite Ex in IHc.
      - apply child_Some in Ex as [_ Ex]. eauto. }
    split; [done|]. intros [|x q]; cbn [olookup mbind option_bind]; rewrite Hl'; [done|].
    rewrite !tlookup_branch, child_alter by done. case_decide as Ex.
    + subst x. rewrite Ei. change (olookup (tremove t p) q = if decide (i :: p = i :: q) then None else tlookup t q).
      rewrite IHl.
      repeat case_decide; congruence.
    + by rewrite decide_False by congruence.
Qed.

(** ** A canonical tree is determined by its content *)

Lemma ext_vs_branch n k ch ch' :
  k <> [] -> canon n (TBranch ch') -> (forall p, tlookup (TExt k (TBranch ch)) p = tlookup (TBranch ch') p) -> False.
Proof.
  intros Hk Hc Heq. destruct (branch_two n ch' Hc) as (i & p & v & j & q & w & Hne & Ei & Ej).
  rewrite <-Heq in Ei, Ej. destruct k as [|x k]; [done|]. cbn [tlookup strip] in Ei, Ej.
  destruct (Z.eqb_spec x i), (Z.eqb_spec x j); simplify_eq.
Qed.

(** A tree that is not a leaf has two keys. *)
Lemma canon_two n t :
  canon n t -> (forall k v, t <> TLeaf k v) ->
  exists p v q w, p <> q /\ tlookup t p = Some v /\ tlookup t q = Some w.
Proof.
  intros Hc Hnl. destruct Hc as [k v Hk Hv|k n ch Hk Hn Hc|n ch Hl Hp Hc]; [by destruct (Hnl k v)|..].
  - destruct (branch_two n ch Hc) as (i & p & v & j & q & w & Hne & Ei & Ej).
    exists (k ++ i :: p), v, (k ++ j :: q), w. split; [by apply app_cons_ne|]. cbn [tlookup]. by rewrite !strip_app.
  - destruct (branch_two (S n) ch) as (i & p & v & j & q & w & Hne & Ei & Ej); [by constructor|].
    exists (i :: p), v, (j :: q), w. split; [congruence|done].
Qed.

Lemma leaf_unique k v p q a b : tlookup (TLeaf k v) p = Some a -> tlookup (TLeaf k v) q = Some b -> p = q.
Proof. cbn. repeat case_bool_decide; congruence. Qed.

Lemma leaf_content n k v t :
  canon n t -> (forall p, tlookup (TLeaf k v) p = tlookup t p) -> t = TLeaf k v.
Proof.
  intros Hc Heq. assert ((exists k v, t = TLeaf k v) \/ forall k v, t <> TLeaf k v) as [(k' & w & ->)|Hnl].
  { destruct t; [eauto|by right..]. }
  - specialize (Heq k'). cbn in Heq. rewrite (bool_decide_eq_true_2 (k' = k')) in Heq by done.
    case_bool_decide; congruence.
  - destruct (canon_two n t Hc Hnl) as (p & a & q & b & Hne & Ep & Eq). rewrite <-Heq in Ep, Eq.
    destruct Hne. eapply leaf_unique; eassumption.
Qed.

Lemma strip_both k k' i p j q :
  i <> j -> strip k' (k ++ i :: p) <> None -> strip k' (k ++ j :: q) <> None -> exists r, k = k' ++ r.
Proof.
  intros Hne. revert k'. induction k as [|x k IH]; intros [|y k'] H1 H2; cbn in *; eauto.
  - destruct (Z.eqb_spec y i), (Z.eqb_spec y j); congruence.
  - destruct (Z.eqb_spec y x) as [->|]; [|done]. destruct (IH k' H1 H2) as [r ->]. by exists r.
Qed.

Lemma ext_key n n' k ch k' ch' :
  canon n (TBranch ch) -> canon n' (TBranch ch') ->
  (forall p, tlookup (TExt k (TBranch ch)) p = tlookup (TExt k' (TBranch ch')) p) -> exists r, k = k' ++ r.
Proof.
  intros Hc Hc' Heq. destruct (branch_two n ch Hc) as (i & p & v & j & q & w & Hne & Ei & Ej).
  assert (forall i p v, tlookup (TBranch ch) (i :: p) = Some v -> strip k' (k ++ i :: p) <> None) as Hs.
  { intros x y z Ez Hn. specialize (Heq (k ++ x :: y)). cbn [tlookup] in Heq. rewrite strip_app, Hn in Heq.
    change (tlookup (TBranch ch) (x :: y) = None) in Heq. congruence. }
  by apply (strip_both k k' i p j q); [|eapply Hs..].
Qed.

Lemma ext_key_eq n n' k ch k' ch' :
  canon n (TBranch ch) -> canon n' (TBranch ch') ->
  (forall p, tlookup (TExt k (TBranch ch)) p = tlookup (TExt k' (TBranch ch')) p) -> k = k'.
Proof.
  intros Hc Hc' Heq. destruct (ext_key _ _ _ _ _ _ Hc Hc' Heq) as [r ->].
  destruct (ext_key _ _ _ _ _ _ Hc' Hc (fun p => eq_sym (Heq p))) as [r' E].
  assert (length r = 0%nat) as Hr by (apply (f_equal length) in E; rewrite !length_app in E; lia).
  apply nil_length_inv in Hr as ->. by rewrite app_nil_r.
Qed.

Lemma children_ext {A} (ch ch' : list (option A)) :
  length ch = 16%nat -> length ch' = 16%nat -> (forall i, 0 <= i -> child ch i = child ch' i) -> ch = ch'.
Proof.
  intros Hl Hl' Heq. apply list_eq. intros i. specialize (Heq (Z.of_nat i) (Zle_0_nat i)).
  rewrite !child_nat in Heq.
  destruct (decide (i < 16)%nat).
  - destruct (lookup_lt_is_Some_2 ch i) as [c Ec]; [lia|]. destruct (lookup_lt_is_Some_2 ch' i) as [c' Ec']; [lia|].
    rewrite Ec, Ec' in *. cbn in Heq. congruence.
  - rewrite !lookup_ge_None_2 by lia. done.
Qed.

Lemma canon_content n t t' :
  canon n t -> canon n t' -> (forall p, tlookup t p = tlookup t' p) -> t = t'.
Proof.
  intros Hc. revert t'. induction Hc as [k w Hk Hw|k n ch Hk Hn Hc IH|n ch Hl Hp Hc IH]; intros t' Hc' Heq.
  - symmetry. by eapply leaf_content.
  - destruct t' as [k' v|k' t'|ch'].
    + eapply leaf_content; [by constructor|]. intros p. by rewrite Heq.
    + inversion Hc' as [|k0 n' ch' Hk' Hn' Hb|]; subst. pose proof (ext_key_eq _ _ _ _ _ _ Hc Hb Heq) as ->.
      assert (n' = n) as -> by lia. f_equal. apply IH; [done|]. intros p. specialize (Heq (k' ++ p)).
      cbn [tlookup] in Heq. by rewrite !strip_app in Heq.
    + by destruct (ext_vs_branch _ k ch ch' Hk Hc' Heq).
  - destruct t' as [k' v|k' t'|ch'].
    + eapply leaf_content; [by constructor|]. intros p. by rewrite Heq.
    + inversion Hc' as [|k0 n' ch' Hk' Hn' Hb|]; subst.
      destruct (ext_vs_branch (S n) k' ch' ch Hk'); [by constructor|]. intros p. by rewrite Heq.
    + inversion Hc' as [| |n' ? Hl' Hp' Hch']; subst. f_equal. apply children_ext; [done..|]. intros i Hi.
      assert (forall p, olookup (child ch i) p = olookup (child ch' i) p) as Hi'.
      { intros p. specialize (Heq (i :: p)). by rewrite !tlookup_branch in Heq. }
      destruct (child ch i) as [t|] eqn:Et, (child ch' i) as [t'|] eqn:Et'; [f_equal| | |done].
      * apply child_Some in Et as [_ Et]. eapply IH; [done|by eapply canon_child|apply Hi'].
      * destruct (canon_inhabited n t) as (p & v & E); [by apply child_Some in Et as [_ ?]; eauto|].
        specialize (Hi' p). cbn in Hi'. congruence.
      * destruct (canon_inhabited n t') as (p & v & E); [by eapply canon_child|].
        specialize (Hi' p). cbn in Hi'. congruence.
Qed.
