(* ===== verification/TrieCodec.v ===== *)
(** * Node encoding

    The encoding of a reference tree ([enc]), the node that stands at its root with every child
    resolved ([root_node]), and that reading the stored encoding back gives that node.  The laws of RLP
    strings and headers (crate alloy-rlp) are [NodeRlpLaws]. *)

From S2P Require Import Prelude Types TrieIface Trie TrieTree.
From stdpp Require Import base list list_numbers gmap fin_maps.
From Stdlib Require Import ZArith Lia.

Open Scope Z_scope.

(** Documented behaviour of RLP: an encoded string ends with its payload, the empty string is
    [0x80], and reading the header of an encoded item gives its kind, the payload's length and the
    bytes from the payload on, whatever follows the item. *)
Class NodeRlpLaws (N : NodeRlp) : Prop := {
  rlp_string_suffix s : exists h, rlp_string s = h ++ s;
  rlp_string_nil : rlp_string [] = [EMPTY_STRING_CODE];
  rlp_string_decode s r : rlp_header_decode (rlp_string s ++ r) = Some (false, Z.of_nat (length s), s ++ r);
  rlp_list_decode p r : rlp_header_decode (list_of p ++ r) = Some (true, Z.of_nat (length p), p ++ r);
}.

(** ** Nibbles and bytes *)

Lemma nibble_pair a b : 0 <= a < 16 -> 0 <= b < 16 -> Z.lor (Z.shiftl a 4) b = a * 16 + b.
Proof.
  intros Ha Hb. rewrite Z.shiftl_mul_pow2 by lia. change (2 ^ 4) with 16.
  rewrite <-Z.lxor_lor, <-Z.add_nocarry_lxor; [done|..];
    apply Z.bits_inj_iff; intros i; rewrite Z.land_spec, Z.bits_0; change 16 with (2 ^ 4);
    (destruct (decide (i < 0)); [by rewrite Z.testbit_neg_r by lia|]);
    (destruct (decide (i < 4)); [by rewrite Z.mul_pow2_bits_low by lia|]);
    rewrite (Z.bits_above_log2 b), andb_false_r; [done|lia| |done|lia|].
  all: destruct (decide (b = 0)) as [->|]; [cbn; lia|]; apply Z.log2_lt_pow2; [lia|].
  all: apply Z.lt_le_trans with (2 ^ 4); [lia|apply Z.pow_le_mono_r; lia].
Qed.

Lemma high_nibble a b : 0 <= a -> 0 <= b < 16 -> Z.shiftr (a * 16 + b) 4 = a.
Proof. intros. rewrite Z.shiftr_div_pow2 by lia. change (2 ^ 4) with 16. rewrite Z.div_add_l by lia. rewrite Z.div_small; lia. Qed.

Lemma low_nibble a b : 0 <= b < 16 -> Z.land (a * 16 + b) 15 = b.
Proof.
  intros. change 15 with (Z.ones 4). rewrite Z.land_ones by lia. change (2 ^ 4) with 16.
  rewrite Z.add_comm, Z.mod_add by lia. by apply Z.mod_small.
Qed.

Definition byte_nibbles (b : Z) : Path := [Z.shiftr b 4; Z.land b 15].

Lemma byte_nibbles_range b : 0 <= b < 256 -> nibs (byte_nibbles b).
Proof.
  intros Hb. unfold byte_nibbles. change 15 with (Z.ones 4). rewrite Z.land_ones, Z.shiftr_div_pow2 by lia.
  change (2 ^ 4) with 16. pose proof (Z.div_mod b 16 ltac:(lia)). pose proof (Z.mod_pos_bound b 16 ltac:(lia)).
  apply Forall_cons; split; [lia|]. apply Forall_cons; split; [lia|by apply Forall_nil].
Qed.

Lemma pairs_induction (P : Path -> Prop) :
  P [] -> (forall a b l, Nat.odd (length l) = false -> P l -> P (a :: b :: l)) ->
  forall l, Nat.odd (length l) = false -> P l.
Proof.
  intros H0 H2. fix IH 1. intros [|a [|b l]] Hl; [done|done|]. apply H2; [done|]. by apply IH.
Qed.

Lemma hex_pairs_nibbles l : Nat.odd (length l) = false -> nibs l -> concat (map byte_nibbles (hex_pairs l)) = l.
Proof.
  revert l. apply (pairs_induction (fun l => nibs l -> concat (map byte_nibbles (hex_pairs l)) = l)); [done|].
  intros a b l _ IH (Ha & (Hb & Hl)%Forall_cons)%Forall_cons. cbn [hex_pairs map concat].
  rewrite IH by done. unfold byte_nibbles. rewrite nibble_pair by done.
  by rewrite high_nibble, low_nibble by lia.
Qed.

Lemma flag_byte (f n : Z) : 0 <= f < 4 -> 0 <= n < 16 ->
  Z.shiftr (Z.lor (Z.shiftl f 4) n) 4 = f /\ Z.land (Z.lor (Z.shiftl f 4) n) 15 = n.
Proof. intros Hf Hn. rewrite nibble_pair by lia. by rewrite high_nibble, low_nibble by lia. Qed.

(** Reading a hex-prefix path gives the nibbles and the kind back. *)
Lemma hex_prefix_round_trip k leaf : nibs k -> hex_prefix_decode (hex_prefix k leaf) = Some (k, leaf).
Proof.
  intros Hk. unfold hex_prefix. destruct (Nat.odd (length k)) eqn:Ho.
  - destruct k as [|n k]; [done|]. apply Forall_cons in Hk as [Hn Hk]. cbn [hex_prefix_decode].
    set (f := (if leaf then 2 else 0) + 1). assert (f = if leaf then 3 else 1) as Ef by by destruct leaf.
    destruct (flag_byte f n) as [E1 E2]; [by destruct leaf|done|]. rewrite E1, E2.
    replace (3 <? f) with false by (destruct leaf; lia).
    change (fun b => [Z.shiftr b 4; Z.land b 15]) with byte_nibbles.
    rewrite hex_pairs_nibbles; [by destruct leaf|by rewrite <-Nat.negb_even, <-Nat.odd_succ; cbn in *; rewrite Ho|done].
  - set (f := (if leaf then 2 else 0) + 0).
    assert (hex_prefix_decode (Z.shiftl f 4 :: hex_pairs k) = Some (k, leaf)) as Hd.
    { cbn [hex_prefix_decode]. destruct (flag_byte f 0) as [E1 _]; [by destruct leaf|lia|].
      rewrite Z.lor_0_r in E1. rewrite E1. replace (3 <? f) with false by (destruct leaf; lia).
      change (fun b => [Z.shiftr b 4; Z.land b 15]) with byte_nibbles.
      rewrite hex_pairs_nibbles by done. by destruct leaf. }
    by destruct k.
Qed.

(** ** Keys as paths *)

Lemma to_nibbles_length k : length (to_nibbles k) = 64%nat.
Proof.
  unfold to_nibbles. assert (forall l : bytes, length (concat (map byte_nibbles l)) = (2 * length l)%nat) as Hl.
  { induction l as [|b l IH]; [done|]. cbn [map concat]. rewrite length_app, IH. cbn. lia. }
  change (fun b => [Z.shiftr b 4; Z.land b 15]) with byte_nibbles. by rewrite Hl, be_bytes_length.
Qed.

Lemma to_nibbles_range k : nibs (to_nibbles k).
Proof.
  unfold to_nibbles. change (fun b => [Z.shiftr b 4; Z.land b 15]) with byte_nibbles.
  pose proof (be_bytes_range 32 k) as Hb. induction Hb as [|b l Hb Hl IH]; [by apply Forall_nil|].
  cbn [map concat]. apply nibs_app. split; [by apply byte_nibbles_range|done].
Qed.

Lemma byte_pair b : Z.lor (Z.shiftl (Z.shiftr b 4) 4) (Z.land b 15) = b.
Proof.
  apply Z.bits_inj_iff. intros i. destruct (decide (i < 0)); [by rewrite !Z.testbit_neg_r by lia|].
  change 15 with (Z.ones 4). rewrite Z.lor_spec, Z.land_spec, Z.shiftl_spec, Z.ones_spec by lia.
  destruct (decide (i < 4)).
  - rewrite Z.testbit_neg_r, bool_decide_eq_true_2 by lia. by rewrite andb_true_r.
  - rewrite Z.shiftr_spec, bool_decide_eq_false_2 by lia. rewrite andb_false_r, orb_false_r. f_equal. lia.
Qed.

Lemma nibbles_hex_pairs (l : bytes) : hex_pairs (concat (map byte_nibbles l)) = l.
Proof. induction l as [|b l IH]; [done|]. cbn. by rewrite byte_pair, IH. Qed.

Lemma to_nibbles_inj k k' : in_range 256 k -> in_range 256 k' -> to_nibbles k = to_nibbles k' -> k = k'.
Proof.
  intros Hk Hk' E. apply (f_equal hex_pairs) in E. unfold to_nibbles in E.
  change (fun b => [Z.shiftr b 4; Z.land b 15]) with byte_nibbles in E. rewrite !nibbles_hex_pairs in E.
  by apply (be_bytes_inj 32) in E.
Qed.

Lemma hex_pairs_range l : nibs l -> byte_list (hex_pairs l).
Proof.
  revert l. fix IH 1. intros [|a [|b l]] Hl; cbn; [by apply Forall_nil..|].
  apply Forall_cons in Hl as [Ha [Hb Hl]%Forall_cons]. apply Forall_cons. split; [|by apply IH].
  rewrite nibble_pair by done. lia.
Qed.

Lemma hex_pairs_length l : Nat.odd (length l) = false -> length l = (2 * length (hex_pairs l))%nat.
Proof.
  revert l. apply (pairs_induction (fun l => length l = (2 * length (hex_pairs l))%nat)); [done|].
  intros a b l _ IH. cbn [hex_pairs length]. lia.
Qed.

(** Every path of 64 nibbles is that of a key. *)
Lemma to_nibbles_surj p : length p = 64%nat -> nibs p -> exists k, in_range 256 k /\ to_nibbles k = p.
Proof.
  intros Hl Hp. assert (Nat.odd (length p) = false) as Ho by by rewrite Hl.
  pose proof (hex_pairs_length p Ho) as Hh. rewrite Hl in Hh. assert (length (hex_pairs p) = 32%nat) as Hl' by lia.
  pose proof (hex_pairs_range p Hp) as Hr. exists (be_val (hex_pairs p)). split.
  - pose proof (be_val_range _ Hr) as R. by rewrite Hl' in R.
  - unfold to_nibbles. rewrite <-Hl', be_bytes_val by done. by apply hex_pairs_nibbles.
Qed.

(** ** Encoding trees *)

Section encoding.
Context `{K : Keccak} `{N : NodeRlp} `{NL : !NodeRlpLaws N}.

Fixpoint enc (t : tree) : bytes :=
  list_of (match t with
           | TLeaf k v => rlp_string (hex_prefix k true) ++ rlp_string v
           | TExt k t => rlp_string (hex_prefix k false) ++ encode_ref (child_ref (enc t))
           | TBranch ch =>
               concat (map (fun c => match c with
                                     | None => [EMPTY_STRING_CODE]
                                     | Some t => encode_ref (child_ref (enc t))
                                     end) ch) ++ [EMPTY_STRING_CODE]
           end).

Definition tref (t : tree) : bytes := child_ref (enc t).

(** The node at the root of a tree, its children resolved. *)
Definition root_node (t : tree) : Node :=
  match t with
  | TLeaf k v => Leaf k v
  | TExt k t => Ext k (Some (tref t))
  | TBranch ch => Branch (map (option_map (fun t => Some (tref t))) ch)
  end.

Definition child_item (c : option tree) : bytes :=
  match c with None => [EMPTY_STRING_CODE] | Some t => encode_ref (tref t) end.

Lemma encode_root_node t : encode_node (root_node t) = Some (enc t).
Proof.
  destruct t as [k v|k t|ch]; [done..|]. cbn [root_node encode_node].
  replace (mapM encode_child (map (option_map (λ t, Some (tref t))) ch)) with (Some (map child_item ch)); [done|].
  induction ch as [|c ch IH]; [done|]. cbn [map mapM]. rewrite <-IH. by destruct c.
Qed.

(** ** RLP items *)

(** [it] is an item of kind [l] with payload [b]. *)
Definition is_item (it : bytes) (l : bool) (b : bytes) : Prop :=
  it <> [] /\ (exists h, it = h ++ b)
  /\ forall r, rlp_header_decode (it ++ r) = Some (l, Z.of_nat (length b), b ++ r).

Lemma string_item s : is_item (rlp_string s) false s.
Proof.
  split; [|split; [apply rlp_string_suffix|intros r; apply rlp_string_decode]].
  destruct (rlp_string_suffix s) as [h E]. rewrite E. intros [-> ->]%app_nil. rewrite rlp_string_nil in E. done.
Qed.

Lemma empty_item : is_item [EMPTY_STRING_CODE] false [].
Proof. rewrite <-rlp_string_nil. apply string_item. Qed.

Lemma list_item p : is_item (list_of p) true p.
Proof.
  split; [|split; [by eexists|intros r; apply rlp_list_decode]].
  unfold list_of. intros [Eh ->]%app_nil.
  pose proof (rlp_list_decode [] [EMPTY_STRING_CODE]) as E. unfold list_of in E. rewrite Eh in E. cbn in E.
  pose proof (rlp_string_decode [] []) as E'. rewrite rlp_string_nil in E'. cbn in E'. congruence.
Qed.

Lemma item_decode it l b : is_item it l b -> rlp_header_decode it = Some (l, Z.of_nat (length b), b).
Proof. intros (_ & _ & H). specialize (H []). by rewrite !app_nil_r in H. Qed.

Lemma get_prefix_all b : get_prefix b (Z.of_nat (length b)) = Some b.
Proof. unfold get_prefix. rewrite Z.ltb_irrefl, Nat2Z.id. by rewrite firstn_all. Qed.

Lemma string_payload_item it b : is_item it false b -> string_payload it = Some b.
Proof. intros H. unfold string_payload. rewrite (item_decode _ _ _ H). cbn. apply get_prefix_all. Qed.

Lemma raw_items_concat fuel items :
  Forall (fun it => exists l b, is_item it l b) items -> (length items <= fuel)%nat ->
  raw_items fuel (concat items) = Some items.
Proof.
  intros Hi. revert fuel. induction Hi as [|it items (l & b & Hne & (h & E) & Hd) Hi IH]; intros fuel Hf; [by destruct fuel|].
  destruct fuel as [|fuel]; [cbn in Hf; lia|]. cbn [concat raw_items].
  destruct (it ++ concat items) as [|x y] eqn:Ex; [by apply app_nil in Ex as [-> _]|]. rewrite <-Ex. clear x y Ex.
  rewrite Hd. cbn [mbind option_bind].
  assert (length (it ++ concat items) - length (b ++ concat items) + Z.to_nat (Z.of_nat (length b)) = length it)%nat as ->.
  { subst it. rewrite !length_app, Nat2Z.id. lia. }
  replace (length (it ++ concat items) <? length it)%nat with false
    by (symmetry; apply Nat.ltb_ge; rewrite length_app; lia).
  rewrite drop_app_length, take_app_length. rewrite IH; [done|cbn in Hf; lia].
Qed.

Lemma items_fuel items :
  Forall (fun it => exists l b, is_item it l b) items -> (length items <= length (concat items))%nat.
Proof.
  induction 1 as [|it items (l & b & Hne & _) _ IH]; [done|]. cbn. rewrite length_app.
  destruct it; [done|cbn; lia].
Qed.

Lemma decode_list_of items :
  Forall (fun it => exists l b, is_item it l b) items ->
  ('(is_list, len, b) ← rlp_header_decode (list_of (concat items));
   if negb is_list then None
   else payload ← get_prefix b len; raw_items (length payload) payload) = Some items.
Proof.
  intros Hi. rewrite (item_decode _ _ _ (list_item _)). cbn [mbind option_bind negb].
  rewrite get_prefix_all. cbn [mbind option_bind]. apply raw_items_concat; [done|]. by apply items_fuel.
Qed.

(** ** Child references *)

Lemma tref_item t : exists l b, is_item (encode_ref (tref t)) l b.
Proof.
  unfold encode_ref. destruct (length (tref t) =? 32)%nat eqn:E; [eauto using string_item|].
  unfold tref, child_ref in *. destruct (Nat.ltb_spec (length (enc t)) 32) as [Hl|Hl].
  - exists true. destruct t; eexists; apply list_item.
  - unfold b256_bytes in E. by rewrite be_bytes_length in E.
Qed.

Lemma decode_tref t : decode_ref (encode_ref (tref t)) = Some (tref t).
Proof.
  unfold decode_ref, encode_ref. destruct (Nat.eqb_spec (length (tref t)) 32) as [El|El].
  - rewrite (item_decode _ _ _ (string_item _)). cbn [mbind option_bind]. rewrite El. cbn.
    by rewrite take_ge by lia.
  - unfold tref, child_ref in *. destruct (Nat.ltb_spec (length (enc t)) 32) as [Hl|Hl].
    + assert (exists p, is_item (enc t) true p) as [p Hp] by (destruct t; eexists; apply list_item).
      by rewrite (item_decode _ _ _ Hp).
    + unfold b256_bytes in El. by rewrite be_bytes_length in El.
Qed.

Lemma child_item_item c : exists l b, is_item (child_item c) l b.
Proof. destruct c as [t|]; [apply tref_item|]. eexists _, _. apply empty_item. Qed.

Lemma decode_child_item c : decode_child (child_item c) = Some (option_map (fun t => Some (tref t)) c).
Proof.
  unfold decode_child. destruct c as [t|]; cbn [child_item option_map]; [|by rewrite bool_decide_eq_true_2].
  rewrite decode_tref. rewrite bool_decide_eq_false_2; [done|]. intros E. pose proof (decode_tref t) as D.
  rewrite E in D. unfold decode_ref in D. rewrite (item_decode _ _ _ empty_item) in D. done.
Qed.

Lemma mapM_decode_children ch :
  mapM decode_child (map child_item ch) = Some (map (option_map (fun t => Some (tref t))) ch).
Proof.
  induction ch as [|c ch IH]; [done|]. cbn [map mapM]. rewrite decode_child_item, IH. done.
Qed.

(** Reading an encoded node gives it back. *)
Lemma decode_enc n t : canon n t -> decode_node (enc t) = Some (root_node t).
Proof.
  intros Hc. assert (forall items r, Forall (fun it => exists l b, is_item it l b) items ->
    enc t = list_of (concat items) ->
    (match length items, items with
     | 2%nat, i0 :: i1 :: _ =>
         s ← string_payload i0;
         '(key, leaf) ← hex_prefix_decode s;
         if leaf : bool then v ← string_payload i1; Some (Leaf key v)
         else r ← decode_ref i1; Some (Ext key (Some r))
     | 17%nat, _ => children ← mapM decode_child (take 16 items); Some (Branch children)
     | _, _ => None
     end) = r -> decode_node (enc t) = r) as Hd.
  { intros items r Hi -> <-. pose proof (decode_list_of items Hi) as E. unfold decode_node.
    destruct (rlp_header_decode (list_of (concat items))) as [[[il len] b]|]; [|done].
    cbn [mbind option_bind] in *. destruct (negb il); [done|]. destruct (get_prefix b len) as [payload|]; [|done].
    cbn [mbind option_bind] in *. by rewrite E. }
  destruct Hc as [k v Hk Hv|k n ch Hk Hn Hc|n ch Hl Hp Hc].
  - apply (Hd [rlp_string (hex_prefix k true); rlp_string v]).
    + repeat (apply Forall_cons; split; [eauto using string_item|]). by apply Forall_nil.
    + cbn. by rewrite app_nil_r.
    + cbn [length]. rewrite !(string_payload_item _ _ (string_item _)). cbn [mbind option_bind].
      by rewrite hex_prefix_round_trip.
  - apply (Hd [rlp_string (hex_prefix k false); encode_ref (tref (TBranch ch))]).
    + apply Forall_cons; split; [eauto using string_item|]. apply Forall_cons; split; [apply tref_item|].
      by apply Forall_nil.
    + cbn [concat]. by rewrite app_nil_r.
    + cbn [length]. rewrite (string_payload_item _ _ (string_item _)). cbn [mbind option_bind].
      rewrite hex_prefix_round_trip by done. cbn [mbind option_bind]. by rewrite decode_tref.
  - apply (Hd (map child_item ch ++ [[EMPTY_STRING_CODE]])).
    + apply Forall_app. split.
      * apply Forall_map, Forall_true. intros c. apply child_item_item.
      * apply Forall_singleton. eexists _, _. apply empty_item.
    + rewrite concat_app. cbn [concat]. by rewrite app_nil_r.
    + rewrite length_app, length_map, Hl. cbn [length Nat.add].
      rewrite take_app_le, take_ge by (by rewrite length_map, Hl). rewrite mapM_decode_children.
      destruct (map child_item ch ++ [[EMPTY_STRING_CODE]]) as [|? [|? ?]]; done.
Qed.
End encoding.
