(* ===== verification/TrieSession.v ===== *)
(** * Modification sessions hold a tree

    [holds s p t]: the session [s] holds the tree [t] below the path [p].  A node of the tree is
    either in [dirty], with the references to its children resolved only where nothing below
    changed, or still in the source with everything below it unchanged; every other path is absent.
    Insertion, removal and commit are shown to follow the reference tree. *)

From S2P Require Import Prelude Types TrieIface Trie TrieTree TrieCodec.
From stdpp Require Import base list list_numbers gmap fin_maps.
From Stdlib Require Import ZArith Lia.

Open Scope Z_scope.

Section session.
Context `{K : Keccak} `{N : NodeRlp} `{NL : !NodeRlpLaws N}.

(** Nothing at or below the path changed in this session. *)
Definition clean (s : Trie) (p : Path) : Prop := forall q, dirty s !! (p ++ q) = None.

Definition ref_ok (s : Trie) (p : Path) (r : ChildRef) (t : tree) : Prop :=
  match r with None => True | Some b => b = tref t /\ clean s p end.

Definition oref_ok (s : Trie) (p : Path) (r : option ChildRef) (t : option tree) : Prop :=
  match r, t with
  | None, None => True
  | Some r, Some t => ref_ok s p r t
  | _, _ => False
  end.

Definition denotes (s : Trie) (p : Path) (n : Node) (t : tree) : Prop :=
  match n, t with
  | Leaf k v, TLeaf k' v' => k = k' /\ v = v'
  | Ext k r, TExt k' t => k = k' /\ ref_ok s (p ++ k) r t
  | Branch rs, TBranch ch => length rs = 16%nat /\ forall i, oref_ok s (p ++ [i]) (child rs i) (child ch i)
  | _, _ => False
  end.

Definition node_ok (s : Trie) (p : Path) (t : tree) : Prop :=
  match dirty s !! p with
  | Some (Some n) => denotes s p n t
  | Some None => False
  | None => source s !! p = Some (enc t) /\ clean s p
  end.

Definition absent (s : Trie) (p : Path) : Prop :=
  match dirty s !! p with
  | Some o => o = None
  | None => source s !! p = None
  end.

Definition osubtree (t : option tree) (q : Path) : option tree := t ≫= fun t => subtree t q.

Definition holds (s : Trie) (p : Path) (t : option tree) : Prop :=
  forall q, match osubtree t q with Some u => node_ok s (p ++ q) u | None => absent s (p ++ q) end.

(** ** Frames *)

Definition agree (s s' : Trie) (p : Path) : Prop :=
  source s' = source s /\ forall q, dirty s' !! (p ++ q) = dirty s !! (p ++ q).

(** Only paths at or below [p] differ. *)
Definition below (s s' : Trie) (p : Path) : Prop :=
  source s' = source s /\ forall r, ~ p `prefix_of` r -> dirty s' !! r = dirty s !! r.

Definition set_node (p : Path) (o : option Node) (s : Trie) : Trie := mkTrie (source s) (<[p := o]> (dirty s)).

Lemma put_set p n s : Trie_put p n s = set_node p (Some n) s.
Proof. done. Qed.

Lemma remove_set p s : Trie_remove p s = set_node p None s.
Proof. done. Qed.

Lemma agree_at s s' p : agree s s' p -> dirty s' !! p = dirty s !! p.
Proof. intros [_ H]. specialize (H []). by rewrite app_nil_r in H. Qed.

Lemma agree_app s s' p k : agree s s' p -> agree s s' (p ++ k).
Proof. intros [Hs H]. split; [done|]. intros q. by rewrite <-!app_assoc. Qed.

Lemma clean_agree s s' p : agree s s' p -> clean s p -> clean s' p.
Proof. intros [_ H] Hc q. by rewrite H. Qed.

Lemma ref_ok_agree s s' p r t : agree s s' p -> ref_ok s p r t -> ref_ok s' p r t.
Proof. destruct r; cbn; [|done]. intros Ha [-> Hc]. eauto using clean_agree. Qed.

Lemma denotes_agree s s' p n t : agree s s' p -> denotes s p n t -> denotes s' p n t.
Proof.
  intros Ha. destruct n as [k v|k r|rs], t as [k' v'|k' t|ch]; cbn; try done.
  - intros [-> Hr]. split; [done|]. eauto using ref_ok_agree, agree_app.
  - intros [Hl Hr]. split; [done|]. intros i. specialize (Hr i). unfold oref_ok in *.
    repeat case_match; try done. eauto using ref_ok_agree, agree_app.
Qed.

Lemma node_ok_agree s s' p t : agree s s' p -> node_ok s p t -> node_ok s' p t.
Proof.
  intros Ha. unfold node_ok. rewrite (agree_at _ _ _ Ha). destruct (dirty s !! p) as [[n|]|]; [|done|].
  - by apply denotes_agree.
  - rewrite (proj1 Ha). intros [? ?]. eauto using clean_agree.
Qed.

Lemma absent_agree s s' p : agree s s' p -> absent s p -> absent s' p.
Proof. intros Ha. unfold absent. by rewrite (agree_at _ _ _ Ha), (proj1 Ha). Qed.

Lemma holds_agree s s' p t : agree s s' p -> holds s p t -> holds s' p t.
Proof.
  intros Ha Hh q. specialize (Hh q). destruct (osubtree t q).
  - eauto using node_ok_agree, agree_app.
  - eauto using absent_agree, agree_app.
Qed.

Lemma agree_refl s p : agree s s p.
Proof. by split. Qed.

Lemma agree_trans s1 s2 s3 p : agree s1 s2 p -> agree s2 s3 p -> agree s1 s3 p.
Proof. intros [E1 H1] [E2 H2]. split; [congruence|]. intros q. by rewrite H2. Qed.

Lemma below_refl s p : below s s p.
Proof. by split. Qed.

Lemma below_trans s1 s2 s3 p : below s1 s2 p -> below s2 s3 p -> below s1 s3 p.
Proof. intros [E1 H1] [E2 H2]. split; [congruence|]. intros q Hq. by rewrite H2, H1. Qed.

Lemma below_app s s' p k : below s s' (p ++ k) -> below s s' p.
Proof. intros [E H]. split; [done|]. intros r Hr. apply H. intros Hp. apply Hr. by eapply prefix_app_l. Qed.

(** A region that the path does not reach is left alone. *)
Definition apart (p r : Path) : Prop := ~ p `prefix_of` r /\ ~ r `prefix_of` p.

Lemma agree_below s s' p r : below s s' p -> apart p r -> agree s s' r.
Proof.
  intros [E H] [H1 H2]. split; [done|]. intros q. apply H. intros Hp.
  destruct (prefix_weak_total p r (r ++ q) Hp) as [?|?]; [by apply prefix_app_r|done|done].
Qed.

Lemma agree_set r p o s : ~ r `prefix_of` p -> agree s (set_node p o s) r.
Proof.
  intros Hp. split; [done|]. intros q. cbn. apply lookup_insert_ne. intros E. apply Hp. exists q. done.
Qed.

Lemma below_set p o s : below s (set_node p o s) p.
Proof. split; [done|]. intros r Hr. cbn. apply lookup_insert_ne. intros ->. by apply Hr. Qed.

Lemma dirty_set p o s r : dirty (set_node p o s) !! r = if decide (p = r) then Some o else dirty s !! r.
Proof. cbn. case_decide as E; [by rewrite E, lookup_insert_eq|by rewrite lookup_insert_ne]. Qed.

Lemma absent_set p o s r : p <> r -> absent s r -> absent (set_node p o s) r.
Proof. intros Hne. unfold absent. rewrite dirty_set, decide_False by done. done. Qed.

Lemma absent_removed p s : absent (set_node p None s) p.
Proof. unfold absent. by rewrite dirty_set, decide_True. Qed.

Lemma apart_siblings (p : Path) i j k l : i <> j -> apart (p ++ i :: k) (p ++ j :: l).
Proof. intros Hne. split; intros Hp; apply prefix_app_inv, prefix_cons_inv_1 in Hp; congruence. Qed.

Lemma not_prefix_longer (p r : Path) : (length p < length r)%nat -> ~ r `prefix_of` p.
Proof. intros Hl Hp%prefix_length. lia. Qed.

(** ** Nodes of a session *)

Lemma get_absent s p : absent s p -> Trie_get p s = Ok None.
Proof. unfold absent, Trie_get. destruct (dirty s !! p); [by intros ->|by intros ->]. Qed.

Lemma root_node_denotes s p t n : canon n t -> clean s p -> denotes s p (root_node t) t.
Proof.
  intros Hc Hcl. assert (forall k, clean s (p ++ k)) as Hk by (intros k q; by rewrite <-app_assoc).
  destruct Hc as [k v Hk' Hv|k n ch Hk' Hn Hc|n ch Hl Hp Hc]; cbn; [done|by repeat split|].
  split; [by rewrite length_map|]. intros i.
  assert (child (map (option_map (λ t, Some (tref t))) ch) i = option_map (λ t, Some (tref t)) (child ch i)) as ->.
  { unfold child. case_match; [|done]. change (map ?f ch) with (f <$> ch). rewrite list_lookup_fmap.
    by destruct (ch !! _) as [[]|]. }
  destruct (child ch i); cbn; [|done]. split; [done|apply Hk].
Qed.

Lemma get_node s p t n :
  canon n t -> node_ok s p t -> exists nd, Trie_get p s = Ok (Some nd) /\ denotes s p nd t.
Proof.
  intros Hc. unfold node_ok, Trie_get. destruct (dirty s !! p) as [[nd|]|]; [by eauto|done|].
  intros [-> Hcl]. rewrite (decode_enc n t Hc). eexists. split; [done|]. by eapply root_node_denotes.
Qed.

(** ** What a session holds, by the shape of the tree *)

Lemma subtree_nil t : subtree t [] = Some t.
Proof. by destruct t. Qed.

Lemma holds_node s p t : holds s p (Some t) -> node_ok s p t.
Proof. intros H. specialize (H []). cbn in H. by rewrite subtree_nil, app_nil_r in H. Qed.

Lemma holds_none s p : holds s p None <-> forall q, absent s (p ++ q).
Proof. done. Qed.

Lemma holds_leaf s p k v :
  holds s p (Some (TLeaf k v)) <-> node_ok s p (TLeaf k v) /\ forall q, q <> [] -> absent s (p ++ q).
Proof.
  split.
  - intros H. split; [by apply holds_node|]. intros q Hq. specialize (H q). by destruct q.
  - intros [Hn Ha] [|i q]; [by rewrite app_nil_r|]. by apply Ha.
Qed.

Lemma subtree_ext k t q : q <> [] -> subtree (TExt k t) q = strip k q ≫= subtree t.
Proof. by destruct q. Qed.

Lemma holds_ext s p k t :
  k <> [] ->
  holds s p (Some (TExt k t)) <->
  node_ok s p (TExt k t) /\ holds s (p ++ k) (Some t)
  /\ forall q, q <> [] -> strip k q = None -> absent s (p ++ q).
Proof.
  intros Hk. split.
  - intros H. split; [by apply holds_node|]. split.
    + intros q. specialize (H (k ++ q)). cbn [osubtree mbind option_bind] in *.
      rewrite subtree_ext, strip_app in H by (by destruct k). by rewrite <-app_assoc.
    + intros q Hq E. specialize (H q). cbn [osubtree mbind option_bind] in H. by rewrite subtree_ext, E in H.
  - intros (Hn & Hh & Ha) q. destruct (decide (q = [])) as [->|Hq]; [by rewrite app_nil_r|].
    cbn [osubtree mbind option_bind]. rewrite subtree_ext by done.
    destruct (strip_cases k q) as [(r & -> & ->)|E].
    + specialize (Hh r). by rewrite <-app_assoc in Hh.
    + rewrite E. by apply Ha.
Qed.

Lemma subtree_branch ch i q : subtree (TBranch ch) (i :: q) = osubtree (child ch i) q.
Proof. cbn [subtree]. apply (child_map (fun t => subtree t q)). Qed.

Lemma holds_branch s p ch :
  holds s p (Some (TBranch ch)) <-> node_ok s p (TBranch ch) /\ forall i, holds s (p ++ [i]) (child ch i).
Proof.
  split.
  - intros H. split; [by apply holds_node|]. intros i q. specialize (H (i :: q)).
    cbn [osubtree mbind option_bind] in H. rewrite subtree_branch in H. by rewrite <-app_assoc.
  - intros [Hn Hh] [|i q]; [by rewrite app_nil_r|]. specialize (Hh i q). cbn [osubtree mbind option_bind].
    rewrite subtree_branch. by rewrite <-app_assoc in Hh.
Qed.

(** ** Insertion *)

Lemma mark_ok i (rs : list (option ChildRef)) :
  length rs = 16%nat -> 0 <= i < 16 -> mark i rs = Ok (<[Z.to_nat i := Some None]> rs).
Proof. intros Hl Hi. unfold mark. replace (Z.to_nat i <? length rs)%nat with true; [done|]. symmetry. apply Nat.ltb_lt. lia. Qed.

Lemma child_insert {A} (l : list (option A)) i c j :
  length l = 16%nat -> 0 <= i < 16 -> child (<[Z.to_nat i := c]> l) j = if decide (i = j) then c else child l j.
Proof.
  intros Hl Hi. unfold child. destruct (decide (i = j)) as [<-|Hne].
  - replace (0 <=? i) with true by lia. rewrite list_lookup_insert_eq by lia. done.
  - case_match; [|done]. rewrite list_lookup_insert_ne by lia. done.
Qed.

Lemma child_no_children i : child no_children i = None.
Proof.
  unfold child. case_match; [|done]. destruct (_ !! _) as [c|] eqn:E; [|done].
  by apply lookup_replicate in E as [-> _].
Qed.

Lemma node_ok_dirty s p n t : dirty s !! p = Some (Some n) -> denotes s p n t -> node_ok s p t.
Proof. intros E. unfold node_ok. by rewrite E. Qed.

(** The node of a branch after one child was updated. *)
Lemma branch_marked s p rs ch i c s' :
  denotes s p (Branch rs) (TBranch ch) -> 0 <= i < 16 -> length ch = 16%nat ->
  (forall j, j <> i -> agree s s' (p ++ [j])) ->
  denotes s' p (Branch (<[Z.to_nat i := option_map (fun _ => None) c]> rs)) (TBranch (<[Z.to_nat i := c]> ch)).
Proof.
  intros [Hl Hr] Hi Hch Ha. split; [by rewrite length_insert|]. intros j. rewrite !child_insert by done.
  case_decide as E; [by destruct c|]. specialize (Hr j). unfold oref_ok in *. repeat case_match; try done.
  eapply ref_ok_agree; [|done]. by apply Ha.
Qed.

Lemma holds_extend s p k ch :
  (k <> [] -> dirty s !! p = Some (Some (Ext k None))) -> holds s (p ++ k) (Some (TBranch ch)) ->
  (forall q, q <> [] -> strip k q = None -> absent s (p ++ q)) -> holds s p (Some (extend k (TBranch ch))).
Proof.
  intros Hd Hh Ha. destruct k as [|x k]; [by rewrite app_nil_r in Hh|]. cbn [extend]. apply holds_ext; [done|].
  split; [|done]. eapply node_ok_dirty; [by apply Hd|]. by split.
Qed.

(** Two subtrees below a common prefix. *)
Lemma holds_split s p pre x a y b :
  0 <= x < 16 -> 0 <= y < 16 -> x <> y ->
  (pre <> [] -> dirty s !! p = Some (Some (Ext pre None))) ->
  dirty s !! (p ++ pre)
  = Some (Some (Branch (<[Z.to_nat y := Some None]> (<[Z.to_nat x := Some None]> no_children)))) ->
  holds s (p ++ pre ++ [x]) (Some a) -> holds s (p ++ pre ++ [y]) (Some b) ->
  (forall q, q <> [] -> q <> pre -> strip (pre ++ [x]) q = None -> strip (pre ++ [y]) q = None -> absent s (p ++ q)) ->
  holds s p (Some (extend pre (fork x a y b))).
Proof.
  intros Hx Hy Hne He Hb Ha Hb' Hab. unfold fork. apply holds_extend; [done| |].
  - apply holds_branch. split.
    + eapply node_ok_dirty; [done|]. split; [by rewrite !length_insert|]. intros i. rewrite child_fork by done.
      rewrite !child_insert, child_no_children by (rewrite ?length_insert; done). by repeat case_decide.
    + intros i. rewrite child_fork by done. rewrite <-app_assoc. repeat case_decide; subst; [done..|].
      intros q. cbn. rewrite <-!app_assoc. assert (forall j, j <> i -> strip (pre ++ [j]) (pre ++ [i] ++ q) = None) as Hs.
      { intros j Hj. rewrite strip_app_l, strip_app. cbn. by replace (j =? i) with false by lia. }
      apply Hab; [by destruct pre| |by apply Hs..]. intros E%(f_equal length). rewrite length_app in E. cbn in E. lia.
  - intros q Hq E. apply Hab; [done| |by rewrite strip_app_l, E..]. intros ->.
    rewrite <-(app_nil_r pre) in E at 2. by rewrite strip_app in E.
Qed.

Lemma not_below_shorter (p k q : Path) : k <> [] -> ~ (p ++ k) ++ q `prefix_of` p.
Proof. intros Hk. apply not_prefix_longer. rewrite !length_app. destruct k; [done|cbn; lia]. Qed.

Lemma app_self_ne (p q : Path) : q <> [] -> p <> p ++ q.
Proof. intros Hq E%(f_equal length). rewrite length_app in E. destruct q; [done|cbn in E; lia]. Qed.

Lemma below_set_app p k o s : below s (set_node (p ++ k) o s) p.
Proof. eapply below_app, below_set. Qed.

(** The session after a split: a new leaf, the fork, and the extension above it. *)
Definition split_session (p pre : Path) (x y : Z) (leaf : Node) (s : Trie) : Trie :=
  let s := Trie_put ((p ++ pre) ++ [y]) leaf s in
  let s := Trie_put (p ++ pre) (Branch (<[Z.to_nat y := Some None]> (<[Z.to_nat x := Some None]> no_children))) s in
  if (0 <? length pre)%nat then Trie_put p (Ext pre None) s else s.

Lemma split_session_below p pre x y leaf s : below s (split_session p pre x y leaf s) p.
Proof.
  unfold split_session. rewrite !put_set. assert (forall n b, below s (set_node (p ++ pre) n (set_node ((p ++ pre) ++ [y]) b s)) p).
  { intros n b. eapply below_trans; [|apply below_set_app]. rewrite <-app_assoc. apply below_set_app. }
  case_match; [|done]. eapply below_trans; [done|]. apply below_set.
Qed.

Lemma holds_new_leaf s p k v : (forall q, absent s (p ++ q)) -> holds (Trie_put p (Leaf k v) s) p (Some (TLeaf k v)).
Proof.
  intros Ha. rewrite put_set. apply holds_leaf. split.
  - eapply node_ok_dirty; [by rewrite dirty_set, decide_True|]. done.
  - intros q Hq. apply absent_set; [by apply app_self_ne|done].
Qed.

Lemma split_session_dirty p pre x y leaf s r :
  r <> (p ++ pre) ++ [y] -> r <> p ++ pre -> r <> p -> dirty (split_session p pre x y leaf s) !! r = dirty s !! r.
Proof.
  intros H1 H2 H3. unfold split_session. rewrite !put_set. case_match; rewrite !dirty_set.
  all: by repeat (rewrite decide_False by done).
Qed.

Lemma split_session_agree p pre x y leaf s r :
  ~ r `prefix_of` (p ++ pre) ++ [y] -> agree s (split_session p pre x y leaf s) r.
Proof.
  intros Hr. split; [by unfold split_session; case_match|]. intros q.
  apply split_session_dirty; intros E; apply Hr; (transitivity (r ++ q); [by exists q|rewrite E]).
  - done.
  - by exists [y].
  - exists (pre ++ [y]). by rewrite app_assoc.
Qed.

Lemma split_session_holds s p pre x a y k v :
  0 <= x < 16 -> 0 <= y < 16 -> x <> y ->
  holds s (p ++ pre ++ [x]) (Some a) ->
  (forall q, q <> [] -> strip (pre ++ [x]) q = None -> absent s (p ++ q)) ->
  holds (split_session p pre x y (Leaf k v) s) p (Some (extend pre (fork x a y (TLeaf k v)))).
Proof.
  intros Hx Hy Hne Ha Hab. set (s' := split_session p pre x y (Leaf k v) s).
  assert (agree s s' (p ++ pre ++ [x])) as Hag.
  { apply split_session_agree. rewrite <-app_assoc, !app_assoc. apply (apart_siblings (p ++ pre) x y [] []). done. }
  assert (forall r, strip (pre ++ [x]) (pre ++ [y] ++ r) = None) as Hs.
  { intros r. rewrite strip_app_l, strip_app. cbn. by replace (x =? y) with false by lia. }
  apply holds_split; try done.
  - intros Hp. unfold s', split_session. replace (0 <? length pre)%nat with true by by destruct pre.
    by rewrite put_set, dirty_set, decide_True.
  - unfold s', split_session. rewrite !put_set. case_match eqn:E.
    + rewrite dirty_set, decide_False; [by rewrite dirty_set, decide_True|]. apply app_self_ne. by intros ->.
    + by rewrite dirty_set, decide_True.
  - by eapply holds_agree.
  - assert (agree (Trie_put (p ++ pre ++ [y]) (Leaf k v) s) s' (p ++ pre ++ [y])) as Hag'.
    { unfold s', split_session. rewrite <-app_assoc, !put_set. case_match.
      - eapply agree_trans; apply agree_set, not_prefix_longer; rewrite !length_app; cbn; lia.
      - apply agree_set, not_prefix_longer; rewrite !length_app; cbn; lia. }
    eapply holds_agree; [done|]. apply holds_new_leaf. intros q. rewrite <-!app_assoc. by apply Hab; [by destruct pre|].
  - intros q Hq Hqp H1 H2. pose proof (Hab q Hq H1) as Hq'. unfold absent in *.
    rewrite (proj1 (split_session_below p pre x y (Leaf k v) s : below s s' p)).
    unfold s'. rewrite split_session_dirty; [done|..].
    + rewrite <-app_assoc. intros E%app_inv_head. subst q. rewrite <-(app_nil_r (pre ++ [y])) in H2 at 2.
      by rewrite strip_app in H2.
    + by intros E%app_inv_head.
    + intros E. by apply (app_self_ne p q).
Qed.

Definition inserted (fuel : nat) (p rest : Path) (v : bytes) (s : Trie) (t : option tree) : Prop :=
  exists s', insert_loop fuel p rest v s = Ok s' /\ holds s' p (Some (oinsert t rest v)) /\ below s s' p.

Lemma insert_none fuel p rest v s : (0 < fuel)%nat -> holds s p None -> inserted fuel p rest v s None.
Proof.
  intros Hf Hn. destruct fuel as [|fuel]; [lia|]. exists (Trie_put p (Leaf rest v) s). cbn [insert_loop].
  rewrite get_absent by (specialize (Hn []); by rewrite app_nil_r in Hn).
  split; [done|]. split; [by apply holds_new_leaf|apply below_set].
Qed.

Lemma insert_leaf fuel p rest v s k w :
  (0 < fuel)%nat -> canon (length rest) (TLeaf k w) -> nibs rest ->
  holds s p (Some (TLeaf k w)) -> inserted fuel p rest v s (Some (TLeaf k w)).
Proof.
  intros Hf Hc Hr Hh. destruct fuel as [|fuel]; [lia|]. apply holds_leaf in Hh as [Hn Ha].
  destruct (get_node s p _ _ Hc Hn) as (nd & E & Hd). unfold inserted. cbn [insert_loop oinsert tinsert]. rewrite E.
  destruct nd as [k0 w0| |]; [|done..]. destruct Hd as [-> ->]. cbn [result_bind].
  inversion Hc as [k0 w0 Hk Hw El| |]; subst. case_bool_decide as Ek.
  - eexists. split; [done|]. split; [|apply below_set]. rewrite put_set. apply holds_leaf. split.
    + eapply node_ok_dirty; [by rewrite dirty_set, decide_True|done].
    + intros q Hq. apply absent_set; [by apply app_self_ne|by apply Ha].
  - pose proof (common_prefix_lt k rest El Ek) as Hlt.
    destruct (common_prefix_split k rest) as (pre & x & k' & y & p' & -> & -> & Hne & _); [lia..|].
    destruct (split_parts pre x k' y p' Hne) as (Ec & -> & -> & -> & -> & -> & -> & Ex & Ey).
    unfold nibble_at. rewrite Ex, Ey, Ec. cbn [ok_or result_bind].
    apply nibs_app in Hk as [_ [Hx Hk']%Forall_cons], Hr as [_ [Hy Hp']%Forall_cons].
    rewrite mark_ok by done. cbn [result_bind]. rewrite mark_ok by (rewrite ?length_insert; done). cbn [result_bind].
    eexists. split; [reflexivity|]. fold (split_session p pre x y (Leaf p' v) (Trie_put ((p ++ pre) ++ [x]) (Leaf k' w) s)).
    split.
    + apply split_session_holds; [done..| |].
      * rewrite <-app_assoc. apply holds_new_leaf. intros q. rewrite <-!app_assoc. apply Ha. by destruct pre.
      * intros q Hq Es. rewrite put_set, <-app_assoc. apply absent_set; [|by apply Ha].
        intros E'%app_inv_head. subst q. rewrite <-(app_nil_r (pre ++ [x])) in Es at 2. by rewrite strip_app in Es.
    + eapply below_trans; [|apply split_session_below]. rewrite put_set, <-app_assoc. apply below_set_app.
Qed.

Lemma strip_longer k k' q : strip k q = None -> strip (k ++ k') q = None.
Proof. intros E. by rewrite strip_app_l, E. Qed.

(** An extension that the key leaves: it is split. *)
Lemma insert_ext_split fuel p pre x k' y p' v s ch n r :
  x <> y -> canon n (TExt (pre ++ x :: k') (TBranch ch)) -> nibs (pre ++ y :: p') ->
  Trie_get p s = Ok (Some (Ext (pre ++ x :: k') r)) ->
  holds s p (Some (TExt (pre ++ x :: k') (TBranch ch))) ->
  inserted (S fuel) p (pre ++ y :: p') v s (Some (TExt (pre ++ x :: k') (TBranch ch))).
Proof.
  intros Hne Hc Hr E Hh. apply holds_ext in Hh as (Hn & Hh & Ha); [|by destruct pre].
  unfold inserted. cbn [insert_loop oinsert tinsert]. rewrite E. cbn [result_bind].
  destruct (split_parts pre x k' y p' Hne) as (Ec & -> & _ & -> & -> & -> & -> & Ex & Ey). rewrite Ec.
  replace (length pre =? length (pre ++ x :: k'))%nat with false
    by (symmetry; apply Nat.eqb_neq; rewrite length_app; cbn; lia).
  rewrite Ec in Ex, Ey. unfold nibble_at. rewrite Ex, Ey. cbn [ok_or result_bind].
  inversion Hc as [|k0 n0 ch0 Hk0 Hnk Hcb|]; subst.
  apply nibs_app in Hnk as [_ [Hx Hk']%Forall_cons], Hr as [_ [Hy Hp']%Forall_cons].
  rewrite mark_ok by done. cbn [result_bind]. rewrite mark_ok by (rewrite ?length_insert; done). cbn [result_bind].
  eexists. split; [reflexivity|].
  set (s1 := if (0 <? length (pre ++ x :: k') - length pre - 1)%nat then _ else s).
  change (holds (split_session p pre x y (Leaf p' v) s1) p (Some (extend pre (fork x (extend k' (TBranch ch)) y (TLeaf p' v))))
          /\ below s (split_session p pre x y (Leaf p' v) s1) p).
  assert (0 <? length (pre ++ x :: k') - length pre - 1 = bool_decide (k' <> []))%nat as Eb.
  { rewrite length_app. destruct k'; cbn [length]; [by replace (_ - _ - 1)%nat with 0%nat by lia|].
    rewrite bool_decide_eq_true_2 by done. apply Nat.ltb_lt. lia. }
  assert (s1 = if bool_decide (k' <> []) then Trie_put ((p ++ pre) ++ [x]) (Ext k' None) s else s) as Es1.
  { unfold s1. by rewrite Eb. }
  clearbody s1.
  assert (forall q, q <> [] -> strip (pre ++ [x]) q = None -> absent s (p ++ q)) as Hout.
  { intros q Hq Es. apply Ha; [done|]. replace (pre ++ x :: k') with ((pre ++ [x]) ++ k') by by rewrite <-app_assoc.
    by apply strip_longer. }
  split.
  - apply split_session_holds; [done..| |].
    + subst s1. apply holds_extend.
      * intros Hk'ne. by rewrite bool_decide_eq_true_2, put_set, dirty_set, decide_True by (rewrite <- ?app_assoc; done).
      * replace (p ++ pre ++ x :: k') with ((p ++ pre ++ [x]) ++ k') in Hh by by rewrite <-!app_assoc.
        case_bool_decide; [|done]. eapply holds_agree; [|done]. rewrite put_set. apply agree_set, not_prefix_longer.
        rewrite !length_app. cbn. destruct k'; [done|cbn; lia].
      * intros q Hq Es.
        assert (absent s ((p ++ pre ++ [x]) ++ q)) as Hq'.
        { rewrite <-!app_assoc. rewrite (app_assoc pre). apply Ha; [by destruct pre|].
          replace (pre ++ x :: k') with ((pre ++ [x]) ++ k') by by rewrite <-app_assoc. by rewrite strip_app_l, strip_app. }
        case_bool_decide; [|done]. rewrite put_set. apply absent_set; [|done]. rewrite <-app_assoc. by apply app_self_ne.
    + intros q Hq Es. subst s1. case_bool_decide; [|by apply Hout]. rewrite put_set, <-app_assoc.
      apply absent_set; [|by apply Hout]. intros E'%app_inv_head. subst q.
      rewrite <-(app_nil_r (pre ++ [x])) in Es at 2. by rewrite strip_app in Es.
  - eapply below_trans; [|apply split_session_below]. subst s1. case_bool_decide; [|apply below_refl].
    rewrite put_set, <-app_assoc. apply below_set_app.
Qed.

Lemma absent_eq s s' p : source s' = source s -> dirty s' !! p = dirty s !! p -> absent s p -> absent s' p.
Proof. intros E1 E2. unfold absent. by rewrite E1, E2. Qed.

Lemma strip_not_prefix k q : strip k q = None -> ~ k `prefix_of` q.
Proof. intros E [r ->]. by rewrite strip_app in E. Qed.

Lemma prefix_app_same (p k q : Path) : p ++ k `prefix_of` p ++ q -> k `prefix_of` q.
Proof. apply prefix_app_inv. Qed.

(** An extension above a subtree that changed. *)
Lemma holds_ext_below s s' p k t t' :
  k <> [] -> holds s p (Some (TExt k t)) -> below (set_node p (Some (Ext k None)) s) s' (p ++ k) ->
  holds s' (p ++ k) (Some t') -> holds s' p (Some (TExt k t')).
Proof.
  intros Hk Hh Hb Hh'. apply holds_ext in Hh as (_ & _ & Ha); [|done].
  assert (~ (p ++ k) `prefix_of` p) as Hnp by (apply not_prefix_longer; rewrite length_app; destruct k; [done|cbn; lia]).
  apply holds_ext; [done|]. split; [|split; [done|]].
  - apply (node_ok_dirty _ _ (Ext k None)); [|by split]. rewrite (proj2 Hb) by done. by rewrite dirty_set, decide_True.
  - intros q Hq Es. apply (absent_eq (set_node p (Some (Ext k None)) s)); [apply (proj1 Hb)| |].
    + apply (proj2 Hb). intros Hp%prefix_app_same. by apply (strip_not_prefix k q).
    + apply absent_set; [by apply app_self_ne|by apply Ha].
Qed.

(** A branch one child of which changed. *)
Lemma holds_branch_below s s' p rs ch i c :
  0 <= i < 16 -> length ch = 16%nat -> holds s p (Some (TBranch ch)) -> denotes s p (Branch rs) (TBranch ch) ->
  below (set_node p (Some (Branch (<[Z.to_nat i := option_map (fun _ => None) c]> rs))) s) s' (p ++ [i]) ->
  holds s' (p ++ [i]) c -> holds s' p (Some (TBranch (<[Z.to_nat i := c]> ch))).
Proof.
  intros Hi Hl Hh Hd Hb Hh'. set (s1 := set_node _ _ s) in *. apply holds_branch in Hh as [_ Hh].
  assert (forall j, j <> i -> agree s s' (p ++ [j])) as Hag.
  { intros j Hj. apply (agree_trans s s1); [apply agree_set, not_prefix_longer; rewrite length_app; cbn; lia|].
    eapply agree_below; [done|]. by apply apart_siblings. }
  apply holds_branch. split.
  - eapply node_ok_dirty; [|by eapply branch_marked]. rewrite (proj2 Hb) by (apply not_prefix_longer; rewrite length_app; cbn; lia).
    unfold s1. by rewrite dirty_set, decide_True.
  - intros j. rewrite child_insert by done. case_decide as Ej; [by subst|]. eapply holds_agree; [by apply Hag|done].
Qed.

Lemma alter_child {A} (f : option A -> option A) (ch : list (option A)) i :
  length ch = 16%nat -> 0 <= i < 16 -> alter f (Z.to_nat i) ch = <[Z.to_nat i := f (child ch i)]> ch.
Proof.
  intros Hl Hi. apply children_ext; [by rewrite length_alter|by rewrite length_insert|]. intros j Hj.
  rewrite child_insert by done. unfold child. replace (0 <=? j) with true by lia. replace (0 <=? i) with true by lia.
  case_decide as E.
  - subst j. rewrite list_lookup_alter_eq. destruct (lookup_lt_is_Some_2 ch (Z.to_nat i)) as [c ->]; [lia|done].
  - by rewrite list_lookup_alter_ne by lia.
Qed.

(** Insertion follows the reference tree and touches only paths below the start. *)
Lemma insert_follows n t : canon n t -> forall fuel p rest v s,
  holds s p (Some t) -> length rest = n -> nibs rest -> (n < fuel)%nat -> inserted fuel p rest v s (Some t).
Proof.
  intros Hc. induction Hc as [k w Hk Hw|k n ch Hk Hn Hc IH|n ch Hl Hp Hc IH]; intros fuel p rest v s Hh Hlr Hnr Hf.
  - apply insert_leaf; [lia|rewrite Hlr; by constructor|done|done].
  - assert (canon (length k + n) (TExt k (TBranch ch))) as Hce by by constructor.
    destruct fuel as [|fuel]; [lia|]. destruct (get_node s p _ _ Hce (holds_node _ _ _ Hh)) as (nd & E & Hd).
    destruct nd as [|k0 r|]; try done. destruct Hd as [-> Hd].
    destruct (decide (common_prefix k rest = length k)) as [Ec|Ec].
    + pose proof (common_prefix_full k rest Ec) as Er. unfold inserted. cbn [insert_loop oinsert tinsert].
      rewrite E. cbn [result_bind]. rewrite Ec, Nat.eqb_refl. set (q := drop (length k) rest) in *. clearbody q. subst rest.
      rewrite length_app in Hlr. apply nibs_app in Hnr as [_ Hnq].
      destruct (IH fuel (p ++ k) q v (Trie_put p (Ext k None) s)) as (s' & E' & Hh' & Hb); [|lia|done|destruct k; [done|cbn in Hf; lia]|].
      { eapply holds_agree; [|by apply holds_ext in Hh as (_ & ? & _)].
        apply agree_set, not_prefix_longer. rewrite length_app. destruct k; [done|cbn; lia]. }
      exists s'. split; [done|]. split; [by eapply holds_ext_below|].
      eapply below_trans; [apply below_set|]. by eapply below_app.
    + pose proof (common_prefix_le k rest).
      destruct (common_prefix_split k rest) as (pre & x & k' & y & p' & -> & -> & Hne & _); [lia..|].
      by eapply insert_ext_split.
  - assert (canon (S n) (TBranch ch)) as Hcb by by constructor.
    destruct fuel as [|fuel]; [lia|]. destruct (get_node s p _ _ Hcb (holds_node _ _ _ Hh)) as (nd & E & Hd).
    destruct nd as [| |rs]; try done. destruct rest as [|i rest]; [done|]. apply Forall_cons in Hnr as [Hi Hnr].
    unfold inserted. cbn [insert_loop oinsert]. rewrite E. cbn [result_bind].
    rewrite mark_ok by (done || apply Hd). cbn [result_bind].
    set (s1 := Trie_put p _ s).
    assert (inserted fuel (p ++ [i]) rest v s1 (child ch i)) as (s' & E' & Hh' & Hb).
    { assert (holds s1 (p ++ [i]) (child ch i)) as Hh1.
      { eapply holds_agree; [|apply holds_branch in Hh as [_ Hh]; apply Hh].
        apply agree_set, not_prefix_longer. rewrite length_app. cbn. lia. }
      destruct (child ch i) as [t|] eqn:Et; [|apply insert_none; [cbn in Hlr; lia|done]].
      apply child_Some in Et as [_ Et]. eapply IH; [done..| |done|]; cbn in Hlr; lia. }
    exists s'. split; [done|]. rewrite tinsert_branch, alter_child by done. split.
    + by eapply (holds_branch_below s s' p rs ch i (Some (oinsert (child ch i) rest v))).
    + eapply below_trans; [apply below_set|]. by eapply below_app.
Qed.
End session.
