(* ===== verification/TrieRemove.v ===== *)
(** * Removal follows the reference tree

    A removal walks to the key's leaf and repairs the ancestors from the bottom up, merging what a
    branch with a single child left behind.  On a session that holds a canonical tree, the result
    holds the reference tree without the key, again canonical. *)

From S2P Require Import Prelude Types TrieIface Trie TrieTree TrieCodec TrieSession.
From stdpp Require Import base list list_numbers gmap fin_maps.
From Stdlib Require Import ZArith Lia.

Open Scope Z_scope.

Section removal.
Context `{K : Keccak} `{N : NodeRlp} `{NL : !NodeRlpLaws N}.

(** The node that replaces a key above a node, and the session that has it. *)
Definition merged_node (k : Path) (nd : Node) : Node :=
  match nd with
  | Leaf k2 v => Leaf (k ++ k2) v
  | Ext k2 _ => Ext (k ++ k2) None
  | Branch _ => Ext k None
  end.

Definition merged (p k : Path) (nd : Node) (s : Trie) : Trie :=
  set_node p (Some (merged_node k nd))
    (match nd with Branch _ => s | _ => set_node (p ++ k) None s end).

Lemma merged_below p k nd s : below s (merged p k nd s) p.
Proof.
  unfold merged. eapply below_trans; [|apply below_set]. destruct nd; [apply below_set_app..|apply below_refl].
Qed.

Lemma merged_agree p k nd s r : r <> [] -> agree s (merged p k nd s) ((p ++ k) ++ r).
Proof.
  intros Hr. assert (~ ((p ++ k) ++ r) `prefix_of` (p ++ k)) as H1.
  { apply not_prefix_longer. rewrite (length_app (p ++ k)). destruct r; [done|cbn; lia]. }
  assert (~ ((p ++ k) ++ r) `prefix_of` p) as H2.
  { apply not_prefix_longer. rewrite !length_app. destruct r; [done|cbn; lia]. }
  unfold merged. destruct nd; [|..|by apply agree_set]; (eapply agree_trans; [by apply (agree_set _ (p ++ k) None)|by apply agree_set]).
Qed.

Lemma merged_dirty p k nd s r :
  r <> p -> r <> p ++ k -> dirty (merged p k nd s) !! r = dirty s !! r.
Proof.
  intros H1 H2. unfold merged. rewrite dirty_set, decide_False by done.
  destruct nd; [by rewrite dirty_set, decide_False by done..|done].
Qed.

Lemma merged_absent p k nd s q :
  q <> [] -> absent s (p ++ q) -> absent (merged p k nd s) (p ++ q).
Proof.
  intros Hq Ha. unfold merged. apply absent_set; [by apply app_self_ne|].
  destruct nd; [|..|done]; (destruct (decide (p ++ k = p ++ q)) as [<-|]; [apply absent_removed|by apply absent_set]).
Qed.

Lemma merged_removed p k nd s :
  k <> [] -> match nd with Branch _ => True | _ => absent (merged p k nd s) (p ++ k) end.
Proof. intros Hk. destruct nd; [..|done]; (apply absent_set; [by apply app_self_ne|apply absent_removed]). Qed.

(** Merging a key above a held subtree holds the merged tree. *)
Lemma merged_holds s s0 p k nd t n :
  k <> [] -> canon n t -> denotes s0 (p ++ k) nd t -> holds s (p ++ k) (Some t) ->
  (forall q, q <> [] -> strip k q = None -> absent s (p ++ q)) ->
  holds (merged p k nd s) p (Some (prepend k t)).
Proof.
  intros Hk Hc Hd Hh Ha. set (s' := merged p k nd s).
  assert (dirty s' !! p = Some (Some (merged_node k nd))) as Ed.
  { unfold s', merged. by rewrite dirty_set, decide_True. }
  assert (forall q, q <> [] -> absent s (p ++ q) -> absent s' (p ++ q)) as Hab by (intros; by apply merged_absent).
  pose proof (merged_removed p k nd s Hk) as Hrem.
  destruct nd as [k2 v|k2 cr|rs], t as [k2' v'|k2' t|ch]; try done; cbn [prepend].
  - destruct Hd as [-> ->]. apply holds_leaf in Hh as [_ Hh]. apply holds_leaf. split.
    + apply (node_ok_dirty _ _ _ _ Ed). done.
    + intros q Hq. destruct (strip_cases k q) as [(r & -> & Es)|Es]; [|by apply Hab, Ha].
      destruct (decide (r = [])) as [->|Hr].
      * by rewrite app_nil_r.
      * apply Hab; [by destruct k|]. rewrite app_assoc. by apply Hh.
  - destruct Hd as [-> _]. inversion Hc as [|k0 n0 ch Hk2 _ _|]; subst.
    apply holds_ext in Hh as (_ & Hh & Hh'); [|done]. apply holds_ext; [by destruct k|]. split; [|split].
    + apply (node_ok_dirty _ _ _ _ Ed). done.
    + rewrite app_assoc. eapply holds_agree; [by apply merged_agree|done].
    + intros q Hq Es. rewrite strip_app_l in Es. destruct (strip_cases k q) as [(r & -> & Es')|Es']; [|by apply Hab, Ha].
      rewrite Es' in Es. destruct (decide (r = [])) as [->|Hr].
      * by rewrite app_nil_r.
      * apply Hab; [by destruct k|]. rewrite app_assoc. by apply Hh'.
  - apply holds_ext; [done|]. split; [|split].
    + apply (node_ok_dirty _ _ _ _ Ed). done.
    + eapply holds_agree; [|done]. unfold s', merged. apply agree_set, not_prefix_longer. rewrite length_app.
      destruct k; [done|cbn; lia].
    + intros q Hq Es. by apply Hab, Ha.
Qed.

(** ** The walk *)

Lemma denotes_child s p rs ch i :
  denotes s p (Branch rs) (TBranch ch) -> 0 <= i < 16 ->
  exists c, rs !! Z.to_nat i = Some c /\ (is_Some c <-> is_Some (child ch i)).
Proof.
  intros [Hl Hr] Hi. destruct (lookup_lt_is_Some_2 rs (Z.to_nat i)) as [c Ec]; [lia|]. exists c. split; [done|].
  specialize (Hr i). unfold child in Hr at 1. replace (0 <=? i) with true in Hr by lia. rewrite Ec in Hr. cbn in Hr.
  destruct c, (child ch i); try done; split; intros [? ?]; eauto.
Qed.

(** The walk stops early when the key is absent. *)
Lemma walk_absent n t : canon n t -> forall fuel p rest st s,
  holds s p (Some t) -> length rest = n -> nibs rest -> (n < fuel)%nat -> tlookup t rest = None ->
  walk fuel p rest st s = Ok None.
Proof.
  intros Hc. induction Hc as [k w Hk Hw|k n ch Hk Hn Hc IH|n ch Hl Hp Hc IH];
    intros fuel p rest st s Hh Hlr Hnr Hf Et; (destruct fuel as [|fuel]; [lia|]); cbn [walk].
  - destruct (get_node s p (TLeaf k w) (length k)) as (nd & -> & Hd); [by constructor|by apply holds_node|].
    destruct nd; try done. destruct Hd as [-> ->]. cbn in *. by case_bool_decide.
  - destruct (get_node s p (TExt k (TBranch ch)) (length k + n)) as (nd & -> & Hd); [by constructor|by apply holds_node|].
    destruct nd; try done. destruct Hd as [-> _]. cbn [result_bind]. rewrite tlookup_ext in Et.
    destruct (strip_cases k rest) as [(r & -> & Es)|Es]; rewrite Es in *; [|done].
    rewrite length_app in Hlr. apply nibs_app in Hnr as [_ Hnr].
    apply IH; [by apply holds_ext in Hh as (_ & ? & _)|lia|done|destruct k; [done|cbn in *; lia]|done].
  - destruct (get_node s p (TBranch ch) (S n)) as (nd & -> & Hd); [by constructor|by apply holds_node|].
    destruct nd as [| |rs]; try done. cbn [result_bind]. destruct rest as [|i rest]; [done|].
    apply Forall_cons in Hnr as [Hi Hnr]. rewrite tlookup_branch in Et.
    destruct (denotes_child _ _ _ _ i Hd Hi) as (c & -> & Hc'). cbn [ok_or result_bind].
    destruct c as [c|]; [|done]. destruct (proj1 Hc') as [t Ei]; [done|]. rewrite Ei in Et.
    apply holds_branch in Hh as [_ Hh]. specialize (Hh i). rewrite Ei in Hh. apply child_Some in Ei as [_ Ei].
    by apply (IH _ _ Ei); [|cbn in Hlr; lia|..|lia|].
Qed.

(** ** The repair *)

Lemma below_set_mono s s' p o r : below s s' r -> below (set_node p o s) (set_node p o s') r.
Proof.
  intros [E H]. split; [done|]. intros q Hq. rewrite !dirty_set. case_decide; [done|]. by apply H.
Qed.

Lemma remaining_present s p rs ch :
  denotes s p (Branch rs) (TBranch ch) -> length ch = 16%nat -> remaining rs = present ch.
Proof.
  intros Hd Hl. unfold remaining, present. apply filter_ext_in. intros i Hi%in_seq.
  destruct (denotes_child _ _ _ _ (Z.of_nat i) Hd) as (c & Ec & Hc); [lia|]. rewrite Nat2Z.id in Ec. rewrite Ec.
  rewrite child_nat in Hc.
  destruct (lookup_lt_is_Some_2 ch i) as [d Ed]; [lia|]. rewrite Ed in *. cbn in Hc.
  destruct c, d; try done; [destruct (proj1 Hc)|destruct (proj2 Hc)]; eauto; done.
Qed.

(** The result of repairing up to [p]: what is now there, and the session. *)
Definition repaired (s : Trie) (p : Path) (t : option tree) (r : option Node) (s' : Trie) : Prop :=
  dirty s' !! p = Some r /\ holds s' p t /\ below s s' p.

Lemma repaired_shape s p t r s' :
  repaired s p t r s' ->
  match r, t with Some nd, Some t => denotes s' p nd t | None, None => True | _, _ => False end.
Proof.
  intros (Ed & Hh & _). specialize (Hh []). destruct t as [t|]; cbn in Hh.
  - rewrite subtree_nil, app_nil_r in Hh. unfold node_ok in Hh. rewrite Ed in Hh. by destruct r.
  - rewrite app_nil_r in Hh. unfold absent in Hh. rewrite Ed in Hh. by subst r.
Qed.

Lemma merged_repaired s p k nd t n s0 s1 :
  k <> [] -> canon n t -> denotes s0 (p ++ k) nd t -> holds s1 (p ++ k) (Some t) ->
  (forall q, q <> [] -> strip k q = None -> absent s1 (p ++ q)) -> below s s1 p ->
  repaired s p (Some (prepend k t)) (Some (merged_node k nd)) (merged p k nd s1).
Proof.
  intros Hk Hc Hd Hh Ha Hb. split; [by unfold merged; rewrite dirty_set, decide_True|].
  split; [by eapply merged_holds|]. eapply below_trans; [done|apply merged_below].
Qed.

(** Repairing an extension whose branch was updated. *)
Lemma repair_ext s p k t t' r r0 s1 n :
  k <> [] -> holds s p (Some (TExt k t)) -> canon n t' -> repaired s (p ++ k) (Some t') r s1 ->
  exists r' s', (forall st, repair ((p, Ext k r0) :: st) (p ++ k) r s1 = repair st p r' s')
    /\ repaired s p (Some (prepend k t')) r' s'.
Proof.
  intros Hk Hh Hc Hr. pose proof (repaired_shape _ _ _ _ _ Hr) as Hs. destruct Hr as (Ed & Hh' & Hb).
  destruct r as [nd|]; [|done]. exists (Some (merged_node k nd)), (merged p k nd s1). split; [by destruct nd|].
  apply holds_ext in Hh as (_ & _ & Ha); [|done]. eapply merged_repaired; try done.
  - intros q Hq Es. eapply absent_eq; [apply (proj1 Hb)| |by apply Ha]. apply (proj2 Hb).
    intros Hp%prefix_app_same. by apply (strip_not_prefix k q).
  - by eapply below_app.
Qed.

Lemma slot_at (p : Path) i : (p ++ [i]) !! length p = Some i.
Proof. apply list_lookup_middle. done. Qed.

Lemma strip_single i q : q <> [] -> strip [i] q = None -> exists x r, q = x :: r /\ x <> i.
Proof.
  intros Hq E. destruct q as [|x r]; [done|]. exists x, r. split; [done|]. intros ->. cbn in E.
  by rewrite Z.eqb_refl in E.
Qed.

(** Repairing a branch one child of which was updated or removed. *)
Lemma repair_branch s p rs ch i c r s1 n :
  canon (S n) (TBranch ch) -> holds s p (Some (TBranch ch)) -> denotes s p (Branch rs) (TBranch ch) ->
  0 <= i < 16 -> ocanon n c -> repaired s (p ++ [i]) c r s1 ->
  exists r' s', (forall st, repair ((p, Branch rs) :: st) (p ++ [i]) r s1 = repair st p r' s')
    /\ repaired s p (collapse (<[Z.to_nat i := c]> ch)) r' s'.
Proof.
  intros Hc Hh Hd Hi Hcc Hr. pose proof (repaired_shape _ _ _ _ _ Hr) as Hs. destruct Hr as (Ed & Hh1 & Hb).
  inversion Hc as [| |n0 ch0 Hl Hp Hch]; subst. set (ch' := <[Z.to_nat i := c]> ch).
  set (rs' := <[Z.to_nat i := option_map (fun _ => None) c]> rs).
  assert (length ch' = 16%nat) as Hl' by by unfold ch'; rewrite length_insert.
  assert (match r with Some _ => Some None | None => None end = option_map (fun _ => None) c :> option ChildRef) as Er.
  { by destruct r, c. }
  assert (forall j, j <> i -> agree s s1 (p ++ [j])) as Hag.
  { intros j Hj. eapply agree_below; [done|]. by apply apart_siblings. }
  assert (denotes s1 p (Branch rs') (TBranch ch')) as Hd' by by eapply branch_marked.
  assert (forall j, holds s1 (p ++ [j]) (child ch' j)) as Hhc.
  { intros j. unfold ch'. rewrite child_insert by done. case_decide as Ej; [by subst|].
    eapply holds_agree; [by apply Hag|]. apply holds_branch in Hh as [_ Hh]. apply Hh. }
  assert (forall j t, child ch' j = Some t -> canon n t) as Hcan.
  { intros j t. unfold ch'. rewrite child_insert by done. case_decide as Ej; [by intros ->|].
    intros [_ Et]%child_Some. eauto. }
  assert (forall st, repair ((p, Branch rs) :: st) (p ++ [i]) r s1
    = match remaining rs' with
      | _ :: _ :: _ => repair st p (Some (Branch rs')) (set_node p (Some (Branch rs')) s1)
      | [] => Err TrieAbort
      | [j] =>
          c <-? Trie_get (p ++ [Z.of_nat j]) s1;
          match c with
          | None => Err (TrieCorrupt (p ++ [Z.of_nat j]))
          | Some nd => repair st p (Some (merged_node [Z.of_nat j] nd)) (merged p [Z.of_nat j] nd s1)
          end
      end)%bolt as Hrep.
  { intros st. cbn [repair]. rewrite slot_at. cbn [ok_or result_bind].
    replace (Z.to_nat i <? length rs)%nat with true by (symmetry; apply Nat.ltb_lt; destruct Hd as [-> _]; lia).
    cbn [result_bind]. rewrite Er. fold rs'. destruct (remaining rs') as [|j [|]]; [done| |done].
    destruct (Trie_get (p ++ [Z.of_nat j]) s1) as [[[]|]|]; done. }
  rewrite (remaining_present _ _ _ _ Hd' Hl') in Hrep. unfold collapse.
  destruct (present ch') as [|j [|j' l]] eqn:Ep.
  - destruct (other_child ch i Hl Hp) as (j & t & Hj & Ej).
    destruct (present_nonempty ch' j t); [done| |done]. unfold ch'. by rewrite child_insert, decide_False by done.
  - destruct (present_single ch' j Hl' Ep) as (t & Et & Hoth). pose proof Et as Et'.
    apply child_Some in Et' as [_ Et']. rewrite Nat2Z.id in Et'. rewrite Et'.
    specialize (Hhc (Z.of_nat j)) as Hht. rewrite Et in Hht.
    destruct (get_node s1 (p ++ [Z.of_nat j]) t n) as (nd & Eg & Hdn); [eauto|by apply holds_node|].
    eexists _, _. split; [intros st; by rewrite Hrep, Eg|].
    eapply merged_repaired; [done|by eapply Hcan|done|done| |by eapply below_app].
    intros q Hq Es. destruct (strip_single _ _ Hq Es) as (x & q' & -> & Hx). specialize (Hhc x).
    rewrite (Hoth x Hx) in Hhc. specialize (Hhc q'). by rewrite <-app_assoc in Hhc.
  - eexists _, _. split; [exact Hrep|]. split; [by rewrite dirty_set, decide_True|]. split.
    + eapply holds_branch_below; [done..|by apply below_set_mono|]. eapply holds_agree; [|done].
      apply agree_set, not_prefix_longer. rewrite length_app. cbn. lia.
    + eapply below_trans; [by eapply below_app|apply below_set].
Qed.

Lemma tremove_branch_Some n ch q v :
  canon n (TBranch ch) -> tlookup (TBranch ch) q = Some v -> is_Some (tremove (TBranch ch) q).
Proof.
  intros Hc Eq. destruct (tremove_spec n (TBranch ch) q v Hc Eq) as [_ Hl].
  destruct (branch_two n ch Hc) as (i & p1 & a & j & p2 & b & Hne & E1 & E2).
  destruct (tremove (TBranch ch) q); [eauto|]. cbn [olookup mbind option_bind] in Hl.
  pose proof (Hl (i :: p1)) as H1. pose proof (Hl (j :: p2)) as H2. rewrite E1 in H1. rewrite E2 in H2.
  repeat case_decide; congruence.
Qed.

(** Walking to a key the tree holds and repairing the ancestors removes it. *)
Lemma remove_follows n t : canon n t -> forall s p rest v,
  holds s p (Some t) -> tlookup t rest = Some v ->
  exists top part,
    (forall fuel st, (n < fuel)%nat -> walk fuel p rest st s = Ok (Some (top :: part ++ st)))
    /\ exists r s', (forall st, repair (part ++ st) top.1 None (Trie_remove top.1 s) = repair st p r s')
       /\ repaired s p (tremove t rest) r s'.
Proof.
  intros Hc. induction Hc as [k w Hk Hw|k n ch Hk Hn Hc IH|n ch Hl Hp Hc IH]; intros s p rest v Hh Et.
  - destruct (get_node s p (TLeaf k w) (length k)) as (nd & Eg & Hd); [by constructor|by apply holds_node|].
    destruct nd; try done. destruct Hd as [-> ->]. cbn in Et. case_bool_decide; [|done]. subst rest.
    exists (p, Leaf k w), []. split.
    + intros [|fuel] st Hf; [lia|]. cbn [walk]. rewrite Eg. cbn. by rewrite bool_decide_eq_true_2.
    + eexists _, _. split; [done|]. cbn. rewrite remove_set. split; [by rewrite dirty_set, decide_True|].
      split; [|apply below_set]. apply holds_leaf in Hh as [_ Ha]. intros q. cbn.
      destruct (decide (q = [])) as [->|Hq]; [rewrite app_nil_r; apply absent_removed|].
      apply absent_set; [by apply app_self_ne|by apply Ha].
  - destruct (get_node s p (TExt k (TBranch ch)) (length k + n)) as (nd & Eg & Hd); [by constructor|by apply holds_node|].
    destruct nd as [|k0 r0|]; try done. destruct Hd as [-> _]. rewrite tlookup_ext in Et.
    destruct (strip_cases k rest) as [(q & -> & Es)|Es]; rewrite Es in Et; [|done].
    destruct (IH s (p ++ k) q v) as (top & part & Hw & r & s1 & Hrep & Hr); [by apply holds_ext in Hh as (_ & ? & _)|done|].
    destruct (tremove_spec n (TBranch ch) q v Hc Et) as [Hoc _].
    destruct (tremove_branch_Some n ch q v Hc Et) as [t' Et']. rewrite Et' in *. destruct (repair_ext s p k (TBranch ch) t' r r0 s1 n Hk Hh Hoc Hr) as (r' & s' & Hrep' & Hr').
    exists top, (part ++ [(p, Ext k r0)]). split.
    + intros [|fuel] st Hf; [lia|]. cbn [walk]. rewrite Eg. cbn [result_bind]. rewrite Es.
      rewrite Hw by (destruct k; [done|cbn in *; lia]). by rewrite <-app_assoc.
    + exists r', s'. rewrite tremove_ext, drop_app_length, Et'. split; [|done]. intros st.
      rewrite <-app_assoc, Hrep. apply Hrep'.
  - destruct rest as [|i q]; [done|]. rewrite tlookup_branch in Et. destruct (child ch i) as [t|] eqn:Ei; [|done].
    destruct (get_node s p (TBranch ch) (S n)) as (nd & Eg & Hd); [by constructor|by apply holds_node|].
    destruct nd as [| |rs]; try done. pose proof (child_range _ _ _ Hl Ei) as Hi. pose proof Ei as [_ Ei']%child_Some.
    pose proof Hh as Hh0. apply holds_branch in Hh0 as [_ Hh0]. specialize (Hh0 i). rewrite Ei in Hh0.
    destruct (IH _ _ Ei' s (p ++ [i]) q v Hh0 Et) as (top & part & Hw & r & s1 & Hrep & Hr).
    destruct (tremove_spec n t q v (Hc _ _ Ei') Et) as [Hoc _].
    destruct (repair_branch s p rs ch i (tremove t q) r s1 n) as (r' & s' & Hrep' & Hr'); [by constructor|done..|].
    exists top, (part ++ [(p, Branch rs)]). split.
    + intros [|fuel] st Hf; [lia|]. cbn [walk]. rewrite Eg. cbn [result_bind].
      destruct (denotes_child _ _ _ _ i Hd Hi) as (c & -> & Hcs). cbn [ok_or result_bind].
      destruct c as [c|]; [|rewrite Ei in Hcs; by destruct (proj2 Hcs); eauto].
      rewrite Hw by lia. by rewrite <-app_assoc.
    + exists r', s'. rewrite tremove_branch, alter_child by done. rewrite Ei. split; [|done]. intros st.
      rewrite <-app_assoc, Hrep. apply Hrep'.
Qed.
End removal.
