(* ===== verification/TrieCommit.v ===== *)
(** * Commit

    Committing a session that holds a tree returns the hash of the tree's encoding, and writes that
    turn the stored nodes into exactly the nodes of the tree: changed nodes are stored, removed ones
    deleted, and the nodes left untouched are already right. *)

From S2P Require Import Prelude Types TrieIface Trie TrieTree TrieCodec TrieSession.
From stdpp Require Import base list list_numbers gmap fin_maps.
From Stdlib Require Import ZArith Lia.

Open Scope Z_scope.

Section commit.
Context `{K : Keccak} `{N : NodeRlp} `{NL : !NodeRlpLaws N}.

Abbreviation state := (Trie * NodeWrites)%type (only parsing).

Definition same_at (st st' : state) (r : Path) : Prop :=
  dirty st'.1 !! r = dirty st.1 !! r /\ st'.2 !! r = st.2 !! r.

(** Encoding the tree below [p] writes its changed nodes and keeps the deletions. *)
Definition encoded (st st' : state) (p : Path) (t : option tree) : Prop :=
  forall q, (dirty st'.1 !! (p ++ q) = Some None <-> dirty st.1 !! (p ++ q) = Some None)
    /\ st'.2 !! (p ++ q) = match dirty st.1 !! (p ++ q) with
                           | Some (Some _) => (fun u => Some (enc u)) <$> osubtree t q
                           | _ => st.2 !! (p ++ q)
                           end.

Definition encode_spec (st st' : state) (p : Path) (t : option tree) : Prop :=
  source st'.1 = source st.1 /\ (forall r, ~ p `prefix_of` r -> same_at st st' r) /\ encoded st st' p t.

Lemma same_refl st r : same_at st st r.
Proof. done. Qed.

(** A region left alone, with nothing changed in it. *)
Lemma encoded_same st st' p t :
  (forall q, same_at st st' (p ++ q)) -> (forall q n, dirty st.1 !! (p ++ q) <> Some (Some n)) -> encoded st st' p t.
Proof.
  intros Hs Hd q. destruct (Hs q) as [E1 E2]. rewrite E1, E2. split; [done|].
  destruct (dirty st.1 !! (p ++ q)) as [[n|]|] eqn:E; [by destruct (Hd q n)|done|done].
Qed.

Lemma encoded_after st st1 st' p t :
  (forall q, same_at st st1 (p ++ q)) -> encoded st1 st' p t -> encoded st st' p t.
Proof. intros Hs He q. destruct (Hs q) as [E1 E2]. specialize (He q). by rewrite E1, E2 in He. Qed.

Lemma encoded_before st st1 st' p t :
  (forall q, same_at st1 st' (p ++ q)) -> encoded st st1 p t -> encoded st st' p t.
Proof. intros Hs He q. destruct (Hs q) as [E1 E2]. specialize (He q). by rewrite E1, E2. Qed.

Lemma encode_spec_refl st p t :
  (forall q n, dirty st.1 !! (p ++ q) <> Some (Some n)) -> encode_spec st st p t.
Proof. intros H. split; [done|]. split; [done|]. by apply encoded_same. Qed.

Lemma clean_not_dirty s p : clean s p -> forall q n, dirty s !! (p ++ q) <> Some (Some n).
Proof. intros H q n. by rewrite H. Qed.

Lemma absent_not_dirty s p : holds s p None -> forall q n, dirty s !! (p ++ q) <> Some (Some n).
Proof. intros H q n E. specialize (H q). cbn in H. unfold absent in H. by rewrite E in H. Qed.

Lemma same_apart st st' p r :
  (forall r, ~ p `prefix_of` r -> same_at st st' r) -> apart p r -> forall q, same_at st st' (r ++ q).
Proof.
  intros H [H1 H2] q. apply H. intros Hp.
  destruct (prefix_weak_total p r (r ++ q) Hp) as [?|?]; [by apply prefix_app_r|done|done].
Qed.

Lemma same_agree st st' r :
  source st'.1 = source st.1 -> (forall q, same_at st st' (r ++ q)) -> agree st.1 st'.1 r.
Proof. intros E H. split; [done|]. intros q. apply H. Qed.

Definition child_spec (st : state) (p : Path) (i : nat) (r : option ChildRef) (c : option tree) : Prop :=
  holds st.1 (p ++ [Z.of_nat i]) c /\ oref_ok st.1 (p ++ [Z.of_nat i]) r c.

Lemma child_spec_agree st st' p i r c :
  agree st.1 st'.1 (p ++ [Z.of_nat i]) -> child_spec st p i r c -> child_spec st' p i r c.
Proof.
  intros Ha [Hh Hr]. split; [by eapply holds_agree|]. unfold oref_ok in *. repeat case_match; try done.
  by eapply ref_ok_agree.
Qed.

Definition children_spec (st st' : state) (p : Path) (i : nat) (ch : list (option tree)) : Prop :=
  source st'.1 = source st.1
  /\ (forall r, (forall j, (j < length ch)%nat -> ~ (p ++ [Z.of_nat (i + j)]) `prefix_of` r) -> same_at st st' r)
  /\ forall j c, ch !! j = Some c -> encoded st st' (p ++ [Z.of_nat (i + j)]) c.

(** One child, then the others. *)
Lemma children_spec_cons st st1 st' p i c ch :
  encode_spec st st1 (p ++ [Z.of_nat i]) c -> children_spec st1 st' p (S i) ch -> children_spec st st' p i (c :: ch).
Proof.
  intros (E1 & Hs1 & He1) (E2 & Hs2 & He2). split; [congruence|]. split.
  - intros r Hr. destruct (Hs1 r) as [A1 A2]; [specialize (Hr 0%nat); rewrite Nat.add_0_r in Hr; apply Hr; cbn; lia|].
    destruct (Hs2 r) as [B1 B2]; [|split; congruence].
    intros j Hj. specialize (Hr (S j)). rewrite Nat.add_succ_r in Hr. apply Hr. cbn. lia.
  - intros [|j] d Ed; cbn in Ed.
    + simplify_eq. rewrite Nat.add_0_r. eapply encoded_before; [|done]. intros q. apply Hs2. intros j Hj Hp.
      rewrite <-app_assoc in Hp. apply prefix_app_same, prefix_cons_inv_1 in Hp. lia.
    + rewrite Nat.add_succ_r. eapply encoded_after; [|by apply He2]. eapply same_apart; [done|].
      apply apart_siblings. lia.
Qed.

Lemma encode_children_follows f p (P : tree -> Prop) :
  (forall c i st, P c -> holds st.1 (p ++ [Z.of_nat i]) (Some c) ->
     exists st', f (p ++ [Z.of_nat i]) st = Ok (enc c, st') /\ encode_spec st st' (p ++ [Z.of_nat i]) (Some c)) ->
  forall rs ch i st, length rs = length ch ->
    (forall t, Some t ∈ ch -> P t) ->
    (forall j r c, rs !! j = Some r -> ch !! j = Some c -> child_spec st p (i + j) r c) ->
    exists st', encode_children f p i rs st = Ok (map (option_map (fun t => Some (tref t))) ch, st')
      /\ children_spec st st' p i ch.
Proof.
  intros Hf rs. induction rs as [|r rs IH]; intros [|c ch] i st Hl Hc Hr; try done.
  { exists st. done. }
  assert (child_spec st p i r c) as [Hh Hrc] by (specialize (Hr 0%nat); rewrite Nat.add_0_r in Hr; by apply Hr).
  assert (forall st1, encode_spec st st1 (p ++ [Z.of_nat i]) c ->
    exists st', encode_children f p (S i) rs st1 = Ok (map (option_map (fun t => Some (tref t))) ch, st')
      /\ children_spec st st' p i (c :: ch)) as Hrest.
  { intros st1 Hs. destruct (IH ch (S i) st1) as (st' & E & Hs').
    - by injection Hl.
    - intros t Ht. apply Hc. by right.
    - intros j r' c' Er Ec. specialize (Hr (S j) r' c' Er Ec). rewrite Nat.add_succ_r in Hr.
      eapply child_spec_agree; [|done]. destruct Hs as (E1 & Hs1 & _). apply same_agree; [done|].
      eapply same_apart; [done|]. apply apart_siblings. lia.
    - exists st'. split; [done|]. by eapply children_spec_cons. }
  destruct r as [[b|]|], c as [t|]; try done.
  - destruct Hrc as [-> Hcl]. destruct (Hrest st) as (st' & E & Hs); [by apply encode_spec_refl, clean_not_dirty|].
    exists st'. split; [|done]. cbn [encode_children]. by rewrite E.
  - destruct (Hf t i st) as (st1 & E1 & Hs1); [apply Hc; by left|done|].
    destruct (Hrest st1 Hs1) as (st' & E & Hs). exists st'. split; [|done]. cbn [encode_children]. rewrite E1.
    cbn [result_bind]. by rewrite E.
  - destruct (Hrest st) as (st' & E & Hs); [by apply encode_spec_refl, absent_not_dirty|].
    exists st'. split; [|done]. cbn [encode_children]. by rewrite E.
Qed.

(** The node itself is written last. *)
Definition write_node (p : Path) (n : Node) (rlp : bytes) (st : state) : state :=
  (set_node p (Some n) st.1, <[p := Some rlp]> st.2).

Lemma same_write p n rlp st r : r <> p -> same_at st (write_node p n rlp st) r.
Proof.
  intros Hr. split; cbn [write_node fst snd].
  - by rewrite dirty_set, decide_False.
  - by apply (lookup_insert_ne st.2).
Qed.

Lemma encoded_write st st1 p n0 t n :
  dirty st.1 !! p = Some (Some n0) ->
  (forall i q, (dirty st1.1 !! (p ++ i :: q) = Some None <-> dirty st.1 !! (p ++ i :: q) = Some None)
    /\ st1.2 !! (p ++ i :: q) = match dirty st.1 !! (p ++ i :: q) with
                               | Some (Some _) => (fun u => Some (enc u)) <$> subtree t (i :: q)
                               | _ => st.2 !! (p ++ i :: q)
                               end) ->
  encoded st (write_node p n (enc t) st1) p (Some t).
Proof.
  intros Ed Hq [|i q].
  - rewrite app_nil_r. cbn [write_node fst snd]. rewrite dirty_set, decide_True, (lookup_insert_eq st1.2), Ed by done.
    cbn. rewrite subtree_nil. split; [split; congruence|done].
  - destruct (same_write p n (enc t) st1 (p ++ i :: q)) as [-> ->].
    + intros E. by apply (app_self_ne p (i :: q)).
    + apply Hq.
Qed.

Lemma encode_spec_write st st1 p n0 t n :
  dirty st.1 !! p = Some (Some n0) -> source st1.1 = source st.1 ->
  (forall r, ~ p `prefix_of` r -> same_at st st1 r) ->
  (forall i q, (dirty st1.1 !! (p ++ i :: q) = Some None <-> dirty st.1 !! (p ++ i :: q) = Some None)
    /\ st1.2 !! (p ++ i :: q) = match dirty st.1 !! (p ++ i :: q) with
                               | Some (Some _) => (fun u => Some (enc u)) <$> subtree t (i :: q)
                               | _ => st.2 !! (p ++ i :: q)
                               end) ->
  encode_spec st (write_node p n (enc t) st1) p (Some t).
Proof.
  intros Ed Es Hs Hq. split; [done|]. split; [|by eapply encoded_write]. intros r Hr.
  destruct (Hs r Hr) as [E1 E2]. destruct (same_write p n (enc t) st1 r) as [E3 E4]; [by intros ->; apply Hr|].
  split; congruence.
Qed.

(** A path that is absent and left alone satisfies the specification. *)
Lemma absent_encoded st st1 r t :
  absent st.1 r -> same_at st st1 r ->
  (dirty st1.1 !! r = Some None <-> dirty st.1 !! r = Some None)
  /\ st1.2 !! r = match dirty st.1 !! r with Some (Some _) => t | _ => st.2 !! r end.
Proof.
  intros Ha [E1 E2]. rewrite E1, E2. split; [done|]. unfold absent in Ha.
  destruct (dirty st.1 !! r) as [[n|]|]; done.
Qed.

Lemma encode_ext fuel p st k r t n :
  k <> [] -> dirty st.1 !! p = Some (Some (Ext k r)) -> holds st.1 p (Some (TExt k t)) ->
  ref_ok st.1 (p ++ k) r t -> canon n t ->
  (forall st, holds st.1 (p ++ k) (Some t) ->
     exists st', encode_at fuel (p ++ k) st = Ok (enc t, st') /\ encode_spec st st' (p ++ k) (Some t)) ->
  exists st', encode_at (S fuel) p st = Ok (enc (TExt k t), st') /\ encode_spec st st' p (Some (TExt k t)).
Proof.
  intros Hk Ed Hh Hr Hc Hrec. apply holds_ext in Hh as (_ & Hh & Ha); [|done].
  assert (exists st1, (match r with
     | Some b => Ok (Ext k (Some b), st)
     | None => (c <-? encode_at fuel (p ++ k) st; Ok (Ext k (Some (child_ref c.1)), c.2))%bolt
     end) = Ok (Ext k (Some (tref t)), st1) /\ encode_spec st st1 (p ++ k) (Some t)) as (st1 & E1 & Es & Hs & He).
  { destruct r as [b|].
    - destruct Hr as [-> Hcl]. exists st. split; [done|]. by apply encode_spec_refl, clean_not_dirty.
    - destruct (Hrec st Hh) as (st1 & -> & Hs). by exists st1. }
  exists (write_node p (Ext k (Some (tref t))) (enc (TExt k t)) st1). split.
  - cbn [encode_at]. rewrite Ed. destruct r as [b|]; rewrite E1; cbn [result_bind]; destruct st1; done.
  - eapply encode_spec_write; [done|done| |].
    + intros q Hq. apply Hs. intros Hp. apply Hq. by eapply prefix_app_l.
    + intros i q. rewrite subtree_ext by done. destruct (strip_cases k (i :: q)) as [(q' & Eq & ->)|E].
      * rewrite Eq, app_assoc. apply He.
      * apply absent_encoded; [by apply Ha|]. apply Hs. intros Hp%prefix_app_same. by apply (strip_not_prefix k (i :: q)).
Qed.

Lemma encode_branch fuel p st rs ch n :
  dirty st.1 !! p = Some (Some (Branch rs)) -> holds st.1 p (Some (TBranch ch)) -> canon (S n) (TBranch ch) ->
  (forall c i st, Some c ∈ ch -> holds st.1 (p ++ [Z.of_nat i]) (Some c) ->
     exists st', encode_at fuel (p ++ [Z.of_nat i]) st = Ok (enc c, st')
       /\ encode_spec st st' (p ++ [Z.of_nat i]) (Some c)) ->
  exists st', encode_at (S fuel) p st = Ok (enc (TBranch ch), st') /\ encode_spec st st' p (Some (TBranch ch)).
Proof.
  intros Ed Hh Hc Hrec. inversion Hc as [| |n0 ch0 Hl Hp Hch]; subst. apply holds_branch in Hh as [Hn Hh].
  unfold node_ok in Hn. rewrite Ed in Hn. destruct Hn as [Hlr Hr].
  assert (forall {A} (l : list (option A)) j c, l !! j = Some c -> child l (Z.of_nat j) = c) as Hcl.
  { intros A l j c E. by rewrite child_nat, E. }
  destruct (encode_children_follows (encode_at fuel) p (fun c => Some c ∈ ch) Hrec rs ch 0 st) as (st1 & E1 & Es & Hs & He).
  - congruence.
  - done.
  - intros j r c Er Ec. cbn. split; [specialize (Hh (Z.of_nat j))|specialize (Hr (Z.of_nat j))].
    + by rewrite (Hcl _ _ _ _ Ec) in Hh.
    + by rewrite (Hcl _ _ _ _ Ec), (Hcl _ _ _ _ Er) in Hr.
  - exists (write_node p (root_node (TBranch ch)) (enc (TBranch ch)) st1). split.
    + cbn [encode_at]. rewrite Ed, E1. cbn [result_bind fst snd].
      change (Branch (map _ ch)) with (root_node (TBranch ch)). destruct st1. by rewrite encode_root_node.
    + eapply encode_spec_write; [done|done| |].
      * intros r Hrp. apply Hs. intros j Hj Hpre. apply Hrp. by eapply prefix_app_l.
      * intros i q. rewrite subtree_branch. replace (p ++ i :: q) with ((p ++ [i]) ++ q) by by rewrite <-app_assoc.
        destruct (decide (0 <= i < 16)) as [Hi|Hi].
        -- destruct (lookup_lt_is_Some_2 ch (Z.to_nat i)) as [c Ec]; [lia|]. specialize (He _ _ Ec q).
           pose proof (Hcl _ _ _ _ Ec) as Ec'. rewrite Z2Nat.id in Ec' by lia. rewrite Ec'. cbn [Nat.add] in He.
           by rewrite Z2Nat.id in He by lia.
        -- destruct (child ch i) as [c|] eqn:Ec; [by apply child_range in Ec|]. specialize (Hh i q). rewrite Ec in Hh.
           apply absent_encoded; [done|]. apply Hs. intros j Hj Hpre. rewrite <-app_assoc in Hpre.
           apply prefix_app_same, prefix_cons_inv_1 in Hpre. lia.
Qed.

(** Encoding follows the reference encoding. *)
Lemma encode_follows n t : canon n t -> forall fuel p st,
  holds st.1 p (Some t) -> (n < fuel)%nat ->
  exists st', encode_at fuel p st = Ok (enc t, st') /\ encode_spec st st' p (Some t).
Proof.
  intros Hc. induction Hc as [k w Hk Hw|k n ch Hk Hn Hc IH|n ch Hl Hp Hc IH]; intros fuel p st Hh Hf;
    (destruct fuel as [|fuel]; [lia|]); pose proof (holds_node _ _ _ Hh) as Hno; unfold node_ok in Hno;
    (destruct (dirty st.1 !! p) as [[nd|]|] eqn:Ed; [|done|
       destruct Hno as [Es Hcl]; exists st; split;
         [cbn [encode_at]; by rewrite Ed, Es|by apply encode_spec_refl, clean_not_dirty]]).
  - destruct nd; try done. destruct Hno as [-> ->].
    exists (write_node p (Leaf k w) (enc (TLeaf k w)) st). split; [cbn [encode_at]; rewrite Ed; by destruct st|].
    eapply encode_spec_write; [done|done|done|]. intros i q. apply holds_leaf in Hh as [_ Ha].
    by apply absent_encoded; [apply Ha|].
  - destruct nd as [|k0 r|]; try done. destruct Hno as [-> Hr].
    eapply encode_ext; [done..|]. intros st1 Hh1. apply IH; [done|]. destruct k; [done|cbn in *; lia].
  - destruct nd as [| |rs]; try done. eapply (encode_branch fuel p st rs ch n); [done|done|by constructor|].
    intros c i st1 [j Hj]%list_elem_of_lookup Hh1. eapply IH; [done|done|lia].
Qed.

(** ** The nodes of a tree *)

Fixpoint tnode_list (t : tree) : list (Path * bytes) :=
  ([], enc t) ::
  match t with
  | TLeaf _ _ => []
  | TExt k t => map (fun x => (k ++ x.1, x.2)) (tnode_list t)
  | TBranch ch =>
      mjoin (zip_with (fun i l => map (fun x => (Z.of_nat i :: x.1, x.2)) l) (seq 0 16)
                (map (fun c => match c with Some t => tnode_list t | None => [] end) ch))
  end.

Definition tnodes (t : option tree) : gmap Path bytes :=
  match t with Some t => list_to_map (tnode_list t) | None => ∅ end.

Lemma elem_of_branch_nodes (ls : list (list (Path * bytes))) q b :
  length ls = 16%nat ->
  (q, b) ∈ mjoin (zip_with (fun i l => map (fun x => (Z.of_nat i :: x.1, x.2)) l) (seq 0 16) ls)
  <-> exists i l q', ls !! i = Some l /\ q = Z.of_nat i :: q' /\ (q', b) ∈ l.
Proof.
  intros Hl. rewrite list_elem_of_join. split.
  - intros (l & Hq & [j Hj]%list_elem_of_lookup). rewrite lookup_zip_with_Some in Hj.
    destruct Hj as (i & l' & -> & [-> Hi]%lookup_seq & Hl'). change (map ?f l') with (f <$> l') in Hq.
    apply list_elem_of_fmap in Hq as ([q' b'] & [= -> ->] & Hq). by exists j, l', q'.
  - intros (i & l & q' & Hi & -> & Hq). exists (map (fun x => (Z.of_nat i :: x.1, x.2)) l). split.
    + change (map ?f l) with (f <$> l). apply list_elem_of_fmap. by exists (q', b).
    + apply list_elem_of_lookup. exists i. rewrite lookup_zip_with_Some. exists i, l. split; [done|].
      split; [|done]. apply lookup_seq. apply lookup_lt_Some in Hi. lia.
Qed.

Lemma elem_of_tnode_list n t : canon n t -> forall q b,
  (q, b) ∈ tnode_list t <-> exists u, subtree t q = Some u /\ b = enc u.
Proof.
  intros Hc. assert (forall t q b, ((q, b) = ([], enc t) \/ (exists u, q <> [] /\ subtree t q = Some u /\ b = enc u))
    <-> exists u, subtree t q = Some u /\ b = enc u) as Hroot.
  { intros t0 q b. split.
    - intros [[= -> ->]|(u & _ & ? & ?)]; [|eauto]. exists t0. by rewrite subtree_nil.
    - intros (u & E & ->). destruct (decide (q = [])) as [->|]; [|eauto 6]. rewrite subtree_nil in E. left. congruence. }
  induction Hc as [k w Hk Hw|k n ch Hk Hn Hc IH|n ch Hl Hp Hc IH]; intros q b; cbn [tnode_list]; rewrite elem_of_cons, <-Hroot;
    apply or_iff_compat_l.
  - split; [set_solver|]. intros (u & Hq & E & _). by destruct q.
  - change (map ?f (tnode_list (TBranch ch))) with (f <$> tnode_list (TBranch ch)). rewrite list_elem_of_fmap. split.
    + intros ([q' b'] & [= -> ->] & Hq). apply IH in Hq as (u & E & Eb). exists u. split; [by destruct k|].
      rewrite subtree_ext, strip_app by (by destruct k). done.
    + intros (u & Hq & E & ->). rewrite subtree_ext in E by done.
      destruct (strip_cases k q) as [(r & -> & Es)|Es]; rewrite Es in E; [|done].
      exists (r, enc u). split; [done|]. apply IH. eauto.
  - rewrite elem_of_branch_nodes by (by rewrite length_map). change (map ?f ch) with (f <$> ch). split.
    + intros (i & l & q' & Hi & -> & Hq). rewrite list_lookup_fmap in Hi.
      destruct (ch !! i) as [[t|]|] eqn:Ei; [|injection Hi as <-; set_solver|done]. injection Hi as <-.
      apply (IH _ _ Ei) in Hq as (u & E & ->). exists u. split; [done|]. rewrite subtree_branch, child_nat, Ei. done.
    + intros (u & Hq & E & ->). destruct q as [|i q]; [done|]. rewrite subtree_branch in E.
      destruct (child ch i) as [t|] eqn:Ei; [|done]. apply child_Some in Ei as [Hi Ei].
      exists (Z.to_nat i), (tnode_list t), q. rewrite list_lookup_fmap, Ei. split; [done|].
      split; [f_equal; lia|]. apply (IH _ _ Ei). eauto.
Qed.

Lemma lookup_tnodes n t q : ocanon n t -> tnodes t !! q = enc <$> osubtree t q.
Proof.
  destruct t as [t|]; [|done]. intros Hc. cbn [tnodes osubtree mbind option_bind].
  destruct (subtree t q) as [u|] eqn:E; cbn.
  - apply elem_of_list_to_map_1'.
    + intros b (u' & E' & ->)%(elem_of_tnode_list n t Hc). congruence.
    + apply (elem_of_tnode_list n t Hc). eauto.
  - apply not_elem_of_list_to_map_1. intros ([q' b] & -> & Hq)%list_elem_of_fmap.
    apply (elem_of_tnode_list n t Hc) in Hq as (u & E' & _). cbn in E. congruence.
Qed.

(** ** Commit *)

Definition troot (t : option tree) : B256 := match t with Some t => keccak256 (enc t) | None => EMPTY_ROOT_HASH end.

Lemma commit_follows n s t :
  ocanon n t -> (n < COMMIT_FUEL)%nat -> holds s [] t ->
  exists writes, Trie_commit s = Ok (troot t, writes) /\ apply_writes writes (source s) = tnodes t.
Proof.
  intros Hc Hn Hh.
  assert (exists st, (match t with
                      | None => Ok (EMPTY_ROOT_HASH, (s, ∅))
                      | Some _ => r <-? encode_at COMMIT_FUEL [] (s, ∅); Ok (keccak256 r.1, r.2)
                      end)%bolt = Ok (troot t, st) /\ encode_spec (s, ∅) st [] t) as (st & E & Es & _ & He).
  { destruct t as [t|].
    - destruct (encode_follows n t Hc COMMIT_FUEL [] (s, ∅)) as (st & -> & Hs); [done|done|]. by exists st.
    - exists (s, ∅). split; [done|]. by apply encode_spec_refl, absent_not_dirty. }
  destruct st as [s' w]. eexists. split.
  { unfold Trie_commit. pose proof (Hh []) as H0. destruct t as [t|]; cbn in H0.
    - rewrite subtree_nil in H0. destruct (get_node s [] t n Hc H0) as (nd & -> & _). cbn [result_bind].
      rewrite E. cbn [result_bind]. reflexivity.
    - rewrite (get_absent s []) by done. injection E as E1 E2. cbn [result_bind]. rewrite E1, E2. reflexivity. }
  apply map_eq. intros p. rewrite (lookup_tnodes n) by done.
  destruct (He p) as [Hd Hw]. cbn [app fst snd] in Hd, Hw. 
  rewrite (lookup_empty p : (∅ : NodeWrites) !! p = None) in Hw. specialize (Hh p). cbn [app] in Hh.
  unfold apply_writes. rewrite lookup_merge, (lookup_merge _ w).
  change (@lookup _ _ (gmap Path (option bytes)) _ p w) with (w !! p). rewrite Hw.
  destruct (osubtree t p) as [u|]; [unfold node_ok in Hh|unfold absent in Hh]; cbn [fmap option_fmap option_map].
  - destruct (dirty s !! p) as [[nd|]|] eqn:Ed; [done|done|]. destruct Hh as [-> _].
    destruct (dirty s' !! p) as [[|]|]; [done|by destruct (proj1 Hd)|done].
  - destruct (dirty s !! p) as [[nd|]|] eqn:Ed; [done|by rewrite (proj2 Hd)|]. rewrite Hh.
    destruct (dirty s' !! p) as [[|]|]; [done|by destruct (proj1 Hd)|done].
Qed.
End commit.
