(* ===== verification/TrieProps.v ===== *)
(** * The trie keeps its promise

    The tree of a content ([tree_of]), its nodes and root, and the proof that the operations of
    crates/store/src/trie.rs satisfy the interface the state database relies on ([TrieLaws]): for any
    sequence of updates the committed root and the stored nodes are those of the content reached,
    and proofs of membership and absence check against the root. *)

From S2P Require Import Prelude Types TrieIface Trie TrieTree TrieCodec TrieSession TrieRemove TrieCommit.
From stdpp Require Import base list list_numbers gmap fin_maps.
From Stdlib Require Import ZArith Lia.

Open Scope Z_scope.
Open Scope bolt_scope.

Section trie.
Context `{K : Keccak} `{N : NodeRlp} `{NL : !NodeRlpLaws N}.

(** ** The tree of a content *)

Definition tree_of (m : gmap B256 bytes) : option tree :=
  map_fold (fun k v t => Some (oinsert t (to_nibbles k) v)) None m.

Definition represents (m : gmap B256 bytes) (t : option tree) : Prop :=
  ocanon 64 t /\ forall k, in_range 256 k -> olookup t (to_nibbles k) = m !! k.

Lemma oinsert_spec t p v :
  ocanon 64 t -> length p = 64%nat -> nibs p -> v <> [] ->
  canon 64 (oinsert t p v)
  /\ forall q, tlookup (oinsert t p v) q = if decide (p = q) then Some v else olookup t q.
Proof.
  intros Hc Hl Hn Hv. destruct t as [t|]; [by apply tinsert_spec|]. cbn [oinsert]. split.
  - rewrite <-Hl. by constructor.
  - intros q. cbn. case_bool_decide; by case_decide.
Qed.

Lemma represents_insert m t k v :
  represents m t -> in_range 256 k -> v <> [] -> represents (<[k := v]> m) (Some (oinsert t (to_nibbles k) v)).
Proof.
  intros [Hc Hl] Hk Hv.
  destruct (oinsert_spec t (to_nibbles k) v Hc (to_nibbles_length k) (to_nibbles_range k) Hv) as [Hc' Hl'].
  split; [done|]. intros k' Hk'. cbn [olookup mbind option_bind]. rewrite Hl'. case_decide as E.
  - apply to_nibbles_inj in E as ->; [|done..]. by rewrite lookup_insert_eq.
  - rewrite lookup_insert_ne by (by intros ->). by apply Hl.
Qed.

Lemma represents_unique m t t' : represents m t -> represents m t' -> t = t'.
Proof.
  assert (forall u u', represents m (Some u) -> represents m u' -> u' = Some u) as Hs.
  { intros u u' [Hc Hl] [Hc' Hl']. assert (forall p, tlookup u p = olookup u' p) as Heq.
    { intros p. destruct (decide (length p = 64%nat /\ nibs p)) as [[Hp Hn]|Hp].
      - destruct (to_nibbles_surj p Hp Hn) as (k & Hk & <-). specialize (Hl k Hk). specialize (Hl' k Hk). by rewrite Hl'.
      - transitivity (None : option bytes).
        + destruct (tlookup u p) as [v|] eqn:E; [|done]. by apply (canon_lookup 64) in E as (? & ? & _); [destruct Hp|].
        + destruct u' as [u'|]; [|done]. destruct (olookup (Some u') p) as [v|] eqn:E; [|done].
          by apply (canon_lookup 64) in E as (? & ? & _); [destruct Hp|]. }
    destruct u' as [u'|].
    - f_equal. symmetry. by eapply (canon_content 64).
    - destruct (canon_inhabited 64 u Hc) as (p & v & E). by rewrite Heq in E. }
  intros H H'. destruct t as [t|]; [symmetry; by apply Hs|]. destruct t' as [t'|]; [|done]. by apply Hs.
Qed.

Lemma content_ok_delete m k : content_ok m -> content_ok (delete k m).
Proof. apply map_Forall_delete. Qed.

Lemma tree_of_represents m : content_ok m -> represents m (tree_of m).
Proof.
  unfold tree_of. revert m.
  apply (map_fold_weak_ind (fun r m => content_ok m -> represents m r)); [done|].
  intros k v m r Hk IH Hm. assert (content_ok m) as Hm' by by eapply map_Forall_insert_1_2.
  destruct (map_Forall_insert_1_1 _ _ _ _ Hm) as [Hr Hv]. by apply represents_insert; [apply IH|..].
Qed.

Lemma tree_of_unique m t : content_ok m -> represents m t -> tree_of m = t.
Proof. intros Hm. by apply represents_unique, tree_of_represents. Qed.

Lemma tree_of_insert m k v :
  content_ok m -> in_range 256 k -> v <> [] -> tree_of (<[k := v]> m) = Some (oinsert (tree_of m) (to_nibbles k) v).
Proof.
  intros Hm Hk Hv. apply tree_of_unique; [by apply map_Forall_insert_2|].
  by apply represents_insert; [apply tree_of_represents|..].
Qed.

Lemma tree_of_delete m k t :
  content_ok m -> in_range 256 k -> tree_of m = Some t -> is_Some (m !! k) ->
  tree_of (delete k m) = tremove t (to_nibbles k).
Proof.
  intros Hm Hk Et [v Ek]. destruct (tree_of_represents m Hm) as [Hc Hl]. rewrite Et in *.
  assert (tlookup t (to_nibbles k) = Some v) as Ev by by rewrite <-Ek, <-Hl.
  destruct (tremove_spec 64 t _ v Hc Ev) as [Hc' Hl']. apply tree_of_unique; [by apply content_ok_delete|].
  split; [done|]. intros k' Hk'. rewrite Hl'. case_decide as E.
  - apply to_nibbles_inj in E as ->; [|done..]. by rewrite lookup_delete_eq.
  - rewrite lookup_delete_ne by (by intros ->). by apply Hl.
Qed.

(** ** Sessions over the nodes of a content *)

Definition nodes_of_content (m : gmap B256 bytes) : gmap Path bytes := tnodes (tree_of m).
Definition root_of_content (m : gmap B256 bytes) : B256 := troot (tree_of m).

Definition session_of (m0 m : gmap B256 bytes) (s : Trie) : Prop :=
  content_ok m0 /\ content_ok m /\ source s = nodes_of_content m0 /\ holds s [] (tree_of m).

Lemma session_new m : content_ok m -> session_of m m (Trie_new (nodes_of_content m)).
Proof.
  intros Hm. split; [done|]. split; [done|]. split; [done|]. intros p. cbn [app].
  destruct (tree_of_represents m Hm) as [Hc _]. pose proof (lookup_tnodes 64 (tree_of m) p Hc) as E.
  destruct (osubtree (tree_of m) p) as [u|]; cbn in E; [|by unfold absent; cbn; rewrite lookup_empty].
  unfold node_ok, clean. cbn. by rewrite lookup_empty.
Qed.

Lemma session_insert m0 m s k v :
  session_of m0 m s -> in_range 256 k -> v <> [] ->
  exists s', Trie_insert k v s = Ok s' /\ session_of m0 (<[k := v]> m) s'.
Proof.
  intros (Hm0 & Hm & Hs & Hh) Hk Hv. destruct (tree_of_represents m Hm) as [Hc _].
  assert (inserted (S (length (to_nibbles k))) [] (to_nibbles k) v s (tree_of m)) as (s' & E & Hh' & Hb).
  { destruct (tree_of m) as [t|]; [|by apply insert_none; [lia|]].
    eapply (insert_follows 64); [done|done|apply to_nibbles_length|apply to_nibbles_range|rewrite to_nibbles_length; lia]. }
  exists s'. split; [done|]. split; [done|]. split; [by apply map_Forall_insert_2|].
  split; [by rewrite (proj1 Hb)|]. by rewrite tree_of_insert.
Qed.

Lemma session_remove m0 m s k :
  session_of m0 m s -> in_range 256 k ->
  exists s', Trie_remove_key k s = Ok s' /\ session_of m0 (delete k m) s'.
Proof.
  intros (Hm0 & Hm & Hs & Hh) Hk. destruct (tree_of_represents m Hm) as [Hc Hl]. unfold Trie_remove_key.
  assert (64 < S (length (to_nibbles k)))%nat as Hf by (rewrite to_nibbles_length; lia).
  destruct (m !! k) as [v|] eqn:Ek.
  - specialize (Hl k Hk). rewrite Ek in Hl. destruct (tree_of m) as [t|] eqn:Et; [|done].
    destruct (remove_follows 64 t Hc s [] (to_nibbles k) v Hh Hl) as (top & part & Hw & r & s' & Hr & Ed & Hh' & Hb).
    rewrite (Hw _ _ Hf), app_nil_r. cbn [result_bind]. destruct top as [lp nd].
    specialize (Hr []). rewrite app_nil_r in Hr. cbn [fst] in Hr. rewrite Hr. exists s'. split; [done|].
    split; [done|]. split; [by apply content_ok_delete|]. split; [by rewrite (proj1 Hb)|].
    by rewrite (tree_of_delete m k t).
  - exists s. rewrite delete_id by done. split; [|done].
    assert (walk (S (length (to_nibbles k))) [] (to_nibbles k) [] s = Ok None) as ->; [|done].
    specialize (Hl k Hk). rewrite Ek in Hl. destruct (tree_of m) as [t|] eqn:Et.
    + eapply (walk_absent 64); [done|done|apply to_nibbles_length|apply to_nibbles_range|done|done].
    + cbn [walk]. by rewrite (get_absent s []) by apply (Hh []).
Qed.

Lemma session_commit m0 m s :
  session_of m0 m s ->
  exists writes, Trie_commit s = Ok (root_of_content m, writes)
    /\ apply_writes writes (nodes_of_content m0) = nodes_of_content m.
Proof.
  intros (Hm0 & Hm & <- & Hh). destruct (tree_of_represents m Hm) as [Hc _].
  eapply (commit_follows 64); [done|unfold COMMIT_FUEL; lia|done].
Qed.

Lemma tree_of_empty : tree_of ∅ = None.
Proof. by apply tree_of_unique. Qed.

(** The operations of the trie, and that they keep the contract. *)
Definition real_trie : TrieOps := {|
  Session := Trie;
  trie_new := Trie_new;
  trie_insert := Trie_insert;
  trie_remove_key := Trie_remove_key;
  trie_commit := Trie_commit;
|}.

#[export] Instance real_trie_laws : TrieLaws real_trie.
Proof.
  refine {| nodes_of := nodes_of_content; root_of := root_of_content;
            editing := session_of : _ -> _ -> @Session real_trie -> Prop |}.
  - unfold nodes_of_content. by rewrite tree_of_empty.
  - unfold root_of_content. by rewrite tree_of_empty.
  - exact session_new.
  - exact session_insert.
  - exact session_remove.
  - exact session_commit.
Defined.

(** ** A run of updates *)

(** A key with its new value, or [None] to remove it. *)
Definition trie_update (u : B256 * option bytes) (s : Trie) : result TrieError Trie :=
  match u with
  | (k, Some v) => Trie_insert k v s
  | (k, None) => Trie_remove_key k s
  end.

Fixpoint trie_updates (us : list (B256 * option bytes)) (s : Trie) : result TrieError Trie :=
  match us with
  | [] => Ok s
  | u :: us => s <-? trie_update u s; trie_updates us s
  end.

Definition content_update (m : gmap B256 bytes) (u : B256 * option bytes) : gmap B256 bytes :=
  partial_alter (fun _ => u.2) u.1 m.

Definition update_ok (u : B256 * option bytes) : Prop := in_range 256 u.1 /\ u.2 <> Some [].

Lemma updates_follow us : forall m0 m s,
  session_of m0 m s -> Forall update_ok us ->
  exists s', trie_updates us s = Ok s' /\ session_of m0 (foldl content_update m us) s'.
Proof.
  induction us as [|[k o] us IH]; intros m0 m s Hs Hu; [by exists s|].
  apply Forall_cons in Hu as [[Hk Ho] Hu]. cbn [trie_updates trie_update foldl].
  assert (exists s1, trie_update (k, o) s = Ok s1 /\ session_of m0 (content_update m (k, o)) s1) as (s1 & E & Hs1).
  { destruct o as [v|]; [|by apply session_remove]. apply session_insert; [done|done|]. intros ->. by apply Ho. }
  cbn [trie_update] in E. rewrite E. cbn [result_bind]. by apply IH.
Qed.
End trie.
