(* ===== verification/TrieProofs.v ===== *)
(** * What the root commits to

    The root determines the content as long as no two nodes collide, and the proofs that
    crates/store/src/trie.rs builds are accepted by the check of EIP-1186 ([check_proof]): hash
    the first node to the root, follow the key through the nodes, resolve each 32-byte reference by
    the next node of the proof. *)

From S2P Require Import Prelude Types TrieIface Trie TrieTree TrieCodec TrieSession TrieRemove TrieCommit TrieProps.
From stdpp Require Import base list list_numbers gmap fin_maps.
From Stdlib Require Import ZArith Lia.

Open Scope Z_scope.
Open Scope bolt_scope.

Section proofs.
Context `{K : Keccak} `{KL : !KeccakLaws K} `{N : NodeRlp} `{NL : !NodeRlpLaws N}.

(** ** The root determines the content *)

(** [P] holds of the tree and of every subtree. *)
Definition all_subtrees (P : tree -> Prop) (t : tree) : Prop := forall q u, subtree t q = Some u -> P u.

Lemma all_subtrees_ext P k t : k <> [] -> all_subtrees P (TExt k t) -> all_subtrees P t.
Proof.
  intros Hk H q u E. apply (H (k ++ q)). rewrite subtree_ext by (by destruct k). by rewrite strip_app.
Qed.

Lemma all_subtrees_child P ch i t : child ch i = Some t -> all_subtrees P (TBranch ch) -> all_subtrees P t.
Proof. intros Ei H q u E. apply (H (i :: q)). by rewrite subtree_branch, Ei. Qed.

Lemma all_subtrees_root P t : all_subtrees P t -> P t.
Proof. intros H. apply (H []). apply subtree_nil. Qed.

(** Trees whose encodings do not collide under the hash. *)
Definition no_collision (t t' : tree) : Prop :=
  all_subtrees (fun u => all_subtrees (fun u' => keccak256 (enc u) = keccak256 (enc u') -> enc u = enc u') t') t.

Lemma no_collision_sub t t' q q' u u' :
  no_collision t t' -> subtree t q = Some u -> subtree t' q' = Some u' ->
  keccak256 (enc u) = keccak256 (enc u') -> enc u = enc u'.
Proof. intros H Eq Eq'. exact (H q u Eq q' u' Eq'). Qed.

Lemma tref_inj u u' :
  (keccak256 (enc u) = keccak256 (enc u') -> enc u = enc u') -> tref u = tref u' -> enc u = enc u'.
Proof.
  intros Hinj. unfold tref, child_ref.
  destruct (Nat.ltb_spec (length (enc u)) 32), (Nat.ltb_spec (length (enc u')) 32); intros E; [done|..].
  - apply (f_equal length) in E. unfold b256_bytes in E. rewrite be_bytes_length in E. lia.
  - apply (f_equal length) in E. unfold b256_bytes in E. rewrite be_bytes_length in E. lia.
  - apply Hinj. apply (be_bytes_inj 32); [apply keccak_range..|done].
Qed.

Lemma enc_root_node n t n' t' : canon n t -> canon n' t' -> enc t = enc t' -> root_node t = root_node t'.
Proof.
  intros Hc Hc' E. pose proof (decode_enc n t Hc) as D. rewrite E, (decode_enc n' t' Hc') in D. congruence.
Qed.

Lemma child_map_ref (ch : list (option tree)) i :
  child (map (option_map (fun t => Some (tref t))) ch) i = option_map (fun t => Some (tref t)) (child ch i).
Proof.
  unfold child. case_match; [|done]. change (map ?f ch) with (f <$> ch). rewrite list_lookup_fmap.
  by destruct (ch !! _) as [[]|].
Qed.

Lemma no_collision_inj t t' u u' q q' :
  no_collision t t' -> subtree t q = Some u -> subtree t' q' = Some u' -> tref u = tref u' -> enc u = enc u'.
Proof. intros Hnc Eq Eq' E. apply tref_inj; [|done]. by eapply no_collision_sub. Qed.

Lemma no_collision_ext k t k' t' :
  k <> [] -> k' <> [] -> no_collision (TExt k t) (TExt k' t') -> no_collision t t'.
Proof.
  intros Hk Hk' H. apply (all_subtrees_ext _ k) in H; [|done]. intros q u Eq. specialize (H q u Eq).
  by apply (all_subtrees_ext _ k') in H.
Qed.

Lemma no_collision_child ch i t ch' j t' :
  child ch i = Some t -> child ch' j = Some t' -> no_collision (TBranch ch) (TBranch ch') -> no_collision t t'.
Proof.
  intros Ei Ej H. apply (all_subtrees_child _ _ _ _ Ei) in H. intros q u Eq. specialize (H q u Eq).
  by apply (all_subtrees_child _ _ _ _ Ej) in H.
Qed.

Lemma subtree_ext_child k t : k <> [] -> subtree (TExt k t) k = Some t.
Proof.
  intros Hk. rewrite subtree_ext by done. rewrite <-(app_nil_r k) at 2. rewrite strip_app. cbn. apply subtree_nil.
Qed.

Lemma subtree_branch_child ch i t : child ch i = Some t -> subtree (TBranch ch) [i] = Some t.
Proof. intros E. rewrite subtree_branch, E. cbn. apply subtree_nil. Qed.

(** The encoding determines the tree. *)
Lemma enc_inj n t : canon n t -> forall n' t',
  canon n' t' -> no_collision t t' -> enc t = enc t' -> t = t'.
Proof.
  intros Hc. induction Hc as [k w Hk Hw|k n ch Hk Hn Hc IH|n ch Hl Hp Hc IH]; intros n' t' Hc' Hnc E.
  - pose proof (enc_root_node (length k) (TLeaf k w) n' t' ltac:(by constructor) Hc' E) as Er.
    destruct t'; cbn in Er; congruence.
  - pose proof (enc_root_node (length k + n) (TExt k (TBranch ch)) n' t' ltac:(by constructor) Hc' E) as Er.
    destruct t' as [|k' t'|]; try done. injection Er as <- Er. f_equal.
    inversion Hc' as [|k0 n0 ch' _ _ Hb|]; subst. eapply IH; [done|by eapply no_collision_ext|].
    eapply no_collision_inj; [done|by apply subtree_ext_child..|done].
  - pose proof (enc_root_node (S n) (TBranch ch) n' t' ltac:(by constructor) Hc' E) as Er.
    destruct t' as [| |ch']; try done. injection Er as Er. f_equal.
    inversion Hc' as [| |n0 ch0 Hl' Hp' Hch]; subst. apply children_ext; [done..|]. intros i Hi.
    apply (f_equal (fun l => child l i)) in Er. rewrite !child_map_ref in Er.
    destruct (child ch i) as [t|] eqn:Et, (child ch' i) as [t'|] eqn:Et'; try done. injection Er as Er.
    f_equal. pose proof Et as [_ Et1]%child_Some. pose proof Et' as [_ Et1']%child_Some.
    eapply (IH _ _ Et1); [by eapply Hch|by eapply no_collision_child|].
    eapply no_collision_inj; [done|by apply subtree_branch_child..|done].
Qed.

(** ** Checking a proof *)

(** Follows [rest] from an encoded node; every node of the proof must be used.  [Some (Some v)]: the
    key has value [v]; [Some None]: the key is absent; [None]: the proof is rejected. *)
Fixpoint check_node (fuel : nat) (rlp : bytes) (rest : Path) (proof : list bytes) : option (option bytes) :=
  match fuel with
  | O => None
  | S fuel =>
      let finish (v : option bytes) := match proof with [] => Some v | _ => None end in
      let follow (r : bytes) (rest : Path) :=
        if (length r =? 32)%nat then
          match proof with
          | x :: proof => if bool_decide (b256_bytes (keccak256 x) = r) then check_node fuel x rest proof else None
          | [] => None
          end
        else check_node fuel r rest proof in
      match decode_node rlp with
      | Some (Leaf key v) => finish (if bool_decide (key = rest) then Some v else None)
      | Some (Ext key (Some r)) =>
          match strip key rest with Some rest => follow r rest | None => finish None end
      | Some (Branch children) =>
          match rest with
          | [] => None
          | i :: rest =>
              match children !! Z.to_nat i with
              | Some (Some (Some r)) => follow r rest
              | Some None => finish None
              | _ => None
              end
          end
      | _ => None
      end
  end.

Definition check_proof (root : B256) (key : B256) (proof : list bytes) : option (option bytes) :=
  match proof with
  | [] => if root =? EMPTY_ROOT_HASH then Some None else None
  | x :: proof => if keccak256 x =? root then check_node (S (length (to_nibbles key))) x (to_nibbles key) proof else None
  end.

(** Whether a node below the root is part of a proof: it is not embedded in its parent. *)
Definition in_proof (t : tree) : list bytes := if (32 <=? length (enc t))%nat then [enc t] else [].

Lemma tref_long t : (length (tref t) =? 32)%nat = (32 <=? length (enc t))%nat.
Proof.
  unfold tref, child_ref. destruct (Nat.ltb_spec (length (enc t)) 32) as [Hl|Hl].
  - rewrite (proj2 (Nat.eqb_neq _ _)) by lia. symmetry. apply Nat.leb_gt. lia.
  - unfold b256_bytes. rewrite be_bytes_length. symmetry. apply Nat.leb_le. lia.
Qed.

(** A reference resolved by the proof. *)
Lemma follow_tref fuel t rest l :
  (if (length (tref t) =? 32)%nat then
     match in_proof t ++ l with
     | x :: proof => if bool_decide (b256_bytes (keccak256 x) = tref t) then check_node fuel x rest proof else None
     | [] => None
     end
   else check_node fuel (tref t) rest (in_proof t ++ l)) = check_node fuel (enc t) rest l.
Proof.
  rewrite tref_long. unfold in_proof. destruct (32 <=? length (enc t))%nat eqn:E; cbn [app].
  - rewrite bool_decide_eq_true_2; [done|]. unfold tref, child_ref. apply Nat.leb_le in E.
    by replace (length (enc t) <? 32)%nat with false by (symmetry; apply Nat.ltb_ge; lia).
  - unfold tref, child_ref. apply Nat.leb_gt in E.
    by replace (length (enc t) <? 32)%nat with true by (symmetry; apply Nat.ltb_lt; lia).
Qed.

Definition proof_head (p : Path) (t : tree) : list bytes :=
  if bool_decide (p = []) || (32 <=? length (enc t))%nat then [enc t] else [].

Lemma proof_head_below p t : p <> [] -> proof_head p t = in_proof t.
Proof. intros Hp. unfold proof_head, in_proof. by rewrite bool_decide_eq_false_2. Qed.

(** The nodes collected along a key are those the check asks for. *)
Lemma proof_follows n t : canon n t -> forall fuel p rest nodes,
  (forall q, nodes !! (p ++ q) = enc <$> subtree t q) -> length rest = n -> nibs rest -> (n < fuel)%nat ->
  exists l, proof_loop fuel p rest nodes = Ok (proof_head p t ++ l)
    /\ check_node fuel (enc t) rest l = Some (tlookup t rest).
Proof.
  intros Hc0. pose proof Hc0 as Hc.
  induction Hc as [k w Hk Hw|k n ch Hk Hn Hc IH|n ch Hl Hp Hc IH]; intros fuel p rest nodes Hno Hlr Hnr Hf;
    (destruct fuel as [|fuel]; [lia|]); pose proof (Hno []) as E0; rewrite app_nil_r, subtree_nil in E0; cbn [fmap option_fmap option_map] in E0;
    cbn [proof_loop check_node]; rewrite E0, (decode_enc _ _ Hc0); cbn [ok_or result_bind root_node]; fold (proof_head p).
  - exists []. cbn. split; [done|]. case_bool_decide; done.
  - rewrite tlookup_ext. destruct (strip_cases k rest) as [(q & -> & Es)|Es]; rewrite Es; [|by exists []].
    rewrite length_app in Hlr. apply nibs_app in Hnr as [_ Hnq].
    destruct (IH Hc fuel (p ++ k) q nodes) as (l & E & Hck); [|lia|done|destruct k; [done|cbn in *; lia]|].
    { intros r. rewrite <-app_assoc, Hno. rewrite subtree_ext, strip_app by (by destruct k). done. }
    exists (in_proof (TBranch ch) ++ l). rewrite E. cbn [result_bind]. rewrite proof_head_below by (by destruct k, p).
    split; [done|]. by rewrite follow_tref.
  - destruct rest as [|i rest]; [done|]. apply Forall_cons in Hnr as [Hi Hnr]. rewrite tlookup_branch.
    change (map ?f ch) with (f <$> ch). rewrite list_lookup_fmap.
    destruct (lookup_lt_is_Some_2 ch (Z.to_nat i)) as [c Ec]; [lia|]. rewrite Ec. cbn [fmap option_fmap option_map ok_or result_bind].
    pose proof (child_nat ch (Z.to_nat i)) as Ei. rewrite Ec, Z2Nat.id in Ei by lia. cbn [from_option default id] in Ei. rewrite Ei.
    destruct c as [t|]; cbn [option_map]; [|by exists []].
    destruct (IH _ _ Ec (Hc _ _ Ec) fuel (p ++ [i]) rest nodes) as (l & E & Hck); [|cbn in Hlr; lia|done|lia|].
    { intros r. rewrite <-app_assoc, Hno. cbn [app]. by rewrite subtree_branch, Ei. }
    exists (in_proof t ++ l). rewrite E. cbn [result_bind]. rewrite proof_head_below by (by destruct p).
    split; [done|]. by rewrite follow_tref.
Qed.

(** ** Properties *)

(** C28.  Opening a session over the stored nodes of a content, applying any sequence of insertions
    and removals and committing always succeeds; the returned root is the root of the canonical tree
    of the content reached, and the writes turn the stored nodes into exactly the nodes of that
    tree: whatever the order of the updates, the incremental trie equals the one rebuilt from
    scratch, no stale node is left and the next session starts from a sound store. *)
Theorem trie_matches_content us m0 :
  content_ok m0 -> Forall update_ok us ->
  let m := foldl content_update m0 us in
  exists s writes,
    trie_updates us (Trie_new (nodes_of_content m0)) = Ok s
    /\ Trie_commit s = Ok (root_of_content m, writes)
    /\ apply_writes writes (nodes_of_content m0) = nodes_of_content m
    /\ ocanon 64 (tree_of m) /\ (forall k, in_range 256 k -> olookup (tree_of m) (to_nibbles k) = m !! k).
Proof.
  intros Hm Hu m. destruct (updates_follow us m0 m0 _ (session_new m0 Hm) Hu) as (s & E & Hs).
  destruct (session_commit m0 m s Hs) as (writes & Ec & Ew). destruct Hs as (_ & Hm' & _ & _).
  exists s, writes. split; [done|]. split; [done|]. split; [done|]. by apply tree_of_represents.
Qed.

(** No two nodes of the two tries have the same hash, and no node hashes to the empty root. *)
Definition collision_free (m m' : gmap B256 bytes) : Prop :=
  match tree_of m, tree_of m' with
  | Some t, Some t' => no_collision t t'
  | Some t, None | None, Some t => keccak256 (enc t) <> EMPTY_ROOT_HASH
  | None, None => True
  end.

(** C31.  The root commits to the content: two contents with the same root are equal, unless two
    different nodes of their tries have the same hash. *)
Theorem root_determines_content m m' :
  content_ok m -> content_ok m' -> collision_free m m' -> root_of_content m = root_of_content m' -> m = m'.
Proof.
  intros Hm Hm' Hcf E. destruct (tree_of_represents m Hm) as [Hc Hl]. destruct (tree_of_represents m' Hm') as [Hc' Hl'].
  assert (tree_of m = tree_of m') as Et.
  { unfold root_of_content, collision_free in *. destruct (tree_of m) as [t|], (tree_of m') as [t'|]; cbn in *; try done.
    f_equal. eapply enc_inj; [done..|]. by apply (no_collision_sub t t' [] [] t t' Hcf); [apply subtree_nil..|]. }
  apply map_eq. intros k. destruct (decide (0 <= k < 2 ^ 256)) as [Hk|Hk].
  - by rewrite <-Hl, <-Hl', Et.
  - transitivity (None : option bytes); [|symmetry]; apply eq_None_not_Some; intros [v Ev].
    + by destruct (Hm k v Ev).
    + by destruct (Hm' k v Ev).
Qed.

(** Merkle proofs are complete and correct: for every key, [proof] over the stored nodes of a
    content succeeds and the check of EIP-1186 accepts what it returns against the root, with the
    value the content has for the key, or its absence. *)
Theorem proof_checks m k :
  content_ok m -> in_range 256 k ->
  exists l, proof (nodes_of_content m) k = Ok l /\ check_proof (root_of_content m) k l = Some (m !! k).
Proof.
  intros Hm Hk. destruct (tree_of_represents m Hm) as [Hc Hl]. specialize (Hl k Hk). rewrite <-Hl.
  unfold proof, nodes_of_content, root_of_content in *. destruct (tree_of m) as [t|]; [|by exists []].
  destruct (proof_follows 64 t Hc (S (length (to_nibbles k))) [] (to_nibbles k) (tnodes (Some t))) as (l & E & Hck).
  - intros q. apply (lookup_tnodes 64 (Some t) q Hc).
  - apply to_nibbles_length.
  - apply to_nibbles_range.
  - rewrite to_nibbles_length. lia.
  - unfold proof_head in E. rewrite bool_decide_eq_true_2 in E by done. cbn [orb app] in E. exists (enc t :: l).
    split; [done|]. cbn [check_proof troot]. by rewrite Z.eqb_refl.
Qed.
End proofs.

(** ** Witnesses *)

Module TrieWitness.
(** A hash with 256-bit results, and an item codec in which a header is a kind and a length. *)
#[export] Instance toy_hash : Keccak := fun b => be_val (1 :: b) mod 2 ^ 256.

#[export] Instance toy_hash_laws : KeccakLaws toy_hash.
Proof. intros b. apply Z.mod_pos_bound. lia. Qed.

#[export] Instance toy_node_rlp : NodeRlp := {|
  rlp_string s := match s with [] => [EMPTY_STRING_CODE] | _ => 0 :: Z.of_nat (length s) :: s end;
  rlp_list_header n := [1; n];
  rlp_header_decode b :=
    match b with
    | 0 :: n :: r => Some (false, n, r)
    | 1 :: n :: r => Some (true, n, r)
    | x :: r => if x =? EMPTY_STRING_CODE then Some (false, 0, r) else None
    | [] => None
    end;
|}.

#[export] Instance toy_node_rlp_laws : NodeRlpLaws toy_node_rlp.
Proof.
  split; cbn.
  - intros [|x s]; [by exists [EMPTY_STRING_CODE]|]. by eexists [_; _].
  - done.
  - intros [|x s] r; [by destruct r|done].
  - done.
Qed.

Definition updates : list (B256 * option bytes) := [(1, Some [5]); (2 ^ 255, Some [6]); (3, Some [7]); (1, None); (9, None)].

Lemma updates_ok : Forall update_ok updates.
Proof. repeat (apply Forall_cons; split; [by split|]). by apply Forall_nil. Qed.

Definition content : gmap B256 bytes := <[2 ^ 255 := [6]]> {[ 3 := [7] ]}.

Lemma content_is_ok : content_ok content.
Proof. by apply map_Forall_insert_2, map_Forall_singleton. Qed.

Lemma trie_matches_content_witness :
  exists s writes,
    trie_updates updates (Trie_new (nodes_of_content content)) = Ok s
    /\ Trie_commit s = Ok (root_of_content (foldl content_update content updates), writes).
Proof.
  destruct (trie_matches_content updates content content_is_ok updates_ok) as (s & writes & E & Ec & _).
  exists s, writes. exact (conj E Ec).
Defined.

(** The session run on the empty store ends with the content's own root. *)
Example updates_computed :
  (s <-? trie_updates updates (Trie_new ∅); r <-? Trie_commit s; Ok r.1) = Ok (root_of_content content).
Proof. vm_compute. reflexivity. Qed.

Lemma root_determines_content_witness :
  root_of_content (<[3 := [7]]> {[ 3 := [8] ]}) = root_of_content {[ 3 := [7] ]}
  /\ <[3 := [7]]> {[ 3 := [8] ]} = ({[ 3 := [7] ]} : gmap B256 bytes).
Proof.
  split; [vm_compute; reflexivity|].
  assert (content_ok {[ 3 := [7] ]}) as Hok by by apply map_Forall_singleton.
  apply root_determines_content.
  - by apply map_Forall_insert_2, map_Forall_singleton.
  - done.
  - unfold collision_free.
    replace (tree_of (<[3 := [7]]> {[ 3 := [8] ]})) with (Some (TLeaf (to_nibbles 3) [7])) by (vm_compute; reflexivity).
    replace (tree_of {[ 3 := [7] ]}) with (Some (TLeaf (to_nibbles 3) [7])) by (vm_compute; reflexivity).
    intros [|x q] u E [|x' q'] u' E'; try done. injection E as <-. injection E' as <-. done.
  - vm_compute. reflexivity.
Defined.

Lemma proof_checks_witness :
  exists l, proof (nodes_of_content content) (2 ^ 255) = Ok l
    /\ check_proof (root_of_content content) (2 ^ 255) l = Some (Some [6]).
Proof. exact (proof_checks content (2 ^ 255) content_is_ok (conj (Z.pow_nonneg 2 255 ltac:(lia)) (Z.pow_lt_mono_r 2 255 256 ltac:(lia) ltac:(lia) ltac:(lia)))). Defined.
End TrieWitness.
