(* ===== verification/Store.v ===== *)
(** * The state database

    Models crates/store/src/db.rs and state.rs: the flat account and storage tables, the tries kept
    beside them, the history of prior values, and the block tables.  A libmdbx table is a [gmap]
    from the tuple its key bytes encode to the value its bytes encode; a transaction is the record
    of its tables ([Tx]) and a method of [Tx] a function on it.  Keys have fixed width and libmdbx
    orders them by their bytes, so a cursor walks the tuples in lexicographic order.  Failures of
    libmdbx itself are left out; the code's own errors are values of [StoreError]. *)

From S2P Require Import Prelude Types TxPool Ipld TrieIface.
From stdpp Require Import base list list_numbers sorting gmap fin_maps strings.
From Stdlib Require Import ZArith Lia.

Open Scope Z_scope.

Inductive StoreError :=
  | StoreCorrupt (what : string)
  | StoreTrie (e : TrieError).

Definition HISTORY_BLOCKS : Z := 128.

(** keccak-256 of the empty string (crate alloy-trie). *)
Definition KECCAK_EMPTY : B256 := 0xc5d2460186f7233c927e7db2dcc703c0e500b653ca82273b7bfad8045d85a470.
(** ** Values and their encodings *)

Record Account := mkAccount {
  acc_nonce : Z;
  acc_balance : Z;
  acc_code_hash : B256;
  acc_storage_root : B256;
}.

#[export] Instance Account_eq_dec : EqDecision Account.
Proof. solve_decision. Defined.

Definition Account_default : Account := mkAccount 0 0 KECCAK_EMPTY EMPTY_ROOT_HASH.

Definition Account_encode (a : Account) : bytes :=
  be_bytes 8 (acc_nonce a) ++ be_bytes 32 (acc_balance a)
  ++ be_bytes 32 (acc_code_hash a) ++ be_bytes 32 (acc_storage_root a).

(** [b[i..j]] of a slice known to be long enough. *)
Definition slice (b : bytes) (i j : nat) : bytes := take (j - i) (drop i b).

Definition Account_decode (b : bytes) : option Account :=
  if negb (Nat.eqb (length b) 104) then None
  else Some (mkAccount (be_val (slice b 0 8)) (be_val (slice b 8 40))
               (be_val (slice b 40 72)) (be_val (slice b 72 104))).

(** Account info as the history keeps it: nonce, balance, code hash. *)
Abbreviation HistInfo := (option (Z * Z * B256)) (only parsing).

Definition encode_hist_info (info : HistInfo) : bytes :=
  match info with
  | None => []
  | Some (nonce, balance, code_hash) =>
      be_bytes 8 nonce ++ be_bytes 32 balance ++ be_bytes 32 code_hash
  end.

Definition decode_hist_info (b : bytes) : option HistInfo :=
  match length b with
  | 0%nat => Some None
  | 72%nat => Some (Some (be_val (slice b 0 8), be_val (slice b 8 40), be_val (slice b 40 72)))
  | _ => None
  end.

Definition num_key (n : Z) : bytes := be_bytes 8 n.
Definition storage_key (addr : Address) (slot : B256) : bytes := be_bytes 20 addr ++ be_bytes 32 slot.

(** ** Changes produced by execution (crate revm) *)

(** [AccountInfo]; the code itself travels in [cs_contracts]. *)
Record AccountInfo := mkInfo {
  i_balance : Z;
  i_nonce : Z;
  i_code_hash : B256;
}.

#[export] Instance AccountInfo_eq_dec : EqDecision AccountInfo.
Proof. solve_decision. Defined.

Record PlainStorageChangeset := mkStorageChange {
  s_address : Address;
  wipe_storage : bool;
  s_storage : list (Z * Z);
}.

Record StateChangeset := mkChangeset {
  cs_accounts : list (Address * option AccountInfo);
  cs_storage : list PlainStorageChangeset;
  cs_contracts : list (B256 * bytes);
}.

Inductive RevertToSlot := SlotSome (v : Z) | Destroyed.

Record PlainStorageRevert := mkStorageRevert {
  r_address : Address;
  storage_revert : list (Z * RevertToSlot);
}.

Record PlainStateReverts := mkReverts {
  rv_accounts : list (list (Address * option AccountInfo));
  rv_storage : list (list PlainStorageRevert);
}.

(** RLP of a storage value and of a trie account (crates alloy-rlp, alloy-trie). *)
Class StateRlp := {
  rlp_u256 : Z -> bytes;
  rlp_trie_account : Account -> bytes;
}.

Definition trie_value `{StateRlp} (a : Account) : bytes := rlp_trie_account a.

Definition hashed_address `{Keccak} (a : Address) : B256 := keccak256 (be_bytes 20 a).
Definition hashed_slot `{Keccak} (s : B256) : B256 := keccak256 (be_bytes 32 s).

(** ** Tables *)

(** A key of [hist_keys] behind the block number: tag 0 and an address, or tag 1 and a slot. *)
Inductive HistKey :=
  | AccKey (a : Address)
  | StoKey (a : Address) (slot : B256).

#[export] Instance HistKey_eq_dec : EqDecision HistKey.
Proof. solve_decision. Defined.

#[export] Program Instance HistKey_countable : Countable HistKey :=
  inj_countable'
    (fun k => match k with AccKey a => inl a | StoKey a s => inr (a, s) end)
    (fun x => match x with inl a => AccKey a | inr (a, s) => StoKey a s end) _.
Next Obligation. by intros []. Qed.

(** The state tables; [trie_sto] is keyed by the hashed address and then by the node's path. *)
Record StateTables := mkState {
  accounts : gmap Address Account;
  storage : gmap (Address * B256) Z;
  codes : gmap B256 bytes;
  trie_acc : gmap Path bytes;
  trie_sto : gmap B256 (gmap Path bytes);
  acc_hist : gmap (Address * Z) HistInfo;
  sto_hist : gmap (Address * B256 * Z) Z;
  hist_keys : gset (Z * HistKey);
}.

Definition set_accounts (m : gmap Address Account) (t : StateTables) : StateTables :=
  mkState m (storage t) (codes t) (trie_acc t) (trie_sto t) (acc_hist t) (sto_hist t) (hist_keys t).
Definition set_storage (m : gmap (Address * B256) Z) (t : StateTables) : StateTables :=
  mkState (accounts t) m (codes t) (trie_acc t) (trie_sto t) (acc_hist t) (sto_hist t) (hist_keys t).
Definition set_codes (m : gmap B256 bytes) (t : StateTables) : StateTables :=
  mkState (accounts t) (storage t) m (trie_acc t) (trie_sto t) (acc_hist t) (sto_hist t) (hist_keys t).
Definition set_trie_acc (m : gmap Path bytes) (t : StateTables) : StateTables :=
  mkState (accounts t) (storage t) (codes t) m (trie_sto t) (acc_hist t) (sto_hist t) (hist_keys t).
Definition set_trie_sto (m : gmap B256 (gmap Path bytes)) (t : StateTables) : StateTables :=
  mkState (accounts t) (storage t) (codes t) (trie_acc t) m (acc_hist t) (sto_hist t) (hist_keys t).
Definition set_acc_hist (m : gmap (Address * Z) HistInfo) (t : StateTables) : StateTables :=
  mkState (accounts t) (storage t) (codes t) (trie_acc t) (trie_sto t) m (sto_hist t) (hist_keys t).
Definition set_sto_hist (m : gmap (Address * B256 * Z) Z) (t : StateTables) : StateTables :=
  mkState (accounts t) (storage t) (codes t) (trie_acc t) (trie_sto t) (acc_hist t) m (hist_keys t).
Definition set_hist_keys (m : gset (Z * HistKey)) (t : StateTables) : StateTables :=
  mkState (accounts t) (storage t) (codes t) (trie_acc t) (trie_sto t) (acc_hist t) (sto_hist t) m.

Definition StateTables_empty : StateTables := mkState ∅ ∅ ∅ ∅ ∅ ∅ ∅ ∅.

(** [StorageNodes]: the nodes under a hashed address. *)
Definition storage_nodes (t : StateTables) (hashed : B256) : gmap Path bytes :=
  default ∅ (trie_sto t !! hashed).

(** [del_prefix(STORAGE, addr)]. *)
Definition del_storage_of (addr : Address) (t : StateTables) : StateTables :=
  set_storage (filter (fun kv => kv.1.1 <> addr) (storage t)) t.

(** [del_prefix(TRIE_STO, hashed)]. *)
Definition del_nodes_of (hashed : B256) (t : StateTables) : StateTables :=
  set_trie_sto (delete hashed (trie_sto t)) t.

(** ** Applying changes *)

(** A [for] loop whose body may return early with an error. *)
Fixpoint try_fold {E S X} (f : X -> S -> result E S) (l : list X) (s : S) : result E S :=
  match l with
  | [] => Ok s
  | x :: l => (s <-? f x s; try_fold f l s)%bolt
  end.

Definition trie_err {A} (r : result TrieError A) : result StoreError A :=
  match r with Ok a => Ok a | Err e => Err (StoreTrie e) end.

(** The entries of a [BTreeMap] with integer keys, in key order. *)
Definition fst_le {V} (a b : Z * V) : Prop := a.1 <= b.1.

#[export] Instance fst_le_dec {V} (a b : Z * V) : Decision (fst_le a b).
Proof. unfold fst_le. apply _. Defined.

Definition btree_list {V} (m : gmap Z V) : list (Z * V) := merge_sort fst_le (map_to_list m).

Section apply.
Context `{K : Keccak} `{R : StateRlp} `{T : TrieOps}.

Definition apply_slot (addr : Address) (kv : Z * Z) (st : StateTables * Session)
    : result StoreError (StateTables * Session) :=
  let '(slot, value) := kv in
  let '(t, s) := st in
  let hkey := hashed_slot slot in
  if value =? 0 then
    s <-? trie_err (trie_remove_key hkey s);
    Ok (set_storage (delete (addr, slot) (storage t)) t, s)
  else
    s <-? trie_err (trie_insert hkey (rlp_u256 value) s);
    Ok (set_storage (<[(addr, slot) := value]> (storage t)) t, s).

Definition apply_storage (c : PlainStorageChangeset) (st : StateTables * gmap Address B256)
    : result StoreError (StateTables * gmap Address B256) :=
  let '(t, storage_roots) := st in
  let hashed := hashed_address (s_address c) in
  let t := if wipe_storage c then del_nodes_of hashed (del_storage_of (s_address c) t) else t in
  if bool_decide (s_storage c = []) then
    Ok (t, if wipe_storage c then <[s_address c := EMPTY_ROOT_HASH]> storage_roots else storage_roots)
  else
    st <-? try_fold (apply_slot (s_address c)) (s_storage c) (t, trie_new (storage_nodes t hashed));
    let '(t, s) := st in
    rw <-? trie_err (trie_commit s);
    let '(root, writes) := rw in
    Ok (set_trie_sto (<[hashed := apply_writes writes (storage_nodes t hashed)]> (trie_sto t)) t,
        <[s_address c := root]> storage_roots).

Definition info_of (a : Account) : AccountInfo := mkInfo (acc_balance a) (acc_nonce a) (acc_code_hash a).

(** The accounts to write: those changed, and those whose only change was storage. *)
Definition account_infos (t : StateTables) (changed : list (Address * option AccountInfo))
    (storage_roots : gmap Address B256) : gmap Address (option AccountInfo) :=
  foldl (fun infos addr =>
           match infos !! addr with
           | Some _ => infos
           | None => <[addr := Some (info_of (default Account_default (accounts t !! addr)))]> infos
           end)
    (foldl (fun m kv => <[kv.1 := kv.2]> m) ∅ changed)
    (map fst (btree_list storage_roots)).

Definition apply_account (storage_roots : gmap Address B256) (kv : Address * option AccountInfo)
    (st : StateTables * Session) : result StoreError (StateTables * Session) :=
  let '(addr, info) := kv in
  let '(t, s) := st in
  let hkey := hashed_address addr in
  match info with
  | None =>
      let t := set_accounts (delete addr (accounts t)) t in
      let t := del_nodes_of hkey (del_storage_of addr t) in
      s <-? trie_err (trie_remove_key hkey s);
      Ok (t, s)
  | Some info =>
      let storage_root :=
        match storage_roots !! addr with
        | Some r => r
        | None => match accounts t !! addr with Some a => acc_storage_root a | None => EMPTY_ROOT_HASH end
        end in
      let acc := mkAccount (i_nonce info) (i_balance info) (i_code_hash info) storage_root in
      s <-? trie_err (trie_insert hkey (trie_value acc) s);
      Ok (set_accounts (<[addr := acc]> (accounts t)) t, s)
  end.

Definition apply_changes (changes : StateChangeset) (t : StateTables)
    : result StoreError (B256 * StateTables) :=
  let t := set_codes (foldl (fun m kv => <[kv.1 := kv.2]> m) (codes t) (cs_contracts changes)) t in
  st <-? try_fold apply_storage (cs_storage changes) (t, ∅);
  let '(t, storage_roots) := st in
  let infos := account_infos t (cs_accounts changes) storage_roots in
  st <-? try_fold (apply_account storage_roots) (btree_list infos) (t, trie_new (trie_acc t));
  let '(t, s) := st in
  rw <-? trie_err (trie_commit s);
  let '(root, writes) := rw in
  Ok (root, set_trie_acc (apply_writes writes (trie_acc t)) t).

(** ** History *)

Definition hist_info (i : AccountInfo) : Z * Z * B256 := (i_nonce i, i_balance i, i_code_hash i).

Definition write_account_history (number : Z) (kv : Address * option AccountInfo) (t : StateTables)
    : StateTables :=
  let '(addr, prior) := kv in
  set_hist_keys ({[(number, AccKey addr)]} ∪ hist_keys t)
    (set_acc_hist (<[(addr, number) := hist_info <$> prior]> (acc_hist t)) t).

Definition revert_value (r : RevertToSlot) : Z := match r with SlotSome v => v | Destroyed => 0 end.

Definition write_slot_history (number : Z) (addr : Address) (kv : Z * RevertToSlot) (t : StateTables)
    : StateTables :=
  let '(slot, prior) := kv in
  set_hist_keys ({[(number, StoKey addr slot)]} ∪ hist_keys t)
    (set_sto_hist (<[(addr, slot, number) := revert_value prior]> (sto_hist t)) t).

Definition write_history (number : Z) (reverts : PlainStateReverts) (t : StateTables) : StateTables :=
  let t := foldl (fun t kv => write_account_history number kv t) t (concat (rv_accounts reverts)) in
  foldl (fun t s => foldl (fun t kv => write_slot_history number (r_address s) kv t) t (storage_revert s))
    t (concat (rv_storage reverts)).

(** The bundle is given by the plain changes and reverts revm derives from it. *)
Definition apply_bundle (number : Z) (bundle : StateChangeset * PlainStateReverts) (t : StateTables)
    : result StoreError (B256 * StateTables) :=
  apply_changes bundle.1 (write_history number bundle.2 t).

(** The order of the [hist_keys] table behind a block number: accounts first. *)
Definition hist_key_le (a b : HistKey) : Prop :=
  match a, b with
  | AccKey x, AccKey y => x <= y
  | AccKey _, StoKey _ _ => True
  | StoKey _ _, AccKey _ => False
  | StoKey x s, StoKey y r => x < y \/ (x = y /\ s <= r)
  end.

#[export] Instance hist_key_le_dec a b : Decision (hist_key_le a b).
Proof. destruct a, b; cbn; apply _. Defined.

(** The keys of block [number], in table order. *)
Definition keys_of_block (number : Z) (t : StateTables) : list HistKey :=
  merge_sort hist_key_le (map snd (filter (fun k => k.1 = number) (elements (hist_keys t)))).

Record Undo := mkUndo {
  undo_accounts : list (Address * option AccountInfo);
  undo_storage : gmap Address (list (Z * Z));
}.

Definition unwind_key (number : Z) (k : HistKey) (st : StateTables * Undo)
    : result StoreError (StateTables * Undo) :=
  let '(t, u) := st in
  match k with
  | AccKey addr =>
      prior <-? ok_or (acc_hist t !! (addr, number)) (StoreCorrupt "acc_hist");
      let info := (fun '(nonce, balance, code_hash) => mkInfo balance nonce code_hash) <$> prior in
      Ok (set_hist_keys (hist_keys t ∖ {[(number, k)]})
            (set_acc_hist (delete (addr, number) (acc_hist t)) t),
          mkUndo (undo_accounts u ++ [(addr, info)]) (undo_storage u))
  | StoKey addr slot =>
      value <-? ok_or (sto_hist t !! (addr, slot, number)) (StoreCorrupt "sto_hist");
      Ok (set_hist_keys (hist_keys t ∖ {[(number, k)]})
            (set_sto_hist (delete (addr, slot, number) (sto_hist t)) t),
          mkUndo (undo_accounts u)
            (<[addr := default [] (undo_storage u !! addr) ++ [(slot, value)]]> (undo_storage u)))
  end.

Definition undo_changes (u : Undo) : StateChangeset :=
  mkChangeset (undo_accounts u)
    (map (fun kv => mkStorageChange kv.1 false kv.2) (btree_list (undo_storage u))) [].

(** [covers] is [history_covers(number)]. *)
Definition unwind_state (number : Z) (covers : bool) (t : StateTables)
    : result StoreError (B256 * StateTables) :=
  let keys := keys_of_block number t in
  if bool_decide (keys = []) && negb covers then Err (StoreCorrupt "unwind: history pruned")
  else
    st <-? try_fold (unwind_key number) keys (t, mkUndo [] ∅);
    let '(t, u) := st in
    apply_changes (undo_changes u) t.

Definition drop_hist_key (k : Z * HistKey) (t : StateTables) : StateTables :=
  let '(number, key) := k in
  let t := match key with
           | AccKey addr => set_acc_hist (delete (addr, number) (acc_hist t)) t
           | StoKey addr slot => set_sto_hist (delete (addr, slot, number) (sto_hist t)) t
           end in
  set_hist_keys (hist_keys t ∖ {[k]}) t.

(** [prune_history]: the number of entries dropped, and the tables. *)
Definition prune_history (head : Z) (t : StateTables) : Z * StateTables :=
  if head <? HISTORY_BLOCKS then (0, t)
  else
    let cutoff := head - HISTORY_BLOCKS in
    let doomed := filter (fun k => k.1 <= cutoff) (elements (hist_keys t)) in
    (Z.of_nat (length doomed), foldl (fun t k => drop_hist_key k t) t doomed).
End apply.

(** ** Reading *)

(** [cursor.set_range(seek)]: the first entry at or after [seek]. *)
Definition on_key {Key V} (le : Key -> Key -> Prop) (a b : Key * V) : Prop := le a.1 b.1.

#[export] Instance on_key_dec {Key V} (le : Key -> Key -> Prop) `{!RelDecision le} :
  RelDecision (@on_key Key V le).
Proof. intros a b. unfold on_key. apply _. Defined.

Definition set_range {Key V} `{Countable Key} (le : Key -> Key -> Prop) `{!RelDecision le} (seek : Key)
    (m : gmap Key V) : option (Key * V) :=
  head (merge_sort (on_key le) (filter (fun kv => le seek kv.1) (map_to_list m))).

(** Lexicographic orders on the tuples the history keys encode. *)
Definition acc_key_le (a b : Address * Z) : Prop := a.1 < b.1 \/ (a.1 = b.1 /\ a.2 <= b.2).
Definition sto_key_le (a b : Address * B256 * Z) : Prop :=
  acc_key_le a.1 b.1 /\ a.1 <> b.1 \/ (a.1 = b.1 /\ a.2 <= b.2).

#[export] Instance acc_key_le_dec : RelDecision acc_key_le.
Proof. intros a b. unfold acc_key_le. apply _. Defined.
#[export] Instance sto_key_le_dec : RelDecision sto_key_le.
Proof. intros a b. unfold sto_key_le. apply _. Defined.

(** [history_covers], from the head and base recorded in the [meta] table.  [head - number] does
    not wrap: it is evaluated when [number <= head]. *)
Definition history_covers (head base number : Z) : bool :=
  (number <=? head) && (head - number <=? HISTORY_BLOCKS) && (base <=? number).

Definition account_at (covers : bool) (addr : Address) (number : Z) (t : StateTables)
    : option (option Account) :=
  if negb covers then None
  else
    let now := Some (accounts t !! addr) in
    match set_range acc_key_le (addr, u64 (number + 1)) (acc_hist t) with
    | Some (k, prior) =>
        if k.1 =? addr then
          Some ((fun '(nonce, balance, code_hash) => mkAccount nonce balance code_hash EMPTY_ROOT_HASH)
                  <$> prior)
        else now
    | None => now
    end.

Definition storage_at (covers : bool) (addr : Address) (slot : B256) (number : Z) (t : StateTables)
    : option Z :=
  if negb covers then None
  else
    let now := Some (default 0 (storage t !! (addr, slot))) in
    match set_range sto_key_le (addr, slot, u64 (number + 1)) (sto_hist t) with
    | Some (k, prior) => if bool_decide (k.1 = (addr, slot)) then Some prior else now
    | None => now
    end.

(** The revm view of the state: the latest, or as of a recent block ([at]). *)
Definition basic_ref (covers : bool) (at_ : option Z) (addr : Address) (t : StateTables)
    : result StoreError (option AccountInfo) :=
  match at_ with
  | None => Ok (info_of <$> accounts t !! addr)
  | Some n =>
      acc <-? ok_or (account_at covers addr n t) (StoreCorrupt "history");
      Ok (info_of <$> acc)
  end.

Definition storage_ref (covers : bool) (at_ : option Z) (addr : Address) (index : Z) (t : StateTables)
    : result StoreError Z :=
  match at_ with
  | None => Ok (default 0 (storage t !! (addr, index)))
  | Some n => ok_or (storage_at covers addr index n t) (StoreCorrupt "history")
  end.

Definition code_by_hash_ref (code_hash : B256) (t : StateTables) : result StoreError bytes :=
  if code_hash =? KECCAK_EMPTY then Ok [] else ok_or (codes t !! code_hash) (StoreCorrupt "codes").

(** ** Genesis *)

Record InitAccount := mkInit {
  init_nonce : Z;
  init_balance : Z;
  init_code : bytes;
  init_storage : gmap B256 Z;
}.

Section genesis.
Context `{K : Keccak} `{R : StateRlp} `{T : TrieOps}.

(** [Bytecode::hash_slow] is the keccak-256 of the code. *)
Definition init_changes (alloc : gmap Address InitAccount) : StateChangeset :=
  let l := btree_list alloc in
  mkChangeset
    (map (fun '(addr, acc) =>
            (addr, Some (mkInfo (init_balance acc) (init_nonce acc)
                           (if bool_decide (init_code acc = []) then KECCAK_EMPTY
                            else keccak256 (init_code acc))))) l)
    (map (fun '(addr, acc) => mkStorageChange addr false (btree_list (init_storage acc))) l)
    (omap (fun '(addr, acc) => if bool_decide (init_code acc = []) then None
                               else Some (keccak256 (init_code acc), init_code acc)) l).

Definition init_state (alloc : gmap Address InitAccount) (t : StateTables)
    : result StoreError (B256 * StateTables) := apply_changes (init_changes alloc) t.
End genesis.

(** ** Recomputing the state root from the flat tables *)

(** Reference root functions (crate alloy-trie). *)
Class AlloyRoot := {
  storage_root_unhashed : list (B256 * Z) -> B256;
  state_root_unhashed : list (Address * Account) -> B256;
}.

(** The slots of an account, in key order. *)
Definition slots_of (addr : Address) (t : StateTables) : list (B256 * Z) :=
  map (fun kv => (kv.1.2, kv.2))
    (merge_sort (on_key acc_key_le) (filter (fun kv => kv.1.1 = addr) (map_to_list (storage t)))).

Definition full_state_root `{AlloyRoot} (t : StateTables) : B256 :=
  state_root_unhashed
    (map (fun '(addr, a) =>
            (addr, mkAccount (acc_nonce a) (acc_balance a) (acc_code_hash a)
                     (storage_root_unhashed (slots_of addr t))))
       (btree_list (accounts t))).
