(* ===== verification/StoreFacts.v ===== *)
(** * The state database keeps its tables in step

    The invariant of the state tables ([wf]): every account's storage root is the reference root of
    its slots, and the stored trie nodes are exactly those of the flat tables.  Applying a changeset
    keeps it, returns the root a recomputation from the flat tables gives, and changes the flat
    tables as the changeset says. *)

From S2P Require Import Prelude Types TxPool Ipld TrieIface Store.
From stdpp Require Import base list list_numbers sorting gmap fin_maps strings.
From Stdlib Require Import ZArith Lia.

Open Scope Z_scope.

(** No collision among strings of the same length, of at most 32 bytes. *)
Class KeccakInj (K : Keccak) : Prop :=
  keccak_inj : forall b b', length b = length b' -> (length b <= 32)%nat -> byte_list b -> byte_list b' ->
    keccak256 b = keccak256 b' -> b = b'.

Class StateRlpLaws (R : StateRlp) : Prop := {
  rlp_u256_nonempty v : rlp_u256 v <> [];
  rlp_trie_account_nonempty a : rlp_trie_account a <> [];
}.

(** ** Maps with hashed keys *)

Section hashed_maps.
Context {Key V : Type} `{Countable Key}.
Variables (P : Key -> Prop) (h : Key -> B256) (g : V -> bytes).
Hypothesis h_inj : forall x y, P x -> P y -> h x = h y -> x = y.

Definition hmap (m : gmap Key V) : gmap B256 bytes :=
  list_to_map (map (fun kv => (h kv.1, g kv.2)) (map_to_list m)).

Definition keys_in (m : gmap Key V) : Prop := forall k v, m !! k = Some v -> P k.

Lemma lookup_hmap_Some m k b :
  keys_in m -> hmap m !! k = Some b <-> exists x v, m !! x = Some v /\ k = h x /\ b = g v.
Proof.
  intros Hk. unfold hmap. rewrite <-elem_of_list_to_map'.
  - change (map ?f ?l) with (f <$> l). rewrite list_elem_of_fmap. split.
    + intros ([x v] & E & Hx). simplify_eq/=. apply elem_of_map_to_list in Hx. eauto.
    + intros (x & v & Hx & -> & ->). exists (x, v). split; [done|]. by apply elem_of_map_to_list.
  - intros b'. change (map ?f ?l) with (f <$> l). rewrite !list_elem_of_fmap.
    intros ([x v] & E & Hx) ([y w] & E' & Hy). simplify_eq/=.
    apply elem_of_map_to_list in Hx, Hy.
    assert (x = y) as -> by (apply h_inj; eauto). by simplify_eq.
Qed.

Lemma lookup_hmap m x : keys_in m -> P x -> hmap m !! h x = g <$> m !! x.
Proof.
  intros Hk Px. apply option_eq. intros b. rewrite lookup_hmap_Some by done. split.
  - intros (y & v & Hy & E & ->). apply h_inj in E as ->; eauto. by rewrite Hy.
  - intros E. destruct (m !! x) as [v|] eqn:Ex; simplify_eq/=. eauto.
Qed.

Lemma hmap_ext m m' :
  keys_in m -> keys_in m' -> (forall x, P x -> m !! x = m' !! x) -> hmap m = hmap m'.
Proof.
  intros Hk Hk' E. apply map_eq. intros k. apply option_eq. intros b.
  rewrite !lookup_hmap_Some by done.
  split; intros (x & v & Hx & ?); exists x, v; (split; [|done]); [rewrite <-E|rewrite E]; eauto.
Qed.

Lemma keys_in_insert m x v : keys_in m -> P x -> keys_in (<[x := v]> m).
Proof. intros Hk Px k w [[-> _]|[_ ?]]%lookup_insert_Some; eauto. Qed.

Lemma keys_in_delete m x : keys_in m -> keys_in (delete x m).
Proof. intros Hk k w [_ ?]%lookup_delete_Some. eauto. Qed.

Lemma hmap_insert m x v : keys_in m -> P x -> hmap (<[x := v]> m) = <[h x := g v]> (hmap m).
Proof.
  intros Hk Px. pose proof (keys_in_insert m x v Hk Px) as Hk'.
  apply map_eq. intros k. apply option_eq. intros b.
  rewrite lookup_hmap_Some, lookup_insert_Some by done. rewrite lookup_hmap_Some by done. split.
  - intros (y & w & [[-> ->]|[Hne Hy]]%lookup_insert_Some & -> & ->); [by left|].
    right. split; [|by eauto]. intros E. apply Hne. apply h_inj; eauto.
  - intros [[<- <-]|[Hne (y & w & Hy & -> & ->)]].
    + exists x, v. by rewrite lookup_insert_eq.
    + exists y, w. rewrite lookup_insert_ne by congruence. done.
Qed.

Lemma hmap_delete m x : keys_in m -> P x -> hmap (delete x m) = delete (h x) (hmap m).
Proof.
  intros Hk Px. pose proof (keys_in_delete m x Hk) as Hk'.
  apply map_eq. intros k. apply option_eq. intros b.
  rewrite lookup_hmap_Some, lookup_delete_Some by done. rewrite lookup_hmap_Some by done. split.
  - intros (y & w & [Hne Hy]%lookup_delete_Some & -> & ->).
    split; [|by eauto]. intros E. apply Hne. apply h_inj; eauto.
  - intros [Hne (y & w & Hy & -> & ->)]. exists y, w. rewrite lookup_delete_ne by congruence. done.
Qed.

Lemma hmap_empty : hmap ∅ = ∅.
Proof. unfold hmap. by rewrite map_to_list_empty. Qed.

Lemma hmap_ok m :
  keys_in m -> (forall x, P x -> in_range 256 (h x)) -> (forall v, g v <> []) -> content_ok (hmap m).
Proof. intros Hk Hr Hg k b (x & v & Hx & -> & ->)%lookup_hmap_Some; eauto. Qed.
End hashed_maps.

(** ** Slots of one account *)

Definition slots_at (slots : gmap (Address * B256) Z) (a : Address) : gmap B256 Z :=
  default ∅ (map_curry (M1 := gmap Z) (M2 := gmap Z) (M12 := gmap (Z * Z)) slots !! a).

Lemma lookup_slots_at slots a s : slots_at slots a !! s = slots !! (a, s).
Proof.
  unfold slots_at. rewrite <-(lookup_map_curry (M1 := gmap Z) (M2 := gmap Z) (MC := gmap (Z * Z))).
  destruct (map_curry (M1 := gmap Z) (M2 := gmap Z) (M12 := gmap (Z * Z)) slots !! a); [done|].
  apply lookup_empty.
Qed.

Lemma slots_at_ext slots slots' a :
  (forall s, slots !! (a, s) = slots' !! (a, s)) -> slots_at slots a = slots_at slots' a.
Proof. intros E. apply map_eq. intros s. by rewrite !lookup_slots_at. Qed.

(** Writing a slot: zero deletes it. *)
Definition set_slot (a : Address) (slot v : Z) (slots : gmap (Address * B256) Z) :=
  if v =? 0 then delete (a, slot) slots else <[(a, slot) := v]> slots.

Lemma lookup_set_slot a s v slots b r :
  set_slot a s v slots !! (b, r)
  = if decide ((b, r) = (a, s)) then (if v =? 0 then None else Some v) else slots !! (b, r).
Proof.
  unfold set_slot. case_match; case_decide as E; try (injection E as -> ->).
  - by rewrite lookup_delete_eq.
  - by rewrite lookup_delete_ne.
  - by rewrite lookup_insert_eq.
  - by rewrite lookup_insert_ne.
Qed.

Lemma slots_at_set_slot a s v slots :
  slots_at (set_slot a s v slots) a
  = if v =? 0 then delete s (slots_at slots a) else <[s := v]> (slots_at slots a).
Proof.
  apply map_eq. intros r. rewrite lookup_slots_at, lookup_set_slot.
  case_decide as E; [injection E as ->|]; case_match.
  - by rewrite lookup_delete_eq.
  - by rewrite lookup_insert_eq.
  - rewrite lookup_delete_ne, lookup_slots_at by congruence. done.
  - rewrite lookup_insert_ne, lookup_slots_at by congruence. done.
Qed.

Lemma slots_at_set_slot_ne a s v slots b :
  b <> a -> slots_at (set_slot a s v slots) b = slots_at slots b.
Proof.
  intros Hne. apply slots_at_ext. intros r. rewrite lookup_set_slot. case_decide; congruence.
Qed.

(** ** Sorted entries of a map *)

#[export] Instance fst_le_total {V} : Total (@fst_le V).
Proof. intros [a x] [b y]. unfold fst_le. cbn. lia. Qed.

#[export] Instance fst_le_trans {V} : Transitive (@fst_le V).
Proof. intros [a x] [b y] [c z]. unfold fst_le. cbn. lia. Qed.

Lemma btree_list_perm {V} (m : gmap Z V) : btree_list m ≡ₚ map_to_list m.
Proof. apply merge_sort_Permutation. Qed.

Lemma elem_of_btree_entries {V} (m : gmap Z V) k v : (k, v) ∈ btree_list m <-> m !! k = Some v.
Proof. rewrite btree_list_perm. apply elem_of_map_to_list. Qed.

Lemma elem_of_entry_keys {V} (m : gmap Z V) k : k ∈ map fst (btree_list m) <-> is_Some (m !! k).
Proof.
  change (map fst ?l) with (l.*1). rewrite list_elem_of_fmap. split.
  - intros ([k' v] & -> & Hv%elem_of_btree_entries). by exists v.
  - intros [v Hv]. exists (k, v). split; [done|]. by apply elem_of_btree_entries.
Qed.

Lemma NoDup_btree_keys {V} (m : gmap Z V) : NoDup (map fst (btree_list m)).
Proof.
  change (map fst ?l) with (l.*1). rewrite btree_list_perm. apply NoDup_fst_map_to_list.
Qed.

Lemma try_fold_app {E S X} (f : X -> S -> result E S) l l' s :
  try_fold f (l ++ l') s = result_bind (try_fold f l s) (try_fold f l').
Proof.
  revert s. induction l as [|x l IH]; intros s; [done|]. cbn [app try_fold].
  destruct (f x s) as [s'|e]; [apply IH|done].
Qed.

(** ** The invariant *)

Section state.
Context `{K : Keccak} `{!KeccakLaws K} `{!KeccakInj K}.
Context `{R : StateRlp} `{!StateRlpLaws R}.
Context `{T : TrieOps} `{TL : !TrieLaws T}.

Lemma keccak_be_inj n x y :
  (n <= 32)%nat -> in_range (8 * Z.of_nat n) x -> in_range (8 * Z.of_nat n) y ->
  keccak256 (be_bytes n x) = keccak256 (be_bytes n y) -> x = y.
Proof.
  intros Hn Hx Hy E. apply keccak_inj in E; auto with bolt.
  - by apply be_bytes_inj in E.
  - by rewrite !be_bytes_length.
  - by rewrite be_bytes_length.
Qed.

Lemma hashed_slot_inj x y : in_range 256 x -> in_range 256 y -> hashed_slot x = hashed_slot y -> x = y.
Proof. apply (keccak_be_inj 32); lia. Qed.

Lemma hashed_address_inj x y :
  in_range 160 x -> in_range 160 y -> hashed_address x = hashed_address y -> x = y.
Proof. apply (keccak_be_inj 20); lia. Qed.

Definition sto_content (slots : gmap (Address * B256) Z) (a : Address) : gmap B256 bytes :=
  hmap hashed_slot rlp_u256 (slots_at slots a).

Definition acc_content (accs : gmap Address Account) : gmap B256 bytes :=
  hmap hashed_address trie_value accs.

(** Types of the flat tables' entries. *)
Record typed (t : StateTables) : Prop := {
  t_account a acc : accounts t !! a = Some acc -> in_range 160 a;
  t_slot a s v : storage t !! (a, s) = Some v -> in_range 160 a /\ in_range 256 s /\ in_range 256 v /\ v <> 0;
}.

(** The stored nodes of every account's storage trie are those of its slots. *)
Definition nodes_match (t : StateTables) : Prop :=
  forall a, in_range 160 a -> storage_nodes t (hashed_address a) = nodes_of (sto_content (storage t) a).

Definition root_ok (t : StateTables) (a : Address) (acc : Account) : Prop :=
  acc_storage_root acc = root_of (sto_content (storage t) a).

Record wf (t : StateTables) : Prop := {
  wf_typed : typed t;
  wf_owner a s v : storage t !! (a, s) = Some v -> is_Some (accounts t !! a);
  wf_root a acc : accounts t !! a = Some acc -> root_ok t a acc;
  wf_sto : nodes_match t;
  wf_acc : trie_acc t = nodes_of (acc_content (accounts t));
}.

Lemma keys_in_slots t a : typed t -> keys_in (in_range 256) (slots_at (storage t) a).
Proof. intros Ht s v Hs. rewrite lookup_slots_at in Hs. by apply (t_slot t Ht) in Hs as (_ & ? & _). Qed.

Lemma keys_in_accounts t : typed t -> keys_in (in_range 160) (accounts t).
Proof. intros Ht a acc Ha. by apply (t_account t Ht) in Ha. Qed.

Lemma sto_content_ok t a : typed t -> content_ok (sto_content (storage t) a).
Proof.
  intros Ht. apply (hmap_ok (in_range 256)).
  - apply hashed_slot_inj.
  - by apply keys_in_slots.
  - intros x _. apply keccak_range.
  - apply rlp_u256_nonempty.
Qed.

Lemma acc_content_ok t : typed t -> content_ok (acc_content (accounts t)).
Proof.
  intros Ht. apply (hmap_ok (in_range 160)).
  - apply hashed_address_inj.
  - by apply keys_in_accounts.
  - intros x _. apply keccak_range.
  - apply rlp_trie_account_nonempty.
Qed.

Lemma sto_content_ext slots slots' a :
  (forall s, slots !! (a, s) = slots' !! (a, s)) -> sto_content slots a = sto_content slots' a.
Proof. intros E. unfold sto_content. by rewrite (slots_at_ext slots slots'). Qed.

Lemma sto_content_empty slots a : (forall s, slots !! (a, s) = None) -> sto_content slots a = ∅.
Proof.
  intros E. unfold sto_content. replace (slots_at slots a) with (∅ : gmap B256 Z); [apply hmap_empty|].
  apply map_eq. intros s. by rewrite lookup_slots_at, lookup_empty, E.
Qed.

(** ** The storage phase *)

Lemma typed_set_slot t a s v :
  typed t -> in_range 160 a -> in_range 256 s -> in_range 256 v ->
  typed (set_storage (set_slot a s v (storage t)) t).
Proof.
  intros [H1 H2] Ha Hs Hv. split; cbn; [done|]. intros b r w Hw. rewrite lookup_set_slot in Hw.
  case_decide as E; [injection E as -> ->|by eauto].
  destruct (v =? 0) eqn:E0; [done|]. simplify_eq. split; [done|]. split; [done|]. split; [done|lia].
Qed.

Lemma apply_slot_ok m0 a slot v t s :
  typed t -> in_range 160 a -> in_range 256 slot -> in_range 256 v ->
  editing m0 (sto_content (storage t) a) s ->
  exists s', apply_slot a (slot, v) (t, s) = Ok (set_storage (set_slot a slot v (storage t)) t, s')
    /\ editing m0 (sto_content (set_slot a slot v (storage t)) a) s'.
Proof.
  intros Ht Ha Hs Hv He. unfold apply_slot, sto_content. rewrite slots_at_set_slot.
  unfold set_slot. destruct (v =? 0) eqn:E0.
  - destruct (editing_remove _ _ _ (hashed_slot slot) He) as (s' & -> & He'); [apply keccak_range|].
    exists s'. split; [done|]. rewrite (hmap_delete (in_range 256)); auto using hashed_slot_inj.
    by apply keys_in_slots.
  - destruct (editing_insert _ _ _ (hashed_slot slot) (rlp_u256 v) He) as (s' & -> & He');
      [apply keccak_range|apply rlp_u256_nonempty|].
    exists s'. split; [done|]. rewrite (hmap_insert (in_range 256)); auto using hashed_slot_inj.
    by apply keys_in_slots.
Qed.

(** All the slots of one changeset entry. *)
Definition set_slots (a : Address) (l : list (Z * Z)) (slots : gmap (Address * B256) Z) :=
  foldl (fun m kv => set_slot a kv.1 kv.2 m) slots l.

Definition slots_typed (l : list (Z * Z)) : Prop :=
  Forall (fun kv => in_range 256 kv.1 /\ in_range 256 kv.2) l.

Lemma apply_slots_ok m0 a l t s :
  typed t -> in_range 160 a -> slots_typed l -> editing m0 (sto_content (storage t) a) s ->
  exists s', try_fold (apply_slot a) l (t, s) = Ok (set_storage (set_slots a l (storage t)) t, s')
    /\ typed (set_storage (set_slots a l (storage t)) t)
    /\ editing m0 (sto_content (set_slots a l (storage t)) a) s'.
Proof.
  intros Ht Ha Hl. revert t s Ht. induction Hl as [|[slot v] l [Hs Hv] Hl IH]; intros t s Ht He.
  - exists s. split; [by destruct t|]. split; [by destruct t|done].
  - destruct (apply_slot_ok m0 a slot v t s) as (s' & E & He'); try done.
    cbn [try_fold]. rewrite E. cbn [result_bind].
    destruct (IH (set_storage (set_slot a slot v (storage t)) t) s') as (s'' & E' & Ht' & He'');
      [by apply typed_set_slot|done|].
    exists s''. cbn in E', Ht', He''. split; [exact E'|]. split; [exact Ht'|exact He''].
Qed.

Lemma set_slots_other a l slots b r : b <> a -> set_slots a l slots !! (b, r) = slots !! (b, r).
Proof.
  intros Hne. unfold set_slots. revert slots. induction l as [|[s v] l IH]; intros slots; [done|].
  cbn [foldl]. rewrite IH, lookup_set_slot. case_decide; congruence.
Qed.

Lemma lookup_del_storage_of a t b r :
  storage (del_storage_of a t) !! (b, r) = if decide (b = a) then None else storage t !! (b, r).
Proof.
  cbn. rewrite map_lookup_filter. case_decide as E.
  - destruct (storage t !! (b, r)); [|done]. cbn. by rewrite option_guard_False by (cbn; congruence).
  - destruct (storage t !! (b, r)); [|done]. cbn. by rewrite option_guard_True.
Qed.

(** Deleting the storage of an account, flat and nodes. *)
Definition wipe (a : Address) (t : StateTables) : StateTables :=
  del_nodes_of (hashed_address a) (del_storage_of a t).

Lemma lookup_wipe a t b r :
  storage (wipe a t) !! (b, r) = if decide (b = a) then None else storage t !! (b, r).
Proof. apply lookup_del_storage_of. Qed.

Lemma wipe_typed a t : typed t -> typed (wipe a t).
Proof.
  intros [H1 H2]. split; [exact H1|]. intros b r v Hv. rewrite lookup_wipe in Hv. case_decide; eauto.
  done.
Qed.

Lemma wipe_content a t b :
  sto_content (storage (wipe a t)) b = if decide (b = a) then ∅ else sto_content (storage t) b.
Proof.
  case_decide as E.
  - apply sto_content_empty. intros s. by rewrite lookup_wipe, decide_True.
  - apply sto_content_ext. intros s. by rewrite lookup_wipe, decide_False.
Qed.

Lemma wipe_nodes a t : in_range 160 a -> nodes_match t -> nodes_match (wipe a t).
Proof.
  intros Ha Hn b Hb. rewrite wipe_content. unfold storage_nodes. cbn. case_decide as E.
  - subst b. rewrite lookup_delete_eq, nodes_of_empty. done.
  - rewrite lookup_delete_ne; [by apply Hn|]. intros Eh. by apply hashed_address_inj in Eh.
Qed.

(** The tables outside the flat state and the tries. *)
Definition frame (t t' : StateTables) : Prop :=
  acc_hist t' = acc_hist t /\ sto_hist t' = sto_hist t /\ hist_keys t' = hist_keys t.

Record mid (t : StateTables) (roots : gmap Address B256) : Prop := {
  mid_typed : typed t;
  mid_owner a s v : storage t !! (a, s) = Some v -> is_Some (accounts t !! a) \/ is_Some (roots !! a);
  mid_roots a r : roots !! a = Some r -> in_range 160 a /\ r = root_of (sto_content (storage t) a);
  mid_old a acc : roots !! a = None -> accounts t !! a = Some acc -> root_ok t a acc;
  mid_sto : nodes_match t;
  mid_acc : trie_acc t = nodes_of (acc_content (accounts t));
}.

Lemma wf_mid t : wf t -> mid t ∅.
Proof.
  intros [? ? ? ? ?]. split; try done; eauto.
Qed.

Definition change_typed (c : PlainStorageChangeset) : Prop :=
  in_range 160 (s_address c) /\ slots_typed (s_storage c).

(** What a changeset entry does to the flat slots. *)
Definition change_slots (c : PlainStorageChangeset) (slots : gmap (Address * B256) Z) :=
  set_slots (s_address c) (s_storage c)
    (if wipe_storage c then filter (fun kv => kv.1.1 <> s_address c) slots else slots).

(** Whether the entry touches its account at all. *)
Definition touches (c : PlainStorageChangeset) : Prop := wipe_storage c = true \/ s_storage c <> [].

Lemma mid_wipe a t roots :
  in_range 160 a -> mid t roots -> mid (wipe a t) (<[a := EMPTY_ROOT_HASH]> roots).
Proof.
  intros Ha [M1 M2 M3 M4 M5 M6]. split.
  - by apply wipe_typed.
  - intros b s v. rewrite lookup_wipe. case_decide as E; [done|]. rewrite lookup_insert_ne by done. eauto.
  - intros b r [[<- <-]|[Hne Hr]]%lookup_insert_Some; rewrite wipe_content.
    + rewrite decide_True, root_of_empty by done. done.
    + rewrite decide_False by done. eauto.
  - intros b acc [Hb Hne]%lookup_insert_None Hacc. unfold root_ok. rewrite wipe_content, decide_False by done.
    by apply M4.
  - by apply wipe_nodes.
  - done.
Qed.

Lemma apply_storage_ok c t roots :
  mid t roots -> change_typed c ->
  exists t' roots', apply_storage c (t, roots) = Ok (t', roots')
    /\ mid t' roots' /\ accounts t' = accounts t /\ codes t' = codes t /\ frame t t'
    /\ storage t' = change_slots c (storage t)
    /\ (forall b, is_Some (roots' !! b) <-> is_Some (roots !! b) \/ (b = s_address c /\ touches c)).
Proof.
  intros Hm [Ha Hl]. unfold apply_storage, change_slots, touches. set (a := s_address c) in *.
  set (t1 := if wipe_storage c then _ else t).
  set (roots1 := if wipe_storage c then <[a := EMPTY_ROOT_HASH]> roots else roots).
  assert (mid t1 roots1) as Hm1 by (unfold t1, roots1; destruct (wipe_storage c); [by apply mid_wipe|done]).
  assert (accounts t1 = accounts t /\ codes t1 = codes t /\ frame t t1
          /\ storage t1 = if wipe_storage c then filter (fun kv => kv.1.1 <> a) (storage t) else storage t)
    as (Ea & Ec & Hf & Es) by (unfold t1; by destruct (wipe_storage c)).
  rewrite <-Es, <-Ea, <-Ec. case_bool_decide as El.
  - exists t1, roots1. split; [done|]. split; [done|]. rewrite El. repeat (split; [done|]).
    intros b. unfold roots1. destruct (wipe_storage c).
    + rewrite lookup_insert_is_Some. split; [intros [<-|[? ?]]|intros [?|[-> _]]]; eauto.
      destruct (decide (a = b)); eauto.
    + split; [by left|]. by intros [?|[_ [?|?]]].
  - destruct Hm1 as [M1 M2 M3 M4 M5 M6].
    destruct (apply_slots_ok (sto_content (storage t1) a) a (s_storage c) t1
                (trie_new (storage_nodes t1 (hashed_address a)))) as (s' & -> & Ht2 & He); try done.
    { rewrite M5 by done. apply editing_new. by apply sto_content_ok. }
    cbn [result_bind]. set (slots := set_slots a (s_storage c) (storage t1)) in *.
    destruct (editing_commit _ _ _ He) as (writes & -> & Ew). cbn [trie_err result_bind].
    change (storage_nodes (set_storage slots t1)) with (storage_nodes t1).
    rewrite M5, Ew by done.
    eexists _, _. split; [reflexivity|]. cbn [accounts codes storage].
    assert (forall b, b <> a -> sto_content slots b = sto_content (storage t1) b) as Hother.
    { intros b Hb. apply sto_content_ext. intros s. by apply set_slots_other. }
    assert (roots1 !! a = None -> roots !! a = None) as Hr1 by (unfold roots1; destruct (wipe_storage c);
      [by rewrite lookup_insert_eq|done]).
    split; [split; cbn [accounts storage trie_acc]|].
    + destruct Ht2 as [H1 H2]. split; [exact H1|exact H2].
    + intros b s v Hb. destruct (decide (b = a)) as [->|Hne]; [right; by rewrite lookup_insert_eq|].
      rewrite lookup_insert_ne by done. change (slots !! (b, s) = Some v) in Hb.
      unfold slots in Hb. rewrite set_slots_other in Hb by done.
      destruct (M2 b s v Hb) as [?|Hs]; [by left|]. right. unfold roots1 in Hs.
      destruct (wipe_storage c); [by rewrite lookup_insert_ne in Hs|done].
    + intros b r [[<- <-]|[Hne Hr]]%lookup_insert_Some; [done|].
      rewrite Hother by done. apply M3. unfold roots1.
      destruct (wipe_storage c); [by rewrite lookup_insert_ne|done].
    + intros b acc [Hb Hne]%lookup_insert_None Hacc. unfold root_ok. cbn [storage]. rewrite Hother by done.
      apply M4; [|done]. unfold roots1. destruct (wipe_storage c); [by rewrite lookup_insert_ne|done].
    + intros b Hb. unfold storage_nodes. cbn. destruct (decide (b = a)) as [->|Hne].
      * by rewrite lookup_insert_eq.
      * rewrite lookup_insert_ne by (intros E; by apply hashed_address_inj in E).
        rewrite Hother by done. by apply M5.
    + done.
    + split; [done|]. split; [done|]. split; [done|]. split; [done|].
      intros b. rewrite lookup_insert_is_Some. split; [intros [<-|[? ?]]|intros [?|[-> _]]]; eauto.
      destruct (decide (a = b)); eauto.
Qed.

Lemma frame_trans t1 t2 t3 : frame t1 t2 -> frame t2 t3 -> frame t1 t3.
Proof. unfold frame. intros (? & ? & ?) (? & ? & ?). repeat split; congruence. Qed.

Definition changes_slots (cs : list PlainStorageChangeset) (slots : gmap (Address * B256) Z) :=
  foldl (fun m c => change_slots c m) slots cs.

Lemma storage_phase_ok cs t roots :
  mid t roots -> Forall change_typed cs ->
  exists t' roots', try_fold apply_storage cs (t, roots) = Ok (t', roots')
    /\ mid t' roots' /\ accounts t' = accounts t /\ codes t' = codes t /\ frame t t'
    /\ storage t' = changes_slots cs (storage t)
    /\ (forall b, is_Some (roots' !! b) <->
                  is_Some (roots !! b) \/ exists c, c ∈ cs /\ b = s_address c /\ touches c).
Proof.
  intros Hm Hc. revert t roots Hm. induction Hc as [|c cs Hc Hcs IH]; intros t roots Hm.
  - exists t, roots. do 6 (split; [done|]). intros b. split; [by left|].
    by intros [?|(c & ?%elem_of_nil & _)].
  - destruct (apply_storage_ok c t roots) as (t1 & roots1 & E & Hm1 & Ea & Ec & Hf & Es & Hr); try done.
    destruct (IH t1 roots1) as (t2 & roots2 & E2 & Hm2 & Ea2 & Ec2 & Hf2 & Es2 & Hr2); [done|].
    exists t2, roots2. cbn [try_fold]. rewrite E. cbn [result_bind].
    split; [done|]. split; [done|]. split; [congruence|]. split; [congruence|].
    split; [by eapply frame_trans|]. split; [by rewrite Es2, Es|].
    intros b. rewrite Hr2, Hr. setoid_rewrite elem_of_cons. naive_solver.
Qed.

(** ** The account phase *)

Definition changed_map (changed : list (Address * option AccountInfo)) :
  gmap Address (option AccountInfo) := foldl (fun m kv => <[kv.1 := kv.2]> m) ∅ changed.

Lemma lookup_account_infos t changed roots a :
  account_infos t changed roots !! a
  = match changed_map changed !! a with
    | Some i => Some i
    | None => match roots !! a with
              | Some _ => Some (Some (info_of (default Account_default (accounts t !! a))))
              | None => None
              end
    end.
Proof.
  unfold account_infos. fold (changed_map changed).
  pose proof (elem_of_entry_keys roots a) as Hk. revert Hk.
  generalize (map fst (btree_list roots)) as l. generalize (changed_map changed) as m.
  set (f := fun infos addr => _). intros m l Hk.
  assert (foldl f m l !! a
          = match m !! a with
            | Some i => Some i
            | None => if decide (a ∈ l)
                      then Some (Some (info_of (default Account_default (accounts t !! a)))) else None
            end) as ->.
  - clear Hk. revert m. induction l as [|b l IH]; intros m; cbn [foldl].
    + rewrite decide_False by set_solver. by destruct (m !! a).
    + rewrite IH. unfold f at 1. destruct (m !! b) as [i|] eqn:Eb.
      * destruct (m !! a) as [j|] eqn:Ea; [done|].
        destruct (decide (a ∈ l)); destruct (decide (a ∈ b :: l)); try done; set_solver.
      * destruct (decide (a = b)) as [->|Hne].
        -- rewrite lookup_insert_eq, Eb, decide_True by set_solver. done.
        -- rewrite lookup_insert_ne by done. destruct (m !! a) as [j|]; [done|].
           destruct (decide (a ∈ l)); destruct (decide (a ∈ b :: l)); try done; set_solver.
  - destruct (m !! a); [done|]. destruct (roots !! a) as [r|] eqn:Er.
    + by rewrite decide_True by (apply Hk; eauto).
    + rewrite decide_False; [done|]. intros [? ?]%Hk. congruence.
Qed.

(** The state between two accounts: [rest] is still to be written. *)
Record writing (roots : gmap Address B256) (accs0 : gmap Address Account) (t : StateTables) (s : Session)
    (rest : list (Address * option AccountInfo)) : Prop := {
  w_typed : typed t;
  w_owner a r v : storage t !! (a, r) = Some v ->
    is_Some (accounts t !! a) \/ (a ∈ rest.*1 /\ is_Some (roots !! a));
  w_roots a r : a ∈ rest.*1 -> roots !! a = Some r -> r = root_of (sto_content (storage t) a);
  w_old a acc : accounts t !! a = Some acc -> ~ (a ∈ rest.*1 /\ is_Some (roots !! a)) -> root_ok t a acc;
  w_sto : nodes_match t;
  w_acc : trie_acc t = nodes_of (acc_content accs0);
  w_editing : editing (acc_content accs0) (acc_content (accounts t)) s;
}.

(** What writing one account does to the flat tables. *)
Definition put_info (a : Address) (info : option AccountInfo) (infos : gmap Address AccountInfo) :=
  match info with Some i => <[a := i]> infos | None => delete a infos end.

Definition drop_slots (a : Address) (info : option AccountInfo) (slots : gmap (Address * B256) Z) :=
  match info with Some _ => slots | None => filter (fun kv => kv.1.1 <> a) slots end.

Definition infos_of (t : StateTables) : gmap Address AccountInfo := info_of <$> accounts t.

Lemma apply_account_ok roots accs0 t s a info rest :
  writing roots accs0 t s ((a, info) :: rest) -> in_range 160 a -> a ∉ rest.*1 ->
  exists t' s', apply_account roots (a, info) (t, s) = Ok (t', s')
    /\ writing roots accs0 t' s' rest
    /\ infos_of t' = put_info a info (infos_of t) /\ storage t' = drop_slots a info (storage t)
    /\ codes t' = codes t /\ frame t t'.
Proof.
  intros [W1 W2 W3 W4 W5 W6 W7] Ha Hn. unfold apply_account. destruct info as [info|].
  - set (root := match roots !! a with Some r => r | None => _ end).
    set (acc := mkAccount _ _ _ root).
    destruct (editing_insert _ _ _ (hashed_address a) (trie_value acc) W7) as (s' & -> & He);
      [apply keccak_range|apply rlp_trie_account_nonempty|].
    assert (root = root_of (sto_content (storage t) a)) as Hroot.
    { unfold root. destruct (roots !! a) as [r|] eqn:Er; [apply W3; [set_solver|done]|].
      destruct (accounts t !! a) as [old|] eqn:Eo.
      - apply W4; [done|]. rewrite Er. intros [_ []%is_Some_None].
      - rewrite sto_content_empty, root_of_empty; [done|]. intros r. apply eq_None_not_Some. intros [v Hv].
        destruct (W2 _ _ _ Hv) as [[]%eq_None_not_Some|[_ Hs]]; [done|]. rewrite Er in Hs. by destruct Hs. }
    cbn [trie_err result_bind]. eexists _, _. split; [reflexivity|].
    split; [split; cbn [accounts storage trie_acc set_accounts]|].
    + destruct W1 as [H1 H2]. split; [|done]. cbn. intros b acc' [[<- _]|[_ ?]]%lookup_insert_Some; eauto.
    + intros b r v Hv. destruct (decide (b = a)) as [->|Hne]; [left; by rewrite lookup_insert_eq|].
      rewrite lookup_insert_ne by done. destruct (W2 _ _ _ Hv) as [?|[Hin ?]]; [by left|right].
      split; [|done]. apply elem_of_cons in Hin as [?|?]; done.
    + intros b r Hb Hr. eapply W3; [|done]. set_solver.
    + intros b acc' [[<- <-]|[Hne Hb]]%lookup_insert_Some Hnot; [done|].
      apply W4; [done|]. intros [Hin Hs]. apply Hnot. split; [|done].
      apply elem_of_cons in Hin as [?|?]; [|done]. cbn in *. congruence.
    + done.
    + done.
    + unfold acc_content. rewrite (hmap_insert (in_range 160)); auto using hashed_address_inj.
      by apply keys_in_accounts.
    + split; [|done]. unfold infos_of. cbn. rewrite fmap_insert. by destruct info.
  - destruct (editing_remove _ _ _ (hashed_address a) W7) as (s' & -> & He); [apply keccak_range|].
    cbn [trie_err result_bind]. eexists _, _. split; [reflexivity|].
    set (t1 := set_accounts (delete a (accounts t)) t). fold (wipe a t1).
    assert (typed t1) as Ht1.
    { destruct W1 as [H1 H2]. split; [|done]. cbn. intros b acc' [_ ?]%lookup_delete_Some; eauto. }
    split; [split; cbn [accounts trie_acc wipe del_nodes_of del_storage_of set_trie_sto set_storage t1]|].
    + by apply wipe_typed.
    + intros b r v. rewrite lookup_wipe. case_decide as E; [done|]. intros Hv. cbn in *.
      rewrite lookup_delete_ne by done. destruct (W2 _ _ _ Hv) as [?|[Hin ?]]; [by left|right].
      split; [|done]. apply elem_of_cons in Hin as [?|?]; done.
    + intros b r Hb Hr. rewrite wipe_content, decide_False by (intros ->; done). eapply W3; [|done]. set_solver.
    + intros b acc' Hb Hnot. change (delete a (accounts t) !! b = Some acc') in Hb.
      apply lookup_delete_Some in Hb as [Hne Hb]. unfold root_ok.
      rewrite wipe_content, decide_False by done.
      apply W4; [done|]. intros [Hin Hs]. apply Hnot. split; [|done].
      apply elem_of_cons in Hin as [?|?]; [|done]. cbn in *. congruence.
    + by apply wipe_nodes.
    + done.
    + unfold acc_content. cbn. rewrite (hmap_delete (in_range 160)); auto using hashed_address_inj.
      by apply keys_in_accounts.
    + split; [|done]. unfold infos_of. cbn. by rewrite fmap_delete.
Qed.

Lemma accounts_phase_ok roots accs0 t s rest :
  writing roots accs0 t s rest -> NoDup rest.*1 -> Forall (fun kv => in_range 160 kv.1) rest ->
  exists t' s', try_fold (apply_account roots) rest (t, s) = Ok (t', s')
    /\ writing roots accs0 t' s' []
    /\ infos_of t' = foldl (fun m kv => put_info kv.1 kv.2 m) (infos_of t) rest
    /\ storage t' = foldl (fun m kv => drop_slots kv.1 kv.2 m) (storage t) rest
    /\ codes t' = codes t /\ frame t t'.
Proof.
  revert t s. induction rest as [|[a info] rest IH]; intros t s Hw Hn Hr.
  - by exists t, s.
  - cbn [fmap list_fmap] in Hn. apply NoDup_cons in Hn as [Hna Hn]. apply Forall_cons in Hr as [Ha Hr].
    destruct (apply_account_ok roots accs0 t s a info rest) as (t1 & s1 & E & Hw1 & Ei & Es & Ec & Hf); try done.
    destruct (IH t1 s1) as (t2 & s2 & E2 & Hw2 & Ei2 & Es2 & Ec2 & Hf2); try done.
    exists t2, s2. cbn [try_fold]. rewrite E. cbn [result_bind foldl fst snd].
    split; [done|]. split; [done|]. rewrite <-Ei, <-Es. split; [done|]. split; [done|].
    split; [congruence|]. by eapply frame_trans.
Qed.

Lemma lookup_put_infos l m a :
  NoDup l.*1 ->
  foldl (fun m kv => put_info kv.1 kv.2 m) m l !! a
  = match (list_to_map l : gmap Address (option AccountInfo)) !! a with Some i => i | None => m !! a end.
Proof.
  revert m. induction l as [|[b i] l IH]; intros m Hn; [done|].
  cbn [fmap list_fmap] in Hn. apply NoDup_cons in Hn as [Hb Hn].
  cbn [foldl fst snd]. rewrite IH by done. rewrite list_to_map_cons.
  destruct (decide (a = b)) as [->|Hne].
  - rewrite lookup_insert_eq. rewrite not_elem_of_list_to_map_1 by done.
    destruct i; cbn; [by rewrite lookup_insert_eq|by rewrite lookup_delete_eq].
  - rewrite lookup_insert_ne by done. destruct (list_to_map l !! a); [done|].
    destruct i; cbn; [by rewrite lookup_insert_ne|by rewrite lookup_delete_ne].
Qed.

Lemma lookup_drop_slots l m a s :
  foldl (fun m kv => drop_slots kv.1 kv.2 m) m l !! (a, s)
  = if decide ((a, None) ∈ l) then None else m !! (a, s).
Proof.
  revert m. induction l as [|[b i] l IH]; intros m; [done|].
  cbn [foldl fst snd]. rewrite IH. destruct (decide ((a, None) ∈ l)) as [Hin|Hin].
  { by rewrite decide_True by set_solver. }
  destruct i as [i|]; cbn [drop_slots].
  - rewrite decide_False; [done|]. rewrite elem_of_cons. naive_solver.
  - rewrite map_lookup_filter. destruct (decide (a = b)) as [->|Hne].
    + rewrite decide_True by set_solver.
      destruct (m !! (b, s)); [|done]. cbn. by rewrite option_guard_False by (cbn; congruence).
    + rewrite decide_False by (rewrite elem_of_cons; naive_solver).
      destruct (m !! (a, s)); [|done]. cbn. by rewrite option_guard_True.
Qed.

(** ** Applying a changeset *)

Definition changes_typed (c : StateChangeset) : Prop :=
  Forall (fun kv => in_range 160 kv.1) (cs_accounts c) /\ Forall change_typed (cs_storage c).

Definition touched (c : StateChangeset) (a : Address) : Prop :=
  exists s, s ∈ cs_storage c /\ a = s_address s /\ touches s.

(** The flat state after the changes: an account is what the last entry for it says; one that only
    has storage changes is kept, or created empty; the slots are written in order, and a deleted
    account has none. *)
Record applied (c : StateChangeset) (t t' : StateTables) : Prop := {
  ap_changed a i : changed_map (cs_accounts c) !! a = Some i -> infos_of t' !! a = i;
  ap_kept a i : changed_map (cs_accounts c) !! a = None -> infos_of t !! a = Some i -> infos_of t' !! a = Some i;
  ap_absent a : changed_map (cs_accounts c) !! a = None -> infos_of t !! a = None -> ~ touched c a ->
    infos_of t' !! a = None;
  ap_created a : changed_map (cs_accounts c) !! a = None -> infos_of t !! a = None -> touched c a ->
    infos_of t' !! a = Some (info_of Account_default);
  ap_slots a s : storage t' !! (a, s)
    = if decide (changed_map (cs_accounts c) !! a = Some None) then None
      else changes_slots (cs_storage c) (storage t) !! (a, s);
  ap_codes : codes t' = foldl (fun m kv => <[kv.1 := kv.2]> m) (codes t) (cs_contracts c);
  ap_frame : frame t t';
}.

Lemma elem_of_changed_map l a i : changed_map l !! a = Some i -> (a, i) ∈ l.
Proof.
  unfold changed_map.
  induction l as [|[b j] l IH] using rev_ind; cbn; [done|].
  rewrite foldl_app. cbn. intros [[<- <-]|[_ ?]]%lookup_insert_Some; set_solver.
Qed.

Lemma changed_map_range c a i :
  changes_typed c -> changed_map (cs_accounts c) !! a = Some i -> in_range 160 a.
Proof.
  intros [Hc _] Hi%elem_of_changed_map. rewrite Forall_forall in Hc. by apply (Hc (a, i)).
Qed.

Lemma btree_list_to_map {V} (m : gmap Z V) : (list_to_map (btree_list m) : gmap Z V) = m.
Proof.
  rewrite (list_to_map_proper _ (map_to_list m)); [apply list_to_map_to_list| |apply btree_list_perm].
  apply NoDup_btree_keys.
Qed.

Lemma mid_writing t roots changed s :
  mid t roots -> editing (acc_content (accounts t)) (acc_content (accounts t)) s ->
  writing roots (accounts t) t s (btree_list (account_infos t changed roots)).
Proof.
  intros [M1 M2 M3 M4 M5 M6] He.
  assert (forall a, is_Some (roots !! a) -> a ∈ (btree_list (account_infos t changed roots)).*1) as Hin.
  { intros a [r Hr]. apply elem_of_entry_keys. rewrite lookup_account_infos, Hr.
    destruct (changed_map changed !! a); eauto. }
  split; try done.
  - intros a r v Hv. destruct (M2 _ _ _ Hv); [by left|right]. auto.
  - intros a r _ Hr. by apply M3.
  - intros a acc Hacc Hnot. apply M4; [|done]. apply eq_None_not_Some. intros Hs. auto.
Qed.

Lemma writing_wf roots accs0 t s writes :
  writing roots accs0 t s [] -> apply_writes writes (trie_acc t) = nodes_of (acc_content (accounts t)) ->
  wf (set_trie_acc (apply_writes writes (trie_acc t)) t).
Proof.
  intros [W1 W2 W3 W4 W5 W6 W7] Ew. split; cbn.
  - destruct W1 as [H1 H2]. by split.
  - intros a r v Hv. destruct (W2 _ _ _ Hv) as [?|[[]%elem_of_nil _]]; done.
  - intros a acc Ha. apply W4; [done|]. by intros [[]%elem_of_nil _].
  - exact W5.
  - exact Ew.
Qed.

Lemma applied_infos c t roots t1 (m : gmap Address AccountInfo) :
  infos_of t1 = infos_of t ->
  (forall b, is_Some (roots !! b) <-> touched c b) ->
  (forall a, m !! a = match account_infos t1 (cs_accounts c) roots !! a with
                      | Some i => i | None => infos_of t1 !! a end) ->
  (forall a i, changed_map (cs_accounts c) !! a = Some i -> m !! a = i)
  /\ (forall a i, changed_map (cs_accounts c) !! a = None -> infos_of t !! a = Some i -> m !! a = Some i)
  /\ (forall a, changed_map (cs_accounts c) !! a = None -> infos_of t !! a = None -> ~ touched c a ->
      m !! a = None)
  /\ (forall a, changed_map (cs_accounts c) !! a = None -> infos_of t !! a = None -> touched c a ->
      m !! a = Some (info_of Account_default)).
Proof.
  intros Ei Hr Hm.
  assert (forall a, infos_of t !! a = info_of <$> accounts t1 !! a) as El
    by (intros a; rewrite <-Ei; apply lookup_fmap).
  repeat split; intros a; intros; rewrite Hm, lookup_account_infos.
  - by simplify_option_eq.
  - rewrite H, Ei. rewrite El in H0 |- *. destruct (accounts t1 !! a) as [acc|]; [|done].
    cbn in H0. simplify_eq. by destruct (roots !! a).
  - rewrite H, Ei. destruct (roots !! a) eqn:E; [|done]. destruct H1. apply Hr. eauto.
  - rewrite H. rewrite El in H0. apply Hr in H1 as [r ->]. by destruct (accounts t1 !! a).
Qed.

(** Applying typed changes to well-formed tables succeeds, keeps the invariant and returns the
    reference root of the new accounts. *)
Lemma apply_changes_ok c t :
  wf t -> changes_typed c ->
  exists t', apply_changes c t = Ok (root_of (acc_content (accounts t')), t') /\ wf t' /\ applied c t t'.
Proof.
  intros Hwf Hc. unfold apply_changes.
  set (t0 := set_codes _ t).
  assert (mid t0 ∅) as Hm0 by (destruct (wf_mid t Hwf) as [[H1 H2] ? ? ? ? ?]; by split).
  destruct (storage_phase_ok (cs_storage c) t0 ∅) as (t1 & roots & -> & Hm1 & Ea & Ec & Hf & Es & Hr);
    [done|by destruct Hc|].
  cbn [result_bind]. set (infos := account_infos t1 (cs_accounts c) roots).
  assert (forall b, is_Some (roots !! b) <-> touched c b) as Hr'.
  { intros b. rewrite Hr. split; [intros [[? []%lookup_empty_Some]|?]; done|by right]. }
  assert (editing (acc_content (accounts t1)) (acc_content (accounts t1)) (trie_new (trie_acc t1))) as He.
  { rewrite (mid_acc _ _ Hm1). apply editing_new, acc_content_ok, Hm1. }
  destruct (accounts_phase_ok roots (accounts t1) t1 (trie_new (trie_acc t1)) (btree_list infos))
    as (t2 & s2 & -> & Hw2 & Ei2 & Es2 & Ec2 & Hf2).
  { by apply mid_writing. }
  { apply NoDup_btree_keys. }
  { apply Forall_forall. intros [a i] Hai%elem_of_btree_entries. cbn.
    unfold infos in Hai. rewrite lookup_account_infos in Hai.
    destruct (changed_map (cs_accounts c) !! a) eqn:E; [by eapply changed_map_range|].
    destruct (roots !! a) eqn:E'; [|done]. by eapply mid_roots. }
  cbn [result_bind].
  destruct (editing_commit _ _ _ (w_editing _ _ _ _ _ Hw2)) as (writes & -> & Ew).
  cbn [trie_err result_bind]. rewrite <-(w_acc _ _ _ _ _ Hw2) in Ew.
  exists (set_trie_acc (apply_writes writes (trie_acc t2)) t2). split; [reflexivity|].
  split; [by eapply writing_wf|].
  assert (infos_of t1 = infos_of t) as Ei by (unfold infos_of; by rewrite Ea).
  destruct (applied_infos c t roots t1 (infos_of t2)) as (A1 & A2 & A3 & A4); [done|done| |].
  { intros a. rewrite Ei2, lookup_put_infos, btree_list_to_map by apply NoDup_btree_keys. done. }
  split; cbn; try done.
  - intros a s. rewrite Es2, lookup_drop_slots, Es. apply decide_ext.
    rewrite elem_of_btree_entries. unfold infos. rewrite lookup_account_infos.
    destruct (changed_map (cs_accounts c) !! a); [naive_solver|].
    destruct (roots !! a); naive_solver.
  - by rewrite Ec2, Ec.
  - eapply (frame_trans t0); [done|]. by eapply frame_trans.
Qed.

(** ** Recomputing the root *)

Lemma hmap_list {Key V} `{Countable Key} (P : Key -> Prop) (h : Key -> B256) (g : V -> bytes)
  (m : gmap Key V) (l : list (Key * V)) :
  (forall x y, P x -> P y -> h x = h y -> x = y) -> keys_in P m -> l ≡ₚ map_to_list m ->
  list_to_map (map (fun kv => (h kv.1, g kv.2)) l) = hmap h g m.
Proof.
  intros Hi Hk Hl. unfold hmap. apply list_to_map_proper; [|by rewrite Hl].
  assert ((map (fun kv => (h kv.1, g kv.2)) l).*1 = map h l.*1) as ->.
  { change (map h ?x) with (h <$> x). change (map ?f l) with (f <$> l). by rewrite <-!list_fmap_compose. }
  assert (Forall P l.*1) as HP.
  { rewrite Hl. apply Forall_fmap, Forall_forall. intros [k v] ?%elem_of_map_to_list. by eapply Hk. }
  assert (NoDup l.*1) as Hn by (rewrite Hl; apply NoDup_fst_map_to_list).
  clear Hl. revert HP Hn. generalize l.*1 as ks.
  induction ks as [|k ks IH]; intros HP Hn; [constructor|]. cbn.
  apply Forall_cons in HP as [Pk HP]. apply NoDup_cons in Hn as [Hk' Hn].
  constructor; [|by apply IH]. change (map h ks) with (h <$> ks). rewrite list_elem_of_fmap.
  intros (y & E & Hy). apply Hk'. rewrite Forall_forall in HP. by apply Hi in E as ->; [|done|by apply HP].
Qed.

Lemma slots_of_perm a t : slots_of a t ≡ₚ map_to_list (slots_at (storage t) a).
Proof.
  unfold slots_of. rewrite merge_sort_Permutation. apply NoDup_Permutation.
  - change (map ?f ?l) with (f <$> l). apply NoDup_fmap_2_strong.
    + intros [[b r] v] [[b' r'] v']. rewrite !list_elem_of_filter. cbn. intros [-> _] [-> _]. congruence.
    + apply NoDup_filter, NoDup_map_to_list.
  - apply NoDup_map_to_list.
  - intros [r v]. change (map ?f ?l) with (f <$> l).
    rewrite list_elem_of_fmap, elem_of_map_to_list, lookup_slots_at. split.
    + intros ([[b r'] v'] & E & [Hb Hin%elem_of_map_to_list]%list_elem_of_filter). by simplify_eq/=.
    + intros Hv. exists (a, r, v). split; [done|]. apply list_elem_of_filter.
      split; [done|]. by apply elem_of_map_to_list.
Qed.

Class AlloyRootLaws (A : AlloyRoot) : Prop := {
  storage_root_unhashed_spec l : NoDup l.*1 ->
    storage_root_unhashed l = root_of (list_to_map (map (fun kv => (hashed_slot kv.1, rlp_u256 kv.2)) l));
  state_root_unhashed_spec l : NoDup l.*1 ->
    state_root_unhashed l
    = root_of (list_to_map (map (fun kv => (hashed_address kv.1, trie_value kv.2)) l));
}.

Lemma full_state_root_ok `{A : AlloyRoot} `{!AlloyRootLaws A} t :
  wf t -> full_state_root t = root_of (acc_content (accounts t)).
Proof.
  intros Hwf. unfold full_state_root. destruct Hwf as [Ht _ Hr _ _].
  replace (map _ (btree_list (accounts t))) with (btree_list (accounts t)).
  - rewrite state_root_unhashed_spec by apply NoDup_btree_keys.
    rewrite (hmap_list (in_range 160) _ _ (accounts t)); [done|apply hashed_address_inj| |apply btree_list_perm].
    by apply keys_in_accounts.
  - symmetry. change (map ?f ?l) with (f <$> l).
    rewrite <-(list_fmap_id (btree_list (accounts t))) at 2.
    apply list_fmap_ext. intros i [a acc] Hi. apply list_elem_of_lookup_2, elem_of_btree_entries in Hi.
    cbn. f_equal. rewrite storage_root_unhashed_spec.
    + rewrite (hmap_list (in_range 256) _ _ (slots_at (storage t) a));
        [|apply hashed_slot_inj|by apply keys_in_slots|apply slots_of_perm].
      fold (sto_content (storage t) a). rewrite <-(Hr a acc Hi). by destruct acc.
    + rewrite slots_of_perm. apply NoDup_fst_map_to_list.
Qed.
End state.
