(* ===== verification/StoreHistory.v ===== *)
(** * Undoing blocks and reading past states

    The history tables of crates/store/src/state.rs: undoing the head block restores the flat
    tables, the tries and the state root before it, and the view of a past block ([account_at],
    [storage_at]) is the state that block left, as long as its history was not pruned. *)

From S2P Require Import Prelude Types TxPool Ipld TrieIface Store StoreFacts.
From stdpp Require Import base list list_numbers sorting gmap fin_maps strings.
From Stdlib Require Import ZArith Lia.

Open Scope Z_scope.

(** ** Cursors *)

Section cursors.
Context {Key V : Type} `{Countable Key} (le : Key -> Key -> Prop) `{!RelDecision le}.
Context `{!Total le} `{!Transitive le}.

#[local] Instance on_key_total : Total (@on_key Key V le).
Proof. intros a b. unfold on_key. apply total, _. Qed.

#[local] Instance on_key_trans : Transitive (@on_key Key V le).
Proof. intros a b c. unfold on_key. apply transitivity. Qed.

Lemma set_range_Some seek (m : gmap Key V) k v :
  set_range le seek m = Some (k, v) ->
  m !! k = Some v /\ le seek k /\ forall k' v', m !! k' = Some v' -> le seek k' -> le k k'.
Proof.
  unfold set_range. set (l := filter _ _). intros E.
  destruct (merge_sort (on_key le) l) as [|x rest] eqn:El; [done|]. cbn in E. injection E as ->.
  pose proof (merge_sort_Permutation (on_key le) l) as Hp. rewrite El in Hp.
  assert ((k, v) ∈ l) as Hin by (rewrite <-Hp; set_solver).
  unfold l in Hin. apply list_elem_of_filter in Hin as [Hk Hin%elem_of_map_to_list].
  split; [done|]. split; [done|]. intros k' v' Hk' Hle.
  assert ((k', v') ∈ (k, v) :: rest) as Hin'.
  { rewrite Hp. apply list_elem_of_filter. split; [done|]. by apply elem_of_map_to_list. }
  pose proof (StronglySorted_merge_sort (on_key le) l) as Hs. rewrite El in Hs.
  apply StronglySorted_inv in Hs as [_ Hf]. rewrite Forall_forall in Hf.
  apply elem_of_cons in Hin' as [E|Hin']; [injection E as -> ->|by apply (Hf (k', v'))].
  destruct (total le k k); done.
Qed.

Lemma set_range_None seek (m : gmap Key V) :
  set_range le seek m = None -> forall k v, m !! k = Some v -> ~ le seek k.
Proof.
  unfold set_range. set (l := filter _ _). intros E k v Hk Hle.
  pose proof (merge_sort_Permutation (on_key le) l) as Hp.
  destruct (merge_sort (on_key le) l) as [|x rest]; [|done].
  assert ((k, v) ∈ l) as Hin.
  { apply list_elem_of_filter. split; [done|]. by apply elem_of_map_to_list. }
  rewrite <-Hp in Hin. by apply elem_of_nil in Hin.
Qed.
End cursors.

#[export] Instance acc_key_le_total : Total acc_key_le.
Proof. intros [a b] [c d]. unfold acc_key_le. cbn. lia. Qed.

#[export] Instance acc_key_le_trans : Transitive acc_key_le.
Proof. intros [a b] [c d] [e f]. unfold acc_key_le. cbn. lia. Qed.

#[export] Instance sto_key_le_total : Total sto_key_le.
Proof.
  intros [[a b] n] [[c d] m]. unfold sto_key_le, acc_key_le. cbn.
  destruct (decide ((a, b) = (c, d))) as [Eq|Hne].
  { injection Eq as -> ->. destruct (decide (n <= m)); [left|right]; right; (split; [done|lia]). }
  assert (a <> c \/ b <> d) as Hd by (destruct (decide (a = c)); [right|left]; congruence).
  destruct (decide (a < c \/ (a = c /\ b <= d))) as [?|?]; [left|right]; left; (split; [|congruence]); lia.
Qed.

#[export] Instance sto_key_le_trans : Transitive sto_key_le.
Proof.
  intros [[a b] n] [[c d] m] [[e f] k]. unfold sto_key_le, acc_key_le. cbn.
  intros [[H1 H2]|[H1 H2]] [[H3 H4]|[H3 H4]].
  - left. split; [lia|]. intros E. injection E as -> ->. apply H2. f_equal; lia.
  - left. injection H3 as -> ->. by split.
  - left. injection H1 as -> ->. by split.
  - right. split; [congruence|lia].
Qed.

(** The first entry for an address from a block on. *)
Lemma set_range_acc (m : gmap (Address * Z) HistInfo) a n :
  match set_range acc_key_le (a, n) m with
  | Some (k, v) => (k.1 = a -> m !! (a, k.2) = Some v /\ n <= k.2
                    /\ forall j, n <= j -> j < k.2 -> m !! (a, j) = None)
                   /\ (k.1 <> a -> forall j, n <= j -> m !! (a, j) = None)
  | None => forall j, n <= j -> m !! (a, j) = None
  end.
Proof.
  destruct (set_range acc_key_le (a, n) m) as [[[b j] v]|] eqn:E.
  - apply set_range_Some in E as (Hm & Hle & Hmin); [|apply _..]. cbn. split.
    + intros ->. unfold acc_key_le in Hle. cbn in Hle. split; [done|]. split; [lia|].
      intros i Hi Hlt. apply eq_None_not_Some. intros [w Hw].
      specialize (Hmin _ _ Hw). unfold acc_key_le in Hmin. cbn in Hmin. lia.
    + intros Hne i Hi. apply eq_None_not_Some. intros [w Hw]. unfold acc_key_le in *. cbn in *.
      specialize (Hmin _ _ Hw). cbn in Hmin. lia.
  - intros j Hj. apply eq_None_not_Some. intros [w Hw].
    apply (set_range_None _ _ _ E _ _ Hw). right. cbn. split; [done|lia].
Qed.

Lemma set_range_sto (m : gmap (Address * B256 * Z) Z) a s n :
  match set_range sto_key_le (a, s, n) m with
  | Some (k, v) => (k.1 = (a, s) -> m !! (a, s, k.2) = Some v /\ n <= k.2
                    /\ forall j, n <= j -> j < k.2 -> m !! (a, s, j) = None)
                   /\ (k.1 <> (a, s) -> forall j, n <= j -> m !! (a, s, j) = None)
  | None => forall j, n <= j -> m !! (a, s, j) = None
  end.
Proof.
  destruct (set_range sto_key_le (a, s, n) m) as [[[b j] v]|] eqn:E.
  - apply set_range_Some in E as (Hm & Hle & Hmin); [|apply _..]. cbn. split.
    + intros ->. destruct Hle as [[_ []]|[_ Hle]]; [done|]. cbn in Hle. split; [done|]. split; [lia|].
      intros i Hi Hlt. apply eq_None_not_Some. intros [w Hw].
      destruct (Hmin _ _ Hw) as [[_ []]|[_ ?]]; [by right| |]; cbn in *; [done|lia].
    + intros Hne i Hi. apply eq_None_not_Some. intros [w Hw].
      destruct (Hmin _ _ Hw) as [[H1 H2]|[H1 _]]; [by right| |]; cbn in *; [|congruence].
      destruct Hle as [[H3 H4]|[H3 _]]; cbn in *; [|congruence].
      apply Hne. destruct b as [b1 b2]. unfold acc_key_le in *. cbn in *. f_equal; lia.
  - intros j Hj. apply eq_None_not_Some. intros [w Hw].
    apply (set_range_None _ _ _ E _ _ Hw). right. cbn. split; [done|lia].
Qed.

(** ** Reading the undo changes *)

Definition nonzero (v : Z) : option Z := if v =? 0 then None else Some v.

Lemma lookup_set_slots a l slots s :
  NoDup l.*1 ->
  set_slots a l slots !! (a, s)
  = match (list_to_map l : gmap Z Z) !! s with Some v => nonzero v | None => slots !! (a, s) end.
Proof.
  unfold set_slots. revert slots. induction l as [|[r v] l IH]; intros slots Hn; [done|].
  cbn [fmap list_fmap] in Hn. apply NoDup_cons in Hn as [Hr Hn]. cbn [foldl fst snd].
  rewrite IH, list_to_map_cons, lookup_set_slot by done. destruct (decide (s = r)) as [->|Hne].
  - rewrite lookup_insert_eq, not_elem_of_list_to_map_1, decide_True by done. done.
  - rewrite lookup_insert_ne by done. destruct (list_to_map l !! s); [done|].
    rewrite decide_False by congruence. done.
Qed.

Lemma set_slots_ext a l slots slots' s :
  (forall r, slots !! (a, r) = slots' !! (a, r)) -> set_slots a l slots !! (a, s) = set_slots a l slots' !! (a, s).
Proof.
  unfold set_slots. revert slots slots'. induction l as [|[r v] l IH]; intros m m' E; [apply E|].
  cbn [foldl]. apply IH. intros r'. rewrite !lookup_set_slot. by case_decide.
Qed.

Definition plain (kv : Address * list (Z * Z)) : PlainStorageChangeset := mkStorageChange kv.1 false kv.2.

Lemma lookup_changes_plain L slots a s :
  NoDup L.*1 ->
  changes_slots (map plain L) slots !! (a, s)
  = match (list_to_map L : gmap Address (list (Z * Z))) !! a with
    | Some l => set_slots a l slots !! (a, s)
    | None => slots !! (a, s)
    end.
Proof.
  unfold changes_slots. revert slots. induction L as [|[b l] L IH]; intros slots Hn; [done|].
  cbn [fmap list_fmap] in Hn. apply NoDup_cons in Hn as [Hb Hn]. cbn [map foldl plain fst snd].
  rewrite IH, list_to_map_cons by done.
  unfold change_slots. cbn [s_address s_storage wipe_storage].
  destruct (decide (a = b)) as [->|Hne].
  - by rewrite lookup_insert_eq, not_elem_of_list_to_map_1 by done.
  - rewrite lookup_insert_ne by done. destruct (list_to_map L !! a) as [l'|] eqn:El.
    + apply set_slots_ext. intros r. by apply set_slots_other.
    + by rewrite set_slots_other.
Qed.

Lemma lookup_changed_map l a :
  NoDup l.*1 -> changed_map l !! a = (list_to_map l : gmap Address (option AccountInfo)) !! a.
Proof.
  unfold changed_map. intros Hn.
  assert (forall m : gmap Address (option AccountInfo),
    foldl (fun m kv => <[kv.1 := kv.2]> m) m l !! a
    = match (list_to_map l : gmap Address (option AccountInfo)) !! a with
      | Some i => Some i | None => m !! a end) as Hf.
  { induction l as [|[b i] l IH]; intros m; [done|]. cbn [fmap list_fmap] in Hn.
    apply NoDup_cons in Hn as [Hb Hn]. cbn [foldl fst snd]. rewrite IH, list_to_map_cons by done.
    destruct (decide (a = b)) as [->|Hne].
    - by rewrite lookup_insert_eq, not_elem_of_list_to_map_1, lookup_insert_eq.
    - by rewrite !lookup_insert_ne. }
  rewrite Hf. by destruct (list_to_map l !! a).
Qed.

(** ** Undoing the keys of a block *)

(** Each key of [hist_keys] has its entry, and conversely. *)
Definition has_entry (x : StateTables) (n : Z) (k : HistKey) : Prop :=
  match k with
  | AccKey a => is_Some (acc_hist x !! (a, n))
  | StoKey a s => is_Some (sto_hist x !! (a, s, n))
  end.

Definition hist_keyed (x : StateTables) : Prop :=
  forall n k, (n, k) ∈ hist_keys x <-> has_entry x n k.

Definition to_info (p : HistInfo) : option AccountInfo :=
  (fun '(nonce, balance, code_hash) => mkInfo balance nonce code_hash) <$> p.

Lemma to_info_hist_info o : to_info (hist_info <$> o) = o.
Proof. by destruct o as [[]|]. Qed.

(** The undo lists of a list of keys. *)
Definition acc_undo (x : StateTables) (n : Z) (k : HistKey) : option (Address * option AccountInfo) :=
  match k with
  | AccKey a => (fun p => (a, to_info p)) <$> acc_hist x !! (a, n)
  | StoKey _ _ => None
  end.

Definition slot_undo (x : StateTables) (n : Z) (a : Address) (k : HistKey) : option (Z * Z) :=
  match k with
  | AccKey _ => None
  | StoKey b s => if decide (b = a) then (fun v => (s, v)) <$> sto_hist x !! (b, s, n) else None
  end.

(** Only the history tables differ. *)
Definition same_state (x x' : StateTables) : Prop :=
  accounts x' = accounts x /\ storage x' = storage x /\ codes x' = codes x
  /\ trie_acc x' = trie_acc x /\ trie_sto x' = trie_sto x.

Lemma same_state_trans x y z : same_state x y -> same_state y z -> same_state x z.
Proof. unfold same_state. intros (?&?&?&?&?) (?&?&?&?&?). repeat split; congruence. Qed.

(** The keys [ks] of block [n] and their entries are gone. *)
Record dropped (n : Z) (ks : list HistKey) (x x' : StateTables) : Prop := {
  d_acc a m : acc_hist x' !! (a, m) = if decide (m = n /\ AccKey a ∈ ks) then None else acc_hist x !! (a, m);
  d_sto a s m : sto_hist x' !! (a, s, m)
    = if decide (m = n /\ StoKey a s ∈ ks) then None else sto_hist x !! (a, s, m);
  d_keys m k : (m, k) ∈ hist_keys x' <-> (m, k) ∈ hist_keys x /\ ~ (m = n /\ k ∈ ks);
}.

Lemma dropped_nil n x : dropped n [] x x.
Proof.
  split; intros; try (rewrite decide_False; [done|]); set_solver.
Qed.

Lemma dropped_cons n k ks x x1 x2 : dropped n [k] x x1 -> dropped n ks x1 x2 -> dropped n (k :: ks) x x2.
Proof.
  intros [A1 S1 K1] [A2 S2 K2]. split.
  - intros a m. rewrite A2, A1. repeat case_decide; try done; set_solver.
  - intros a s m. rewrite S2, S1. repeat case_decide; try done; set_solver.
  - intros m j. rewrite K2, K1. set_solver.
Qed.

Lemma unwind_key_ok n k x u :
  has_entry x n k ->
  exists x1, unwind_key n k (x, u)
    = Ok (x1, mkUndo (undo_accounts u ++ omap (acc_undo x n) [k])
                match k with
                | AccKey _ => undo_storage u
                | StoKey a s => <[a := default [] (undo_storage u !! a) ++ omap (slot_undo x n a) [k]]> (undo_storage u)
                end)
    /\ same_state x x1 /\ dropped n [k] x x1.
Proof.
  intros He. destruct k as [a|a s]; cbn in He; destruct He as [p Hp]; cbn; rewrite !Hp; cbn.
  - eexists. split; [reflexivity|]. split; [done|]. split; cbn.
    + intros b m. destruct (decide ((b, m) = (a, n))) as [E|Hne].
      * injection E as -> ->. rewrite lookup_delete_eq, decide_True by set_solver. done.
      * rewrite lookup_delete_ne by congruence. rewrite decide_False; [done|]. set_solver.
    + intros b r m. rewrite decide_False; [done|]. set_solver.
    + intros m k. rewrite elem_of_difference, elem_of_singleton, list_elem_of_singleton. naive_solver.
  - rewrite decide_True by done. cbn. rewrite app_nil_r.
    eexists. split; [by destruct u|]. split; [done|]. split; cbn.
    + intros b m. rewrite decide_False; [done|]. set_solver.
    + intros b r m. destruct (decide ((b, r, m) = (a, s, n))) as [E|Hne].
      * injection E as -> -> ->. rewrite lookup_delete_eq, decide_True by set_solver. done.
      * rewrite lookup_delete_ne by congruence. rewrite decide_False; [done|]. set_solver.
    + intros m k. rewrite elem_of_difference, elem_of_singleton, list_elem_of_singleton. naive_solver.
Qed.

Lemma undo_frame x x1 n k (ks : list HistKey) :
  dropped n [k] x x1 -> k ∉ ks ->
  omap (acc_undo x1 n) ks = omap (acc_undo x n) ks
  /\ (forall a, omap (slot_undo x1 n a) ks = omap (slot_undo x n a) ks)
  /\ (forall j, j ∈ ks -> has_entry x n j -> has_entry x1 n j).
Proof.
  intros [A S _] Hk.
  assert (forall j, j ∈ ks -> acc_undo x1 n j = acc_undo x n j /\ (forall a, slot_undo x1 n a j = slot_undo x n a j)
                              /\ (has_entry x n j -> has_entry x1 n j)) as Hj.
  { intros j Hj. assert (j <> k) by set_solver. destruct j as [a|a s]; cbn.
    - rewrite A, decide_False by (rewrite list_elem_of_singleton; naive_solver). done.
    - rewrite S, decide_False by (rewrite list_elem_of_singleton; naive_solver). done. }
  split; [|split].
  - clear Hk. induction ks as [|j ks IH]; [done|]. cbn. rewrite (proj1 (Hj j ltac:(set_solver))).
    rewrite IH by (intros; apply Hj; set_solver). done.
  - intros a. clear Hk. induction ks as [|j ks IH]; [done|]. cbn.
    rewrite (proj1 (proj2 (Hj j ltac:(set_solver))) a).
    rewrite IH by (intros; apply Hj; set_solver). done.
  - intros j Hin. by apply Hj.
Qed.

Lemma unwind_keys_ok n (ks : list HistKey) x u :
  NoDup ks -> (forall k, k ∈ ks -> has_entry x n k) ->
  exists x1 u1, try_fold (unwind_key n) ks (x, u) = Ok (x1, u1)
    /\ same_state x x1 /\ dropped n ks x x1
    /\ undo_accounts u1 = undo_accounts u ++ omap (acc_undo x n) ks
    /\ (forall a, default [] (undo_storage u1 !! a)
                  = default [] (undo_storage u !! a) ++ omap (slot_undo x n a) ks)
    /\ (forall a, is_Some (undo_storage u1 !! a) <-> is_Some (undo_storage u !! a) \/ exists s, StoKey a s ∈ ks).
Proof.
  revert x u. induction ks as [|k ks IH]; intros x u Hn He.
  - exists x, u. split; [done|]. split; [done|]. split; [apply dropped_nil|]. cbn.
    split; [by rewrite app_nil_r|]. split; [intros a; by rewrite app_nil_r|]. set_solver.
  - apply NoDup_cons in Hn as [Hk Hn].
    destruct (unwind_key_ok n k x u) as (x1 & E & Hs & Hd); [apply He; set_solver|].
    set (u0 := mkUndo _ _) in E.
    destruct (undo_frame x x1 n k ks) as (Fa & Fs & Fe); [done|done|].
    destruct (IH x1 u0) as (x2 & u2 & E2 & Hs2 & Hd2 & Ua & Us & Ui); [done| |].
    { intros j Hj. apply Fe; [done|]. apply He. set_solver. }
    exists x2, u2. cbn [try_fold]. rewrite E. cbn [result_bind]. split; [done|].
    split; [by eapply same_state_trans|]. split; [by eapply dropped_cons|].
    assert (omap (acc_undo x n) (k :: ks) = omap (acc_undo x n) [k] ++ omap (acc_undo x n) ks) as ->
      by (cbn; by destruct (acc_undo x n k)).
    assert (forall a, omap (slot_undo x n a) (k :: ks) = omap (slot_undo x n a) [k] ++ omap (slot_undo x n a) ks) as Eo
      by (intros a; cbn; by destruct (slot_undo x n a k)).
    split; [rewrite Ua, Fa; unfold u0; cbn [undo_accounts]; by rewrite (assoc (++))|].
    split; intros a.
    + rewrite Us, Fs, Eo, (assoc (++)). f_equal. unfold u0. cbn [undo_storage].
      destruct k as [b|b s]; [cbn; by rewrite app_nil_r|].
      destruct (decide (a = b)) as [->|Hne]; [by rewrite lookup_insert_eq|].
      rewrite lookup_insert_ne by done. cbn. rewrite decide_False by done. by rewrite app_nil_r.
    + rewrite Ui. unfold u0. cbn [undo_storage]. destruct k as [b|b s].
      * setoid_rewrite elem_of_cons. naive_solver.
      * setoid_rewrite elem_of_cons. destruct (decide (a = b)) as [->|Hne].
        -- rewrite lookup_insert_eq. naive_solver.
        -- rewrite lookup_insert_ne by done. naive_solver.
Qed.

Lemma elem_of_keys_of_block n x k : k ∈ keys_of_block n x <-> (n, k) ∈ hist_keys x.
Proof.
  unfold keys_of_block. rewrite merge_sort_Permutation. change (map snd ?l) with (l.*2).
  rewrite list_elem_of_fmap. split.
  - intros ([m j] & -> & [Hm Hin%elem_of_elements]%list_elem_of_filter). cbn in *. by subst m.
  - intros Hk. exists (n, k). split; [done|]. apply list_elem_of_filter. split; [done|].
    by apply elem_of_elements.
Qed.

Lemma NoDup_keys_of_block n x : NoDup (keys_of_block n x).
Proof.
  unfold keys_of_block. rewrite merge_sort_Permutation. change (map snd ?l) with (l.*2).
  apply NoDup_fmap_2_strong; [|apply NoDup_filter, NoDup_elements].
  intros [m j] [m' j']. rewrite !list_elem_of_filter. cbn. intros [-> _] [-> _]. congruence.
Qed.

Lemma NoDup_omap_keys {Key V} (f : HistKey -> option (Key * V)) ks :
  NoDup ks -> (forall k k' y y', f k = Some y -> f k' = Some y' -> y.1 = y'.1 -> k = k') ->
  NoDup (omap f ks).*1.
Proof.
  intros Hn Hf. induction Hn as [|k ks Hk Hn IH]; [constructor|]. cbn.
  destruct (f k) as [y|] eqn:E; [|done]. cbn. constructor; [|done].
  rewrite list_elem_of_fmap. intros (y' & Ey & (k' & Hk' & E')%list_elem_of_omap).
  assert (k = k') as <- by (eapply Hf; eauto). done.
Qed.

Lemma acc_undo_lookup n x a :
  hist_keyed x ->
  changed_map (omap (acc_undo x n) (keys_of_block n x)) !! a = to_info <$> acc_hist x !! (a, n).
Proof.
  intros Hx. assert (NoDup (omap (acc_undo x n) (keys_of_block n x)).*1) as Hn.
  { apply NoDup_omap_keys; [apply NoDup_keys_of_block|]. intros [b|b r] [b'|b' r'] y y' E E' Ey; cbn in *; try done.
    destruct (acc_hist x !! (b, n)), (acc_hist x !! (b', n)); simplify_eq/=. done. }
  rewrite lookup_changed_map by done. apply option_eq. intros i.
  rewrite <-elem_of_list_to_map, list_elem_of_omap by done. split.
  - intros ([b|b r] & _ & E); cbn in E; [|done]. destruct (acc_hist x !! (b, n)) eqn:Eb; simplify_eq/=.
    by rewrite Eb.
  - intros E. destruct (acc_hist x !! (a, n)) as [p|] eqn:Ea; simplify_eq/=. exists (AccKey a).
    rewrite elem_of_keys_of_block, (Hx n _). cbn. rewrite Ea. eauto.
Qed.

Lemma slot_undo_lookup n x a s :
  hist_keyed x ->
  NoDup (omap (slot_undo x n a) (keys_of_block n x)).*1
  /\ (list_to_map (omap (slot_undo x n a) (keys_of_block n x)) : gmap Z Z) !! s = sto_hist x !! (a, s, n).
Proof.
  intros Hx. assert (NoDup (omap (slot_undo x n a) (keys_of_block n x)).*1) as Hn.
  { apply NoDup_omap_keys; [apply NoDup_keys_of_block|]. intros [b|b r] [b'|b' r'] y y' E E' Ey; cbn in *; try done.
    repeat case_decide; simplify_eq.
    destruct (sto_hist x !! (a, r, n)), (sto_hist x !! (a, r', n)); simplify_eq/=. done. }
  split; [done|]. apply option_eq. intros v.
  rewrite <-elem_of_list_to_map, list_elem_of_omap by done. split.
  - intros ([b|b r] & _ & E); cbn in E; [done|]. case_decide; [subst b|done].
    destruct (sto_hist x !! (a, r, n)) eqn:Er; simplify_eq/=. done.
  - intros E. exists (StoKey a s). rewrite elem_of_keys_of_block, (Hx n _). cbn. rewrite E.
    rewrite decide_True by done. cbn. eauto.
Qed.

Definition hist_typed (x : StateTables) : Prop :=
  (forall a n p, acc_hist x !! (a, n) = Some p -> in_range 160 a)
  /\ (forall a s n v, sto_hist x !! (a, s, n) = Some v -> in_range 160 a /\ in_range 256 s /\ in_range 256 v).

Section history.
Context `{K : Keccak} `{!KeccakLaws K} `{!KeccakInj K}.
Context `{R : StateRlp} `{!StateRlpLaws R}.
Context `{T : TrieOps} `{TL : !TrieLaws T}.

Lemma wf_same x x1 : wf x -> same_state x x1 -> wf x1.
Proof.
  intros [[W1 W2] W3 W4 W5 W6] (Ea & Es & Ec & Eta & Ets).
  split; [split| | | |]; unfold root_ok, nodes_match, storage_nodes in *; rewrite ?Ea, ?Es, ?Eta, ?Ets; eauto.
Qed.

(** What undoing block [n] does to the tables. *)
Record undone (n : Z) (x x' : StateTables) : Prop := {
  u_prior a p : acc_hist x !! (a, n) = Some p -> infos_of x' !! a = to_info p;
  u_kept a i : acc_hist x !! (a, n) = None -> infos_of x !! a = Some i -> infos_of x' !! a = Some i;
  u_absent a : acc_hist x !! (a, n) = None -> infos_of x !! a = None ->
    (forall s, sto_hist x !! (a, s, n) = None) -> infos_of x' !! a = None;
  u_slot a s : storage x' !! (a, s)
    = if decide (acc_hist x !! (a, n) = Some None) then None
      else match sto_hist x !! (a, s, n) with Some v => nonzero v | None => storage x !! (a, s) end;
  u_codes : codes x' = codes x;
  u_dropped : dropped n (keys_of_block n x) x x';
}.

Lemma unwind_state_ok n x :
  wf x -> hist_keyed x -> hist_typed x ->
  exists x', unwind_state n true x = Ok (root_of (acc_content (accounts x')), x') /\ wf x' /\ undone n x x'.
Proof.
  intros Hwf Hk [Ht1 Ht2]. unfold unwind_state. cbn [negb]. rewrite andb_false_r.
  destruct (unwind_keys_ok n (keys_of_block n x) x (mkUndo [] ∅)) as (x1 & u & -> & Hs & Hd & Ua & Us & Ui).
  { apply NoDup_keys_of_block. }
  { intros k Hin. by apply Hk, elem_of_keys_of_block. }
  cbn [result_bind]. cbn [undo_accounts undo_storage app] in Ua, Us, Ui.
  assert (forall a s, (list_to_map (default [] (undo_storage u !! a)) : gmap Z Z) !! s = sto_hist x !! (a, s, n)
                      /\ NoDup (default [] (undo_storage u !! a)).*1) as Hu.
  { intros a s. rewrite Us. cbn. destruct (slot_undo_lookup n x a s Hk). done. }
  assert (forall slots a s, changes_slots (cs_storage (undo_changes u)) slots !! (a, s)
            = match sto_hist x !! (a, s, n) with Some v => nonzero v | None => slots !! (a, s) end) as Hslots.
  { intros slots a s. cbn [undo_changes cs_storage]. change (fun kv => mkStorageChange _ _ _) with plain.
    rewrite lookup_changes_plain, btree_list_to_map by apply NoDup_btree_keys.
    destruct (Hu a s) as [Eu Hn]. rewrite <-Eu. destruct (undo_storage u !! a) as [l|]; cbn in *; [|done].
    by apply lookup_set_slots. }
  assert (forall a, changed_map (cs_accounts (undo_changes u)) !! a = to_info <$> acc_hist x !! (a, n)) as Hacc.
  { intros a. cbn [undo_changes cs_accounts]. rewrite Ua. by apply acc_undo_lookup. }
  pose proof (wf_same x x1 Hwf Hs) as Hwf1. destruct Hs as (Ea & Es & Ec & Eta & Ets).
  destruct (apply_changes_ok (undo_changes u) x1) as (x2 & -> & Hwf2 & Hap); [done| |].
  { split; [|].
    - cbn. rewrite Ua. apply Forall_forall. intros [a i] (k & _ & E)%list_elem_of_omap.
      destruct k as [b|b r]; cbn in E; [|done]. destruct (acc_hist x !! (b, n)) eqn:Eb; simplify_eq/=. eauto.
    - cbn. apply Forall_fmap, Forall_forall. intros [a l] Hal%elem_of_btree_entries. cbn.
      assert (default [] (undo_storage u !! a) = l) as El by by rewrite Hal.
      rewrite Us in El. cbn in El. subst l. destruct (Ui a) as [Hi _].
      destruct Hi as [[? []%lookup_empty_Some]|[r Hr]]; [by eauto|].
      apply elem_of_keys_of_block, Hk in Hr as [v Hr]. split; [by eapply Ht2|].
      apply Forall_forall. intros [r' v'] (k & _ & E)%list_elem_of_omap.
      destruct k as [b|b r'']; cbn in E; [done|]. case_decide; [subst b|done].
      destruct (sto_hist x !! (a, r'', n)) eqn:Er; simplify_eq/=. apply Ht2 in Er. naive_solver. }
  exists x2. split; [done|]. split; [done|]. destruct Hap as [A1 A2 A3 A4 A5 A6 (F1 & F2 & F3)].
  assert (infos_of x1 = infos_of x) as Ei by (unfold infos_of; by rewrite Ea). split.
  - intros a p Hp. apply A1. by rewrite Hacc, Hp.
  - intros a i Hp Hi. apply A2; [by rewrite Hacc, Hp|by rewrite Ei].
  - intros a Hp Hi Hno. apply A3; [by rewrite Hacc, Hp|by rewrite Ei|].
    intros (c & Hc & -> & _). cbn in Hc. change (map ?f ?l) with (f <$> l) in Hc.
    apply list_elem_of_fmap in Hc as ([a l] & -> & Hal%elem_of_btree_entries). cbn in Hno.
    destruct (Ui a) as [Hi' _]. destruct Hi' as [[? []%lookup_empty_Some]|[r Hr]]; [by eauto|].
    apply elem_of_keys_of_block, Hk in Hr as [v Hr]. congruence.
  - intros a s. rewrite A5, Hslots, Es, Hacc. apply decide_ext.
    destruct (acc_hist x !! (a, n)) as [[[[]]|]|]; cbn; naive_solver.
  - by rewrite A6, Ec.
  - destruct Hd as [D1 D2 D3]. split; intros; rewrite ?F1, ?F2, ?F3; eauto.
Qed.

(** ** Recording history *)

Definition acc_reverts (rv : PlainStateReverts) : list (Address * option AccountInfo) := concat (rv_accounts rv).

Definition slot_reverts (rv : PlainStateReverts) : list (Address * B256 * Z) :=
  concat (map (fun s => map (fun kv => (r_address s, kv.1, revert_value kv.2)) (storage_revert s))
            (concat (rv_storage rv))).

Lemma write_accounts_spec n (f : Address -> option AccountInfo) l t :
  (forall a p, (a, p) ∈ l -> p = f a) ->
  let t' := foldl (fun t kv => write_account_history n kv t) t l in
  same_state t t' /\ sto_hist t' = sto_hist t
  /\ (forall a m, acc_hist t' !! (a, m)
                  = if decide (m = n /\ a ∈ l.*1) then Some (hist_info <$> f a) else acc_hist t !! (a, m))
  /\ (forall m k, (m, k) ∈ hist_keys t' <-> (m, k) ∈ hist_keys t \/ m = n /\ exists a, a ∈ l.*1 /\ k = AccKey a).
Proof.
  revert t. induction l as [|[b q] l IH]; intros t Hl t'.
  - split; [done|]. split; [done|]. split; [|set_solver]. intros a m.
    rewrite decide_False; [done|]. set_solver.
  - unfold t'. cbn [foldl]. destruct (IH (write_account_history n (b, q) t)) as (Hs & Ho & Ha & Hk).
    { intros a p Hin. apply Hl. set_solver. }
    clear IH. split; [by eapply same_state_trans; [|exact Hs]|]. split; [done|]. split.
    + intros a m. rewrite Ha. cbn [write_account_history set_hist_keys set_acc_hist acc_hist fmap list_fmap fst].
      destruct (decide (m = n /\ a ∈ l.*1)) as [[-> Hin]|Hno]; [rewrite decide_True by set_solver; done|].
      destruct (decide ((b, n) = (a, m))) as [E|Hne].
      * injection E as -> ->. rewrite lookup_insert_eq, decide_True by set_solver.
        by rewrite (Hl a q) by set_solver.
      * rewrite lookup_insert_ne by done. rewrite decide_False; [done|].
        intros [-> [->|?]%elem_of_cons]; [by apply Hne|naive_solver].
    + intros m k. rewrite Hk. cbn [write_account_history set_hist_keys set_acc_hist hist_keys fmap list_fmap fst].
      rewrite elem_of_union, elem_of_singleton. setoid_rewrite elem_of_cons. naive_solver.
Qed.

Definition write_slot (n : Z) (t : StateTables) (e : Address * B256 * Z) : StateTables :=
  set_hist_keys ({[(n, StoKey e.1.1 e.1.2)]} ∪ hist_keys t)
    (set_sto_hist (<[(e.1.1, e.1.2, n) := e.2]> (sto_hist t)) t).

Lemma write_slots_flat n rvs t :
  foldl (fun t s => foldl (fun t kv => write_slot_history n (r_address s) kv t) t (storage_revert s)) t rvs
  = foldl (write_slot n) t
      (concat (map (fun s => map (fun kv => (r_address s, kv.1, revert_value kv.2)) (storage_revert s)) rvs)).
Proof.
  revert t. induction rvs as [|s rvs IH]; intros t; [done|]. cbn [foldl map concat].
  rewrite foldl_app, <-IH. f_equal. generalize (storage_revert s) as l. intros l. revert t.
  induction l as [|[slot r] l IHl]; intros t; [done|]. cbn [foldl map]. by rewrite IHl.
Qed.

Lemma write_slots_spec n (g : Address -> B256 -> Z) l t :
  (forall a s v, (a, s, v) ∈ l -> v = g a s) ->
  let t' := foldl (write_slot n) t l in
  same_state t t' /\ acc_hist t' = acc_hist t
  /\ (forall a s m, sto_hist t' !! (a, s, m)
                    = if decide (m = n /\ (a, s) ∈ l.*1) then Some (g a s) else sto_hist t !! (a, s, m))
  /\ (forall m k, (m, k) ∈ hist_keys t'
                  <-> (m, k) ∈ hist_keys t \/ m = n /\ exists a s, (a, s) ∈ l.*1 /\ k = StoKey a s).
Proof.
  revert t. induction l as [|[[b r] w] l IH]; intros t Hl t'.
  - split; [done|]. split; [done|]. split; [|set_solver]. intros a s m.
    rewrite decide_False; [done|]. set_solver.
  - unfold t'. cbn [foldl]. destruct (IH (write_slot n t (b, r, w))) as (Hs & Ho & Ha & Hk).
    { intros a s p Hin. apply Hl. set_solver. }
    clear IH. split; [by eapply same_state_trans; [|exact Hs]|]. split; [done|]. split.
    + intros a s m. rewrite Ha. cbn [write_slot set_hist_keys set_sto_hist sto_hist fmap list_fmap fst snd].
      destruct (decide (m = n /\ (a, s) ∈ l.*1)) as [[-> Hin]|Hno]; [rewrite decide_True by set_solver; done|].
      destruct (decide ((b, r, n) = (a, s, m))) as [E|Hne].
      * injection E as -> -> ->. rewrite lookup_insert_eq, decide_True by set_solver.
        by rewrite (Hl a s w) by set_solver.
      * rewrite lookup_insert_ne by done. rewrite decide_False; [done|].
        intros [-> [E|?]%elem_of_cons]; [injection E as -> ->; by apply Hne|naive_solver].
    + intros m k. rewrite Hk. cbn [write_slot set_hist_keys set_sto_hist hist_keys fmap list_fmap fst snd].
      rewrite elem_of_union, elem_of_singleton. setoid_rewrite elem_of_cons. naive_solver.
Qed.

(** The reverts of a block: prior values, of everything the block changed. *)
Record reverts_ok (t t' : StateTables) (rv : PlainStateReverts) : Prop := {
  ro_acc a p : (a, p) ∈ acc_reverts rv -> in_range 160 a /\ p = infos_of t !! a;
  ro_acc_all a : infos_of t !! a <> infos_of t' !! a -> a ∈ (acc_reverts rv).*1;
  ro_slot a s v : (a, s, v) ∈ slot_reverts rv ->
    in_range 160 a /\ in_range 256 s /\ v = default 0 (storage t !! (a, s));
  ro_slot_all a s : storage t !! (a, s) <> storage t' !! (a, s) -> (a, s) ∈ (slot_reverts rv).*1;
  ro_owner a s : (a, s) ∈ (slot_reverts rv).*1 -> is_Some (infos_of t !! a) \/ a ∈ (acc_reverts rv).*1;
}.

(** The history tables after block [n] is recorded. *)
Record recorded (n : Z) (rv : PlainStateReverts) (t t' : StateTables) : Prop := {
  rc_acc a m : acc_hist t' !! (a, m)
    = if decide (m = n /\ a ∈ (acc_reverts rv).*1) then Some (hist_info <$> infos_of t !! a)
      else acc_hist t !! (a, m);
  rc_sto a s m : sto_hist t' !! (a, s, m)
    = if decide (m = n /\ (a, s) ∈ (slot_reverts rv).*1) then Some (default 0 (storage t !! (a, s)))
      else sto_hist t !! (a, s, m);
  rc_keys m k : (m, k) ∈ hist_keys t' <->
    (m, k) ∈ hist_keys t
    \/ m = n /\ match k with AccKey a => a ∈ (acc_reverts rv).*1 | StoKey a s => (a, s) ∈ (slot_reverts rv).*1 end;
}.

Lemma write_history_ok n rv t t' :
  reverts_ok t t' rv -> same_state t (write_history n rv t) /\ recorded n rv t (write_history n rv t).
Proof.
  intros [R1 _ R2 _ _]. unfold write_history. rewrite write_slots_flat. fold (slot_reverts rv) (acc_reverts rv).
  destruct (write_accounts_spec n (fun a => infos_of t !! a) (acc_reverts rv) t) as (S1 & O1 & A1 & K1).
  { intros a p Hin. by apply R1. }
  set (t1 := foldl _ t _) in *.
  destruct (write_slots_spec n (fun a s => default 0 (storage t !! (a, s))) (slot_reverts rv) t1)
    as (S2 & O2 & A2 & K2).
  { intros a s v Hin. by apply R2. }
  split; [by eapply same_state_trans|]. split.
  - intros a m. by rewrite O2, A1.
  - intros a s m. by rewrite A2, O1.
  - intros m k. rewrite K2, K1. destruct k; naive_solver.
Qed.

(** ** Committing and undoing *)

(** The tables of a chain whose last block is [n]. *)
Record at_block (n : Z) (t : StateTables) : Prop := {
  b_wf : wf t;
  b_keyed : hist_keyed t;
  b_typed : hist_typed t;
  b_keys m k : (m, k) ∈ hist_keys t -> m <= n;
}.

Lemma apply_bundle_ok n c rv t :
  at_block (n - 1) t -> changes_typed c ->
  forall r t', apply_bundle n (c, rv) t = Ok (r, t') -> reverts_ok t t' rv ->
  at_block n t' /\ r = root_of (acc_content (accounts t')) /\ recorded n rv t t'
  /\ applied c (write_history n rv t) t'.
Proof.
  intros [Hwf Hk [Ht1 Ht2] Hm] Hc r t' E Hr. unfold apply_bundle in E. cbn [fst snd] in E.
  destruct (write_history_ok n rv t t' Hr) as [Hs Hrec].
  destruct (apply_changes_ok c (write_history n rv t)) as (t2 & E2 & Hwf2 & Hap); [by eapply wf_same|done|].
  rewrite E2 in E. injection E as <- <-.
  assert (recorded n rv t t2) as [A S Ks].
  { destruct (ap_frame _ _ _ Hap) as (F1 & F2 & F3). destruct Hrec as [A S Ks].
    split; intros; rewrite ?F1, ?F2, ?F3; auto. }
  split; [|done]. split.
  - done.
  - intros m k. rewrite Ks, (Hk m k). destruct k as [a|a s]; cbn.
    + rewrite A. case_decide; naive_solver.
    + rewrite S. case_decide; naive_solver.
  - split.
    + intros a m p. rewrite A. case_decide as Ed; [|by eauto].
      destruct Ed as [_ ([b q] & -> & Hin)%list_elem_of_fmap]. intros _. by eapply ro_acc.
    + intros a s m v. rewrite S. case_decide as Ed; [|by eauto].
      destruct Ed as [_ ([[b q] w] & E & Hin)%list_elem_of_fmap]. cbn in E. injection E as -> ->.
      intros Ev. injection Ev as <-. destruct (ro_slot _ _ _ Hr _ _ _ Hin) as (? & ? & _).
      split; [done|]. split; [done|]. destruct (storage t !! (b, q)) as [v|] eqn:Ev; cbn.
      * apply (t_slot t (wf_typed t Hwf)) in Ev. naive_solver.
      * unfold in_range. lia.
  - intros m k. rewrite Ks. intros [?%Hm|[-> _]]; lia.
Qed.

(** The flat infos and slots determine the tables. *)
Lemma flat_determines x t :
  wf x -> wf t -> infos_of x = infos_of t -> storage x = storage t ->
  accounts x = accounts t /\ trie_acc x = trie_acc t
  /\ (forall a, in_range 160 a -> storage_nodes x (hashed_address a) = storage_nodes t (hashed_address a)).
Proof.
  intros [_ _ R1 S1 A1] [_ _ R2 S2 A2] Ei Es.
  assert (accounts x = accounts t) as Ea.
  { apply map_eq. intros a. assert (infos_of x !! a = infos_of t !! a) as E by by rewrite Ei.
    unfold infos_of in E. rewrite !lookup_fmap in E.
    destruct (accounts x !! a) as [acc|] eqn:E1, (accounts t !! a) as [acc'|] eqn:E2; try done.
    cbn in E. f_equal. specialize (R1 _ _ E1). specialize (R2 _ _ E2). unfold root_ok in *.
    rewrite Es in R1. destruct acc, acc'. cbn in *. unfold info_of in E. cbn in E. simplify_eq. congruence. }
  split; [done|]. split; [by rewrite A1, A2, Ea|]. intros a Ha. by rewrite S1, S2, Es.
Qed.

Lemma nonzero_default m (t : StateTables) a s :
  wf t -> m = storage t !! (a, s) -> nonzero (default 0 m) = m.
Proof.
  intros Hwf ->. unfold nonzero. destruct (storage t !! (a, s)) as [v|] eqn:E; cbn; [|done].
  apply (t_slot t (wf_typed t Hwf)) in E as (_ & _ & _ & ?). by replace (v =? 0) with false by lia.
Qed.

(** Undoing a block just applied restores the tables before it. *)
Lemma unwind_restores n c rv t r t' :
  at_block (n - 1) t -> changes_typed c -> apply_bundle n (c, rv) t = Ok (r, t') -> reverts_ok t t' rv ->
  exists x, unwind_state n true t' = Ok (root_of (acc_content (accounts t)), x)
    /\ at_block (n - 1) x /\ infos_of x = infos_of t /\ storage x = storage t
    /\ accounts x = accounts t /\ trie_acc x = trie_acc t
    /\ (forall a, in_range 160 a -> storage_nodes x (hashed_address a) = storage_nodes t (hashed_address a))
    /\ acc_hist x = acc_hist t /\ sto_hist x = sto_hist t /\ hist_keys x = hist_keys t.
Proof.
  intros Ht Hc E Hr. destruct (apply_bundle_ok n c rv t Ht Hc r t' E Hr) as (Ht' & _ & Hrec & _).
  destruct Ht' as [Hwf' Hk' Hty' Hm']. destruct Hrec as [A S Ks].
  destruct (unwind_state_ok n t') as (x & Ex & Hwfx & Hu); [done..|].
  destruct Ht as [Hwf Hk Hty Hm].
  assert (forall k, (n, k) ∉ hist_keys t) as Hfresh by (intros k ?%Hm; lia).
  assert (forall a, acc_hist t !! (a, n) = None) as Ha0.
  { intros a. apply eq_None_not_Some. intros Hs. by apply (Hfresh (AccKey a)), Hk. }
  assert (forall a s, sto_hist t !! (a, s, n) = None) as Hs0.
  { intros a s. apply eq_None_not_Some. intros Hs. by apply (Hfresh (StoKey a s)), Hk. }
  destruct Hu as [U1 U2 U3 U4 U5 [D1 D2 D3]].
  assert (infos_of x = infos_of t) as Ei.
  { apply map_eq. intros a. destruct (decide (a ∈ (acc_reverts rv).*1)) as [Hin|Hno].
    - rewrite (U1 a (hist_info <$> infos_of t !! a)) by by rewrite A, decide_True.
      apply to_info_hist_info.
    - assert (acc_hist t' !! (a, n) = None) as Hn by (rewrite A, decide_False by naive_solver; apply Ha0).
      assert (infos_of t !! a = infos_of t' !! a) as Eq.
      { destruct (decide (infos_of t !! a = infos_of t' !! a)); [done|]. by apply (ro_acc_all _ _ _ Hr) in n0. }
      rewrite Eq. destruct (infos_of t' !! a) as [i|] eqn:Ei; [by apply U2|]. apply U3; [done|done|].
      intros s. rewrite S, decide_False; [apply Hs0|]. intros [_ Hs]. apply (ro_owner _ _ _ Hr) in Hs as [[? ?]|?];
        congruence. }
  assert (storage x = storage t) as Es.
  { apply map_eq. intros [a s]. rewrite U4. case_decide as Ed.
    - rewrite A in Ed. case_decide as Ein; [|by rewrite Ha0 in Ed]. injection Ed as Ed.
      destruct (infos_of t !! a) eqn:Ea; [done|]. symmetry. apply eq_None_not_Some. intros [v Hv].
      apply (wf_owner t Hwf) in Hv as [acc Hacc]. unfold infos_of in Ea. by rewrite lookup_fmap, Hacc in Ea.
    - rewrite S. case_decide as Ein; [by apply (nonzero_default _ t a s)|]. rewrite Hs0.
      destruct (decide (storage t !! (a, s) = storage t' !! (a, s))) as [|Hne]; [done|].
      apply (ro_slot_all _ _ _ Hr) in Hne. naive_solver. }
  destruct (flat_determines x t) as (Ea & Eta & Ets); [done..|].
  assert (forall k, k ∈ keys_of_block n t'
                    <-> match k with AccKey a => a ∈ (acc_reverts rv).*1
                                   | StoKey a s => (a, s) ∈ (slot_reverts rv).*1 end) as Hkeys.
  { intros k. rewrite elem_of_keys_of_block, Ks. naive_solver. }
  assert (acc_hist x = acc_hist t) as Eah.
  { apply map_eq. intros [a m]. rewrite D1, A. destruct (decide (m = n)) as [->|Hne].
    - rewrite Ha0. case_decide as Ed; [done|]. rewrite decide_False; [done|].
      intros [_ Hin]. by apply Ed; split; [|apply Hkeys].
    - by rewrite !decide_False by naive_solver. }
  assert (sto_hist x = sto_hist t) as Esh.
  { apply map_eq. intros [[a s] m]. rewrite D2, S. destruct (decide (m = n)) as [->|Hne].
    - rewrite Hs0. case_decide as Ed; [done|]. rewrite decide_False; [done|].
      intros [_ Hin]. by apply Ed; split; [|apply Hkeys].
    - by rewrite !decide_False by naive_solver. }
  assert (hist_keys x = hist_keys t) as Ehk.
  { apply set_eq. intros [m k]. rewrite D3, Ks. split.
    - intros [[?|[-> Hk1]] Hk2]; [done|]. destruct Hk2. split; [done|]. by apply Hkeys.
    - intros Hin. split; [by left|]. intros [-> _]. by apply Hfresh in Hin. }
  exists x. split; [by rewrite Ex, Ea|]. split; [|done]. split; [done| | |].
  - intros m k. rewrite Ehk, (Hk m k). unfold has_entry. by rewrite Eah, Esh.
  - unfold hist_typed. by rewrite Eah, Esh.
  - intros m k. rewrite Ehk. apply Hm.
Qed.

(** ** Pruning *)

Lemma unless_Some {A} (C : Prop) `{Decision C} (o : option A) v :
  (if decide C then None else o) = Some v -> o = Some v.
Proof. by case_decide. Qed.

Lemma is_Some_unless {A} (C : Prop) `{Decision C} (o : option A) :
  is_Some o /\ ~ C <-> is_Some (if decide C then None else o).
Proof.
  case_decide as E; split.
  - by intros [_ []].
  - by intros [].
  - by intros [? _].
  - by intros.
Qed.


Lemma drop_hist_keys_ok ks t :
  let t' := foldl (fun t k => drop_hist_key k t) t ks in
  same_state t t'
  /\ (forall a m, acc_hist t' !! (a, m) = if decide ((m, AccKey a) ∈ ks) then None else acc_hist t !! (a, m))
  /\ (forall a s m, sto_hist t' !! (a, s, m) = if decide ((m, StoKey a s) ∈ ks) then None else sto_hist t !! (a, s, m))
  /\ (forall k, k ∈ hist_keys t' <-> k ∈ hist_keys t /\ k ∉ ks).
Proof.
  revert t. induction ks as [|[n k] ks IH]; intros t t'.
  - split; [done|]. split; [|split]; intros; try (rewrite decide_False; [done|]); set_solver.
  - unfold t'. cbn [foldl]. destruct (IH (drop_hist_key (n, k) t)) as (Hs & Ha & Hst & Hk). clear IH.
    split; [eapply same_state_trans; [|exact Hs]; by destruct k|]. split; [|split].
    + intros a m. rewrite Ha. case_decide; [by rewrite decide_True by set_solver|].
      destruct k as [b|b r]; cbn.
      * destruct (decide ((b, n) = (a, m))) as [E|Hne].
        -- injection E as -> ->. by rewrite lookup_delete_eq, decide_True by set_solver.
        -- rewrite lookup_delete_ne by done. by rewrite decide_False by set_solver.
      * by rewrite decide_False by set_solver.
    + intros a s m. rewrite Hst. case_decide; [by rewrite decide_True by set_solver|].
      destruct k as [b|b r]; cbn.
      * by rewrite decide_False by set_solver.
      * destruct (decide ((b, r, n) = (a, s, m))) as [E|Hne].
        -- injection E as -> -> ->. by rewrite lookup_delete_eq, decide_True by set_solver.
        -- rewrite lookup_delete_ne by done. by rewrite decide_False by set_solver.
    + intros j. rewrite Hk. destruct k; cbn; set_solver.
Qed.

(** Pruning at [head] forgets the blocks up to [head - HISTORY_BLOCKS] and nothing else. *)
Lemma prune_history_ok head t :
  hist_keyed t -> 0 <= head ->
  let t' := (prune_history head t).2 in
  same_state t t'
  /\ (forall a m, acc_hist t' !! (a, m) = if decide (HISTORY_BLOCKS <= head /\ m <= head - HISTORY_BLOCKS) then None else acc_hist t !! (a, m))
  /\ (forall a s m, sto_hist t' !! (a, s, m) = if decide (HISTORY_BLOCKS <= head /\ m <= head - HISTORY_BLOCKS) then None else sto_hist t !! (a, s, m))
  /\ (forall m k, (m, k) ∈ hist_keys t' <-> (m, k) ∈ hist_keys t /\ ~ (HISTORY_BLOCKS <= head /\ m <= head - HISTORY_BLOCKS)).
Proof.
  intros Hk Hh. unfold prune_history. destruct (head <? HISTORY_BLOCKS) eqn:Eh.
  - cbn. split; [done|]. split; [|split]; intros; try (rewrite decide_False; [done|lia]).
    split; [|naive_solver]. intros ?. split; [done|lia].
  - cbn [snd]. set (doomed := filter _ _).
    assert (forall m k, (m, k) ∈ doomed <-> (m, k) ∈ hist_keys t /\ HISTORY_BLOCKS <= head /\ m <= head - HISTORY_BLOCKS) as Hd.
    { intros m k. unfold doomed. rewrite list_elem_of_filter, elem_of_elements. cbn. split; [|naive_solver].
      intros [? ?]. split; [done|]. lia. }
    destruct (drop_hist_keys_ok doomed t) as (Hs & Ha & Hst & Hks). split; [done|]. split; [|split].
    + intros a m. rewrite Ha. case_decide as Hx; case_decide as Hy; try done.
      * by apply Hd in Hx as [_ ?].
      * apply eq_None_not_Some. intros Hsome. apply Hx. apply Hd. split; [by apply Hk|done].
    + intros a s m. rewrite Hst. case_decide as Hx; case_decide as Hy; try done.
      * by apply Hd in Hx as [_ ?].
      * apply eq_None_not_Some. intros Hsome. apply Hx. apply Hd. split; [by apply Hk|done].
    + intros m k. rewrite Hks, Hd. naive_solver.
Qed.

(** ** Runs of a chain *)

(** A flat state: account infos and non-zero slots. *)
Definition Flat : Type := gmap Address AccountInfo * gmap (Address * B256) Z.

Definition flat (t : StateTables) : Flat := (infos_of t, storage t).

(** [run base t head top past]: from tables at block [base] without history, blocks were committed
    and undone; [head] is the last block, [top] the highest there ever was, and [past n] the state
    block [n] of the current chain left. *)
Inductive run (base : Z) : StateTables -> Z -> Z -> (Z -> Flat) -> Prop :=
  | run_base t past :
      0 <= base -> at_block base t -> hist_keys t = ∅ -> past base = flat t -> run base t base base past
  | run_commit t head top past c rv root t' :
      run base t head top past -> changes_typed c ->
      apply_bundle (head + 1) (c, rv) t = Ok (root, t') -> reverts_ok t t' rv ->
      run base (prune_history (head + 1) t').2 (head + 1) (Z.max top (head + 1))
        (fun n => if n =? head + 1 then flat t' else past n)
  | run_undo t head top past root t' :
      run base t head top past -> base < head -> top - HISTORY_BLOCKS < head ->
      unwind_state head (history_covers head base head) t = Ok (root, t') ->
      run base t' (head - 1) top past.

(** The oldest block whose state can be read back. *)
Definition lowest_kept (base top : Z) : Z := Z.max base (top - HISTORY_BLOCKS).

(** Owned slots, without zeros. *)
Definition flat_ok (f : Flat) : Prop :=
  (forall a s v, f.2 !! (a, s) = Some v -> is_Some (f.1 !! a) /\ v <> 0).

Lemma flat_ok_wf t : wf t -> flat_ok (flat t).
Proof.
  intros Hwf a s v Hv. cbn in *. split.
  - apply (wf_owner t Hwf) in Hv as [acc Hacc]. unfold infos_of. rewrite lookup_fmap, Hacc. by eexists.
  - apply (t_slot t (wf_typed t Hwf)) in Hv. naive_solver.
Qed.

(** Block [m] is recorded: an entry holds the value before it, and no entry means no change. *)
Record entries_ok (t : StateTables) (m : Z) (before after : Flat) : Prop := {
  e_acc a p : acc_hist t !! (a, m) = Some p -> to_info p = before.1 !! a;
  e_acc_none a : acc_hist t !! (a, m) = None -> before.1 !! a = after.1 !! a;
  e_sto a s v : sto_hist t !! (a, s, m) = Some v -> v = default 0 (before.2 !! (a, s));
  e_sto_none a s : sto_hist t !! (a, s, m) = None -> before.2 !! (a, s) = after.2 !! (a, s);
  e_owner a s : is_Some (sto_hist t !! (a, s, m)) -> acc_hist t !! (a, m) = None -> is_Some (before.1 !! a);
}.

Lemma entries_ok_same t t' m before after :
  (forall a, acc_hist t' !! (a, m) = acc_hist t !! (a, m)) ->
  (forall a s, sto_hist t' !! (a, s, m) = sto_hist t !! (a, s, m)) ->
  entries_ok t m before after -> entries_ok t' m before after.
Proof.
  intros Ea Es [E1 E2 E3 E4 E5].
  split; intros; repeat (rewrite Ea in * || rewrite Es in *); eauto.
Qed.

Record history_ok (base : Z) (t : StateTables) (head top : Z) (past : Z -> Flat) : Prop := {
  h_range : 0 <= base <= head /\ head <= top /\ lowest_kept base top <= head;
  h_block : at_block head t;
  h_above m k : (m, k) ∈ hist_keys t -> lowest_kept base top < m;
  h_now : past head = flat t;
  h_flat n : lowest_kept base top <= n <= head -> flat_ok (past n);
  h_entries m : lowest_kept base top < m <= head -> entries_ok t m (past (m - 1)) (past m);
}.

Lemma recorded_entries n rv t t' :
  reverts_ok t t' rv -> recorded n rv t t' ->
  (forall a, acc_hist t !! (a, n) = None) -> (forall a s, sto_hist t !! (a, s, n) = None) ->
  entries_ok t' n (flat t) (flat t').
Proof.
  intros [R1 R2 R3 R4 R5] [A S _] Ha0 Hs0. split; cbn.
  - intros a p. rewrite A. case_decide; [|by rewrite Ha0]. intros [= <-]. apply to_info_hist_info.
  - intros a. rewrite A. case_decide as Ed; [done|]. intros _.
    destruct (decide (infos_of t !! a = infos_of t' !! a)) as [|Hne]; [done|]. apply R2 in Hne. naive_solver.
  - intros a s v. rewrite S. case_decide; [|by rewrite Hs0]. by intros [= <-].
  - intros a s. rewrite S. case_decide as Ed; [done|]. intros _.
    destruct (decide (storage t !! (a, s) = storage t' !! (a, s))) as [|Hne]; [done|]. apply R4 in Hne. naive_solver.
  - intros a s. rewrite S. case_decide as Ed; [|rewrite Hs0; by intros []]. intros _. rewrite A.
    case_decide as Ed'; [done|]. intros _. destruct (R5 a s) as [?|?]; naive_solver.
Qed.

Lemma fresh_entries n t :
  at_block (n - 1) t -> (forall a, acc_hist t !! (a, n) = None) /\ (forall a s, sto_hist t !! (a, s, n) = None).
Proof.
  intros [_ Hk _ Hm]. split; intros; apply eq_None_not_Some; intros Hs.
  - assert ((n, AccKey a) ∈ hist_keys t) as ?%Hm by by apply Hk. lia.
  - assert ((n, StoKey a s) ∈ hist_keys t) as ?%Hm by by apply Hk. lia.
Qed.

Lemma run_commit_ok base t head top past c rv root t' :
  history_ok base t head top past -> changes_typed c ->
  apply_bundle (head + 1) (c, rv) t = Ok (root, t') -> reverts_ok t t' rv ->
  history_ok base (prune_history (head + 1) t').2 (head + 1) (Z.max top (head + 1))
    (fun n => if n =? head + 1 then flat t' else past n).
Proof.
  intros [Hrg Hb Habove Hnow Hflat Hent] Hc E Hr.
  assert (at_block (head + 1 - 1) t) as Hb' by by replace (head + 1 - 1) with head by lia.
  destruct (apply_bundle_ok (head + 1) c rv t Hb' Hc root t' E Hr) as (Ht' & _ & Hrec & _).
  destruct (fresh_entries _ _ Hb') as [Ha0 Hs0].
  pose proof (recorded_entries _ _ _ _ Hr Hrec Ha0 Hs0) as Hnew.
  destruct Ht' as [Hwf' Hk' Hty' Hm']. destruct Hrec as [A S Ks].
  destruct (prune_history_ok (head + 1) t' Hk') as (Hs & Pa & Ps & Pk); [lia|].
  set (t2 := (prune_history (head + 1) t').2) in *.
  assert (lowest_kept base top <= lowest_kept base (Z.max top (head + 1))) as Hlow by (unfold lowest_kept; lia).
  assert (forall m, lowest_kept base (Z.max top (head + 1)) < m ->
            (forall a, acc_hist t2 !! (a, m) = acc_hist t' !! (a, m))
            /\ (forall a s, sto_hist t2 !! (a, s, m) = sto_hist t' !! (a, s, m))) as Hkeep.
  { intros m Hm. unfold lowest_kept in Hm. split; intros; rewrite ?Pa, ?Ps; rewrite decide_False; [done|lia|done|lia]. }
  assert (flat t2 = flat t') as Ef by (destruct Hs as (Ea & Es & _); unfold flat, infos_of; by rewrite Ea, Es).
  split.
  - unfold lowest_kept, HISTORY_BLOCKS in *. lia.
  - split; [by eapply wf_same| | |].
    + intros m k. rewrite Pk, (Hk' m k).
      destruct k as [a|a s]; cbn; [rewrite Pa|rewrite Ps]; apply is_Some_unless.
    + destruct Hty' as [H1 H2]. split; intros *; [rewrite Pa|rewrite Ps]; intros Hv%unless_Some; eauto.
    + intros m k. rewrite Pk. naive_solver.
  - intros m k. rewrite Pk, Ks. unfold lowest_kept in *. intros [[Hin|[-> _]] Hnot].
    + apply Habove in Hin. lia.
    + unfold HISTORY_BLOCKS in *. lia.
  - rewrite Z.eqb_refl. by rewrite Ef.
  - intros n Hn. case_match eqn:En; [by apply flat_ok_wf|]. apply Hflat. lia.
  - intros m Hm. destruct (Hkeep m) as [Ka Kst]; [lia|].
    apply (entries_ok_same t'); [done|done|]. destruct (decide (m = head + 1)) as [->|Hne].
    + rewrite Z.eqb_refl. replace (head + 1 - 1 =? head + 1) with false by lia.
      replace (head + 1 - 1) with head by lia. by rewrite Hnow.
    + replace (m =? head + 1) with false by lia. replace (m - 1 =? head + 1) with false by lia.
      apply (entries_ok_same t); [| |apply Hent; lia].
      * intros a. rewrite A, decide_False by lia. done.
      * intros a s. rewrite S, decide_False by lia. done.
Qed.

(** Undoing block [m] gives back the state before it. *)
Lemma undone_flat t x m before :
  undone m t x -> wf t -> wf x -> entries_ok t m before (flat t) -> flat_ok before -> flat x = before.
Proof.
  intros [U1 U2 U3 U4 U5 _] Hwf Hwfx [E1 E2 E3 E4 E5] Hok. destruct before as [bi bs]. unfold flat. cbn in *.
  assert (infos_of x = bi) as Ei.
  { apply map_eq. intros a. destruct (acc_hist t !! (a, m)) as [p|] eqn:Ea.
    - rewrite (U1 a p Ea). by apply E1.
    - rewrite (E2 a Ea). destruct (infos_of t !! a) as [i|] eqn:Ei; [by apply U2|]. apply U3; [done|done|].
      intros s. apply eq_None_not_Some. intros Hs. destruct (E5 a s Hs Ea) as [i Hi].
      rewrite (E2 a Ea) in Hi. congruence. }
  f_equal; [done|]. apply map_eq. intros [a s]. rewrite U4. case_decide as Ed.
  - symmetry. apply eq_None_not_Some. intros [v Hv]. destruct (Hok a s v Hv) as [[i Hi] _]. cbn in Hi.
    apply E1 in Ed. cbn in Ed. congruence.
  - destruct (sto_hist t !! (a, s, m)) as [v|] eqn:Es; [|symmetry; by apply E4].
    rewrite (E3 a s v Es). unfold nonzero. destruct (bs !! (a, s)) as [w|] eqn:Ew; cbn; [|done].
    destruct (Hok a s w Ew) as [_ Hw]. by replace (w =? 0) with false by lia.
Qed.

Lemma run_undo_ok base t head top past root t' :
  history_ok base t head top past -> base < head -> top - HISTORY_BLOCKS < head ->
  unwind_state head (history_covers head base head) t = Ok (root, t') ->
  history_ok base t' (head - 1) top past.
Proof.
  intros [Hrg Hb Habove Hnow Hflat Hent] Hbase Htop E. destruct Hb as [Hwf Hk Hty Hm].
  assert (history_covers head base head = true) as Hcov.
  { unfold history_covers, HISTORY_BLOCKS. rewrite !andb_true_iff, !Z.leb_le. lia. }
  rewrite Hcov in E. destruct (unwind_state_ok head t) as (x & E' & Hwfx & Hu); [done..|].
  rewrite E' in E. injection E as _ <-.
  assert (lowest_kept base top < head) as Hlow by (unfold lowest_kept; lia).
  assert (flat x = past (head - 1)) as Ef.
  { eapply undone_flat; [done|done|done| |apply Hflat; lia]. rewrite <-Hnow. apply Hent. lia. }
  destruct Hu as [_ _ _ _ _ [D1 D2 D3]].
  assert (forall k, k ∈ keys_of_block head t <-> (head, k) ∈ hist_keys t) as Hkeys by apply elem_of_keys_of_block.
  split.
  - lia.
  - split; [done| | |].
    + intros m k. rewrite D3, (Hk m k).
      destruct k as [a|a s]; cbn; [rewrite D1|rewrite D2]; apply is_Some_unless.
    + destruct Hty as [H1 H2]. split; intros *; [rewrite D1|rewrite D2]; intros Hv%unless_Some; eauto.
    + intros m k. rewrite D3, Hkeys. intros [Hin Hnot]. pose proof (Hm _ _ Hin).
      assert (m <> head) by naive_solver. lia.
  - intros m k. rewrite D3. intros [? _]. by eapply Habove.
  - done.
  - intros n Hn. apply Hflat. lia.
  - intros m Hmm. apply (entries_ok_same t); [| |apply Hent; lia].
    + intros a. rewrite D1, decide_False by lia. done.
    + intros a s. rewrite D2, decide_False by lia. done.
Qed.

Lemma run_history base t head top past : run base t head top past -> history_ok base t head top past.
Proof.
  induction 1 as [t past H0 Hb Hk Hp|t head top past c rv root t' _ IH Hc E Hr|t head top past root t' _ IH Hb Ht E].
  - assert (lowest_kept base base = base) as El by (unfold lowest_kept, HISTORY_BLOCKS; lia).
    split; rewrite ?El; try done; try lia.
    + intros m k. rewrite Hk. set_solver.
    + intros n Hn. replace n with base by lia. rewrite Hp. apply flat_ok_wf, Hb.
  - by eapply run_commit_ok.
  - by eapply run_undo_ok.
Qed.

(** Without entries between two blocks, an account and a slot keep their value. *)
Lemma past_unchanged base t head top past a s n j :
  history_ok base t head top past -> lowest_kept base top <= n <= j -> j <= head ->
  ((forall m, n < m <= j -> acc_hist t !! (a, m) = None) -> (past n).1 !! a = (past j).1 !! a)
  /\ ((forall m, n < m <= j -> sto_hist t !! (a, s, m) = None) -> (past n).2 !! (a, s) = (past j).2 !! (a, s)).
Proof.
  intros Hh [Hn Hnj] Hj. assert (exists k : nat, j = n + Z.of_nat k) as [k ->] by (exists (Z.to_nat (j - n)); lia).
  clear Hnj. induction k as [|k IH].
  - replace (n + Z.of_nat 0) with n by lia. done.
  - destruct IH as [IHa IHs]; [lia|]. replace (n + Z.of_nat (S k)) with (n + Z.of_nat k + 1) in * by lia.
    destruct (h_entries _ _ _ _ _ Hh (n + Z.of_nat k + 1)) as [_ E2 _ E4 _]; [lia|].
    replace (n + Z.of_nat k + 1 - 1) with (n + Z.of_nat k) in * by lia. split; intros Hno.
    + rewrite IHa by (intros m Hm; apply Hno; lia). apply E2, Hno. lia.
    + rewrite IHs by (intros m Hm; apply Hno; lia). apply E4, Hno. lia.
Qed.

Lemma account_view base t head top past a n :
  history_ok base t head top past -> lowest_kept base top <= n <= head -> head < U64_MAX ->
  exists o, account_at true a n t = Some o /\ info_of <$> o = (past n).1 !! a.
Proof.
  intros Hh Hn HU. pose proof (h_range _ _ _ _ _ Hh) as Hrg. unfold lowest_kept in Hrg, Hn.
  unfold account_at. cbn [negb]. rewrite wrap_u64_succ by lia.
  assert (forall j, head < j -> acc_hist t !! (a, j) = None) as Habove.
  { intros j Hj. apply eq_None_not_Some. intros Hs.
    apply (b_keyed _ _ (h_block _ _ _ _ _ Hh) j (AccKey a)), (b_keys _ _ (h_block _ _ _ _ _ Hh)) in Hs. lia. }
  assert ((forall m, n + 1 <= m -> acc_hist t !! (a, m) = None) ->
          info_of <$> accounts t !! a = (past n).1 !! a) as Hnow.
  { intros Hno. destruct (past_unchanged base t head top past a 0 n head Hh) as [Hpu _];
      [unfold lowest_kept; lia|lia|]. rewrite Hpu by (intros m Hm; apply Hno; lia).
    rewrite (h_now _ _ _ _ _ Hh). cbn. unfold infos_of. by rewrite lookup_fmap. }
  pose proof (set_range_acc (acc_hist t) a (n + 1)) as Hr.
  destruct (set_range acc_key_le (a, n + 1) (acc_hist t)) as [[[b j] p]|]; cbn in *.
  - destruct Hr as [H1 H2]. destruct (b =? a) eqn:Eb.
    + destruct H1 as (Hp & Hj & Hno); [lia|]. eexists. split; [reflexivity|].
      assert (j <= head) by (destruct (decide (j <= head)); [done|]; rewrite Habove in Hp by lia; done).
      destruct (past_unchanged base t head top past a 0 n (j - 1) Hh) as [Hpu _];
      [unfold lowest_kept; lia|lia|]. rewrite Hpu by (intros m Hm; apply Hno; lia).
      destruct (h_entries _ _ _ _ _ Hh j) as [E1 _ _ _ _]; [unfold lowest_kept; lia|].
      rewrite <-(E1 a p Hp). by destruct p as [[[]]|].
    + eexists. split; [reflexivity|]. apply Hnow, H2. lia.
  - eexists. split; [reflexivity|]. by apply Hnow.
Qed.

Lemma storage_view base t head top past a s n :
  history_ok base t head top past -> lowest_kept base top <= n <= head -> head < U64_MAX ->
  storage_at true a s n t = Some (default 0 ((past n).2 !! (a, s))).
Proof.
  intros Hh Hn HU. pose proof (h_range _ _ _ _ _ Hh) as Hrg. unfold lowest_kept in Hrg, Hn.
  unfold storage_at. cbn [negb]. rewrite wrap_u64_succ by lia.
  assert (forall j, head < j -> sto_hist t !! (a, s, j) = None) as Habove.
  { intros j Hj. apply eq_None_not_Some. intros Hs.
    apply (b_keyed _ _ (h_block _ _ _ _ _ Hh) j (StoKey a s)), (b_keys _ _ (h_block _ _ _ _ _ Hh)) in Hs. lia. }
  assert ((forall m, n + 1 <= m -> sto_hist t !! (a, s, m) = None) ->
          storage t !! (a, s) = (past n).2 !! (a, s)) as Hnow.
  { intros Hno. destruct (past_unchanged base t head top past a s n head Hh) as [_ Hpu];
      [unfold lowest_kept; lia|lia|]. rewrite Hpu by (intros m Hm; apply Hno; lia).
    by rewrite (h_now _ _ _ _ _ Hh). }
  pose proof (set_range_sto (sto_hist t) a s (n + 1)) as Hr.
  destruct (set_range sto_key_le (a, s, n + 1) (sto_hist t)) as [[[b j] v]|]; cbn in *.
  - destruct Hr as [H1 H2]. case_bool_decide as Eb.
    + destruct (H1 Eb) as (Hp & Hj & Hno).
      assert (j <= head) by (destruct (decide (j <= head)); [done|]; rewrite Habove in Hp by lia; done).
      destruct (past_unchanged base t head top past a s n (j - 1) Hh) as [_ Hpu];
      [unfold lowest_kept; lia|lia|]. rewrite Hpu by (intros m Hm; apply Hno; lia).
      destruct (h_entries _ _ _ _ _ Hh j) as [_ _ E3 _ _]; [unfold lowest_kept; lia|].
      by rewrite (E3 a s v Hp).
    + by rewrite Hnow by by apply H2.
  - by rewrite Hnow.
Qed.
End history.
