(* ===== verification/StoreProps.v ===== *)
(** * Properties of the state database

    The theorems of the state tables: the incremental state root is the one recomputed from the flat
    tables, undoing a block inverts applying it, and the view of a past block is the state that
    block left.  The last section applies them to concrete instances of the libraries and shows
    what happens to the view of a pruned block. *)

From S2P Require Import Prelude Types TxPool Ipld TrieIface Trie TrieCodec TrieProps TrieProofs Store StoreFacts StoreHistory.
From stdpp Require Import base list list_numbers sorting gmap fin_maps strings.
From Stdlib Require Import ZArith Lia.

Open Scope Z_scope.

(** C27.  Applying a changeset to well-formed tables succeeds; the root it returns, updated
    incrementally, is the root recomputed from the flat tables alone; the tables stay well formed
    (every storage root and stored trie node matches the flat tables), and the flat tables change
    exactly as the changeset says. *)
Theorem incremental_root_matches `{K : Keccak} `{!KeccakLaws K} `{!KeccakInj K} `{R : StateRlp}
  `{!StateRlpLaws R} `{T : TrieOps} `{TL : !TrieLaws T} `{A : AlloyRoot} `{!AlloyRootLaws A}
  (changes : StateChangeset) (t : StateTables) (Hwf : wf t) (Hc : changes_typed changes) :
  exists t', apply_changes changes t = Ok (full_state_root t', t') /\ wf t' /\ applied changes t t'.
Proof.
  destruct (apply_changes_ok changes t Hwf Hc) as (t' & E & Hwf' & Hap).
  exists t'. by rewrite full_state_root_ok.
Qed.

(** C29.  Undoing the block just applied gives back every table before it: accounts with their
    storage roots, slots, trie nodes and history, and returns the state root before the block. *)
Theorem unwind_inverts_apply `{K : Keccak} `{!KeccakLaws K} `{!KeccakInj K} `{R : StateRlp}
  `{!StateRlpLaws R} `{T : TrieOps} `{TL : !TrieLaws T} `{A : AlloyRoot} `{!AlloyRootLaws A}
  (n : Z) (changes : StateChangeset) (reverts : PlainStateReverts) (t t' : StateTables) (root : B256)
  (Ht : at_block (n - 1) t) (Hc : changes_typed changes)
  (E : apply_bundle n (changes, reverts) t = Ok (root, t')) (Hr : reverts_ok t t' reverts) :
  exists x, unwind_state n true t' = Ok (full_state_root t, x)
    /\ accounts x = accounts t /\ storage x = storage t /\ trie_acc x = trie_acc t
    /\ (forall a, in_range 160 a -> storage_nodes x (hashed_address a) = storage_nodes t (hashed_address a))
    /\ acc_hist x = acc_hist t /\ sto_hist x = sto_hist t /\ hist_keys x = hist_keys t.
Proof.
  destruct (unwind_restores n changes reverts t root t' Ht Hc E Hr)
    as (x & Ex & _ & _ & Es & Ea & Eta & Ets & Eah & Esh & Ehk).
  exists x. rewrite full_state_root_ok by apply Ht. repeat (split; [done|]). done.
Qed.

(** C30.  However blocks were committed and undone, the view of block [n] that the database serves
    is the state block [n] of the current chain left, for every account and slot, as long as
    [history_covers] accepts [n] and [n] is within [HISTORY_BLOCKS] of the highest block [top] that
    was ever applied.  The last condition is not implied once blocks were unwound: [history_covers]
    looks at the current head only ([pruned_view_wrong]). *)
Theorem past_state_view `{K : Keccak} `{!KeccakLaws K} `{!KeccakInj K} `{R : StateRlp}
  `{!StateRlpLaws R} `{T : TrieOps} `{TL : !TrieLaws T}
  (base head top n : Z) (t : StateTables) (past : Z -> Flat) (addr : Address) (slot : B256)
  (Hrun : run base t head top past) (Hcov : history_covers head base n = true)
  (Htop : top - HISTORY_BLOCKS <= n) (HU : head < U64_MAX) :
  basic_ref (history_covers head base n) (Some n) addr t = Ok ((past n).1 !! addr)
  /\ storage_ref (history_covers head base n) (Some n) addr slot t = Ok (default 0 ((past n).2 !! (addr, slot))).
Proof.
  pose proof (run_history _ _ _ _ _ Hrun) as Hh.
  assert (lowest_kept base top <= n <= head) as Hn.
  { unfold history_covers in Hcov. rewrite !andb_true_iff, !Z.leb_le in Hcov. unfold lowest_kept. lia. }
  rewrite Hcov. unfold basic_ref, storage_ref.
  destruct (account_view base t head top past addr n Hh Hn HU) as (o & -> & <-).
  by rewrite (storage_view base t head top past addr slot n Hh Hn HU).
Qed.

(** ** Witnesses *)

Module StoreWitness.
#[export] Instance toy_keccak : Keccak := fun b => be_val b mod 2 ^ 256.

#[export] Instance toy_keccak_laws : KeccakLaws toy_keccak.
Proof. intros b. apply Z.mod_pos_bound. lia. Qed.

#[export] Instance toy_keccak_inj : KeccakInj toy_keccak.
Proof.
  intros b b' El Hl Hb Hb' E. unfold keccak256, toy_keccak in E.
  pose proof (be_val_range b Hb) as R1. pose proof (be_val_range b' Hb') as R2. rewrite <-El in R2.
  unfold in_range in *.
  assert (2 ^ (8 * Z.of_nat (length b)) <= 2 ^ 256) by (apply Z.pow_le_mono_r; lia).
  rewrite !Z.mod_small in E by lia.
  rewrite <-(be_bytes_val b Hb), <-(be_bytes_val b' Hb'). by rewrite El, E.
Qed.

#[export] Instance toy_rlp : StateRlp := {|
  rlp_u256 v := 1 :: be_bytes 32 v;
  rlp_trie_account a := 2 :: Account_encode a;
|}.

#[export] Instance toy_rlp_laws : StateRlpLaws toy_rlp.
Proof. by split. Qed.

(** The trie of this development, over the item codec of its witnesses. *)
#[export] Instance node_rlp : NodeRlp := TrieWitness.toy_node_rlp.
#[export] Instance node_rlp_laws : NodeRlpLaws node_rlp := TrieWitness.toy_node_rlp_laws.
#[export] Instance trie_ops : TrieOps := real_trie.
#[export] Instance trie_laws : TrieLaws trie_ops := real_trie_laws.

#[export] Instance toy_alloy : AlloyRoot := {|
  storage_root_unhashed l := root_of_content
    (list_to_map (map (fun kv => (hashed_slot kv.1, rlp_u256 kv.2)) l));
  state_root_unhashed l := root_of_content
    (list_to_map (map (fun kv => (hashed_address kv.1, trie_value kv.2)) l));
|}.

#[export] Instance toy_alloy_laws : AlloyRootLaws toy_alloy.
Proof. by split. Qed.

(** The chain in which block [n] sets the nonce of account 1 to [n]. *)
Definition block_changes (n : Z) : StateChangeset := mkChangeset [(1, Some (mkInfo 7 n KECCAK_EMPTY))] [] [].
Definition block_reverts (prior : option AccountInfo) : PlainStateReverts := mkReverts [[(1, prior)]] [].
Definition genesis : StateTables := StateTables_empty.

Lemma genesis_at_block : at_block 0 genesis.
Proof.
  split; [split; [split|..]|..]; try done.
  intros n k. destruct k; cbn; (split; [set_solver|intros [? ?%lookup_empty_Some]; done]).
Qed.

Definition storage_changes : StateChangeset :=
  mkChangeset [(1, Some (mkInfo 7 1 KECCAK_EMPTY))] [mkStorageChange 1 false [(5, 9); (6, 0)]; mkStorageChange 2 true []] [].

Lemma incremental_root_matches_witness :
  exists t', apply_changes storage_changes genesis = Ok (full_state_root t', t') /\ storage t' !! (1, 5) = Some 9.
Proof.
  destruct (incremental_root_matches storage_changes genesis) as (t' & E & _ & Hap).
  - exact (b_wf _ _ genesis_at_block).
  - split; repeat constructor; (reflexivity || discriminate).
  - exists t'. split; [exact E|]. rewrite (ap_slots _ _ _ Hap). reflexivity.
Defined.

(** The tables after block [n] with the given prior info, on tables [t]. *)
Definition commit (n : Z) (prior : option AccountInfo) (t : StateTables) : B256 * StateTables :=
  match apply_bundle n (block_changes n, block_reverts prior) t with
  | Ok r => r
  | Err _ => (0, t)
  end.

Definition block1 : B256 * StateTables := commit 1 None genesis.

Lemma block1_applied : apply_bundle 1 (block_changes 1, block_reverts None) genesis = Ok block1.
Proof. vm_compute. reflexivity. Qed.

Lemma block1_flat : infos_of block1.2 = {[1 := mkInfo 7 1 KECCAK_EMPTY]} /\ storage block1.2 = ∅.
Proof. vm_compute. split; reflexivity. Qed.

Lemma block1_reverts : reverts_ok genesis block1.2 (block_reverts None).
Proof.
  destruct block1_flat as [Ei Es]. split; unfold acc_reverts, slot_reverts; cbn.
  - intros a p [=]%list_elem_of_singleton. subst. split; [by split|done].
  - intros a. rewrite Ei. intros Hne. destruct (decide (a = 1)) as [->|Hn]; [set_solver|].
    rewrite lookup_singleton_ne in Hne by done. by destruct Hne.
  - intros a s v ?%elem_of_nil. done.
  - intros a s. rewrite Es. done.
  - intros a s ?%elem_of_nil. done.
Qed.

Lemma block_typed n : changes_typed (block_changes n).
Proof. split; repeat constructor; (reflexivity || discriminate). Qed.

Lemma unwind_inverts_apply_witness :
  exists x, unwind_state 1 true block1.2 = Ok (full_state_root genesis, x) /\ accounts x = ∅.
Proof.
  destruct (unwind_inverts_apply 1 (block_changes 1) (block_reverts None) genesis block1.2 block1.1)
    as (x & E & Ea & _).
  - exact genesis_at_block.
  - exact (block_typed 1).
  - rewrite block1_applied. by destruct block1.
  - exact block1_reverts.
  - exists x. split; [exact E|exact Ea].
Defined.

Lemma past_state_view_witness :
  basic_ref true (Some 0) 1 (prune_history 1 block1.2).2 = Ok None
  /\ basic_ref true (Some 1) 1 (prune_history 1 block1.2).2 = Ok (Some (mkInfo 7 1 KECCAK_EMPTY)).
Proof.
  assert (run 0 (prune_history 1 block1.2).2 1 1
            (fun n => if n =? 0 + 1 then flat block1.2 else flat genesis)) as Hrun.
  { apply (run_commit 0 genesis 0 0 (fun _ => flat genesis) (block_changes 1) (block_reverts None) block1.1).
    - apply run_base; [lia|exact genesis_at_block|reflexivity|reflexivity].
    - exact (block_typed 1).
    - change (0 + 1) with 1. rewrite block1_applied. by destruct block1.
    - exact block1_reverts. }
  split.
  - exact (proj1 (past_state_view 0 1 1 0 _ _ 1 0 Hrun eq_refl ltac:(discriminate) ltac:(reflexivity))).
  - change true with (history_covers 1 0 1).
    rewrite (proj1 (past_state_view 0 1 1 1 _ _ 1 0 Hrun eq_refl ltac:(discriminate) ltac:(reflexivity))).
    change (Ok (infos_of block1.2 !! 1) = Ok (Some (mkInfo 7 1 KECCAK_EMPTY)) :> result StoreError _).
    rewrite (proj1 block1_flat). reflexivity.
Defined.

(** After 129 blocks and one undo the head is 128, and the history of block 1 is pruned: block 0 is
    said to be covered, but its view is the state of block 1. *)
Fixpoint chain (k : nat) : StateTables :=
  match k with
  | O => genesis
  | S k =>
      let n := Z.of_nat (S k) in
      let t := chain k in
      (prune_history n (commit n (infos_of t !! 1) t).2).2
  end.

Definition after_undo : option StateTables :=
  match unwind_state 129 (history_covers 129 0 129) (chain 129) with
  | Ok (_, t) => Some t
  | Err _ => None
  end.

Lemma pruned_view_wrong :
  infos_of (chain 0) !! 1 = None
  /\ history_covers 128 0 0 = true
  /\ basic_ref true (Some 0) 1 <$> after_undo = Some (Ok (Some (mkInfo 7 1 KECCAK_EMPTY))).
Proof. split; [reflexivity|]. split; [reflexivity|]. vm_compute. reflexivity. Qed.
End StoreWitness.
