(* ===== verification/Overlay.v ===== *)
(** * Pending blocks layered over the committed state

    Models crates/chain/src/overlay.rs: the changes of executed blocks that are not final yet,
    pushed oldest first, and the database view execution reads through them.  The theorem is that
    the view is the committed state with the same changes applied to it, so a block executed on
    pending ancestors sees what it will see once they are committed. *)

From S2P Require Import Prelude Types TxPool Ipld TrieIface Store StoreFacts StoreHistory StoreProps.
From stdpp Require Import base list list_numbers sorting gmap fin_maps strings.
From Stdlib Require Import ZArith Lia.

Open Scope Z_scope.

Record Changes := mkChanges {
  ch_accounts : gmap Address (option AccountInfo);
  ch_storage : gmap (Address * Z) Z;
  ch_wiped : gset Address;
  ch_codes : gmap B256 bytes;
  ch_block_hashes : gmap Z B256;
}.

Definition Changes_default : Changes := mkChanges ∅ ∅ ∅ ∅ ∅.

(** [storage.retain(|(x, _), _| x != a)]. *)
Definition retain_others (a : Address) (m : gmap (Address * Z) Z) : gmap (Address * Z) Z :=
  filter (fun kv => kv.1.1 <> a) m.

Definition push_storage (ch : Changes) (s : PlainStorageChangeset) : Changes :=
  let ch := if wipe_storage s
            then mkChanges (ch_accounts ch) (retain_others (s_address s) (ch_storage ch))
                   ({[s_address s]} ∪ ch_wiped ch) (ch_codes ch) (ch_block_hashes ch)
            else ch in
  mkChanges (ch_accounts ch)
    (foldl (fun m kv => <[(s_address s, kv.1) := kv.2]> m) (ch_storage ch) (s_storage s))
    (ch_wiped ch) (ch_codes ch) (ch_block_hashes ch).

Definition push_account (ch : Changes) (kv : Address * option AccountInfo) : Changes :=
  let '(a, info) := kv in
  let ch := match info with
            | None => mkChanges (ch_accounts ch) (retain_others a (ch_storage ch)) ({[a]} ∪ ch_wiped ch)
                        (ch_codes ch) (ch_block_hashes ch)
            | Some _ => ch
            end in
  mkChanges (<[a := info]> (ch_accounts ch)) (ch_storage ch) (ch_wiped ch) (ch_codes ch) (ch_block_hashes ch).

Definition push_codes (ch : Changes) (l : list (B256 * bytes)) : Changes :=
  mkChanges (ch_accounts ch) (ch_storage ch) (ch_wiped ch)
    (foldl (fun m kv => <[kv.1 := kv.2]> m) (ch_codes ch) l) (ch_block_hashes ch).

Definition push (number : Z) (hash : B256) (cs : StateChangeset) (ch : Changes) : Changes :=
  let ch := push_codes ch (cs_contracts cs) in
  let ch := foldl push_storage ch (cs_storage cs) in
  let ch := foldl push_account ch (cs_accounts cs) in
  mkChanges (ch_accounts ch) (ch_storage ch) (ch_wiped ch) (ch_codes ch)
    (<[number := hash]> (ch_block_hashes ch)).

(** ** The view through the changes, over the latest committed state *)

Definition overlay_basic (t : StateTables) (ch : Changes) (a : Address) : result StoreError (option AccountInfo) :=
  match ch_accounts ch !! a with
  | Some info => Ok info
  | None => basic_ref true None a t
  end.

Definition overlay_code (t : StateTables) (ch : Changes) (h : B256) : result StoreError bytes :=
  match ch_codes ch !! h with
  | Some c => Ok c
  | None => code_by_hash_ref h t
  end.

Definition overlay_storage (t : StateTables) (ch : Changes) (a : Address) (index : Z) : result StoreError Z :=
  match ch_storage ch !! (a, index) with
  | Some v => Ok v
  | None => if bool_decide (a ∈ ch_wiped ch) then Ok 0 else storage_ref true None a index t
  end.

Definition overlay_block_hash (base : Z -> B256) (ch : Changes) (number : Z) : B256 :=
  default (base number) (ch_block_hashes ch !! number).

(** ** Facts *)

(** The slot an overlay shows: [None] stands for the committed one. *)
Definition shown (ch : Changes) (a : Address) (s : Z) : option Z :=
  match ch_storage ch !! (a, s) with
  | Some v => Some v
  | None => if decide (a ∈ ch_wiped ch) then Some 0 else None
  end.

Lemma lookup_retain_others a m b s :
  retain_others a m !! (b, s) = if decide (b = a) then None else m !! (b, s).
Proof.
  unfold retain_others. rewrite map_lookup_filter. case_decide as E.
  - destruct (m !! (b, s)); [|done]. cbn. by rewrite option_guard_False by (cbn; congruence).
  - destruct (m !! (b, s)); [|done]. cbn. by rewrite option_guard_True.
Qed.

(** The slots shown over [slots0] are those of [slots]. *)
Definition shows (slots0 : gmap (Address * B256) Z) (ch : Changes) (slots : gmap (Address * B256) Z) : Prop :=
  forall a s, default (default 0 (slots0 !! (a, s))) (shown ch a s) = default 0 (slots !! (a, s)).

Lemma shows_insert slots0 ch ch' slots a s v :
  shows slots0 ch slots ->
  ch_storage ch' = <[(a, s) := v]> (ch_storage ch) -> ch_wiped ch' = ch_wiped ch ->
  shows slots0 ch' (set_slot a s v slots).
Proof.
  intros Hs Es Ew b r. unfold shown. rewrite Es, Ew, lookup_set_slot.
  destruct (decide ((b, r) = (a, s))) as [E|Hne].
  - injection E as -> ->. rewrite lookup_insert_eq. cbn. destruct (v =? 0) eqn:Ev; cbn; lia.
  - rewrite lookup_insert_ne by congruence. apply Hs.
Qed.

Lemma shows_wipe slots0 ch ch' slots a :
  shows slots0 ch slots ->
  ch_storage ch' = retain_others a (ch_storage ch) -> ch_wiped ch' = {[a]} ∪ ch_wiped ch ->
  shows slots0 ch' (filter (fun kv => kv.1.1 <> a) slots).
Proof.
  intros Hs Es Ew b r. unfold shown. rewrite Es, Ew, lookup_retain_others.
  change (filter (fun kv => kv.1.1 <> a) slots) with (retain_others a slots). rewrite lookup_retain_others.
  destruct (decide (b = a)) as [->|Hne].
  - rewrite decide_True by set_solver. done.
  - specialize (Hs b r). unfold shown in Hs. destruct (ch_storage ch !! (b, r)); [done|].
    destruct (decide (b ∈ ch_wiped ch)); destruct (decide (b ∈ {[a]} ∪ ch_wiped ch)); try done; set_solver.
Qed.

Lemma shows_inserts slots0 ch slots a l :
  shows slots0 ch slots ->
  shows slots0 (mkChanges (ch_accounts ch) (foldl (fun m kv => <[(a, kv.1) := kv.2]> m) (ch_storage ch) l)
                  (ch_wiped ch) (ch_codes ch) (ch_block_hashes ch)) (set_slots a l slots).
Proof.
  unfold set_slots. revert ch slots. induction l as [|[s v] l IH]; intros ch slots Hs; [exact Hs|].
  cbn [foldl fst snd].
  refine (IH (mkChanges (ch_accounts ch) (<[(a, s) := v]> (ch_storage ch)) (ch_wiped ch) (ch_codes ch)
                (ch_block_hashes ch)) (set_slot a s v slots) _).
  by eapply shows_insert.
Qed.

Lemma push_storages_ok slots0 cs ch slots :
  shows slots0 ch slots ->
  shows slots0 (foldl push_storage ch cs) (changes_slots cs slots)
  /\ ch_accounts (foldl push_storage ch cs) = ch_accounts ch
  /\ ch_codes (foldl push_storage ch cs) = ch_codes ch
  /\ ch_block_hashes (foldl push_storage ch cs) = ch_block_hashes ch.
Proof.
  unfold changes_slots. revert ch slots. induction cs as [|c cs IH]; intros ch slots Hs; [done|].
  cbn [foldl]. destruct (IH (push_storage ch c) (change_slots c slots)) as (H1 & H2 & H3 & H4).
  - unfold push_storage, change_slots. apply shows_inserts. destruct (wipe_storage c); [|done].
    by eapply shows_wipe.
  - split; [done|]. rewrite H2, H3, H4. unfold push_storage. by destruct (wipe_storage c).
Qed.

Lemma push_accounts_ok slots0 l ch slots :
  shows slots0 ch slots ->
  shows slots0 (foldl push_account ch l) (foldl (fun m kv => drop_slots kv.1 kv.2 m) slots l)
  /\ ch_accounts (foldl push_account ch l) = foldl (fun m kv => <[kv.1 := kv.2]> m) (ch_accounts ch) l
  /\ ch_codes (foldl push_account ch l) = ch_codes ch
  /\ ch_block_hashes (foldl push_account ch l) = ch_block_hashes ch.
Proof.
  revert ch slots. induction l as [|[a i] l IH]; intros ch slots Hs; [done|].
  cbn [foldl fst snd]. destruct (IH (push_account ch (a, i)) (drop_slots a i slots)) as (H1 & H2 & H3 & H4).
  - unfold push_account, drop_slots. destruct i as [i|]; [exact Hs|]. by eapply shows_wipe.
  - split; [done|]. rewrite H2, H3, H4. unfold push_account. by destruct i.
Qed.

Lemma lookup_inserts_changed l (m : gmap Address (option AccountInfo)) a :
  foldl (fun m kv => <[kv.1 := kv.2]> m) m l !! a
  = match changed_map l !! a with Some i => Some i | None => m !! a end.
Proof.
  unfold changed_map. revert m.
  induction l as [|[b i] l IH] using rev_ind; intros m; [done|]. rewrite !foldl_app. cbn.
  destruct (decide (a = b)) as [->|Hne]; [by rewrite !lookup_insert_eq|]. rewrite !lookup_insert_ne by done. apply IH.
Qed.

(** ** The simulation *)

(** The changes a block may have: one entry per account, slots of accounts that exist, and no code
    for the empty hash. *)
Record changes_regular (cs : StateChangeset) (t : StateTables) : Prop := {
  cr_typed : changes_typed cs;
  cr_once : NoDup (cs_accounts cs).*1;
  cr_owned a : touched cs a -> changed_map (cs_accounts cs) !! a = None -> is_Some (infos_of t !! a);
  cr_codes : KECCAK_EMPTY ∉ (cs_contracts cs).*1;
}.

(** The overlay over [t0] shows the tables [t]. *)
Record overlays (t0 : StateTables) (ch : Changes) (t : StateTables) : Prop := {
  ov_basic a : overlay_basic t0 ch a = basic_ref true None a t;
  ov_storage : shows (storage t0) ch (storage t);
  ov_code h : overlay_code t0 ch h = code_by_hash_ref h t;
}.

Lemma overlays_default t : overlays t Changes_default t.
Proof.
  split; [done| |done]. intros a s. unfold shown. cbn. by rewrite lookup_empty, decide_False by set_solver.
Qed.

Lemma overlay_codes_ok t0 ch t l :
  KECCAK_EMPTY ∉ l.*1 -> (forall h, overlay_code t0 ch h = code_by_hash_ref h t) ->
  forall h, match foldl (fun m kv => <[kv.1 := kv.2]> m) (ch_codes ch) l !! h with
            | Some c => Ok c | None => code_by_hash_ref h t0 end
    = code_by_hash_ref h (set_codes (foldl (fun m kv => <[kv.1 := kv.2]> m) (codes t) l) t).
Proof.
  induction l as [|[k c] l IH] using rev_ind; intros Hl Hc h; [apply Hc|].
  rewrite !foldl_app. cbn. rewrite fmap_app in Hl. apply not_elem_of_app in Hl as [Hl Hk].
  destruct (decide (h = k)) as [->|Hne].
  - rewrite lookup_insert_eq. unfold code_by_hash_ref. cbn. rewrite lookup_insert_eq.
    case_match eqn:E; [|done]. apply Z.eqb_eq in E as ->. set_solver.
  - rewrite lookup_insert_ne by done. rewrite IH by done. unfold code_by_hash_ref. cbn.
    by rewrite lookup_insert_ne.
Qed.

Section overlay.
Context `{K : Keccak} `{!KeccakLaws K} `{!KeccakInj K}.
Context `{R : StateRlp} `{!StateRlpLaws R}.
Context `{T : TrieOps} `{TL : !TrieLaws T}.

Lemma push_overlays t0 ch t number hash cs root t' :
  overlays t0 ch t -> wf t -> changes_regular cs t -> apply_changes cs t = Ok (root, t') ->
  overlays t0 (push number hash cs ch) t' /\ wf t'.
Proof.
  intros [O1 O2 O3] Hwf [Hty Hn Hown Hcode] E.
  destruct (apply_changes_ok cs t Hwf Hty) as (t2 & E2 & Hwf2 & Hap). rewrite E2 in E. injection E as _ <-.
  split; [|done]. destruct Hap as [A1 A2 A3 A4 A5 A6 _]. unfold push.
  set (ch0 := push_codes ch (cs_contracts cs)).
  destruct (push_storages_ok (storage t0) (cs_storage cs) ch0 (storage t)) as (S1 & S2 & S3 & S4); [exact O2|].
  destruct (push_accounts_ok (storage t0) (cs_accounts cs) (foldl push_storage ch0 (cs_storage cs)) _ S1)
    as (P1 & P2 & P3 & P4).
  split.
  - intros a. unfold overlay_basic. cbn [ch_accounts]. rewrite P2, lookup_inserts_changed, S2. cbn [ch_accounts push_codes ch0].
    specialize (O1 a). unfold overlay_basic in O1. unfold basic_ref in *. rewrite <-!lookup_fmap in *.
    fold (infos_of t0) (infos_of t) (infos_of t2) in *.
    destruct (changed_map (cs_accounts cs) !! a) as [i|] eqn:Ei; [by rewrite (A1 a i Ei)|].
    rewrite O1. f_equal. destruct (infos_of t !! a) as [i|] eqn:Et; [by rewrite (A2 a i)|].
    symmetry. apply A3; [done|done|]. intros Htouch. apply (Hown a) in Htouch as [? ?]; congruence.
  - intros a s. cbn. change (shown (mkChanges _ _ _ _ _) a s) with (shown (foldl push_account (foldl push_storage ch0 (cs_storage cs)) (cs_accounts cs)) a s).
    rewrite (P1 a s). f_equal. rewrite lookup_drop_slots, A5. apply decide_ext.
    rewrite lookup_changed_map by done. by rewrite elem_of_list_to_map.
  - intros h. unfold overlay_code. cbn [ch_codes]. rewrite P3, S3. cbn [ch_codes push_codes ch0].
    rewrite (overlay_codes_ok t0 ch t _ Hcode O3 h). unfold code_by_hash_ref. cbn. by rewrite A6.
Qed.

(** Blocks (number, hash, changes) applied one after the other. *)
Inductive commits : StateTables -> list (Z * B256 * StateChangeset) -> StateTables -> Prop :=
  | commits_nil t : commits t [] t
  | commits_cons t number hash cs blocks root t1 t' :
      changes_regular cs t -> apply_changes cs t = Ok (root, t1) -> commits t1 blocks t' ->
      commits t ((number, hash, cs) :: blocks) t'.

Definition push_block (ch : Changes) (b : Z * B256 * StateChangeset) : Changes := push b.1.1 b.1.2 b.2 ch.

Lemma overlays_storage_ref t0 ch t a s :
  shows (storage t0) ch (storage t) -> overlay_storage t0 ch a s = storage_ref true None a s t.
Proof.
  intros Hs. specialize (Hs a s). unfold overlay_storage, storage_ref, shown in *.
  destruct (ch_storage ch !! (a, s)) as [v|]; cbn in Hs; [by f_equal|].
  case_bool_decide as E; [rewrite decide_True in Hs by done|rewrite decide_False in Hs by done];
    cbn in Hs; by f_equal.
Qed.

Lemma pushes_overlay t0 ch t blocks t' :
  overlays t0 ch t -> wf t -> commits t blocks t' -> overlays t0 (foldl push_block ch blocks) t'.
Proof.
  intros Ho Hwf Hc. revert ch Ho Hwf.
  induction Hc as [t|t number hash cs blocks root t1 t' Hr E Hc IH]; intros ch Ho Hwf; [done|].
  cbn [foldl]. destruct (push_overlays t0 ch t number hash cs root t1 Ho Hwf Hr E) as [Ho' Hwf'].
  by apply IH.
Qed.
End overlay.

(** C32.  Executing on pending blocks reads the state they will leave: for any sequence of pending
    blocks, the account, slot and code shown through their changes over the committed tables are
    those of the tables after committing the blocks one by one. *)
Theorem overlay_is_committed_state `{K : Keccak} `{!KeccakLaws K} `{!KeccakInj K} `{R : StateRlp}
  `{!StateRlpLaws R} `{T : TrieOps} `{TL : !TrieLaws T} (t t' : StateTables)
  (blocks : list (Z * B256 * StateChangeset)) (Hwf : wf t) (Hc : commits t blocks t')
  (a : Address) (slot : Z) (h : B256) :
  let ch := foldl push_block Changes_default blocks in
  overlay_basic t ch a = basic_ref true None a t'
  /\ overlay_storage t ch a slot = storage_ref true None a slot t'
  /\ overlay_code t ch h = code_by_hash_ref h t'.
Proof.
  intros ch. destruct (pushes_overlay t Changes_default t blocks t' (overlays_default t) Hwf Hc) as [O1 O2 O3].
  split; [apply O1|]. split; [by apply overlays_storage_ref|apply O3].
Qed.

(** ** Witness *)

Module OverlayWitness.
Import StoreWitness.

(** Two blocks: the first creates account 1 with a slot, the second wipes its storage. *)
Definition first : StateChangeset :=
  mkChangeset [(1, Some (mkInfo 7 1 77))] [mkStorageChange 1 false [(5, 9)]] [(77, [1; 2])].
Definition second : StateChangeset := mkChangeset [] [mkStorageChange 1 true [(6, 3)]] [].

Definition applied_to (cs : StateChangeset) (t : StateTables) : B256 * StateTables :=
  match apply_changes cs t with Ok r => r | Err _ => (0, t) end.

Definition t1 : B256 * StateTables := applied_to first genesis.
Definition t2 : B256 * StateTables := applied_to second t1.2.

Lemma regular_first : changes_regular first genesis.
Proof.
  split.
  - split; repeat constructor; (reflexivity || discriminate).
  - apply (bool_decide_unpack _). vm_compute. exact I.
  - intros a (s & Hs%list_elem_of_singleton & -> & _) Hn. subst s. vm_compute in Hn. discriminate Hn.
  - apply (bool_decide_unpack _). vm_compute. exact I.
Qed.

Lemma regular_second : changes_regular second t1.2.
Proof.
  split.
  - split; repeat constructor; (reflexivity || discriminate).
  - apply (bool_decide_unpack _). vm_compute. exact I.
  - intros a (s & Hs%list_elem_of_singleton & -> & _) _. subst s. vm_compute. by eexists.
  - apply (bool_decide_unpack _). vm_compute. exact I.
Qed.

Lemma overlay_is_committed_state_witness :
  let ch := foldl push_block Changes_default [(1, 11, first); (2, 12, second)] in
  overlay_storage genesis ch 1 5 = Ok 0 /\ overlay_storage genesis ch 1 6 = Ok 3.
Proof.
  assert (commits genesis [(1, 11, first); (2, 12, second)] t2.2) as Hc.
  { eapply (commits_cons _ _ _ _ _ t1.1 t1.2); [exact regular_first|vm_compute; reflexivity|].
    eapply (commits_cons _ _ _ _ _ t2.1 t2.2); [exact regular_second|vm_compute; reflexivity|].
    apply commits_nil. }
  cbv zeta. split.
  - destruct (overlay_is_committed_state genesis t2.2 _ (b_wf _ _ genesis_at_block) Hc 1 5 0) as (_ & -> & _).
    vm_compute. reflexivity.
  - destruct (overlay_is_committed_state genesis t2.2 _ (b_wf _ _ genesis_at_block) Hc 1 6 0) as (_ & -> & _).
    vm_compute. reflexivity.
Defined.
End OverlayWitness.
