(* ===== verification/BlockStore.v ===== *)
(** * Block tables

    Models the block tables of crates/store/src/db.rs (headers, bodies, receipts, the index of
    transactions, total difficulty, envelopes, pending records, the head and the finalized block)
    and the address index of crates/store/src/addr_index.rs.  As for the state tables, keys and
    values are kept decoded; the errors of a decoder that meets corrupt bytes, and those of the
    database itself, are left out. *)

From S2P Require Import Prelude Types TxPool Ipld TrieIface Store.
From stdpp Require Import base list list_numbers sorting gmap fin_maps strings.
From Stdlib Require Import ZArith Lia.

Open Scope Z_scope.
Open Scope bolt_scope.

(** A log of a receipt: emitter and topics. *)
Record Log := mkLog { log_address : Address; log_topics : list B256 }.

(** Receipts, the recipient of a transaction and the address a sender creates at a nonce (crate
    alloy). *)
Class AlloyReceipt `{AlloyTx} := {
  ReceiptEnvelope : Type;
  receipt_logs : ReceiptEnvelope -> list Log;
  tx_to : TxEnvelope -> option Address;
  create_address : Address -> Z -> Address;
}.

Section tables.
Context `{K : Keccak} `{R : HeaderRlp} `{A : AlloyTx} `{L : !AlloyReceipt}.

Record StoredBlock := mkStoredBlock {
  sb_header : BlockHeader;
  sb_transactions : list TxEnvelope;
  sb_senders : list Address;
}.

(** ** Tables *)

Record BlockTables := mkBlocks {
  headers : gmap Z BlockHeader;
  hash_num : gmap B256 Z;
  bodies : gmap Z (list TxEnvelope);
  senders : gmap Z (list Address);
  receipts : gmap Z (list ReceiptEnvelope);
  tx_index : gmap B256 (Z * Z);
  td : gmap Z Z;
  envelopes : gmap Z Cid;
  ipld : gmap Cid bytes;
  pending_t : gmap (Z * B256) Cid;
  addr_tx : gmap (Address * Z * Z) Z;
  meta_head : option Z;
  meta_finalized : option (Z * B256);
  meta_base : option Z;
  meta_addr_index : option Z;
  meta_snapshots : option bytes;
}.

Definition set_headers m b := mkBlocks m (hash_num b) (bodies b) (senders b) (receipts b) (tx_index b) (td b)
  (envelopes b) (ipld b) (pending_t b) (addr_tx b) (meta_head b) (meta_finalized b) (meta_base b) (meta_addr_index b) (meta_snapshots b).
Definition set_hash_num m b := mkBlocks (headers b) m (bodies b) (senders b) (receipts b) (tx_index b) (td b)
  (envelopes b) (ipld b) (pending_t b) (addr_tx b) (meta_head b) (meta_finalized b) (meta_base b) (meta_addr_index b) (meta_snapshots b).
Definition set_bodies m b := mkBlocks (headers b) (hash_num b) m (senders b) (receipts b) (tx_index b) (td b)
  (envelopes b) (ipld b) (pending_t b) (addr_tx b) (meta_head b) (meta_finalized b) (meta_base b) (meta_addr_index b) (meta_snapshots b).
Definition set_senders m b := mkBlocks (headers b) (hash_num b) (bodies b) m (receipts b) (tx_index b) (td b)
  (envelopes b) (ipld b) (pending_t b) (addr_tx b) (meta_head b) (meta_finalized b) (meta_base b) (meta_addr_index b) (meta_snapshots b).
Definition set_receipts m b := mkBlocks (headers b) (hash_num b) (bodies b) (senders b) m (tx_index b) (td b)
  (envelopes b) (ipld b) (pending_t b) (addr_tx b) (meta_head b) (meta_finalized b) (meta_base b) (meta_addr_index b) (meta_snapshots b).
Definition set_tx_index m b := mkBlocks (headers b) (hash_num b) (bodies b) (senders b) (receipts b) m (td b)
  (envelopes b) (ipld b) (pending_t b) (addr_tx b) (meta_head b) (meta_finalized b) (meta_base b) (meta_addr_index b) (meta_snapshots b).
Definition set_td m b := mkBlocks (headers b) (hash_num b) (bodies b) (senders b) (receipts b) (tx_index b) m
  (envelopes b) (ipld b) (pending_t b) (addr_tx b) (meta_head b) (meta_finalized b) (meta_base b) (meta_addr_index b) (meta_snapshots b).
Definition set_envelopes m b := mkBlocks (headers b) (hash_num b) (bodies b) (senders b) (receipts b) (tx_index b) (td b)
  m (ipld b) (pending_t b) (addr_tx b) (meta_head b) (meta_finalized b) (meta_base b) (meta_addr_index b) (meta_snapshots b).
Definition set_ipld m b := mkBlocks (headers b) (hash_num b) (bodies b) (senders b) (receipts b) (tx_index b) (td b)
  (envelopes b) m (pending_t b) (addr_tx b) (meta_head b) (meta_finalized b) (meta_base b) (meta_addr_index b) (meta_snapshots b).
Definition set_pending m b := mkBlocks (headers b) (hash_num b) (bodies b) (senders b) (receipts b) (tx_index b) (td b)
  (envelopes b) (ipld b) m (addr_tx b) (meta_head b) (meta_finalized b) (meta_base b) (meta_addr_index b) (meta_snapshots b).
Definition set_addr_tx m b := mkBlocks (headers b) (hash_num b) (bodies b) (senders b) (receipts b) (tx_index b) (td b)
  (envelopes b) (ipld b) (pending_t b) m (meta_head b) (meta_finalized b) (meta_base b) (meta_addr_index b) (meta_snapshots b).
Definition set_head m b := mkBlocks (headers b) (hash_num b) (bodies b) (senders b) (receipts b) (tx_index b) (td b)
  (envelopes b) (ipld b) (pending_t b) (addr_tx b) m (meta_finalized b) (meta_base b) (meta_addr_index b) (meta_snapshots b).
Definition set_meta_finalized m b := mkBlocks (headers b) (hash_num b) (bodies b) (senders b) (receipts b) (tx_index b) (td b)
  (envelopes b) (ipld b) (pending_t b) (addr_tx b) (meta_head b) m (meta_base b) (meta_addr_index b) (meta_snapshots b).
Definition set_meta_base m b := mkBlocks (headers b) (hash_num b) (bodies b) (senders b) (receipts b) (tx_index b) (td b)
  (envelopes b) (ipld b) (pending_t b) (addr_tx b) (meta_head b) (meta_finalized b) m (meta_addr_index b) (meta_snapshots b).
Definition set_addr_index m b := mkBlocks (headers b) (hash_num b) (bodies b) (senders b) (receipts b) (tx_index b) (td b)
  (envelopes b) (ipld b) (pending_t b) (addr_tx b) (meta_head b) (meta_finalized b) (meta_base b) m (meta_snapshots b).
Definition set_snapshots m b := mkBlocks (headers b) (hash_num b) (bodies b) (senders b) (receipts b) (tx_index b) (td b)
  (envelopes b) (ipld b) (pending_t b) (addr_tx b) (meta_head b) (meta_finalized b) (meta_base b) (meta_addr_index b) m.

(** ** Reading *)

Definition base (b : BlockTables) : Z := default 0 (meta_base b).
Definition block_hash (number : Z) (b : BlockTables) : option B256 := header_hash <$> headers b !! number.

(** A block without its body is complete only when it has no transactions. *)
Definition block (number : Z) (b : BlockTables) : option StoredBlock :=
  header ← headers b !! number;
  match bodies b !! number with
  | None =>
      if bool_decide (hd_transactions_root header = EMPTY_ROOT_HASH) then Some (mkStoredBlock header [] []) else None
  | Some txs => Some (mkStoredBlock header txs (default [] (senders b !! number)))
  end.

Definition total_difficulty (number : Z) (b : BlockTables) : option Z := td b !! number.

(** Records above a number, in key order. *)
Definition pending_le (x y : Z * B256 * Cid) : Prop :=
  x.1.1 < y.1.1 \/ (x.1.1 = y.1.1 /\ x.1.2 <= y.1.2).

#[export] Instance pending_le_dec x y : Decision (pending_le x y).
Proof. unfold pending_le. apply _. Defined.

Definition pending_blocks (above : Z) (b : BlockTables) : list (Z * B256 * Cid) :=
  let from := Z.min U64_MAX (above + 1) in
  merge_sort pending_le (map_to_list (filter (fun kv => from <= kv.1.1) (pending_t b))).

Definition has_body (number : Z) (b : BlockTables) : bool := bool_decide (is_Some (bodies b !! number)).

(** ** The address index *)

Definition TRANSFER_TOPIC : B256 := 0xddf252ad1be2c89b69c2b068fc378daa952ba7f163c4a11628f55a4df523b3ef.

Definition ROLE_FROM : Z := 1.
Definition ROLE_TO : Z := 2.
Definition ROLE_CREATED : Z := 4.
Definition ROLE_TOKEN : Z := 8.
Definition ROLE_TOKEN_CONTRACT : Z := 16.

Record AddressTx := mkAddressTx { at_block_number : Z; at_index : Z; at_roles : Z }.

(** The closure [add]: roles of an address are collected in its first entry. *)
Fixpoint add_role (a : Address) (r : Z) (out : list (Address * Z)) : list (Address * Z) :=
  match out with
  | [] => [(a, r)]
  | (x, f) :: out => if x =? a then (x, Z.lor f r) :: out else (x, f) :: add_role a r out
  end.

(** The two addresses of a [Transfer] log, as the last 20 bytes of its topics. *)
Definition from_word (w : B256) : Address := w mod 2 ^ 160.

Definition add_log (out : list (Address * Z)) (log : Log) : list (Address * Z) :=
  match log_topics log with
  | t0 :: t1 :: t2 :: _ =>
      if t0 =? TRANSFER_TOPIC then
        add_role (from_word t2) ROLE_TOKEN
          (add_role (from_word t1) ROLE_TOKEN (add_role (log_address log) ROLE_TOKEN_CONTRACT out))
      else out
  | _ => out
  end.

Definition entries (tx : TxEnvelope) (sender : option Address) (receipt : option ReceiptEnvelope)
    : list (Address * Z) :=
  let out := match sender with
             | Some s =>
                 let out := add_role s ROLE_FROM [] in
                 if tx_is_create tx then add_role (create_address s (tx_nonce tx)) ROLE_CREATED out else out
             | None => []
             end in
  let out := match tx_to tx with Some to => add_role to ROLE_TO out | None => out end in
  match receipt with
  | Some r => foldl add_log out (receipt_logs r)
  | None => out
  end.

(** The entries of a whole block, each with its transaction's index. *)
Definition block_entries (blk : StoredBlock) (rs : list ReceiptEnvelope) : list (nat * (Address * Z)) :=
  concat (imap (fun i tx => map (fun e => (i, e)) (entries tx (sb_senders blk !! i) (rs !! i))) (sb_transactions blk)).

Definition index_block (blk : StoredBlock) (rs : list ReceiptEnvelope) (b : BlockTables) : BlockTables :=
  foldl (fun b e =>
           let key := (e.2.1, hd_number (sb_header blk), u32 (Z.of_nat e.1)) in
           set_addr_tx (<[key := Z.lor (default 0 (addr_tx b !! key)) e.2.2]> (addr_tx b)) b)
    b (block_entries blk rs).

Definition unindex_block (blk : StoredBlock) (rs : list ReceiptEnvelope) (b : BlockTables) : BlockTables :=
  foldl (fun b e => set_addr_tx (delete (e.2.1, hd_number (sb_header blk), u32 (Z.of_nat e.1)) (addr_tx b)) b)
    b (block_entries blk rs).

Definition enable_address_index (b : BlockTables) : Z * BlockTables :=
  match meta_addr_index b with
  | Some from => (from, b)
  | None =>
      let next := match meta_head b with Some h => u64 (h + 1) | None => 0 end in
      (next, set_addr_index (Some next) b)
  end.

(** Backfill: at most [max] blocks below the lowest indexed one. *)
Fixpoint index_loop (max : nat) (floor from : Z) (n : Z) (b : BlockTables) : Z * Z * BlockTables :=
  match max with
  | O => (from, n, b)
  | S max =>
      if from <=? floor then (from, n, b)
      else
        let number := from - 1 in
        match block number b with
        | None => (from, n, b)
        | Some blk =>
            if negb (has_body number b) && negb (bool_decide (length (sb_transactions blk) = 0%nat)) then (from, n, b)
            else
              let b := index_block blk (default [] (receipts b !! number)) b in
              index_loop max floor number (n + 1) b
        end
  end.

Definition index_blocks (max : Z) (b : BlockTables) : Z * BlockTables :=
  match meta_addr_index b with
  | None => (0, b)
  | Some from =>
      let '(from, n, b) := index_loop (Z.to_nat max) (Z.max (base b) 1) from 0 b in
      (n, if 0 <? n then set_addr_index (Some from) b else b)
  end.

(** Keys of the index in table order. *)
Definition addr_key_lt (x y : Address * Z * Z) : Prop :=
  x.1.1 < y.1.1 \/ (x.1.1 = y.1.1 /\ (x.1.2 < y.1.2 \/ (x.1.2 = y.1.2 /\ x.2 < y.2))).

#[export] Instance addr_key_lt_dec x y : Decision (addr_key_lt x y).
Proof. unfold addr_key_lt. apply _. Defined.

Definition addr_desc (x y : Address * Z * Z * Z) : Prop := ~ addr_key_lt x.1 y.1.

#[export] Instance addr_desc_dec x y : Decision (addr_desc x y).
Proof. unfold addr_desc. apply _. Defined.

Fixpoint walk_back (limit : nat) (addr : Address) (l : list (Address * Z * Z * Z)) : list AddressTx :=
  match limit, l with
  | S limit, (a, n, i, roles) :: l => if a =? addr then mkAddressTx n i roles :: walk_back limit addr l else []
  | _, _ => []
  end.

(** The cursor starts at the last key before the start key and moves back. *)
Definition address_txs (addr : Address) (before : option (Z * Z)) (limit : Z) (b : BlockTables) : list AddressTx :=
  let '(n, i) := default (U64_MAX, 2 ^ 32 - 1) before in
  walk_back (Z.to_nat limit) addr
    (merge_sort addr_desc (map_to_list (filter (fun kv => addr_key_lt kv.1 (addr, n, i)) (addr_tx b)))).

(** ** Writing *)

Definition put_block (blk : StoredBlock) (rs : list ReceiptEnvelope) (b : BlockTables) : BlockTables :=
  let number := hd_number (sb_header blk) in
  let hash := header_hash (sb_header blk) in
  let b := set_headers (<[number := sb_header blk]> (headers b)) b in
  let b := set_hash_num (<[hash := number]> (hash_num b)) b in
  let b := set_bodies (<[number := sb_transactions blk]> (bodies b)) b in
  let b := set_senders (<[number := sb_senders blk]> (senders b)) b in
  let b := set_receipts (<[number := rs]> (receipts b)) b in
  let b := set_tx_index
    (foldl (fun m it => <[tx_hash it.2 := (number, u32 (Z.of_nat it.1))]> m) (tx_index b)
       (imap (fun i tx => (i, tx)) (sb_transactions blk))) b in
  let parent_td := if number =? 0 then 0 else default 0 (td b !! (number - 1)) in
  let b := set_td (<[number := Z.min (parent_td + hd_difficulty (sb_header blk)) (2 ^ 256 - 1)]> (td b)) b in
  let b := set_head (Some number) b in
  match meta_addr_index b with
  | Some _ => index_block blk rs b
  | None => b
  end.

Definition remove_head_block (number : Z) (b : BlockTables) : result StoreError (StoredBlock * BlockTables) :=
  blk <-? ok_or (block number b) (StoreCorrupt "headers"%string);
  let b := match meta_addr_index b with
           | Some _ => unindex_block blk (default [] (receipts b !! number)) b
           | None => b
           end in
  let b := set_tx_index
    (foldl (fun m tx => match m !! tx_hash tx with
                        | Some (n, _) => if n =? number then delete (tx_hash tx) m else m
                        | None => m
                        end) (tx_index b) (sb_transactions blk)) b in
  let b := set_hash_num (delete (header_hash (sb_header blk)) (hash_num b)) b in
  let b := set_headers (delete number (headers b)) b in
  let b := set_bodies (delete number (bodies b)) b in
  let b := set_senders (delete number (senders b)) b in
  let b := set_receipts (delete number (receipts b)) b in
  let b := set_envelopes (delete number (envelopes b)) b in
  let b := set_td (delete number (td b)) b in
  Ok (blk, set_head (if number =? 0 then None else Some (number - 1)) b).

Definition set_finalized (number : Z) (hash : B256) (b : BlockTables) : BlockTables :=
  set_meta_finalized (Some (number, hash)) b.

Definition put_ipld (cid : Cid) (data : bytes) (b : BlockTables) : BlockTables := set_ipld (<[cid := data]> (ipld b)) b.

Definition put_ipld_bundle (number : Z) (root : Cid) (blocks : list (Cid * bytes)) (b : BlockTables) : BlockTables :=
  let b := foldl (fun b cd => put_ipld cd.1 cd.2 b) b blocks in
  set_envelopes (<[number := root]> (envelopes b)) b.

Definition put_pending (number : Z) (hash : B256) (root : Cid) (b : BlockTables) : BlockTables :=
  set_pending (<[(number, hash) := root]> (pending_t b)) b.

Definition prune_pending (number : Z) (b : BlockTables) : BlockTables :=
  set_pending (filter (fun kv => number < kv.1.1) (pending_t b)) b.
End tables.
