(* ===== verification/Snapshot.v ===== *)
(** * Snapshots in the store

    Models crates/store/src/snapshot.rs: the state of one block as a sequence of IPLD blocks, the
    reverse (tables and tries from the chunks of a snapshot), checkpoint blocks and the pruning of
    block bodies.  What [build_snapshot] passes to its callback is the list of blocks in order. *)

From S2P Require Import Prelude Types TxPool Ipld Car Index TrieIface Store BlockStore.
From stdpp Require Import base list list_numbers sorting gmap fin_maps strings.
From Stdlib Require Import ZArith Lia.

Open Scope Z_scope.
Open Scope bolt_scope.

Section build.
Context `{K : Keccak} `{Sh : Sha256} `{R : HeaderRlp}.
Context `{CA : DagCbor (list SnapAccount)} `{CC : DagCbor (list bytes)} `{CR : DagCbor SnapshotRoot}.

(** ** Building *)

(** The loop over the accounts, in key order, each with its slots in key order. *)
Definition build_account (t : StateTables) (kv : Address * Account) (st : SnapshotBuilder * list (Cid * bytes))
    : SnapshotBuilder * list (Cid * bytes) :=
  let '(addr, a) := kv in
  let slots := map (fun sv => (be_bytes 32 sv.1, be_bytes 32 sv.2)) (slots_of addr t) in
  let '(b, blocks) :=
    add_account (be_bytes 20 addr) (acc_nonce a) (be_bytes 32 (acc_balance a)) (be_bytes 32 (acc_code_hash a)) slots st.1 in
  (b, st.2 ++ blocks).

(** The set of the accounts' code hashes, in order. *)
Definition code_hashes (t : StateTables) : list B256 :=
  merge_sort Z.le (elements (list_to_set (C := gset B256)
    (filter (fun h => h <> KECCAK_EMPTY) (map (fun kv => acc_code_hash kv.2) (btree_list (accounts t)))))).

Definition build_code (code : bytes) (st : SnapshotBuilder * list (Cid * bytes)) : SnapshotBuilder * list (Cid * bytes) :=
  let '(b, blocks) := add_code code st.1 in (b, st.2 ++ blocks).

(** The loop over the codes, to the first that is missing. *)
Fixpoint build_codes (t : StateTables) (hashes : list B256) (st : SnapshotBuilder * list (Cid * bytes))
    : SnapshotBuilder * list (Cid * bytes) * result StoreError () :=
  match hashes with
  | [] => (st, Ok ())
  | h :: hashes =>
      match Store.codes t !! h with
      | None => (st, Err (StoreCorrupt "codes"%string))
      | Some code => build_codes t hashes (build_code code st)
      end
  end.

Definition snapshot_root (chain_id : Z) (header : BlockHeader) (envelope : Cid) (td : Z) (b : SnapshotBuilder) : SnapshotRoot :=
  mkSnapshotRoot 1 chain_id (hd_number header) (be_bytes 32 (header_hash header)) (be_bytes 32 (hd_state_root header))
    (be_bytes 32 td) envelope (sb_accounts b) (code_chunks b).

(** The blocks emitted, also before an error, and the CID of the root. *)
Definition build_snapshot (t : StateTables) (chain_id : Z) (header : BlockHeader) (envelope : Cid) (td : Z)
    : list (Cid * bytes) * result StoreError Cid :=
  let st := foldl (fun st kv => build_account t kv st) (SnapshotBuilder_default, []) (btree_list (accounts t)) in
  match build_codes t (code_hashes t) st with
  | (st, Err e) => (st.2, Err e)
  | (st, Ok _) =>
      let '(b, blocks) := builder_finish st.1 in
      let blk := SnapshotRoot_to_block (snapshot_root chain_id header envelope td b) in
      (st.2 ++ blocks ++ [blk], Ok blk.1)
  end.
End build.

(** ** Rebuilding *)

Definition reset_state (t : StateTables) : StateTables := mkState ∅ ∅ (Store.codes t) ∅ ∅ ∅ ∅ ∅.

Section rebuild.
Context `{K : Keccak} `{SR : StateRlp} `{T : TrieOps}.
Context `{CA : DagCbor (list SnapAccount)} `{CC : DagCbor (list bytes)}.

Definition snapshot_slot (kv : bytes * bytes) : result StoreError (Z * Z) :=
  if Nat.eqb (length kv.1) 32 && Nat.eqb (length kv.2) 32 then Ok (be_val kv.1, be_val kv.2)
  else Err (StoreCorrupt "snapshot slot"%string).

(** [collect] of results: the first error, or all values. *)
Fixpoint collect {E A B} (f : A -> result E B) (l : list A) : result E (list B) :=
  match l with
  | [] => Ok []
  | a :: l => b <-? f a; bs <-? collect f l; Ok (b :: bs)
  end.

Definition snapshot_entry (e : SnapAccount) (changes : StateChangeset) : result StoreError StateChangeset :=
  if negb (Nat.eqb (length (sa_a e)) 20) || negb (Nat.eqb (length (sa_b e)) 32) || negb (Nat.eqb (length (sa_c e)) 32)
  then Err (StoreCorrupt "snapshot account"%string)
  else
    let address := be_val (sa_a e) in
    let accs :=
      if sa_x e then cs_accounts changes
      else cs_accounts changes ++ [(address, Some (mkInfo (be_val (sa_b e)) (sa_n e) (be_val (sa_c e))))] in
    storage <-? collect snapshot_slot (sa_s e);
    Ok (mkChangeset accs
          (if bool_decide (storage = []) then cs_storage changes
           else cs_storage changes ++ [mkStorageChange address false storage])
          (cs_contracts changes)).

Definition apply_snapshot_accounts (chunk : bytes) (t : StateTables) : result StoreError (B256 * StateTables) :=
  match decode_accounts chunk with
  | Err _ => Err (StoreCorrupt "snapshot chunk"%string)
  | Ok entries =>
      changes <-? try_fold snapshot_entry entries (mkChangeset [] [] []);
      apply_changes changes t
  end.

(** [Bytecode::hash_slow] is the hash of the original bytes. *)
Definition apply_snapshot_codes (chunk : bytes) (t : StateTables) : result StoreError StateTables :=
  match decode_codes chunk with
  | Err _ => Err (StoreCorrupt "code chunk"%string)
  | Ok l => Ok (set_codes (foldl (fun m code => <[keccak256 code := code]> m) (Store.codes t) l) t)
  end.
End rebuild.

(** ** Block tables *)

Section blocks.
Context `{K : Keccak} `{R : HeaderRlp} `{A : AlloyTx} `{L : !AlloyReceipt}.

Definition put_checkpoint_block (blk : StoredBlock) (envelope : Cid) (td : Z) (b : BlockTables) : BlockTables :=
  let number := hd_number (sb_header blk) in
  let b := put_block blk [] b in
  let b := set_td (<[number := td]> (BlockStore.td b)) b in
  let b := set_envelopes (<[number := envelope]> (envelopes b)) b in
  set_meta_base (Some number) b.

Definition put_header_only (header : BlockHeader) (envelope : Cid) (b : BlockTables) : BlockTables :=
  let n := hd_number header in
  let b := set_headers (<[n := header]> (headers b)) b in
  let b := set_hash_num (<[header_hash header := n]> (hash_num b)) b in
  set_envelopes (<[n := envelope]> (envelopes b)) b.

Definition del_ipld (cid : Cid) (b : BlockTables) : BlockTables := set_ipld (delete cid (ipld b)) b.

Definition prune_block `{CE : DagCbor Envelope} (number : Z) (b : BlockTables) : bool * BlockTables :=
  match BlockStore.block number b with
  | None => (false, b)
  | Some blk =>
      if negb (has_body number b) then (false, b)
      else
        let b := set_tx_index
          (foldl (fun m tx => match m !! tx_hash tx with
                              | Some (n, _) => if n =? number then delete (tx_hash tx) m else m
                              | None => m
                              end) (tx_index b) (sb_transactions blk)) b in
        let b := set_bodies (delete number (bodies b)) b in
        let b := set_senders (delete number (senders b)) b in
        let b := set_receipts (delete number (receipts b)) b in
        (true, match (root ← envelopes b !! number; ipld b !! root) with
               | Some data =>
                   match Envelope_decode data with
                   | Ok env => foldl (fun b c => del_ipld c b) b (env_chunks env)
                   | Err _ => b
                   end
               | None => b
               end)
  end.

(** The list of roots is kept as length-prefixed CIDs. *)
Definition set_snapshot_roots `{CB : CidBytes} (roots : list Cid) (b : BlockTables) : BlockTables :=
  set_snapshots (Some (concat (map (fun r => u8 (Z.of_nat (length (cid_to_bytes r))) :: cid_to_bytes r) roots))) b.

(** [Cid::try_from]: the bytes are a CID; what follows it is ignored. *)
Fixpoint read_roots `{CB : CidBytes} (fuel : nat) (rest : bytes) : result StoreError (list Cid) :=
  match fuel, rest with
  | _, [] => Ok []
  | O, _ => Ok []
  | S fuel, n :: tail =>
      if (Z.of_nat (length tail) <? n) then Err (StoreCorrupt "snapshot roots"%string)
      else
        cid <-? ok_or (fst <$> cid_read_bytes (take (Z.to_nat n) tail)) (StoreCorrupt "snapshot roots"%string);
        l <-? read_roots fuel (drop (Z.to_nat n) tail);
        Ok (cid :: l)
  end.

Definition snapshot_roots `{CB : CidBytes} (b : BlockTables) : result StoreError (list Cid) :=
  let v := default [] (meta_snapshots b) in
  read_roots (length v) v.
End blocks.
