(* ===== verification/SnapshotFacts.v ===== *)
(** * Snapshots rebuild the state

    The chunks a snapshot is made of, read in order into empty tables, give back the flat state, the
    tries and the state root of the tables it was built from. *)

From S2P Require Import Prelude Types TxPool Ipld IpldFacts Car Index IndexFacts TrieIface Store StoreFacts StoreHistory BlockStore Snapshot.
From stdpp Require Import base list list_numbers sorting gmap fin_maps strings.
From Stdlib Require Import ZArith Lia.

Open Scope Z_scope.
Open Scope bolt_scope.

(** ** What entries mean *)

Definition slot_values (l : list (bytes * bytes)) : list (Z * Z) := map (fun kv => (be_val kv.1, be_val kv.2)) l.

Definition entry_info (e : SnapAccount) : AccountInfo := mkInfo (be_val (sa_b e)) (sa_n e) (be_val (sa_c e)).

(** The flat state after an entry. *)
Definition load (st : Flat) (e : SnapAccount) : Flat :=
  let a := be_val (sa_a e) in
  (if sa_x e then st.1 else <[a := entry_info e]> st.1, set_slots a (slot_values (sa_s e)) st.2).

(** Every continuation continues an account already loaded. *)
Definition loadable (st : Flat) (l : list SnapAccount) : Prop :=
  forall l1 e l2, l = l1 ++ e :: l2 -> sa_x e = true -> is_Some ((foldl load st l1).1 !! be_val (sa_a e)).

Record entry_typed (e : SnapAccount) : Prop := {
  et_a : length (sa_a e) = 20%nat;
  et_b : length (sa_b e) = 32%nat;
  et_c : length (sa_c e) = 32%nat;
  et_address : in_range 160 (be_val (sa_a e));
  et_slots : Forall (fun kv => length kv.1 = 32%nat /\ length kv.2 = 32%nat) (sa_s e);
  et_values : slots_typed (slot_values (sa_s e));
}.

Definition whole (e : SnapAccount) : Prop := sa_x e = false.

Lemma set_slots_app a l l' m : set_slots a (l ++ l') m = set_slots a l' (set_slots a l m).
Proof. unfold set_slots. by rewrite foldl_app. Qed.

Lemma load_append st p e :
  sa_x p = false -> sa_x e = true -> ident p = ident e -> load st (append_slots p (sa_s e)) = load (load st p) e.
Proof.
  intros Hp He [= Ha _ _ _]. unfold load, append_slots, entry_info, slot_values. cbn [fst snd sa_a sa_x sa_s sa_b sa_n sa_c].
  by rewrite Hp, He, Ha, map_app, set_slots_app.
Qed.

Lemma load_infos st e : (load st e).1 = if sa_x e then st.1 else <[be_val (sa_a e) := entry_info e]> st.1.
Proof. done. Qed.

Lemma loadable_snoc st l e :
  loadable st l -> (sa_x e = true -> is_Some ((foldl load st l).1 !! be_val (sa_a e))) -> loadable st (l ++ [e]).
Proof.
  intros Hl He l1 e' l2 E Hx. destruct l2 as [|x l2 _] using rev_ind.
  - apply app_inj_tail in E as [-> ->]. by apply He.
  - rewrite app_comm_cons, app_assoc in E. apply app_inj_tail in E as [E _]. by eapply Hl.
Qed.

Lemma loadable_app st l l' : loadable st (l ++ l') -> loadable st l /\ loadable (foldl load st l) l'.
Proof.
  intros H. split.
  - intros l1 e l2 -> Hx. apply (H l1 e (l2 ++ l')); [|done]. by rewrite <-app_assoc.
  - intros l1 e l2 -> Hx. rewrite <-foldl_app. apply (H (l ++ l1) e l2); [|done]. by rewrite <-app_assoc.
Qed.

(** Reading entries one by one is reading the accounts they are merged to. *)
Lemma load_merge st l :
  Forall whole (merge_entries l) -> foldl load st l = foldl load st (merge_entries l) /\ loadable st l.
Proof.
  induction l as [|e l IH] using rev_ind; [split; [done|intros [] ? ?; done]|].
  rewrite merge_snoc, foldl_app. cbn [foldl].
  destruct (merge_step_cases (merge_entries l) e) as [->|(X & p & E & Hx & Ha & ->)]; intros Hw.
  - apply Forall_app in Hw as [Hw He]. inversion He as [|? ? He' _]. destruct (IH Hw) as [E Hl].
    rewrite foldl_app, E. split; [done|]. apply loadable_snoc; [done|]. unfold whole in He'. congruence.
  - apply Forall_app in Hw as [Hw He]. inversion He as [|? ? He' _]. cbn in He'.
    destruct IH as [E' Hl]; [rewrite E; apply Forall_app; split; [done|by constructor]|].
    rewrite E, foldl_app in E'. cbn [foldl] in E'. rewrite foldl_app. cbn [foldl].
    rewrite load_append by done. split; [by f_equal|].
    apply loadable_snoc; [done|]. intros _. rewrite E'. unfold load. cbn. unfold whole in He'. cbn in He'. injection Ha as Ha _ _ _. rewrite He', Ha.
    rewrite lookup_insert_eq. by eexists.
Qed.

(** ** The changes of a chunk *)

Definition chunk_accounts (l : list SnapAccount) : list (Address * option AccountInfo) :=
  flat_map (fun e => if sa_x e then [] else [(be_val (sa_a e), Some (entry_info e))]) l.

Definition chunk_storage (l : list SnapAccount) : list PlainStorageChangeset :=
  flat_map (fun e => if bool_decide (slot_values (sa_s e) = []) then []
                     else [mkStorageChange (be_val (sa_a e)) false (slot_values (sa_s e))]) l.

Lemma collect_slots l :
  Forall (fun kv : bytes * bytes => length kv.1 = 32%nat /\ length kv.2 = 32%nat) l -> collect snapshot_slot l = Ok (slot_values l).
Proof.
  induction 1 as [|kv l [H1 H2] _ IH]; [done|]. cbn [collect]. unfold snapshot_slot at 1. rewrite H1, H2. cbn.
  by rewrite IH.
Qed.

Lemma snapshot_entries l accs stos :
  Forall entry_typed l ->
  try_fold snapshot_entry l (mkChangeset accs stos []) = Ok (mkChangeset (accs ++ chunk_accounts l) (stos ++ chunk_storage l) []).
Proof.
  intros H. revert accs stos. induction H as [|e l He _ IH]; intros accs stos; [cbn; by rewrite !app_nil_r|].
  destruct He. cbn [try_fold]. unfold snapshot_entry at 1. rewrite et_a0, et_b0, et_c0. cbn -[slot_values].
  rewrite collect_slots by done. cbn -[slot_values]. rewrite IH. f_equal. f_equal.
  - destruct (sa_x e); [done|]. by rewrite <-app_assoc.
  - case_bool_decide; [done|]. by rewrite <-app_assoc.
Qed.

Lemma foldl_load_slots l st : (foldl load st l).2 = changes_slots (chunk_storage l) st.2.
Proof.
  revert st. induction l as [|e l IH]; intros st; [done|]. cbn [foldl]. rewrite IH. unfold chunk_storage. cbn [flat_map].
  fold (chunk_storage l). unfold changes_slots. rewrite foldl_app. f_equal. unfold load. cbn [snd].
  case_bool_decide as E; [by rewrite E|]. done.
Qed.

Section facts.
Context `{K : Keccak} `{!KeccakLaws K} `{!KeccakInj K}.
Context `{SR : StateRlp} `{!StateRlpLaws SR}.
Context `{T : TrieOps} `{TL : !TrieLaws T}.
Context `{Sh : Sha256} `{R : HeaderRlp}.
Context `{CA : DagCbor (list SnapAccount)} `{!DagCborLaws (list SnapAccount)}.
Context `{CC : DagCbor (list bytes)} `{!DagCborLaws (list bytes)}.
Context `{CR : DagCbor SnapshotRoot} `{!DagCborLaws SnapshotRoot}.

Lemma chunk_changes_some l a i : changed_map (chunk_accounts l) !! a = Some i -> exists x, i = Some x.
Proof.
  intros (e & _ & Hin)%elem_of_changed_map%list_elem_of_In%in_flat_map.
  destruct (sa_x e); [done|]. destruct Hin as [[= <- <-]|[]]. by eexists.
Qed.

Lemma foldl_load_infos l st a :
  (foldl load st l).1 !! a = match changed_map (chunk_accounts l) !! a with Some i => i | None => st.1 !! a end.
Proof.
  induction l as [|e l IH] using rev_ind; [done|]. rewrite foldl_app. cbn [foldl]. unfold chunk_accounts. rewrite flat_map_app.
  fold (chunk_accounts l). unfold changed_map. rewrite foldl_app. fold (changed_map (chunk_accounts l)).
  rewrite load_infos. cbn [flat_map]. destruct (sa_x e); [cbn; by rewrite IH|]. cbn.
  destruct (decide (be_val (sa_a e) = a)) as [<-|Hne]; [by rewrite !lookup_insert_eq|].
  rewrite !lookup_insert_ne by done. by rewrite IH.
Qed.

Lemma changed_none_prefix l1 l2 a :
  changed_map (chunk_accounts (l1 ++ l2)) !! a = None -> changed_map (chunk_accounts l1) !! a = None.
Proof.
  unfold chunk_accounts. rewrite flat_map_app. fold (chunk_accounts l1) (chunk_accounts l2). unfold changed_map. rewrite foldl_app.
  fold (changed_map (chunk_accounts l1)). generalize (changed_map (chunk_accounts l1)). generalize (chunk_accounts l2).
  intros l. induction l as [|kv l IH]; intros m; [done|]. cbn [foldl]. intros H%IH. by apply lookup_insert_None in H as [? _].
Qed.

(** A chunk changes the storage of loaded accounts only. *)
Lemma chunk_touched l st a :
  loadable st l -> touched (mkChangeset (chunk_accounts l) (chunk_storage l) []) a ->
  changed_map (chunk_accounts l) !! a = None -> is_Some (st.1 !! a).
Proof.
  intros Hl (s & Hs & -> & _) Hn. cbn in Hs. apply list_elem_of_In, in_flat_map in Hs as (e & He & Hs).
  case_bool_decide; [done|]. destruct Hs as [<-|[]]. cbn in Hn |- *. apply list_elem_of_In, list_elem_of_split in He as (l1 & l2 & ->).
  destruct (sa_x e) eqn:Hx.
  - destruct (Hl l1 e l2 eq_refl Hx) as [i Hi]. rewrite foldl_load_infos in Hi.
    by rewrite (changed_none_prefix l1 (e :: l2)) in Hi by done.
  - rewrite cons_middle, app_assoc in Hn. apply changed_none_prefix in Hn. unfold chunk_accounts in Hn. rewrite flat_map_app in Hn.
    cbn in Hn. rewrite Hx in Hn. unfold changed_map in Hn. rewrite foldl_app in Hn. cbn in Hn. by rewrite lookup_insert_eq in Hn.
Qed.

(** ** Applying chunks *)

Lemma chunk_typed l : Forall entry_typed l -> changes_typed (mkChangeset (chunk_accounts l) (chunk_storage l) []).
Proof.
  intros H. split; cbn; induction H as [|e l He _ IH]; cbn [chunk_accounts chunk_storage flat_map]; try by constructor.
  - destruct He. destruct (sa_x e); [done|]. by constructor.
  - destruct He. case_bool_decide; [done|]. by constructor.
Qed.

Lemma apply_chunk l t :
  wf t -> Forall entry_typed l -> loadable (flat t) l ->
  exists t', apply_snapshot_accounts (to_vec l) t = Ok (root_of (acc_content (accounts t')), t')
    /\ wf t' /\ flat t' = foldl load (flat t) l /\ Store.codes t' = Store.codes t.
Proof.
  intros Hwf Hl Hload. unfold apply_snapshot_accounts, decode_accounts. rewrite from_to_vec. cbn [ok_or].
  rewrite snapshot_entries by done. cbn [result_bind app].
  destruct (apply_changes_ok _ t Hwf (chunk_typed l Hl)) as (t' & E & Hwf' & Hap).
  exists t'. split; [exact E|]. split; [done|]. destruct Hap. cbn in *. split; [|done].
  unfold flat at 1. rewrite (surjective_pairing (foldl load (flat t) l)). f_equal; apply map_eq.
  - intros a. rewrite foldl_load_infos. cbn [flat fst]. destruct (changed_map (chunk_accounts l) !! a) as [i|] eqn:Ea; [by apply ap_changed|].
    destruct (infos_of t !! a) as [i|] eqn:Ei; [by apply ap_kept|]. apply ap_absent; [done|done|].
    intros [i Hi]%(chunk_touched l (flat t)); [|done|done]. cbn in Hi. congruence.
  - intros [a s]. rewrite ap_slots, foldl_load_slots, decide_False; [done|].
    intros [x Hx]%chunk_changes_some. done.
Qed.

Lemma apply_chunks chunks t root :
  wf t -> root = root_of (acc_content (accounts t)) -> Forall entry_typed (concat chunks) -> loadable (flat t) (concat chunks) ->
  exists t', try_fold (fun chunk st => apply_snapshot_accounts chunk st.2) (map to_vec chunks) (root, t)
             = Ok (root_of (acc_content (accounts t')), t')
    /\ wf t' /\ flat t' = foldl load (flat t) (concat chunks) /\ Store.codes t' = Store.codes t.
Proof.
  revert t root. induction chunks as [|l chunks IH]; intros t root Hwf -> Ht Hl; [by exists t|].
  cbn [concat] in *. apply Forall_app in Ht as [Ht1 Ht2]. apply loadable_app in Hl as [Hl1 Hl2].
  destruct (apply_chunk l t Hwf Ht1 Hl1) as (t1 & E1 & Hwf1 & Ef1 & Ec1).
  destruct (IH t1 _ Hwf1 eq_refl Ht2) as (t2 & E2 & Hwf2 & Ef2 & Ec2); [by rewrite Ef1|].
  exists t2. cbn [map try_fold snd]. rewrite E1. cbn [result_bind]. split; [exact E2|]. split; [done|].
  rewrite foldl_app, <-Ef1. split; [done|congruence].
Qed.

Lemma reset_wf t : wf (reset_state t).
Proof.
  split; cbn.
  - split; cbn; intros ? **; simplify_map_eq.
  - intros ? **; simplify_map_eq.
  - intros ? **; simplify_map_eq.
  - intros a _. unfold storage_nodes. cbn. rewrite lookup_empty. cbn. rewrite sto_content_empty; [by rewrite nodes_of_empty|].
    intros s. by simplify_map_eq.
  - unfold acc_content. by rewrite hmap_empty, nodes_of_empty.
Qed.

Lemma reset_flat t : flat (reset_state t) = (∅, ∅).
Proof. unfold flat, infos_of. cbn. by rewrite fmap_empty. Qed.

(** ** What the builder is given *)

Definition slot_bytes (l : list (B256 * Z)) : list (bytes * bytes) := map (fun sv => (be_bytes 32 sv.1, be_bytes 32 sv.2)) l.

Definition account_entry (t : StateTables) (kv : Address * Account) : SnapAccount :=
  mkSnapAccount (be_bytes 20 kv.1) (acc_nonce kv.2) (be_bytes 32 (acc_balance kv.2)) (be_bytes 32 (acc_code_hash kv.2))
    (slot_bytes (slots_of kv.1 t)) false.

(** Tables a snapshot can be taken of: numbers within their types, and a code for every hash. *)
Record snapshot_ready (t : StateTables) : Prop := {
  sn_wf : wf t;
  sn_range a acc : accounts t !! a = Some acc -> in_range 256 (acc_balance acc) /\ in_range 256 (acc_code_hash acc);
  sn_code a acc : accounts t !! a = Some acc -> acc_code_hash acc <> KECCAK_EMPTY ->
    exists code, Store.codes t !! acc_code_hash acc = Some code /\ keccak256 code = acc_code_hash acc;
}.

Lemma slots_of_values t a s v :
  wf t -> (s, v) ∈ slots_of a t -> storage t !! (a, s) = Some v /\ in_range 256 s /\ in_range 256 v /\ v <> 0.
Proof.
  intros Hwf Hin. rewrite slots_of_perm in Hin. apply elem_of_map_to_list in Hin. rewrite lookup_slots_at in Hin.
  split; [done|]. by apply (t_slot t (wf_typed t Hwf)) in Hin as (_ & ? & ? & ?).
Qed.

Lemma slot_values_bytes t a : wf t -> slot_values (slot_bytes (slots_of a t)) = slots_of a t.
Proof.
  intros Hwf. unfold slot_values, slot_bytes. rewrite map_map. rewrite <-(map_id (slots_of a t)) at 2.
  apply map_ext_in. intros [s v] Hin%list_elem_of_In. apply slots_of_values in Hin as (_ & Hs & Hv & _); [|done].
  cbn [fst snd]. by rewrite !be_val_bytes_small by done.
Qed.

Lemma account_entry_typed t a acc :
  snapshot_ready t -> accounts t !! a = Some acc -> entry_typed (account_entry t (a, acc)).
Proof.
  intros [Hwf Hr _] Ha. pose proof (t_account t (wf_typed t Hwf) a acc Ha) as Hra.
  split; cbn [account_entry sa_a sa_b sa_c sa_s fst snd]; rewrite ?be_bytes_length, ?be_val_bytes_small by done; try done.
  - apply Forall_forall. intros kv (sv & <- & _)%list_elem_of_In%in_map_iff. cbn [fst snd]. by rewrite !be_bytes_length.
  - rewrite slot_values_bytes by done. apply Forall_forall. intros [s v] Hin.
    by apply slots_of_values in Hin as (_ & ? & ? & _).
Qed.

Lemma lookup_slots_set a l m s :
  NoDup l.*1 -> Forall (fun kv => kv.2 <> 0) l ->
  set_slots a l m !! (a, s) = match (list_to_map l : gmap Z Z) !! s with Some v => Some v | None => m !! (a, s) end.
Proof.
  intros Hnd Hv. revert m Hnd. induction Hv as [|[s0 v] l Hv0 _ IH]; intros m Hnd; [by rewrite list_to_map_nil, lookup_empty|].
  apply NoDup_cons in Hnd as [Hs0 Hnd]. change (set_slots a ((s0, v) :: l) m) with (set_slots a l (set_slot a s0 v m)).
  rewrite IH by done. rewrite lookup_set_slot. cbn in Hv0, Hs0 |- *. replace (v =? 0) with false by lia.
  destruct (decide (s = s0)) as [->|Hne].
  - rewrite lookup_insert_eq, decide_True by done. by rewrite (not_elem_of_list_to_map_1 l s0) by done.
  - rewrite lookup_insert_ne by done. destruct (list_to_map l !! s); [done|]. by rewrite decide_False by congruence.
Qed.

Lemma load_account t a acc st :
  snapshot_ready t -> accounts t !! a = Some acc ->
  (load st (account_entry t (a, acc))).1 = <[a := info_of acc]> st.1
  /\ forall b s, (load st (account_entry t (a, acc))).2 !! (b, s)
      = if decide (b = a) then match storage t !! (a, s) with Some v => Some v | None => st.2 !! (a, s) end else st.2 !! (b, s).
Proof.
  intros Hr Ha. pose proof (t_account t (wf_typed t (sn_wf t Hr)) a acc Ha) as Hra. destruct (sn_range t Hr a acc Ha) as [Hb Hc].
  unfold load, account_entry. cbn [sa_x sa_a sa_s fst snd]. rewrite be_val_bytes_small by done. split.
  - unfold entry_info. cbn [sa_b sa_n sa_c]. by rewrite !be_val_bytes_small by done.
  - intros b s. rewrite slot_values_bytes by apply Hr. case_decide as E; [subst b|by apply set_slots_other].
    rewrite lookup_slots_set.
    + rewrite (list_to_map_proper _ (map_to_list (slots_at (storage t) a))), list_to_map_to_list, lookup_slots_at; [done| |apply slots_of_perm].
      rewrite slots_of_perm. apply NoDup_fst_map_to_list.
    + rewrite slots_of_perm. apply NoDup_fst_map_to_list.
    + apply Forall_forall. intros [s' v] Hin. by apply slots_of_values in Hin as (_ & _ & _ & ?); [|apply Hr].
Qed.

Lemma load_accounts t l st :
  snapshot_ready t -> NoDup l.*1 -> Forall (fun kv => accounts t !! kv.1 = Some kv.2) l ->
  (forall a, (foldl load st (map (account_entry t) l)).1 !! a
     = match (list_to_map l : gmap Z Account) !! a with Some acc => Some (info_of acc) | None => st.1 !! a end)
  /\ (forall a s, (foldl load st (map (account_entry t) l)).2 !! (a, s)
     = if decide (a ∈ l.*1) then match storage t !! (a, s) with Some v => Some v | None => st.2 !! (a, s) end
       else st.2 !! (a, s)).
Proof.
  intros Hr Hnd Hl. revert st Hnd. induction Hl as [|[a0 acc] l Ha _ IH]; intros st Hnd.
  { split; [intros a; by rewrite list_to_map_nil, lookup_empty|]. intros a s. rewrite decide_False; [done|]. by intros ?%elem_of_nil. }
  apply NoDup_cons in Hnd as [Ha0 Hnd]. cbn [map foldl]. cbn in Ha, Ha0.
  destruct (load_account t a0 acc st Hr Ha) as [Ei Es].
  destruct (IH (load st (account_entry t (a0, acc))) Hnd) as [Hi Hs]. split.
  - intros a. rewrite Hi, Ei. cbn. destruct (decide (a = a0)) as [->|Hne].
    + rewrite !lookup_insert_eq. by rewrite (not_elem_of_list_to_map_1 l a0) by done.
    + by rewrite !lookup_insert_ne by done.
  - intros a s. rewrite Hs, Es. cbn [fmap list_fmap fst]. destruct (decide (a = a0)) as [->|Hne].
    + rewrite decide_False by done. by rewrite decide_True by left.
    + apply decide_ext. rewrite elem_of_cons. split; [by right|by intros [?|?]].
Qed.

(** The entries of all accounts are the flat state. *)
Lemma load_all t : snapshot_ready t -> foldl load (∅, ∅) (map (account_entry t) (btree_list (accounts t))) = flat t.
Proof.
  intros Hr. destruct (load_accounts t (btree_list (accounts t)) (∅, ∅) Hr) as [Hi Hs].
  { apply NoDup_btree_keys. }
  { apply Forall_forall. intros [a acc] Hin%elem_of_btree_entries. exact Hin. }
  set (F := foldl load _ _) in *. clearbody F. destruct F as [infos slots]. unfold flat. cbn [fst snd] in Hi, Hs. f_equal; apply map_eq.
  - intros a. rewrite Hi, btree_list_to_map. unfold infos_of. rewrite lookup_fmap. by destruct (accounts t !! a).
  - intros [a s]. rewrite Hs, lookup_empty. destruct (storage t !! (a, s)) as [v|] eqn:E; [|by case_decide].
    rewrite decide_True; [done|]. apply elem_of_entry_keys. by eapply wf_owner, E; apply Hr.
Qed.

(** ** What the builder emits *)

Definition account_ops (t : StateTables) : list build_op :=
  map (fun kv => OpAccount (be_bytes 20 kv.1) (acc_nonce kv.2) (be_bytes 32 (acc_balance kv.2)) (be_bytes 32 (acc_code_hash kv.2))
                   (slot_bytes (slots_of kv.1 t))) (btree_list (accounts t)).

Definition code_of (t : StateTables) (h : B256) : bytes := default [] (Store.codes t !! h).

Definition snapshot_ops (t : StateTables) : list build_op :=
  account_ops t ++ map (fun h => OpCode (code_of t h)) (code_hashes t).

Lemma build_accounts_ops t l st :
  foldl (fun st kv => build_account t kv st) st l
  = foldl run_op st (map (fun kv => OpAccount (be_bytes 20 kv.1) (acc_nonce kv.2) (be_bytes 32 (acc_balance kv.2))
                                      (be_bytes 32 (acc_code_hash kv.2)) (slot_bytes (slots_of kv.1 t))) l).
Proof. revert st. induction l as [|[a acc] l IH]; intros st; [done|]. cbn [map foldl]. by rewrite IH. Qed.

Lemma build_codes_ops t hs st :
  Forall (fun h => is_Some (Store.codes t !! h)) hs ->
  build_codes t hs st = (foldl run_op st (map (fun h => OpCode (code_of t h)) hs), Ok ()).
Proof.
  intros H. revert st. induction H as [|h hs [c Hc] _ IH]; intros st; [done|]. cbn [build_codes map foldl]. rewrite Hc, IH.
  unfold code_of. by rewrite Hc.
Qed.

Lemma elem_of_code_hashes t h :
  h ∈ code_hashes t <-> h <> KECCAK_EMPTY /\ exists a acc, accounts t !! a = Some acc /\ acc_code_hash acc = h.
Proof.
  unfold code_hashes. rewrite merge_sort_Permutation, elem_of_elements, elem_of_list_to_set, list_elem_of_filter.
  rewrite list_elem_of_In, in_map_iff. split.
  - intros [Hn ([a acc] & E & Hin%list_elem_of_In%elem_of_btree_entries)]. eauto.
  - intros [Hn (a & acc & Ha & E)]. split; [done|]. exists (a, acc). split; [done|]. by apply list_elem_of_In, elem_of_btree_entries.
Qed.

Lemma code_hashes_known t :
  snapshot_ready t -> Forall (fun h => exists c, Store.codes t !! h = Some c /\ keccak256 c = h) (code_hashes t).
Proof.
  intros Hr. apply Forall_forall. intros h (Hn & a & acc & Ha & <-)%elem_of_code_hashes. by apply (sn_code t Hr a).
Qed.

Lemma ops_accounts_app l l' : ops_accounts (l ++ l') = ops_accounts l ++ ops_accounts l'.
Proof. apply flat_map_app. Qed.

Lemma ops_codes_app l l' : ops_codes (l ++ l') = ops_codes l ++ ops_codes l'.
Proof. apply flat_map_app. Qed.

Lemma ops_accounts_of t : ops_accounts (account_ops t) = map (account_entry t) (btree_list (accounts t)).
Proof.
  unfold ops_accounts, account_ops. induction (btree_list (accounts t)) as [|kv l IH]; [done|].
  cbn [map flat_map app]. rewrite IH. reflexivity.
Qed.

Lemma ops_codes_accounts t : ops_codes (account_ops t) = [].
Proof.
  unfold ops_codes, account_ops. induction (btree_list (accounts t)) as [|kv l IH]; [done|]. cbn [map flat_map app]. exact IH.
Qed.

Lemma ops_accounts_codes t l : ops_accounts (map (fun h => OpCode (code_of t h)) l) = [].
Proof. unfold ops_accounts. induction l as [|h l IH]; [done|]. cbn [map flat_map app]. exact IH. Qed.

Lemma ops_codes_of t l : ops_codes (map (fun h => OpCode (code_of t h)) l) = map (code_of t) l.
Proof. unfold ops_codes. induction l as [|h l IH]; [done|]. cbn [map flat_map app]. by rewrite IH. Qed.

(** The blocks emitted and the root, given by the chunks. *)
Lemma build_snapshot_ok t chain_id header envelope td :
  snapshot_ready t ->
  exists achunks cchunks,
    let snap := mkSnapshotRoot 1 chain_id (hd_number header) (be_bytes 32 (header_hash header)) (be_bytes 32 (hd_state_root header))
                  (be_bytes 32 td) envelope (map (fun c => (cbor_block c).1) achunks) (map (fun c => (cbor_block c).1) cchunks) in
    Snapshot.build_snapshot t chain_id header envelope td
      = ((Snapshot.build_snapshot t chain_id header envelope td).1, Ok (cbor_block snap).1)
    /\ (Snapshot.build_snapshot t chain_id header envelope td).1 ≡ₚ map cbor_block achunks ++ map cbor_block cchunks ++ [cbor_block snap]
    /\ merge_entries (concat achunks) = map (account_entry t) (btree_list (accounts t))
    /\ concat cchunks = map (code_of t) (code_hashes t).
Proof.
  intros Hr. destruct (snapshot_complete (snapshot_ops t)) as (s & out & ac & cc & Eb & Hout & Ha & Hc & Hm & Hcc & _).
  exists ac, cc. cbv zeta. unfold Snapshot.build_snapshot. rewrite build_accounts_ops.
  rewrite build_codes_ops by (eapply Forall_impl; [by apply code_hashes_known|]; intros h (c & Hh & _); by eexists).
  rewrite <-foldl_app. fold (account_ops t). fold (snapshot_ops t). unfold IndexFacts.build_snapshot in Eb.
  destruct (foldl run_op _ _) as [s0 out0]. cbn [fst snd]. destruct (builder_finish s0) as [s1 flushed]. injection Eb as -> <-.
  unfold snapshot_root, SnapshotRoot_to_block. rewrite Ha, Hc. split; [done|]. split; [|split].
  - cbn [fst]. by rewrite app_assoc, Hout, <-app_assoc.
  - rewrite Hm. unfold snapshot_ops. by rewrite ops_accounts_app, ops_accounts_of, ops_accounts_codes, app_nil_r.
  - rewrite Hcc. unfold snapshot_ops. by rewrite ops_codes_app, ops_codes_of, ops_codes_accounts.
Qed.

(** ** Codes *)

Lemma apply_codes (cchunks : list (list bytes)) t :
  try_fold apply_snapshot_codes (map to_vec cchunks) t
  = Ok (set_codes (foldl (fun m code => <[keccak256 code := code]> m) (Store.codes t) (concat cchunks)) t).
Proof.
  revert t. induction cchunks as [|l cchunks IH]; intros t; [by destruct t|].
  cbn [map try_fold concat]. unfold apply_snapshot_codes at 1, decode_codes. rewrite from_to_vec. cbn [ok_or result_bind].
  rewrite IH, foldl_app. done.
Qed.

Lemma lookup_codes (l : list bytes) (m : gmap B256 bytes) c :
  c ∈ l -> Forall (fun c' => keccak256 c' = keccak256 c -> c' = c) l ->
  foldl (fun m code => <[keccak256 code := code]> m) m l !! keccak256 c = Some c.
Proof.
  induction l as [|c' l IH] using rev_ind; [by intros ?%elem_of_nil|]. rewrite foldl_app, Forall_app. cbn [foldl].
  intros Hin [Hl He]. inversion He as [|? ? He' _]. destruct (decide (keccak256 c' = keccak256 c)) as [E|Hne].
  - rewrite E, lookup_insert_eq. f_equal. by apply He'.
  - rewrite lookup_insert_ne by done. apply IH; [|done]. apply elem_of_app in Hin as [?|E%list_elem_of_singleton]; [done|congruence].
Qed.

Lemma restored_codes t (m : gmap B256 bytes) a acc :
  snapshot_ready t -> accounts t !! a = Some acc -> acc_code_hash acc <> KECCAK_EMPTY ->
  foldl (fun m code => <[keccak256 code := code]> m) m (map (code_of t) (code_hashes t)) !! acc_code_hash acc
  = Store.codes t !! acc_code_hash acc.
Proof.
  intros Hr Ha Hn. destruct (sn_code t Hr a acc Ha Hn) as (c & Hc & E). rewrite Hc, <-E.
  pose proof (code_hashes_known t Hr) as Hk. rewrite Forall_forall in Hk. apply lookup_codes.
  - apply list_elem_of_In, in_map_iff. exists (acc_code_hash acc). split; [unfold code_of; by rewrite Hc|].
    apply list_elem_of_In, elem_of_code_hashes. eauto.
  - apply Forall_forall. intros c' (h & <- & Hh)%list_elem_of_In%in_map_iff. apply list_elem_of_In, Hk in Hh as (d & Hd & Ed).
    unfold code_of. rewrite Hd. cbn. intros E'. congruence.
Qed.
End facts.

(** ** The list of roots *)

Lemma read_roots_ok `{CB : CidBytes} `{!CidBytesLaws CB} roots fuel :
  Forall (fun r => (0 < length (cid_to_bytes r) < 256)%nat) roots -> (length roots <= fuel)%nat ->
  read_roots fuel (concat (map (fun r => u8 (Z.of_nat (length (cid_to_bytes r))) :: cid_to_bytes r) roots)) = Ok roots.
Proof.
  intros H. revert fuel. induction H as [|r roots Hr _ IH]; intros fuel Hf; [by destruct fuel|].
  destruct fuel as [|fuel]; cbn [length] in Hf; [lia|]. cbn [map concat app read_roots].
  rewrite wrap_small by (unfold in_range; lia). rewrite length_app.
  replace (_ <? _) with false by (symmetry; apply Z.ltb_ge, Nat2Z.inj_le, Nat.le_add_r).
  rewrite Nat2Z.id, take_app_length, drop_app_length. rewrite <-(app_nil_r (cid_to_bytes r)) at 1.
  rewrite cid_read_to_bytes. cbn [fmap option_fmap option_map fst ok_or result_bind]. rewrite IH by lia. done.
Qed.

(** The roots recorded are the roots read. *)
Lemma snapshot_roots_set `{CB : CidBytes} `{!CidBytesLaws CB} `{A : AlloyTx} `{L : !AlloyReceipt} roots (b : BlockTables) :
  Forall (fun r => (0 < length (cid_to_bytes r) < 256)%nat) roots -> snapshot_roots (set_snapshot_roots roots b) = Ok roots.
Proof.
  intros Hl. unfold snapshot_roots, set_snapshot_roots. cbn [meta_snapshots set_snapshots from_option id]. unfold id. apply read_roots_ok; [done|].
  clear Hl. induction roots as [|r roots IH]; [cbn; lia|]. cbn [map concat]. rewrite length_app. cbn [length] in *. lia.
Qed.
