(* ===== verification/ChainTables.v ===== *)
(** * The block tables of a canonical chain

    The invariant of the block tables ([tables_ok]): consecutive headers linked by their hashes from
    genesis to the head, the index from hashes to heights, the total difficulties, and a finalized
    block that is canonical; and that adding a child of the head and removing the head keep it. *)

From S2P Require Import Prelude Types TxPool Ipld TrieIface Store BlockStore.
From stdpp Require Import base list list_numbers gmap fin_maps strings.
From Stdlib Require Import ZArith Lia.

Open Scope Z_scope.
Open Scope bolt_scope.

Section tables.
Context `{K : Keccak} `{R : HeaderRlp} `{A : AlloyTx} `{L : !AlloyReceipt}.

(** The headers that occur, no two with one hash, and the total difficulty up to the block of a hash:
    the parent's plus the block's own. *)
Class Universe := {
  occurs : BlockHeader -> Prop;
  weight_of : B256 -> Z;
  occurs_inj : forall h1 h2, occurs h1 -> occurs h2 -> header_hash h1 = header_hash h2 -> h1 = h2;
  occurs_number : forall h, occurs h -> 0 <= hd_number h < U64_MAX;
  occurs_weight : forall h, occurs h -> 0 <= weight_of (header_hash h) < 2 ^ 256;
  weight_child : forall h q, occurs h -> occurs q -> header_hash q = hd_parent_hash h -> hd_number h = hd_number q + 1 ->
    weight_of (header_hash h) = weight_of (header_hash q) + hd_difficulty h;
}.

Context {Un : Universe}.

(** A header whose parent is known to occur, one height below. *)
Definition child_of (h q : BlockHeader) : Prop :=
  occurs q /\ header_hash q = hd_parent_hash h /\ hd_number h = hd_number q + 1.

Definition linked (h : BlockHeader) : Prop := occurs h /\ exists q, child_of h q.

Lemma child_weight h q : occurs h -> child_of h q -> weight_of (header_hash h) = weight_of (header_hash q) + hd_difficulty h.
Proof. intros Hh (Hq & E & N). by apply weight_child. Qed.

(** What the invariant reads of the tables. *)
Definition core (b : BlockTables) := (headers b, hash_num b, td b, meta_head b, meta_finalized b).

Record tables_ok (b : BlockTables) : Prop := {
  ok_head : exists n, meta_head b = Some n /\ 0 <= n /\ forall m, is_Some (headers b !! m) <-> 0 <= m <= n;
  ok_header : forall m h, headers b !! m = Some h -> hd_number h = m /\ occurs h;
  ok_link : forall m h h', headers b !! m = Some h -> headers b !! (m + 1) = Some h' -> hd_parent_hash h' = header_hash h;
  ok_hash : forall x m, hash_num b !! x = Some m <-> exists h, headers b !! m = Some h /\ header_hash h = x;
  ok_td : forall m h, headers b !! m = Some h -> td b !! m = Some (weight_of (header_hash h));
  ok_final : forall f x, meta_finalized b = Some (f, x) -> block_hash f b = Some x;
}.

Lemma tables_ok_core b b' : core b' = core b -> tables_ok b -> tables_ok b'.
Proof.
  unfold core. intros [= Eh En Et Em Ef] []. split; unfold block_hash in *; rewrite ?Eh, ?En, ?Et, ?Em, ?Ef; done.
Qed.

Definition tip (b : BlockTables) : Z := default 0 (meta_head b).

(** The head's header, the highest of the table. *)
Lemma tip_header b :
  tables_ok b -> exists h, headers b !! tip b = Some h /\ hd_number h = tip b /\ occurs h /\ meta_head b = Some (tip b)
    /\ 0 <= tip b < U64_MAX /\ forall m, is_Some (headers b !! m) <-> 0 <= m <= tip b.
Proof.
  intros Hb. destruct (ok_head b Hb) as (n & Em & Hn & Hdom). unfold tip. rewrite Em. cbn.
  destruct (proj2 (Hdom n) ltac:(lia)) as [h Eh]. destruct (ok_header b Hb _ _ Eh) as [Hnum Ho].
  pose proof (occurs_number h Ho). exists h. split_and!; try done; try lia; apply Hdom.
Qed.

Lemma finalized_below_tip b f x : tables_ok b -> meta_finalized b = Some (f, x) -> 0 <= f <= tip b.
Proof.
  intros Hb Ef. apply (ok_final b Hb) in Ef. unfold block_hash in Ef.
  destruct (headers b !! f) as [h|] eqn:Eh; [|done].
  destruct (tip_header b Hb) as (_ & _ & _ & _ & _ & _ & Hdom). apply Hdom. by eexists.
Qed.

(** Every canonical block but genesis is the child of the one below. *)
Lemma canonical_linked b m h : tables_ok b -> headers b !! m = Some h -> 0 < m ->
  exists q, headers b !! (m - 1) = Some q /\ child_of h q.
Proof.
  intros Hb Eh Hm. destruct (tip_header b Hb) as (_ & _ & _ & _ & _ & _ & Hdom).
  assert (0 <= m <= tip b) as Hr by (apply Hdom; by eexists).
  destruct (proj2 (Hdom (m - 1)) ltac:(lia)) as [q Eq]. exists q. split; [done|].
  destruct (ok_header b Hb _ _ Eq) as [Nq Oq]. destruct (ok_header b Hb _ _ Eh) as [Nh _].
  split; [done|]. split; [|lia]. symmetry. apply (ok_link b Hb (m - 1)); [done|]. by replace (m - 1 + 1) with m by lia.
Qed.

(** ** Operations that leave the invariant's tables alone *)

Lemma core_foldl {X} (f : BlockTables -> X -> BlockTables) l b :
  (forall b x, core (f b x) = core b) -> core (foldl f b l) = core b.
Proof. intros Hf. revert b. induction l as [|x l IH]; intros b; [done|]. cbn. by rewrite IH. Qed.

Lemma core_put_ipld cid data b : core (put_ipld cid data b) = core b.
Proof. done. Qed.

Lemma core_put_ipld_bundle n root l b : core (put_ipld_bundle n root l b) = core b.
Proof. unfold put_ipld_bundle. change (core (foldl (fun b cd => put_ipld cd.1 cd.2 b) b l) = core b). by apply core_foldl. Qed.

Lemma core_put_pending n h root b : core (put_pending n h root b) = core b.
Proof. done. Qed.

Lemma core_prune_pending n b : core (prune_pending n b) = core b.
Proof. done. Qed.

Lemma core_index_block blk rs b : core (index_block blk rs b) = core b.
Proof. unfold index_block. by apply core_foldl. Qed.

Lemma core_unindex_block blk rs b : core (unindex_block blk rs b) = core b.
Proof. unfold unindex_block. by apply core_foldl. Qed.

(** ** Adding a child of the head *)

Lemma core_put_block blk rs b :
  let n := hd_number (sb_header blk) in
  core (put_block blk rs b)
  = (<[n := sb_header blk]> (headers b), <[header_hash (sb_header blk) := n]> (hash_num b),
     <[n := Z.min ((if n =? 0 then 0 else default 0 (td b !! (n - 1))) + hd_difficulty (sb_header blk)) (2 ^ 256 - 1)]> (td b),
     Some n, meta_finalized b).
Proof. cbv zeta. unfold put_block. cbn. destruct (meta_addr_index b); [by rewrite core_index_block|done]. Qed.

Lemma put_block_ok blk rs b h :
  tables_ok b -> headers b !! tip b = Some h -> occurs (sb_header blk) -> child_of (sb_header blk) h ->
  tables_ok (put_block blk rs b) /\ headers (put_block blk rs b) = <[tip b + 1 := sb_header blk]> (headers b)
  /\ tip (put_block blk rs b) = tip b + 1 /\ meta_finalized (put_block blk rs b) = meta_finalized b.
Proof.
  intros Hb Eh Ho Hc. destruct (tip_header b Hb) as (h' & Eh' & Nh & Oh & Em & Hr & Hdom).
  rewrite Eh in Eh'. injection Eh' as <-. pose proof Hc as (_ & Hp & Nb). rewrite Nh in Nb.
  pose proof (core_put_block blk rs b) as E. cbv zeta in E. rewrite Nb in E.
  set (b' := put_block blk rs b) in *. unfold core in E. injection E as Eh1 En1 Et1 Em1 Ef1.
  assert (headers b !! (tip b + 1) = None) as Hnone.
  { apply eq_None_not_Some. rewrite Hdom. lia. }
  assert (tip b' = tip b + 1) as Htop by (unfold tip; by rewrite Em1).
  split_and!; try done. split.
  - exists (tip b + 1). split_and!; [done|lia|]. intros m. rewrite Eh1.
    destruct (decide (m = tip b + 1)) as [->|Hne].
    + rewrite lookup_insert_eq. split; [lia|by eexists].
    + rewrite lookup_insert_ne by done. rewrite Hdom. lia.
  - intros m x. rewrite Eh1. intros [[<- <-]|[_ Hx]]%lookup_insert_Some; [done|by apply (ok_header b Hb)].
  - intros m x y. rewrite Eh1. intros Hx Hy. apply lookup_insert_Some in Hx as [[<- _]|[Hn Hx]].
    { rewrite lookup_insert_ne in Hy by lia. assert (0 <= tip b + 1 + 1 <= tip b) by (apply Hdom; by eexists). lia. }
    apply lookup_insert_Some in Hy as [[En <-]|[_ Hy]].
    + assert (m = tip b) as -> by lia. rewrite Eh in Hx. injection Hx as <-. by symmetry.
    + by eapply (ok_link b Hb).
  - intros x m. rewrite En1, Eh1. split.
    + intros [[<- <-]|[Hne Hx]]%lookup_insert_Some; [eexists; by rewrite lookup_insert_eq|].
      apply (ok_hash b Hb) in Hx as (y & Hy & Ey). exists y. split; [|done].
      rewrite lookup_insert_ne; [done|]. intros <-. by rewrite Hnone in Hy.
    + intros (y & [[<- <-]|[Hne Hy]]%lookup_insert_Some & Ey); [by rewrite Ey, lookup_insert_eq|].
      rewrite lookup_insert_ne; [apply (ok_hash b Hb); by exists y|]. intros Ex. rewrite <-Ey in Ex.
      apply occurs_inj in Ex; [|done|by apply (ok_header b Hb _ _ Hy)]. subst y.
      destruct (ok_header b Hb _ _ Hy) as [Hm _]. lia.
  - intros m x. rewrite Et1, Eh1. intros [[<- <-]|[Hne Hx]]%lookup_insert_Some.
    + rewrite lookup_insert_eq. f_equal. replace (tip b + 1 =? 0) with false by lia.
      replace (tip b + 1 - 1) with (tip b) by lia. rewrite (ok_td b Hb _ _ Eh). cbn [default].
      rewrite (child_weight _ _ Ho Hc). pose proof (occurs_weight _ Ho) as Hw. rewrite (child_weight _ _ Ho Hc) in Hw. cbn. lia.
    + rewrite lookup_insert_ne by done. by apply (ok_td b Hb).
  - intros f x. rewrite Ef1. intros Hf. pose proof (finalized_below_tip b f x Hb Hf). apply (ok_final b Hb) in Hf.
    unfold block_hash in *. rewrite Eh1, lookup_insert_ne by lia. done.
Qed.

(** ** Removing the head *)

Lemma core_remove_head n b blk b' :
  remove_head_block n b = Ok (blk, b') ->
  headers b !! n = Some (sb_header blk)
  /\ core b' = (delete n (headers b), delete (header_hash (sb_header blk)) (hash_num b), delete n (td b),
                (if n =? 0 then None else Some (n - 1)), meta_finalized b).
Proof.
  unfold remove_head_block. destruct (BlockStore.block n b) as [blk'|] eqn:Eb; [|done]. cbn [ok_or result_bind].
  intros E. assert (blk' = blk) as -> by (by injection E). injection E as <-. split.
  - unfold BlockStore.block in Eb. destruct (headers b !! n) as [h|] eqn:Eh; [|done]. cbn in Eb.
    destruct (bodies b !! n); [|case_bool_decide; [|done]]; by injection Eb as <-.
  - destruct (meta_addr_index b); [|done].
    pose proof (core_unindex_block blk (default [] (receipts b !! n)) b) as Hu. unfold core in *.
    injection Hu as E1 E2 E3 _ E5. cbn. by rewrite E1, E2, E3, E5.
Qed.

Lemma remove_head_ok b blk b' :
  tables_ok b -> 0 < tip b -> (forall f x, meta_finalized b = Some (f, x) -> f < tip b) ->
  remove_head_block (tip b) b = Ok (blk, b') ->
  tables_ok b' /\ headers b !! tip b = Some (sb_header blk) /\ headers b' = delete (tip b) (headers b)
  /\ tip b' = tip b - 1 /\ meta_finalized b' = meta_finalized b.
Proof.
  intros Hb Ht Hf E. apply core_remove_head in E as [Eh E]. unfold core in E. injection E as Eh1 En1 Et1 Em1 Ef1.
  replace (tip b =? 0) with false in Em1 by lia. destruct (tip_header b Hb) as (h & Eh' & Nh & Oh & _ & _ & Hdom).
  rewrite Eh in Eh'. injection Eh' as <-.
  assert (tip b' = tip b - 1) as Htop by (unfold tip at 1; by rewrite Em1).
  split_and!; try done. split.
  - exists (tip b - 1). split_and!; [done|lia|]. intros m. rewrite Eh1. destruct (decide (m = tip b)) as [->|Hne].
    + rewrite lookup_delete_eq. split; [by intros []|lia].
    + rewrite lookup_delete_ne by done. rewrite Hdom. lia.
  - intros m x. rewrite Eh1. intros [_ Hx]%lookup_delete_Some. by apply (ok_header b Hb).
  - intros m x y. rewrite Eh1. intros [_ Hx]%lookup_delete_Some [_ Hy]%lookup_delete_Some. by eapply (ok_link b Hb).
  - intros x m. rewrite En1, Eh1. rewrite lookup_delete_Some, (ok_hash b Hb). split.
    + intros [Hne (y & Hy & Ey)]. exists y. split; [|done]. apply lookup_delete_Some. split; [|done].
      intros <-. rewrite Eh in Hy. injection Hy as <-. done.
    + intros (y & [Hne Hy]%lookup_delete_Some & Ey). split; [|by exists y]. intros Ex. rewrite <-Ey in Ex.
      apply occurs_inj in Ex; [|done|by apply (ok_header b Hb _ _ Hy)]. subst y.
      destruct (ok_header b Hb _ _ Hy). lia.
  - intros m x. rewrite Et1, Eh1. intros [Hne Hx]%lookup_delete_Some. rewrite lookup_delete_ne by done.
    by apply (ok_td b Hb).
  - intros f x. rewrite Ef1. intros Hfx. pose proof (Hf _ _ Hfx). apply (ok_final b Hb) in Hfx.
    unfold block_hash in *. rewrite Eh1, lookup_delete_ne by lia. done.
Qed.

(** ** Finalizing *)

Lemma set_finalized_ok f x b :
  tables_ok b -> block_hash f b = Some x -> tables_ok (set_finalized f x b).
Proof. intros [] Hx. split; try done. intros g y. cbn. by intros [= <- <-]. Qed.

(** ** Genesis *)

Definition Blocks_empty : BlockTables := mkBlocks ∅ ∅ ∅ ∅ ∅ ∅ ∅ ∅ ∅ ∅ ∅ None None None None None.

(** The genesis header: height 0, and its own difficulty is the total. *)
Definition genesis_ok (g : BlockHeader) : Prop :=
  occurs g /\ hd_number g = 0 /\ weight_of (header_hash g) = hd_difficulty g.

Lemma genesis_tables_ok g blk rs root l :
  genesis_ok g -> sb_header blk = g -> tables_ok (put_block blk rs (put_ipld_bundle 0 root l Blocks_empty)).
Proof.
  intros (Ho & Hn & Hw) Hg. set (b0 := put_ipld_bundle _ _ _ _). assert (core b0 = core Blocks_empty) as E0 by apply core_put_ipld_bundle.
  pose proof (core_put_block blk rs b0) as E. cbv zeta in E. rewrite Hg, Hn in E. set (b := put_block _ _ _) in *.
  unfold core in *. injection E0 as Eh0 En0 Et0 _ Ef0. injection E as Eh En Et Em Ef. rewrite Eh0 in Eh. rewrite En0 in En.
  rewrite Et0 in Et. rewrite Ef0 in Ef. cbn in Et.
  rewrite insert_empty in Eh. rewrite insert_empty in En. rewrite insert_empty in Et.
  pose proof (occurs_weight g Ho) as Hr. rewrite Hw in Hr. split.
  - exists 0. split_and!; [done|lia|]. intros m. rewrite Eh. split.
    + intros [x Hx]. apply lookup_singleton_Some in Hx. lia.
    + intros Hm. exists g. apply lookup_singleton_Some. split; [lia|done].
  - intros m h. rewrite Eh. intros [<- <-]%lookup_singleton_Some. done.
  - intros m h h'. rewrite Eh. intros [<- _]%lookup_singleton_Some [? _]%lookup_singleton_Some. done.
  - intros x m. rewrite En, Eh. split.
    + intros [<- <-]%lookup_singleton_Some. exists g. by rewrite lookup_singleton_eq.
    + intros (h & [<- <-]%lookup_singleton_Some & <-). by rewrite lookup_singleton_eq.
  - intros m h. rewrite Et, Eh. intros [<- <-]%lookup_singleton_Some. rewrite lookup_singleton_eq, Hw. f_equal. lia.
  - intros f x. by rewrite Ef.
Qed.

(** The total difficulty of a height is the sum of the difficulties up to it. *)
Fixpoint difficulty_sum (b : BlockTables) (n : nat) : Z :=
  match n with
  | O => match headers b !! 0 with Some h => hd_difficulty h | None => 0 end
  | S m => difficulty_sum b m + match headers b !! Z.of_nat n with Some h => hd_difficulty h | None => 0 end
  end.

Lemma weight_sum b g : tables_ok b -> headers b !! 0 = Some g -> weight_of (header_hash g) = hd_difficulty g ->
  forall n h, headers b !! Z.of_nat n = Some h -> weight_of (header_hash h) = difficulty_sum b n.
Proof.
  intros Hb Eg Hw. induction n as [|n IH]; intros h Eh.
  - change (Z.of_nat 0) with 0 in Eh. rewrite Eg in Eh. injection Eh as <-. cbn [difficulty_sum]. by rewrite Eg.
  - destruct (canonical_linked b _ _ Hb Eh ltac:(lia)) as (q & Eq & Hq).
    replace (Z.of_nat (S n) - 1) with (Z.of_nat n) in Eq by lia.
    rewrite (child_weight h q); [|by apply (ok_header b Hb _ _ Eh)|done]. rewrite (IH q Eq).
    cbn [difficulty_sum]. by rewrite Eh.
Qed.
End tables.
