(* ===== verification/BlockCerts.v ===== *)
(** * Certificates carried by blocks

    Models the checks of crates/chain/src/lib.rs on the certificates in a block's envelope:
    storage audits, compute verdicts and attestation results ([check_audits]) and the checkpoint
    certificate of a mined block ([check_checkpoint_cert]).  What they read from the system
    contracts of the parent state are queries ([SystemQueries]); the dag-cbor codecs are
    parameters. *)

From S2P Require Import Prelude Types Bls AuditCerts Forks Committee Epochs TxPool Ipld Store Overlay.
From stdpp Require Import base list list_numbers gmap fin_maps strings.
From Stdlib Require Import ZArith Lia.

Open Scope Z_scope.
Open Scope bolt_scope.

(** Errors of the chain.  [EAbort] is not one of the code's: it stands for a panic. *)
Inductive ChainError :=
  | EStore (e : StoreError)
  | EExec (what : string)
  | EInvalidBlock (what : string)
  | EUnknownParent (hash : B256)
  | EDeepReorg (what : string)
  | EGenesisMismatch
  | EAbort.

(** A committee as [queries::committee_at] returns it: the number of members, the seats and the
    members' keys. *)
Record CommitteeView := mkCommitteeView {
  cv_members : nat;
  cv_seats : list Z;
  cv_pubkeys : list BlsPublicKey;
}.

(** The queries of crates/system/src/queries.rs: calls of the system contracts through the EVM, over the
    state a view [V] gives.  An error is a message.  [q_keys] is [StakingManager.keysOf]'s
    concatenated keys; [q_audits] the panel and the states of an epoch's tasks. *)
Class SystemQueries (V : Type) := {
  q_phase : V -> result string Phase;
  q_request_count : V -> result string Z;
  q_request : V -> Z -> result string (Z * Z);          (** state, epoch *)
  q_attest_panel : V -> Z -> result string (list Z);
  q_keys : V -> list Z -> result string bytes;
  q_dispute_epoch : V -> Z -> result string Z;
  q_job_state : V -> Z -> result string Z;
  q_verdict_panel : V -> Z -> result string (list Z);
  q_audits : V -> Z -> result string (list Z * list Z);
  q_committee_at : V -> Z -> result string (option CommitteeView);
}.

Definition query {A} (r : result string A) : result ChainError A :=
  match r with Ok a => Ok a | Err e => Err (EExec e) end.

Definition lift_outcome {A} (o : outcome A) : result ChainError A :=
  match o with Done a => Ok a | _ => Err EAbort end.

(** [pubkeys.chunks_exact(48).map(from_slice)]. *)
Definition keys_of_bytes (b : bytes) : list BlsPublicKey :=
  filter (fun c => length c = 48%nat) (chunks 48 b).

Record AuditResult := mkAuditResult { ar_epoch : Z; ar_task : Z; ar_passed : bool }.

(** The results of the certificates checked so far, and those kept. *)
Record Checked := mkChecked {
  ck_results : list AuditResult;
  ck_verdicts : list (Z * bool);
  ck_attests : list (Z * bool * bytes);
  ck_kept : list bytes;
}.

Definition Checked_new : Checked := mkChecked [] [] [] [].

Section certs.
Context `{B : Blst} {V : Type} `{Q : !SystemQueries V}.
Context `{DA : DagCbor AuditCert} `{DV : DagCbor VerdictCert} `{DT : DagCbor AttestCert} `{FC : ForkCode}.
Variables (chain_id : Z) (rules : EpochRules).

Definition fetch_keys (db : V) (ids : list Z) : result ChainError (list BlsPublicKey) :=
  if bool_decide (length ids = 0%nat) then Ok []
  else b <-? query (q_keys db ids); Ok (keys_of_bytes b).

(** A panel fetched once per epoch. *)
Definition cached_panel (panel : V -> Z -> result string (list Z)) (db : V) (epoch : Z)
    (panels : gmap Z (list BlsPublicKey)) : result ChainError (list BlsPublicKey * gmap Z (list BlsPublicKey)) :=
  match panels !! epoch with
  | Some keys => Ok (keys, panels)
  | None =>
      ids <-? query (panel db epoch);
      keys <-? fetch_keys db ids;
      Ok (keys, <[epoch := keys]> panels)
  end.

Abbreviation Panels := (gmap Z (list BlsPublicKey)) (only parsing).

(** Whether an attestation request still waits and is assigned to the certificate's epoch. *)
Definition attest_pending (db : V) (tee_on : bool) (c : AttestCert) (attests : list (Z * bool * bytes))
    : result ChainError bool :=
  if negb (tee_on && negb (existsb (fun r => r.1.1 =? tc_request c) attests)) then Ok false
  else
    n <-? query (q_request_count db);
    if negb (negb (tc_request c =? 0) && (tc_request c <=? n)) then Ok false
    else
      r <-? query (q_request db (tc_request c));
      Ok ((r.1 =? 1) && (r.2 =? tc_cert_epoch c) && negb (r.2 =? 0)).

Definition check_attest (db : V) (tee_on strict : bool) (raw : bytes) (c : AttestCert) (st : Checked * Panels)
    : result ChainError (Checked * Panels) :=
  let '(ck, panels) := st in
  ok <-? attest_pending db tee_on c (ck_attests ck);
  pp <-? (if ok : bool then cached_panel q_attest_panel db (tc_cert_epoch c) panels else Ok ([], panels));
  let '(panel, panels) := pp in
  if ok && AttestCert_verify c chain_id panel then
    Ok (mkChecked (ck_results ck) (ck_verdicts ck)
          (ck_attests ck ++ [(tc_request c, tc_ok c, AttestCert_machine_id c)]) (ck_kept ck ++ [raw]), panels)
  else if strict then Err (EInvalidBlock "invalid attestation certificate")
  else Ok (ck, panels).

(** Whether a job is disputed and assigned to the certificate's panel.  A failing job query only
    makes the certificate invalid. *)
Definition verdict_pending (db : V) (verdicts_on : bool) (c : VerdictCert) (verdicts : list (Z * bool))
    : result ChainError bool :=
  if negb (verdicts_on && negb (existsb (fun r => r.1 =? vc_job c) verdicts)) then Ok false
  else
    e <-? query (q_dispute_epoch db (vc_job c));
    Ok ((e =? vc_epoch c) && negb (e =? 0)
        && match q_job_state db (vc_job c) with Ok s => s =? 4 | Err _ => false end).

Definition check_verdict (db : V) (verdicts_on strict : bool) (raw : bytes) (c : VerdictCert) (st : Checked * Panels)
    : result ChainError (Checked * Panels) :=
  let '(ck, panels) := st in
  ok <-? verdict_pending db verdicts_on c (ck_verdicts ck);
  pp <-? (if ok : bool then cached_panel q_verdict_panel db (vc_epoch c) panels else Ok ([], panels));
  let '(panel, panels) := pp in
  if ok && VerdictCert_verify c chain_id panel then
    Ok (mkChecked (ck_results ck) (ck_verdicts ck ++ [(vc_job c, vc_fault c)]) (ck_attests ck)
          (ck_kept ck ++ [raw]), panels)
  else if strict then Err (EInvalidBlock "invalid verdict certificate")
  else Ok (ck, panels).

(** The first loop: attestations and verdicts are checked, the rest collected. *)
Fixpoint check_panels (db : V) (tee_on verdicts_on strict : bool) (certs rest : list bytes)
    (st : Checked * (Panels * Panels)) : result ChainError (Checked * list bytes) :=
  match certs with
  | [] => Ok (st.1, rest)
  | raw :: certs =>
      let '(ck, (vp, ap)) := st in
      match from_slice (T := AttestCert) raw with
      | Some c =>
          r <-? check_attest db tee_on strict raw c (ck, ap);
          check_panels db tee_on verdicts_on strict certs rest (r.1, (vp, r.2))
      | None =>
          match from_slice (T := VerdictCert) raw with
          | Some c =>
              r <-? check_verdict db verdicts_on strict raw c (ck, vp);
              check_panels db tee_on verdicts_on strict certs rest (r.1, (r.2, ap))
          | None => check_panels db tee_on verdicts_on strict certs (rest ++ [raw]) st
          end
      end
  end.

Definition audit_ok (epoch : Z) (states : list Z) (panel : list BlsPublicKey) (ck : Checked) (c : AuditCert) : bool :=
  (ac_epoch c =? epoch)
  && match states !! Z.to_nat (ac_task c) with Some s => s =? 0 | None => false end
  && negb (existsb (fun r => ar_task r =? ac_task c) (ck_results ck))
  && AuditCert_verify c chain_id panel.

Fixpoint check_storage_audits (epoch : Z) (states : list Z) (panel : list BlsPublicKey) (strict : bool)
    (certs : list bytes) (ck : Checked) : result ChainError Checked :=
  match certs with
  | [] => Ok ck
  | raw :: certs =>
      match from_slice (T := AuditCert) raw with
      | Some c =>
          if audit_ok epoch states panel ck c then
            check_storage_audits epoch states panel strict certs
              (mkChecked (ck_results ck ++ [mkAuditResult (ac_epoch c) (ac_task c) (ac_passed c)]) (ck_verdicts ck)
                 (ck_attests ck) (ck_kept ck ++ [raw]))
          else if strict then Err (EInvalidBlock "invalid audit certificate")
          else check_storage_audits epoch states panel strict certs ck
      | None =>
          if strict then Err (EInvalidBlock "invalid audit certificate")
          else check_storage_audits epoch states panel strict certs ck
      end
  end.

Definition check_audits (db : V) (number : Z) (certs : list bytes) (strict : bool) : result ChainError Checked :=
  if bool_decide (length certs = 0%nat) then Ok Checked_new
  else
    let verdicts_on := active chain_id SWARM number in
    let tee_on := active chain_id TEE number in
    r <-? check_panels db tee_on verdicts_on strict certs [] (Checked_new, (∅, ∅));
    let '(ck, rest) := r in
    if bool_decide (length rest = 0%nat) then Ok ck
    else
      epoch <-? lift_outcome (epoch_of rules number);
      audits <-? query (q_audits db epoch);
      panel <-? fetch_keys db audits.1;
      check_storage_audits epoch audits.2 panel strict rest ck.
End certs.

(** ** The checkpoint certificate of a mined block *)

Section checkpoint.
Context `{B : Blst} {V : Type} `{Q : !SystemQueries V}.
Variables (chain_id : Z) (rules : EpochRules).

(** [decode_cert]: the bytes decode to the same fields whatever keys the scheme has. *)
Class CertCodec := decode_cert : forall s : BlsScheme, bytes -> option (@Cert (bls_scheme s)).

Definition no_keys : BlsScheme := BlsScheme_new [] [].

Definition with_scheme (s : BlsScheme) (q : @Qc (bls_scheme no_keys)) : @Qc (bls_scheme s) :=
  mkQc (H := bls_scheme s) (qc_epoch q) (qc_round q) (qc_block q) (qc_height q) (qc_signers q) (qc_sig q).

Definition check_checkpoint_cert `{C : CertCodec} (db : V) (cert : bytes) (number : Z) (checkpointing : bool)
    : result ChainError () :=
  if negb checkpointing then Err (EInvalidBlock "mined blocks outside phase B carry no certificate")
  else
    match decode_cert no_keys cert with
    | Some (CertQc q) =>
        epoch <-? lift_outcome (epoch_of rules number);
        if is_anchor q || negb (qc_epoch q =? epoch) then Err (EInvalidBlock "checkpoint QC of another epoch")
        else
          c <-? query (q_committee_at db (qc_epoch q));
          c <-? ok_or c (EInvalidBlock "no committee for the epoch");
          let scheme := BlsScheme_new (cv_pubkeys c) [] in
          set <-? lift_outcome (ValidatorSet.from_seats (cv_members c) (cv_seats c));
          if negb (Qc_verify set chain_id (qc_epoch q) 0 (with_scheme scheme q)) then Err (EInvalidBlock "invalid checkpoint QC")
          else Ok ()
    | _ => Err (EInvalidBlock "a mined block may only carry a checkpoint QC")
    end.
End checkpoint.

(** ** Facts *)

Section facts.
Context `{B : Blst} {V : Type} `{Q : !SystemQueries V}.
Context `{DA : DagCbor AuditCert} `{DV : DagCbor VerdictCert} `{DT : DagCbor AttestCert} `{FC : ForkCode}.
Variables (chain_id : Z) (rules : EpochRules) (db : V).

(** A cache that holds what the queries return. *)
Definition cache_ok (panel : V -> Z -> result string (list Z)) (m : gmap Z (list BlsPublicKey)) : Prop :=
  forall e keys, m !! e = Some keys -> exists ids, panel db e = Ok ids /\ fetch_keys db ids = Ok keys.

Lemma cache_ok_empty panel : cache_ok panel ∅.
Proof. intros e keys H. by rewrite lookup_empty in H. Qed.

Lemma cached_panel_spec panel e m keys m' :
  cache_ok panel m -> cached_panel panel db e m = Ok (keys, m') ->
  cache_ok panel m' /\ forall m2, cache_ok panel m2 ->
    exists m2', cached_panel panel db e m2 = Ok (keys, m2') /\ cache_ok panel m2'.
Proof.
  intros Hm E. assert (exists ids, panel db e = Ok ids /\ fetch_keys db ids = Ok keys) as (ids & Ei & Ek).
  { unfold cached_panel in E. destruct (m !! e) as [keys0|] eqn:Em; [injection E as -> _; by apply Hm|].
    destruct (panel db e) as [ids|]; [|done]. cbn in E. destruct (fetch_keys db ids) as [k|] eqn:Ek; [|done].
    injection E as -> _. by exists ids. }
  assert (forall m, cache_ok panel m -> cache_ok panel (<[e := keys]> m)) as Hins.
  { intros m1 H1 e1 k1 [[<- <-]|[_ Hk]]%lookup_insert_Some; [by exists ids|by apply H1]. }
  assert (forall m2, cache_ok panel m2 ->
    exists m2', cached_panel panel db e m2 = Ok (keys, m2') /\ cache_ok panel m2') as Hall.
  { intros m2 H2. unfold cached_panel. destruct (m2 !! e) as [k2|] eqn:E2.
    - destruct (H2 _ _ E2) as (ids2 & Ei2 & Ek2). exists m2. rewrite Ei in Ei2. injection Ei2 as ->.
      rewrite Ek in Ek2. by injection Ek2 as ->.
    - exists (<[e := keys]> m2). rewrite Ei. cbn. rewrite Ek. split; [done|by apply Hins]. }
  split; [|done]. destruct (Hall m Hm) as (m'' & E'' & H''). rewrite E in E''. by injection E'' as ->.
Qed.

(** A certificate is either skipped or recorded; recorded, it passes the strict check from the same
    results, whatever the caches. *)
Definition step_spec (panel : V -> Z -> result string (list Z)) (raw : bytes)
    (check : bool -> Checked * gmap Z (list BlsPublicKey) -> result ChainError (Checked * gmap Z (list BlsPublicKey)))
    (ck : Checked) (m : gmap Z (list BlsPublicKey)) (r : Checked * gmap Z (list BlsPublicKey)) : Prop :=
  cache_ok panel r.2
  /\ (r.1 = ck
      \/ ck_kept r.1 = ck_kept ck ++ [raw]
         /\ forall m2, cache_ok panel m2 -> exists m2', check true (ck, m2) = Ok (r.1, m2') /\ cache_ok panel m2').

Lemma check_attest_step tee_on raw c ck m r :
  cache_ok q_attest_panel m -> check_attest chain_id db tee_on false raw c (ck, m) = Ok r ->
  step_spec q_attest_panel raw (fun strict => check_attest chain_id db tee_on strict raw c) ck m r.
Proof.
  intros Hm E. unfold step_spec, check_attest in *. destruct (attest_pending db tee_on c (ck_attests ck)) as [[|]|]; [| |done]; cbn [result_bind andb fst snd] in *.
  - destruct (cached_panel q_attest_panel db (tc_cert_epoch c) m) as [[keys m']|] eqn:Ec; [|done]. cbn [result_bind andb fst snd] in *.
    destruct (cached_panel_spec _ _ _ _ _ Hm Ec) as [Hm' Hall].
    destruct (AttestCert_verify c chain_id keys) eqn:Ev; injection E as <-; (split; [exact Hm'|]); [right|by left].
    split; [done|]. intros m2 H2. destruct (Hall m2 H2) as (m2' & -> & H2'). cbn [result_bind andb]. rewrite Ev. by exists m2'.
  - injection E as <-. split; [exact Hm|by left].
Qed.

Lemma check_verdict_step on raw c ck m r :
  cache_ok q_verdict_panel m -> check_verdict chain_id db on false raw c (ck, m) = Ok r ->
  step_spec q_verdict_panel raw (fun strict => check_verdict chain_id db on strict raw c) ck m r.
Proof.
  intros Hm E. unfold step_spec, check_verdict in *. destruct (verdict_pending db on c (ck_verdicts ck)) as [[|]|]; [| |done]; cbn [result_bind andb fst snd] in *.
  - destruct (cached_panel q_verdict_panel db (vc_epoch c) m) as [[keys m']|] eqn:Ec; [|done]. cbn [result_bind andb fst snd] in *.
    destruct (cached_panel_spec _ _ _ _ _ Hm Ec) as [Hm' Hall].
    destruct (VerdictCert_verify c chain_id keys) eqn:Ev; injection E as <-; (split; [exact Hm'|]); [right|by left].
    split; [done|]. intros m2 H2. destruct (Hall m2 H2) as (m2' & -> & H2'). cbn [result_bind andb]. rewrite Ev. by exists m2'.
  - injection E as <-. split; [exact Hm|by left].
Qed.

(** Neither an attestation nor a verdict. *)
Definition other_cert (raw : bytes) : Prop :=
  from_slice (T := AttestCert) raw = None /\ from_slice (T := VerdictCert) raw = None.

Lemma check_panels_other tee_on von strict more rest ck vp ap :
  Forall other_cert more ->
  check_panels chain_id db tee_on von strict more rest (ck, (vp, ap)) = Ok (ck, rest ++ more).
Proof.
  intros Hm. revert rest. induction Hm as [|raw more [E1 E2] Hm IH]; intros rest; cbn; [by rewrite app_nil_r|].
  rewrite E1, E2, IH. by rewrite <-app_assoc.
Qed.

(** The certificates the first loop keeps pass it strictly, with the same results. *)
Lemma check_panels_kept tee_on von certs : forall rest ck vp ap ck' rest',
  cache_ok q_verdict_panel vp -> cache_ok q_attest_panel ap ->
  check_panels chain_id db tee_on von false certs rest (ck, (vp, ap)) = Ok (ck', rest') ->
  exists kept new, ck_kept ck' = ck_kept ck ++ kept /\ (kept = [] -> ck' = ck)
    /\ rest' = rest ++ new /\ Forall other_cert new
    /\ forall more rest1 vp1 ap1, Forall other_cert more -> cache_ok q_verdict_panel vp1 -> cache_ok q_attest_panel ap1 ->
         check_panels chain_id db tee_on von true (kept ++ more) rest1 (ck, (vp1, ap1)) = Ok (ck', rest1 ++ more).
Proof.
  induction certs as [|raw certs IH]; intros rest ck vp ap ck' rest' Hv Ha E.
  - injection E as <- <-. exists [], []. rewrite !app_nil_r. split_and!; try done.
    intros more rest1 vp1 ap1 Hm _ _. by apply check_panels_other.
  - cbn [check_panels] in E. destruct (from_slice (T := AttestCert) raw) as [c|] eqn:Et.
    { destruct (check_attest chain_id db tee_on false raw c (ck, ap)) as [[ck1 ap']|] eqn:Ec; [|done]. cbn in E.
      destruct (check_attest_step _ _ _ _ _ _ Ha Ec) as [Ha' Hs]; cbn [fst snd] in *.
      destruct (IH rest ck1 vp ap' ck' rest' Hv Ha' E) as (kept & new & Ek & Hn & Er & Hnew & Hall).
      destruct Hs as [->|[Ek1 Hs]]; [by exists kept, new|]. exists (raw :: kept), new. rewrite Ek, Ek1, <-app_assoc.
      split_and!; try done. intros more rest1 vp1 ap1 Hm Hv1 Ha1. cbn [app check_panels]. rewrite Et.
      destruct (Hs ap1 Ha1) as (ap2 & -> & Ha2). cbn. by apply Hall. }
    destruct (from_slice (T := VerdictCert) raw) as [c|] eqn:Ev.
    { destruct (check_verdict chain_id db von false raw c (ck, vp)) as [[ck1 vp']|] eqn:Ec; [|done]. cbn in E.
      destruct (check_verdict_step _ _ _ _ _ _ Hv Ec) as [Hv' Hs]; cbn [fst snd] in *.
      destruct (IH rest ck1 vp' ap ck' rest' Hv' Ha E) as (kept & new & Ek & Hn & Er & Hnew & Hall).
      destruct Hs as [->|[Ek1 Hs]]; [by exists kept, new|]. exists (raw :: kept), new. rewrite Ek, Ek1, <-app_assoc.
      split_and!; try done. intros more rest1 vp1 ap1 Hm Hv1 Ha1. cbn [app check_panels]. rewrite Et, Ev.
      destruct (Hs vp1 Hv1) as (vp2 & -> & Hv2). cbn. by apply Hall. }
    destruct (IH (rest ++ [raw]) ck vp ap ck' rest' Hv Ha E) as (kept & new & Ek & Hn & Er & Hnew & Hall).
    exists kept, (raw :: new). split_and!; try done; [by rewrite Er, <-app_assoc|]. by apply Forall_cons.
Qed.

Lemma storage_audits_kept epoch states panel certs : forall ck ck',
  check_storage_audits chain_id epoch states panel false certs ck = Ok ck' ->
  exists kept, ck_kept ck' = ck_kept ck ++ kept /\ (kept = [] -> ck' = ck) /\ (forall raw, raw ∈ kept -> raw ∈ certs)
    /\ check_storage_audits chain_id epoch states panel true kept ck = Ok ck'.
Proof.
  induction certs as [|raw certs IH]; intros ck ck' E; cbn [check_storage_audits] in E.
  - injection E as <-. exists []. by rewrite app_nil_r.
  - destruct (from_slice (T := AuditCert) raw) as [c|] eqn:Ec; [destruct (audit_ok chain_id epoch states panel ck c) eqn:Eo|].
    + destruct (IH _ _ E) as (kept & Ek & Hn & Hin & Es). exists (raw :: kept). cbn [ck_kept] in Ek.
      rewrite Ek, <-app_assoc. split_and!; try done; [|cbn [check_storage_audits]; by rewrite Ec, Eo].
      intros x [->|Hx]%elem_of_cons; [by left|right; by apply Hin].
    + destruct (IH _ _ E) as (kept & Ek & Hn & Hin & Es). exists kept. split_and!; try done. intros x Hx. right. by apply Hin.
    + destruct (IH _ _ E) as (kept & Ek & Hn & Hin & Es). exists kept. split_and!; try done. intros x Hx. right. by apply Hin.
Qed.

(** C9.  What a producer keeps, a receiver accepts: the certificates that the lenient check of a
    producer keeps from its queue pass the strict check of a received block, with the same audit
    results, verdicts and attestations; a producer's block is never rejected for its
    certificates. *)
Theorem kept_certificates_accepted number certs ck :
  check_audits chain_id rules db number certs false = Ok ck ->
  check_audits chain_id rules db number (ck_kept ck) true = Ok ck.
Proof.
  unfold check_audits. case_bool_decide; [intros [= <-]; done|].
  set (von := active chain_id SWARM number). set (ton := active chain_id TEE number).
  destruct (check_panels _ _ _ _ false _ _ _) as [[ck1 rest]|] eqn:E; [|done]. cbn [result_bind].
  destruct (check_panels_kept _ _ _ _ _ _ _ _ _ (cache_ok_empty _) (cache_ok_empty _) E) as (kept & new & Ek & Hn & -> & Hnew & Hall).
  cbn [ck_kept Checked_new app] in Ek. rewrite <-(app_nil_l new).
  case_bool_decide as Hl; cbn [app] in Hl |- *.
  - intros [= <-]. rewrite Ek. case_bool_decide as Hk; [rewrite Hn by (by apply length_zero_iff_nil); done|].
    pose proof (Hall [] [] ∅ ∅ ltac:(constructor) (cache_ok_empty _) (cache_ok_empty _)) as Hs. rewrite app_nil_r in Hs.
    by rewrite Hs.
  - destruct (lift_outcome (epoch_of rules number)) as [epoch|] eqn:Ee; [|done]. cbn [result_bind].
    destruct (query (q_audits db epoch)) as [audits|] eqn:Ea; [|done]. cbn [result_bind].
    destruct (fetch_keys db audits.1) as [panel|] eqn:Ep; [|done]. cbn [result_bind]. intros Es.
    destruct (storage_audits_kept _ _ _ _ _ _ Es) as (kept2 & Ek2 & Hn2 & Hin & Es2). rewrite Ek2, Ek.
    assert (Forall other_cert kept2) as Hk2.
    { apply Forall_forall. intros x Hx. rewrite Forall_forall in Hnew. by apply Hnew, Hin. }
    case_bool_decide as Hk.
    + rewrite length_app in Hk. destruct kept; [|cbn in Hk; lia]. destruct kept2; [|cbn in Hk; lia].
      rewrite Hn2, Hn by done. done.
    + rewrite Hall by done. cbn [result_bind app]. case_bool_decide as Hk'.
      * destruct kept2; [|done]. by rewrite Hn2.
      * exact Es2.
Qed.
End facts.

(** ** A concrete chain of queries *)

Module CertsWitness.
(** The homomorphic scheme of the panel certificates, with keys of 48 bytes. *)
#[export] Instance toy48 : Blst := {|
  SecretKey := Z; PublicKey := Z; Signature := Z;
  key_validate b := match b with p :: _ => Some p | _ => None end;
  sig_validate b := match b with [s] => Some s | _ => None end;
  sk_to_pk sk := sk;
  sk_sign sk m dst := sk * (1 + be_val (m ++ dst));
  sig_verify s m dst p := s =? p * (1 + be_val (m ++ dst));
  sig_fast_aggregate_verify s m dst pks := s =? sumZ pks * (1 + be_val (m ++ dst));
  aggregate_sigs l := match l with [] => None | _ => Some (sumZ l) end;
  compress_pk p := p :: replicate 47 0; compress_sig s := [s];
  serialize_pk p := be_bytes 96 p; serialize_sig s := be_bytes 192 s;
|}.

#[export] Instance no_code : ForkCode := fun _ => [].

Definition good : VerdictCert :=
  default (mkVerdictCert 7 3 true [] [])
    (VerdictCert_aggregate (map (fun '(i, sk) => VerdictVote_sign sk 1 7 3 true i) [(2, 13); (0, 11); (3, 14)]) 4).

(** One signature short. *)
Definition forged : VerdictCert := mkVerdictCert 7 4 true (vc_signers good) [0].

(** Encodings: 1 and 2 are the two verdicts, 9 is none. *)
#[export] Instance verdict_cbor : DagCbor VerdictCert := {|
  to_vec _ := [1];
  from_slice b := match b with [1] => Some good | [2] => Some forged | _ => None end |}.
#[export] Instance audit_cbor : DagCbor AuditCert := {| to_vec _ := [3]; from_slice _ := None |}.
#[export] Instance attest_cbor : DagCbor AttestCert := {| to_vec _ := [4]; from_slice _ := None |}.

Definition key (p : Z) : bytes := p :: replicate 47 0.

#[export] Instance queries : SystemQueries () := {|
  q_phase _ := Ok (mkPhase None None 0 0);
  q_request_count _ := Ok 0;
  q_request _ _ := Ok (0, 0);
  q_attest_panel _ _ := Ok [];
  q_keys _ ids := Ok (concat (map (fun i => key (11 + i)) ids));
  q_dispute_epoch _ _ := Ok 7;
  q_job_state _ _ := Ok 4;
  q_verdict_panel _ _ := Ok [0; 1; 2; 3];
  q_audits _ _ := Ok ([], []);
  q_committee_at _ _ := Ok None;
|}.

Definition rules : EpochRules := mkEpochRules 1200 64 5 1 1 2 20 1 3 0.

(** Of a valid verdict, a forged one and bytes that decode to nothing, the first is kept. *)
Lemma kept_certificates_accepted_witness :
  exists ck, check_audits 1 rules () 1 [[1]; [2]; [9]] false = Ok ck /\ ck_kept ck = [[1]]
    /\ check_audits 1 rules () 1 (ck_kept ck) true = Ok ck.
Proof.
  destruct (check_audits 1 rules () 1 [[1]; [2]; [9]] false) as [ck|] eqn:E; [|vm_compute in E; discriminate].
  exists ck. split; [done|]. split; [vm_compute in E; by injection E as <-|].
  by apply (kept_certificates_accepted 1 rules () 1 [[1]; [2]; [9]]).
Defined.
End CertsWitness.
