(* ===== verification/Exec.v ===== *)
(** * Block execution

    Models crates/exec/src/block.rs: the executor that runs the pre-block system calls and then
    transactions one by one, and the header it assembles.  The EVM itself (crate revm) is the class
    [Revm]: a state opened over a database view, calls that commit or only read, and the bundle of
    changes at the end; alloy's roots, blooms and receipt envelopes are [AlloyBlock].  A method that
    fails returns no executor: every caller drops it. *)

From S2P Require Import Prelude Types TypesFacts Params TxPool Ipld TrieIface Store BlockStore.
From stdpp Require Import base list list_numbers gmap strings.
From Stdlib Require Import ZArith Lia.

Open Scope Z_scope.
Open Scope bolt_scope.

(** ** Blocks as inputs *)

Record BlockInput := mkBlockInput {
  bi_chain_id : Z;
  bi_number : Z;
  bi_timestamp : Z;
  bi_beneficiary : Address;
  bi_gas_limit : Z;
  bi_base_fee : Z;
  bi_prevrandao : B256;
}.

Record BlockParams := mkBlockParams {
  bp_input : BlockInput;
  bp_parent_hash : B256;
  bp_parent_beacon_root : B256;
  bp_extra_data : bytes;
  bp_difficulty : Z;
  bp_nonce : Z;
}.

Inductive TxType := Legacy | Eip2930 | Eip1559 | Eip4844 | Eip7702.

#[export] Instance TxType_eq_dec : EqDecision TxType.
Proof. solve_decision. Defined.

Record Receipt := mkReceipt {
  rc_status : bool;
  rc_cumulative_gas_used : Z;
  rc_logs : list Log;
}.

(** What alloy adds to [AlloyTx] for blocks. *)
Class AlloyBlock `{AlloyReceipt} := {
  tx_type : TxEnvelope -> TxType;
  Authorization : Type;
  tx_authorization_list : TxEnvelope -> option (list Authorization);
  receipt_envelope : TxType -> Receipt -> ReceiptEnvelope;
  logs_bloom : ReceiptEnvelope -> bytes;
  accrue_bloom : bytes -> bytes -> bytes;
  calculate_transaction_root : list TxEnvelope -> B256;
  calculate_receipt_root : list ReceiptEnvelope -> B256;
  (** the constant fields: ommers, withdrawals, requests and blob gas *)
  constant_fields : bytes;
  (** [BaseFeeParams::ethereum().next_block_base_fee(gas_used, gas_limit, base_fee)] *)
  next_block_base_fee : Z -> Z -> Z -> Z;
}.

(** The receipt in an envelope can be read back. *)
Class AlloyBlockLaws `(AB : AlloyBlock) := {
  envelope_receipt : ReceiptEnvelope -> Receipt;
  envelope_receipt_of : forall t r, envelope_receipt (receipt_envelope t r) = r;
}.

(** [tx.kind()]: a call's recipient, or [None] for a creation. *)
Record TxEnv `{AlloyBlock} := mkTxEnv {
  te_tx_type : TxType;
  te_caller : Address;
  te_gas_limit : Z;
  te_gas_price : Z;
  te_gas_priority_fee : option Z;
  te_kind : option Address;
  te_value : Z;
  te_data : bytes;
  te_nonce : Z;
  te_chain_id : option Z;
  te_access_list : list (Address * list B256);
  te_authorizations : list Authorization;
}.

(** ** Errors *)

(** [RejInvalid] carries revm's reason. *)
Inductive TxRejection :=
  | RejBlob
  | BlockGasExhausted (tx remaining : Z)
  | BlockSize
  | RejInvalid (e : string).

(** [BAbort] is not one of the code's: it stands for a panic. *)
Inductive BlockError :=
  | BDatabase (e : StoreError)
  | SystemCallFailed (to : Address)
  | BEvm (what : string)
  | BAbort.

Inductive ViewError := VDatabase (e : StoreError) | Reverted | VEvm (what : string).

(** ** The EVM *)

Record ExecutionResult := mkExecResult {
  er_success : bool;
  er_gas_used : Z;
  er_output : bytes;
  er_logs : list Log;
}.

(** Why [transact_commit] fails: the transaction is invalid, or the rest. *)
Inductive EvmError := EvmTransaction (e : string) | EvmOther (e : BlockError).

Class Revm `{AlloyBlock} (V : Type) := {
  EvmState : Type;
  evm_open : V -> EvmState;
  system_call_commit : BlockInput -> Address -> bytes -> EvmState -> result BlockError (ExecutionResult * EvmState);
  transact_commit : BlockInput -> TxEnv -> EvmState -> result EvmError (ExecutionResult * EvmState);
  (** a read-only call from the system address, for the given block environment *)
  evm_transact : BlockInput -> Address -> bytes -> EvmState -> result ViewError ExecutionResult;
  increment_balances : Address -> Z -> EvmState -> result BlockError EvmState;
  evm_basic : Address -> EvmState -> result BlockError (option AccountInfo);
  evm_storage : Address -> Z -> EvmState -> result BlockError Z;
  (** commits an account with its new code and its slots (original and present value) *)
  evm_commit : Address -> AccountInfo -> option bytes -> gmap Z (Z * Z) -> EvmState -> EvmState;
  (** [merge_transitions(Reverts)] and [take_bundle], as plain changes and reverts *)
  evm_bundle : EvmState -> StateChangeset * PlainStateReverts;
}.

Definition BEACON_ROOTS_ADDRESS : Address := 0x000f3df6d732807ef1319fb7b8bb8522d0beac02.
Definition HISTORY_STORAGE_ADDRESS : Address := 0x0000f90827f1c53a10cb7a02335b175320002935.
Definition HEADER_SIZE_ALLOWANCE : Z := 1024.
Definition VIEW_GAS : Z := Z.shiftl 1 40.

Section executor.
Context `{K : Keccak} `{AR : AlloyReceipt} `{AB : !AlloyBlock} {V : Type} `{EV : !Revm V}.

Definition tx_env (tx : TxEnvelope) (sender : Address) : result TxRejection TxEnv :=
  if bool_decide (tx_type tx = Eip4844) then Err RejBlob
  else Ok (mkTxEnv _ _ _ (tx_type tx) sender (tx_gas_limit tx) (tx_max_fee_per_gas tx) (tx_max_priority_fee_per_gas tx)
             (tx_to tx) (tx_value tx) (tx_input tx) (tx_nonce tx) (tx_chain_id tx)
             (default [] (tx_access_list tx)) (default [] (tx_authorization_list tx))).

Definition next_base_fee (parent : BlockHeader) (min_base_fee : Z) : Z :=
  Z.max (next_block_base_fee (hd_gas_used parent) (hd_gas_limit parent)
           (default min_base_fee (hd_base_fee_per_gas parent))) min_base_fee.

Record ExecutedBlock := mkExecuted {
  ex_params : BlockParams;
  ex_transactions : list TxEnvelope;
  ex_senders : list Address;
  ex_receipts : list ReceiptEnvelope;
  ex_gas_used : Z;
  ex_bundle : StateChangeset * PlainStateReverts;
}.

Definition executed_header (ex : ExecutedBlock) (state_root : B256) : BlockHeader :=
  let p := ex_params ex in
  let bloom := foldl (fun acc r => accrue_bloom acc (logs_bloom r)) (replicate 256 0) (ex_receipts ex) in
  {| hd_parent_hash := bp_parent_hash p;
     hd_number := bi_number (bp_input p);
     hd_timestamp := bi_timestamp (bp_input p);
     hd_difficulty := bp_difficulty p;
     hd_gas_limit := bi_gas_limit (bp_input p);
     hd_nonce := bp_nonce p;
     hd_state_root := state_root;
     hd_mix_hash := bi_prevrandao (bp_input p);
     hd_transactions_root := calculate_transaction_root (ex_transactions ex);
     hd_receipts_root := calculate_receipt_root (ex_receipts ex);
     hd_logs_bloom := bloom;
     hd_beneficiary := bi_beneficiary (bp_input p);
     hd_gas_used := ex_gas_used ex;
     hd_extra_data := bp_extra_data p;
     hd_base_fee_per_gas := Some (bi_base_fee (bp_input p));
     hd_parent_beacon_block_root := Some (bp_parent_beacon_root p);
     hd_rest := constant_fields |}.

(** ** The executor *)

Record BlockExecutor := mkExecutor {
  be_state : EvmState;
  be_params : BlockParams;
  be_transactions : list TxEnvelope;
  be_senders : list Address;
  be_receipts : list ReceiptEnvelope;
  be_gas_used : Z;
  be_size : Z;
}.

Definition with_state (x : BlockExecutor) (s : EvmState) : BlockExecutor :=
  mkExecutor s (be_params x) (be_transactions x) (be_senders x) (be_receipts x) (be_gas_used x) (be_size x).

Definition executor_system_call (to : Address) (arg : B256) (x : BlockExecutor) : result BlockError BlockExecutor :=
  r <-? system_call_commit (bp_input (be_params x)) to (b256_bytes arg) (be_state x);
  if er_success r.1 then Ok (with_state x r.2) else Err (SystemCallFailed to).

Definition BlockExecutor_new (db : V) (params : BlockParams) : result BlockError BlockExecutor :=
  let this := mkExecutor (evm_open db) params [] [] [] 0 HEADER_SIZE_ALLOWANCE in
  if 0 <? bi_number (bp_input params) then
    this <-? executor_system_call BEACON_ROOTS_ADDRESS (bp_parent_beacon_root params) this;
    executor_system_call HISTORY_STORAGE_ADDRESS (bp_parent_hash params) this
  else Ok this.

Definition system_call_data (to : Address) (data : bytes) (x : BlockExecutor) : result BlockError (bytes * BlockExecutor) :=
  r <-? system_call_commit (bp_input (be_params x)) to data (be_state x);
  if er_success r.1 then Ok (er_output r.1, with_state x r.2) else Err (SystemCallFailed to).

(** A view call: no base fee and room for [VIEW_GAS]. *)
Definition view_call (s : EvmState) (input : BlockInput) (to : Address) (data : bytes) : result ViewError bytes :=
  let block := mkBlockInput (bi_chain_id input) (bi_number input) (bi_timestamp input) (bi_beneficiary input)
                 VIEW_GAS 0 (bi_prevrandao input) in
  r <-? evm_transact block to data s;
  if er_success r then Ok (er_output r) else Err Reverted.

Definition executor_view_call (to : Address) (data : bytes) (x : BlockExecutor) : result BlockError bytes :=
  match view_call (be_state x) (bp_input (be_params x)) to data with
  | Ok out => Ok out
  | Err (VDatabase d) => Err (BDatabase d)
  | Err Reverted => Err (SystemCallFailed to)
  | Err (VEvm s) => Err (BEvm s)
  end.

Definition credit (to : Address) (amount : Z) (x : BlockExecutor) : result BlockError BlockExecutor :=
  s <-? increment_balances to amount (be_state x); Ok (with_state x s).

(** The slots of an irregular change, each with its original value. *)
Definition irregular_slot (address : Address) (s : EvmState) (kv : Z * Z) (m : gmap Z (Z * Z))
    : result BlockError (gmap Z (Z * Z)) :=
  original <-? evm_storage address kv.1 s; Ok (<[kv.1 := (original, kv.2)]> m).

Definition apply_irregular (address : Address) (code : option bytes) (slots : list (Z * Z)) (x : BlockExecutor)
    : result BlockError BlockExecutor :=
  let s := be_state x in
  o <-? evm_basic address s;
  let info := default (mkInfo 0 0 KECCAK_EMPTY) o in
  let info := match code with
              | Some code => mkInfo (i_balance info) (Z.max (i_nonce info) 1)
                               (if bool_decide (code = []) then KECCAK_EMPTY else keccak256 code)
              | None => info
              end in
  m <-? try_fold (irregular_slot address s) slots ∅;
  Ok (with_state x (evm_commit address info code m s)).

Definition gas_remaining (x : BlockExecutor) : Z := u64 (bi_gas_limit (bp_input (be_params x)) - be_gas_used x).

Definition tx_count (x : BlockExecutor) : Z := Z.of_nat (length (be_transactions x)).

(** The included transaction's receipt, or why it was rejected. *)
Definition executor_add (tx : TxEnvelope) (sender : Address) (x : BlockExecutor)
    : result BlockError (result TxRejection ReceiptEnvelope * BlockExecutor) :=
  match tx_env tx sender with
  | Err r => Ok (Err r, x)
  | Ok env =>
      if gas_remaining x <? te_gas_limit env then
        Ok (Err (BlockGasExhausted (te_gas_limit env) (gas_remaining x)), x)
      else
        let tx_size := tx_encode_2718_len tx + 8 in
        if MAX_RLP_BLOCK_SIZE <? be_size x + tx_size then Ok (Err BlockSize, x)
        else
          match transact_commit (bp_input (be_params x)) env (be_state x) with
          | Err (EvmTransaction e) => Ok (Err (RejInvalid e), x)
          | Err (EvmOther e) => Err e
          | Ok (r, s) =>
              let gas_used := u64 (be_gas_used x + er_gas_used r) in
              let receipt := mkReceipt (er_success r) gas_used (if er_success r then er_logs r else []) in
              if bool_decide (tx_type tx = Eip4844) then Err BAbort
              else
                let envelope := receipt_envelope (tx_type tx) receipt in
                Ok (Ok envelope,
                    mkExecutor s (be_params x) (be_transactions x ++ [tx]) (be_senders x ++ [sender])
                      (be_receipts x ++ [envelope]) gas_used (be_size x + tx_size))
          end
  end.

Definition executor_finish (x : BlockExecutor) : ExecutedBlock :=
  mkExecuted (be_params x) (be_transactions x) (be_senders x) (be_receipts x) (be_gas_used x) (evm_bundle (be_state x)).
End executor.

(** ** Facts *)

(** A transaction uses at most its gas limit (revm). *)
Class RevmLaws `{AlloyBlock} {V : Type} (EV : Revm V) : Prop :=
  transact_gas : forall input env s r s',
    transact_commit input env s = Ok (r, s') -> 0 <= er_gas_used r <= te_gas_limit env.

Section facts.
Context `{K : Keccak} `{AR : AlloyReceipt} `{AB : !AlloyBlock} `{AL : !AlloyBlockLaws AB} {V : Type} `{EV : !Revm V}.
Context {EL : RevmLaws EV}.

(** What a caller can do with an executor between its creation and [finish]. *)
Inductive block_run (db : V) (params : BlockParams) : BlockExecutor -> Prop :=
  | run_new x : BlockExecutor_new db params = Ok x -> block_run db params x
  | run_add tx sender r x x' :
      block_run db params x -> executor_add tx sender x = Ok (r, x') -> block_run db params x'
  | run_call to data out x x' :
      block_run db params x -> system_call_data to data x = Ok (out, x') -> block_run db params x'
  | run_credit to amount x x' : block_run db params x -> credit to amount x = Ok x' -> block_run db params x'
  | run_irregular a code slots x x' :
      block_run db params x -> apply_irregular a code slots x = Ok x' -> block_run db params x'.

(** Cumulative gas goes up from [from] to [upto]. *)
Fixpoint gas_chain (from : Z) (l : list Z) (upto : Z) : Prop :=
  match l with
  | [] => from = upto
  | c :: l => from <= c /\ gas_chain c l upto
  end.

Lemma gas_chain_snoc l : forall from upto c, gas_chain from l upto -> upto <= c -> gas_chain from (l ++ [c]) c.
Proof. induction l as [|x l IH]; cbn; intros from upto c; [by intros -> Hle|]. intros [? ?] ?. split; [done|eauto]. Qed.

Record executor_ok (params : BlockParams) (x : BlockExecutor) : Prop := {
  ok_params : be_params x = params;
  ok_gas : 0 <= be_gas_used x <= bi_gas_limit (bp_input params);
  ok_size : be_size x = HEADER_SIZE_ALLOWANCE + sumZ (map (fun tx => tx_encode_2718_len tx + 8) (be_transactions x));
  ok_size_max : be_size x <= MAX_RLP_BLOCK_SIZE;
  ok_senders : length (be_senders x) = length (be_transactions x);
  ok_receipts : length (be_receipts x) = length (be_transactions x);
  ok_cumulative : gas_chain 0 (map (fun e => rc_cumulative_gas_used (envelope_receipt e)) (be_receipts x)) (be_gas_used x);
  ok_no_blob : Forall (fun tx => tx_type tx <> Eip4844) (be_transactions x);
}.

Lemma executor_ok_state params x s : executor_ok params x -> executor_ok params (with_state x s).
Proof. by intros []; split. Qed.

Lemma executor_new_ok db params x :
  0 <= bi_gas_limit (bp_input params) -> BlockExecutor_new db params = Ok x -> executor_ok params x.
Proof.
  intros Hg. set (x0 := mkExecutor (evm_open db) params [] [] [] 0 HEADER_SIZE_ALLOWANCE).
  assert (executor_ok params x0) as H0 by (split; cbn; first [done|lia|by constructor]).
  assert (forall to arg x x', executor_ok params x -> executor_system_call to arg x = Ok x' -> executor_ok params x') as Hc.
  { intros to arg y y' Hy. unfold executor_system_call.
    destruct (system_call_commit _ _ _ _) as [[r s]|]; [|done]. cbn. destruct (er_success r); [|done].
    intros [= <-]. by apply executor_ok_state. }
  unfold BlockExecutor_new. fold x0. case_match; [|by intros [= <-]].
  destruct (executor_system_call BEACON_ROOTS_ADDRESS _ x0) as [x1|] eqn:E1; [|done]. cbn. intros E2.
  eapply Hc; [|exact E2]. by eapply Hc.
Qed.

(** An accepted transaction is recorded last, a rejected one changes nothing. *)
Lemma executor_add_ok params tx sender r x x' :
  0 <= bi_gas_limit (bp_input params) < 2 ^ 64 ->
  executor_ok params x -> executor_add tx sender x = Ok (r, x') ->
  executor_ok params x'
  /\ match r with
     | Err _ => x' = x
     | Ok e => be_transactions x' = be_transactions x ++ [tx] /\ be_senders x' = be_senders x ++ [sender]
               /\ be_receipts x' = be_receipts x ++ [e]
     end.
Proof.
  intros Hl Hx. unfold executor_add, tx_env. case_bool_decide as Hb; [by intros [= <- <-]|]. cbn [te_gas_limit].
  destruct (gas_remaining x <? tx_gas_limit tx) eqn:Eg; [by intros [= <- <-]|].
  case_match eqn:Es; [by intros [= <- <-]|].
  destruct (transact_commit _ _ _) as [[res s]|[e|e]] eqn:Et; [|by intros [= <- <-]|done].
  intros [= <- <-]. split; [|done]. apply transact_gas in Et. cbn in Et. destruct Hx.
  assert (gas_remaining x = bi_gas_limit (bp_input params) - be_gas_used x) as Hr.
  { unfold gas_remaining. rewrite ok_params0. apply wrap_small. unfold in_range. lia. }
  assert (u64 (be_gas_used x + er_gas_used res) = be_gas_used x + er_gas_used res) as Hu.
  { apply wrap_small. unfold in_range. lia. }
  split; cbn; rewrite ?Hu, ?length_app, ?map_app; cbn; try lia; try done.
  - rewrite sumZ_app. cbn. lia.
  - rewrite envelope_receipt_of. cbn. eapply gas_chain_snoc; [done|lia].
  - by apply Forall_app; split; [|repeat constructor].
Qed.

Lemma block_run_ok db params x :
  0 <= bi_gas_limit (bp_input params) < 2 ^ 64 -> block_run db params x -> executor_ok params x.
Proof.
  intros Hl. induction 1 as [x E|tx sender r x x' _ IH E|to data out x x' _ IH E|to amount x x' _ IH E|a code slots x x' _ IH E].
  - eapply executor_new_ok; [lia|done].
  - by eapply executor_add_ok.
  - unfold system_call_data in E. destruct (system_call_commit _ _ _ _) as [[res s]|]; [|done]. cbn in E.
    destruct (er_success res); [|done]. injection E as _ <-. by apply executor_ok_state.
  - unfold credit in E. destruct (increment_balances _ _ _); [|done]. injection E as <-. by apply executor_ok_state.
  - unfold apply_irregular in E. destruct (evm_basic _ _); [|done]. cbn in E.
    destruct (try_fold _ _ _); [|done]. injection E as <-. by apply executor_ok_state.
Qed.

(** C7.  The limits of a block: whatever transactions are offered, and however the pre-block calls
    come between, an executor's block uses at most its gas limit (no subtraction of the gas left
    wraps), stays within the EIP-7934 size, holds no blob transaction and has one sender and one
    receipt per transaction, whose cumulative gas rises to the header's gas used; a transaction that is
    rejected leaves the executor as it was. *)
Theorem executed_block_within_limits (db : V) (params : BlockParams) (x : BlockExecutor) (root : B256)
    (Hlimit : 0 <= bi_gas_limit (bp_input params) < 2 ^ 64) (Hrun : block_run db params x) :
  let header := executed_header (executor_finish x) root in
  0 <= hd_gas_used header <= hd_gas_limit header
  /\ HEADER_SIZE_ALLOWANCE + sumZ (map (fun tx => tx_encode_2718_len tx + 8) (be_transactions x)) <= MAX_RLP_BLOCK_SIZE
  /\ Forall (fun tx => tx_type tx <> Eip4844) (be_transactions x)
  /\ length (be_senders x) = length (be_transactions x) /\ length (be_receipts x) = length (be_transactions x)
  /\ gas_chain 0 (map (fun e => rc_cumulative_gas_used (envelope_receipt e)) (be_receipts x)) (hd_gas_used header)
  /\ gas_remaining x = hd_gas_limit header - hd_gas_used header
  /\ (forall tx sender rej x', executor_add tx sender x = Ok (Err rej, x') -> x' = x).
Proof.
  pose proof (block_run_ok _ _ _ Hlimit Hrun) as Hx. pose proof Hx as Hx0. destruct Hx. cbn. rewrite ok_params0.
  split_and!; try done; try lia.
  - unfold gas_remaining. rewrite ok_params0. apply wrap_small. unfold in_range. lia.
  - intros tx sender rej x' E. by destruct (executor_add_ok _ _ _ _ _ _ Hlimit Hx0 E).
Qed.
End facts.

(** ** A concrete EVM *)

Module ExecToy.
(** Transactions are their gas limits; odd ones fail, multiples of 7 are invalid. *)
#[export] Instance gas_txs : AlloyTx := {
  TxEnvelope := Z;
  tx_is_eip4844 _ := false;
  tx_chain_id _ := None;
  tx_gas_limit t := t;
  tx_max_fee_per_gas _ := 1;
  tx_max_priority_fee_per_gas _ := None;
  tx_recover_signer t := Some t;
  tx_hash t := t;
  tx_encode_2718_len _ := 100;
  tx_decode_2718 b := match b with t :: b => Some (t, b) | [] => None end;
  tx_nonce _ := 0;
  tx_value _ := 0;
  tx_effective_tip_per_gas _ _ := None;
  tx_access_list _ := None;
  tx_authorization_count _ := None;
  tx_input _ := [];
  tx_is_create _ := false;
  calculate_initial_tx_gas _ _ _ _ _ := (0, 0, 0);
}.

#[export] Instance gas_receipts : AlloyReceipt := {|
  ReceiptEnvelope := TxType * Receipt;
  receipt_logs e := rc_logs e.2;
  tx_to _ := None;
  create_address a _ := a;
|}.

#[export] Instance gas_block : AlloyBlock := {|
  tx_type t := if t =? 3 then Eip4844 else Legacy;
  Authorization := ();
  tx_authorization_list _ := None;
  receipt_envelope t r := (t, r);
  logs_bloom _ := [];
  accrue_bloom a _ := a;
  calculate_transaction_root l := sumZ l;
  calculate_receipt_root l := Z.of_nat (length l);
  constant_fields := [];
  next_block_base_fee _ _ f := f;
|}.

#[export] Instance gas_block_laws : AlloyBlockLaws gas_block := {|
  envelope_receipt e := e.2;
  envelope_receipt_of t r := eq_refl;
|}.

(** The state is the sum of the credits. *)
#[export] Instance gas_evm : Revm () := {|
  EvmState := Z;
  evm_open _ := 0;
  system_call_commit _ _ _ s := Ok (mkExecResult true 0 [] [], s);
  transact_commit _ env s :=
    if te_gas_limit env mod 7 =? 0 then Err (EvmTransaction "nonce")
    else if te_gas_limit env <? 0 then Err (EvmOther BAbort)
    else Ok (mkExecResult (Z.even (te_gas_limit env)) (te_gas_limit env / 2) [] [], s);
  evm_transact _ _ _ _ := Ok (mkExecResult true 0 [] []);
  increment_balances _ n s := Ok (s + n);
  evm_basic _ _ := Ok None;
  evm_storage _ _ _ := Ok 0;
  evm_commit _ _ _ _ s := s;
  evm_bundle _ := (mkChangeset [] [] [], mkReverts [] []);
|}.

#[export] Instance gas_evm_laws : RevmLaws gas_evm.
Proof.
  intros input env s r s'. cbn. destruct (_ =? 0); [done|]. destruct (te_gas_limit env <? 0) eqn:E; [done|].
  intros [= <- <-]. cbn. split; [apply Z.div_pos; lia|]. apply Z.div_le_upper_bound; lia.
Qed.

#[export] Instance gas_keccak : Keccak := fun b => wrap 256 (be_val b).

Definition params : BlockParams := mkBlockParams (mkBlockInput 1 5 60 9 100 1 0) 1 2 [] 0 0.

(** Adds each transaction, ignoring rejections. *)
Fixpoint add_all (l : list (@TxEnvelope gas_txs)) (x : BlockExecutor) : option BlockExecutor :=
  match l with
  | [] => Some x
  | t :: l => match executor_add (V := ()) t (t : Z) x with Ok (_, x) => add_all l x | Err _ => None end
  end.

Lemma add_all_run l x y : block_run () params x -> add_all l x = Some y -> block_run () params y.
Proof.
  revert x. induction l as [|t l IH]; intros x Hx; cbn [add_all]; [by intros [= <-]|].
  destruct (executor_add t (t : Z) x) as [[r x']|] eqn:E; [|done]. apply IH. by eapply run_add.
Qed.

(** A blob, an invalid transaction and one over the gas left are rejected. *)
Lemma executed_block_within_limits_witness :
  exists x0 x, BlockExecutor_new (V := ()) () params = Ok x0 /\ add_all [60; 3; 14; 80; 33] x0 = Some x
    /\ be_transactions x = [60; 33] /\ 0 <= hd_gas_used (executed_header (executor_finish x) 0) <= 100.
Proof.
  destruct (BlockExecutor_new (V := ()) () params) as [x0|] eqn:E0; [|vm_compute in E0; discriminate].
  destruct (add_all [60; 3; 14; 80; 33] x0) as [x|] eqn:E; [|vm_compute in E0; injection E0 as <-; vm_compute in E; discriminate].
  exists x0, x. split; [done|]. split; [done|]. split.
  - vm_compute in E0. injection E0 as <-. vm_compute in E. by injection E as <-.
  - pose proof (add_all_run _ _ _ (run_new () params x0 E0) E) as R.
    pose proof (ok_params _ _ (block_run_ok () params x ltac:(split; vm_compute; [discriminate|reflexivity]) R)) as Ep.
    destruct (executed_block_within_limits () params x 0 ltac:(split; vm_compute; [discriminate|reflexivity]) R) as [H _].
    cbn in H. by rewrite Ep in H.
Defined.
End ExecToy.
