(* ===== verification/Queries.v ===== *)
(** * Calls of the system contracts

    The part of crates/system/src/abi.rs the node calls while it executes and checks blocks, as a
    type [Call] indexed by what a call returns, the addresses of crates/system/src/addresses.rs,
    and the read-only queries of crates/system/src/queries.rs.  The ABI encoding is the class
    [SolAbi] (crate alloy-sol-types); the contracts run in the EVM ([Revm]).  The queries give the
    interface [SystemQueries] the certificate checks are written against. *)

From S2P Require Import Prelude Types Committee Epochs TxPool Ipld TrieIface Store BlockStore Bls BlockCerts Exec.
From stdpp Require Import base list list_numbers gmap strings.
From Stdlib Require Import ZArith Lia.

Open Scope Z_scope.
Open Scope bolt_scope.

(** ** Addresses *)

Definition STAKING : Address := 0xb017000000000000000000000000000000000001.
Definition CONSENSUS : Address := 0xb017000000000000000000000000000000000002.
Definition REWARDS : Address := 0xb017000000000000000000000000000000000003.
Definition SWARM_STORAGE : Address := 0xb017000000000000000000000000000000000005.
Definition COMPUTE : Address := 0xb017000000000000000000000000000000000006.
Definition LEASES : Address := 0xb01700000000000000000000000000000000000b.

(** ** Return types of several values *)

Record SnapshotReturn := mkSnapshot { sn_ids : list Z; sn_stakes : list Z }.
Record StatsReturn := mkStats { ss_stakers : Z; ss_total : Z }.
Record KeysReturn := mkKeys { kr_pubkeys : bytes; kr_recipients : list Address }.
Record BeginEpochReturn := mkBeginEpoch {
  be_cpScheduled : bool;
  be_firstCheckpointEpoch : Z;
  be_scheduled : bool;
  be_firstPosEpoch : Z;
}.
Record PhaseReturn := mkPhaseReturn {
  ph_checkpointScheduled : bool;
  ph_checkpointEpoch : Z;
  ph_posScheduled : bool;
  ph_posEpoch : Z;
  ph_checkpointStreak : Z;
  ph_thresholdStreak : Z;
}.
Record CommitteeReturn := mkCommitteeReturn { cr_ids : list Z; cr_weights : list Z; cr_seats : bytes }.
Record AuditsReturn := mkAuditsReturn {
  au_panel : list Z;
  au_providers : list Z;
  au_targets : list Z;
  au_heights : list Z;
  au_states : list Z;
}.
Record DealReturn := mkDealReturn { de_blocks : Z; de_endEpoch : Z; de_closed : bool }.
Record SlotsReturn := mkSlotsReturn {
  sl_providers : list Z;
  sl_since : list Z;
  sl_open : list bool;
}.
Record JobReturn := mkJobReturn { jb_state : Z }.
Record DisputeReturn := mkDisputeReturn { di_openedAt : Z; di_panelEpoch : Z }.
Record RequestReturn := mkRequestReturn { rq_state : Z; rq_epoch : Z }.

(** ** Calls *)

Inductive Call : Type -> Type :=
  | snapshotCall (minAge : Z) : Call SnapshotReturn
  | stakerStatsCall : Call StatsReturn
  | keysOfCall (ids : list Z) : Call KeysReturn
  | idOfPubkeyCall (h : B256) : Call Z
  | beginEpochCall (epoch : Z) (checkpointMet posMet : bool) (streakRequired : Z) : Call BeginEpochReturn
  | setCommitteeCall (epoch : Z) (memberIds weights : list Z) (seats : bytes) : Call ()
  | phaseCall : Call PhaseReturn
  | committeeCall (epoch : Z) : Call CommitteeReturn
  | onBlockCall (burned minted certEpoch certRound : Z) (bitmap : bytes) : Call ()
  | settleCall (epoch emission : Z) : Call Z
  | previewCall (epoch emission : Z) : Call Z
  | settleStorageCall (epoch emission : Z) : Call Z
  | previewStorageCall (epoch emission : Z) : Call Z
  | supplyCall : Call Z
  | recordEpochCall (epoch : Z) (cid : bytes) : Call ()
  | epochIndexCall (epoch : Z) : Call bytes
  | indexedEpochsCall : Call Z
  | beginAuditsCall (epoch : Z) (panel providers targets heights : list Z) : Call ()
  | recordAuditCall (epoch task : Z) (ok : bool) : Call bool
  | auditsCall (epoch : Z) : Call AuditsReturn
  | activeStorageProvidersCall : Call (list Z)
  | addDealAuditsCall (epoch : Z) (providers dealIds indexes : list Z) : Call ()
  | dealCall (id : Z) : Call DealReturn
  | dealSlotsCall (id : Z) : Call SlotsReturn
  | dealCountCall : Call Z
  | assignDisputesCall (epoch : Z) (members : list Z) : Call ()
  | recordVerdictCall (id : Z) (providerAtFault : bool) : Call bool
  | jobCall (id : Z) : Call JobReturn
  | compute_panelCall (epoch : Z) : Call (list Z)
  | pendingDisputesCall : Call (list Z)
  | disputesCall (id : Z) : Call DisputeReturn
  | assignAttestationsCall (epoch : Z) (members : list Z) : Call ()
  | recordAttestationCall (r : Z) (ok : bool) (machineId : bytes) : Call bool
  | requestCall (r : Z) : Call RequestReturn
  | requestCountCall : Call Z
  | pendingAttestationsCall : Call (list Z)
  | leases_panelCall (epoch : Z) : Call (list Z).

(** [abi_encode] and [abi_decode_returns]. *)
Class SolAbi := {
  abi_encode : forall {A}, Call A -> bytes;
  abi_decode_returns : forall {A}, Call A -> bytes -> option A;
}.

(** ** Queries of committed state *)

Inductive QueryError := QueryCall (to : Address) (what : string).

Record EpochCommittee := mkEpochCommittee {
  ec_epoch : Z;
  ec_committee : Committee;
  ec_pubkeys : list bytes;
  ec_fee_recipients : list Address;
}.

Definition to_phase (p : PhaseReturn) : Phase :=
  mkPhase (if ph_checkpointScheduled p then Some (ph_checkpointEpoch p) else None)
    (if ph_posScheduled p then Some (ph_posEpoch p) else None) (ph_checkpointStreak p) (ph_thresholdStreak p).

Section queries.
Context `{K : Keccak} `{AR : AlloyReceipt} `{AB : !AlloyBlock} {V : Type} `{EV : !Revm V} `{SA : SolAbi}.
Variables (db : V) (chain_id : Z).

Definition query_input : BlockInput := mkBlockInput chain_id 0 0 0 0 0 0.

(** Messages are abbreviated. *)
Definition call_raw (to : Address) (data : bytes) : result QueryError bytes :=
  match view_call (evm_open db) query_input to data with
  | Ok out => Ok out
  | Err (VDatabase _) => Err (QueryCall to "database"%string)
  | Err Reverted => Err (QueryCall to "reverted"%string)
  | Err (VEvm s) => Err (QueryCall to s)
  end.

Definition call {A} (to : Address) (c : Call A) : result QueryError A :=
  out <-? call_raw to (abi_encode c);
  ok_or (abi_decode_returns c out) (QueryCall to "decode"%string).

Definition committee_at (epoch : Z) : result QueryError (option EpochCommittee) :=
  c <-? call CONSENSUS (committeeCall epoch);
  if bool_decide (cr_ids c = []) then Ok None
  else
    let committee := from_parts (cr_ids c) (cr_weights c) (cr_seats c) in
    keys <-? call STAKING (keysOfCall (members committee));
    Ok (Some (mkEpochCommittee epoch committee (keys_of_bytes (kr_pubkeys keys)) (kr_recipients keys))).

Definition validator_id (pubkey : bytes) : result QueryError Z :=
  call STAKING (idOfPubkeyCall (keccak256 pubkey)).

Definition supply : result QueryError Z := call REWARDS supplyCall.

Definition phase : result QueryError Phase :=
  p <-? call CONSENSUS phaseCall; Ok (to_phase p).
End queries.

(** The phase in the state of a block being executed. *)
Definition phase_in `{AR : AlloyReceipt} `{AB : !AlloyBlock} {V : Type} `{EV : !Revm V} `{SA : SolAbi}
    (exec : BlockExecutor) : result BlockError Phase :=
  out <-? executor_view_call CONSENSUS (abi_encode phaseCall) exec;
  p <-? ok_or (abi_decode_returns phaseCall out) (BEvm "decode phase"%string);
  Ok (to_phase p).

(** ** The queries the certificate checks use *)

(** [.map_err(q)], with [q] formatting the error. *)
Definition map_query {A B} (f : A -> B) (r : result QueryError A) : result string B :=
  match r with Ok a => Ok (f a) | Err (QueryCall _ what) => Err what end.

Section instance.
Context `{K : Keccak} `{AR : AlloyReceipt} `{AB : !AlloyBlock} {V : Type} `{EV : !Revm V} `{SA : SolAbi}.

Definition contract_queries (chain_id : Z) : SystemQueries V := {|
  q_phase db := map_query id (phase db chain_id);
  q_request_count db := map_query id (call db chain_id LEASES requestCountCall);
  q_request db r := map_query (fun x => (rq_state x, rq_epoch x)) (call db chain_id LEASES (requestCall r));
  q_attest_panel db e := map_query id (call db chain_id LEASES (leases_panelCall e));
  q_keys db ids := map_query kr_pubkeys (call db chain_id STAKING (keysOfCall ids));
  q_dispute_epoch db j := map_query di_panelEpoch (call db chain_id COMPUTE (disputesCall j));
  q_job_state db j := map_query jb_state (call db chain_id COMPUTE (jobCall j));
  q_verdict_panel db e := map_query id (call db chain_id COMPUTE (compute_panelCall e));
  q_audits db e := map_query (fun x => (au_panel x, au_states x)) (call db chain_id SWARM_STORAGE (auditsCall e));
  q_committee_at db e :=
    map_query (fmap (fun c => mkCommitteeView (length (members (ec_committee c))) (c_seats (ec_committee c)) (ec_pubkeys c)))
      (committee_at db chain_id e);
|}.
End instance.
