(* ===== verification/Hooks.v ===== *)
(** * Pre-block system calls

    Models [pre_block] of crates/system/src/hooks.rs and what it calls: the block reward, the
    settlement of the previous epoch, the phase thresholds, the audit tasks and panels, disputes and
    attestations, and the choice of the next committee.  Calls of the contracts are typed
    ([Queries.Call]) and run through the executor; reading ([view]) leaves it unchanged. *)

From S2P Require Import Prelude Types TypesFacts Params Committee History Epochs Forks TxPool Ipld TrieIface Store BlockStore.
From S2P Require Import Bls BlockCerts Exec Queries.
From stdpp Require Import base list list_numbers sorting gmap strings.
From Stdlib Require Import ZArith Lia.

Open Scope Z_scope.
Open Scope bolt_scope.

Record CertVotes := mkCertVotes { vt_epoch : Z; vt_round : Z; vt_bitmap : bytes }.

Record HistoryInputs := mkHistoryInputs {
  hi_epoch_index : option bytes;
  hi_audits : list AuditResult;
  hi_verdicts : list (Z * bool);
  hi_attestations : list (Z * bool * bytes);
}.

Inductive Producer := Miner | MinerWithCheckpoints | ByCommittee.

#[export] Instance Producer_eq_dec : EqDecision Producer.
Proof. solve_decision. Defined.

(** What may abort. *)
Definition lift_block {A} (o : outcome A) : result BlockError A :=
  match o with Done a => Ok a | _ => Err BAbort end.

Section hooks.
Context `{K : Keccak} `{AR : AlloyReceipt} `{AB : !AlloyBlock} {V : Type} `{EV : !Revm V} `{SA : SolAbi} `{FC : ForkCode}.

Abbreviation Exec := (BlockExecutor (V := V)).

Definition view {A} (to : Address) (c : Call A) (exec : Exec) : result BlockError A :=
  out <-? executor_view_call to (abi_encode c) exec;
  ok_or (abi_decode_returns c out) (BEvm "decode"%string).

Definition sys {A} (to : Address) (c : Call A) (exec : Exec) : result BlockError (A * Exec) :=
  r <-? system_call_data to (abi_encode c) exec;
  a <-? ok_or (abi_decode_returns c r.1) (BEvm "decode"%string);
  Ok (a, r.2).

(** [exec.credit(to, amount.to::<u128>())], which aborts above [u128::MAX]. *)
Definition credit_u256 (to : Address) (amount : Z) (exec : Exec) : result BlockError Exec :=
  if amount =? 0 then Ok exec
  else if 2 ^ 128 <=? amount then Err BAbort else credit to amount exec.

Definition seed (parent : BlockHeader) : B256 := hd_mix_hash parent.

(** ** Recording results *)

Definition record_audit (a : AuditResult) (exec : Exec) : result BlockError Exec :=
  r <-? sys SWARM_STORAGE (recordAuditCall (ar_epoch a) (ar_task a) (ar_passed a)) exec; Ok r.2.

Definition record_attestation (t : Z * bool * bytes) (exec : Exec) : result BlockError Exec :=
  r <-? sys LEASES (recordAttestationCall t.1.1 t.1.2 t.2) exec; Ok r.2.

Definition record_verdict (v : Z * bool) (exec : Exec) : result BlockError Exec :=
  r <-? sys COMPUTE (recordVerdictCall v.1 v.2) exec; Ok r.2.

Definition record_audits (history : HistoryInputs) (exec : Exec) : result BlockError Exec :=
  exec <-? try_fold record_audit (hi_audits history) exec;
  exec <-? try_fold record_attestation (hi_attestations history) exec;
  try_fold record_verdict (hi_verdicts history) exec.

(** ** Panels *)

(** The epoch's committee, or while there is none all stakers. *)
Definition panel_pool (epoch : Z) (exec : Exec) : result BlockError (list Z) :=
  c <-? view CONSENSUS (committeeCall epoch) exec;
  if bool_decide (cr_ids c = []) then s <-? view STAKING (snapshotCall 0) exec; Ok (sn_ids s) else Ok (cr_ids c).

Definition assign_disputes (parent : BlockHeader) (epoch : Z) (exec : Exec) : result BlockError Exec :=
  waiting <-? view COMPUTE pendingDisputesCall exec;
  if bool_decide (waiting = []) then Ok exec
  else
    pool <-? panel_pool epoch exec;
    if bool_decide (pool = []) then Ok exec
    else
      let seed := keccak256 (b256_bytes (seed parent) ++ ascii_bytes "compute/disputes") in
      r <-? sys COMPUTE (assignDisputesCall epoch (draw_panel seed epoch pool)) exec;
      Ok r.2.

Definition assign_attestations (parent : BlockHeader) (epoch : Z) (exec : Exec) : result BlockError Exec :=
  waiting <-? view LEASES pendingAttestationsCall exec;
  if bool_decide (waiting = []) then Ok exec
  else
    panel <-? view LEASES (leases_panelCall epoch) exec;
    if negb (bool_decide (panel = [])) then
      r <-? sys LEASES (assignAttestationsCall epoch []) exec; Ok r.2
    else
      pool <-? panel_pool epoch exec;
      if bool_decide (pool = []) then Ok exec
      else
        let seed := keccak256 (b256_bytes (seed parent) ++ be_bytes 8 epoch ++ ascii_bytes "tee/attestations") in
        r <-? sys LEASES (assignAttestationsCall epoch (draw_panel seed epoch pool)) exec;
        Ok r.2.

(** ** Storage audits *)

(** The copies of a deal past their first epoch: an index out of range aborts. *)
Fixpoint live_copies (epoch : Z) (k n : nat) (s : SlotsReturn) : outcome (list Z) :=
  match n with
  | O => Done []
  | S n =>
      match sl_open s !! k with
      | None => Panic
      | Some false => live_copies epoch (S k) n s
      | Some true =>
          match sl_since s !! k, sl_providers s !! k with
          | Some since, Some p =>
              rest <!- live_copies epoch (S k) n s;
              Done (if since <? epoch then p :: rest else rest)
          | _, _ => Panic
          end
      end
  end.

Record DealTask := mkDealTask { dt_provider : Z; dt_deal : Z; dt_index : Z }.

(** One attempt: a random deal, if it runs and has a copy to audit. *)
Definition deal_attempt (seed epoch count n : Z) (exec : Exec) : result BlockError (option DealTask) :=
  id <-? lift_block (draw_index seed (ascii_bytes "audit/deal") epoch n count);
  d <-? view SWARM_STORAGE (dealCall id) exec;
  if de_closed d || (de_endEpoch d <=? epoch) || (de_blocks d =? 0) then Ok None
  else
    s <-? view SWARM_STORAGE (dealSlotsCall id) exec;
    live <-? lift_block (live_copies epoch 0 (length (sl_providers s)) s);
    if bool_decide (live = []) then Ok None
    else
      i <-? lift_block (draw_index seed (ascii_bytes "audit/deal-copy") epoch n (Z.of_nat (length live)));
      who <-? ok_or (live !! Z.to_nat i) BAbort;
      b <-? lift_block (draw_index seed (ascii_bytes "audit/deal-block") epoch n (de_blocks d));
      Ok (Some (mkDealTask who id b)).

(** Up to four attempts per task. *)
Fixpoint deal_attempts (seed epoch count i : Z) (attempts : list Z) (exec : Exec) : result BlockError (option DealTask) :=
  match attempts with
  | [] => Ok None
  | a :: attempts =>
      t <-? deal_attempt seed epoch count (u32 (i * 4 + a)) exec;
      match t with
      | Some t => Ok (Some t)
      | None => deal_attempts seed epoch count i attempts exec
      end
  end.

Fixpoint deal_tasks (seed epoch count : Z) (tasks : list Z) (exec : Exec) : result BlockError (list DealTask) :=
  match tasks with
  | [] => Ok []
  | i :: tasks =>
      t <-? deal_attempts seed epoch count i [0; 1; 2; 3] exec;
      rest <-? deal_tasks seed epoch count tasks exec;
      Ok (match t with Some t => t :: rest | None => rest end)
  end.

Definition draw_deal_tasks (seed epoch : Z) (exec : Exec) : result BlockError (list DealTask) :=
  count <-? view SWARM_STORAGE dealCountCall exec;
  if count =? 0 then Ok []
  else deal_tasks seed epoch (Z.min count U64_MAX) (map Z.of_nat (seq 0 (Z.to_nat DEAL_AUDIT_TASKS))) exec.

(** The tasks of old epochs, one per target. *)
Fixpoint epoch_tasks (rules : EpochRules) (seed epoch : Z) (validators storage : list Z) (i : Z) (targets : list Z)
    (exec : Exec) : result BlockError (list AuditTask) :=
  match targets with
  | [] => Ok []
  | t :: targets =>
      cid <-? view SWARM_STORAGE (epochIndexCall t) exec;
      let who := assignees cid validators storage in
      let first := u64 (u64 (t * epoch_slots rules) + 1) in
      task <-? lift_block (draw_task seed epoch (u32 i) t who first (epoch_slots rules));
      rest <-? epoch_tasks rules seed epoch validators storage (i + 1) targets exec;
      Ok (match task with Some task => task :: rest | None => rest end)
  end.

Definition old_epoch_tasks (rules : EpochRules) (seed epoch : Z) (exec : Exec) : result BlockError (list AuditTask) :=
  indexed <-? view SWARM_STORAGE indexedEpochsCall exec;
  let last_old := epoch - u64 (history_recent_epochs rules + 1) in
  if (0 <=? last_old) && (last_old <? indexed) then
    snap <-? view STAKING (snapshotCall 0) exec;
    storage <-? view SWARM_STORAGE activeStorageProvidersCall exec;
    targets <-? lift_block (draw_targets seed epoch last_old);
    epoch_tasks rules seed epoch (sort_unstable (sn_ids snap)) storage 0 targets exec
  else Ok [].

Definition begin_audits (rules : EpochRules) (parent : BlockHeader) (epoch : Z) (exec : Exec) : result BlockError Exec :=
  let seed := seed parent in
  tasks <-? old_epoch_tasks rules seed epoch exec;
  let input := bp_input (be_params exec) in
  deals <-? (if active (bi_chain_id input) SWARM (bi_number input) then draw_deal_tasks seed epoch exec else Ok []);
  if bool_decide (tasks = []) && bool_decide (deals = []) then Ok exec
  else
    c <-? view CONSENSUS (committeeCall epoch) exec;
    if bool_decide (cr_ids c = []) then Ok exec
    else
      let panel := draw_panel seed epoch (cr_ids c) in
      r <-? sys SWARM_STORAGE (beginAuditsCall epoch panel (map provider tasks) (map target tasks) (map at_height tasks)) exec;
      if bool_decide (deals = []) then Ok r.2
      else
        r <-? sys SWARM_STORAGE (addDealAuditsCall epoch (map dt_provider deals) (map dt_deal deals) (map dt_index deals)) r.2;
        Ok r.2.

(** ** The next committee *)

(** The snapshot sorted by id ([sort_by_key] is stable). *)
Definition sample_committee (rules : EpochRules) (parent : BlockHeader) (epoch min_age : Z) (exec : Exec)
    : result BlockError Committee :=
  snap <-? view STAKING (snapshotCall min_age) exec;
  let pairs := merge_sort fst_le (zip (sn_ids snap) (sn_stakes snap)) in
  lift_block (sample (seed parent) epoch (map fst pairs) (map snd pairs) (committee_size rules)).

Definition next_committee (rules : EpochRules) (parent : BlockHeader) (epoch : Z) (ph : BeginEpochReturn) (exec : Exec)
    : result BlockError Exec :=
  let next := u64 (epoch + 1) in
  if negb (be_cpScheduled ph) || (next <? be_firstCheckpointEpoch ph) then Ok exec
  else
    let first_of_phase := (next =? be_firstCheckpointEpoch ph) || (be_scheduled ph && (next =? be_firstPosEpoch ph)) in
    let min_age := if first_of_phase then pos_streak rules else 0 in
    c <-? sample_committee rules parent next min_age exec;
    c <-? (if Committee_is_empty c && (0 <? min_age) then sample_committee rules parent next 0 exec else Ok c);
    c <-? (if Committee_is_empty c then
             r <-? view CONSENSUS (committeeCall epoch) exec; Ok (from_parts (cr_ids r) (cr_weights r) (cr_seats r))
           else Ok c);
    r <-? sys CONSENSUS (setCommitteeCall next (members c) (c_weights c) (seats_bytes c)) exec;
    Ok r.2.

(** ** Rewards *)

(** What the producer is paid at once. *)
Definition minted_reward (rules : EpochRules) (producer : Producer) (timestamp : Z) : Z :=
  let reward := consensus_reward (emission_era (genesis_timestamp rules) timestamp) in
  match producer with
  | ByCommittee => 0
  | Miner => reward
  | MinerWithCheckpoints => share reward CHECKPOINT_MINER_BPS
  end.

(** Pays what the preview says, then requires the settlement to agree. *)
Definition settle_with (preview settle : Call Z) (exec : Exec) : result BlockError Exec :=
  payout <-? view REWARDS preview exec;
  exec <-? credit_u256 REWARDS payout exec;
  r <-? sys REWARDS settle exec;
  if negb (r.1 =? payout) then Err (BEvm "settle"%string) else Ok r.2.

(** The committee's part of the previous epoch's consensus rewards. *)
Definition epoch_emission (rules : EpochRules) (before : Phase) (parent : BlockHeader) (epoch : Z) : Z :=
  let parent_era := emission_era (genesis_timestamp rules) (hd_timestamp parent) in
  let emission := wrap 256 (consensus_reward parent_era * epoch_slots rules) in
  if is_checkpoint_epoch before (epoch - 1) then share emission (10000 - CHECKPOINT_MINER_BPS) else emission.

Definition settle_epoch (rules : EpochRules) (before : Phase) (parent : BlockHeader) (history : HistoryInputs)
    (epoch : Z) (exec : Exec) : result BlockError Exec :=
  if epoch <? 1 then Ok exec
  else
    let emission := epoch_emission rules before parent epoch in
    exec <-? settle_with (previewCall (epoch - 1) emission) (settleCall (epoch - 1) emission) exec;
    let storage := wrap 256 (storage_reward * epoch_slots rules) in
    exec <-? settle_with (previewStorageCall (epoch - 1) storage) (settleStorageCall (epoch - 1) storage) exec;
    cid <-? ok_or (hi_epoch_index history) (BEvm "missing index"%string);
    r <-? sys SWARM_STORAGE (recordEpochCall (epoch - 1) cid) exec;
    Ok r.2.

Definition thresholds (rules : EpochRules) (stats : StatsReturn) : bool * bool :=
  ((checkpoint_min_stakers rules <=? ss_stakers stats) && (checkpoint_min_stake rules <=? ss_total stats),
   (pos_min_stakers rules <=? ss_stakers stats) && (pos_min_stake rules <=? ss_total stats)).

(** ** The whole *)

Definition pre_block (rules : EpochRules) (parent : BlockHeader) (votes : CertVotes) (producer : Producer)
    (history : HistoryInputs) (exec : Exec) : result BlockError Exec :=
  let input := bp_input (be_params exec) in
  let number := bi_number input in
  let burned := default 0 (hd_base_fee_per_gas parent) * hd_gas_used parent in
  let minted := minted_reward rules producer (bi_timestamp input) in
  exec <-? credit_u256 (bi_beneficiary input) minted exec;
  r <-? sys REWARDS (onBlockCall burned minted (vt_epoch votes) (vt_round votes) (vt_bitmap votes)) exec;
  let exec := r.2 in
  exec <-? (if active (bi_chain_id input) TEE number then
              epoch <-? lift_block (epoch_of rules number); assign_attestations parent epoch exec
            else Ok exec);
  if negb (is_epoch_start rules number) then record_audits history exec
  else
    epoch <-? lift_block (epoch_of rules number);
    before <-? phase_in exec;
    exec <-? settle_epoch rules before parent history epoch exec;
    stats <-? view STAKING stakerStatsCall exec;
    let '(t1, t2) := thresholds rules stats in
    r <-? sys CONSENSUS (beginEpochCall epoch t1 t2 (pos_streak rules)) exec;
    let '(ph, exec) := r in
    exec <-? (if be_cpScheduled ph && (be_firstCheckpointEpoch ph <=? epoch) then begin_audits rules parent epoch exec
              else Ok exec);
    exec <-? record_audits history exec;
    exec <-? assign_disputes parent epoch exec;
    next_committee rules parent epoch ph exec.
End hooks.
