(* ===== verification/HooksFacts.v ===== *)
(** * Facts on the pre-block calls

    How much a block's system calls issue, and which deal copies are audited. *)

From S2P Require Import Prelude Types TypesFacts Params Committee History Epochs Forks TxPool Ipld TrieIface Store BlockStore.
From S2P Require Import Bls BlockCerts Exec Queries Hooks.
From stdpp Require Import base list list_numbers sorting gmap strings.
From Stdlib Require Import ZArith Lia.

Open Scope Z_scope.
Open Scope bolt_scope.

Ltac inv_bind :=
  repeat match goal with
  | H : result_bind _ _ = Ok _ |- _ =>
      let a := fresh "a" in let E := fresh "E" in apply result_bind_ok in H as (a & E & H)
  | H : Ok _ = Ok _ |- _ => injection H as H
  | H : Err _ = Ok _ |- _ => discriminate H
  | H : lift_block ?o = Ok _ |- _ => destruct o eqn:?; [cbn [lift_block] in H|discriminate H|discriminate H]
  end.

Lemma try_fold_ind {E S X} (f : X -> S -> result E S) (P : S -> S -> Prop) l :
  (forall s, P s s) -> (forall a b c, P a b -> P b c -> P a c) ->
  (forall x s s', f x s = Ok s' -> P s s') -> forall s s', try_fold f l s = Ok s' -> P s s'.
Proof.
  intros Hr Ht Hf. induction l as [|x l IH]; intros s s'; cbn; [by intros [= <-]|].
  intros (s1 & E1 & E2)%result_bind_ok. eauto.
Qed.

Lemma share_le amount bps : 0 <= amount -> 0 <= bps <= 10000 -> share amount bps <= amount.
Proof.
  intros Ha Hb. unfold share. apply Z.div_le_upper_bound; [lia|].
  transitivity (amount * bps); [|nia]. apply Z.mod_le; [nia|lia].
Qed.

(** ** What every call keeps

    A reflexive and transitive relation kept by the system calls is kept by each part of [pre_block]
    that credits nothing, and, if credits keep it too, by the whole. *)

Section closed.
Context `{K : Keccak} `{AR : AlloyReceipt} `{AB : !AlloyBlock} {V : Type} `{EV : !Revm V} `{SA : SolAbi} `{FC : ForkCode}.

Abbreviation Exec := (BlockExecutor (V := V)).

Context (Rel : Exec -> Exec -> Prop) (Hrefl : forall x, Rel x x) (Htrans : forall x y z, Rel x y -> Rel y z -> Rel x z).
Context (Hcall : forall to data out x x', system_call_data to data x = Ok (out, x') -> Rel x x').

Lemma sys_rel {A} to (c : Call A) x r : sys to c x = Ok r -> Rel x r.2.
Proof. unfold sys. intros Hk. inv_bind. subst. destruct a as [out x']. by eapply Hcall. Qed.

Ltac quiet :=
  repeat match goal with
  | H : (if ?b then _ else _) = Ok _ |- _ => destruct b
  | H : sys _ _ _ = Ok _ |- _ => apply sys_rel in H
  | _ => progress inv_bind
  end; subst; eauto.

Lemma record_audits_rel history x x' : record_audits history x = Ok x' -> Rel x x'.
Proof.
  unfold record_audits. intros Hk. inv_bind.
  apply (try_fold_ind record_audit Rel) in E; [|done|exact Htrans|unfold record_audit; intros; quiet].
  apply (try_fold_ind record_attestation Rel) in E0; [|done|exact Htrans|unfold record_attestation; intros; quiet].
  apply (try_fold_ind record_verdict Rel) in Hk; [|done|exact Htrans|unfold record_verdict; intros; quiet].
  eauto.
Qed.

Lemma assign_disputes_rel parent epoch x x' : assign_disputes parent epoch x = Ok x' -> Rel x x'.
Proof. unfold assign_disputes. intros Hk. quiet. Qed.

Lemma assign_attestations_rel parent epoch x x' : assign_attestations parent epoch x = Ok x' -> Rel x x'.
Proof. unfold assign_attestations. intros Hk. quiet. Qed.

Lemma begin_audits_rel rules parent epoch x x' : begin_audits rules parent epoch x = Ok x' -> Rel x x'.
Proof. unfold begin_audits. intros Hk. quiet. Qed.

Lemma next_committee_rel rules parent epoch ph x x' : next_committee rules parent epoch ph x = Ok x' -> Rel x x'.
Proof.
  unfold next_committee. intros Hk. destruct (negb _ || _); [inv_bind; by subst|].
  inv_bind. subst. by apply sys_rel in E2.
Qed.

(** The parts of [pre_block], for a block that is the first of its epoch and for one that is not. *)
Lemma pre_block_inv rules parent votes producer history x x' :
  pre_block rules parent votes producer history x = Ok x' ->
  exists x1 x2, credit_u256 (bi_beneficiary (bp_input (be_params x)))
                  (minted_reward rules producer (bi_timestamp (bp_input (be_params x)))) x = Ok x1
    /\ Rel x1 x2
    /\ if is_epoch_start rules (bi_number (bp_input (be_params x))) then
         exists epoch before x3, epoch_of rules (bi_number (bp_input (be_params x))) = Done epoch
           /\ phase_in x2 = Ok before /\ settle_epoch rules before parent history epoch x2 = Ok x3 /\ Rel x3 x'
       else Rel x2 x'.
Proof.
  unfold pre_block. intros (x1 & E1 & Hk)%result_bind_ok. apply result_bind_ok in Hk as (r & Er & Hk).
  apply sys_rel in Er. apply result_bind_ok in Hk as (x2 & E2 & Hk).
  assert (Rel r.2 x2) as H2 by (destruct (active _ _ _); inv_bind; subst; [by eapply assign_attestations_rel|done]).
  exists x1, x2. split; [done|]. split; [eauto|].
  destruct (is_epoch_start _ _); cbn [negb] in Hk; [|by eapply record_audits_rel].
  apply result_bind_ok in Hk as (epoch & He & Hk). apply result_bind_ok in Hk as (before & Hb & Hk).
  apply result_bind_ok in Hk as (x3 & E3 & Hk). exists epoch, before, x3.
  split; [destruct (epoch_of _ _); [by injection He as ->|done|done]|]. split; [done|]. split; [done|].
  apply result_bind_ok in Hk as (stats & _ & Hk). destruct (thresholds rules stats) as [t1 t2].
  apply result_bind_ok in Hk as ([ph z] & Hz & Hk). apply sys_rel in Hz. cbn [snd] in Hz.
  apply result_bind_ok in Hk as (y1 & Hy1 & Hk). apply result_bind_ok in Hk as (y2 & Hy2 & Hk).
  apply result_bind_ok in Hk as (y3 & Hy3 & Hk).
  assert (Rel z y1) as H6.
  { destruct (be_cpScheduled ph && _); inv_bind; subst; [by eapply begin_audits_rel|done]. }
  apply record_audits_rel in Hy2. apply assign_disputes_rel in Hy3. apply next_committee_rel in Hk. eauto.
Qed.

Context (Hcredit : forall to n x x', credit to n x = Ok x' -> Rel x x').

Lemma credit_u256_rel to n x x' : credit_u256 to n x = Ok x' -> Rel x x'.
Proof. unfold credit_u256. intros Hk. quiet. Qed.

Lemma settle_epoch_rel rules before parent history epoch x x' :
  settle_epoch rules before parent history epoch x = Ok x' -> Rel x x'.
Proof.
  assert (forall p s x x', settle_with p s x = Ok x' -> Rel x x') as Hs.
  { intros p s y y'. unfold settle_with. intros Hk. inv_bind. destruct (negb _); [done|]. inv_bind. subst.
    apply credit_u256_rel in E0. apply sys_rel in E1. eauto. }
  unfold settle_epoch. intros Hk. destruct (epoch <? 1); [inv_bind; by subst|]. inv_bind. subst.
  apply Hs in E, E0. apply sys_rel in E2. eauto.
Qed.

Lemma pre_block_rel rules parent votes producer history x x' :
  pre_block rules parent votes producer history x = Ok x' -> Rel x x'.
Proof.
  intros (x1 & x2 & E1 & H2 & Hk)%pre_block_inv. apply credit_u256_rel in E1.
  destruct (is_epoch_start _ _); [|eauto]. destruct Hk as (epoch & before & x3 & _ & _ & E3 & H4).
  apply settle_epoch_rel in E3. eauto.
Qed.
End closed.

(** ** Issuance *)

(** The total of all balances in an EVM state: a call moves or burns, a credit adds. *)
Class SupplyLaws `{AlloyBlock} {V : Type} (EV : Revm V) (supply_of : EvmState -> Z) : Prop := {
  call_supply : forall input to data s r s',
    system_call_commit input to data s = Ok (r, s') -> supply_of s' <= supply_of s;
  credit_supply : forall a n s s', increment_balances a n s = Ok s' -> supply_of s' = supply_of s + n;
}.

Section issuance.
Context `{K : Keccak} `{AR : AlloyReceipt} `{AB : !AlloyBlock} {V : Type} `{EV : !Revm V} `{SA : SolAbi} `{FC : ForkCode}.
Context (supply_of : EvmState -> Z) {SL : SupplyLaws EV supply_of}.

Abbreviation Exec := (BlockExecutor (V := V)).

Definition supply_in (x : Exec) : Z := supply_of (be_state x).

(** One system call, and a run of them that changes nothing else. *)
Definition called (x x' : Exec) : Prop := exists to data out, system_call_data to data x = Ok (out, x').

Lemma called_refl x : rtc called x x.
Proof. constructor. Qed.

Lemma called_trans x y z : rtc called x y -> rtc called y z -> rtc called x z.
Proof. apply transitivity. Qed.

Lemma called_once to data out x x' : system_call_data to data x = Ok (out, x') -> rtc called x x'.
Proof. intros E. apply rtc_once. by exists to, data, out. Qed.

(** Calls issue nothing. *)
Lemma calls_issue_nothing x x' : rtc called x x' -> supply_in x' <= supply_in x.
Proof.
  induction 1 as [x|x y z (to & data & out & Hk) _ IH]; [lia|]. etrans; [exact IH|].
  unfold system_call_data in Hk. inv_bind. destruct (er_success _); [|done]. inv_bind. subst.
  destruct a as [res s]. unfold supply_in. cbn. by eapply call_supply.
Qed.

Lemma credit_u256_issue to n x x' : credit_u256 to n x = Ok x' -> supply_in x' = supply_in x + n.
Proof.
  unfold credit_u256, credit. destruct (n =? 0) eqn:E; [intros [= <-]; lia|].
  destruct (2 ^ 128 <=? n); [done|]. intros Hk. inv_bind. subst. unfold supply_in. cbn. by eapply credit_supply.
Qed.

(** What a preview answers is credited, once. *)
Lemma settle_with_issue preview settle x x' :
  settle_with preview settle x = Ok x' -> exists v, view REWARDS preview x = Ok v /\ supply_in x' <= supply_in x + v.
Proof.
  unfold settle_with. intros Hk. inv_bind. destruct (negb _); [done|]. inv_bind. subst. eexists. split; [exact E|].
  apply credit_u256_issue in E0. apply (sys_rel (rtc called) called_once), calls_issue_nothing in E1. lia.
Qed.

(** The consensus rewards of an epoch at the parent's era, and the part of them left to the committee
    of the epoch before [epoch]: 40% when the epoch was mined under checkpoints, all otherwise. *)
Definition epoch_rewards (rules : EpochRules) (parent : BlockHeader) : Z :=
  wrap 256 (consensus_reward (emission_era (genesis_timestamp rules) (hd_timestamp parent)) * epoch_slots rules).

Definition committee_emission (rules : EpochRules) (before : Phase) (parent : BlockHeader) (epoch : Z) : Z :=
  if is_checkpoint_epoch before (epoch - 1) then wrap 256 (epoch_rewards rules parent * 4000) / 10000
  else epoch_rewards rules parent.

(** What a preview may answer: no more than the emission it is asked about. *)
Definition bounded_preview (preview : Z -> Z -> Call Z) : Prop :=
  forall epoch emission x v, view REWARDS (preview epoch emission) x = Ok v -> v <= emission.

(** What settling issues on a state [y]: the answers [p] and [q] of the two previews for the epoch
    before [epoch]. *)
Definition epoch_issue (rules : EpochRules) (before : Phase) (parent : BlockHeader) (epoch : Z) (y : Exec) (p q : Z) : Prop :=
  if epoch <? 1 then p = 0 /\ q = 0
  else view REWARDS (previewCall (epoch - 1) (committee_emission rules before parent epoch)) y = Ok p
       /\ exists z, view REWARDS (previewStorageCall (epoch - 1) (wrap 256 (WEI_PER_BOLT * epoch_slots rules))) z = Ok q.

Lemma settle_epoch_issue rules before parent history epoch x x' :
  settle_epoch rules before parent history epoch x = Ok x' ->
  exists p q, epoch_issue rules before parent epoch x p q /\ supply_in x' <= supply_in x + p + q.
Proof.
  unfold settle_epoch, epoch_issue. destruct (epoch <? 1); [intros [= <-]; exists 0, 0; split; [done|lia]|].
  intros Hk. inv_bind. subst. apply (sys_rel (rtc called) called_once), calls_issue_nothing in E2.
  apply settle_with_issue in E as (p & Hp & ?), E0 as (q & Hq & ?). exists p, q. split; [|lia].
  split; [exact Hp|]. by exists a.
Qed.

(** C6.  Issuance: the system calls of a block add to the total of all balances at most the producer's
    reward (the consensus reward of the block's era when mined, 60% of it when a committee
    finalizes, nothing under PoS), plus, at the first block of an epoch only, what the rewards
    contract answers when it is asked to share out the epoch before: asked once about that epoch's
    consensus rewards (only 40% of them when, by the phase read after the reward and before the
    settlement, the epoch was mined under checkpoints) and once about 1 BOLT of storage reward per
    block.  When the contract keeps to sharing out no more than it is asked about, that is at most
    these emissions. *)
Theorem pre_block_issues_at_most (rules : EpochRules) (parent : BlockHeader) (votes : CertVotes) (producer : Producer)
    (history : HistoryInputs) (x x' : Exec) (Hrun : pre_block rules parent votes producer history x = Ok x') :
  let input := bp_input (be_params x) in
  let reward := consensus_reward (emission_era (genesis_timestamp rules) (bi_timestamp input)) in
  let minted := match producer with
                | Miner => reward
                | MinerWithCheckpoints => wrap 256 (reward * 6000) / 10000
                | ByCommittee => 0
                end in
  if is_epoch_start rules (bi_number input) then
    exists epoch x1 y before p q, epoch_of rules (bi_number input) = Done epoch
      /\ credit_u256 (bi_beneficiary input) minted x = Ok x1 /\ rtc called x1 y /\ phase_in y = Ok before
      /\ epoch_issue rules before parent epoch y p q
      /\ supply_in x' <= supply_in x + minted + p + q
      /\ (bounded_preview previewCall -> bounded_preview previewStorageCall -> 1 <= epoch ->
          p + q <= committee_emission rules before parent epoch + wrap 256 (WEI_PER_BOLT * epoch_slots rules))
  else supply_in x' <= supply_in x + minted.
Proof.
  cbv zeta. apply (pre_block_inv (rtc called) called_refl called_trans called_once) in Hrun as (x1 & x2 & E1 & H2 & Hk).
  change (minted_reward _ _ _) with (match producer with
    | Miner => consensus_reward (emission_era (genesis_timestamp rules) (bi_timestamp (bp_input (be_params x))))
    | MinerWithCheckpoints =>
        wrap 256 (consensus_reward (emission_era (genesis_timestamp rules) (bi_timestamp (bp_input (be_params x)))) * 6000) / 10000
    | ByCommittee => 0 end) in E1.
  pose proof (credit_u256_issue _ _ _ _ E1) as Hs1. pose proof (calls_issue_nothing _ _ H2) as Hs2.
  destruct (is_epoch_start _ _); [|apply calls_issue_nothing in Hk; lia].
  destruct Hk as (epoch & before & x3 & He & Hb & E3 & Hs4%calls_issue_nothing).
  apply settle_epoch_issue in E3 as (p & q & Hpq & Hs3). exists epoch, x1, x2, before, p, q. split_and!; [done..|lia|].
  intros H1 Hst Hep. unfold epoch_issue in Hpq. replace (epoch <? 1) with false in Hpq by lia.
  destruct Hpq as (Hp%H1 & z & Hq%Hst). lia.
Qed.
End issuance.

(** ** Deal audits *)

Section deals.
Context `{K : Keccak} `{AR : AlloyReceipt} `{AB : !AlloyBlock} {V : Type} `{EV : !Revm V} `{SA : SolAbi}.

Lemma live_copies_sound epoch s n : forall k l, live_copies epoch k n s = Done l ->
  Forall (fun p => exists j since, sl_providers s !! j = Some p /\ sl_open s !! j = Some true
                                   /\ sl_since s !! j = Some since /\ since < epoch) l.
Proof.
  induction n as [|n IH]; intros k l; cbn; [intros [= <-]; constructor|].
  destruct (sl_open s !! k) as [[|]|] eqn:Eo; [|apply IH|done].
  destruct (sl_since s !! k) as [since|] eqn:Es; [|done]. destruct (sl_providers s !! k) as [p|] eqn:Ep; [|done].
  destruct (live_copies epoch (S k) n s) as [rest| |] eqn:El; [|done|done]. cbn. intros [= <-].
  specialize (IH _ _ El). destruct (since <? epoch) eqn:Et; [|done]. constructor; [|done].
  exists k, since. split_and!; try done. lia.
Qed.

(** A task the audit rules allow: an open copy past its first epoch of a deal still running, and one
    of the deal's blocks. *)
Definition auditable (epoch count : Z) (x : BlockExecutor (V := V)) (t : DealTask) : Prop :=
  0 <= dt_deal t < count
  /\ (exists d, view SWARM_STORAGE (dealCall (dt_deal t)) x = Ok d
        /\ de_closed d = false /\ epoch < de_endEpoch d /\ 0 <= dt_index t < de_blocks d)
  /\ exists s j since, view SWARM_STORAGE (dealSlotsCall (dt_deal t)) x = Ok s
        /\ sl_providers s !! j = Some (dt_provider t) /\ sl_open s !! j = Some true
        /\ sl_since s !! j = Some since /\ since < epoch.

Lemma draw_index_range seed tag epoch i n r :
  0 <= n -> draw_index seed tag epoch i n = Done r -> 0 <= r < n.
Proof.
  unfold draw_index. intros Hn. destruct (n =? 0) eqn:E; [done|]. intros [= <-]. apply Z.mod_pos_bound. lia.
Qed.

Lemma deal_attempt_sound seed epoch count n x t :
  0 <= count -> (forall id d, view SWARM_STORAGE (dealCall id) x = Ok d -> 0 <= de_blocks d) ->
  deal_attempt seed epoch count n x = Ok (Some t) -> auditable epoch count x t.
Proof.
  intros Hc Hb. unfold deal_attempt. intros (id & Ei & Hk)%result_bind_ok.
  destruct (draw_index seed (ascii_bytes "audit/deal") epoch n count) as [id'| |] eqn:Ed; [|done|done]. injection Ei as ->.
  apply result_bind_ok in Hk as (d & Evd & Hk). destruct (_ || _) eqn:Eb; [done|].
  apply result_bind_ok in Hk as (s & Evs & Hk). apply result_bind_ok in Hk as (live & El & Hk).
  destruct (live_copies epoch 0 _ s) as [live'| |] eqn:Elc; [|done|done]. injection El as ->.
  case_bool_decide; [done|]. apply result_bind_ok in Hk as (i & _ & Hk). apply result_bind_ok in Hk as (who & Ew & Hk).
  apply result_bind_ok in Hk as (b & Ebl & Hk). injection Hk as <-. specialize (Hb _ _ Evd).
  destruct (draw_index seed (ascii_bytes "audit/deal-block") epoch n (de_blocks d)) as [b'| |] eqn:Edb; [|done|done].
  injection Ebl as ->. apply draw_index_range in Ed; [|done]. apply draw_index_range in Edb; [|done].
  destruct (live !! Z.to_nat i) as [w|] eqn:Elw; [|done]. injection Ew as ->.
  pose proof (live_copies_sound _ _ _ _ _ Elc) as Hlive. rewrite Forall_forall in Hlive.
  destruct (Hlive who ltac:(by eapply list_elem_of_lookup_2)) as (j & since & ? & ? & ? & ?).
  apply orb_false_iff in Eb as [[Ecl Een]%orb_false_iff _].
  split; [done|]. split; [exists d; cbn; split_and!; try done; lia|]. exists s, j, since. done.
Qed.

Lemma deal_attempts_sound seed epoch count i l x t :
  0 <= count -> (forall id d, view SWARM_STORAGE (dealCall id) x = Ok d -> 0 <= de_blocks d) ->
  deal_attempts seed epoch count i l x = Ok (Some t) -> auditable epoch count x t.
Proof.
  intros Hc Hb. induction l as [|a l IH]; cbn; [done|]. intros ([t'|] & E & Hk)%result_bind_ok; [|by apply IH].
  injection Hk as ->. by eapply deal_attempt_sound.
Qed.

Lemma deal_tasks_sound seed epoch count l x : forall tasks,
  0 <= count -> (forall id d, view SWARM_STORAGE (dealCall id) x = Ok d -> 0 <= de_blocks d) ->
  deal_tasks seed epoch count l x = Ok tasks ->
  (length tasks <= length l)%nat /\ Forall (auditable epoch count x) tasks.
Proof.
  induction l as [|i l IH]; intros tasks Hc Hb; cbn [deal_tasks]; [intros [= <-]; split; [cbn; lia|constructor]|].
  intros (o & Eo & Hk)%result_bind_ok. apply result_bind_ok in Hk as (rest & Er & Hk). injection Hk as <-.
  destruct (IH rest Hc Hb Er) as [Hl Ha]. destruct o as [t|]; cbn [length]; (split; [lia|]); [|done].
  constructor; [by eapply deal_attempts_sound|done].
Qed.

(** Deal audits draw only what may be audited: at most 16 tasks, each an existing deal that is not
    closed and has not ended, a copy of it that is open and past its first epoch, and the index of
    one of its blocks. *)
Theorem deal_audits_are_auditable (seed epoch count : Z) (x : BlockExecutor (V := V)) (tasks : list DealTask)
    (Hcount : view SWARM_STORAGE dealCountCall x = Ok count) (Hrange : 0 <= count)
    (Hblocks : forall id d, view SWARM_STORAGE (dealCall id) x = Ok d -> 0 <= de_blocks d)
    (Hrun : draw_deal_tasks seed epoch x = Ok tasks) :
  (length tasks <= 16)%nat /\ Forall (auditable epoch count x) tasks.
Proof.
  unfold draw_deal_tasks in Hrun. rewrite Hcount in Hrun. cbn [result_bind] in Hrun.
  destruct (count =? 0); [injection Hrun as <-; split; [cbn; lia|constructor]|].
  apply deal_tasks_sound in Hrun as [Hl Hall]; [|unfold U64_MAX; lia|done].
  split; [exact Hl|]. eapply Forall_impl; [exact Hall|]. intros t (Ht & Hrest). split; [lia|done].
Qed.
End deals.

(** ** A concrete system *)

Module HooksWitness.
Import ExecToy.

(** Contracts that answer from the call alone: three deals with two copies, half of any emission. *)
Definition answer {A} (c : Call A) : option A :=
  match c in Call A return option A with
  | snapshotCall _ => Some (mkSnapshot [2; 1] [5; 7])
  | stakerStatsCall => Some (mkStats 2 12)
  | keysOfCall _ => Some (mkKeys [] [])
  | idOfPubkeyCall _ => Some 0
  | beginEpochCall e _ _ _ => Some (mkBeginEpoch true 0 false 0)
  | setCommitteeCall _ _ _ _ => Some ()
  | phaseCall => Some (mkPhaseReturn true 0 false 0 0 0)
  | committeeCall _ => Some (mkCommitteeReturn [1; 2] [1; 1] [0; 0; 0; 1])
  | onBlockCall _ _ _ _ _ => Some ()
  | settleCall _ e => Some (e / 2)
  | previewCall _ e => if e <? 0 then None else Some (e / 2)
  | settleStorageCall _ e => Some (e / 2)
  | previewStorageCall _ e => if e <? 0 then None else Some (e / 2)
  | supplyCall => Some 0
  | recordEpochCall _ _ => Some ()
  | epochIndexCall _ => Some [1]
  | indexedEpochsCall => Some 1
  | beginAuditsCall _ _ _ _ _ => Some ()
  | recordAuditCall _ _ _ => Some true
  | auditsCall _ => Some (mkAuditsReturn [] [] [] [] [])
  | activeStorageProvidersCall => Some [9]
  | addDealAuditsCall _ _ _ _ => Some ()
  | dealCall id => Some (mkDealReturn 10 99 (id =? 1))
  | dealSlotsCall _ => Some (mkSlotsReturn [5; 6] [0; 7] [true; true])
  | dealCountCall => Some 3
  | assignDisputesCall _ _ => Some ()
  | recordVerdictCall _ _ => Some true
  | jobCall _ => Some (mkJobReturn 0)
  | compute_panelCall _ => Some []
  | pendingDisputesCall => Some [4]
  | disputesCall _ => Some (mkDisputeReturn 0 0)
  | assignAttestationsCall _ _ => Some ()
  | recordAttestationCall _ _ _ => Some true
  | requestCall _ => Some (mkRequestReturn 0 0)
  | requestCountCall => Some 0
  | pendingAttestationsCall => Some [8]
  | leases_panelCall _ => Some []
  end.

#[export] Instance toy_abi : SolAbi := {| abi_encode _ _ := []; abi_decode_returns _ c _ := answer c |}.
#[export] Instance no_code : ForkCode := fun _ => [].

Definition total (s : @EvmState _ _ _ () gas_evm) : Z := s.

#[export] Instance gas_supply : SupplyLaws gas_evm total.
Proof.
  split; unfold total; cbn.
  - intros input to data s r s' [= _ <-]. lia.
  - intros a n s s' [= <-]. lia.
Qed.

Definition rules : EpochRules := mkEpochRules 4 8 1 1 1 2 1 1 3 0.
Definition parent : BlockHeader := mkBlockHeader 1 4 48 5 100 7 8 9 12 14 [] 13 50 [9] (Some 17) (Some 11) [].

(** The first block of epoch 1. *)
Definition start : option (BlockExecutor (V := ())) :=
  match BlockExecutor_new (V := ()) () params with Ok x => Some x | Err _ => None end.

Definition inputs : HistoryInputs := mkHistoryInputs (Some [1; 2]) [mkAuditResult 0 3 true] [(4, false)] [].

Lemma half_preview_bounded (c : Z -> Z -> Call Z) :
  (forall e em, answer (c e em) = if em <? 0 then None else Some (em / 2)) -> bounded_preview (V := ()) c.
Proof.
  intros Hc e em x v. unfold view, executor_view_call, view_call. cbn. rewrite Hc. destruct (em <? 0) eqn:E; [done|].
  intros [= <-]. apply Z.div_le_upper_bound; lia.
Qed.

(** The miner of the first block of epoch 1, mined under checkpoints, is paid 60% of 31 BOLT, and at
    most 40% of the 4 * 31 BOLT of epoch 0 and 4 BOLT for storage are settled. *)
Lemma pre_block_issues_at_most_witness :
  exists x x' p q, start = Some x /\ pre_block rules parent (mkCertVotes 0 0 []) MinerWithCheckpoints inputs x = Ok x'
    /\ supply_in total x' <= supply_in total x + 186 * WEI_PER_BOLT / 10 + p + q
    /\ p + q <= (496 * WEI_PER_BOLT / 10) + 4 * WEI_PER_BOLT.
Proof.
  destruct start as [x|] eqn:Ex; [|vm_compute in Ex; discriminate].
  destruct (pre_block rules parent (mkCertVotes 0 0 []) MinerWithCheckpoints inputs x) as [x'|] eqn:E;
    [|vm_compute in Ex; injection Ex as <-; vm_compute in E; discriminate].
  assert (be_params x = params) as Hp by (vm_compute in Ex; injection Ex as <-; reflexivity).
  assert (forall z, view CONSENSUS phaseCall (z : BlockExecutor (V := ())) = Ok (mkPhaseReturn true 0 false 0 0 0)) as Hph by done.
  pose proof (pre_block_issues_at_most total rules parent (mkCertVotes 0 0 []) MinerWithCheckpoints inputs x x' E) as H.
  cbv zeta in H. rewrite Hp in H. change (is_epoch_start rules (bi_number (bp_input params))) with true in H. cbv iota in H.
  destruct H as (epoch & x1 & y & before & p & q & He & _ & _ & Hb & _ & Hs & Hpq).
  exists x, x', p, q. split; [done|]. split; [done|]. split; [exact Hs|].
  vm_compute in He. injection He as <-. vm_compute in Hb. injection Hb as <-.
  refine (Hpq (half_preview_bounded previewCall (fun _ _ => eq_refl))
    (half_preview_bounded previewStorageCall (fun _ _ => eq_refl)) _). lia.
Defined.

(** Deal 1 is closed and the second copies are too young: the tasks are the first copies of 0 and 2. *)
Lemma deal_audits_are_auditable_witness :
  exists x tasks, start = Some x /\ draw_deal_tasks 8 3 x = Ok tasks /\ tasks <> []
    /\ Forall (auditable (V := ()) 3 3 x) tasks.
Proof.
  destruct start as [x|] eqn:Ex; [|vm_compute in Ex; discriminate].
  destruct (draw_deal_tasks 8 3 x) as [tasks|] eqn:E;
    [|vm_compute in Ex; injection Ex as <-; vm_compute in E; discriminate].
  exists x, tasks. split; [done|]. split; [done|]. split.
  - vm_compute in Ex. injection Ex as <-. vm_compute in E. injection E as <-. discriminate.
  - refine (proj2 (deal_audits_are_auditable 8 3 3 x tasks _ ltac:(lia) _ E)); [reflexivity|].
    intros id d. unfold view, executor_view_call, view_call. cbn. intros [= <-]. cbn. lia.
Defined.
End HooksWitness.
