(* ===== verification/Chain.v ===== *)
(** * The chain

    Models crates/chain/src/lib.rs: the committed head, the blocks executed but not final
    ([ch_pending]), and the operations that execute, verify, commit and import blocks.  A [Chain] is
    the database and the in-memory tables of the struct; an operation is a computation of the monad
    [CM], which returns a result and the chain after it.  Memory keeps its changes when an operation
    fails; a write transaction that does not reach [commit] leaves the database as it was.  One
    operation runs at a time, as under the locks of the code; where a lock is released between two
    steps of one operation, nothing else runs in between. *)

From S2P Require Import Prelude Types TypesFacts Params Bls AuditCerts Pow Committee History Epochs Forks TxPool Ipld Car Index.
From S2P Require Import TrieIface Store StoreFacts StoreHistory StoreProps Overlay BlockStore BlockCerts Exec Queries Hooks.
From stdpp Require Import base list list_numbers sorting gmap fin_maps strings.
From Stdlib Require Import ZArith Lia.

Open Scope Z_scope.
Open Scope bolt_scope.

(** ** Gas limits *)

Definition valid_gas_limit (parent_gas_limit gas_limit : Z) : bool :=
  let max_delta := parent_gas_limit / 1024 in
  (fst GAS_LIMIT_RANGE <=? gas_limit) && (gas_limit <=? snd GAS_LIMIT_RANGE)
  && (Z.abs (gas_limit - parent_gas_limit) <? Z.max max_delta 1).

(** [Ord::clamp]. *)
Definition clamp (x lo hi : Z) : Z := Z.max lo (Z.min x hi).

Definition next_gas_limit (parent_gas_limit target : Z) : Z :=
  let step := saturating_sub (parent_gas_limit / 1024) 1 in
  let target := if target =? 0 then parent_gas_limit else target in
  let target := clamp target (fst GAS_LIMIT_RANGE) (snd GAS_LIMIT_RANGE) in
  let next := if parent_gas_limit <? target
              then u64 (parent_gas_limit + Z.min step (target - parent_gas_limit))
              else parent_gas_limit - Z.min step (parent_gas_limit - target) in
  clamp next (fst GAS_LIMIT_RANGE) (snd GAS_LIMIT_RANGE).

Definition EXTRA_DATA_LEN : Z := 8 + 96.

(** ** Data *)

Record Certs := mkCerts { ct_qc : bytes; ct_audits : list bytes }.

Definition Certs_default : Certs := mkCerts [] [].
Definition Certs_of (env : Envelope) : Certs := mkCerts (env_qc env) (env_audits env).
Definition Certs_from (qc : bytes) : Certs := mkCerts qc [].

Inductive BlockKind :=
  | Mined (difficulty : Z) (checkpointing : bool)
  | Pos.

(** The parts of [ChainConfig] and of the struct that do not change. *)
Record ChainConfig := mkConfig {
  cf_chain_id : Z;
  cf_min_base_fee_wei : Z;
  cf_rules : EpochRules;
  cf_asert : AsertParams;
  cf_algorithm : Algorithm;
  cf_genesis_hash : B256;
}.

#[export] Instance sealed_header `{Keccak} `{HeaderRlp} : SealedHeader := {|
  Header := BlockHeader;
  hash_slow := header_hash;
  with_nonce h n :=
    mkBlockHeader (hd_parent_hash h) (hd_number h) (hd_timestamp h) (hd_difficulty h) (hd_gas_limit h) n
      (hd_state_root h) (hd_mix_hash h) (hd_transactions_root h) (hd_receipts_root h) (hd_logs_bloom h)
      (hd_beneficiary h) (hd_gas_used h) (hd_extra_data h) (hd_base_fee_per_gas h) (hd_parent_beacon_block_root h)
      (hd_rest h);
  nonce_of := hd_nonce;
  difficulty_of := hd_difficulty;
|}.

Section chain.
Context `{K : Keccak} `{Sh : Sha256} `{R : HeaderRlp} `{AR : AlloyReceipt} `{AB : !AlloyBlock} `{BR : !BodyRlp}.
Context `{CE : DagCbor Envelope} `{CL : DagCbor (list Cid)} `{CI : DagCbor EpochIndex} `{CB : CidBytes}.
Context `{SR : StateRlp} `{TO : TrieOps} `{SA : SolAbi} `{FC : ForkCode} `{HS : Hasher}.
Context `{B : Blst} `{CC : !CertCodec} `{DA : DagCbor AuditCert} `{DV : DagCbor VerdictCert} `{DT : DagCbor AttestCert}.

Definition mix_hash (parent : BlockHeader) (extra_data : bytes) : B256 :=
  if Z.of_nat (length extra_data) =? EXTRA_DATA_LEN then
    keccak256 (b256_bytes (hd_mix_hash parent) ++ b256_bytes (keccak256 (drop 8 extra_data)))
  else keccak256 (b256_bytes (hd_mix_hash parent) ++ be_bytes 8 (u64 (hd_number parent + 1))).

Record PendingBlock := mkPending {
  pb_hash : B256;
  pb_header : BlockHeader;
  pb_executed : ExecutedBlock;
  pb_changes : StateChangeset;
  pb_bundle : BlockBundle;
}.

Record SideBlock := mkSide {
  sd_header : BlockHeader;
  sd_transactions : list TxEnvelope;
  sd_root : option Cid;
  sd_td : Z;
  sd_cert : Certs;
}.

Record Chain := mkChain {
  ch_blocks : BlockTables;
  ch_state : StateTables;
  ch_pending : gmap B256 PendingBlock;
  ch_side : gmap B256 SideBlock;
  ch_gas_target : Z;
  ch_audit_queue : list bytes;
}.

Definition with_db (b : BlockTables) (t : StateTables) (c : Chain) : Chain :=
  mkChain b t (ch_pending c) (ch_side c) (ch_gas_target c) (ch_audit_queue c).
Definition with_pending (m : gmap B256 PendingBlock) (c : Chain) : Chain :=
  mkChain (ch_blocks c) (ch_state c) m (ch_side c) (ch_gas_target c) (ch_audit_queue c).
Definition with_side (m : gmap B256 SideBlock) (c : Chain) : Chain :=
  mkChain (ch_blocks c) (ch_state c) (ch_pending c) m (ch_gas_target c) (ch_audit_queue c).
Definition with_queue (q : list bytes) (c : Chain) : Chain :=
  mkChain (ch_blocks c) (ch_state c) (ch_pending c) (ch_side c) (ch_gas_target c) q.

(** What execution reads: the committed tables under the changes of pending blocks. *)
Record ChainView := mkView { vw_state : StateTables; vw_blocks : BlockTables; vw_changes : Changes }.

Context `{EV : !Revm ChainView}.

Record BuiltBlock := mkBuilt {
  bb_header : BlockHeader;
  bb_hash : B256;
  bb_included : list B256;
  bb_rejected : list (B256 * TxRejection * bool);
  bb_bundle : BlockBundle;
}.

(** ** Computations on a chain *)

Definition CM (A : Type) : Type := Chain -> result ChainError A * Chain.

Definition cret {A} (a : A) : CM A := fun c => (Ok a, c).
Definition cbind {A B} (m : CM A) (k : A -> CM B) : CM B := fun c =>
  match m c with
  | (Ok a, c) => k a c
  | (Err e, c) => (Err e, c)
  end.
Definition clift {A} (r : result ChainError A) : CM A := fun c => (r, c).
Definition cread {A} (f : Chain -> result ChainError A) : CM A := fun c => (f c, c).
Definition cmodify (f : Chain -> Chain) : CM () := fun c => (Ok (), f c).

Variable cfg : ChainConfig.
Let chain_id := cf_chain_id cfg.
Let rules := cf_rules cfg.
#[local] Instance chain_queries : SystemQueries ChainView := contract_queries (cf_chain_id cfg).

Definition store_err {A} (r : result StoreError A) : result ChainError A :=
  match r with Ok a => Ok a | Err e => Err (EStore e) end.

Definition exec_err {A} (r : result BlockError A) : result ChainError A :=
  match r with Ok a => Ok a | Err BAbort => Err EAbort | Err _ => Err (EExec "block") end.

(** ** Reading *)

Definition head_number (c : Chain) : Z := default 0 (meta_head (ch_blocks c)).

Definition head (c : Chain) : result ChainError BlockHeader :=
  ok_or (headers (ch_blocks c) !! head_number c) (EExec "missing head header").

Definition latest (c : Chain) : ChainView := mkView (ch_state c) (ch_blocks c) Changes_default.

Definition chain_phase (c : Chain) : result ChainError Phase := query (q_phase (latest c)).

Definition chain_fork_id (c : Chain) : result ChainError ForkId :=
  h <-? head c; Ok (fork_id (cf_genesis_hash cfg) (forks chain_id) (hd_number h)).

Definition head_total_difficulty (c : Chain) : Z := default 0 (total_difficulty (head_number c) (ch_blocks c)).

Definition chain_next_base_fee (c : Chain) : result ChainError Z :=
  h <-? head c; Ok (next_base_fee h (cf_min_base_fee_wei cfg)).

Definition set_gas_target (gas : Z) (c : Chain) : Chain :=
  mkChain (ch_blocks c) (ch_state c) (ch_pending c) (ch_side c) gas (ch_audit_queue c).

Definition chain_gas_limit (c : Chain) (parent : BlockHeader) : Z := next_gas_limit (hd_gas_limit parent) (ch_gas_target c).

Definition pending (c : Chain) (hash : B256) : option PendingBlock := ch_pending c !! hash.

Definition drop_pending (hash : B256) (c : Chain) : Chain := with_pending (delete hash (ch_pending c)) c.

Definition header_of (c : Chain) (hash : B256) : option BlockHeader :=
  match ch_pending c !! hash with
  | Some p => Some (pb_header p)
  | None => n ← hash_num (ch_blocks c) !! hash; headers (ch_blocks c) !! n
  end.

Definition header_any (c : Chain) (hash : B256) : option BlockHeader :=
  match header_of c hash with
  | Some h => Some h
  | None => sd_header <$> ch_side c !! hash
  end.

Definition difficulty_after (c : Chain) (parent : BlockHeader) : result ChainError Z :=
  solve_time <-? (if hd_number parent <=? 1 then Ok 0
                  else
                    gp <-? ok_or (header_any c (hd_parent_hash parent)) (EUnknownParent (hd_parent_hash parent));
                    Ok (saturating_sub (hd_timestamp parent) (hd_timestamp gp)));
  Ok (next_difficulty (cf_asert cfg) (hd_number parent) (hd_difficulty parent) solve_time).

(** The last 64 certificates. *)
Definition add_audit_cert (cert : bytes) (c : Chain) : Chain :=
  let q := ch_audit_queue c in
  let q := if bool_decide (cert ∈ q) then q else q ++ [cert] in
  with_queue (if 64 <? Z.of_nat (length q) then tail q else q) c.

(** Pending blocks from the head up to [parent], newest first; [n] bounds the walk. *)
Fixpoint pending_walk (pend : gmap B256 PendingBlock) (head_hash : B256) (head_number : Z) (cur : B256) (n : nat)
    : result ChainError (list PendingBlock) :=
  if cur =? head_hash then Ok []
  else
    match n with
    | O => Err EAbort
    | S n =>
        p <-? ok_or (pend !! cur) (EUnknownParent cur);
        if hd_number (pb_header p) <=? head_number then Err (EUnknownParent cur)
        else
          rest <-? pending_walk pend head_hash head_number (hd_parent_hash (pb_header p)) n;
          Ok (p :: rest)
    end.

Definition pending_chain (c : Chain) (head : BlockHeader) (parent : B256) : result ChainError (list PendingBlock) :=
  l <-? pending_walk (ch_pending c) (header_hash head) (hd_number head) parent (S (size (ch_pending c)));
  Ok (rev l).

(** ** Execution *)

Definition params_for (parent : BlockHeader) (kind : BlockKind) (timestamp : Z) (beneficiary : Address)
    (extra_data : bytes) (gas_limit nonce : Z) : BlockParams :=
  let prevrandao := match kind with
                    | Mined _ _ => keccak256 (b256_bytes (hd_mix_hash parent) ++ b256_bytes (header_hash parent))
                    | Pos => mix_hash parent extra_data
                    end in
  let difficulty := match kind with Mined d _ => d | Pos => 0 end in
  mkBlockParams
    (mkBlockInput chain_id (u64 (hd_number parent + 1)) timestamp beneficiary gas_limit
       (next_base_fee parent (cf_min_base_fee_wei cfg)) prevrandao)
    (header_hash parent) 0 extra_data difficulty nonce.

Definition with_beacon (root : B256) (p : BlockParams) : BlockParams :=
  mkBlockParams (bp_input p) (bp_parent_hash p) root (bp_extra_data p) (bp_difficulty p) (bp_nonce p).

Definition kind_of (c : Chain) (db : ChainView) (parent : BlockHeader) : result ChainError BlockKind :=
  ph <-? query (q_phase db);
  pos <-? lift_outcome (is_pos ph rules (u64 (hd_number parent + 1)));
  if pos : bool then Ok Pos
  else
    d <-? difficulty_after c parent;
    cp <-? lift_outcome (is_checkpointing ph rules (u64 (hd_number parent + 1)));
    Ok (Mined d cp).

Definition producer_of (kind : BlockKind) : Producer :=
  match kind with
  | Pos => ByCommittee
  | Mined _ true => MinerWithCheckpoints
  | Mined _ false => Miner
  end.

Definition check_seal (header : BlockHeader) (seed : B256) : result ChainError () :=
  match pow_verify (cf_algorithm cfg) (key_for seed) header with
  | Done (Ok true) => Ok ()
  | Done (Ok false) => Err (EInvalidBlock "does not meet its difficulty")
  | Done (Err _) => Err (EExec "pow")
  | _ => Err EAbort
  end.

Definition find_number (h : Z) (l : list PendingBlock) : option PendingBlock :=
  List.find (fun p => hd_number (pb_header p) =? h) l.

(** The block whose hash keys the seal of block [number]: the parent, a committed block or an
    ancestor. *)
Definition seed_of (c : Chain) (number : Z) (parent : BlockHeader) (ancestors : list PendingBlock) (head : BlockHeader)
    : result ChainError B256 :=
  let h := seed_height number in
  if h =? hd_number parent then Ok (header_hash parent)
  else if h <=? hd_number head then ok_or (block_hash h (ch_blocks c)) (EUnknownParent 0)
  else ok_or (pb_hash <$> find_number h ancestors) (EUnknownParent 0).

Definition check_kind (c : Chain) (exp : BlockHeader) (kind : BlockKind) (parent : BlockHeader)
    (ancestors : list PendingBlock) (head : BlockHeader) : result ChainError () :=
  match kind with
  | Pos =>
      if negb (hd_difficulty exp =? 0) || negb (hd_nonce exp =? 0) then Err (EInvalidBlock "PoW seal after the switch")
      else Ok ()
  | Mined difficulty _ =>
      if negb (hd_difficulty exp =? difficulty) then Err (EInvalidBlock "difficulty")
      else if 32 <? Z.of_nat (length (hd_extra_data exp)) then Err (EInvalidBlock "extra data over 32 bytes")
      else seed <-? seed_of c (hd_number exp) parent ancestors head; check_seal exp seed
  end.

(** The envelopes of an epoch, from the block's own chain. *)
Fixpoint epoch_envelopes (b : BlockTables) (ancestors : list PendingBlock) (heights : list Z)
    : result ChainError (list Cid) :=
  match heights with
  | [] => Ok []
  | h :: heights =>
      cid <-? match find_number h ancestors with
              | Some a => Ok (bd_root (pb_bundle a))
              | None => ok_or (envelopes b !! h) (EExec "missing envelope")
              end;
      rest <-? epoch_envelopes b ancestors heights;
      Ok (cid :: rest)
  end.

Definition z_range (from upto : Z) : list Z := map (fun i => from + Z.of_nat i) (seq 0 (Z.to_nat (upto - from))).

Definition put_all (blocks : list (Cid * bytes)) (b : BlockTables) : BlockTables :=
  foldl (fun b cd => put_ipld cd.1 cd.2 b) b blocks.

(** Stores the index's blocks and returns its CID. *)
Definition epoch_index_before (number : Z) (ancestors : list PendingBlock) : CM bytes := fun c =>
  match (epoch <-? lift_outcome (epoch_of rules (u64 (number - 1)));
         let first := u64 (u64 (epoch * epoch_slots rules) + 1) in
         envs <-? epoch_envelopes (ch_blocks c) ancestors (z_range first number);
         Ok (epoch_index epoch first envs)) with
  | Ok (root, blocks) => (Ok (cid_to_bytes root), with_db (put_all blocks (ch_blocks c)) (ch_state c) c)
  | Err e => (Err e, c)
  end.

Definition apply_change (ch : IrregularChange) (ex : BlockExecutor (V := ChainView)) : result BlockError BlockExecutor :=
  apply_irregular (ic_address ch) (ic_code ch) (ic_storage ch) ex.

(** The hard forks that activate at this block. *)
Definition apply_forks (number : Z) (ex : BlockExecutor (V := ChainView)) : result BlockError BlockExecutor :=
  try_fold (fun f ex => if f_activation f =? number then try_fold apply_change (f_changes f) ex else Ok ex)
    (forks chain_id) ex.

Definition is_permanent (r : TxRejection) : bool :=
  match r with RejInvalid _ | RejBlob => true | _ => false end.

(** What the transactions gave: the executor, the hashes included and those rejected. *)
Definition TxsResult : Type := BlockExecutor (V := ChainView) * list B256 * list (B256 * TxRejection * bool).

Fixpoint run_txs (strict : bool) (txs : list (TxEnvelope * Address)) (st : TxsResult) : result ChainError TxsResult :=
  match txs with
  | [] => Ok st
  | (tx, sender) :: txs =>
      let '(ex, included, rejected) := st in
      if negb strict && (gas_remaining ex <? 21000) then Ok st
      else
        r <-? exec_err (executor_add tx sender ex);
        match r.1 with
        | Ok _ => run_txs strict txs (r.2, included ++ [tx_hash tx], rejected)
        | Err e =>
            if strict then Err (EInvalidBlock "transaction")
            else run_txs strict txs (r.2, included, rejected ++ [(tx_hash tx, e, is_permanent e)])
        end
  end.

Definition run_block (db : ChainView) (params : BlockParams) (parent : BlockHeader) (votes : CertVotes)
    (producer : Producer) (history : HistoryInputs) (txs : list (TxEnvelope * Address)) (strict : bool)
    : result ChainError TxsResult :=
  ex <-? exec_err (BlockExecutor_new db params);
  ex <-? exec_err (apply_forks (bi_number (bp_input params)) ex);
  ex <-? exec_err (pre_block rules parent votes producer history ex);
  run_txs strict txs (ex, [], []).

(** [bolt_consensus::cert_votes]. *)
Definition cert_votes (b : bytes) : CertVotes :=
  match decode_cert no_keys b with
  | Some c =>
      let '(e, bm) := Cert_votes (S := bls_scheme no_keys) c in
      mkCertVotes e (match c with CertQc q => qc_round q | CertEpoch p => qc_round (cp_qc p) end) bm
  | None => mkCertVotes 0 0 []
  end.

Definition push_pending (ch : Changes) (a : PendingBlock) : Changes :=
  push (hd_number (pb_header a)) (pb_hash a) (pb_changes a) ch.

(** The state after the ancestors, then this block: applied in a write transaction that is dropped. *)
Definition state_root_after (ancestors : list PendingBlock) (number : Z) (bundle : StateChangeset * PlainStateReverts)
    (t : StateTables) : result ChainError B256 :=
  t <-? store_err (try_fold (fun a t => r <-? apply_bundle (hd_number (pb_header a)) (ex_bundle (pb_executed a)) t; Ok r.2)
                     ancestors t);
  r <-? store_err (apply_bundle number bundle t);
  Ok r.1.

Definition Executed : Type := PendingBlock * list B256 * list (B256 * TxRejection * bool).

(** Publishes the block's IPFS blocks and records it as pending. *)
Definition publish (p : PendingBlock) : CM () := cmodify (fun c =>
  let b := put_all (bd_blocks (pb_bundle p)) (ch_blocks c) in
  let b := put_pending (hd_number (pb_header p)) (pb_hash p) (bd_root (pb_bundle p)) b in
  with_pending (<[pb_hash p := p]> (ch_pending c)) (with_db b (ch_state c) c)).

(** Executes under a given kind: certificates, history, the block itself. *)
Definition execute_kind (db : ChainView) (kind : BlockKind) (params : BlockParams) (parent : BlockHeader)
    (ancestors : list PendingBlock) (txs : list (TxEnvelope * Address)) (strict : bool) (certs : Certs)
    : CM (TxsResult * list bytes) :=
  let number := bi_number (bp_input params) in
  cbind (clift (match kind with
                | Mined _ checkpointing =>
                    if bool_decide (ct_qc certs = []) then Ok ()
                    else check_checkpoint_cert chain_id rules db (ct_qc certs) (u64 (hd_number parent + 1)) checkpointing
                | Pos => Ok ()
                end)) (fun _ =>
  cbind (if is_epoch_start rules number && (1 <? number)
         then cbind (epoch_index_before number ancestors) (fun i => cret (Some i))
         else cret None) (fun index =>
  clift (ck <-? check_audits chain_id rules db number (ct_audits certs) strict;
         let history := mkHistoryInputs index (ck_results ck) (ck_verdicts ck) (ck_attests ck) in
         r <-? run_block db params parent (cert_votes (ct_qc certs)) (producer_of kind) history txs strict;
         Ok (r, ck_kept ck)))).

Definition last_header (ancestors : list PendingBlock) (head : BlockHeader) : BlockHeader :=
  match last ancestors with Some p => pb_header p | None => head end.

Definition parent_root_of (c : Chain) (ancestors : list PendingBlock) (head : BlockHeader) : option Cid :=
  match last ancestors with
  | Some p => Some (bd_root (pb_bundle p))
  | None => envelopes (ch_blocks c) !! hd_number head
  end.

Definition execute_on (parent_hash : B256) (params_fn : BlockHeader -> BlockKind -> BlockParams)
    (txs : list (TxEnvelope * Address)) (expected : option BlockHeader) (certs : Certs) : CM Executed :=
  cbind (cread head) (fun head =>
  cbind (cread (fun c => pending_chain c head parent_hash)) (fun ancestors =>
  let parent := last_header ancestors head in
  cbind (cread (fun c => Ok (mkView (ch_state c) (ch_blocks c) (foldl push_pending Changes_default ancestors)))) (fun db =>
  cbind (cread (fun c => kind_of c db parent)) (fun kind =>
  let params := params_fn parent kind in
  cbind (cread (fun c => match expected with Some exp => check_kind c exp kind parent ancestors head | None => Ok () end)) (fun _ =>
  cbind (execute_kind db kind params parent ancestors txs (bool_decide (is_Some expected)) certs) (fun r =>
  let '((ex, included, rejected), audits) := r in
  let executed := executor_finish ex in
  let number := bi_number (bp_input (ex_params executed)) in
  cbind (cread (fun c => state_root_after ancestors number (ex_bundle executed) (ch_state c))) (fun root =>
  let header := executed_header executed root in
  cbind (clift (match expected with
                | Some exp => if bool_decide (exp = header) then Ok () else Err (EInvalidBlock "header mismatch")
                | None => Ok ()
                end)) (fun _ =>
  cbind (cread (fun c => Ok (parent_root_of c ancestors head))) (fun parent_root =>
  let bundle := bundle_with_audits header (ex_transactions executed) parent_root (ct_qc certs) audits in
  let p := mkPending (header_hash header) header executed (fst (ex_bundle executed)) bundle in
  cbind (publish p) (fun _ => cret (p, included, rejected))))))))))).

(** ** Building and verifying *)

Definition beacon_of (certs : Certs) : B256 :=
  if bool_decide (ct_qc certs = []) then 0 else keccak256 (ct_qc certs).

Definition build_on (parent : B256) (candidates : list (TxEnvelope * Address)) (timestamp : Z) (beneficiary : Address)
    (extra_data : bytes) (certs : Certs) : CM BuiltBlock := fun c =>
  let certs := if bool_decide (ct_audits certs = []) then mkCerts (ct_qc certs) (ch_audit_queue c) else certs in
  let params_fn ph kind :=
    with_beacon (beacon_of certs)
      (params_for ph kind (Z.max timestamp (u64 (hd_timestamp ph + 1))) beneficiary extra_data (chain_gas_limit c ph) 0) in
  cbind (execute_on parent params_fn candidates None certs) (fun '(p, included, rejected) =>
    cret (mkBuilt (pb_header p) (pb_hash p) included rejected (pb_bundle p))) c.

Fixpoint recover_signers (txs : list TxEnvelope) : option (list Address) :=
  match txs with
  | [] => Some []
  | tx :: txs => s ← tx_recover_signer tx; l ← recover_signers txs; Some (s :: l)
  end.

Definition verify_header (header parent : BlockHeader) (certs : Certs) : result ChainError () :=
  if negb (hd_number header =? u64 (hd_number parent + 1)) then Err (EInvalidBlock "wrong number")
  else if hd_timestamp header <=? hd_timestamp parent then Err (EInvalidBlock "timestamp not after parent")
  else if negb (valid_gas_limit (hd_gas_limit parent) (hd_gas_limit header)) then Err (EInvalidBlock "gas limit")
  else if negb (bool_decide (hd_parent_beacon_block_root header = Some (beacon_of certs))) then
    Err (EInvalidBlock "parent certificate hash mismatch")
  else Ok ().

Definition verify_params (header : BlockHeader) (certs : Certs) (ph : BlockHeader) (kind : BlockKind) : BlockParams :=
  with_beacon (beacon_of certs)
    (params_for ph kind (hd_timestamp header) (hd_beneficiary header) (hd_extra_data header) (hd_gas_limit header)
       (hd_nonce header)).

Definition verify_block (header : BlockHeader) (transactions : list TxEnvelope) (certs : Certs) : CM PendingBlock := fun c =>
  match pending c (header_hash header) with
  | Some p => (Ok p, c)
  | None =>
      cbind (cread (fun c => ok_or (header_of c (hd_parent_hash header)) (EUnknownParent (hd_parent_hash header)))) (fun parent =>
      cbind (clift (verify_header header parent certs)) (fun _ =>
      cbind (clift (ok_or (recover_signers transactions) (EInvalidBlock "bad signature"))) (fun senders =>
      cbind (execute_on (hd_parent_hash header) (verify_params header certs) (zip transactions senders) (Some header) certs)
        (fun '(p, _, _) => cret p)))) c
  end.

(** ** Committing and importing *)

Definition prune_pending_map (number : Z) (m : gmap B256 PendingBlock) : gmap B256 PendingBlock :=
  filter (fun kv => number < hd_number (pb_header kv.2)) m.

Definition prune_side (horizon : Z) (m : gmap B256 SideBlock) : gmap B256 SideBlock :=
  filter (fun kv => horizon < hd_number (sd_header kv.2)) m.

(** The write transaction of [commit_pending]. *)
Definition commit_tables (p : PendingBlock) (c : Chain) : result ChainError (BlockTables * StateTables) :=
  let number := hd_number (pb_header p) in
  r <-? store_err (apply_bundle number (ex_bundle (pb_executed p)) (ch_state c));
  let '(root, t) := r in
  if negb (root =? hd_state_root (pb_header p)) then Err (EExec "state root changed between execution and commit")
  else
    let b := put_ipld_bundle number (bd_root (pb_bundle p)) (bd_blocks (pb_bundle p)) (ch_blocks c) in
    let b := put_block (mkStoredBlock (pb_header p) (ex_transactions (pb_executed p)) (ex_senders (pb_executed p)))
               (ex_receipts (pb_executed p)) b in
    Ok (prune_pending number b, snd (prune_history number t)).

Definition commit_pending (hash : B256) : CM BlockHeader := fun c =>
  match (p <-? ok_or (pending c hash) (EUnknownParent hash);
         h <-? head c;
         if negb (hd_parent_hash (pb_header p) =? header_hash h) then Err (EInvalidBlock "does not extend head")
         else tables <-? commit_tables p c; Ok (p, tables)) with
  | Err e => (Err e, c)
  | Ok (p, (b, t)) =>
      let number := hd_number (pb_header p) in
      let c := with_db b t c in
      let c := with_pending (prune_pending_map number (ch_pending c)) c in
      let c := with_side (prune_side (saturating_sub number MAX_REORG_DEPTH) (ch_side c)) c in
      (Ok (pb_header p), c)
  end.

Definition build_block (candidates : list (TxEnvelope * Address)) (timestamp : Z) (beneficiary : Address) : CM BuiltBlock :=
  cbind (cread head) (fun h =>
  cbind (build_on (header_hash h) candidates timestamp beneficiary [] Certs_default) (fun built =>
  cbind (commit_pending (bb_hash built)) (fun _ => cret built))).

Definition import_final (header : BlockHeader) (transactions : list TxEnvelope) (root : option Cid) (certs : Certs)
    : CM B256 :=
  cbind (cread head) (fun h =>
  if negb (hd_parent_hash header =? header_hash h) then clift (Err (EInvalidBlock "does not extend head"))
  else
    cbind (verify_block header transactions certs) (fun p =>
    if match root with Some exp => negb (bool_decide (exp = bd_root (pb_bundle p))) | None => false end then
      cbind (cmodify (drop_pending (pb_hash p))) (fun _ => clift (Err (EInvalidBlock "envelope")))
    else cbind (commit_pending (pb_hash p)) (fun _ => cret (pb_hash p)))).

Definition import_block_with_root (header : BlockHeader) (transactions : list TxEnvelope) (root : option Cid) : CM B256 :=
  import_final header transactions root Certs_default.

Definition import_block (header : BlockHeader) (transactions : list TxEnvelope) : CM B256 :=
  import_block_with_root header transactions None.

(** ** After a restart *)

(** The recorded pending blocks that are whole in the blockstore. *)
Definition decode_record (b : BlockTables) (r : Z * B256 * Cid) : option (B256 * DecodedBlock) :=
  let '(number, hash, root) := r in
  data ← ipld b !! root;
  match Envelope_decode data with
  | Ok env =>
      match decode_block env (fun c => ipld b !! c) with
      | Ok d => if (hd_number (db_header d) =? number) && (header_hash (db_header d) =? hash) then Some (hash, d) else None
      | Err _ => None
      end
  | Err _ => None
  end.

Definition restorable (c : Chain) (head : BlockHeader) : gmap B256 DecodedBlock :=
  foldl (fun m kv => <[kv.1 := kv.2]> m) ∅
    (omap (decode_record (ch_blocks c)) (pending_blocks (hd_number head) (ch_blocks c))).

(** The ancestors of [cur] not yet chosen; each step takes a new block. *)
Fixpoint restore_path (blocks : gmap B256 DecodedBlock) (chosen path : list B256) (cur : B256) (n : nat) : list B256 :=
  match n with
  | O => path
  | S n =>
      match blocks !! cur with
      | None => path
      | Some b =>
          if bool_decide (cur ∈ chosen) || bool_decide (cur ∈ path) then path
          else restore_path blocks chosen (path ++ [cur]) (hd_parent_hash (db_header b)) n
      end
  end.

Definition choose_restored (blocks : gmap B256 DecodedBlock) (wanted : list B256) : list B256 :=
  foldl (fun chosen w => chosen ++ restore_path blocks chosen [] w (S (size blocks))) [] wanted.

Definition by_number (a b : B256 * DecodedBlock) : Prop := hd_number (db_header a.2) <= hd_number (db_header b.2).

#[local] Instance by_number_dec a b : Decision (by_number a b).
Proof. unfold by_number. apply _. Defined.

Fixpoint restore_each (head_hash : B256) (l : list (B256 * DecodedBlock)) (restored : Z) : CM Z := fun c =>
  match l with
  | [] => (Ok restored, c)
  | (hash, b) :: l =>
      let parent := hd_parent_hash (db_header b) in
      if bool_decide (is_Some (pending c hash)) then restore_each head_hash l restored c
      else if negb (parent =? head_hash) && bool_decide (pending c parent = None) then restore_each head_hash l restored c
      else
        match verify_block (db_header b) (db_transactions b) (Certs_of (db_envelope b)) c with
        | (Ok _, c) => restore_each head_hash l (restored + 1) c
        | (Err _, c) => restore_each head_hash l restored c
        end
  end.

Definition restore_pending (wanted : list B256) : CM Z :=
  cbind (cread head) (fun h => fun c =>
    let blocks := restorable c h in
    let chosen := omap (fun x => d ← blocks !! x; Some (x, d)) (choose_restored blocks wanted) in
    restore_each (header_hash h) (merge_sort by_number chosen) 0 c).

(** ** Opening a database *)

(** The first start writes the genesis block and state; the header and the alloc come from the genesis
    file, as does the configuration. *)
Definition open_tables (b : BlockTables) (t : StateTables) (genesis : BlockHeader) (alloc : gmap Address InitAccount)
    : result ChainError (BlockTables * StateTables) :=
  match meta_head b with
  | Some _ =>
      if negb (default 0 (block_hash 0 b) =? header_hash genesis) then Err EGenesisMismatch else Ok (b, t)
  | None =>
      r <-? store_err (init_state alloc t);
      let '(root, t) := r in
      if negb (root =? hd_state_root genesis) then Err (EExec "genesis state root mismatch")
      else
        let bdl := bundle genesis [] None [] in
        let b := put_ipld_bundle 0 (bd_root bdl) (bd_blocks bdl) b in
        Ok (put_block (mkStoredBlock genesis [] []) [] b, t)
  end.

Definition chain_open (b : BlockTables) (t : StateTables) (genesis : BlockHeader) (alloc : gmap Address InitAccount)
    : result ChainError Chain :=
  r <-? open_tables b t genesis alloc;
  Ok (mkChain r.1 r.2 ∅ ∅ 0 []).

(** ** Accounting *)

Definition tx_size (tx : TxEnvelope) : Z := tx_encode_2718_len tx.

Definition max_cost (tx : TxEnvelope) : Z :=
  wrap 256 (wrap 256 (tx_gas_limit tx * tx_max_fee_per_gas tx) + tx_value tx).
End chain.
