(* ===== verification/ChainFacts.v ===== *)
(** * Facts on the chain's operations

    A small program logic for [CM] ([hoare]) and, for each operation of Chain.v, that it keeps the
    chain's invariant [chain_ok] and a part of the canonical chain that is not to change
    ([frozen]). *)

From S2P Require Import Prelude Types TypesFacts Params Bls AuditCerts Pow Committee History Epochs Forks TxPool Ipld Car Index.
From S2P Require Import TrieIface Store StoreFacts StoreHistory StoreProps Overlay BlockStore ChainTables BlockCerts Exec Queries Hooks HooksFacts Chain.
From stdpp Require Import base list list_numbers sorting gmap fin_maps strings.
From Stdlib Require Import ZArith Lia.

Open Scope Z_scope.
Open Scope bolt_scope.

Section facts.
Context `{K : Keccak} `{Sh : Sha256} `{R : HeaderRlp} `{AR : AlloyReceipt} `{AB : !AlloyBlock} `{BR : !BodyRlp}.
Context `{CE : DagCbor Envelope} `{CL : DagCbor (list Cid)} `{CI : DagCbor EpochIndex} `{CB : CidBytes}.
Context `{SR : StateRlp} `{TO : TrieOps} `{SA : SolAbi} `{FC : ForkCode} `{HS : Hasher}.
Context `{B : Blst} `{CC : !CertCodec} `{DA : DagCbor AuditCert} `{DV : DagCbor VerdictCert} `{DT : DagCbor AttestCert}.
Context `{EV : !Revm ChainView} {Un : Universe}.
Variable cfg : ChainConfig.

(** ** Triples *)

(** From a chain in [P], the computation returns in [Q] or fails in [E]. *)
Definition hoare {A} (P : Chain -> Prop) (m : CM A) (Q : A -> Chain -> Prop) (E : Chain -> Prop) : Prop :=
  forall c, P c -> match m c with (Ok a, c') => Q a c' | (Err _, c') => E c' end.

Lemma hoare_bind {A C} P (m : CM A) (k : A -> CM C) Q Q' E :
  hoare P m Q E -> (forall a, hoare (Q a) (k a) Q' E) -> hoare P (cbind m k) Q' E.
Proof. intros Hm Hk c Hc. unfold cbind. specialize (Hm c Hc). destruct (m c) as [[a|e] c1]; [|done]. by apply Hk. Qed.

Lemma hoare_ret {A} (P : Chain -> Prop) (a : A) (Q : A -> Chain -> Prop) E : (forall c, P c -> Q a c) -> hoare P (cret a) Q E.
Proof. intros HQ c Hc. by apply HQ. Qed.

Lemma hoare_read {A} (P E : Chain -> Prop) (f : Chain -> result ChainError A) :
  (forall c, P c -> E c) -> hoare P (cread f) (fun a c => P c /\ f c = Ok a) E.
Proof. intros HE c Hc. cbn. destruct (f c) eqn:Ef; [by split|by apply HE]. Qed.

Lemma hoare_lift {A} (P E : Chain -> Prop) (r : result ChainError A) :
  (forall c, P c -> E c) -> hoare P (clift r) (fun a c => P c /\ r = Ok a) E.
Proof. intros HE c Hc. cbn. destruct r; [by split|by apply HE]. Qed.

Lemma hoare_modify (P : Chain -> Prop) f (Q : () -> Chain -> Prop) E : (forall c, P c -> Q tt (f c)) -> hoare P (cmodify f) Q E.
Proof. intros Hf c Hc. cbn. by apply Hf. Qed.

Lemma hoare_conseq {A} (P P' : Chain -> Prop) (m : CM A) (Q Q' : A -> Chain -> Prop) (E E' : Chain -> Prop) :
  hoare P' m Q' E' -> (forall c, P c -> P' c) -> (forall a c, Q' a c -> Q a c) -> (forall c, E' c -> E c) -> hoare P m Q E.
Proof. intros Hm HP HQ HE c Hc. specialize (Hm c (HP c Hc)). destruct (m c) as [[a|e] c']; auto. Qed.

Lemma hoare_pre {A} (P P' : Chain -> Prop) (m : CM A) Q E : hoare P' m Q E -> (forall c, P c -> P' c) -> hoare P m Q E.
Proof. intros Hm HP c Hc. by apply Hm, HP. Qed.

Lemma hoare_post {A} (P : Chain -> Prop) (m : CM A) (Q Q' : A -> Chain -> Prop) E :
  hoare P m Q' E -> (forall a c, Q' a c -> Q a c) -> hoare P m Q E.
Proof. intros Hm HQ. by eapply hoare_conseq. Qed.

(** What was read is forgotten. *)
Lemma hoare_drop {A} (P P' : Chain -> Prop) (m : CM A) Q E : hoare P m Q E -> hoare (fun c => P c /\ P' c) m Q E.
Proof. intros Hm. eapply hoare_pre; [exact Hm|]. by intros c [? _]. Qed.

(** A fact that does not depend on the chain may be assumed before the computation. *)
Lemma hoare_pure {A} (P : Chain -> Prop) (p : Prop) (m : CM A) Q E :
  (p -> hoare P m Q E) -> hoare (fun c => P c /\ p) m Q E.
Proof. intros Hm c [Hc Hp]. by apply (Hm Hp). Qed.

(** ** The invariant *)

Definition pend_ok (m : gmap B256 PendingBlock) : Prop :=
  forall x p, m !! x = Some p -> header_hash (pb_header p) = x /\ pb_hash p = x /\ linked (pb_header p).

Definition side_block_ok (s : SideBlock) : Prop :=
  linked (sd_header s) /\ sd_td s = weight_of (header_hash (sd_header s)).

Definition side_ok (m : gmap B256 SideBlock) : Prop :=
  forall x s, m !! x = Some s -> header_hash (sd_header s) = x /\ side_block_ok s.

Record chain_ok (c : Chain) : Prop := {
  co_tables : tables_ok (ch_blocks c);
  co_pending : pend_ok (ch_pending c);
  co_side : side_ok (ch_side c);
}.

(** The canonical blocks up to height [f] are those of [hs], and [fin] is the finalized one, at or
    below [f]. *)
Record frozen (f : Z) (fin : option (Z * B256)) (hs : gmap Z BlockHeader) (c : Chain) : Prop := {
  fz_tip : f <= tip (ch_blocks c);
  fz_final : meta_finalized (ch_blocks c) = fin;
  fz_below : forall g x, fin = Some (g, x) -> g <= f;
  fz_headers : forall m, m <= f -> headers (ch_blocks c) !! m = hs !! m;
}.

Definition safe f fin hs (c : Chain) : Prop := chain_ok c /\ frozen f fin hs c.

Lemma safe_core f fin hs c c' :
  core (ch_blocks c') = core (ch_blocks c) -> pend_ok (ch_pending c') -> side_ok (ch_side c') ->
  safe f fin hs c -> safe f fin hs c'.
Proof.
  intros E Hp Hs [[] []]. pose proof E as E0. unfold core in E. injection E as Eh _ _ Em Ef. split.
  - split; [by eapply tables_ok_core|done|done].
  - split; [unfold tip in *; by rewrite Em|by rewrite Ef|done|]. intros m Hm. rewrite Eh. by apply fz_headers0.
Qed.

Lemma safe_tables f fin hs c b t : core b = core (ch_blocks c) -> safe f fin hs c -> safe f fin hs (with_db b t c).
Proof. intros E Hs. pose proof Hs as [[] _]. by apply (safe_core f fin hs c). Qed.

Lemma safe_pending f fin hs c m : pend_ok m -> safe f fin hs c -> safe f fin hs (with_pending m c).
Proof. intros E Hs. pose proof Hs as [[] _]. by apply (safe_core f fin hs c). Qed.

Lemma safe_side f fin hs c m : side_ok m -> safe f fin hs c -> safe f fin hs (with_side m c).
Proof. intros E Hs. pose proof Hs as [[] _]. by apply (safe_core f fin hs c). Qed.

Lemma pend_ok_empty : pend_ok ∅.
Proof. intros x p H'. by rewrite lookup_empty in H'. Qed.

Lemma pend_ok_delete x m : pend_ok m -> pend_ok (delete x m).
Proof. intros Hm y p [_ Hy]%lookup_delete_Some. by apply Hm. Qed.

Lemma side_ok_delete x m : side_ok m -> side_ok (delete x m).
Proof. intros Hm y p [_ Hy]%lookup_delete_Some. by apply Hm. Qed.

Lemma pend_ok_prune n m : pend_ok m -> pend_ok (prune_pending_map n m).
Proof. intros Hm y p [Hy _]%map_lookup_filter_Some. by apply Hm. Qed.

Lemma side_ok_prune n m : side_ok m -> side_ok (prune_side n m).
Proof. intros Hm y p [Hy _]%map_lookup_filter_Some. by apply Hm. Qed.

Lemma side_ok_insert s m : side_block_ok s -> side_ok m -> side_ok (<[header_hash (sd_header s) := s]> m).
Proof. intros Hs Hm y t [[<- <-]|[_ Hy]]%lookup_insert_Some; [done|by apply Hm]. Qed.

(** The head's header. *)
Lemma head_spec c h : chain_ok c -> Chain.head c = Ok h ->
  headers (ch_blocks c) !! tip (ch_blocks c) = Some h /\ occurs h /\ hd_number h = tip (ch_blocks c).
Proof.
  intros [Ht _ _]. unfold Chain.head, head_number. fold (tip (ch_blocks c)).
  destruct (tip_header _ Ht) as (h' & -> & ? & ? & _). by intros [= ->].
Qed.

Lemma header_of_occurs c x h : chain_ok c -> header_of c x = Some h -> occurs h /\ header_hash h = x.
Proof.
  intros [Ht Hp _]. unfold header_of. destruct (ch_pending c !! x) as [p|] eqn:E.
  - intros [= <-]. destruct (Hp _ _ E) as (? & _ & [? _]). done.
  - destruct (hash_num (ch_blocks c) !! x) as [n|] eqn:En; [|done]. cbn. intros Eh.
    split; [by apply (ok_header _ Ht _ _ Eh)|]. apply (ok_hash _ Ht) in En as (h' & Eh' & <-). congruence.
Qed.

Lemma pending_walk_in pend hh hn : forall n cur l,
  pending_walk pend hh hn cur n = Ok l -> Forall (fun p => exists x, pend !! x = Some p) l.
Proof.
  induction n as [|n IH]; intros cur l; cbn; (destruct (cur =? hh); [intros [= <-]; constructor|]); [done|].
  intros (p & Ep & Hk)%result_bind_ok. destruct (_ <=? hn); [done|].
  apply result_bind_ok in Hk as (rest & Er & [= <-]). constructor; [|by eapply IH].
  exists cur. destruct (pend !! cur); [by injection Ep as ->|done].
Qed.

(** The parent a block is executed on occurs. *)
Lemma last_header_occurs c h parent ancestors :
  chain_ok c -> occurs h -> pending_chain c h parent = Ok ancestors -> occurs (last_header ancestors h).
Proof.
  intros [_ Hp _] Ho. unfold pending_chain. intros (l & El & [= <-])%result_bind_ok. apply pending_walk_in in El.
  unfold last_header. destruct (last (rev l)) as [p|] eqn:E; [|done].
  apply last_Some_elem_of in E. rewrite Forall_forall in El. destruct (El p) as [x Hx]; [by rewrite list_elem_of_In, <-in_rev, <-list_elem_of_In in E|].
  by destruct (Hp _ _ Hx) as (_ & _ & [? _]).
Qed.

(** ** Execution *)

Lemma run_txs_run strict db params txs : forall st r,
  block_run db params st.1.1 -> run_txs strict txs st = Ok r -> block_run db params r.1.1.
Proof.
  induction txs as [|[tx sender] txs IH]; intros [[ex inc] rej] r Hx; cbn [run_txs]; [by intros [= <-]|].
  destruct (negb strict && _); [by intros [= <-]|]. intros (o & Eo & Hk)%result_bind_ok.
  destruct (executor_add tx sender ex) as [[q ex']|e] eqn:Ea; [|by destruct e]. injection Eo as <-. cbn [fst snd] in Hk.
  assert (block_run db params ex') as Hx' by by eapply run_add.
  destruct q; [by refine (IH (_, _, _) _ _ Hk)|]. destruct strict; [done|by refine (IH (_, _, _) _ _ Hk)].
Qed.

Lemma exec_err_ok {A} (r : result BlockError A) a : exec_err r = Ok a -> r = Ok a.
Proof. destruct r as [|[]]; cbn; congruence. Qed.

(** One run continues the other. *)
Definition continues db params (x y : BlockExecutor (V := ChainView)) : Prop := block_run db params x -> block_run db params y.

Lemma fold_continues {X} db params (g : X -> BlockExecutor -> result BlockError BlockExecutor) l x y :
  (forall a x y, g a x = Ok y -> continues db params x y) -> try_fold g l x = Ok y -> continues db params x y.
Proof.
  intros Hg. apply (try_fold_ind g (continues db params)); [intros z Hz; exact Hz|intros ? ? ? H1 H2 Hx; exact (H2 (H1 Hx))|done].
Qed.

(** A block's execution is a run of its executor: its limits hold and its parameters are those given. *)
Lemma run_block_run db params parent votes producer history txs strict r :
  run_block cfg db params parent votes producer history txs strict = Ok r -> block_run db params r.1.1.
Proof.
  unfold run_block. intros (x0 & E0%exec_err_ok & Hk)%result_bind_ok. apply result_bind_ok in Hk as (x1 & E1%exec_err_ok & Hk).
  apply result_bind_ok in Hk as (x2 & E2%exec_err_ok & Hk). eapply run_txs_run; [|exact Hk]. cbn.
  assert (continues db params x0 x1) as H1.
  { eapply fold_continues; [|exact E1]. intros fk x y Hf. cbn beta in Hf. destruct (f_activation fk =? bi_number (bp_input params)); [|injection Hf as <-; intros Hx; exact Hx].
    eapply fold_continues; [|exact Hf]. intros ch z z' Hz Hx. by eapply run_irregular. }
  assert (continues db params x1 x2) as H2.
  { eapply pre_block_rel; [| | | |exact E2].
    - intros x Hx. exact Hx.
    - intros x y z Hxy Hyz Hx. exact (Hyz (Hxy Hx)).
    - intros to data out x y Hc Hx. by eapply run_call.
    - intros to n x y Hc Hx. by eapply run_credit. }
  refine (H2 (H1 _)). by apply run_new.
Qed.

Lemma call_params (V := ChainView) to data out (x y : BlockExecutor (V := V)) :
  system_call_data to data x = Ok (out, y) -> be_params y = be_params x.
Proof. unfold system_call_data. intros Hk. inv_bind. destruct (er_success _); [|done]. inv_bind. by subst. Qed.

Lemma system_call_params (V := ChainView) to arg (x y : BlockExecutor (V := V)) :
  executor_system_call to arg x = Ok y -> be_params y = be_params x.
Proof. unfold executor_system_call. intros Hk. inv_bind. destruct (er_success _); [|done]. inv_bind. by subst. Qed.

Lemma block_run_params db params x : block_run db params x -> be_params x = params.
Proof.
  induction 1 as [x E|tx sender r x x' _ IH E|to data out x x' _ IH E|to amount x x' _ IH E|a code slots x x' _ IH E].
  - unfold BlockExecutor_new in E. destruct (0 <? _); [|by injection E as <-].
    apply result_bind_ok in E as (y & E1%system_call_params & E2%system_call_params). by rewrite E2, E1.
  - unfold executor_add in E. destruct (tx_env tx sender); [|by injection E as _ <-].
    repeat (destruct (_ <? _); [by injection E as _ <-|]). destruct (transact_commit _ _ _) as [[res s]|[|]]; [|by injection E as _ <-|done].
    case_bool_decide; [done|]. by injection E as _ <-.
  - rewrite <-IH. by eapply call_params.
  - unfold credit in E. inv_bind. by subst.
  - unfold apply_irregular in E. inv_bind. by subst.
Qed.

Definition any {A} (P : Chain -> Prop) (a : A) (c : Chain) : Prop := P c.

Lemma put_all_core l b : core (put_all l b) = core b.
Proof. unfold put_all. by apply core_foldl. Qed.

Lemma epoch_index_before_safe f fin hs number ancestors :
  hoare (safe f fin hs) (epoch_index_before cfg number ancestors) (any (safe f fin hs)) (safe f fin hs).
Proof.
  intros c Hc. unfold epoch_index_before. destruct (result_bind _ _) as [[root blocks]|]; [|done].
  apply safe_tables; [apply put_all_core|done].
Qed.

Lemma execute_kind_safe f fin hs db kind params parent ancestors txs strict certs :
  hoare (safe f fin hs) (execute_kind cfg db kind params parent ancestors txs strict certs)
    (fun r c => safe f fin hs c /\ be_params r.1.1.1 = params) (safe f fin hs).
Proof.
  unfold execute_kind. eapply hoare_bind; [by apply hoare_lift|]. intros u.
  apply hoare_drop.
  eapply hoare_bind with (Q := any (safe f fin hs)).
  - destruct (_ && _); [|by apply hoare_ret]. eapply hoare_bind; [apply epoch_index_before_safe|]. intros i. by apply hoare_ret.
  - intros index. eapply hoare_post; [by apply hoare_lift|]. intros [r au] c [Hc Hk]. split; [exact Hc|].
    apply result_bind_ok in Hk as (ck & _ & Hk). apply result_bind_ok in Hk as (r' & Er & [= <- <-]).
    eapply block_run_params, run_block_run, Er.
Qed.

(** Parameters that name the parent they are computed for. *)
Definition names_parent (params_fn : BlockHeader -> BlockKind -> BlockParams) : Prop :=
  forall ph kind, bp_parent_hash (params_fn ph kind) = header_hash ph
    /\ bi_number (bp_input (params_fn ph kind)) = u64 (hd_number ph + 1).

Lemma names_parent_child params_fn ph kind ex root :
  names_parent params_fn -> occurs ph -> ex_params ex = params_fn ph kind -> child_of (executed_header ex root) ph.
Proof.
  intros Hn Ho E. destruct (Hn ph kind) as [E1 E2]. split; [done|]. cbn. rewrite E, E1, E2. split; [done|].
  apply wrap_u64_succ. by apply occurs_number.
Qed.

(** What execution gives: a block linked to its parent and recorded as pending, if its header occurs. *)
Definition executed_post f fin hs (expected : option BlockHeader) (r : Executed) (c : Chain) : Prop :=
  let p := r.1.1 in
  (forall e, expected = Some e -> pb_header p = e) /\ pb_hash p = header_hash (pb_header p)
  /\ ch_pending c !! pb_hash p = Some p /\ (occurs (pb_header p) -> safe f fin hs c)
  /\ safe f fin hs (with_pending (delete (pb_hash p) (ch_pending c)) c).

Lemma execute_on_safe f fin hs parent params_fn txs expected certs :
  names_parent params_fn ->
  hoare (safe f fin hs) (execute_on cfg parent params_fn txs expected certs) (executed_post f fin hs expected) (safe f fin hs).
Proof.
  intros Hn. unfold execute_on. eapply hoare_bind; [by apply hoare_read|]. intros h.
  eapply hoare_bind; [by apply hoare_read; intros c [? _]|]. intros ancestors.
  eapply hoare_pre with (P' := fun c => safe f fin hs c /\ occurs (last_header ancestors h)).
  2: { intros c [[Hs Eh] Ea]. split; [done|]. destruct Hs as [Hc _].
       eapply last_header_occurs; [done|by eapply head_spec|done]. }
  apply hoare_pure. intros Ho. eapply hoare_bind; [by apply hoare_read|]. intros db.
  apply hoare_drop.
  eapply hoare_bind; [by apply hoare_read|]. intros kind.
  apply hoare_drop.
  eapply hoare_bind; [by apply hoare_read|]. intros u.
  apply hoare_drop.
  eapply hoare_bind; [apply execute_kind_safe|]. intros [[[ex included] rejected] audits]. apply hoare_pure. cbn. intros Hp.
  eapply hoare_bind; [by apply hoare_read|]. intros root.
  apply hoare_drop.
  eapply hoare_bind; [by apply hoare_lift|]. intros u'. apply hoare_pure. intros Hexp.
  eapply hoare_bind; [by apply hoare_read|]. intros parent_root.
  apply hoare_drop.
  set (header := executed_header (executor_finish ex) root) in *. set (p := mkPending _ _ _ _ _).
  assert (child_of header (last_header ancestors h)) as Hchild.
  { by apply (names_parent_child params_fn _ kind). }
  eapply hoare_bind; [apply hoare_modify with (Q := fun _ => executed_post f fin hs expected (p, included, rejected))|].
  2: { intros u2. by apply hoare_ret. }
  intros c Hc. pose proof Hc as [[Hct Hcp Hcs] _]. unfold executed_post. cbn [fst]. split_and!; try done.
  - intros e Ee. rewrite Ee in Hexp. case_bool_decide as Hd; [by rewrite Hd|done].
  - cbn [ch_pending with_pending]. by rewrite lookup_insert_eq.
  - intros Hoc. apply (safe_core f fin hs c); [exact (put_all_core _ _)| |done|done]. cbn [ch_pending with_pending].
    intros x q [[<- <-]|[_ Hq]]%lookup_insert_Some; [|by apply Hcp]. split; [done|]. split; [done|]. split; [done|by exists (last_header ancestors h)].
  - apply (safe_core f fin hs c); [exact (put_all_core _ _)| |done|done]. cbn [ch_pending with_pending].
    rewrite delete_insert_eq. by apply pend_ok_delete.
Qed.

(** ** Verification *)

Lemma verify_params_names header certs : names_parent (verify_params cfg header certs).
Proof. by intros ph kind. Qed.

Definition verified_post f fin hs (header : BlockHeader) (p : PendingBlock) (c : Chain) : Prop :=
  safe f fin hs c /\ pb_header p = header /\ pb_hash p = header_hash header /\ ch_pending c !! header_hash header = Some p.

Lemma verify_block_safe f fin hs header transactions certs :
  occurs header ->
  hoare (safe f fin hs) (verify_block cfg header transactions certs) (verified_post f fin hs header) (safe f fin hs).
Proof.
  intros Ho c Hc. unfold verify_block. destruct (pending c (header_hash header)) as [p|] eqn:Ep.
  { pose proof Hc as [[_ Hp _] _]. destruct (Hp _ _ Ep) as (Eh & Eh' & [Hop _]).
    split; [done|]. split; [by apply occurs_inj|]. split; [by rewrite Eh'|done]. }
  clear Ep. revert c Hc. change (hoare (safe f fin hs)
    (cbind (cread (fun c => ok_or (header_of c (hd_parent_hash header)) (EUnknownParent (hd_parent_hash header)))) (fun parent =>
      cbind (clift (verify_header header parent certs)) (fun _ =>
      cbind (clift (ok_or (recover_signers transactions) (EInvalidBlock "bad signature"))) (fun senders =>
      cbind (execute_on cfg (hd_parent_hash header) (verify_params cfg header certs) (zip transactions senders) (Some header) certs)
        (fun '(p, _, _) => cret p))))) (verified_post f fin hs header) (safe f fin hs)).
  eapply hoare_bind; [by apply hoare_read|]. intros parent.
  apply hoare_drop.
  eapply hoare_bind; [by apply hoare_lift|]. intros u.
  apply hoare_drop.
  eapply hoare_bind; [by apply hoare_lift|]. intros senders.
  apply hoare_drop.
  eapply hoare_bind; [apply execute_on_safe, verify_params_names|]. intros [[p inc] rej].
  apply hoare_ret. intros c (E & Eh & El & Hs & _). cbn in *. specialize (E _ eq_refl). subst header.
  split; [by apply Hs|]. split; [done|]. split; [done|]. by rewrite <-Eh.
Qed.

(** ** Committing *)

Lemma core_tip b b' : core b' = core b -> tip b' = tip b.
Proof. unfold core, tip. by intros [= _ _ _ -> _]. Qed.

Lemma core_headers b b' : core b' = core b -> headers b' = headers b.
Proof. unfold core. by intros [= -> _ _ _ _]. Qed.

Lemma core_finalized b b' : core b' = core b -> meta_finalized b' = meta_finalized b.
Proof. unfold core. by intros [= _ _ _ _ ->]. Qed.

(** The tables after a block on the head is committed: its header on top of the others. *)
Lemma commit_tables_ok p c b t h :
  chain_ok c -> Chain.head c = Ok h -> hd_parent_hash (pb_header p) = header_hash h -> linked (pb_header p) ->
  commit_tables p c = Ok (b, t) ->
  tables_ok b /\ headers b = <[tip (ch_blocks c) + 1 := pb_header p]> (headers (ch_blocks c))
  /\ tip b = tip (ch_blocks c) + 1 /\ meta_finalized b = meta_finalized (ch_blocks c).
Proof.
  intros Hc Eh Hp [Ho (q & Hq & Eq & Nq)] Hk. destruct (head_spec _ _ Hc Eh) as (Et & Hoh & Nh).
  assert (q = h) as -> by (apply occurs_inj; [done|done|by rewrite Eq]). unfold commit_tables in Hk.
  apply result_bind_ok in Hk as ([root t1] & _ & Hk). destruct (negb _); [done|].
  assert (b = prune_pending (hd_number (pb_header p))
    (put_block (mkStoredBlock (pb_header p) (ex_transactions (pb_executed p)) (ex_senders (pb_executed p)))
       (ex_receipts (pb_executed p))
       (put_ipld_bundle (hd_number (pb_header p)) (bd_root (pb_bundle p)) (bd_blocks (pb_bundle p)) (ch_blocks c)))) as ->
    by (by injection Hk). clear Hk.
  set (b0 := put_ipld_bundle _ _ _ _). assert (core b0 = core (ch_blocks c)) as E0 by apply core_put_ipld_bundle.
  set (blk := mkStoredBlock _ _ _). set (b1 := put_block blk _ b0).
  assert (core (prune_pending (hd_number (pb_header p)) b1) = core b1) as E1 by done.
  destruct (put_block_ok blk (ex_receipts (pb_executed p)) b0 h) as (H1 & H2 & H3 & H4).
  - eapply tables_ok_core; [exact E0|apply Hc].
  - by rewrite (core_headers _ _ E0), (core_tip _ _ E0).
  - done.
  - done.
  - rewrite (core_headers _ _ E1), (core_tip _ _ E1), (core_finalized _ _ E1). split; [by eapply tables_ok_core|].
    unfold b1. rewrite H2, H3, H4, (core_headers _ _ E0), (core_tip _ _ E0), (core_finalized _ _ E0). done.
Qed.

Definition head_is (h : BlockHeader) (c : Chain) : Prop := Chain.head c = Ok h.

Lemma tip_head c h : tables_ok (ch_blocks c) -> headers (ch_blocks c) !! tip (ch_blocks c) = Some h -> head_is h c.
Proof. intros _ E. unfold head_is, Chain.head, head_number. fold (tip (ch_blocks c)). by rewrite E. Qed.

Lemma commit_pending_safe f fin hs hash :
  hoare (safe f fin hs) (commit_pending hash)
    (fun h c => safe f fin hs c /\ head_is h c /\ header_hash h = hash) (safe f fin hs).
Proof.
  intros c Hc. unfold commit_pending. destruct (result_bind _ _) as [[p [b t]]|] eqn:E; [|done].
  apply result_bind_ok in E as (p' & Ep & E). apply result_bind_ok in E as (h & Eh & E).
  destruct (negb _) eqn:Epar; [done|]. apply result_bind_ok in E as ([b' t'] & Ec & [= -> -> ->]).
  pose proof Hc as [[Ht Hpd Hs] [Hf1 Hf2 Hf3 Hf4]].
  destruct (pending c hash) as [p''|] eqn:Epd; [|done]. injection Ep as ->. destruct (Hpd _ _ Epd) as (Ehash & _ & Hl).
  assert (hd_parent_hash (pb_header p) = header_hash h) as Epar' by lia.
  destruct (commit_tables_ok p c b t h (proj1 Hc) Eh Epar' Hl Ec) as (Hb & Eb & Etip & Efin).
  assert (headers b !! tip b = Some (pb_header p)) as Etop by by rewrite Eb, Etip, lookup_insert_eq.
  split; [|split; [by apply tip_head|done]]. split.
  - split; [done|by apply pend_ok_prune|by apply side_ok_prune].
  - split; cbn.
    + rewrite Etip. lia.
    + by rewrite Efin.
    + done.
    + intros m Hm. rewrite Eb, lookup_insert_ne by lia. by apply Hf4.
Qed.

(** ** Importing *)

Lemma import_final_safe f fin hs header transactions root certs :
  occurs header ->
  hoare (safe f fin hs) (import_final cfg header transactions root certs)
    (fun x c => safe f fin hs c /\ head_is header c /\ x = header_hash header) (safe f fin hs).
Proof.
  intros Ho. unfold import_final. eapply hoare_bind; [by apply hoare_read|]. intros h. apply hoare_drop.
  destruct (negb _); [eapply hoare_post; [by apply hoare_lift|by intros a c [_ ?]]|].
  eapply hoare_bind; [by apply verify_block_safe|]. intros p.
  destruct (match root with Some _ => _ | None => _ end).
  - eapply hoare_bind; [apply hoare_modify with (Q := any (safe f fin hs))|].
    + intros c (Hc & _). apply safe_pending; [|done]. apply pend_ok_delete, Hc.
    + intros u. eapply hoare_post; [by apply hoare_lift|by intros a c [_ ?]].
  - eapply hoare_pre with (P' := fun c => safe f fin hs c /\ (pb_hash p = header_hash header)); [|by intros c (? & _ & ? & _)].
    apply hoare_pure. intros Eh. eapply hoare_bind; [apply commit_pending_safe|]. intros h'.
    eapply hoare_pre with (P' := fun c => (safe f fin hs c /\ head_is h' c) /\ header_hash h' = pb_hash p); [|by intros c (? & ? & ?)].
    apply hoare_pure. intros Eh'. apply hoare_ret. intros c [Hc Hh]. split; [done|]. split; [|done].
    assert (h' = header) as <-; [|done]. apply occurs_inj; [by apply (head_spec c h' (proj1 Hc))|done|congruence].
Qed.

Lemma restore_each_safe f fin hs head_hash l restored :
  Forall (fun hd => occurs (db_header hd.2)) l ->
  hoare (safe f fin hs) (restore_each cfg head_hash l restored) (any (safe f fin hs)) (safe f fin hs).
Proof.
  intros Hl. revert restored. induction Hl as [|[hash d] l Hd Hl IH]; intros restored c Hc; cbn [restore_each]; [done|].
  case_bool_decide; [by apply IH|]. destruct (negb _ && _); [by apply IH|].
  pose proof (verify_block_safe f fin hs _ (db_transactions d) (Certs_of (db_envelope d)) Hd c Hc) as Hv. cbn [snd] in Hv.
  destruct (verify_block _ _ _ _ c) as [[p|e] c']; apply IH; [by destruct Hv|done].
Qed.
End facts.
