(* ===== verification/ForkChoice.v ===== *)
(** * Fork choice

    Models crates/chain/src/pow.rs: mined blocks on and off the canonical chain, their header
    checks, reorganisations bounded by depth and by finality, sealing; and [unwind_head] of
    crates/store/src/state.rs.  The clock is an argument.  Walks along parent links take the
    number of side blocks as fuel: a link to a side block is followed at most once for each unless
    hashes collide, and then the code would not return either. *)

From S2P Require Import Prelude Types TypesFacts Params Bls AuditCerts Pow Committee History Epochs Forks TxPool Ipld Car Index.
From S2P Require Import TrieIface Store StoreFacts StoreHistory StoreProps Overlay BlockStore BlockCerts Exec Queries Hooks Chain.
From stdpp Require Import base list list_numbers sorting gmap fin_maps strings.
From Stdlib Require Import ZArith Lia.

Open Scope Z_scope.
Open Scope bolt_scope.

Definition MAX_FUTURE_SECONDS : Z := 15.

Inductive MinedOutcome :=
  | Known
  | Extended
  | Side
  | Reorged (depth : Z).

Section forkchoice.
Context `{K : Keccak} `{Sh : Sha256} `{R : HeaderRlp} `{AR : AlloyReceipt} `{AB : !AlloyBlock} `{BR : !BodyRlp}.
Context `{CE : DagCbor Envelope} `{CL : DagCbor (list Cid)} `{CI : DagCbor EpochIndex} `{CB : CidBytes}.
Context `{SR : StateRlp} `{TO : TrieOps} `{SA : SolAbi} `{FC : ForkCode} `{HS : Hasher}.
Context `{B : Blst} `{CC : !CertCodec} `{DA : DagCbor AuditCert} `{DV : DagCbor VerdictCert} `{DT : DagCbor AttestCert}.
Context `{EV : !Revm ChainView}.
Variable cfg : ChainConfig.

Abbreviation import_final := (import_final cfg).

(** ** Where blocks are *)

(** Header, total difficulty, and whether the block is canonical. *)
Definition locate (c : Chain) (hash : B256) : result ChainError (option (BlockHeader * Z * bool)) :=
  match hash_num (ch_blocks c) !! hash with
  | Some n =>
      h <-? ok_or (headers (ch_blocks c) !! n) (EUnknownParent hash);
      Ok (Some (h, default 0 (total_difficulty n (ch_blocks c)), true))
  | None => Ok ((fun b => (sd_header b, sd_td b, false)) <$> ch_side c !! hash)
  end.

Definition knows (c : Chain) (hash : B256) : result ChainError bool :=
  l <-? locate c hash; Ok (bool_decide (is_Some l)).

Fixpoint ancestor_walk (c : Chain) (cur : B256) (height : Z) (n : nat) : result ChainError B256 :=
  match n with
  | O => Err EAbort
  | S n =>
      l <-? locate c cur;
      match l with
      | None => Err (EUnknownParent cur)
      | Some (h, _, canonical) =>
          if hd_number h =? height then Ok cur
          else if canonical : bool then ok_or (block_hash height (ch_blocks c)) (EUnknownParent cur)
          else if hd_number h <? height then Err (EUnknownParent cur)
          else ancestor_walk c (hd_parent_hash h) height n
      end
  end.

Definition walk_fuel (c : Chain) : nat := S (S (size (ch_side c))).

Definition ancestor_hash (c : Chain) (tip : B256) (height : Z) : result ChainError B256 :=
  ancestor_walk c tip height (walk_fuel c).

Definition finalized (c : Chain) : option (Z * B256) := meta_finalized (ch_blocks c).

(** ** Header checks *)

Definition check_mined_header (c : Chain) (header parent : BlockHeader) : result ChainError () :=
  if negb (hd_number header =? u64 (hd_number parent + 1)) then Err (EInvalidBlock "wrong number")
  else if hd_timestamp header <=? hd_timestamp parent then Err (EInvalidBlock "timestamp not after parent")
  else if hd_difficulty header =? 0 then Err (EInvalidBlock "not a mined block")
  else
    ph <-? chain_phase cfg c;
    pos <-? lift_outcome (is_pos ph (cf_rules cfg) (hd_number header));
    if pos : bool then Err (EInvalidBlock "past the switch to PoS")
    else
      expected <-? difficulty_after cfg c parent;
      if negb (hd_difficulty header =? expected) then Err (EInvalidBlock "difficulty")
      else if 32 <? Z.of_nat (length (hd_extra_data header)) then Err (EInvalidBlock "extra data over 32 bytes")
      else
        seed <-? ancestor_hash c (hd_parent_hash header) (seed_height (hd_number header));
        check_seal cfg header seed.

(** ** Undoing blocks *)

(** [unwind_head]: the tables without their head block, that block and the restored root. *)
Definition unwind_head (b : BlockTables) (t : StateTables)
    : result StoreError (StoredBlock * B256 * (BlockTables * StateTables)) :=
  match meta_head b with
  | None => Err (StoreCorrupt "unwind: empty chain")
  | Some number =>
      if number =? 0 then Err (StoreCorrupt "unwind: cannot undo genesis")
      else
        r <-? unwind_state number (history_covers number (base b) number) t;
        rb <-? remove_head_block number b;
        Ok (rb.1, r.1, (rb.2, r.2))
  end.

(** The certificates of the envelope of block [number]. *)
Definition certs_at (b : BlockTables) (root : option Cid) : Certs :=
  match root with
  | Some r =>
      match ipld b !! r with
      | Some data => match Envelope_decode data with Ok e => Certs_of e | Err _ => Certs_default end
      | None => Certs_default
      end
  | None => Certs_default
  end.

(** The loop of [unwind_to], on the tables of its write transaction; the blocks undone newest first.
    Each turn lowers the head, so [n] turns are enough for [n] blocks. *)
Fixpoint unwind_loop (number : Z) (n : nat) (b : BlockTables) (t : StateTables)
    : result ChainError (list SideBlock * (BlockTables * StateTables)) :=
  let head := default 0 (meta_head b) in
  if head <=? number then Ok ([], (b, t))
  else
    match n with
    | O => Err EAbort
    | S n =>
        let root := envelopes b !! head in
        let td := default 0 (total_difficulty head b) in
        let cert := certs_at b root in
        r <-? store_err (unwind_head b t);
        let '(blk, state_root, (b, t)) := r in
        if negb (bool_decide (hd_state_root <$> headers b !! (head - 1) = Some state_root)) then
          Err (EExec "state root after undoing")
        else
          rest <-? unwind_loop number n b t;
          Ok (mkSide (sb_header blk) (sb_transactions blk) root td cert :: rest.1, rest.2)
    end.

(** The blocks undone, oldest first.  Pending blocks are forgotten in any case. *)
Definition unwind_to (number : Z) : CM (list SideBlock) := fun c =>
  let c := with_pending ∅ c in
  match unwind_loop number (Z.to_nat (head_number c - number)) (ch_blocks c) (ch_state c) with
  | Ok (undone, (b, t)) => (Ok (rev undone), with_db b t c)
  | Err e => (Err e, c)
  end.

(** ** Reorganisations *)

(** The branch down to its fork point on the canonical chain, newest first, and that height. *)
Fixpoint branch_walk (c : Chain) (cur : B256) (n : nat) : result ChainError (list SideBlock * Z) :=
  match n with
  | O => Err EAbort
  | S n =>
      match ch_side c !! cur with
      | Some b =>
          r <-? branch_walk c (hd_parent_hash (sd_header b)) n;
          Ok (b :: r.1, r.2)
      | None =>
          fork <-? ok_or (hash_num (ch_blocks c) !! cur) (EUnknownParent cur);
          Ok ([], fork)
      end
  end.

(** Whether a canonical block above the fork was produced by the committee. *)
Definition pos_block_above (c : Chain) (fork head : Z) : bool :=
  existsb (fun n => match headers (ch_blocks c) !! n with Some h => hd_difficulty h =? 0 | None => false end)
    (z_range (fork + 1) (head + 1)).

Definition remove_side (l : list SideBlock) (c : Chain) : Chain :=
  with_side (foldl (fun m d => delete (header_hash (sd_header d)) m) (ch_side c) l) c.

Definition insert_side (l : list SideBlock) (c : Chain) : Chain :=
  with_side (foldl (fun m o => <[header_hash (sd_header o) := o]> m) (ch_side c) l) c.

Definition import_side (b : SideBlock) : CM B256 :=
  import_final (sd_header b) (sd_transactions b) (sd_root b) (sd_cert b).

(** Imports the old branch again. *)
Fixpoint restore_old (l : list SideBlock) : CM () :=
  match l with
  | [] => cret ()
  | o :: l =>
      cbind (cmodify (remove_side [o])) (fun _ => cbind (import_side o) (fun _ => restore_old l))
  end.

(** Imports the new branch; at an invalid block, forgets it and its descendants and goes back. *)
Fixpoint import_branch (fork : Z) (undone : list SideBlock) (l : list SideBlock) : CM () :=
  match l with
  | [] => cret ()
  | b :: rest => fun c =>
      match import_side b c with
      | (Ok _, c) => import_branch fork undone rest (remove_side [b] c)
      | (Err e, c) =>
          let c := remove_side (b :: rest) c in
          cbind (unwind_to fork) (fun _ => cbind (restore_old undone) (fun _ => clift (Err e))) c
      end
  end.

Definition check_reorg (c : Chain) (fork head : Z) : result ChainError () :=
  if match finalized c with Some (fin, _) => fork <? fin | None => false end then
    Err (EDeepReorg "fork point below the finalized checkpoint")
  else if MAX_REORG_DEPTH <? u64 (head - fork) then Err (EDeepReorg "too deep")
  else if pos_block_above c fork head then Err (EDeepReorg "block produced by the PoS committee")
  else Ok ().

Definition reorg_to (tip : B256) : CM Z :=
  cbind (cread (fun c => branch_walk c tip (walk_fuel c))) (fun '(branch, fork) =>
  cbind (cread Chain.head) (fun h =>
  let depth := u64 (hd_number h - fork) in
  cbind (cread (fun c => check_reorg c fork (hd_number h))) (fun _ =>
  cbind (unwind_to fork) (fun undone =>
  cbind (import_branch fork undone (rev branch)) (fun _ =>
  cbind (cmodify (insert_side undone)) (fun _ => cret depth)))))).

(** ** Importing mined blocks *)

(** More work wins; equal work goes to the lower hash. *)
Definition wins (td hash head_td head_hash : Z) : bool :=
  negb ((td <? head_td) || ((td =? head_td) && (head_hash <=? hash))).

Definition forks_below_final (c : Chain) (parent : BlockHeader) (canonical : bool) : bool :=
  match finalized c with Some (fin, _) => canonical && (hd_number parent <? fin) | None => false end.

(** A block that does not extend the head: checked as far as its header allows, kept, and made
    canonical if its branch wins. *)
Definition import_side_block (header : BlockHeader) (transactions : list TxEnvelope) (root : option Cid) (cert : Certs)
    (parent : BlockHeader) (parent_td : Z) (h : BlockHeader) : CM MinedOutcome :=
  let hash := header_hash header in
  cbind (cread (fun c => check_mined_header c header parent)) (fun _ =>
  let td := wrap 256 (parent_td + hd_difficulty header) in
  cbind (cmodify (fun c => with_side (<[hash := mkSide header transactions root td cert]> (ch_side c)) c)) (fun _ =>
  cbind (cread (fun c => Ok (head_total_difficulty c))) (fun head_td =>
  if negb (wins td hash head_td (header_hash h)) then cret Side
  else cbind (reorg_to hash) (fun depth => cret (Reorged depth))))).

Definition import_mined_with_cert (now : Z) (header : BlockHeader) (transactions : list TxEnvelope) (root : option Cid)
    (cert : Certs) : CM MinedOutcome :=
  let hash := header_hash header in
  cbind (cread (fun c => locate c hash)) (fun known =>
  if bool_decide (is_Some known) then cret Known
  else if u64 (now + MAX_FUTURE_SECONDS) <? hd_timestamp header then clift (Err (EInvalidBlock "in the future"))
  else
    cbind (cread (fun c => l <-? locate c (hd_parent_hash header); ok_or l (EUnknownParent (hd_parent_hash header))))
      (fun '(parent, parent_td, canonical) =>
    cbind (cread (fun c => if forks_below_final c parent canonical then Err (EDeepReorg "forks below the checkpoint") else Ok ()))
      (fun _ =>
    cbind (cread Chain.head) (fun h =>
    if hd_parent_hash header =? header_hash h then
      if hd_difficulty header =? 0 then clift (Err (EInvalidBlock "not a mined block"))
      else cbind (import_final header transactions root cert) (fun _ => cret Extended)
    else import_side_block header transactions root cert parent parent_td h)))).

Definition import_mined (now : Z) (header : BlockHeader) (transactions : list TxEnvelope) (root : option Cid) : CM MinedOutcome :=
  import_mined_with_cert now header transactions root Certs_default.

(** ** Finality *)

Definition finalize (hash : B256) (height : Z) : CM bool := fun c =>
  if match finalized c with Some (n, _) => height <=? n | None => false end then (Ok false, c)
  else
    cbind (cread (fun c => l <-? locate c hash; ok_or l (EUnknownParent hash))) (fun '(header, _, canonical) =>
    if negb (hd_number header =? height) then clift (Err (EInvalidBlock "checkpoint at another height"))
    else
      cbind (if canonical : bool then cret () else cbind (reorg_to hash) (fun _ => cret ())) (fun _ =>
      cbind (cmodify (fun c => with_side (prune_side height (ch_side c))
                                 (with_db (set_finalized height hash (ch_blocks c)) (ch_state c) c))) (fun _ =>
      cret true))) c.

(** ** Mining *)

Definition build_template (candidates : list (TxEnvelope * Address)) (timestamp : Z) (beneficiary : Address)
    (extra_data : bytes) (cert : Certs) : CM BuiltBlock :=
  cbind (cread Chain.head) (fun h =>
  cbind (build_on cfg (header_hash h) candidates timestamp beneficiary extra_data cert) (fun built =>
  if hd_difficulty (bb_header built) =? 0 then
    cbind (cmodify (drop_pending (bb_hash built))) (fun _ => clift (Err (EInvalidBlock "PoS has started: nothing to mine")))
  else cret built)).

Definition seal_key (c : Chain) (parent : B256) (number : Z) : result ChainError B256 :=
  s <-? ancestor_hash c parent (seed_height number); Ok (key_for s).

Definition seal_and_import (now : Z) (template : BuiltBlock) (nonce : Z) : CM (BlockHeader * MinedOutcome) := fun c =>
  let o := pending c (bb_hash template) in
  let c := drop_pending (bb_hash template) c in
  match o with
  | None => (Err (EUnknownParent (bb_hash template)), c)
  | Some p =>
      let header := with_nonce (bb_header template) nonce in
      cbind (import_mined_with_cert now header (ex_transactions (pb_executed p)) None (Certs_of (bd_envelope (pb_bundle p))))
        (fun outcome => cret (header, outcome)) c
  end.
End forkchoice.
