(* ===== verification/ForkChoiceFacts.v ===== *)
(** * Facts on fork choice

    The operations of ForkChoice.v keep the invariant and never undo a block at or below the
    finalized one; the walks along parent links end; what importing a mined block did. *)

From S2P Require Import Prelude Types TypesFacts Params Bls AuditCerts Pow Committee History Epochs Forks TxPool Ipld Car Index.
From S2P Require Import TrieIface Store StoreFacts StoreHistory StoreProps Overlay BlockStore ChainTables BlockCerts Exec Queries Hooks HooksFacts.
From S2P Require Import Chain ChainFacts ForkChoice.
From stdpp Require Import base list list_numbers sorting gmap fin_maps strings.
From Stdlib Require Import ZArith Lia.

Open Scope Z_scope.
Open Scope bolt_scope.

Section facts.
Context `{K : Keccak} `{Sh : Sha256} `{R : HeaderRlp} `{AR : AlloyReceipt} `{AB : !AlloyBlock} `{BR : !BodyRlp}.
Context `{CE : DagCbor Envelope} `{CL : DagCbor (list Cid)} `{CI : DagCbor EpochIndex} `{CB : CidBytes}.
Context `{SR : StateRlp} `{TO : TrieOps} `{SA : SolAbi} `{FC : ForkCode} `{HS : Hasher}.
Context `{B : Blst} `{CC : !CertCodec} `{DA : DagCbor AuditCert} `{DV : DagCbor VerdictCert} `{DT : DagCbor AttestCert}.
Context `{EV : !Revm ChainView} {Un : Universe}.
Variable cfg : ChainConfig.

(** ** Locating *)

Lemma hash_num_spec c x n : chain_ok c -> hash_num (ch_blocks c) !! x = Some n ->
  0 <= n <= tip (ch_blocks c) /\ exists h, headers (ch_blocks c) !! n = Some h /\ header_hash h = x /\ hd_number h = n /\ occurs h.
Proof.
  intros [Ht _ _] Hn. apply (ok_hash _ Ht) in Hn as (h & Eh & Ex). destruct (ok_header _ Ht _ _ Eh) as [Nh Oh].
  destruct (tip_header _ Ht) as (_ & _ & _ & _ & _ & _ & Hdom). split; [apply Hdom; by eexists|]. by exists h.
Qed.

(** A located block occurs, has the hash asked for, and its total difficulty. *)
Lemma locate_spec c x h w canonical :
  chain_ok c -> locate c x = Ok (Some (h, w, canonical)) ->
  occurs h /\ header_hash h = x /\ w = weight_of x
  /\ if canonical then headers (ch_blocks c) !! hd_number h = Some h else linked h /\ exists s, ch_side c !! x = Some s /\ sd_header s = h.
Proof.
  intros Hc. unfold locate. destruct (hash_num (ch_blocks c) !! x) as [n|] eqn:En.
  - destruct (hash_num_spec _ _ _ Hc En) as (_ & h' & Eh & Ex & Nh & Oh). rewrite Eh. cbn [ok_or result_bind].
    intros [= <- <- <-]. split_and!; try done; [|by rewrite Nh].
    unfold total_difficulty. rewrite (ok_td _ (co_tables c Hc) _ _ Eh). cbn. by rewrite Ex.
  - destruct (ch_side c !! x) as [s|] eqn:Es; [|done]. intros [= <- <- <-].
    destruct (co_side c Hc _ _ Es) as (Eh & [Hl Hw]). split_and!; try done; [by destruct Hl|by rewrite Hw, Eh|by exists s].
Qed.

(** ** The walks end *)

(** Side blocks at or below a height. *)
Definition side_below (c : Chain) (k : Z) : gmap B256 SideBlock := filter (fun kv => hd_number (sd_header kv.2) <= k) (ch_side c).

Lemma side_below_size c k : (size (side_below c k) <= size (ch_side c))%nat.
Proof. apply map_subseteq_size, map_filter_subseteq. Qed.

Lemma side_below_step c x s k :
  ch_side c !! x = Some s -> hd_number (sd_header s) = k + 1 ->
  (size (side_below c k) < size (side_below c (k + 1)))%nat.
Proof.
  intros Es Hk. apply map_subset_size. split.
  - apply map_subseteq_spec. intros y t [Ht Hy]%map_lookup_filter_Some. apply map_lookup_filter_Some. cbn in *. split; [done|lia].
  - intros Hsub. rewrite map_subseteq_spec in Hsub. specialize (Hsub x s).
    unfold side_below in Hsub. rewrite !map_lookup_filter_Some in Hsub. destruct Hsub as [_ Hsub]; cbn in *; [split; [done|lia]|lia].
Qed.

(** The parent of a side block is one below, if it is a side block too. *)
Lemma side_parent_below c x s y t :
  chain_ok c -> ch_side c !! x = Some s -> hd_parent_hash (sd_header s) = y -> ch_side c !! y = Some t ->
  hd_number (sd_header s) = hd_number (sd_header t) + 1.
Proof.
  intros Hc Es Ey Et. destruct (co_side c Hc _ _ Es) as (_ & [[_ (q & Hq & Eq & Nq)] _]).
  destruct (co_side c Hc _ _ Et) as (Eh & [[Ho _] _]).
  assert (q = sd_header t) as ->; [|done]. apply occurs_inj; [done|done|congruence].
Qed.

Lemma branch_walk_ends c : chain_ok c -> forall n x,
  (match ch_side c !! x with Some s => size (side_below c (hd_number (sd_header s))) | None => 0 end < n)%nat ->
  branch_walk c x n <> Err EAbort.
Proof.
  intros Hc. induction n as [|n IH]; intros x Hn; [lia|]. cbn [branch_walk]. destruct (ch_side c !! x) as [s|] eqn:Es.
  - specialize (IH (hd_parent_hash (sd_header s))). destruct (branch_walk c _ n) as [[l f]|e]; [done|]. cbn.
    intros [= ->]. apply IH; [|done]. destruct (ch_side c !! hd_parent_hash (sd_header s)) as [t|] eqn:Et.
    + pose proof (side_parent_below _ _ _ _ _ Hc Es eq_refl Et) as E. pose proof (side_below_step c x s _ Es E). rewrite E in Hn. lia.
    + assert (size (side_below c (hd_number (sd_header s))) <> 0)%nat; [|lia].
      intros E0%map_size_empty_inv. assert (side_below c (hd_number (sd_header s)) !! x = Some s) as E1.
      { apply map_lookup_filter_Some. cbn. split; [done|lia]. }
      by rewrite E0, lookup_empty in E1.
  - by destruct (hash_num (ch_blocks c) !! x).
Qed.

Lemma ancestor_walk_ends c height : chain_ok c -> forall n x,
  (match ch_side c !! x with Some s => size (side_below c (hd_number (sd_header s))) | None => 0 end < n)%nat ->
  ancestor_walk c x height n <> Err EAbort.
Proof.
  intros Hc. induction n as [|n IH]; intros x Hn; [lia|]. cbn [ancestor_walk].
  destruct (locate c x) as [[[[h w] canonical]|]|e] eqn:El; cbn; [|done|].
  - destruct (hd_number h =? height); [done|]. destruct canonical; [by destruct (block_hash _ _)|].
    destruct (hd_number h <? height); [done|]. apply IH.
    destruct (locate_spec _ _ _ _ _ Hc El) as (_ & _ & _ & Hl & s & Es & Eh). rewrite Es in Hn.
    destruct (ch_side c !! hd_parent_hash h) as [t|] eqn:Et.
    + rewrite <-Eh in Et. pose proof (side_parent_below _ _ _ _ _ Hc Es eq_refl Et) as E.
      pose proof (side_below_step c x s _ Es E). rewrite E in Hn. lia.
    + assert (size (side_below c (hd_number (sd_header s))) <> 0)%nat; [|lia].
      intros E0%map_size_empty_inv. assert (side_below c (hd_number (sd_header s)) !! x = Some s) as E1.
      { apply map_lookup_filter_Some. cbn. split; [done|lia]. }
      by rewrite E0, lookup_empty in E1.
  - intros [= ->]. unfold locate in El. destruct (hash_num (ch_blocks c) !! x); [|done]. by destruct (headers (ch_blocks c) !! _).
Qed.

Lemma side_walk_fuel c x :
  (match ch_side c !! x with Some s => size (side_below c (hd_number (sd_header s))) | None => 0 end < walk_fuel c)%nat.
Proof.
  unfold walk_fuel. destruct (ch_side c !! x) as [s|]; [|lia]. pose proof (side_below_size c (hd_number (sd_header s))). lia.
Qed.

(** C8.  The walks of fork choice end: following parent links through the side blocks, to an ancestor at a
    height or to the fork point, takes no more steps than there are side blocks and two, from any
    state the chain can reach; the code's two unbounded loops return. *)
Theorem fork_choice_walks_end (c : Chain) (tip_hash : B256) (height : Z) (Hok : chain_ok c) :
  ancestor_hash c tip_hash height <> Err EAbort /\ branch_walk c tip_hash (walk_fuel c) <> Err EAbort.
Proof.
  split; [apply ancestor_walk_ends|apply branch_walk_ends]; try done; apply side_walk_fuel.
Qed.

(** ** Undoing *)

Lemma unwind_head_ok b t blk root b' t' :
  tables_ok b -> (forall f x, meta_finalized b = Some (f, x) -> f < tip b) ->
  unwind_head b t = Ok (blk, root, (b', t')) ->
  tables_ok b' /\ headers b !! tip b = Some (sb_header blk) /\ headers b' = delete (tip b) (headers b)
  /\ tip b' = tip b - 1 /\ meta_finalized b' = meta_finalized b /\ 0 < tip b.
Proof.
  intros Hb Hf. destruct (tip_header b Hb) as (h & Eh & Nh & Oh & Em & Hr & _). unfold unwind_head. rewrite Em.
  destruct (tip b =? 0) eqn:E0; [done|]. intros (r & _ & Hk)%result_bind_ok. apply result_bind_ok in Hk as ([blk' b1] & Er & Hk).
  cbn in Hk. injection Hk as -> <- -> <-.
  destruct (remove_head_ok b blk b' Hb ltac:(lia) Hf Er) as (? & ? & ? & ? & ?). split_and!; try done. lia.
Qed.

Lemma unwind_loop_ok f fin number : forall n b t undone b' t',
  tables_ok b -> meta_finalized b = fin -> (forall g x, fin = Some (g, x) -> g <= f) -> f <= number ->
  unwind_loop number n b t = Ok (undone, (b', t')) ->
  tables_ok b' /\ meta_finalized b' = fin /\ tip b' = Z.min number (tip b)
  /\ (forall m, m <= number -> headers b' !! m = headers b !! m) /\ Forall side_block_ok undone.
Proof.
  induction n as [|n IH]; intros b t undone b' t' Hb Ef Hfin Hle Hk; cbn [unwind_loop] in Hk;
    change (default 0 (meta_head b)) with (tip b) in Hk; destruct (tip b <=? number) eqn:Etop.
  1, 3: injection Hk as <- <- <-; split_and!; [done|done|lia|done|by constructor].
  - done.
  - apply result_bind_ok in Hk as ([[blk root] [b1 t1]] & Er & Hk).
    destruct (unwind_head b t) as [r|] eqn:Eu; [|done]. injection Er as ->.
    destruct (negb _); [done|]. apply result_bind_ok in Hk as ([rest [b2 t2]] & Erest & Hk). injection Hk as <- <- <-.
    apply unwind_head_ok in Eu as (Hb1 & Eh & Eh1 & Etip & Ef1 & Hpos); [|done|].
    2: { intros g x Eg. rewrite Ef in Eg. specialize (Hfin _ _ Eg). lia. }
    destruct (IH b1 t1 rest b2 t2 Hb1 ltac:(congruence) Hfin Hle Erest) as (Hb2 & Ef2 & Et2 & Hh & Hrest).
    split_and!; [done|done|lia| |].
    + intros m Hm. rewrite Hh, Eh1, lookup_delete_ne by lia. done.
    + constructor; [|done]. destruct (canonical_linked b _ _ Hb Eh Hpos) as (q & _ & Hq).
      split; cbn; [split; [by apply (ok_header b Hb _ _ Eh)|by exists q]|].
      unfold total_difficulty. by rewrite (ok_td b Hb _ _ Eh).
Qed.

Lemma unwind_to_safe f fin hs number :
  f <= number ->
  hoare (safe f fin hs) (unwind_to number) (fun undone c => safe f fin hs c /\ Forall side_block_ok undone) (safe f fin hs).
Proof.
  intros Hle c [[Ht Hp Hs] [Hf1 Hf2 Hf3 Hf4]]. unfold unwind_to.
  destruct (unwind_loop _ _ _ _) as [[undone [b t]]|e] eqn:E; cbn.
  - destruct (unwind_loop_ok f fin number _ _ _ _ _ _ Ht Hf2 Hf3 Hle E) as (Hb & Ef & Etip & Hh & Hu).
    split; [|by apply Forall_rev]. split.
    + split; [done|apply pend_ok_empty|done].
    + split; cbn; [lia|done|done|]. intros m Hm. rewrite Hh by lia. by apply Hf4.
  - split; [split; [done|apply pend_ok_empty|done]|done].
Qed.

(** ** Reorganisations *)

Lemma remove_side_safe f fin hs l c : safe f fin hs c -> safe f fin hs (remove_side l c).
Proof.
  intros Hc. apply safe_side; [|done]. destruct Hc as [[_ _ Hs] _]. revert Hs. generalize (ch_side c).
  induction l as [|d l IH]; intros m Hm; [done|]. cbn. by apply IH, side_ok_delete.
Qed.

Lemma insert_side_safe f fin hs l c : Forall side_block_ok l -> safe f fin hs c -> safe f fin hs (insert_side l c).
Proof.
  intros Hl Hc. apply safe_side; [|done]. destruct Hc as [[_ _ Hs] _]. revert Hs. generalize (ch_side c).
  induction Hl as [|d l Hd Hl IH]; intros m Hm; [done|]. cbn. by apply IH, side_ok_insert.
Qed.

Lemma import_side_safe f fin hs s :
  side_block_ok s ->
  hoare (safe f fin hs) (import_side cfg s) (fun x c => safe f fin hs c /\ head_is (sd_header s) c) (safe f fin hs).
Proof.
  intros [[Ho _] _]. eapply hoare_post; [by apply import_final_safe|]. by intros a c (? & ? & _).
Qed.

Lemma restore_old_safe f fin hs l :
  Forall side_block_ok l -> hoare (safe f fin hs) (restore_old cfg l) (any (safe f fin hs)) (safe f fin hs).
Proof.
  induction 1 as [|o l Ho Hl IH]; cbn [restore_old]; [by apply hoare_ret|].
  eapply hoare_bind; [apply hoare_modify with (Q := any (safe f fin hs)); intros c Hc; by apply (remove_side_safe _ _ _ [o])|].
  intros u. eapply hoare_bind; [by apply import_side_safe|]. intros x. by apply hoare_drop.
Qed.

(** The header the branch ends in, or the one before it. *)
Definition end_of (h : BlockHeader) (l : list SideBlock) : BlockHeader :=
  match last l with Some s => sd_header s | None => h end.

Lemma import_branch_safe f fin hs fork undone l :
  f <= fork -> Forall side_block_ok undone -> Forall side_block_ok l ->
  forall h, hoare (fun c => safe f fin hs c /\ (l = [] -> head_is h c)) (import_branch cfg fork undone l)
    (fun _ c => safe f fin hs c /\ head_is (end_of h l) c) (safe f fin hs).
Proof.
  intros Hle Hu. induction 1 as [|s l Hs Hl IH]; intros h c [Hc Hh]; cbn [import_branch].
  - split; [done|by apply Hh].
  - pose proof (import_side_safe f fin hs s Hs c Hc) as Hi. destruct (import_side cfg s c) as [[x|e] c1].
    + destruct Hi as [Hc1 Hh1]. assert (end_of h (s :: l) = end_of (sd_header s) l) as ->.
      { unfold end_of. rewrite last_cons. by destruct (last l). }
      apply IH. split; [by apply (remove_side_safe _ _ _ [s])|]. intros _. exact Hh1.
    + assert (hoare (safe f fin hs) (cbind (unwind_to fork) (fun _ => cbind (restore_old cfg undone) (fun _ => clift (Err e))))
                (fun (_ : ()) (_ : Chain) => False) (safe f fin hs)) as Hgo.
      { eapply hoare_bind; [by apply unwind_to_safe|]. intros a. apply hoare_drop.
        eapply hoare_bind; [by apply restore_old_safe|]. intros u c2 Hc2. exact Hc2. }
      specialize (Hgo _ (remove_side_safe f fin hs (s :: l) c1 Hi)). destruct (cbind _ _ _) as [[a|e'] c2]; [done|exact Hgo].
Qed.

Lemma branch_walk_ok c : chain_ok c -> forall n x l fork,
  branch_walk c x n = Ok (l, fork) ->
  Forall side_block_ok l /\ 0 <= fork <= tip (ch_blocks c)
  /\ match ch_side c !! x with
     | Some s => head l = Some s
     | None => l = [] /\ hash_num (ch_blocks c) !! x = Some fork
     end.
Proof.
  intros Hc. induction n as [|n IH]; intros x l fork; [done|]. cbn [branch_walk]. destruct (ch_side c !! x) as [s|] eqn:Es.
  - intros ([l' fork'] & Er & [= <- <-])%result_bind_ok. destruct (IH _ _ _ Er) as (Hl & Hf & _).
    split; [|done]. constructor; [by apply (co_side c Hc _ _ Es)|done].
  - intros (m & Em & [= <- <-])%result_bind_ok. destruct (hash_num _ !! x) as [n'|] eqn:En; [|done]. injection Em as ->.
    split; [by constructor|]. split; [by apply (hash_num_spec c x)|done].
Qed.

(** The height no reorganisation may undo: the finalized one, or genesis. *)
Definition final_height (fin : option (Z * B256)) : Z := match fin with Some (g, _) => g | None => 0 end.

Lemma final_height_below fin : forall g x, fin = Some (g, x) -> g <= final_height fin.
Proof. by intros g x ->. Qed.

(** A height no reorganisation goes below: that of the finalized block, or of a canonical block above it
    that the committee produced. *)
Definition barrier (f : Z) (fin : option (Z * B256)) (hs : gmap Z BlockHeader) : Prop :=
  f = final_height fin \/ (final_height fin <= f /\ exists h, hs !! f = Some h /\ hd_difficulty h = 0).

Lemma barrier_fork f fin hs c fork h :
  safe f fin hs c -> barrier f fin hs -> 0 <= fork -> head_is h c -> check_reorg c fork (hd_number h) = Ok () -> f <= fork.
Proof.
  intros [Hc [Htip Hfin Hb Hh]] Hbar Hfork Hhead. unfold check_reorg, finalized. rewrite Hfin.
  destruct (match fin with Some _ => _ | None => false end) eqn:E1; [done|]. destruct (_ <? _); [done|].
  destruct (pos_block_above c fork (hd_number h)) eqn:Ep; [done|]. intros _.
  assert (final_height fin <= fork) as Hle by (destruct fin as [[g y]|]; cbn in *; lia).
  destruct Hbar as [->|(Hf & h1 & E & Hd)]; [done|]. destruct (decide (f <= fork)) as [|Hgt]; [done|].
  exfalso. assert (pos_block_above c fork (hd_number h) = true); [|congruence].
  destruct (head_spec _ _ Hc Hhead) as (_ & _ & Nh). apply existsb_exists. exists f. split.
  - unfold z_range. apply in_map_iff. exists (Z.to_nat (f - (fork + 1))). rewrite in_seq. lia.
  - rewrite Hh, E by lia. lia.
Qed.

Definition reorged_to f fin hs (x : B256) (depth : Z) (c : Chain) : Prop :=
  safe f fin hs c /\ (exists h, head_is h c /\ header_hash h = x) /\ 0 <= depth <= MAX_REORG_DEPTH.

Lemma reorg_to_safe f fin hs x s :
  barrier f fin hs ->
  hoare (fun c => safe f fin hs c /\ ch_side c !! x = Some s) (reorg_to cfg x) (reorged_to f fin hs x) (safe f fin hs).
Proof.
  intros Hbar. unfold reorg_to.
  eapply hoare_bind; [apply hoare_read; by intros c [? _]|]. intros [branch fork].
  eapply hoare_pre with (P' := fun c => (safe f fin hs c /\ 0 <= fork <= tip (ch_blocks c))
    /\ (Forall side_block_ok branch /\ exists s', head branch = Some s' /\ header_hash (sd_header s') = x /\ 0 <= fork)).
  2: { intros c [[Hc Es] Eb]. destruct (branch_walk_ok c (proj1 Hc) _ _ _ _ Eb) as (Hl & Hf & Hh). rewrite Es in Hh.
       split; [done|]. split; [done|]. exists s. split; [done|]. split; [|lia]. by apply (co_side c (proj1 Hc)). }
  apply hoare_pure. intros (Hbr & s' & Ehd & Ehash & Hfork).
  eapply hoare_bind; [apply hoare_read; by intros c [? _]|]. intros h.
  eapply hoare_pre with (P' := fun c => (safe f fin hs c /\ head_is h c) /\ 0 <= fork <= hd_number h /\ hd_number h < U64_MAX).
  2: { intros c [[Hc Hf] Eh]. destruct (head_spec _ _ (proj1 Hc) Eh) as (_ & Ho & Nh). pose proof (occurs_number _ Ho).
       split; [done|lia]. }
  apply hoare_pure. intros [Hfh Hmax].
  assert (u64 (hd_number h - fork) = hd_number h - fork) as Hd.
  { apply wrap_small. unfold in_range, U64_MAX in *. lia. }
  rewrite Hd. eapply hoare_bind; [apply hoare_read; by intros c [? _]|]. intros u.
  eapply hoare_pre with (P' := fun c => safe f fin hs c /\ f <= fork /\ hd_number h - fork <= MAX_REORG_DEPTH).
  2: { intros c [[Hc Hh] Hk]. destruct u. split; [done|]. split; [by eapply barrier_fork|].
       unfold check_reorg in Hk. rewrite Hd in Hk. destruct (match finalized c with Some _ => _ | None => _ end); [done|].
       destruct (MAX_REORG_DEPTH <? _) eqn:Em; [done|]. lia. }
  apply hoare_pure. intros [Hle Hdepth].
  eapply hoare_bind; [by apply unwind_to_safe|]. intros undone. apply hoare_pure. intros Hu.
  assert (Forall side_block_ok (rev branch)) as Hrev by by apply Forall_rev.
  assert (rev branch <> []) as Hne.
  { destruct branch as [|s0 branch]; [done|]. cbn. by destruct (rev branch). }
  assert (end_of h (rev branch) = sd_header s') as Hend.
  { destruct branch as [|s0 branch]; [done|]. injection Ehd as ->. cbn. unfold end_of. by rewrite last_snoc. }
  eapply hoare_bind.
  { eapply hoare_pre; [by apply (import_branch_safe f fin hs fork undone (rev branch) Hle Hu Hrev h)|].
    intros c Hc. split; [done|]. by intros E. }
  intros u2. rewrite Hend. eapply hoare_bind with (Q := fun _ c => safe f fin hs c /\ head_is (sd_header s') c).
  { apply hoare_modify. intros c [Hc Hh]. split; [by apply insert_side_safe|exact Hh]. }
  intros u3. apply hoare_ret. intros c [Hc Hh]. split; [done|]. split; [by exists (sd_header s')|lia].
Qed.

(** ** Importing mined blocks *)

(** The branch that wins has more work, or as much and the lower hash. *)
Definition heavier (h h0 : BlockHeader) : Prop :=
  weight_of (header_hash h0) < weight_of (header_hash h)
  \/ (weight_of (header_hash h) = weight_of (header_hash h0) /\ header_hash h < header_hash h0).

(** What a mined block's import did to a chain whose head was [h0]. *)
Definition mined_post f fin hs (header h0 : BlockHeader) (o : MinedOutcome) (c : Chain) : Prop :=
  safe f fin hs c
  /\ match o with
     | Known => head_is h0 c
     | Extended => head_is header c /\ hd_parent_hash header = header_hash h0
     | Side => head_is h0 c /\ (exists s, ch_side c !! header_hash header = Some s /\ sd_header s = header) /\ ~ heavier header h0
     | Reorged depth => head_is header c /\ 0 <= depth <= MAX_REORG_DEPTH /\ heavier header h0
     end.

Lemma head_difficulty c h : chain_ok c -> head_is h c -> head_total_difficulty c = weight_of (header_hash h).
Proof.
  intros Hc Hh. destruct (head_spec _ _ Hc Hh) as (Et & _). unfold head_total_difficulty, total_difficulty, head_number.
  change (default 0 (meta_head (ch_blocks c))) with (tip (ch_blocks c)). by rewrite (ok_td _ (co_tables c Hc) _ _ Et).
Qed.

Lemma wins_heavier h h0 :
  wins (weight_of (header_hash h)) (header_hash h) (weight_of (header_hash h0)) (header_hash h0) = true <-> heavier h h0.
Proof. unfold wins, heavier. rewrite negb_true_iff, orb_false_iff, andb_false_iff. lia. Qed.

Lemma import_side_block_safe f fin hs header transactions root cert parent h0 :
  barrier f fin hs -> occurs header -> occurs parent -> header_hash parent = hd_parent_hash header ->
  hoare (fun c => safe f fin hs c /\ head_is h0 c)
    (import_side_block cfg header transactions root cert parent (weight_of (hd_parent_hash header)) h0)
    (mined_post f fin hs header h0) (safe f fin hs).
Proof.
  intros Hbar Ho Hop Epar. unfold import_side_block.
  eapply hoare_bind; [apply hoare_read; by intros c [? _]|]. intros u.
  eapply hoare_pre with (P' := fun c => (safe f fin hs c /\ head_is h0 c) /\ child_of header parent).
  2: { intros c [Hc Hk]. split; [done|]. unfold check_mined_header in Hk.
       destruct (hd_number header =? u64 (hd_number parent + 1)) eqn:En; [|done]. split; [done|]. split; [done|].
       rewrite wrap_u64_succ in En by (by apply occurs_number). lia. }
  apply hoare_pure. intros Hchild. pose proof (child_weight _ _ Ho Hchild) as Hw. rewrite Epar in Hw.
  assert (wrap 256 (weight_of (hd_parent_hash header) + hd_difficulty header) = weight_of (header_hash header)) as Htd.
  { rewrite <-Hw. apply wrap_small. by apply occurs_weight. }
  rewrite Htd. set (s := mkSide _ _ _ _ _).
  assert (side_block_ok s) as Hs by (split; [by split; [|exists parent]|done]).
  eapply hoare_bind with (Q := fun _ c => (safe f fin hs c /\ ch_side c !! header_hash header = Some s) /\ head_is h0 c).
  { apply hoare_modify. intros c [Hc Hh]. split; [|exact Hh]. split; [|cbn; by rewrite lookup_insert_eq].
    apply safe_side; [|done]. apply (side_ok_insert s); [done|]. by destruct Hc as [[] _]. }
  intros u2. eapply hoare_bind; [apply hoare_read; by intros c [[? _] _]|]. intros w.
  eapply hoare_pre with (P' := fun c => ((safe f fin hs c /\ ch_side c !! header_hash header = Some s) /\ head_is h0 c)
                                        /\ w = weight_of (header_hash h0)).
  2: { intros c [[[Hc Es] Hh] [= <-]]. split; [done|]. by apply head_difficulty; [apply Hc|]. }
  apply hoare_pure. intros ->. destruct (wins _ _ _ _) eqn:Ew; cbn [negb].
  - apply wins_heavier in Ew. eapply hoare_bind.
    { eapply hoare_pre; [apply (reorg_to_safe f fin hs (header_hash header) s), Hbar|]. by intros c [? _]. }
    intros depth. apply hoare_ret. intros c (Hc & (h & Hh & Eh) & Hd).
    assert (h = header) as -> by (apply occurs_inj; [by apply (head_spec c h (proj1 Hc))|done|done]). done.
  - apply hoare_ret. intros c [[Hc Es] Hh]. split; [done|]. split; [done|]. split; [by exists s|].
    rewrite <-wins_heavier. by rewrite Ew.
Qed.

Lemma import_mined_safe now f fin hs header transactions root cert h0 :
  barrier f fin hs -> occurs header ->
  hoare (fun c => safe f fin hs c /\ head_is h0 c)
    (import_mined_with_cert cfg now header transactions root cert) (mined_post f fin hs header h0)
    (safe f fin hs).
Proof.
  intros Hbar Ho. unfold import_mined_with_cert.
  eapply hoare_bind; [apply hoare_read; by intros c [? _]|]. intros known. apply hoare_drop.
  case_bool_decide; [by apply hoare_ret|]. destruct (_ <? _); [eapply hoare_post; [apply hoare_lift; by intros c [? _]|by intros a c [_ ?]]|].
  eapply hoare_bind; [apply hoare_read; by intros c [? _]|]. intros [[parent parent_td] canonical].
  eapply hoare_pre with (P' := fun c => (safe f fin hs c /\ head_is h0 c)
    /\ occurs parent /\ header_hash parent = hd_parent_hash header /\ parent_td = weight_of (hd_parent_hash header)).
  2: { intros c [Hc Hk]. split; [done|]. apply result_bind_ok in Hk as (o & El & Hk).
       destruct o as [[[h w] can]|]; [|done]. injection Hk as -> -> ->.
       destruct (locate_spec _ _ _ _ _ (proj1 (proj1 Hc)) El) as (? & ? & ? & _). done. }
  apply hoare_pure. intros (Hop & Epar & ->).
  eapply hoare_bind; [apply hoare_read; by intros c [? _]|]. intros u. apply hoare_drop.
  eapply hoare_bind; [apply hoare_read; by intros c [? _]|]. intros h.
  eapply hoare_pre with (P' := fun c => (safe f fin hs c /\ head_is h0 c) /\ h = h0).
  2: { intros c [[Hc Hh] Eh]. split; [done|]. unfold head_is in Hh. rewrite Hh in Eh. by injection Eh. }
  apply hoare_pure. intros ->. destruct (hd_parent_hash header =? header_hash h0) eqn:Eh; [|by apply import_side_block_safe].
  destruct (hd_difficulty header =? 0); [eapply hoare_post; [apply hoare_lift; by intros c [? _]|by intros a c [_ ?]]|].
  eapply hoare_bind; [apply hoare_drop, import_final_safe, Ho|]. intros x. apply hoare_ret.
  intros c (Hc & Hh & _). split; [done|]. split; [done|lia].
Qed.

(** ** Finality *)

(** A height whose canonical blocks are settled: at or below the finalized one (genesis is), or at or below
    a block of the committee. *)
Definition settled (c : Chain) (f : Z) : Prop :=
  f <= final_height (finalized c) \/ (exists g h, headers (ch_blocks c) !! g = Some h /\ hd_difficulty h = 0 /\ f <= g).

(** What no operation changes: settled blocks, and that they are settled; finality only rises. *)
Record settled_kept (c c' : Chain) : Prop := {
  sk_headers : forall f, settled c f -> headers (ch_blocks c') !! f = headers (ch_blocks c) !! f;
  sk_settled : forall f, settled c f -> settled c' f;
  sk_final : forall f x, finalized c = Some (f, x) -> exists f' x', finalized c' = Some (f', x') /\ f <= f';
}.

Lemma settled_kept_refl c : settled_kept c c.
Proof. split; [done|done|]. intros f x E. by exists f, x. Qed.

Lemma settled_kept_trans c1 c2 c3 : settled_kept c1 c2 -> settled_kept c2 c3 -> settled_kept c1 c3.
Proof.
  intros [A1 A2 A3] [B1 B2 B3]. split.
  - intros f Hf. rewrite B1 by by apply A2. by apply A1.
  - intros f Hf. by apply B2, A2.
  - intros f x E. destruct (A3 f x E) as (f2 & x2 & E2 & L2). destruct (B3 f2 x2 E2) as (f3 & x3 & E3 & L3).
    exists f3, x3. split; [done|lia].
Qed.

Lemma final_height_range c : chain_ok c -> 0 <= final_height (finalized c) <= tip (ch_blocks c).
Proof.
  intros Hc. pose proof (co_tables c Hc) as Ht. destruct (tip_header _ Ht) as (_ & _ & _ & _ & _ & Hr & _).
  unfold final_height, finalized. destruct (meta_finalized (ch_blocks c)) as [[g x]|] eqn:Ef; [|lia].
  pose proof (finalized_below_tip _ _ _ Ht Ef). lia.
Qed.

(** Every settled height is at or below a barrier from which the chain is safe. *)
Lemma settled_barrier c f : chain_ok c -> settled c f ->
  exists g, f <= g /\ barrier g (finalized c) (headers (ch_blocks c)) /\ safe g (finalized c) (headers (ch_blocks c)) c.
Proof.
  intros Hc Hf. pose proof (co_tables c Hc) as Ht. destruct (tip_header _ Ht) as (_ & _ & _ & _ & _ & _ & Hdom).
  pose proof (final_height_range c Hc) as Hr.
  assert (forall g, final_height (finalized c) <= g <= tip (ch_blocks c) -> safe g (finalized c) (headers (ch_blocks c)) c) as Hsafe.
  { intros g Hg. split; [done|]. split; [lia|done| |done]. intros k x Ek. rewrite Ek in Hg. cbn in Hg. lia. }
  destruct Hf as [Hle|(g & h & Eh & Hd & Hle)].
  - exists (final_height (finalized c)). split; [done|]. split; [by left|]. apply Hsafe. lia.
  - assert (0 <= g <= tip (ch_blocks c)) as Hg by (apply Hdom; by eexists).
    destruct (decide (final_height (finalized c) <= g)) as [Hge|Hlt].
    + exists g. split; [done|]. split; [right; split; [done|by exists h]|]. apply Hsafe. lia.
    + exists (final_height (finalized c)). split; [lia|]. split; [by left|]. apply Hsafe. lia.
Qed.

Lemma safe_start c : chain_ok c -> safe (final_height (finalized c)) (finalized c) (headers (ch_blocks c)) c.
Proof.
  intros Hc. pose proof (final_height_range c Hc). split; [done|]. split; [lia|done|apply final_height_below|done].
Qed.

(** An operation that is safe from every barrier keeps what is settled. *)
Lemma safe_kept c c' :
  chain_ok c ->
  (forall f, barrier f (finalized c) (headers (ch_blocks c)) -> safe f (finalized c) (headers (ch_blocks c)) c ->
     safe f (finalized c) (headers (ch_blocks c)) c') ->
  chain_ok c' /\ settled_kept c c'.
Proof.
  intros Hc Hs. pose proof (Hs _ (or_introl eq_refl) (safe_start c Hc)) as [Hc' [_ Hfin _ _]].
  assert (forall f, settled c f -> headers (ch_blocks c') !! f = headers (ch_blocks c) !! f) as Hh.
  { intros f Hf. destruct (settled_barrier c f Hc Hf) as (g & Hle & Hb & Hg).
    destruct (Hs g Hb Hg) as [_ [_ _ _ Hh]]. by apply Hh. }
  split; [done|]. split; [done| |].
  - intros f [Hle|(g & h & Eh & Hd & Hle)].
    + left. unfold finalized in *. by rewrite Hfin.
    + right. exists g, h. split; [|done]. rewrite Hh; [done|]. right. by exists g, h.
  - intros f x E. exists f, x. split; [by rewrite <-E|lia].
Qed.

(** The block is canonical at its height. *)
Definition located f fin hs (header : BlockHeader) (c : Chain) : Prop :=
  safe f fin hs c /\ headers (ch_blocks c) !! hd_number header = Some header.

(** Makes the block to finalize canonical. *)
Lemma finalize_locates f fin hs hash header canonical w :
  barrier f fin hs ->
  hoare (fun c => safe f fin hs c /\ (l <-? locate c hash; ok_or l (EUnknownParent hash)) = Ok (header, w, canonical))
    (if canonical : bool then cret () else cbind (reorg_to cfg hash) (fun _ => cret ()))
    (fun _ c => located f fin hs header c /\ header_hash header = hash) (safe f fin hs).
Proof.
  intros Hbar c [Hc Hk]. apply result_bind_ok in Hk as (o & El & Hk).
  destruct o as [[[h v] can]|]; [|done]. injection Hk as -> -> ->.
  destruct (locate_spec _ _ _ _ _ (proj1 Hc) El) as (Ho & Eh & _ & Hcan). destruct canonical; [done|].
  destruct Hcan as (_ & s & Es & _).
  assert (hoare (fun c => safe f fin hs c /\ ch_side c !! hash = Some s) (cbind (reorg_to cfg hash) (fun _ => cret ()))
            (fun _ c => located f fin hs header c /\ header_hash header = hash) (safe f fin hs)) as Hr.
  { eapply hoare_bind; [by apply reorg_to_safe|]. intros d. apply hoare_ret. intros c2 (Hc2 & (h2 & Hh2 & Eh2) & _).
    assert (h2 = header) as -> by (apply occurs_inj; [by apply (head_spec c2 h2 (proj1 Hc2))|done|congruence]).
    destruct (head_spec _ _ (proj1 Hc2) Hh2) as (Et & _ & Nt). split; [|done]. split; [done|]. by rewrite Nt. }
  by apply Hr.
Qed.

(** The chain with another finalized block: the rest stays. *)
Definition refinalized f (hs : gmap Z BlockHeader) (height : Z) (hash : B256) (c : Chain) : Prop :=
  chain_ok c /\ finalized c = Some (height, hash) /\ block_hash height (ch_blocks c) = Some hash
  /\ forall m, m <= f -> headers (ch_blocks c) !! m = hs !! m.

Lemma finalize_safe f fin hs hash height :
  barrier f fin hs ->
  hoare (safe f fin hs) (finalize cfg hash height)
    (fun b c => if b : bool then refinalized f hs height hash c /\ final_height fin <= height else safe f fin hs c) (safe f fin hs).
Proof.
  intros Hbar c Hc. unfold finalize. destruct (match finalized c with Some _ => _ | None => false end) eqn:Enew; [done|].
  assert (final_height fin < height \/ fin = None) as Hnew.
  { destruct Hc as [_ [_ <- _ _]]. unfold finalized in Enew. destruct (meta_finalized _) as [[n x]|]; [left; cbn; lia|by right]. }
  clear Enew. revert c Hc. set (m := cbind _ _).
  assert (hoare (safe f fin hs) m (fun b c => if b : bool then refinalized f hs height hash c /\ final_height fin <= height
                                              else safe f fin hs c) (safe f fin hs)) as Hm; [|exact Hm].
  unfold m. eapply hoare_bind; [by apply hoare_read|]. intros [[header w] canonical].
  destruct (hd_number header =? height) eqn:En; cbn [negb]; [|intros c1 [Hc1 _]; exact Hc1].
  assert (hd_number header = height) as <- by lia.
  eapply hoare_bind; [by apply finalize_locates|]. intros u. apply hoare_pure. intros Ehash.
  eapply hoare_bind with (Q := fun _ c => refinalized f hs (hd_number header) hash c /\ final_height fin <= hd_number header).
  - apply hoare_modify. intros c [[[Ht Hp Hsd] [Hf1 Hf2 Hf3 Hf4]] Eh].
    assert (block_hash (hd_number header) (ch_blocks c) = Some hash) as Ebh by (unfold block_hash; rewrite Eh; cbn; by rewrite Ehash).
    destruct (ok_header _ Ht _ _ Eh) as [_ Hoc]. pose proof (occurs_number _ Hoc).
    split; [|destruct Hnew as [? | ->]; cbn; lia].
    split; [split; [by apply set_finalized_ok|done|by apply side_ok_prune]|]. by split; [|split].
  - intros u2. by apply hoare_ret.
Qed.
End facts.
