(* ===== verification/ChainHistory.v ===== *)
(** * Snapshots, checkpoints and pruning of a chain

    Models crates/chain/src/history.rs: which blocks are final, snapshots taken at epoch ends, the
    start of a node from a trusted snapshot, the pruning of an epoch's bodies and what of an
    epoch's history is missing.  The walk to the ancestors takes the number of blocks in the
    blockstore as fuel. *)

From S2P Require Import Prelude Types TypesFacts Params Bls AuditCerts Pow Committee History Epochs Forks TxPool Ipld Car Index.
From S2P Require Import TrieIface Store StoreFacts StoreHistory StoreProps Overlay BlockStore Snapshot BlockCerts Exec Queries Hooks.
From S2P Require Import Chain ForkChoice.
From stdpp Require Import base list list_numbers sorting gmap fin_maps strings.
From Stdlib Require Import ZArith Lia.

Open Scope Z_scope.
Open Scope bolt_scope.

Definition KEEP_SNAPSHOTS : nat := 2.
Definition BACKFILL_HEADERS : Z := 256.

Definition corrupt (what : string) : ChainError := EInvalidBlock ("snapshot: " +:+ what).

Section history.
Context `{K : Keccak} `{Sh : Sha256} `{R : HeaderRlp} `{AR : AlloyReceipt} `{AB : !AlloyBlock} `{BR : !BodyRlp}.
Context `{CE : DagCbor Envelope} `{CB : CidBytes} `{SR : StateRlp} `{TO : TrieOps} `{SA : SolAbi}.
Context `{CA : DagCbor (list SnapAccount)} `{CC : DagCbor (list bytes)} `{CR : DagCbor SnapshotRoot}.
Context `{EV : !Revm ChainView}.
Variable cfg : ChainConfig.

Abbreviation rules := (cf_rules cfg).

(** ** Final blocks *)

Definition is_final (c : Chain) (number : Z) : result ChainError bool :=
  ph <-? chain_phase cfg c;
  pos <-? lift_outcome (is_pos ph rules number);
  if pos : bool then Ok true
  else if match finalized c with Some (n, _) => number <=? n | None => false end then Ok true
  else h <-? Chain.head c; Ok (u64 (number + MAX_REORG_DEPTH) <=? hd_number h).

Definition final_height (c : Chain) : result ChainError Z :=
  h <-? Chain.head c;
  let head := hd_number h in
  pos <-? (if 0 <? head then ph <-? chain_phase cfg c; lift_outcome (is_pos ph rules head) else Ok false);
  if pos : bool then Ok head else Ok (match finalized c with Some (n, _) => n | None => 0 end).

(** ** Taking snapshots *)

Definition root_at (b : BlockTables) (c : Cid) : option SnapshotRoot :=
  data ← ipld b !! c;
  match SnapshotRoot_decode data with Ok s => Some s | Err _ => None end.

Definition snapshots (b : BlockTables) : result ChainError (list (Z * Cid)) :=
  roots <-? store_err (snapshot_roots b);
  Ok (omap (fun c => s ← root_at b c; Some (sr_number s, c)) roots).

Definition root_chunks (s : SnapshotRoot) : list Cid := sr_accounts s ++ sr_codes s.

(** Deletes an old snapshot but for the chunks that are still used. *)
Definition drop_snapshot (keep : list Cid) (c : Cid) (b : BlockTables) : BlockTables :=
  let b := match root_at b c with
           | Some s => foldl (fun b chunk => if bool_decide (chunk ∈ keep) then b else del_ipld chunk b) b (root_chunks s)
           | None => b
           end in
  del_ipld c b.

Definition keep_newest (roots : list Cid) (b : BlockTables) : BlockTables :=
  let n := (length roots - KEEP_SNAPSHOTS)%nat in
  let kept := drop n roots in
  let keep := concat (map root_chunks (omap (root_at b) kept)) in
  let b := foldl (fun b c => drop_snapshot keep c b) b (take n roots) in
  set_snapshot_roots kept b.

Definition take_snapshot : CM (option (Z * Cid)) := fun c =>
  let b := ch_blocks c in
  match meta_head b with
  | None => (Ok None, c)
  | Some number =>
      match (epoch <-? lift_outcome (epoch_of rules number);
             if (number =? 0) || negb (epoch_end rules epoch =? number) then Ok None
             else
               existing <-? snapshots b;
               if existsb (fun x => fst x =? number) existing then Ok None
               else
                 header <-? ok_or (headers b !! number) (EExec "block missing");
                 envelope <-? ok_or (envelopes b !! number) (EExec "block missing");
                 Ok (Some (existing, header, envelope))) with
      | Err e => (Err e, c)
      | Ok None => (Ok None, c)
      | Ok (Some (existing, header, envelope)) =>
          let '(blocks, r) := build_snapshot (ch_state c) (cf_chain_id cfg) header envelope (default 0 (total_difficulty number b)) in
          let b := put_all blocks b in
          match r with
          | Err e => (Err (EStore e), with_db b (ch_state c) c)
          | Ok root => (Ok (Some (number, root)), with_db (keep_newest (map snd existing ++ [root]) b) (ch_state c) c)
          end
      end
  end.

(** ** Starting from a checkpoint *)

Definition snapshot_parts (root : SnapshotRoot) : list Cid := sr_envelope root :: sr_accounts root ++ sr_codes root.

Definition backfill_from (number : Z) : result ChainError Z :=
  epoch <-? lift_outcome (epoch_of rules number);
  let epoch_start := u64 (u64 (epoch * epoch_slots rules) + 1) in
  Ok (Z.max (Z.min epoch_start (saturating_sub number BACKFILL_HEADERS)) 1).

(** The ancestors' headers and envelopes, newest first. *)
Fixpoint ancestors_loop (get : Cid -> option bytes) (lower : Z) (parent_env : option Cid) (parent_hash : B256) (fuel : nat)
    : result ChainError (list (BlockHeader * Cid)) :=
  match parent_env with
  | None => Ok []
  | Some pc =>
      match fuel with
      | O => Err EAbort
      | S fuel =>
          data <-? ok_or (get pc) (corrupt "ancestor envelope missing");
          e <-? match Envelope_decode data with Ok e => Ok e | Err _ => Err (corrupt "ancestor envelope") end;
          if (env_height e <? lower) || (env_height e =? 0) then Ok []
          else
            hb <-? ok_or (get (env_header e)) (corrupt "ancestor header missing");
            h <-? ok_or (unrlp_header hb) (corrupt "ancestor header");
            if negb (header_hash h =? parent_hash) then Err (corrupt "ancestor chain broken")
            else l <-? ancestors_loop get lower (env_parent e) (hd_parent_hash h) fuel; Ok ((h, pc) :: l)
      end
  end.

Definition fetch_accounts (get : Cid -> option bytes) (c : Cid) : result ChainError bytes :=
  b <-? ok_or (get c) (corrupt "chunk missing");
  match verify c b with
  | Err _ => Err (corrupt "chunk hash")
  | Ok _ => match decode_accounts b with Err _ => Err (corrupt "chunk") | Ok _ => Ok b end
  end.

Definition fetch_codes (get : Cid -> option bytes) (c : Cid) : result ChainError bytes :=
  b <-? ok_or (get c) (corrupt "code chunk missing");
  match verify c b with Err _ => Err (corrupt "code chunk hash") | Ok _ => Ok b end.

(** The state of the chunks; the root is that of the last one applied. *)
Definition rebuild_state (accounts codes : list bytes) (t : StateTables) : result ChainError (B256 * StateTables) :=
  st <-? store_err (try_fold (fun chunk st => apply_snapshot_accounts chunk st.2) accounts (EMPTY_ROOT_HASH, reset_state t));
  t <-? store_err (try_fold apply_snapshot_codes codes st.2);
  Ok (st.1, t).

(** What a checkpoint import reads and checks before it writes anything. *)
Record Checkpoint := mkCheckpoint {
  cp_snap : SnapshotRoot;
  cp_block : DecodedBlock;
  cp_senders : list Address;
  cp_ancestors : list (BlockHeader * Cid);
  cp_accounts : list bytes;
  cp_codes : list bytes;
}.

Definition read_checkpoint (root : Cid) (trusted : B256) (b : BlockTables) : result ChainError Checkpoint :=
  let get c := ipld b !! c in
  data <-? ok_or (get root) (corrupt "root missing");
  snap <-? match SnapshotRoot_decode data with Ok s => Ok s | Err _ => Err (corrupt "root") end;
  if negb (sr_chain_id snap =? cf_chain_id cfg) || negb (bool_decide (sr_hash snap = b256_bytes trusted)) then
    Err (corrupt "not the trusted block")
  else
    data <-? ok_or (get (sr_envelope snap)) (corrupt "envelope missing");
    env <-? match Envelope_decode data with Ok e => Ok e | Err _ => Err (corrupt "envelope") end;
    blk <-? match decode_block env get with Ok d => Ok d | Err _ => Err (corrupt "block") end;
    let header := db_header blk in
    if negb (header_hash header =? trusted) || negb (hd_number header =? sr_number snap) then
      Err (corrupt "header does not match the trusted hash")
    else
      senders <-? ok_or (recover_signers (db_transactions blk)) (corrupt "bad signature");
      lower <-? backfill_from (hd_number header);
      ancestors <-? ancestors_loop get lower (env_parent (db_envelope blk)) (hd_parent_hash header) (S (size (ipld b)));
      accounts <-? collect (fetch_accounts get) (sr_accounts snap);
      codes <-? collect (fetch_codes get) (sr_codes snap);
      Ok (mkCheckpoint snap blk senders ancestors accounts codes).

Definition import_checkpoint (root : Cid) (trusted : B256) : CM BlockHeader := fun c =>
  let b := ch_blocks c in
  if negb (head_number c =? 0) then (Err (EExec "checkpoint import needs a fresh datadir"), c)
  else
    match (cp <-? read_checkpoint root trusted b;
           r <-? rebuild_state (cp_accounts cp) (cp_codes cp) (ch_state c);
           if negb (r.1 =? hd_state_root (db_header (cp_block cp))) then Err (corrupt "rebuilt state root")
           else Ok (cp, r.2)) with
    | Err e => (Err e, c)
    | Ok (cp, t) =>
        let header := db_header (cp_block cp) in
        let stored := mkStoredBlock header (db_transactions (cp_block cp)) (cp_senders cp) in
        let b := put_checkpoint_block stored (sr_envelope (cp_snap cp)) (be_val (sr_td (cp_snap cp))) b in
        let b := foldl (fun b hc => put_header_only hc.1 hc.2 b) b (cp_ancestors cp) in
        (Ok header, with_db (set_finalized (hd_number header) trusted b) t c)
    end.

(** ** Pruning *)

Definition prune_epoch (epoch : Z) : CM Z := fun c =>
  let first := u64 (u64 (epoch * epoch_slots rules) + 1) in
  let '(b, n) :=
    foldl (fun st h => let '(pruned, b) := prune_block h st.1 in (b, if pruned : bool then st.2 + 1 else st.2))
      (ch_blocks c, 0) (z_range first (epoch_end rules epoch + 1)) in
  (Ok n, with_db b (ch_state c) c).

Definition missing_of_block (b : BlockTables) (h : Z) : list Cid :=
  match envelopes b !! h with
  | None => []
  | Some root =>
      match ipld b !! root with
      | Some data =>
          match Envelope_decode data with
          | Ok env => filter (fun c => ipld b !! c = None) (env_chunks env)
          | Err _ => [root]
          end
      | None => [root]
      end
  end.

Definition missing_epoch_data (c : Chain) (epoch : Z) : list Cid :=
  let first := u64 (u64 (epoch * epoch_slots rules) + 1) in
  concat (map (missing_of_block (ch_blocks c)) (z_range first (epoch_end rules epoch + 1))).
End history.
