(* ===== verification/ChainProps.v ===== *)
(** * Properties of the chain

    Over every sequence of operations from a chain in order: what is settled stays, the canonical
    chain is linked and its total difficulty right; what importing a mined block does; the gas
    limit's steps. *)

From S2P Require Import Prelude Types TypesFacts Params Bls AuditCerts Pow Committee History Epochs Forks TxPool Ipld Car Index.
From S2P Require Import TrieIface Store StoreFacts StoreHistory StoreProps Overlay BlockStore Snapshot ChainTables BlockCerts Exec Queries Hooks HooksFacts.
From S2P Require Import Chain ChainFacts ForkChoice ChainHistory ForkChoiceFacts IpldFacts CarFacts IndexFacts.
From stdpp Require Import base list list_numbers sorting gmap fin_maps strings.
From Stdlib Require Import ZArith Lia.

Open Scope Z_scope.
Open Scope bolt_scope.

Section props.
Context `{K : Keccak} `{Sh : Sha256} `{R : HeaderRlp} `{AR : AlloyReceipt} `{AB : !AlloyBlock} `{BR : !BodyRlp}.
Context `{CE : DagCbor Envelope} `{CL : DagCbor (list Cid)} `{CI : DagCbor EpochIndex} `{CB : CidBytes}.
Context `{SR : StateRlp} `{TO : TrieOps} `{SA : SolAbi} `{FC : ForkCode} `{HS : Hasher}.
Context `{B : Blst} `{CC : !CertCodec} `{DA : DagCbor AuditCert} `{DV : DagCbor VerdictCert} `{DT : DagCbor AttestCert}.
Context `{SC : DagCbor (list SnapAccount)} `{KC : DagCbor (list bytes)} `{RC : DagCbor SnapshotRoot}.
Context `{EV : !Revm ChainView} {Un : Universe}.
Variable cfg : ChainConfig.

(** ** Operations *)

Inductive ChainOp :=
  | OpBuild (parent : B256) (candidates : list (TxEnvelope * Address)) (timestamp : Z) (beneficiary : Address)
      (extra_data : bytes) (certs : Certs)
  | OpBuildBlock (candidates : list (TxEnvelope * Address)) (timestamp : Z) (beneficiary : Address)
  | OpTemplate (candidates : list (TxEnvelope * Address)) (timestamp : Z) (beneficiary : Address) (extra_data : bytes)
      (cert : Certs)
  | OpVerify (header : BlockHeader) (transactions : list TxEnvelope) (certs : Certs)
  | OpCommit (hash : B256)
  | OpImport (header : BlockHeader) (transactions : list TxEnvelope) (root : option Cid) (certs : Certs)
  | OpImportMined (now : Z) (header : BlockHeader) (transactions : list TxEnvelope) (root : option Cid) (cert : Certs)
  | OpFinalize (hash : B256) (height : Z)
  | OpSeal (now : Z) (template : BuiltBlock) (nonce : Z)
  | OpRestore (wanted : list B256)
  | OpDrop (hash : B256)
  | OpGasTarget (gas : Z)
  | OpAuditCert (cert : bytes)
  | OpSnapshot
  | OpPrune (epoch : Z).

Definition run_op (op : ChainOp) (c : Chain) : Chain :=
  match op with
  | OpBuild parent txs ts who extra certs => snd (build_on cfg parent txs ts who extra certs c)
  | OpBuildBlock txs ts who => snd (build_block cfg txs ts who c)
  | OpTemplate txs ts who extra cert => snd (build_template cfg txs ts who extra cert c)
  | OpVerify header txs certs => snd (verify_block cfg header txs certs c)
  | OpCommit hash => snd (commit_pending hash c)
  | OpImport header txs root certs => snd (Chain.import_final cfg header txs root certs c)
  | OpImportMined now header txs root cert => snd (import_mined_with_cert cfg now header txs root cert c)
  | OpFinalize hash height => snd (finalize cfg hash height c)
  | OpSeal now template nonce => snd (seal_and_import cfg now template nonce c)
  | OpRestore wanted => snd (restore_pending cfg wanted c)
  | OpDrop hash => drop_pending hash c
  | OpGasTarget gas => set_gas_target gas c
  | OpAuditCert cert => add_audit_cert cert c
  | OpSnapshot => snd (take_snapshot cfg c)
  | OpPrune epoch => snd (prune_epoch cfg epoch c)
  end.

(** What [build_on] builds occurs. *)
Definition built_occurs (r : result ChainError BuiltBlock) : Prop := forall b, r = Ok b -> occurs (bb_header b).

(** The headers an operation brings in occur. *)
Definition op_occurs (op : ChainOp) (c : Chain) : Prop :=
  match op with
  | OpBuild parent txs ts who extra certs => built_occurs (fst (build_on cfg parent txs ts who extra certs c))
  | OpBuildBlock txs ts who =>
      forall h, Chain.head c = Ok h -> built_occurs (fst (build_on cfg (header_hash h) txs ts who [] Certs_default c))
  | OpTemplate txs ts who extra cert => built_occurs (fst (build_template cfg txs ts who extra cert c))
  | OpVerify header _ _ | OpImport header _ _ _ | OpImportMined _ header _ _ _ => occurs header
  | OpSeal _ template nonce => occurs (with_nonce (bb_header template) nonce)
  | OpRestore wanted => forall h d x, restorable c h !! x = Some d -> occurs (db_header d)
  | _ => True
  end.

Lemma build_on_safe f fin hs parent txs ts who extra certs c :
  safe f fin hs c ->
  match build_on cfg parent txs ts who extra certs c with
  | (Ok b, c') => (occurs (bb_header b) -> safe f fin hs c') /\ safe f fin hs (with_pending (delete (bb_hash b) (ch_pending c')) c')
  | (Err _, c') => safe f fin hs c'
  end.
Proof.
  intros Hc. unfold build_on. set (pf := fun ph kind => _).
  set (cs := if bool_decide (ct_audits certs = []) then _ else certs).
  pose proof (execute_on_safe cfg f fin hs parent pf txs None cs ltac:(by intros ph kind) c Hc) as He.
  unfold cbind. destruct (execute_on cfg parent pf txs None cs c) as [[[[p inc] rej]|e] c']; [|done].
  destruct He as (_ & Eh & _ & H1 & H2). by split.
Qed.

Lemma any_snd {A} f fin hs (m : CM A) (Q : A -> Chain -> Prop) c :
  hoare (safe f fin hs) m Q (safe f fin hs) -> (forall a c, Q a c -> safe f fin hs c) -> safe f fin hs c -> safe f fin hs (snd (m c)).
Proof. intros Hm HQ Hc. specialize (Hm c Hc). destruct (m c) as [[a|e] c']; [by eapply HQ|done]. Qed.

(** Snapshots and pruning leave what the invariant reads. *)
Lemma core_del_ipld cid b : core (del_ipld cid b) = core b.
Proof. done. Qed.

Lemma core_keep_newest roots b : core (keep_newest roots b) = core b.
Proof.
  unfold keep_newest. set (l := foldl _ b _). change (core l = core b). unfold l. apply core_foldl. intros b1 c1. unfold drop_snapshot.
  rewrite core_del_ipld. destruct (root_at b1 c1); [|done]. apply core_foldl. intros b2 c2. by case_bool_decide.
Qed.

Lemma take_snapshot_core c :
  core (ch_blocks (snd (take_snapshot cfg c))) = core (ch_blocks c)
  /\ ch_pending (snd (take_snapshot cfg c)) = ch_pending c /\ ch_side (snd (take_snapshot cfg c)) = ch_side c.
Proof.
  unfold take_snapshot. destruct (meta_head (ch_blocks c)) as [n|]; [|done].
  destruct (result_bind _ _) as [[[[existing header] envelope]|]|]; [|done|done].
  destruct (Snapshot.build_snapshot _ _ _ _ _) as [blocks [root|e]]; (split; [|done]); cbn [snd with_db ch_blocks].
  - rewrite core_keep_newest. apply put_all_core.
  - apply put_all_core.
Qed.

Lemma core_prune_block n b : core (snd (prune_block n b)) = core b.
Proof.
  unfold prune_block. destruct (BlockStore.block n b); [|done]. destruct (has_body n b); [|done]. cbn [negb]. set (b1 := set_receipts _ _).
  change (core b) with (core b1). clearbody b1. cbn [snd]. destruct (_ ≫= _) as [data|]; [|done].
  destruct (Envelope_decode data); [|done]. by apply core_foldl.
Qed.

Lemma prune_epoch_core epoch c :
  core (ch_blocks (snd (prune_epoch cfg epoch c))) = core (ch_blocks c)
  /\ ch_pending (snd (prune_epoch cfg epoch c)) = ch_pending c /\ ch_side (snd (prune_epoch cfg epoch c)) = ch_side c.
Proof.
  unfold prune_epoch. generalize (z_range (u64 (u64 (epoch * epoch_slots (cf_rules cfg)) + 1)) (epoch_end (cf_rules cfg) epoch + 1)). intros l.
  match goal with |- context [foldl ?f ?st l] => assert (core (foldl f st l).1 = core st.1) as Hc end.
  { generalize (ch_blocks c, 0). induction l as [|h l IH]; intros st; [done|]. cbn [foldl]. rewrite IH.
    pose proof (core_prune_block h st.1) as E. by destruct (prune_block h st.1). }
  destruct (foldl _ _ l) as [b n]. exact (conj Hc (conj eq_refl eq_refl)).
Qed.

(** An operation that does not finalize keeps the chain safe up to any barrier. *)
Lemma op_safe op f fin hs c :
  (match op with OpFinalize _ _ => False | _ => True end) ->
  barrier f fin hs -> safe f fin hs c -> op_occurs op c -> safe f fin hs (run_op op c).
Proof.
  intros Hnf Hb Hc Ho. destruct op; cbn [run_op op_occurs] in *.
  - pose proof (build_on_safe f fin hs parent candidates timestamp beneficiary extra_data certs c Hc) as Hbuild.
    destruct (build_on _ _ _ _ _ _ _ c) as [[b|e] c']; [|done]. apply Hbuild. by apply Ho.
  - unfold build_block, cbind, cread. destruct (Chain.head c) as [h|]; [|done]. specialize (Ho h eq_refl).
    pose proof (build_on_safe f fin hs (header_hash h) candidates timestamp beneficiary [] Certs_default c Hc) as Hbuild.
    destruct (build_on _ _ _ _ _ _ _ c) as [[b|e] c']; [|done]. destruct Hbuild as [Hbuild _].
    specialize (Hbuild (Ho b eq_refl)). pose proof (commit_pending_safe f fin hs (bb_hash b) c' Hbuild) as Hcm.
    destruct (commit_pending (bb_hash b) c') as [[h'|e] c'']; [by destruct Hcm|done].
  - unfold build_template, cbind, cread in *. destruct (Chain.head c) as [h|]; [|done].
    pose proof (build_on_safe f fin hs (header_hash h) candidates timestamp beneficiary extra_data cert c Hc) as Hbuild.
    destruct (build_on _ _ _ _ _ _ _ c) as [[b|e] c']; [|done]. destruct (hd_difficulty (bb_header b) =? 0); [by destruct Hbuild|].
    apply Hbuild. by apply Ho.
  - eapply any_snd; [by apply verify_block_safe|by intros a c' [? _]|done].
  - eapply any_snd; [by apply commit_pending_safe|by intros a c' [? _]|done].
  - eapply any_snd; [by apply import_final_safe|by intros a c' [? _]|done].
  - destruct (tip_header _ (co_tables c (proj1 Hc))) as (h0 & Eh0 & _).
    pose proof (import_mined_safe cfg now f fin hs header transactions root cert h0 Hb Ho c) as Hm.
    destruct (import_mined_with_cert _ _ _ _ _ _ c) as [[o|e] c'];
      (ospecialize (Hm _); [split; [done|by apply tip_head; [apply Hc|]]|]); [by destruct Hm|done].
  - done.
  - unfold seal_and_import. assert (safe f fin hs (drop_pending (bb_hash template) c)) as Hd.
    { apply safe_pending; [|done]. apply pend_ok_delete, (proj1 Hc). }
    destruct (pending c (bb_hash template)) as [p|]; [|exact Hd]. unfold cbind.
    set (txs := ex_transactions _). set (cert := Certs_of _). set (c1 := drop_pending _ c) in *.
    destruct (tip_header _ (co_tables c1 (proj1 Hd))) as (h0 & Eh0 & _).
    pose proof (import_mined_safe cfg now f fin hs _ txs None cert h0 Hb Ho c1) as Hm.
    destruct (import_mined_with_cert _ _ _ _ _ _ c1) as [[o|e] c'];
      (ospecialize (Hm _); [split; [done|by apply tip_head; [apply Hd|]]|]); [by destruct Hm|done].
  - unfold restore_pending, cbind, cread. destruct (Chain.head c) as [h|]; [|done].
    eapply any_snd; [apply restore_each_safe| |done]; [|by intros a c'].
    apply Forall_forall. intros [x d] Hx. rewrite merge_sort_Permutation, list_elem_of_omap in Hx.
    destruct Hx as (y & _ & Hy). destruct (restorable c h !! y) as [d'|] eqn:Ed; [|done]. injection Hy as -> ->. by eapply Ho.
  - apply safe_pending; [|done]. apply pend_ok_delete, (proj1 Hc).
  - apply (safe_core f fin hs c); [done|apply (proj1 Hc)|apply (proj1 Hc)|done].
  - apply (safe_core f fin hs c); [done|apply (proj1 Hc)|apply (proj1 Hc)|done].
  - destruct (take_snapshot_core c) as (E & Ep & Es). apply (safe_core f fin hs c); rewrite ?Ep, ?Es; [done|apply (proj1 Hc)|apply (proj1 Hc)|done].
  - destruct (prune_epoch_core epoch c) as (E & Ep & Es). apply (safe_core f fin hs c); rewrite ?Ep, ?Es; [done|apply (proj1 Hc)|apply (proj1 Hc)|done].
Qed.

(** Every operation keeps the invariant and what is settled. *)
Lemma op_kept op c : chain_ok c -> op_occurs op c -> chain_ok (run_op op c) /\ settled_kept c (run_op op c).
Proof.
  intros Hc Ho. destruct (match op with OpFinalize _ _ => true | _ => false end) eqn:Ef.
  2: { apply safe_kept; [done|]. intros f Hb Hs. apply op_safe; try done. by destruct op. }
  destruct op as [| | | | | | |hash height| | | | | | |]; try done. clear Ef Ho. cbn [run_op].
  set (c' := snd _). assert (forall f, barrier f (finalized c) (headers (ch_blocks c)) ->
    safe f (finalized c) (headers (ch_blocks c)) c ->
    safe f (finalized c) (headers (ch_blocks c)) c'
    \/ refinalized f (headers (ch_blocks c)) height hash c' /\ final_height (finalized c) <= height) as Hcase.
  { intros f Hb Hs. pose proof (finalize_safe cfg f _ _ hash height Hb c Hs) as Hf. unfold c'.
    destruct (finalize cfg hash height c) as [[[|]|e] c1]; auto. }
  destruct (Hcase _ (or_introl eq_refl) (safe_start c Hc)) as [Hs0|[(Hc' & Efin & _ & _) Hle]].
  { apply safe_kept; [done|]. intros f Hb Hs. destruct (Hcase f Hb Hs) as [|[(Hc1 & Efin & _ & Hh) Hle]]; [done|].
    split; [done|]. destruct Hs as [_ [H1 H2 H3 H4]]. destruct Hs0 as [_ [_ H2' _ _]].
    split; [|exact H2'|exact H3|exact Hh].
    destruct Hb as [->|(_ & h & Eh & _)]; [by apply final_height_range in Hc1; rewrite Efin in Hc1; cbn in Hc1; lia|].
    rewrite <-Hh in Eh by lia. destruct (tip_header _ (co_tables c' Hc1)) as (_ & _ & _ & _ & _ & _ & Hdom).
    apply Hdom. by eexists. }
  split; [done|].
  assert (forall f, settled c f -> headers (ch_blocks c') !! f = headers (ch_blocks c) !! f) as Hh.
  { intros f Hf. destruct (settled_barrier c f Hc Hf) as (g & Hfg & Hb & Hg).
    destruct (Hcase g Hb Hg) as [[_ [_ _ _ Hh]]|[(_ & _ & _ & Hh) _]]; by apply Hh. }
  split; [done| |].
  - intros f [Hfg|(g & h & Eh & Hd & Hfg)].
    + left. rewrite Efin. cbn. lia.
    + right. exists g, h. split; [|done]. rewrite Hh; [done|]. right. by exists g, h.
  - intros f x E. exists height, hash. split; [done|]. rewrite E in Hle. exact Hle.
Qed.

Inductive reaches : Chain -> Chain -> Prop :=
  | reaches_refl c : reaches c c
  | reaches_step c op c' : op_occurs op c -> reaches (run_op op c) c' -> reaches c c'.

Lemma reaches_kept c c' : reaches c c' -> chain_ok c -> chain_ok c' /\ settled_kept c c'.
Proof.
  induction 1 as [c|c op c' Ho _ IH]; intros Hc; [split; [done|apply settled_kept_refl]|].
  destruct (op_kept op c Hc Ho) as [Hc1 Hk1]. destruct (IH Hc1) as [Hc2 Hk2]. split; [done|].
  by eapply settled_kept_trans.
Qed.

(** C3.  Finality: whatever operations a node runs (building, verifying, committing and importing blocks,
    reorganisations that succeed or fail halfway, finalizing a checkpoint on another branch,
    restoring after a restart, taking snapshots and pruning epochs), a canonical block at or below the finalized one, or at or below one
    produced by the PoS committee, stays canonical, and the finalized height never falls. *)
Theorem settled_blocks_stay (c c' : Chain) (f : Z) (h : BlockHeader)
    (Hok : chain_ok c) (Hrun : reaches c c') (Hsettled : settled c f) (Hblock : headers (ch_blocks c) !! f = Some h) :
  headers (ch_blocks c') !! f = Some h /\ block_hash f (ch_blocks c') = Some (header_hash h)
  /\ hash_num (ch_blocks c') !! header_hash h = Some f /\ settled c' f
  /\ (forall g x, finalized c = Some (g, x) ->
        exists g' x', finalized c' = Some (g', x') /\ g <= g' /\ block_hash g' (ch_blocks c') = Some x').
Proof.
  destruct (reaches_kept c c' Hrun Hok) as [Hc' [K1 K2 K3]]. pose proof (co_tables c' Hc') as Ht'.
  assert (headers (ch_blocks c') !! f = Some h) as Eh by by rewrite K1.
  split_and!; [done|unfold block_hash; by rewrite Eh|by apply (ok_hash _ Ht'); exists h|by apply K2|].
  intros g x Eg. destruct (K3 g x Eg) as (g' & x' & Eg' & Hle). exists g', x'. split_and!; [done|done|].
  by apply (ok_final _ Ht').
Qed.

(** C4.  Importing a mined block: a block that extends the head becomes the head; one on a side branch
    stays aside unless its branch has more total difficulty, or as much and the lower hash, and then
    the branch replaces at most 128 blocks and the block is the head; in every case what is
    settled stays. *)
Theorem import_mined_outcome (now : Z) (header h0 : BlockHeader) (transactions : list TxEnvelope) (root : option Cid)
    (cert : Certs) (c c' : Chain) (o : MinedOutcome)
    (Hok : chain_ok c) (Hhead : Chain.head c = Ok h0) (Hoccurs : occurs header)
    (Hrun : import_mined_with_cert cfg now header transactions root cert c = (Ok o, c')) :
  chain_ok c' /\ settled_kept c c'
  /\ match o with
     | Known => Chain.head c' = Ok h0
     | Extended => Chain.head c' = Ok header /\ hd_parent_hash header = header_hash h0
     | Side => Chain.head c' = Ok h0 /\ is_Some (ch_side c' !! header_hash header) /\ ~ heavier header h0
     | Reorged depth => Chain.head c' = Ok header /\ 0 <= depth <= MAX_REORG_DEPTH /\ heavier header h0
     end.
Proof.
  destruct (op_kept (OpImportMined now header transactions root cert) c Hok Hoccurs) as [Hc' Hk].
  cbn [run_op] in *. rewrite Hrun in *. split; [done|]. split; [done|].
  pose proof (import_mined_safe cfg now _ _ _ header transactions root cert h0 (or_introl eq_refl) Hoccurs c
    (conj (safe_start c Hok) Hhead)) as Hm. rewrite Hrun in Hm. destruct Hm as [_ Hm].
  destruct o; unfold head_is in Hm; try done. destruct Hm as (? & (s & Es & _) & ?). split_and!; [done|by exists s|done].
Qed.

(** ** From genesis *)

(** The tables of a fresh database hold the genesis block. *)
Lemma open_fresh t genesis alloc b t' :
  open_tables Blocks_empty t genesis alloc = Ok (b, t') ->
  exists root l, b = put_block (mkStoredBlock genesis [] []) [] (put_ipld_bundle 0 root l Blocks_empty).
Proof.
  unfold open_tables. change (meta_head Blocks_empty) with (@None Z). cbv iota.
  generalize (bundle genesis [] None []). intros bdl Hk. apply result_bind_ok in Hk as ([root t1] & _ & Hk).
  destruct (negb _); [done|]. exists (bd_root bdl), (bd_blocks bdl). congruence.
Qed.

Lemma chain_open_tables t genesis alloc c :
  chain_open Blocks_empty t genesis alloc = Ok c ->
  (exists root l, ch_blocks c = put_block (mkStoredBlock genesis [] []) [] (put_ipld_bundle 0 root l Blocks_empty))
  /\ ch_pending c = ∅ /\ ch_side c = ∅.
Proof.
  unfold chain_open. intros ([b t'] & Eb & [= <-])%result_bind_ok. split; [|done]. by eapply open_fresh.
Qed.

Lemma chain_open_ok t genesis alloc c :
  genesis_ok genesis -> chain_open Blocks_empty t genesis alloc = Ok c -> chain_ok c.
Proof.
  intros Hg ((root & l & Eb) & Ep & Es)%chain_open_tables. split.
  - rewrite Eb. by eapply genesis_tables_ok.
  - rewrite Ep. apply pend_ok_empty.
  - rewrite Es. intros x s Hx. by rewrite lookup_empty in Hx.
Qed.

Lemma genesis_header t genesis alloc c :
  genesis_ok genesis -> chain_open Blocks_empty t genesis alloc = Ok c -> headers (ch_blocks c) !! 0 = Some genesis.
Proof.
  intros (_ & Hn & _) ((root & l & Eb) & _)%chain_open_tables. rewrite Eb.
  pose proof (core_put_block (mkStoredBlock genesis [] []) [] (put_ipld_bundle 0 root l Blocks_empty)) as E.
  cbv zeta in E. cbn [sb_header] in E. rewrite Hn in E. generalize dependent (put_block (mkStoredBlock genesis [] []) []
    (put_ipld_bundle 0 root l Blocks_empty)). intros b _ E. unfold core in E. injection E as -> _. by rewrite lookup_insert_eq.
Qed.

(** C5.  The canonical chain, from a fresh database on: after any operations, the canonical blocks are
    consecutive from genesis to the head, each linked by hash to the one below and found by its
    hash, and the total difficulty recorded at a height is the sum of the difficulties up to it. *)
Theorem canonical_chain_linked (t : StateTables) (genesis : BlockHeader) (alloc : gmap Address InitAccount) (c0 c : Chain)
    (Hg : genesis_ok genesis) (Hopen : chain_open Blocks_empty t genesis alloc = Ok c0) (Hrun : reaches c0 c) :
  exists n, meta_head (ch_blocks c) = Some n /\ 0 <= n
    /\ headers (ch_blocks c) !! 0 = Some genesis
    /\ (forall m, is_Some (headers (ch_blocks c) !! m) <-> 0 <= m <= n)
    /\ forall m h, headers (ch_blocks c) !! m = Some h ->
         hd_number h = m /\ hash_num (ch_blocks c) !! header_hash h = Some m
         /\ (0 < m -> exists q, headers (ch_blocks c) !! (m - 1) = Some q /\ hd_parent_hash h = header_hash q)
         /\ total_difficulty m (ch_blocks c) = Some (difficulty_sum (ch_blocks c) (Z.to_nat m)).
Proof.
  pose proof (chain_open_ok _ _ _ _ Hg Hopen) as Hc0. destruct (reaches_kept _ _ Hrun Hc0) as [Hc [K1 _ _]].
  pose proof (co_tables c Hc) as Ht. destruct (tip_header _ Ht) as (_ & _ & _ & _ & Em & Hr & Hdom).
  assert (headers (ch_blocks c) !! 0 = Some genesis) as Eg.
  { rewrite K1; [by eapply genesis_header|]. left. by apply final_height_range. }
  exists (tip (ch_blocks c)). split_and!; [done|lia|done|done|]. intros m h Eh.
  assert (0 <= m <= tip (ch_blocks c)) as Hm by (apply Hdom; by eexists).
  split_and!; [by apply (ok_header _ Ht _ _ Eh)|by apply (ok_hash _ Ht); exists h| |].
  - intros Hpos. destruct (canonical_linked _ _ _ Ht Eh Hpos) as (q & Eq & _ & E & _). by exists q.
  - unfold total_difficulty. rewrite (ok_td _ Ht _ _ Eh). f_equal.
    apply (weight_sum _ genesis Ht Eg); [apply Hg|]. by rewrite Z2Nat.id by lia.
Qed.
End props.

(** ** Gas limits *)

(** The gas limit moves as the rules allow and reaches its target: from a parent within the protocol's
    range, the next limit is valid for it, lies between the parent's and the target (clamped to the
    range), keeps the parent's when the target is 0, and is either at the target or closer to it by
    1/1024 of the parent's less one. *)
Theorem gas_limit_steps (parent target : Z)
    (Hparent : fst GAS_LIMIT_RANGE <= parent <= snd GAS_LIMIT_RANGE) (Htarget : 0 <= target) :
  let goal := clamp (if target =? 0 then parent else target) (fst GAS_LIMIT_RANGE) (snd GAS_LIMIT_RANGE) in
  let next := next_gas_limit parent target in
  valid_gas_limit parent next = true
  /\ Z.min parent goal <= next <= Z.max parent goal
  /\ (target = 0 -> next = parent)
  /\ (next = goal \/ Z.abs (goal - next) = Z.abs (goal - parent) - (parent / 1024 - 1)).
Proof.
  unfold GAS_LIMIT_RANGE in *. cbn [fst snd] in *. cbv zeta. unfold next_gas_limit, valid_gas_limit, clamp, saturating_sub, GAS_LIMIT_RANGE.
  cbn [fst snd].
  assert (14648 <= parent / 1024 <= 58593) as Hs by (Z.div_mod_to_equations; lia).
  set (goal := Z.max 15000000 (Z.min (if target =? 0 then parent else target) 60000000)).
  assert (15000000 <= goal <= 60000000) as Hg by lia.
  assert (target = 0 -> goal = parent) as H0 by (intros ->; unfold goal; cbn; lia). clearbody goal.
  destruct (parent <? goal) eqn:E.
  - rewrite (wrap_small 64) by (unfold in_range; lia). split; [|lia]. rewrite !andb_true_iff. lia.
  - split; [|lia]. rewrite !andb_true_iff. lia.
Qed.

(** ** A concrete chain *)

Module ChainWitness.
Import ExecToy.

(** A polynomial hash, and the toy codecs of the other witnesses. *)
#[export] Instance poly_keccak : Keccak := fun b => foldl (fun acc x => (acc * 31 + x + 1) mod 1000003) 17 b.
#[export] Instance w_rlp : HeaderRlp := IpldWitness.toy_rlp.
#[export] Instance w_sha : Sha256 := IpldWitness.toy_sha.
#[export] Instance w_envelope : DagCbor Envelope := IpldWitness.toy_cbor.
#[export] Instance w_cids : DagCbor (list Cid) := IndexWitness.toy_group_cbor.
#[export] Instance w_cid_bytes : CidBytes := CarWitness.toy_cid_bytes.
#[export] Instance w_epoch : DagCbor EpochIndex := {| to_vec _ := [6]; from_slice _ := None |}.
#[export] Instance w_accounts : DagCbor (list SnapAccount) := {| to_vec _ := [7]; from_slice _ := None |}.
#[export] Instance w_codes : DagCbor (list bytes) := {| to_vec _ := [8]; from_slice _ := None |}.
#[export] Instance w_root : DagCbor SnapshotRoot := {| to_vec _ := [9]; from_slice _ := None |}.
#[export] Instance w_abi : SolAbi := HooksWitness.toy_abi.
#[export] Instance w_code : ForkCode := fun _ => [].
#[export] Instance w_blst : Blst := CertsWitness.toy48.
#[export] Instance w_audit : DagCbor AuditCert := CertsWitness.audit_cbor.
#[export] Instance w_verdict : DagCbor VerdictCert := CertsWitness.verdict_cbor.
#[export] Instance w_attest : DagCbor AttestCert := CertsWitness.attest_cbor.
#[export] Instance w_cert : CertCodec := fun _ _ => None.
#[export] Instance w_hasher : Hasher := {| PowError := (); hasher_batch _ l := Ok (map (fun _ => 0) l) |}.
#[export] Instance w_state_rlp : StateRlp := {| rlp_u256 v := [v]; rlp_trie_account _ := [1] |}.
#[export] Instance w_body : BodyRlp := {|
  rlp_list l := [Z.of_nat (length l)];
  unrlp_list _ := None;
  tx_encoded_2718 (t : @TxEnvelope gas_txs) := [(t : Z)];
|}.

(** A state with nothing in it, under root 77. *)
#[export] Instance w_trie : TrieOps := {|
  Session := ();
  trie_new _ := ();
  trie_insert _ _ s := Ok s;
  trie_remove_key _ s := Ok s;
  trie_commit _ := Ok (77, ∅);
|}.

#[export] Instance w_evm : Revm ChainView := {|
  EvmState := ();
  evm_open _ := ();
  system_call_commit _ _ _ s := Ok (mkExecResult true 0 [] [], s);
  transact_commit _ _ s := Ok (mkExecResult true 0 [] [], s);
  evm_transact _ _ _ _ := Ok (mkExecResult true 0 [] []);
  increment_balances _ _ s := Ok s;
  evm_basic _ _ := Ok None;
  evm_storage _ _ _ := Ok 0;
  evm_commit _ _ _ _ s := s;
  evm_bundle _ := (mkChangeset [] [] [], mkReverts [] []);
|}.

Definition w_rules : EpochRules := mkEpochRules 4 8 1 1 1 2 1 1 3 0.
Definition w_cfg : ChainConfig := mkConfig 1 10 w_rules (mkAsert 12 3600 1 1) KeccakAlgorithm 0.
Definition genesis : BlockHeader := mkBlockHeader 0 0 10 5 30000000 0 77 9 12 14 [] 13 0 [] (Some 17) None [].

Definition empty_chain : Chain := mkChain Blocks_empty StateTables_empty ∅ ∅ 0 [].
Definition c0 : Chain := match chain_open Blocks_empty StateTables_empty genesis ∅ with Ok c => c | Err _ => empty_chain end.

(** The block a miner [who] makes on genesis. *)
Definition mined_by (who : Address) : BlockHeader :=
  match build_template w_cfg [] 100 who [] Certs_default c0 with (Ok b, _) => bb_header b | _ => genesis end.

(** Of two miners' blocks, the one with the higher hash and the one with the lower. *)
Definition hi : BlockHeader := Eval vm_compute in if header_hash (mined_by 3) <? header_hash (mined_by 4) then mined_by 4 else mined_by 3.
Definition lo : BlockHeader := Eval vm_compute in if header_hash (mined_by 3) <? header_hash (mined_by 4) then mined_by 3 else mined_by 4.

Definition all_headers : list BlockHeader := [genesis; hi; lo].

#[export] Program Instance w_universe : Universe := {|
  occurs h := h ∈ all_headers;
  weight_of x := if x =? header_hash genesis then 5 else 6;
|}.
Next Obligation.
  assert (Forall (fun a => Forall (fun b => header_hash a = header_hash b -> a = b) all_headers) all_headers) as Hall.
  { refine (bool_decide_unpack _ (_ : bool_decide _)). vm_compute. exact I. }
  intros h1 h2 H1 H2 E. rewrite Forall_forall in Hall. specialize (Hall _ H1). rewrite Forall_forall in Hall. by apply Hall.
Qed.
Next Obligation.
  assert (Forall (fun a => 0 <= hd_number a < U64_MAX) all_headers) as Hall.
  { refine (bool_decide_unpack _ (_ : bool_decide _)). vm_compute. exact I. }
  intros h Hh. rewrite Forall_forall in Hall. by apply Hall.
Qed.
Next Obligation. intros h _. cbv beta. destruct (_ =? _); lia. Qed.
Next Obligation.
  assert (Forall (fun h => Forall (fun q => header_hash q = hd_parent_hash h -> hd_number h = hd_number q + 1 ->
    (if header_hash h =? header_hash genesis then 5 else 6) = (if header_hash q =? header_hash genesis then 5 else 6) + hd_difficulty h)
    all_headers) all_headers) as Hall.
  { refine (bool_decide_unpack _ (_ : bool_decide _)). vm_compute. exact I. }
  intros h q Hh Hq. rewrite Forall_forall in Hall. specialize (Hall _ Hh). rewrite Forall_forall in Hall. by apply Hall.
Qed.

Lemma genesis_is_ok : genesis_ok genesis.
Proof. split; [by left|]. split; vm_compute; reflexivity. Qed.

Lemma opened : chain_open Blocks_empty StateTables_empty genesis ∅ = Ok c0.
Proof. vm_compute. reflexivity. Qed.

Lemma c0_ok : chain_ok c0.
Proof. exact (chain_open_ok _ _ _ _ genesis_is_ok opened). Qed.

Lemma hi_occurs : occurs hi.
Proof. right. by left. Qed.

Lemma lo_occurs : occurs lo.
Proof. right. right. by left. Qed.

Definition op_hi : ChainOp := OpImportMined 200 hi [] None Certs_default.
Definition op_lo : ChainOp := OpImportMined 200 lo [] None Certs_default.
Definition op_final : ChainOp := OpFinalize (header_hash lo) 1.

(** The block with the higher hash arrives first and is replaced by the other, which is finalized. *)
Definition c1 : Chain := run_op w_cfg op_hi c0.
Definition c2 : Chain := run_op w_cfg op_lo c1.
Definition c3 : Chain := run_op w_cfg op_final c2.

Lemma reaches_c3 : reaches w_cfg c0 c3.
Proof.
  refine (reaches_step _ c0 op_hi _ hi_occurs _). refine (reaches_step _ c1 op_lo _ lo_occurs _).
  refine (reaches_step _ c2 op_final _ I _). apply reaches_refl.
Qed.

Lemma c1_ok : chain_ok c1.
Proof. exact (proj1 (op_kept w_cfg op_hi c0 c0_ok hi_occurs)). Qed.

Lemma c3_ok : chain_ok c3.
Proof. exact (proj1 (reaches_kept w_cfg _ _ reaches_c3 c0_ok)). Qed.

Lemma import_mined_outcome_witness :
  exists c', import_mined_with_cert w_cfg 200 lo [] None Certs_default c1 = (Ok (Reorged 1), c')
    /\ Chain.head c1 = Ok hi /\ Chain.head c' = Ok lo /\ heavier lo hi.
Proof.
  destruct (import_mined_with_cert w_cfg 200 lo [] None Certs_default c1) as [r c'] eqn:E.
  assert (r = Ok (Reorged 1)) as -> by (change r with (fst (r, c')); rewrite <- E; vm_compute; reflexivity).
  assert (Chain.head c1 = Ok hi) as Eh by (vm_compute; reflexivity).
  exists c'. split; [done|]. split; [done|].
  destruct (import_mined_outcome w_cfg 200 lo hi [] None Certs_default c1 c' (Reorged 1) c1_ok Eh lo_occurs E) as (_ & _ & H1 & _ & H2).
  by split.
Defined.

(** The replaced block comes again: it forks below the finalized one. *)
Lemma settled_blocks_stay_witness :
  headers (ch_blocks c3) !! 1 = Some lo /\ headers (ch_blocks (run_op w_cfg op_hi c3)) !! 1 = Some lo.
Proof.
  assert (headers (ch_blocks c3) !! 1 = Some lo) as E by (vm_compute; reflexivity). split; [done|].
  refine (proj1 (settled_blocks_stay w_cfg c3 (run_op w_cfg op_hi c3) 1 lo c3_ok _ _ E)).
  - refine (reaches_step _ c3 op_hi _ hi_occurs _). apply reaches_refl.
  - left. vm_compute. discriminate.
Defined.

Lemma canonical_chain_linked_witness :
  exists n, meta_head (ch_blocks c3) = Some n /\ headers (ch_blocks c3) !! 0 = Some genesis.
Proof.
  destruct (canonical_chain_linked w_cfg StateTables_empty genesis ∅ c0 c3 genesis_is_ok opened reaches_c3) as (n & En & _ & Eg & _).
  exact (ex_intro _ n (conj En Eg)).
Defined.

Lemma fork_choice_walks_end_witness : branch_walk c1 (header_hash lo) (walk_fuel c1) <> Err EAbort.
Proof. exact (proj2 (fork_choice_walks_end c1 (header_hash lo) 0 c1_ok)). Defined.

Lemma gas_limit_steps_witness : valid_gas_limit 30000000 (next_gas_limit 30000000 45000000) = true.
Proof. refine (proj1 (gas_limit_steps 30000000 45000000 _ _)); vm_compute; [split|]; discriminate. Defined.
End ChainWitness.
