(* ===== verification/ChainHistoryFacts.v ===== *)
(** * Snapshots and checkpoints: properties

    A snapshot a node serves rebuilds its state, and a node that starts from a checkpoint has the
    state of the trusted block. *)

From S2P Require Import Prelude Types TypesFacts Params Bls AuditCerts Pow Committee History Epochs Forks TxPool Ipld IpldFacts Car Index IndexFacts.
From S2P Require Import TrieIface Store StoreFacts StoreHistory StoreProps Overlay BlockStore Snapshot SnapshotFacts BlockCerts Exec Queries Hooks HooksFacts.
From S2P Require Import Chain ForkChoice ChainTables ChainHistory ChainProps TrieProofs CarFacts.
From stdpp Require Import base list list_numbers sorting gmap fin_maps strings.
From Stdlib Require Import ZArith Lia.

Open Scope Z_scope.
Open Scope bolt_scope.

Section rebuild.
Context `{K : Keccak} `{!KeccakLaws K} `{!KeccakInj K}.
Context `{SR : StateRlp} `{!StateRlpLaws SR}.
Context `{T : TrieOps} `{TL : !TrieLaws T}.
Context `{Sh : Sha256} `{R : HeaderRlp}.
Context `{CA : DagCbor (list SnapAccount)} `{!DagCborLaws (list SnapAccount)}.
Context `{CC : DagCbor (list bytes)} `{!DagCborLaws (list bytes)}.
Context `{CR : DagCbor SnapshotRoot} `{!DagCborLaws SnapshotRoot}.

Lemma collect_map {E A B X} (f : A -> result E B) (g : X -> A) (h : X -> B) l :
  Forall (fun x => f (g x) = Ok (h x)) l -> collect f (map g l) = Ok (map h l).
Proof. induction 1 as [|x l E' _ IH]; [done|]. cbn. by rewrite E', IH. Qed.

Lemma verify_cbor {X} `{DagCbor X} (v : X) :
  Z.of_nat (length (to_vec v)) <= MAX_IPLD_BLOCK_BYTES -> verify (cbor_block v).1 (to_vec v) = Ok ().
Proof.
  intros Hs. unfold verify. replace (MAX_IPLD_BLOCK_BYTES <? _) with false by lia. cbn. by rewrite bool_decide_true.
Qed.

(** Blocks found in the blockstore, and no larger than it accepts. *)
Definition stored (get : Cid -> option bytes) (blocks : list (Cid * bytes)) : Prop :=
  forall c data, (c, data) ∈ blocks -> get c = Some data /\ Z.of_nat (length data) <= MAX_IPLD_BLOCK_BYTES.

Lemma fetch_accounts_ok get (chunks : list (list SnapAccount)) :
  stored get (map cbor_block chunks) ->
  collect (fetch_accounts get) (map (fun c => (cbor_block c).1) chunks) = Ok (map to_vec chunks).
Proof.
  intros H. apply collect_map. apply Forall_forall. intros l Hl.
  destruct (H (cbor_block l).1 (to_vec l)) as [Hg Hs]; [apply list_elem_of_In, in_map_iff; exists l; by rewrite <-list_elem_of_In|].
  unfold fetch_accounts. rewrite Hg. cbn [ok_or result_bind]. rewrite verify_cbor by done.
  unfold decode_accounts. by rewrite from_to_vec.
Qed.

Lemma fetch_codes_ok get (chunks : list (list bytes)) :
  stored get (map cbor_block chunks) ->
  collect (fetch_codes get) (map (fun c => (cbor_block c).1) chunks) = Ok (map to_vec chunks).
Proof.
  intros H. apply collect_map. apply Forall_forall. intros l Hl.
  destruct (H (cbor_block l).1 (to_vec l)) as [Hg Hs]; [apply list_elem_of_In, in_map_iff; exists l; by rewrite <-list_elem_of_In|].
  unfold fetch_codes. rewrite Hg. cbn [ok_or result_bind]. by rewrite verify_cbor.
Qed.

(** Equal flat states of well-formed tables are equal accounts and tries. *)
Lemma flat_accounts t t' : wf t -> wf t' -> flat t' = flat t -> accounts t' = accounts t.
Proof.
  intros Hw Hw' [= Ei Es]. apply map_eq. intros a. assert (infos_of t' !! a = infos_of t !! a) as E by by rewrite Ei.
  unfold infos_of in E. rewrite !lookup_fmap in E.
  destruct (accounts t' !! a) as [x|] eqn:Ex, (accounts t !! a) as [y|] eqn:Ey; try done.
  pose proof (wf_root _ Hw' a x Ex) as Rx. pose proof (wf_root _ Hw a y Ey) as Ry. unfold root_ok in *. rewrite Es in Rx.
  cbn in E. unfold info_of in E. injection E as E1 E2 E3. destruct x, y. cbn [Store.acc_nonce Store.acc_balance Store.acc_code_hash Store.acc_storage_root] in *. congruence.
Qed.

Lemma entries_typed t : snapshot_ready t -> Forall entry_typed (map (account_entry t) (btree_list (accounts t))).
Proof.
  intros Hr. apply Forall_forall. intros e ([a acc] & <- & Hin)%list_elem_of_In%in_map_iff.
  apply account_entry_typed; [done|]. by apply elem_of_btree_entries, list_elem_of_In.
Qed.

Lemma slots_typed_app l l' : slots_typed (l ++ l') <-> slots_typed l /\ slots_typed l'.
Proof. apply Forall_app. Qed.

(** The entries are typed when those they are merged to are. *)
Lemma merge_typed l : Forall entry_typed (merge_entries l) -> Forall entry_typed l.
Proof.
  induction l as [|e l IH] using rev_ind; [done|]. rewrite merge_snoc. intros Hm. apply Forall_app.
  destruct (merge_step_cases (merge_entries l) e) as [E|(X & p & E & Hx & Ha & E')].
  - rewrite E in Hm. apply Forall_app in Hm as [? ?]. auto.
  - rewrite E' in Hm. apply Forall_app in Hm as [HX Hp]. apply Forall_singleton in Hp as [P1 P2 P3 P4 P5 P6].
    cbn [append_slots sa_a sa_b sa_c sa_s] in P1, P2, P3, P4, P5, P6.
    unfold slot_values in P6. rewrite map_app in P6. apply slots_typed_app in P6 as [P6 P6']. apply Forall_app in P5 as [P5 P5'].
    injection Ha as Ea En Eb Ec. split.
    + apply IH. rewrite E. apply Forall_app. split; [done|]. constructor; [by split|constructor].
    + constructor; [|constructor]. rewrite Ea in P1, P4. rewrite Eb in P2. rewrite Ec in P3. by split.
Qed.

(** C10.  A snapshot rebuilds the state it was taken of: once the blocks that building it emits are in a
    node's blockstore, its root decodes, names the block, and the chunks it lists, fetched,
    verified and applied in order, give tables with the same accounts, slots and tries, the code
    of every account, and the state root of the original. *)
Theorem snapshot_rebuilds_state `{A : AlloyRoot} `{!AlloyRootLaws A} (t t0 : StateTables) (chain_id : Z) (header : BlockHeader)
    (envelope : Cid) (td : Z) (get : Cid -> option bytes)
    (Hready : snapshot_ready t) (Hget : stored get (Snapshot.build_snapshot t chain_id header envelope td).1) :
  exists root data snap accs cds t',
    (Snapshot.build_snapshot t chain_id header envelope td).2 = Ok root
    /\ get root = Some data /\ SnapshotRoot_decode data = Ok snap
    /\ sr_chain_id snap = chain_id /\ sr_hash snap = b256_bytes (header_hash header) /\ sr_number snap = hd_number header
    /\ collect (fetch_accounts get) (sr_accounts snap) = Ok accs
    /\ collect (fetch_codes get) (sr_codes snap) = Ok cds
    /\ rebuild_state accs cds t0 = Ok (full_state_root t, t')
    /\ accounts t' = accounts t /\ storage t' = storage t /\ trie_acc t' = trie_acc t
    /\ (forall a, in_range 160 a -> storage_nodes t' (hashed_address a) = storage_nodes t (hashed_address a))
    /\ (forall a acc, accounts t !! a = Some acc -> acc_code_hash acc <> KECCAK_EMPTY ->
          Store.codes t' !! acc_code_hash acc = Store.codes t !! acc_code_hash acc).
Proof.
  destruct (build_snapshot_ok t chain_id header envelope td Hready) as (ac & cc & Eb & Hout & Hm & Hc). cbv zeta in *.
  set (snap := mkSnapshotRoot _ _ _ _ _ _ _ _ _) in *.
  assert (stored get (map cbor_block ac ++ map cbor_block cc ++ [cbor_block snap])) as Hs
    by (intros c data Hin; apply Hget; by rewrite Hout).
  destruct (Hs (cbor_block snap).1 (to_vec snap)) as [Hroot _]; [rewrite !elem_of_app; right; right; by apply list_elem_of_singleton|].
  assert (Forall entry_typed (concat ac)) as Ht by (apply merge_typed; rewrite Hm; by apply entries_typed).
  destruct (load_merge (∅, ∅) (concat ac)) as [Eload Hload].
  { rewrite Hm. apply Forall_forall. by intros e ([a acc] & <- & _)%list_elem_of_In%in_map_iff. }
  rewrite Hm, load_all in Eload by done. pose proof (reset_wf t0) as Hw0.
  destruct (apply_chunks ac (reset_state t0) EMPTY_ROOT_HASH) as (t1 & E1 & Hw1 & Ef1 & Ec1); try done.
  { cbn. unfold acc_content. by rewrite hmap_empty, root_of_empty. }
  rewrite reset_flat, Eload in Ef1. pose proof (flat_accounts t t1 (sn_wf t Hready) Hw1 Ef1) as Ea. injection Ef1 as _ Est.
  set (t' := set_codes (foldl (fun m code => <[keccak256 code := code]> m) (Store.codes t1) (concat cc)) t1).
  exists (cbor_block snap).1, (to_vec snap), snap, (map to_vec ac), (map to_vec cc), t'.
  split; [by rewrite Eb|]. split; [done|]. split.
  { unfold SnapshotRoot_decode. rewrite from_to_vec. cbn [ok_or result_bind]. cbn [snap sr_v sr_hash sr_state_root sr_td].
    by rewrite !be_bytes_length. }
  do 3 (split; [done|]). split.
  { apply fetch_accounts_ok. intros c data Hin. apply Hs. rewrite elem_of_app. by left. }
  split.
  { apply fetch_codes_ok. intros c data Hin. apply Hs. rewrite !elem_of_app. right. by left. }
  split; [|split; [done|]; split; [done|]; split; [|split]].
  - unfold rebuild_state. rewrite E1. cbn [store_err result_bind snd fst]. rewrite apply_codes. cbn [store_err result_bind].
    rewrite full_state_root_ok by apply Hready. by rewrite <-Ea.
  - cbn. rewrite (wf_acc _ Hw1), (wf_acc _ (sn_wf t Hready)). by rewrite Ea.
  - intros a Ha. change (storage_nodes t' (hashed_address a)) with (storage_nodes t1 (hashed_address a)).
    by rewrite (wf_sto _ Hw1 a Ha), (wf_sto _ (sn_wf t Hready) a Ha), Est.
  - intros a acc Hacc Hn. cbn. rewrite Hc. by eapply restored_codes.
Qed.
End rebuild.

(** ** Starting from a checkpoint *)

(** dag-cbor decodes byte strings to bytes. *)
Definition bytes_entry (e : SnapAccount) : Prop :=
  byte_list (sa_a e) /\ Forall (fun kv => byte_list kv.1 /\ byte_list kv.2) (sa_s e).

Class AccountsBytes `{DagCbor (list SnapAccount)} : Prop :=
  accounts_bytes : forall data l, from_slice data = Some l -> Forall bytes_entry l.

(** Headers linked by hash below a parent hash, and with falling numbers. *)
Fixpoint linked_down (parent_hash : B256) `{Keccak} `{HeaderRlp} (l : list (BlockHeader * Cid)) : Prop :=
  match l with
  | [] => True
  | (h, _) :: l => header_hash h = parent_hash /\ linked_down (hd_parent_hash h) l
  end.

Fixpoint numbers_fall (below : Z) (l : list (BlockHeader * Cid)) : Prop :=
  match l with
  | [] => True
  | (h, _) :: l => hd_number h < below /\ numbers_fall (hd_number h) l
  end.

Section import.
Context `{K : Keccak} `{!KeccakLaws K} `{!KeccakInj K} `{Sh : Sha256} `{R : HeaderRlp} `{AR : AlloyReceipt} `{AB : !AlloyBlock} `{BR : !BodyRlp}.
Context `{CE : DagCbor Envelope} `{SR : StateRlp} `{!StateRlpLaws SR} `{TO : TrieOps} `{TL : !TrieLaws TO} `{SA : SolAbi}.
Context `{CA : DagCbor (list SnapAccount)} `{HB : !AccountsBytes} `{CC : DagCbor (list bytes)} `{CR : DagCbor SnapshotRoot}.
Context `{EV : !Revm ChainView}.
Variable cfg : ChainConfig.

Lemma collect_slots_typed l storage :
  Forall (fun kv : bytes * bytes => byte_list kv.1 /\ byte_list kv.2) l -> collect snapshot_slot l = Ok storage -> slots_typed storage.
Proof.
  intros Hl. revert storage. induction Hl as [|[k v] l [Hk Hv] _ IH]; intros storage; cbn [collect]; [intros [= <-]; constructor|].
  unfold snapshot_slot at 1. cbn [fst snd] in *. destruct (Nat.eqb (length k) 32) eqn:E1; [|done]. destruct (Nat.eqb (length v) 32) eqn:E2; [|done].
  apply Nat.eqb_eq in E1, E2. cbn [andb result_bind]. destruct (collect snapshot_slot l) as [bs|]; [|done]. intros [= <-].
  constructor; [|by apply IH]. cbn [fst snd]. pose proof (be_val_range k Hk) as Rk. pose proof (be_val_range v Hv) as Rv.
  rewrite E1 in Rk. by rewrite E2 in Rv.
Qed.

Lemma snapshot_entry_typed e c c' :
  bytes_entry e -> changes_typed c -> snapshot_entry e c = Ok c' -> changes_typed c'.
Proof.
  intros [Ha Hs] [H1 H2]. unfold snapshot_entry. destruct (_ || _) eqn:El; [done|].
  rewrite !orb_false_iff, !negb_false_iff in El. destruct El as [[El%Nat.eqb_eq _] _].
  pose proof (be_val_range _ Ha) as Hra. rewrite El in Hra.
  destruct (collect snapshot_slot (sa_s e)) as [storage|] eqn:Es; [|done]. cbn [result_bind]. intros [= <-].
  apply collect_slots_typed in Es; [|done]. split; cbn [cs_accounts cs_storage].
  - destruct (sa_x e); [done|]. apply Forall_app. split; [done|]. by constructor.
  - case_bool_decide; [done|]. apply Forall_app. split; [done|]. constructor; [by split|constructor].
Qed.

Lemma snapshot_entries_typed l c c' :
  Forall bytes_entry l -> changes_typed c -> try_fold snapshot_entry l c = Ok c' -> changes_typed c'.
Proof.
  intros Hl. revert c. induction Hl as [|e l He _ IH]; intros c Hc; cbn [try_fold]; [by intros [= <-]|].
  destruct (snapshot_entry e c) as [c1|] eqn:E; [|done]. apply IH. by eapply snapshot_entry_typed.
Qed.

Lemma apply_accounts_wf chunk t root t' :
  wf t -> apply_snapshot_accounts chunk t = Ok (root, t') -> wf t' /\ root = root_of (acc_content (accounts t')).
Proof.
  intros Hwf. unfold apply_snapshot_accounts, decode_accounts. destruct (from_slice chunk) as [l|] eqn:El; [|done].
  apply accounts_bytes in El. cbn [ok_or]. destruct (try_fold _ _ _) as [c|] eqn:Ec; [|done]. cbn [result_bind].
  apply snapshot_entries_typed in Ec; [|done|by split; constructor].
  destruct (apply_changes_ok c t Hwf Ec) as (t1 & -> & Hw1 & _). by intros [= <- <-].
Qed.

Lemma apply_all_wf chunks t root t' root0 :
  wf t -> root0 = root_of (acc_content (accounts t)) ->
  try_fold (fun chunk st => apply_snapshot_accounts chunk st.2) chunks (root0, t) = Ok (root, t') ->
  wf t' /\ root = root_of (acc_content (accounts t')).
Proof.
  revert t root0. induction chunks as [|b chunks IH]; intros t root0 Hwf Hr; cbn [try_fold snd]; [by intros [= <- <-]|].
  destruct (apply_snapshot_accounts b t) as [[r1 t1]|] eqn:E; [|done]. cbn [result_bind].
  apply apply_accounts_wf in E as [Hw1 E1]; [|done]. by apply IH.
Qed.

Lemma apply_codes_frame chunks t t' :
  wf t -> try_fold apply_snapshot_codes chunks t = Ok t' -> wf t' /\ accounts t' = accounts t.
Proof.
  revert t. induction chunks as [|b chunks IH]; intros t Hwf; cbn [try_fold]; [by intros [= <-]|].
  unfold apply_snapshot_codes at 1. destruct (decode_codes b) as [l|]; [|done]. cbn [result_bind]. intros E.
  apply IH in E; [done|]. destruct Hwf as [[H1 H2] ? ? ? ?]. by split.
Qed.

Lemma rebuild_state_wf accs cds t root t' :
  rebuild_state accs cds t = Ok (root, t') -> wf t' /\ root = root_of (acc_content (accounts t')).
Proof.
  unfold rebuild_state. destruct (try_fold _ accs _) as [[r1 t1]|] eqn:E1; [|done]. cbn [store_err result_bind snd fst].
  destruct (try_fold _ cds _) as [t2|] eqn:E2; [|done]. cbn [store_err result_bind]. intros [= <- <-].
  apply apply_all_wf in E1 as [Hw1 ->]; [|apply reset_wf|cbn; unfold acc_content; by rewrite hmap_empty, root_of_empty].
  apply apply_codes_frame in E2 as [Hw2 ->]; done.
Qed.

Lemma ancestors_linked get lower parent_env parent_hash fuel l :
  ancestors_loop get lower parent_env parent_hash fuel = Ok l -> linked_down parent_hash l.
Proof.
  revert parent_env parent_hash l. induction fuel as [|fuel IH]; intros parent_env parent_hash l; cbn [ancestors_loop].
  { destruct parent_env; [done|]. by intros [= <-]. }
  destruct parent_env as [pc|]; [|by intros [= <-]]. destruct (get pc) as [data|]; [|done]. cbn [ok_or result_bind].
  destruct (Envelope_decode data) as [e|]; [|done]. cbn [result_bind]. destruct (_ || _); [by intros [= <-]|].
  destruct (get (env_header e)) as [hb|]; [|done]. cbn [ok_or result_bind]. destruct (unrlp_header hb) as [h|]; [|done]. cbn [ok_or result_bind].
  destruct (header_hash h =? parent_hash) eqn:Eh; [|done]. cbn [negb].
  destruct (ancestors_loop _ _ _ _ fuel) as [l'|] eqn:El; [|done]. cbn [result_bind]. intros [= <-]. split; [lia|by apply IH in El].
Qed.

Lemma put_headers_below l b n m :
  n <= m -> numbers_fall n l -> headers (foldl (fun b hc => put_header_only hc.1 hc.2 b) b l) !! m = headers b !! m.
Proof.
  revert b n. induction l as [|[h e] l IH]; intros b n Hn; [done|]. cbn [numbers_fall foldl fst snd]. intros [Hh Hl].
  rewrite (IH _ (hd_number h)) by (done || lia). cbn. by rewrite lookup_insert_ne by lia.
Qed.

Lemma put_headers_kept l b below q :
  numbers_fall below l -> q ∈ l -> headers (foldl (fun b hc => put_header_only hc.1 hc.2 b) b l) !! hd_number q.1 = Some q.1.
Proof.
  revert b below. induction l as [|[h e] l IH]; intros b below; [by intros _ ?%elem_of_nil|]. cbn [numbers_fall foldl fst snd].
  intros [Hh Hl] [->|Hq]%elem_of_cons; [|by eapply IH]. cbn [fst]. rewrite (put_headers_below l _ (hd_number h)) by done. cbn. by rewrite lookup_insert_eq.
Qed.

Lemma put_headers_meta l b :
  let b' := foldl (fun b hc => put_header_only hc.1 hc.2 b) b l in
  meta_head b' = meta_head b /\ meta_base b' = meta_base b.
Proof. cbv zeta. revert b. induction l as [|x l IH]; intros b; [done|]. cbn [foldl]. by destruct (IH (put_header_only x.1 x.2 b)) as [-> ->]. Qed.

(** The walk to the ancestors ends when hashes of headers are not cyclic: no envelope is visited twice. *)
Lemma ancestors_end_aux (get : gmap Cid bytes) (rank : B256 -> nat) lower parent_env parent_hash fuel (seen : list Cid) :
  (forall c hb h, get !! c = Some hb -> unrlp_header hb = Some h -> (rank (hd_parent_hash h) < rank (header_hash h))%nat) ->
  NoDup seen ->
  (forall c, c ∈ seen -> exists data e hb h, get !! c = Some data /\ Envelope_decode data = Ok e /\ get !! env_header e = Some hb
     /\ unrlp_header hb = Some h /\ (rank parent_hash < rank (header_hash h))%nat) ->
  (size get < fuel + length seen)%nat ->
  ancestors_loop (fun c => get !! c) lower parent_env parent_hash fuel <> Err EAbort.
Proof.
  intros Hrank. revert parent_env parent_hash seen. induction fuel as [|fuel IH]; intros parent_env parent_hash seen Hnd Hseen Hf.
  { exfalso. assert (length seen <= size get)%nat; [|lia]. rewrite <-size_dom.
    rewrite <-(size_list_to_set (C := gset Cid) seen) by done. apply subseteq_size. intros c (data & _ & _ & _ & Hg & _)%elem_of_list_to_set%Hseen.
    by apply elem_of_dom_2 in Hg. }
  cbn [ancestors_loop]. destruct parent_env as [pc|]; [|done]. destruct (get !! pc) as [data|] eqn:Eg; [|done]. cbn [ok_or result_bind].
  destruct (Envelope_decode data) as [e|] eqn:Ee; [|done]. cbn [result_bind]. destruct (_ || _); [done|].
  destruct (get !! env_header e) as [hb|] eqn:Ehb; [|done]. cbn [ok_or result_bind]. destruct (unrlp_header hb) as [h|] eqn:Eh; [|done]. cbn [ok_or result_bind].
  destruct (header_hash h =? parent_hash) eqn:Ehash; [|done]. apply Z.eqb_eq in Ehash. cbn [negb].
  assert (pc ∉ seen) as Hpc.
  { intros (d & e' & hb' & h' & E1 & E2 & E3 & E4 & Hr)%Hseen. rewrite Eg in E1. injection E1 as <-. rewrite Ee in E2. injection E2 as <-.
    rewrite Ehb in E3. injection E3 as <-. rewrite Eh in E4. injection E4 as <-. rewrite Ehash in Hr. lia. }
  pose proof (Hrank _ _ _ Ehb Eh) as Hp. rewrite Ehash in Hp.
  pose proof (IH (env_parent e) (hd_parent_hash h) (pc :: seen)) as IH'.
  destruct (ancestors_loop _ _ _ _ fuel) as [l|err]; [done|]. intros [= ->]. apply IH'; [by constructor| |cbn [length]; lia|done].
  intros c [->|Hc]%elem_of_cons.
  - exists data, e, hb, h. by rewrite Ehash.
  - destruct (Hseen c Hc) as (d & e' & hb' & h' & E1 & E2 & E3 & E4 & Hr). exists d, e', hb', h'. split_and!; try done. lia.
Qed.

Lemma ancestors_end (b : BlockTables) (rank : B256 -> nat) lower parent_env parent_hash :
  (forall c hb h, ipld b !! c = Some hb -> unrlp_header hb = Some h -> (rank (hd_parent_hash h) < rank (header_hash h))%nat) ->
  ancestors_loop (fun c => ipld b !! c) lower parent_env parent_hash (S (size (ipld b))) <> Err EAbort.
Proof.
  intros Hrank. apply (ancestors_end_aux _ rank _ _ _ _ []); [done|constructor| |cbn; lia]. intros c Hc. by apply elem_of_nil in Hc.
Qed.

Lemma read_checkpoint_ok root trusted b cp :
  read_checkpoint cfg root trusted b = Ok cp ->
  header_hash (db_header (cp_block cp)) = trusted /\ linked_down (hd_parent_hash (db_header (cp_block cp))) (cp_ancestors cp).
Proof.
  unfold read_checkpoint. intros Hrun. cbv zeta in Hrun. repeat match type of Hrun with
  | (if ?c then _ else _) = Ok _ => let E := fresh "E" in destruct c eqn:E; [done|]
  | result_bind _ _ = Ok _ =>
      let x := fresh "x" in let E := fresh "E" in apply result_bind_ok in Hrun; destruct Hrun as (x & E & Hrun); cbv beta in Hrun
  end.
  injection Hrun as <-. cbn [cp_block cp_ancestors]. split.
  - match goal with E : negb _ || negb _ = false |- header_hash _ = _ => apply orb_false_iff in E as [E _]; apply negb_false_iff, Z.eqb_eq in E; exact E end.
  - match goal with E : ancestors_loop _ _ _ _ _ = Ok _ |- _ => exact (ancestors_linked _ _ _ _ _ _ E) end.
Qed.

Lemma put_checkpoint_ok (blk : StoredBlock) envelope td b :
  let b' := put_checkpoint_block blk envelope td b in let n := hd_number (sb_header blk) in
  meta_head b' = Some n /\ headers b' = <[n := sb_header blk]> (headers b) /\ meta_base b' = Some n.
Proof.
  cbv zeta. pose proof (core_put_block blk [] b) as E. revert E. unfold put_checkpoint_block. cbv zeta.
  generalize (put_block blk [] b). intros p. unfold core. intros E. injection E as E1 _ _ E4 _.
  split; [exact E4|]. split; [exact E1|]. reflexivity.
Qed.

(** C11.  A node that starts from a checkpoint has the state of the trusted block: an import that
    succeeds makes head, final and base of the history the block that hashes to the trusted hash;
    the tables rebuilt from the chunks, whoever supplied them, are well formed and their state root
    is the block's; the ancestors kept are linked to it by hash and, as in a valid chain, stored
    under their falling numbers.  An import that fails changes nothing. *)
Theorem checkpoint_import_trusted `{A : AlloyRoot} `{!AlloyRootLaws A} (root : Cid) (trusted : B256) (c c' : Chain)
    (r : result ChainError BlockHeader) (Hrun : import_checkpoint cfg root trusted c = (r, c')) :
  match r with
  | Err _ => c' = c
  | Ok h =>
      header_hash h = trusted /\ head_number c = 0 /\ head_number c' = hd_number h
      /\ finalized c' = Some (hd_number h, trusted) /\ base (ch_blocks c') = hd_number h
      /\ wf (ch_state c') /\ full_state_root (ch_state c') = hd_state_root h
      /\ exists ancestors, linked_down (hd_parent_hash h) ancestors
           /\ (numbers_fall (hd_number h) ancestors ->
                 Chain.head c' = Ok h /\ Forall (fun q => headers (ch_blocks c') !! hd_number q.1 = Some q.1) ancestors)
  end.
Proof.
  unfold import_checkpoint in Hrun. destruct (head_number c =? 0) eqn:E0; [|by injection Hrun as <- <-]. cbn [negb] in Hrun.
  destruct (result_bind _ _) as [[cp t]|e] eqn:E; [|by injection Hrun as <- <-].
  apply result_bind_ok in E as (cp' & Er & E). apply result_bind_ok in E as ([root' t'] & Eb & E). cbn [fst snd] in E.
  destruct (root' =? _) eqn:Eroot; [|done]. cbn [negb] in E. injection E as -> ->. injection Hrun as <- <-.
  apply read_checkpoint_ok in Er as [Eh Hlinked]. apply rebuild_state_wf in Eb as [Hwf Hr].
  set (h := db_header (cp_block cp)) in *. set (b0 := put_checkpoint_block _ _ _ _).
  pose proof (put_headers_meta (cp_ancestors cp) b0) as [Em Eb]. cbv zeta in Em, Eb.
  destruct (put_checkpoint_ok (mkStoredBlock h (db_transactions (cp_block cp)) (cp_senders cp)) (sr_envelope (cp_snap cp))
    (be_val (sr_td (cp_snap cp))) (ch_blocks c)) as (Em0 & Eh0 & Eb0). fold b0 in Em0, Eh0, Eb0. cbn [sb_header] in Em0, Eh0, Eb0. clearbody b0.
  set (b1 := foldl _ b0 _) in *. split_and!; try done.
  - lia.
  - unfold head_number. cbn. by rewrite Em, Em0.
  - unfold base. cbn. by rewrite Eb, Eb0.
  - rewrite full_state_root_ok by done. cbn. rewrite <-Hr. lia.
  - exists (cp_ancestors cp). split; [done|]. intros Hf. split.
    + unfold Chain.head, head_number. cbn. rewrite Em, Em0. cbn. unfold b1.
      rewrite (put_headers_below _ _ (hd_number h)) by done. rewrite Eh0. by rewrite lookup_insert_eq.
    + apply Forall_forall. intros q Hq. cbn. by eapply put_headers_kept.
Qed.
End import.

(** ** A concrete snapshot *)

Module CheckpointWitness.
Import ExecToy StoreWitness.

#[export] Instance w_sha : Sha256 := IpldWitness.toy_sha.
#[export] Instance w_header : HeaderRlp := IpldWitness.toy_rlp.
#[export] Instance w_envelope : DagCbor Envelope := IpldWitness.toy_cbor.
#[export] Instance w_cid_bytes : CidBytes := CarWitness.toy_cid_bytes.
#[export] Instance w_abi : SolAbi := HooksWitness.toy_abi.

#[export] Instance SnapAccount_eq_dec : EqDecision SnapAccount.
Proof. solve_decision. Defined.
#[export] Program Instance SnapAccount_countable : Countable SnapAccount :=
  inj_countable' (fun e => (sa_a e, sa_n e, sa_b e, sa_c e, sa_s e, sa_x e)) (fun '(a, n, b, c, s, x) => mkSnapAccount a n b c s x) _.
Next Obligation. by intros []. Qed.

#[export] Instance SnapshotRoot_eq_dec : EqDecision SnapshotRoot.
Proof. solve_decision. Defined.
#[export] Program Instance SnapshotRoot_countable : Countable SnapshotRoot :=
  inj_countable' (fun r => (sr_v r, sr_chain_id r, sr_number r, sr_hash r, sr_state_root r, sr_td r, sr_envelope r, sr_accounts r, sr_codes r))
    (fun '(a, b, c, d, e, f, g, h, i) => mkSnapshotRoot a b c d e f g h i) _.
Next Obligation. by intros []. Qed.

#[export] Instance w_root : DagCbor SnapshotRoot := IpldWitness.countable_cbor SnapshotRoot.
#[export] Instance w_root_laws : DagCborLaws SnapshotRoot := IpldWitness.countable_cbor_laws SnapshotRoot.
#[export] Instance w_codes : DagCbor (list bytes) := IpldWitness.countable_cbor (list bytes).
#[export] Instance w_codes_laws : DagCborLaws (list bytes) := IpldWitness.countable_cbor_laws (list bytes).

(** An account with two slots, and one with a code. *)
Definition the_code : bytes := [96; 1].
Definition changes : StateChangeset :=
  mkChangeset [(1, Some (mkInfo 7 1 KECCAK_EMPTY)); (2, Some (mkInfo 9 1 (keccak256 the_code)))]
    [mkStorageChange 1 false [(5, 9); (6, 10)]] [(keccak256 the_code, the_code)].

Definition state : StateTables := match apply_changes changes StateTables_empty with Ok r => r.2 | Err _ => StateTables_empty end.

Lemma state_wf : wf state.
Proof.
  destruct (apply_changes_ok changes StateTables_empty) as (t & E & Hwf & _).
  - exact (b_wf _ _ genesis_at_block).
  - split; repeat constructor; (reflexivity || discriminate).
  - unfold state. rewrite E. exact Hwf.
Qed.

Definition entry_ready (t : StateTables) (acc : Account) : Prop :=
  (in_range 256 (acc_balance acc) /\ in_range 256 (acc_code_hash acc))
  /\ (acc_code_hash acc = KECCAK_EMPTY \/ keccak256 (default [] (Store.codes t !! acc_code_hash acc)) = acc_code_hash acc
      /\ is_Some (Store.codes t !! acc_code_hash acc)).

#[export] Instance entry_ready_dec t acc : Decision (entry_ready t acc).
Proof. unfold entry_ready, in_range. apply _. Defined.

Lemma state_ready : snapshot_ready state.
Proof.
  assert (map_Forall (fun _ acc => entry_ready state acc) (accounts state)) as Hall.
  { apply (bool_decide_unpack _). vm_compute. exact I. }
  revert Hall. generalize state_wf. generalize state. intros t Hw Hall. split; [exact Hw| |].
  - intros a acc Ha. exact (proj1 (Hall a acc Ha)).
  - intros a acc Ha Hn. destruct (proj2 (Hall a acc Ha)) as [E|[Hk [c Hc]]]; [by destruct (Hn E)|].
    exists c. rewrite Hc in Hk. split; [exact Hc|exact Hk].
Qed.

Definition parent : BlockHeader := mkBlockHeader 3 4 10 5 30000000 0 77 9 12 14 [] 13 0 [] (Some 17) None [].
Definition tip_block : BlockHeader :=
  mkBlockHeader (header_hash parent) 5 20 5 30000000 0 (full_state_root state) 9 12 14 [] 13 0 [] (Some 17) None [].

#[export] Instance w_body : BodyRlp := {|
  rlp_list l := [Z.of_nat (length l)];
  unrlp_list _ := None;
  tx_encoded_2718 (t : @TxEnvelope gas_txs) := [(t : Z)];
|}.

Definition parent_bundle : BlockBundle := bundle parent [] None [].
Definition tip_bundle : BlockBundle := bundle tip_block [] (Some (bd_root parent_bundle)) [].

Section plain.
#[local] Instance w_accounts : DagCbor (list SnapAccount) := IpldWitness.countable_cbor (list SnapAccount).
#[local] Instance w_accounts_laws : DagCborLaws (list SnapAccount) := IpldWitness.countable_cbor_laws (list SnapAccount).

Definition snapshot : list (Cid * bytes) := (Snapshot.build_snapshot state 1 tip_block (bd_root tip_bundle) 100).1.
Definition get (c : Cid) : option bytes := (list_to_map snapshot : gmap Cid bytes) !! c.

Definition kept_in (g : Cid -> option bytes) (cd : Cid * bytes) : Prop :=
  g cd.1 = Some cd.2 /\ Z.of_nat (length cd.2) <= MAX_IPLD_BLOCK_BYTES.

#[local] Instance kept_in_dec g cd : Decision (kept_in g cd).
Proof. unfold kept_in. apply _. Defined.

Lemma snapshot_stored : stored get (Snapshot.build_snapshot state 1 tip_block (bd_root tip_bundle) 100).1.
Proof.
  fold snapshot. assert (Forall (kept_in get) snapshot) as Hall.
  { apply (bool_decide_unpack _). vm_compute. exact I. }
  revert Hall. generalize snapshot get. intros l g Hall c data Hin. rewrite Forall_forall in Hall. exact (Hall (c, data) Hin).
Qed.

Lemma snapshot_rebuilds_state_witness :
  exists accs cds t', rebuild_state accs cds StateTables_empty = Ok (full_state_root state, t') /\ accounts t' = accounts state
    /\ Store.codes t' !! keccak256 the_code = Some the_code.
Proof.
  destruct (snapshot_rebuilds_state state StateTables_empty 1 tip_block (bd_root tip_bundle) 100 get state_ready snapshot_stored)
    as (_ & _ & _ & accs & cds & t' & _ & _ & _ & _ & _ & _ & _ & _ & E & Ea & _ & _ & _ & Hc).
  exists accs, cds, t'. split; [exact E|]. split; [exact Ea|].
  assert (exists acc, accounts state !! 2 = Some acc /\ acc_code_hash acc = keccak256 the_code) as (acc & Hacc & Eh)
    by (eexists; vm_compute; split; reflexivity).
  rewrite <-Eh, (Hc 2 acc Hacc); rewrite Eh; vm_compute; [reflexivity|discriminate].
Defined.
End plain.

(** The same codec, which rejects what does not hold bytes. *)
#[export] Instance bytes_entry_dec e : Decision (bytes_entry e).
Proof. unfold bytes_entry, byte_list. apply _. Defined.

#[export] Instance strict_accounts : DagCbor (list SnapAccount) := {|
  to_vec l := [Zpos (encode l)];
  from_slice b := match b with
    | [Zpos p] => l ← decode p; if decide (Forall bytes_entry l) then Some l else None
    | _ => None
    end;
|}.

#[export] Instance strict_bytes : AccountsBytes.
Proof.
  intros data l. cbn. destruct data as [|[| p |] [|]]; try done. destruct (decode p) as [l'|]; [|done]. cbn.
  destruct (decide _); [|done]. by intros [= <-].
Qed.

(** A fresh node that fetched the snapshot and the blocks of the checkpoint. *)
Definition fetched : Chain :=
  let blocks := bd_blocks parent_bundle ++ bd_blocks tip_bundle
                ++ (Snapshot.build_snapshot state 1 tip_block (bd_root tip_bundle) 100).1 in
  mkChain (put_all blocks Blocks_empty) StateTables_empty ∅ ∅ 0 [].

Definition snapshot_cid : Cid := match (Snapshot.build_snapshot state 1 tip_block (bd_root tip_bundle) 100).2 with Ok c => c | Err _ => bd_root tip_bundle end.

#[export] Instance w_evm : Revm ChainView := ChainWitness.w_evm.

Lemma checkpoint_import_trusted_witness :
  exists c', import_checkpoint ChainWitness.w_cfg snapshot_cid (header_hash tip_block) fetched = (Ok tip_block, c')
    /\ full_state_root (ch_state c') = hd_state_root tip_block /\ finalized c' = Some (5, header_hash tip_block).
Proof.
  destruct (import_checkpoint ChainWitness.w_cfg snapshot_cid (header_hash tip_block) fetched) as [r c'] eqn:E.
  assert (r = Ok tip_block) as -> by (change r with (fst (r, c')); rewrite <-E; vm_compute; reflexivity).
  pose proof (checkpoint_import_trusted ChainWitness.w_cfg _ _ _ _ _ E) as (_ & _ & _ & Hf & _ & _ & Hr & _).
  exists c'. split; [reflexivity|]. split; [exact Hr|exact Hf].
Defined.

(** The root of a snapshot is not checked beyond the block's hash and the state root: a supplier that
    leaves the codes out, or claims another total difficulty, is accepted, and the node then lacks the
    code of an account of its state. *)
Definition forge (root : option SnapshotRoot) : SnapshotRoot :=
  match root with
  | Some s => mkSnapshotRoot (sr_v s) (sr_chain_id s) (sr_number s) (sr_hash s) (sr_state_root s) (be_bytes 32 (2 ^ 200)) (sr_envelope s)
                (sr_accounts s) []
  | None => mkSnapshotRoot 1 1 0 [] [] [] (bd_root tip_bundle) [] []
  end.

Definition forged_root : SnapshotRoot := forge (root_at (ch_blocks fetched) snapshot_cid).

Definition deceived : Chain :=
  with_db (put_all [SnapshotRoot_to_block forged_root] (ch_blocks fetched)) (ch_state fetched) fetched.

Lemma forged_snapshot_accepted :
  let '(r, c') := import_checkpoint ChainWitness.w_cfg (SnapshotRoot_to_block forged_root).1 (header_hash tip_block) deceived in
  r = Ok tip_block /\ head_total_difficulty c' = 2 ^ 200
  /\ acc_code_hash <$> accounts (ch_state c') !! 2 = Some (keccak256 the_code)
  /\ Store.codes (ch_state c') !! keccak256 the_code = None.
Proof. vm_compute. repeat split. Qed.
End CheckpointWitness.
