(* ===== verification/TextCodec.v ===== *)
(** * Text encodings

    Models the text encodings the code writes itself: base32 and hexadecimal of
    crates/vault/src/lib.rs (CIDs and the byte fields of a sealed file), base64 and PEM of
    crates/attest/src/der.rs (certificate chains).  A Rust [str] is its UTF-8 bytes, a list of
    [char] its code points. *)

From S2P Require Import Prelude.
From stdpp Require Import base list list_numbers strings.
From Stdlib Require Import ZArith Lia.

Open Scope Z_scope.
Open Scope bolt_scope.

(** ** Shift registers *)

(** [(buf << k) | v] on a [u32]. *)
Definition shift_in (k buf v : Z) : Z := Z.lor (u32 (Z.shiftl buf k)) v.

Lemma lor_low k x v : 0 <= k -> x mod 2 ^ k = 0 -> 0 <= v < 2 ^ k -> Z.lor x v = x + v.
Proof.
  intros Hk Hx Hv. rewrite <-Z.add_lor_land. enough (Z.land x v = 0) by lia.
  apply Z.bits_inj'; intros n Hn. rewrite Z.land_spec, Z.bits_0.
  destruct (decide (n < k)).
  - by rewrite <-(Z.mod_pow2_bits_low x k n), Hx, Z.bits_0 by lia.
  - rewrite <-(Z.mod_small v (2 ^ k)), (Z.mod_pow2_bits_high v) by lia. apply andb_false_r.
Qed.

Lemma pow2_divide i j : 0 <= i <= j -> (2 ^ i | 2 ^ j).
Proof. intros ?. exists (2 ^ (j - i)). rewrite <-Z.pow_add_r by lia. f_equal. lia. Qed.

(** Only the low bits matter to what is read back. *)
Lemma shift_in_mod k buf v j :
  0 <= k <= 32 -> 0 <= v < 2 ^ k -> 0 <= j <= 32 -> shift_in k buf v mod 2 ^ j = (buf * 2 ^ k + v) mod 2 ^ j.
Proof.
  intros Hk Hv Hj. unfold shift_in, wrap. rewrite Z.shiftl_mul_pow2 by lia. rewrite (lor_low k); try lia.
  - by rewrite <-Zplus_mod_idemp_l, (Z.mod_mod_divide _ (2 ^ 32)), Zplus_mod_idemp_l by (apply pow2_divide; lia).
  - rewrite (Z.mod_mod_divide _ (2 ^ 32)) by (apply pow2_divide; lia). apply Z.mod_mul. lia.
Qed.

Lemma shift_in_eq k buf v : 0 <= k <= 32 -> 0 <= v < 2 ^ k -> exists q, shift_in k buf v = buf * 2 ^ k + v + 4294967296 * q.
Proof.
  intros Hk Hv. unfold shift_in, wrap. rewrite Z.shiftl_mul_pow2 by lia. rewrite (lor_low k); try lia.
  - exists (- (buf * 2 ^ k / 2 ^ 32)). rewrite Z.mod_eq by lia. change (2 ^ 32) with 4294967296. lia.
  - rewrite (Z.mod_mod_divide _ (2 ^ 32)) by (apply pow2_divide; lia). apply Z.mod_mul. lia.
Qed.

(** The byte read back at offset [b] of the register. *)
Lemma shift_out k buf v b w :
  0 <= k <= 32 -> 0 <= v < 2 ^ k -> 0 <= b -> 0 <= w -> b + w <= 32 ->
  Z.shiftr (shift_in k buf v) b mod 2 ^ w = ((buf * 2 ^ k + v) / 2 ^ b) mod 2 ^ w.
Proof.
  intros Hk Hv Hb Hw Hbw. rewrite Z.shiftr_div_pow2 by done.
  assert (forall x, x / 2 ^ b mod 2 ^ w = x mod 2 ^ (b + w) / 2 ^ b) as H.
  { intros x. rewrite Z.pow_add_r by done. rewrite Z.rem_mul_r by lia.
    rewrite (Z.mul_comm (2 ^ b)), Z.div_add, (Z.div_small (x mod 2 ^ b)) by (try apply Z.mod_pos_bound; lia). lia. }
  by rewrite !H, shift_in_mod by lia.
Qed.

(** ** base32 *)

Definition B32 : bytes := ascii_bytes "abcdefghijklmnopqrstuvwxyz234567".

(** A character of an alphabet, by its value; the values the code looks up are in range. *)
Definition digit_of (alphabet : bytes) (v : Z) : Z := default 0 (alphabet !! Z.to_nat v).

(** [while bits >= 5]; every iteration takes five bits. *)
Fixpoint base32_drain (n : nat) (buf bits : Z) (out : bytes) : Z * bytes :=
  match n with
  | O => (bits, out)
  | S n =>
    if 5 <=? bits then
      let bits := bits - 5 in
      base32_drain n buf bits (out ++ [digit_of B32 (Z.land (Z.shiftr buf bits) 31)])
    else (bits, out)
  end.

Fixpoint base32_go (data : bytes) (buf bits : Z) (out : bytes) : bytes :=
  match data with
  | [] => if 0 <? bits then out ++ [digit_of B32 (Z.land (u32 (Z.shiftl buf (5 - bits))) 31)] else out
  | b :: data =>
    let buf := shift_in 8 buf b in
    let bits := bits + 8 in
    let '(bits, out) := base32_drain (Z.to_nat bits) buf bits out in
    base32_go data buf bits out
  end.

Definition base32 (data : bytes) : bytes := base32_go data 0 0 [].

(** [B32.iter().position(|x| *x == c)]. *)
Fixpoint position (c : Z) (l : bytes) : option Z :=
  match l with
  | [] => None
  | x :: l => if x =? c then Some 0 else Z.succ <$> position c l
  end.

Fixpoint unbase32_go (s : bytes) (buf bits : Z) (out : bytes) : option bytes :=
  match s with
  | [] => Some out
  | c :: s =>
    v ← position c B32;
    let buf := shift_in 5 buf v in
    let bits := bits + 5 in
    if 8 <=? bits then
      let bits := bits - 8 in
      unbase32_go s buf bits (out ++ [u8 (Z.shiftr buf bits)])
    else unbase32_go s buf bits out
  end.

Definition unbase32 (s : bytes) : option bytes := unbase32_go s 0 0 [].

(** ** Hexadecimal *)

(** [format!("{x:02x}")]. *)
Definition hex_char (d : Z) : Z := if d <? 10 then 48 + d else 87 + d.
Definition hex (b : bytes) : bytes := concat (map (fun x => [hex_char (x / 16); hex_char (x mod 16)]) b).

(** [char::to_digit(16)] of an ASCII byte. *)
Definition to_digit16 (c : Z) : option Z :=
  if (48 <=? c) && (c <=? 57) then Some (c - 48)
  else if (65 <=? c) && (c <=? 70) then Some (c - 55)
  else if (97 <=? c) && (c <=? 102) then Some (c - 87)
  else None.

(** [u8::from_str_radix(s, 16)] of a text of two bytes: a sign may stand before the digits. *)
Definition u8_from_hex2 (a b : Z) : option Z :=
  if a =? 43 then to_digit16 b
  else x ← to_digit16 a; y ← to_digit16 b; Some (x * 16 + y).

Fixpoint unhex (s : bytes) : option bytes :=
  match s with
  | [] => Some []
  | [_] => None
  | a :: b :: s => x ← u8_from_hex2 a b; l ← unhex s; Some (x :: l)
  end.

(** ** base64 *)

Definition B64 : bytes := ascii_bytes "ABCDEFGHIJKLMNOPQRSTUVWXYZabcdefghijklmnopqrstuvwxyz0123456789+/".

Definition base64_val (c : Z) : option Z :=
  if (65 <=? c) && (c <=? 90) then Some (c - 65)
  else if (97 <=? c) && (c <=? 122) then Some (c - 97 + 26)
  else if (48 <=? c) && (c <=? 57) then Some (c - 48 + 52)
  else if c =? 43 then Some 62
  else if c =? 47 then Some 63
  else None.

(** [str::trim_end_matches] of one character. *)
Fixpoint trim_end (c : Z) (s : bytes) : bytes :=
  match s with
  | [] => []
  | x :: s => match trim_end c s with
              | [] => if x =? c then [] else [x]
              | t => x :: t
              end
  end.

Fixpoint base64_go (s : bytes) (acc bits : Z) (out : bytes) : option bytes :=
  match s with
  | [] => Some out
  | c :: s =>
    v ← base64_val c;
    let acc := shift_in 6 acc v in
    let bits := bits + 6 in
    if 8 <=? bits then
      let bits := bits - 8 in
      base64_go s acc bits (out ++ [u8 (Z.shiftr acc bits)])
    else base64_go s acc bits out
  end.

Definition base64_decode (s : bytes) : option bytes := base64_go (trim_end 61 s) 0 0 [].

(** One [chunks(3)] item. *)
Definition base64_chunk (c : bytes) : bytes :=
  let n := length c in
  let v := Z.lor (Z.lor (Z.shiftl (default 0 (c !! 0%nat)) 16) (Z.shiftl (default 0 (c !! 1%nat)) 8)) (default 0 (c !! 2%nat)) in
  map (fun i => if (i <=? n)%nat then digit_of B64 (Z.land (Z.shiftr v (18 - 6 * Z.of_nat i)) 63) else 61) (seq 0 4).

Fixpoint base64_encode (d : bytes) : bytes :=
  match d with
  | [] => []
  | a :: b :: c :: d => base64_chunk [a; b; c] ++ base64_encode d
  | d => base64_chunk d
  end.

(** ** UTF-8 *)

Definition cont (b : Z) : bool := (128 <=? b) && (b <=? 191).
Definition between (lo hi b : Z) : bool := (lo <=? b) && (b <=? hi).

(** The second bytes [str::from_utf8] accepts after the first byte of a three- or four-byte
    character. *)
Definition second3 (a b : Z) : bool :=
  if a =? 224 then between 160 191 b else if a =? 237 then between 128 159 b else cont b.
Definition second4 (a b : Z) : bool :=
  if a =? 240 then between 144 191 b else if a =? 244 then between 128 143 b else cont b.

(** [str::from_utf8] and [chars]. *)
Fixpoint utf8_chars (s : bytes) : option (list Z) :=
  match s with
  | [] => Some []
  | a :: s =>
    if a <? 128 then cons a <$> utf8_chars s
    else if between 194 223 a then
      match s with
      | b :: s => if cont b then cons ((a - 192) * 64 + (b - 128)) <$> utf8_chars s else None
      | _ => None
      end
    else if between 224 239 a then
      match s with
      | b :: c :: s =>
        if second3 a b && cont c then cons ((a - 224) * 4096 + (b - 128) * 64 + (c - 128)) <$> utf8_chars s else None
      | _ => None
      end
    else if between 240 244 a then
      match s with
      | b :: c :: d :: s =>
        if second4 a b && cont c && cont d
        then cons ((a - 240) * 262144 + (b - 128) * 4096 + (c - 128) * 64 + (d - 128)) <$> utf8_chars s else None
      | _ => None
      end
    else None
  end.

(** The bytes of a [String] of the given characters. *)
Definition utf8_char_bytes (c : Z) : bytes :=
  if c <? 128 then [c]
  else if c <? 2048 then [192 + c / 64; 128 + c mod 64]
  else if c <? 65536 then [224 + c / 4096; 128 + (c / 64) mod 64; 128 + c mod 64]
  else [240 + c / 262144; 128 + (c / 4096) mod 64; 128 + (c / 64) mod 64; 128 + c mod 64].
Definition utf8_bytes (l : list Z) : bytes := concat (map utf8_char_bytes l).

(** [char::is_whitespace]: Unicode's White_Space. *)
Definition is_whitespace (c : Z) : bool :=
  (c =? 32) || between 9 13 c || (c =? 133) || (c =? 160) || (c =? 5760) || between 8192 8202 c
  || (c =? 8232) || (c =? 8233) || (c =? 8239) || (c =? 8287) || (c =? 12288).

(** ** Splitting *)

Fixpoint starts_with (pat s : list Z) : bool :=
  match pat, s with
  | [], _ => true
  | p :: pat, x :: s => (p =? x) && starts_with pat s
  | _ :: _, [] => false
  end.

(** [str::split] of a nonempty pattern: [skip] characters of a match are still to be passed over,
    [cur] is the piece so far. *)
Fixpoint split_go (pat : list Z) (skip : nat) (cur s : list Z) : list (list Z) :=
  match s with
  | [] => [cur]
  | x :: s' =>
    match skip with
    | S n => split_go pat n cur s'
    | O => if starts_with pat s then cur :: split_go pat (length pat - 1) [] s' else split_go pat 0 (cur ++ [x]) s'
    end
  end.

Definition str_split (pat s : list Z) : list (list Z) := split_go pat 0 [] s.

(** [chunks(n)] of a slice, by fuel (its length is enough). *)
Fixpoint chunks_go (fuel : nat) (n : nat) (l : bytes) : list bytes :=
  match fuel, l with
  | _, [] => []
  | O, _ => []
  | S fuel, _ => take n l :: chunks_go fuel n (drop n l)
  end.
Definition chunks (n : nat) (l : bytes) : list bytes := chunks_go (length l) n l.

(** ** base32 round trip *)

Lemma land_low n x : 0 <= n -> Z.land x (2 ^ n - 1) = x mod 2 ^ n.
Proof. intros. by rewrite Z.sub_1_r, <-Z.ones_equiv, Z.land_ones. Qed.

Lemma position_digit v : 0 <= v < 32 -> position (digit_of B32 v) B32 = Some v.
Proof.
  intros H. assert (v ∈ seqZ 0 32) as Hin by (apply elem_of_seqZ; lia). clear H. revert v Hin.
  apply Forall_forall. by repeat constructor.
Qed.

Lemma base32_drain_out n buf bits out :
  base32_drain n buf bits out = ((base32_drain n buf bits []).1, out ++ (base32_drain n buf bits []).2).
Proof.
  revert bits out. induction n as [|n IH]; intros bits out; cbn; [by rewrite app_nil_r|].
  destruct (5 <=? bits); [|by rewrite app_nil_r]. rewrite (IH _ (out ++ _)), (IH _ [_]). cbn. by rewrite <-app_assoc.
Qed.

Lemma base32_go_out data buf bits out : base32_go data buf bits out = out ++ base32_go data buf bits [].
Proof.
  revert buf bits out. induction data as [|b data IH]; intros buf bits out; cbn [base32_go].
  - destruct (0 <? bits); [done|by rewrite app_nil_r].
  - rewrite (base32_drain_out _ _ _ out). destruct (base32_drain _ _ _ []) as [bits' o]. cbn.
    rewrite (IH _ _ (out ++ o)), (IH _ _ o). by rewrite app_assoc.
Qed.

(** One character read back. *)
Lemma unbase32_char v s buf bits out :
  0 <= v < 32 ->
  unbase32_go (digit_of B32 v :: s) buf bits out =
  if 8 <=? bits + 5 then unbase32_go s (shift_in 5 buf v) (bits - 3) (out ++ [u8 (Z.shiftr (shift_in 5 buf v) (bits - 3))])
  else unbase32_go s (shift_in 5 buf v) (bits + 5) out.
Proof. intros Hv. cbn [unbase32_go]. rewrite position_digit by done. cbn. by replace (bits + 5 - 8) with (bits - 3) by lia. Qed.

(** What is still between the writer, with [e] bits left in [buf], and the reader: the byte whose
    high bits the reader has in [dbuf]. *)
Definition pending (e buf dbuf : Z) : bytes :=
  if e =? 0 then [] else [dbuf mod 2 ^ (8 - e) * 2 ^ e + buf mod 2 ^ e].

Definition read_bits (e : Z) : Z := if e =? 0 then 0 else 8 - e.


Definition b32_at (buf i : Z) : Z := digit_of B32 (Z.shiftr buf i mod 2 ^ 5).

Lemma base32_drain_eq e buf :
  0 <= e < 5 ->
  base32_drain (Z.to_nat (e + 8)) buf (e + 8) []
  = if e <? 2 then (e + 3, [b32_at buf (e + 3)]) else (e - 2, [b32_at buf (e + 3); b32_at buf (e - 2)]).
Proof.
  intros He. unfold b32_at. rewrite <-!(land_low 5) by done.
  assert (e = 0 \/ e = 1 \/ e = 2 \/ e = 3 \/ e = 4) as [->|[->|[->|[->| ->]]]] by lia; reflexivity.
Qed.

(** Equality of lists, element by element. *)
Ltac f_equal_list := match goal with |- _ ++ _ = _ ++ _ => f_equal | |- _ :: _ = _ :: _ => f_equal end.

(** Evaluates the closed powers of two of the goal. *)
Ltac eval_pow := repeat match goal with |- context [2 ^ ?e] => let v := eval vm_compute in (2 ^ e) in change (2 ^ e) with v end.

Ltac euclid := Z.to_euclidean_division_equations; lia.

(** The characters of a byte after [e] bits. *)
Lemma b32_first e buf b buf1 q :
  0 <= e < 5 -> 0 <= b < 256 -> buf1 = buf * 2 ^ 8 + b + 4294967296 * q ->
  Z.shiftr buf1 (e + 3) mod 2 ^ 5 = buf mod 2 ^ e * 2 ^ (5 - e) + b / 2 ^ (e + 3).
Proof.
  intros He Hb ->. rewrite Z.shiftr_div_pow2 by lia.
  assert (e = 0 \/ e = 1 \/ e = 2 \/ e = 3 \/ e = 4) as [->|[->|[->|[->| ->]]]] by lia; cbn -[Z.modulo Z.div Z.mul Z.add]; euclid.
Qed.

Lemma b32_second e buf b buf1 q :
  2 <= e < 5 -> 0 <= b < 256 -> buf1 = buf * 2 ^ 8 + b + 4294967296 * q ->
  Z.shiftr buf1 (e - 2) mod 2 ^ 5 = b / 2 ^ (e - 2) mod 2 ^ 5.
Proof.
  intros He Hb ->. rewrite Z.shiftr_div_pow2 by lia.
  assert (e = 2 \/ e = 3 \/ e = 4) as [->|[->| ->]] by lia; cbn -[Z.modulo Z.div Z.mul Z.add]; euclid.
Qed.

Lemma unbase32_base32_go data : forall e buf dbuf dout,
  0 <= e < 5 -> byte_list data ->
  unbase32_go (base32_go data buf e []) dbuf (read_bits e) dout = Some (dout ++ pending e buf dbuf ++ data).
Proof.
  induction data as [|b data IH]; intros e buf dbuf dout He Hd.
  - cbn [base32_go]. unfold pending, read_bits. destruct (e =? 0) eqn:E0.
    { replace (0 <? e) with false by lia. by rewrite !app_nil_r. }
    replace (0 <? e) with true by lia. cbn [app]. rewrite (land_low 5) by done.
    set (c := u32 _ mod _). assert (c = buf mod 2 ^ e * 2 ^ (5 - e)) as Hc.
    { unfold c, wrap. rewrite Z.shiftl_mul_pow2, (Z.mod_mod_divide _ (2 ^ 32)) by (try apply pow2_divide; lia).
      replace (2 ^ 5) with (2 ^ e * 2 ^ (5 - e)) by (rewrite <-Z.pow_add_r by lia; f_equal; lia).
      by rewrite Z.mul_mod_distr_r by lia. }
    rewrite unbase32_char by (apply Z.mod_pos_bound; lia). replace (8 <=? 8 - e + 5) with true by lia.
    cbn [unbase32_go app]. do 3 f_equal.
    unfold wrap. rewrite shift_out by (try apply Z.mod_pos_bound; lia). rewrite Hc.
    clear -He E0. assert (e = 1 \/ e = 2 \/ e = 3 \/ e = 4) as [->|[->|[->| ->]]] by lia; cbn -[Z.div Z.modulo Z.mul]; euclid.
  - inversion_clear Hd. cbn [base32_go]. rewrite base32_drain_eq by done.
    destruct (shift_in_eq 8 buf b ltac:(lia) ltac:(lia)) as [q Hm].
    set (buf1 := shift_in 8 buf b) in *. clearbody buf1.
    assert (forall i, 0 <= Z.shiftr buf1 i mod 2 ^ 5 < 32) as Hr by (intros; apply Z.mod_pos_bound; lia).
    pose proof (b32_first e buf b buf1 q He ltac:(lia) Hm) as H1.
    assert (forall i, 0 <= i <= 8 -> buf1 mod 2 ^ i = b mod 2 ^ i) as H3.
    { intros i Hi. rewrite Hm. replace (buf * 2 ^ 8 + b + 4294967296 * q) with (b + (buf * 2 ^ (8 - i) + q * 2 ^ (32 - i)) * 2 ^ i).
      - apply Z.mod_add. lia.
      - rewrite Z.mul_add_distr_r, <- !Z.mul_assoc, <- !Z.pow_add_r by lia.
        replace (8 - i + i) with 8 by lia. replace (32 - i + i) with 32 by lia. lia. }
    assert (2 <= e -> Z.shiftr buf1 (e - 2) mod 2 ^ 5 = b / 2 ^ (e - 2) mod 2 ^ 5) as H2
      by (intros; eapply b32_second; done || lia).
    assert (e = 0 \/ e = 1 \/ e = 2 \/ e = 3 \/ e = 4) as [->|[->|[->|[->| ->]]]] by lia;
      cbn -[unbase32_go base32_go b32_at pending]; rewrite base32_go_out; cbn [app]; unfold b32_at;
      rewrite unbase32_char by apply Hr; cbn -[unbase32_go base32_go pending Z.modulo Z.shiftr shift_in wrap];
      try (rewrite unbase32_char by apply Hr; cbn -[unbase32_go base32_go pending Z.modulo Z.shiftr shift_in wrap]).
    1: rewrite (IH 3) by done.
    2: rewrite (IH 4) by done.
    3: rewrite (IH 0) by done.
    4: rewrite (IH 1) by done.
    5: rewrite (IH 2) by done.
    all: unfold pending, wrap; cbn -[Z.modulo Z.shiftr shift_in Z.div Z.mul Z.add].
    all: try specialize (H2 ltac:(lia)); cbn -[Z.modulo Z.shiftr shift_in Z.div Z.mul Z.add] in H1, H2.
    all: rewrite H1, ?H2 in *.
    all: repeat match goal with |- context [shift_in 5 ?d ?v] =>
      let q := fresh "q" in let Eq := fresh "Eq" in
      destruct (shift_in_eq 5 d v ltac:(lia) ltac:(cbn -[Z.modulo Z.div Z.mul Z.add]; euclid)) as [q Eq]; rewrite Eq; clear Eq end.
    all: rewrite ?H3 by lia; clear H1 H2 H3 Hm IH Hr; f_equal; rewrite <- ?app_assoc; cbn [app]; repeat f_equal_list.
    all: rewrite ?Z.shiftr_div_pow2 by done; eval_pow; clear He.
    all: euclid.
Qed.

Lemma unbase32_base32 data : byte_list data -> unbase32 (base32 data) = Some data.
Proof. intros Hd. exact (unbase32_base32_go data 0 0 0 [] ltac:(lia) Hd). Qed.

(** ** Hexadecimal round trip *)

Lemma unhex_hex b : byte_list b -> unhex (hex b) = Some b.
Proof.
  induction 1 as [|x b Hx _ IH]; [done|]. unfold hex in *. cbn [map concat app unhex].
  assert (forall d, 0 <= d < 16 -> to_digit16 (hex_char d) = Some d /\ hex_char d <> 43) as Hd.
  { intros d Hd. assert (d ∈ seqZ 0 16) as Hin by (apply elem_of_seqZ; lia). clear Hd. revert d Hin.
    apply Forall_forall. repeat constructor; done. }
  destruct (Hd (x / 16)) as [E1 N1]; [euclid|]. destruct (Hd (x mod 16)) as [E2 _]; [euclid|].
  unfold u8_from_hex2. apply Z.eqb_neq in N1 as ->. rewrite E1, E2, IH. cbn. do 2 f_equal. euclid.
Qed.

(** ** base64 round trip *)

Lemma base64_digit v : 0 <= v < 64 -> base64_val (digit_of B64 v) = Some v /\ digit_of B64 v <> 61 /\ is_whitespace (digit_of B64 v) = false
  /\ digit_of B64 v <> 45 /\ 0 <= digit_of B64 v < 128.
Proof.
  intros H. assert (v ∈ seqZ 0 64) as Hin by (apply elem_of_seqZ; lia). clear H. revert v Hin.
  apply Forall_forall. repeat constructor; done.
Qed.

(** The digits of the encoding, and how many padding characters follow them. *)
Fixpoint sextets (d : bytes) : list Z :=
  match d with
  | [] => []
  | [a] => [a / 4; a mod 4 * 16]
  | [a; b] => [a / 4; a mod 4 * 16 + b / 16; b mod 16 * 4]
  | a :: b :: c :: d => a / 4 :: a mod 4 * 16 + b / 16 :: b mod 16 * 4 + c / 64 :: c mod 64 :: sextets d
  end.

Fixpoint padding (d : bytes) : nat :=
  match d with [] => 0 | [_] => 2 | [_; _] => 1 | _ :: _ :: _ :: d => padding d end.

(** Induction by threes. *)
Lemma triple_ind (P : bytes -> Prop) :
  P [] -> (forall a, P [a]) -> (forall a b, P [a; b]) -> (forall a b c d, P d -> P (a :: b :: c :: d)) -> forall d, P d.
Proof.
  intros H0 H1 H2 H3 d. enough (P d /\ (forall x, P (x :: d)) /\ (forall x y, P (x :: y :: d))) by tauto.
  induction d as [|a d (I0 & I1 & I2)]; auto.
Qed.

Ltac bytes_cons := unfold byte_list in *;
  repeat match goal with H : Forall _ (_ :: _) |- _ => apply Forall_cons in H as [? ?] end.

Lemma sextet_value a b c :
  0 <= a < 256 -> 0 <= b < 256 -> 0 <= c < 256 ->
  Z.lor (Z.lor (Z.shiftl a 16) (Z.shiftl b 8)) c = a * 65536 + b * 256 + c.
Proof.
  intros Ha Hb Hc. rewrite !Z.shiftl_mul_pow2 by done. rewrite (lor_low 16 (a * _)), (lor_low 8); eval_pow; try lia; euclid.
Qed.

Lemma base64_chunk3 a b c :
  0 <= a < 256 -> 0 <= b < 256 -> 0 <= c < 256 ->
  base64_chunk [a; b; c] = map (digit_of B64) (sextets [a; b; c]).
Proof.
  intros Ha Hb Hc. unfold base64_chunk. cbn -[Z.lor Z.shiftl Z.shiftr Z.land digit_of Z.mul Z.add Z.div Z.modulo].
  rewrite sextet_value by done. change 63 with (2 ^ 6 - 1). rewrite !land_low, !Z.shiftr_div_pow2 by done. eval_pow.
  repeat f_equal_list; f_equal; euclid.
Qed.

Lemma base64_chunk2 a b :
  0 <= a < 256 -> 0 <= b < 256 -> base64_chunk [a; b] = map (digit_of B64) (sextets [a; b]) ++ [61].
Proof.
  intros Ha Hb. unfold base64_chunk. cbn -[Z.lor Z.shiftl Z.shiftr Z.land digit_of Z.mul Z.add Z.div Z.modulo].
  rewrite sextet_value by done. change 63 with (2 ^ 6 - 1). rewrite !land_low, !Z.shiftr_div_pow2 by done. eval_pow.
  repeat f_equal_list; f_equal; euclid.
Qed.

Lemma base64_chunk1 a : 0 <= a < 256 -> base64_chunk [a] = map (digit_of B64) (sextets [a]) ++ [61; 61].
Proof.
  intros Ha. unfold base64_chunk. cbn -[Z.lor Z.shiftl Z.shiftr Z.land digit_of Z.mul Z.add Z.div Z.modulo].
  rewrite sextet_value by done. change 63 with (2 ^ 6 - 1). rewrite !land_low, !Z.shiftr_div_pow2 by done. eval_pow.
  repeat f_equal_list; f_equal; euclid.
Qed.

Lemma base64_encode_eq d : byte_list d -> base64_encode d = map (digit_of B64) (sextets d) ++ replicate (padding d) 61.
Proof.
  induction d as [|a|a b|a b c d IH] using triple_ind; intros Hd; [done| | |];
    bytes_cons.
  - by apply base64_chunk1.
  - by apply base64_chunk2.
  - cbn [base64_encode]. rewrite base64_chunk3, IH by done. cbn. done.
Qed.

Lemma sextets_range d : byte_list d -> Forall (fun v => 0 <= v < 64) (sextets d).
Proof.
  induction d as [|a|a b|a b c d IH] using triple_ind; intros Hd;
    bytes_cons; cbn; repeat constructor; auto; euclid.
Qed.

Lemma trim_end_pad k s : Forall (fun x => x <> 61) s -> trim_end 61 (s ++ replicate k 61) = s.
Proof.
  induction 1 as [|x s Hx _ IH]; cbn.
  - induction k as [|k IH]; [done|]. cbn. by rewrite IH.
  - rewrite IH. destruct s; [|done]. by apply Z.eqb_neq in Hx as ->.
Qed.

Lemma base64_char v s acc bits out :
  0 <= v < 64 ->
  base64_go (digit_of B64 v :: s) acc bits out =
  if 8 <=? bits + 6 then base64_go s (shift_in 6 acc v) (bits - 2) (out ++ [u8 (Z.shiftr (shift_in 6 acc v) (bits - 2))])
  else base64_go s (shift_in 6 acc v) (bits + 6) out.
Proof.
  intros Hv. cbn [base64_go]. destruct (base64_digit v Hv) as [-> _]. cbn. by replace (bits + 6 - 8) with (bits - 2) by lia.
Qed.

Lemma base64_go_sextets d : forall acc out,
  byte_list d -> base64_go (map (digit_of B64) (sextets d)) acc 0 out = Some (out ++ d).
Proof.
  induction d as [|a|a b|a b c d IH] using triple_ind; intros acc out Hd;
    bytes_cons; cbn [sextets map].
  1: by rewrite app_nil_r.
  all: rewrite base64_char by euclid; change (8 <=? 0 + 6) with false; cbv iota; change (0 + 6) with 6.
  all: rewrite base64_char by euclid; change (8 <=? 6 + 6) with true; cbv iota; change (6 - 2) with 4.
  2,3: rewrite base64_char by euclid; change (8 <=? 4 + 6) with true; cbv iota; change (4 - 2) with 2.
  3: rewrite base64_char by euclid; change (8 <=? 2 + 6) with true; cbv iota; change (2 - 2) with 0; rewrite IH by done.
  all: cbn [base64_go]; unfold wrap.
  all: repeat match goal with |- context [shift_in 6 ?d ?v] =>
      let q := fresh "q" in let Eq := fresh "Eq" in
      destruct (shift_in_eq 6 d v ltac:(lia) ltac:(eval_pow; euclid)) as [q Eq]; rewrite Eq; clear Eq end.
  all: f_equal; rewrite <- ?app_assoc; cbn [app]; repeat f_equal_list; rewrite ?Z.shiftr_div_pow2 by done; eval_pow.
  all: euclid.
Qed.

(** The digits are neither padding nor white space nor a dash, and ASCII. *)
Definition plain_digit (c : Z) : Prop := c <> 61 /\ is_whitespace c = false /\ c <> 45 /\ 0 <= c < 128.

Lemma digits_plain d : byte_list d -> Forall plain_digit (map (digit_of B64) (sextets d)).
Proof.
  intros Hd. apply Forall_map. eapply Forall_impl; [by apply sextets_range|]. intros v Hv. by apply base64_digit.
Qed.

Lemma base64_round_trip d : byte_list d -> base64_decode (base64_encode d) = Some d.
Proof.
  intros Hd. unfold base64_decode. rewrite base64_encode_eq by done. rewrite trim_end_pad.
  - by apply base64_go_sextets.
  - eapply Forall_impl; [by apply digits_plain|]. by intros c [? _].
Qed.

(** The text of an encoding: ASCII, without white space or dashes. *)
Lemma base64_text d : byte_list d -> Forall (fun c => is_whitespace c = false /\ c <> 45 /\ 0 <= c < 128) (base64_encode d).
Proof.
  intros Hd. rewrite base64_encode_eq by done. apply Forall_app. split.
  - eapply Forall_impl; [by apply digits_plain|]. by intros c [_ ?].
  - apply Forall_replicate. split; [done|lia].
Qed.
