(* ===== verification/Vault.v ===== *)
(** * Vault: sealed files

    Models crates/vault/src/lib.rs: a file is padded and cut into chunks, every chunk encrypted, each
    stripe of [k] chunks extended with [m] parity shards, and the list of shards kept in an
    encrypted manifest whose key is wrapped for every recipient.  The libraries are parameters:
    XChaCha20-Poly1305 ([Aead]), HPKE ([Hpke]), Reed-Solomon coding ([ReedSolomon]), SHA-256 and
    JSON ([Json], of the plain fields: the text forms of CIDs and byte fields are translated).  The
    random bytes [seal] draws are its argument. *)

From S2P Require Import Prelude Ipld TextCodec.
From stdpp Require Import base list list_numbers strings.
From Stdlib Require Import ZArith Lia.

Open Scope Z_scope.
Open Scope bolt_scope.

(** ** The libraries *)

(** Encryption and decryption by key, nonce, text and associated data. *)
Class Aead := {
  aead_encrypt : bytes -> bytes -> bytes -> bytes -> bytes;
  aead_decrypt : bytes -> bytes -> bytes -> bytes -> option bytes;
}.

Class AeadLaws (A : Aead) : Prop := {
  aead_open_seal : forall key nonce msg aad, aead_decrypt key nonce (aead_encrypt key nonce msg aad) aad = Some msg;
  aead_tag_length : forall key nonce msg aad, length (aead_encrypt key nonce msg aad) = (length msg + 16)%nat;
}.

(** Single-shot HPKE: sealing draws [rng]; an encapsulated key has a byte form. *)
Class Hpke := {
  PrivateKey : Type;
  PublicKey : Type;
  EncappedKey : Type;
  #[global] PublicKey_eq_dec :: EqDecision PublicKey;
  sk_to_pk : PrivateKey -> PublicKey;
  enc_to_bytes : EncappedKey -> bytes;
  enc_from_bytes : bytes -> option EncappedKey;
  single_shot_seal : PublicKey -> bytes -> bytes -> bytes -> EncappedKey * bytes;
  single_shot_open : PrivateKey -> EncappedKey -> bytes -> bytes -> option bytes;
}.

(** Opening is authenticated: only the key sealed to opens, and it gives what was sealed. *)
Class HpkeLaws (H : Hpke) : Prop := {
  hpke_enc_bytes : forall e, enc_from_bytes (enc_to_bytes e) = Some e;
  hpke_enc_range : forall e, byte_list (enc_to_bytes e);
  hpke_ct_range : forall pk info msg rng, byte_list msg -> byte_list (single_shot_seal pk info msg rng).2;
  hpke_open_seal : forall sk info msg rng,
    let '(e, ct) := single_shot_seal (sk_to_pk sk) info msg rng in single_shot_open sk e info ct = Some msg;
  hpke_open_other : forall sk pk info msg rng,
    sk_to_pk sk <> pk -> let '(e, ct) := single_shot_seal pk info msg rng in single_shot_open sk e info ct = None;
}.

(** [reed_solomon_erasure::galois_8::ReedSolomon]. *)
Class ReedSolomon := {
  Rs : Type;
  rs_new : Z -> Z -> option Rs;
  rs_encode : Rs -> list bytes -> option (list bytes);
  rs_reconstruct_data : Rs -> list (option bytes) -> option (list (option bytes));
}.

(** Encoding keeps the data shards and fills the parity shards; any [k] shards of a stripe give
    its data shards back. *)
Class ReedSolomonLaws (R : ReedSolomon) : Prop := {
  rs_encode_ok : forall k m rs data zeros n,
    rs_new k m = Some rs -> length data = Z.to_nat k -> length zeros = Z.to_nat m -> (0 < n)%nat ->
    Forall (fun s => length s = n) (data ++ zeros) ->
    exists parity, rs_encode rs (data ++ zeros) = Some (data ++ parity)
      /\ length parity = Z.to_nat m /\ Forall (fun s => length s = n) parity;
  rs_reconstruct_ok : forall k m rs data zeros parity n group,
    rs_new k m = Some rs -> length data = Z.to_nat k -> length zeros = Z.to_nat m -> (0 < n)%nat ->
    Forall (fun s => length s = n) (data ++ zeros) ->
    rs_encode rs (data ++ zeros) = Some (data ++ parity) ->
    Forall2 (fun g s => g = None \/ g = Some s) group (data ++ parity) ->
    (Z.to_nat k <= length (List.filter (fun g => bool_decide (is_Some g)) group))%nat ->
    exists group', rs_reconstruct_data rs group = Some group' /\ take (Z.to_nat k) group' = Some <$> data;
}.

(** [serde_json::to_vec] and [from_slice]. *)
Class Json (T : Type) := {
  json_to_vec : T -> bytes;
  json_from_slice : bytes -> option T;
}.

Class JsonLaws (T : Type) `{Json T} : Prop := json_round_trip : forall x : T, json_from_slice (json_to_vec x) = Some x.

(** ** Constants and errors *)

Definition VERSION : Z := 1.
Definition MAX_CHUNK : Z := 256 * 1024.
Definition MIN_CHUNK : Z := 4 * 1024.
Definition TAG : Z := 16.
Definition DEFAULT_K : Z := 4.
Definition DEFAULT_M : Z := 2.
Definition CHUNK_AAD : bytes := ascii_bytes "bolt-vault/v1/chunk".
Definition MANIFEST_AAD : bytes := ascii_bytes "bolt-vault/v1/manifest".
Definition KEY_INFO : bytes := ascii_bytes "bolt-vault/v1/key".

(** [Aborted] stands for a panic. *)
Inductive VaultError :=
  | InvalidParams
  | NotRecipient
  | Corrupt (what : string)
  | TooFewShards (stripe have need : Z)
  | Aborted.

(** Maps until the first error. *)
Fixpoint try_map {E A B} (f : A -> result E B) (l : list A) : result E (list B) :=
  match l with
  | [] => Ok []
  | x :: l => y <-? f x; r <-? try_map f l; Ok (y :: r)
  end.

Section vault.
Context `{Sh : Sha256} `{A : Aead} `{H : Hpke} `{R : ReedSolomon}.

(** ** CIDs: CIDv1 of a raw block, as its digest *)

Definition Cid := bytes.
Definition Cid_of (data : bytes) : Cid := sha256 data.
Definition CID_PREFIX : bytes := [1; 85; 18; 32].
Definition Cid_to_bytes (c : Cid) : bytes := CID_PREFIX ++ c.
Definition Cid_matches (c : Cid) (data : bytes) : bool := bool_decide (Cid_of data = c).
Definition Cid_fmt (c : Cid) : bytes := 98 :: base32 (Cid_to_bytes c).
Definition Cid_from_str (s : bytes) : option Cid :=
  match s with
  | 98 :: s =>
    b ← unbase32 s;
    if bool_decide (length b = 36%nat /\ take 4 b = CID_PREFIX) then Some (drop 4 b) else None
  | _ => None
  end.

(** ** Format *)

Definition ContentKey := bytes.
Definition ContentKey_from_bytes (b : bytes) : option ContentKey := if decide (length b = 32%nat) then Some b else None.

Record WrappedKey := mkWrappedKey { wk_enc : bytes; wk_ct : bytes }.

Record Envelope := mkEnvelope {
  en_v : Z;
  en_manifest : Cid;
  en_nonce : bytes;
  en_keys : list WrappedKey;
}.

Record Manifest := mkManifest {
  mf_v : Z;
  mf_name : bytes;
  mf_mime : bytes;
  mf_size : Z;
  mf_chunk : Z;
  mf_chunks : Z;
  mf_k : Z;
  mf_m : Z;
  mf_nonce_prefix : bytes;
  mf_shards : list Cid;
}.

(** The JSON fields: hexadecimal text for bytes, the CIDs' text form. *)
Record EnvelopeJson := mkEnvelopeJson { ej_v : Z; ej_manifest : bytes; ej_nonce : bytes; ej_keys : list (bytes * bytes) }.
Record ManifestJson := mkManifestJson {
  mj_v : Z; mj_name : bytes; mj_mime : bytes; mj_size : Z; mj_chunk : Z; mj_chunks : Z; mj_k : Z; mj_m : Z;
  mj_nonce_prefix : bytes; mj_shards : list bytes;
}.

Context `{JE : Json EnvelopeJson} `{JM : Json ManifestJson}.

Definition WrappedKey_json (w : WrappedKey) : bytes * bytes := (hex (wk_enc w), hex (wk_ct w)).
Definition WrappedKey_of_json (j : bytes * bytes) : option WrappedKey :=
  enc ← unhex j.1; ct ← unhex j.2; Some (mkWrappedKey enc ct).

Definition Envelope_to_vec (e : Envelope) : bytes :=
  json_to_vec (mkEnvelopeJson (en_v e) (Cid_fmt (en_manifest e)) (hex (en_nonce e)) (map WrappedKey_json (en_keys e))).
Definition Envelope_from_slice (data : bytes) : option Envelope :=
  j ← json_from_slice data;
  manifest ← Cid_from_str (ej_manifest j);
  nonce ← unhex (ej_nonce j);
  keys ← mapM WrappedKey_of_json (ej_keys j);
  Some (mkEnvelope (ej_v j) manifest nonce keys).

Definition Manifest_to_vec (m : Manifest) : bytes :=
  json_to_vec (mkManifestJson (mf_v m) (mf_name m) (mf_mime m) (mf_size m) (mf_chunk m) (mf_chunks m) (mf_k m) (mf_m m)
    (hex (mf_nonce_prefix m)) (map Cid_fmt (mf_shards m))).
Definition Manifest_from_slice (data : bytes) : option Manifest :=
  j ← json_from_slice data;
  prefix ← unhex (mj_nonce_prefix j);
  shards ← mapM Cid_from_str (mj_shards j);
  Some (mkManifest (mj_v j) (mj_name j) (mj_mime j) (mj_size j) (mj_chunk j) (mj_chunks j) (mj_k j) (mj_m j) prefix shards).

Definition stripes (m : Manifest) : result VaultError Z :=
  if mf_k m =? 0 then Err Aborted else Ok (mf_chunks m / mf_k m).

Record Block := mkBlock { bk_cid : Cid; bk_data : bytes }.
Definition Block_new (data : bytes) : Block := mkBlock (Cid_of data) data.

Record Sealed := mkSealed {
  sd_envelope : Block;
  sd_manifest : Block;
  sd_shards : list Block;
  sd_key : ContentKey;
}.
Definition blocks (s : Sealed) : list Block := sd_envelope s :: sd_manifest s :: sd_shards s.

Record Options := mkOptions { op_k : Z; op_m : Z }.
Definition Options_default : Options := mkOptions DEFAULT_K DEFAULT_M.

(** The random bytes of one [seal]. *)
Record SealRandom := mkSealRandom {
  sr_key : bytes;
  sr_prefix : bytes;
  sr_nonce : bytes;
  sr_wrap : nat -> bytes;
}.

(** ** Layout *)

(** Three rounds take the smallest chunk to the largest. *)
Fixpoint layout_loop (fuel : nat) (size k chunk : Z) : Z :=
  match fuel with
  | O => chunk
  | S fuel => if (chunk <? MAX_CHUNK) && (u64 (chunk * k) <=? size) then layout_loop fuel size k (chunk * 4) else chunk
  end.

(** Dividing by an empty stripe panics. *)
Definition layout (size k : Z) : result VaultError (Z * Z) :=
  let chunk := layout_loop 3 size k MIN_CHUNK in
  let stripe := u64 (chunk * k) in
  if stripe =? 0 then Err Aborted
  else let stripes := Z.max (div_ceil size stripe) 1 in
       Ok (chunk, u64 (stripes * k)).

Definition chunk_nonce (prefix : bytes) (index : Z) : bytes := prefix ++ be_bytes 8 index.
Definition chunk_aad (chunks : Z) : bytes := CHUNK_AAD ++ be_bytes 4 chunks.

(** ** Sealing *)

Definition wrap_key (key : ContentKey) (to : PublicKey) (rng : bytes) : WrappedKey :=
  let '(enc, ct) := single_shot_seal to KEY_INFO key rng in mkWrappedKey (enc_to_bytes enc) ct.

Definition unwrap_key (w : WrappedKey) (sk : PrivateKey) : option ContentKey :=
  enc ← enc_from_bytes (wk_enc w);
  k ← single_shot_open sk enc KEY_INFO (wk_ct w);
  ContentKey_from_bytes k.

(** The padded bytes of chunk [index]. *)
Definition plain_chunk (data : bytes) (chunk index : Z) : bytes :=
  let len := Z.of_nat (length data) in
  let start := Z.min (index * chunk) len in
  let stop := Z.min ((index + 1) * chunk) len in
  take (Z.to_nat (stop - start)) (drop (Z.to_nat start) data) ++ replicate (Z.to_nat (chunk - (stop - start))) 0.

Definition seal_chunk (key prefix aad data : bytes) (chunk index : Z) : bytes :=
  aead_encrypt key (chunk_nonce prefix index) (plain_chunk data chunk index) aad.

Definition seal_stripe (rs : option Rs) (key prefix aad data : bytes) (chunk k m stripe : Z) : result VaultError (list bytes) :=
  let group := map (fun j => seal_chunk key prefix aad data chunk (stripe * k + j)) (seqZ 0 k) in
  match rs with
  | Some rs => ok_or (rs_encode rs (group ++ replicate (Z.to_nat m) (replicate (Z.to_nat (chunk + TAG)) 0))) InvalidParams
  | None => Ok group
  end.

Definition code_of (k m : Z) : result VaultError (option Rs) :=
  if 0 <? m then rs <-? ok_or (rs_new k m) InvalidParams; Ok (Some rs) else Ok None.

Definition seal (data name mime : bytes) (recipients : list PublicKey) (opts : Options) (rng : SealRandom) : result VaultError Sealed :=
  let k := op_k opts in
  let m := op_m opts in
  if negb ((1 <=? k) && (k <=? 32)) || (32 <? m) then Err InvalidParams else
  if bool_decide (length recipients = 0%nat) then Err InvalidParams else
  let key := sr_key rng in
  let size := Z.of_nat (length data) in
  lay <-? layout size k;
  let '(chunk, chunks) := lay in
  let prefix := sr_prefix rng in
  let aad := chunk_aad (u32 chunks) in
  rs <-? code_of k m;
  groups <-? try_map (seal_stripe rs key prefix aad data chunk k m) (seqZ 0 (chunks / k));
  let shards := map Block_new (concat groups) in
  let manifest := mkManifest VERSION name mime size (u32 chunk) (u32 chunks) (u8 k) (u8 m) prefix (map bk_cid shards) in
  let nonce := sr_nonce rng in
  let manifest_block := Block_new (aead_encrypt key nonce (Manifest_to_vec manifest) MANIFEST_AAD) in
  let envelope := mkEnvelope VERSION (bk_cid manifest_block) nonce
                    (imap (fun i to => wrap_key key to (sr_wrap rng i)) recipients) in
  Ok (mkSealed (Block_new (Envelope_to_vec envelope)) manifest_block shards key).

(** ** Opening *)

Definition parse_envelope (data : bytes) : result VaultError Envelope :=
  e <-? ok_or (Envelope_from_slice data) (Corrupt "envelope");
  if negb (en_v e =? VERSION) || negb (bool_decide (length (en_nonce e) = 24%nat)) then Err (Corrupt "unsupported envelope") else Ok e.

Fixpoint find_key (keys : list WrappedKey) (sk : PrivateKey) : option ContentKey :=
  match keys with
  | [] => None
  | w :: keys => match unwrap_key w sk with Some k => Some k | None => find_key keys sk end
  end.
Definition open_key (e : Envelope) (sk : PrivateKey) : result VaultError ContentKey := ok_or (find_key (en_keys e) sk) NotRecipient.

Definition add_recipient (e : Envelope) (key : ContentKey) (to : PublicKey) (rng : bytes) : Block :=
  Block_new (Envelope_to_vec (mkEnvelope (en_v e) (en_manifest e) (en_nonce e) (en_keys e ++ [wrap_key key to rng]))).

Definition open_manifest (e : Envelope) (manifest_block : bytes) (key : ContentKey) : result VaultError Manifest :=
  if negb (Cid_matches (en_manifest e) manifest_block) then Err (Corrupt "manifest block does not match its CID") else
  if negb (bool_decide (length (en_nonce e) = 24%nat)) then Err (Corrupt "envelope nonce") else
  plain <-? ok_or (aead_decrypt key (en_nonce e) manifest_block MANIFEST_AAD) (Corrupt "manifest fails authentication");
  m <-? ok_or (Manifest_from_slice plain) (Corrupt "manifest");
  let k := mf_k m in
  let chunks := mf_chunks m in
  lay <-? layout (mf_size m) k;
  let '(chunk, expected_chunks) := lay in
  if negb (mf_v m =? VERSION) || (k =? 0) || negb (bool_decide (length (mf_nonce_prefix m) = 16%nat))
     || negb (mf_chunk m =? chunk) || negb (chunks =? expected_chunks)
     || negb (Z.of_nat (length (mf_shards m)) =? chunks / k * (k + mf_m m))
  then Err (Corrupt "inconsistent manifest") else Ok m.

(** Shard [i], if it is there and intact. *)
Definition intact (man : Manifest) (shards : list (option bytes)) (i : Z) : result VaultError (option bytes) :=
  match shards !! Z.to_nat i with
  | None => Err Aborted
  | Some None => Ok None
  | Some (Some d) =>
    if Z.of_nat (length d) =? mf_chunk man + TAG then
      match mf_shards man !! Z.to_nat i with
      | None => Err Aborted
      | Some c => Ok (if Cid_matches c d then Some d else None)
      end
    else Ok None
  end.

Definition count_some (group : list (option bytes)) : Z := Z.of_nat (length (List.filter (fun g => bool_decide (is_Some g)) group)).

Definition open_chunk (man : Manifest) (key : ContentKey) (aad : bytes) (index : Z) (ct : option bytes) : result VaultError bytes :=
  ct <-? ok_or ct Aborted;
  ok_or (aead_decrypt key (chunk_nonce (mf_nonce_prefix man) index) ct aad) (Corrupt "chunk fails authentication").

Definition recover_stripe (man : Manifest) (rs : option Rs) (key : ContentKey) (aad : bytes) (shards : list (option bytes))
    (stripe : Z) : result VaultError bytes :=
  let k := mf_k man in
  let per := k + mf_m man in
  group <-? try_map (fun j => intact man shards (stripe * per + j)) (seqZ 0 per);
  let have := count_some group in
  group <-? (if forallb (fun g => bool_decide (is_Some g)) (take (Z.to_nat k) group) then Ok group
             else if have <? k then Err (TooFewShards stripe have k)
             else match rs with
                  | None => Err Aborted
                  | Some rs => ok_or (rs_reconstruct_data rs group) (Corrupt "reconstruction")
                  end);
  plains <-? try_map (fun '(j, ct) => open_chunk man key aad (stripe * k + j) ct) (zip (seqZ 0 k) (take (Z.to_nat k) group));
  Ok (concat plains).

Definition recover (man : Manifest) (key : ContentKey) (shards : list (option bytes)) : result VaultError bytes :=
  if negb (bool_decide (length shards = length (mf_shards man))) then Err InvalidParams else
  let aad := chunk_aad (mf_chunks man) in
  rs <-? code_of (mf_k man) (mf_m man);
  n <-? stripes man;
  out <-? try_map (recover_stripe man rs key aad shards) (seqZ 0 n);
  Ok (take (Z.to_nat (mf_size man)) (concat out)).

Definition open (envelope_block : bytes) (sk : PrivateKey) (get : Cid -> option bytes) : result VaultError (Manifest * bytes) :=
  e <-? parse_envelope envelope_block;
  key <-? open_key e sk;
  mblock <-? ok_or (get (en_manifest e)) (Corrupt "manifest block missing");
  man <-? open_manifest e mblock key;
  data <-? recover man key (map get (mf_shards man));
  Ok (man, data).
End vault.
