(* ===== verification/VaultFacts.v ===== *)
(** * What a sealed file gives back

    The layout of a file, the round trips of the envelope and the manifest, the split of a file
    into padded chunks and back, and the recovery of a stripe from its intact shards. *)

From S2P Require Import Prelude Ipld TextCodec Vault.
From stdpp Require Import base list list_numbers strings.
From Stdlib Require Import ZArith Lia.

Open Scope Z_scope.
Open Scope bolt_scope.

(** A SHA-256 digest is 32 bytes. *)
Class Sha256Bytes (Sh : Sha256) : Prop := sha256_bytes : forall d, length (sha256 d) = 32%nat /\ byte_list (sha256 d).

(** ** Sequences *)

Lemma try_map_ok {E A B} (f : A -> result E B) (g : A -> B) l :
  (forall x, x ∈ l -> f x = Ok (g x)) -> try_map f l = Ok (map g l).
Proof.
  induction l as [|x l IH]; intros Hf; [done|]. cbn. rewrite Hf by left. cbn. rewrite IH by (intros; apply Hf; by right). done.
Qed.

(** Either every item gives its value, or the first that does not gives the error. *)
Lemma try_map_first {E A B} (f : A -> result E B) (g : A -> B) (bad : E -> Prop) l :
  (forall x, x ∈ l -> f x = Ok (g x) \/ exists e, f x = Err e /\ bad e) ->
  try_map f l = Ok (map g l) \/ exists e, try_map f l = Err e /\ bad e.
Proof.
  induction l as [|x l IH]; intros Hf; [by left|]. cbn.
  destruct (Hf x) as [->|(e & -> & He)]; [by left| |by right; exists e].
  cbn. destruct IH as [->|(e & -> & He)]; [intros; apply Hf; by right|by left|by right; exists e].
Qed.

Lemma try_map_groups {E A B} (f : A -> result E B) (P : A -> B -> Prop) l :
  (forall x, x ∈ l -> exists y, f x = Ok y /\ P x y) -> exists ys, try_map f l = Ok ys /\ Forall2 P l ys.
Proof.
  induction l as [|x l IH]; intros Hf; [by exists []; split; [|constructor]|].
  destruct (Hf x) as (y & Ey & Py); [by left|]. destruct IH as (ys & Eys & Pys); [intros; apply Hf; by right|].
  exists (y :: ys). cbn. rewrite Ey. cbn. rewrite Eys. split; [done|by constructor].
Qed.

Lemma mapM_map_some {A B C} (f : B -> option C) (g : A -> B) (h : A -> C) l :
  Forall (fun x => f (g x) = Some (h x)) l -> mapM f (map g l) = Some (map h l).
Proof. induction 1 as [|x l Hx _ IH]; [done|]. cbn. rewrite Hx. cbn. by rewrite IH. Qed.

(** Item [j] of group [i] in the concatenation of groups of one length. *)
Lemma concat_lookup {A} (groups : list (list A)) per i j g :
  Forall (fun g => length g = per) groups -> groups !! i = Some g -> (j < per)%nat ->
  concat groups !! (i * per + j)%nat = g !! j.
Proof.
  intros Hall. revert i. induction Hall as [|g0 groups Hg _ IH]; intros i Hi Hj; [done|]. cbn.
  destruct i as [|i]; cbn in Hi.
  - injection Hi as ->. rewrite lookup_app_l by lia. done.
  - rewrite lookup_app_r by lia. rewrite <-(IH i) by done. f_equal. lia.
Qed.

Lemma concat_even_length {A} (groups : list (list A)) per :
  Forall (fun g => length g = per) groups -> length (concat groups) = (length groups * per)%nat.
Proof. induction 1 as [|g groups Hg _ IH]; [done|]. cbn. rewrite length_app, IH, Hg. lia. Qed.

Lemma seqZ_split n k : 0 <= n -> 0 <= k ->
  concat (map (fun i => map (fun j => i * k + j) (seqZ 0 k)) (seqZ 0 n)) = seqZ 0 (n * k).
Proof.
  intros Hn Hk. pattern n. apply natlike_ind; [done| |done]. clear n Hn. intros n Hn IH.
  rewrite <-Z.add_1_r, seqZ_app, map_app, concat_app, IH by lia. cbn [seqZ map concat].
  replace ((n + 1) * k) with (n * k + k) by lia. rewrite (seqZ_app 0 (n * k)) by lia. f_equal.
  change (seqZ (0 + n) 1) with [0 + n]. cbn. rewrite app_nil_r.
  rewrite (Z.add_comm 0 (n * k)), <-(fmap_add_seqZ (n * k) 0 k). apply map_ext. intros; lia.
Qed.

(** ** Layout *)

Lemma layout_chunk size k :
  let chunk := layout_loop 3 size k MIN_CHUNK in
  (chunk = 4096 \/ chunk = 16384 \/ chunk = 65536 \/ chunk = 262144) /\ (chunk = 262144 \/ size < u64 (chunk * k)).
Proof.
  change MIN_CHUNK with 4096. unfold layout_loop. change (4096 * 4) with 16384. change (16384 * 4) with 65536. change (65536 * 4) with 262144.
  change (4096 <? MAX_CHUNK) with true. change (16384 <? MAX_CHUNK) with true. change (65536 <? MAX_CHUNK) with true. cbn [andb].
  destruct (_ <=? size) eqn:?; [destruct (u64 (16384 * k) <=? size) eqn:?; [destruct (u64 (65536 * k) <=? size) eqn:?|]|]; cbn zeta; lia.
Qed.

(** The chunks hold the file, and their number fits the manifest's 32 bits. *)
Lemma layout_ok size k :
  0 <= size < 2 ^ 49 -> 1 <= k <= 255 ->
  exists chunk n, layout size k = Ok (chunk, n * k) /\ 4096 <= chunk <= 262144 /\ 1 <= n /\ size <= n * k * chunk
    /\ n * k < 2 ^ 32.
Proof.
  intros Hs Hk. unfold layout. pose proof (layout_chunk size k) as [Hc Hl]. cbn zeta in Hc, Hl.
  set (chunk := layout_loop 3 size k MIN_CHUNK) in *. clearbody chunk.
  assert (4096 <= chunk <= 262144) by lia. rewrite (wrap_small 64 (chunk * k)) in * by (unfold in_range; nia).
  replace (chunk * k =? 0) with false by nia. unfold div_ceil.
  set (n := Z.max _ 1). exists chunk, n.
  assert (size <= n * (chunk * k)) by (unfold n; pose proof (Z.div_mod (size + chunk * k - 1) (chunk * k)); pose proof (Z.mod_pos_bound (size + chunk * k - 1) (chunk * k)); nia).
  assert (n * k < 2 ^ 32).
  { destruct Hl as [->|Hl].
    - assert (n <= size / (262144 * k) + 1).
      { unfold n. apply Z.max_lub; [|assert (0 <= size / (262144 * k)) by (apply Z.div_pos; nia); lia].
        replace (size + 262144 * k - 1) with ((size - 1) + 1 * (262144 * k)) by lia. rewrite Z.div_add by lia.
        pose proof (Z.div_le_mono (size - 1) size (262144 * k)). lia. }
      pose proof (Z.mul_div_le size (262144 * k)). nia.
    - assert (n = 1) as -> by (unfold n; assert ((size + chunk * k - 1) / (chunk * k) <= 1) by
        (apply Z.lt_succ_r, Z.div_lt_upper_bound; nia); lia). lia. }
  rewrite wrap_small by (unfold in_range; unfold n in *; nia). repeat split; try lia; nia.
Qed.

(** ** Chunks *)

Lemma plain_chunk_length data chunk i : 0 <= chunk -> 0 <= i -> length (plain_chunk data chunk i) = Z.to_nat chunk.
Proof. intros Hc Hi. unfold plain_chunk. rewrite length_app, length_take, length_drop, length_replicate. nia. Qed.

(** The chunks one after another are the file and its padding. *)
Lemma plain_chunks data chunk n :
  0 <= chunk -> 0 <= n ->
  concat (map (plain_chunk data chunk) (seqZ 0 n))
  = take (Z.to_nat (n * chunk)) data ++ replicate (Z.to_nat (n * chunk) - length data) 0.
Proof.
  intros Hc Hn. pattern n. apply natlike_ind; [done| |done]. clear n Hn. intros n Hn IH.
  rewrite <-Z.add_1_r, seqZ_app, map_app, concat_app, IH by lia.
  change (seqZ (0 + n) 1) with [0 + n]. cbn [map concat]. rewrite app_nil_r. unfold plain_chunk.
  replace (0 + n) with n by lia. set (len := length data).
  destruct (decide (n * chunk <= Z.of_nat len)) as [Hle|Hgt].
  - replace (Z.to_nat (n * chunk) - len)%nat with 0%nat by lia. cbn [replicate]. rewrite app_nil_r, app_assoc.
    rewrite (Z.min_l (n * chunk)) by lia. f_equal.
    + rewrite take_take_drop. destruct (decide ((n + 1) * chunk <= Z.of_nat len)).
      * f_equal. lia.
      * rewrite !take_ge by lia. done.
    + f_equal. lia.
  - rewrite (Z.min_r (n * chunk)), (Z.min_r ((n + 1) * chunk)) by lia. rewrite Z.sub_diag. change (Z.to_nat 0) with 0%nat. rewrite take_0.
    rewrite !take_ge by lia. cbn [app]. rewrite <-app_assoc, <-replicate_add. do 2 f_equal. lia.
Qed.

(** ** Text forms *)

Section codecs.
Context `{Sh : Sha256} `{!Sha256Bytes Sh} `{H : Hpke} `{!HpkeLaws H}.
Context `{JE : Json EnvelopeJson} `{!JsonLaws EnvelopeJson} `{JM : Json ManifestJson} `{!JsonLaws ManifestJson}.

Lemma Cid_text c : length c = 32%nat -> byte_list c -> Cid_from_str (Cid_fmt c) = Some c.
Proof.
  intros Hl Hc. unfold Cid_from_str, Cid_fmt, Cid_to_bytes. rewrite unbase32_base32.
  - cbn [mbind option_bind]. rewrite bool_decide_true; [done|]. cbn. by rewrite Hl, take_0.
  - unfold CID_PREFIX. repeat constructor; try lia. exact Hc.
Qed.

Definition keys_bytes (keys : list WrappedKey) : Prop := Forall (fun w => byte_list (wk_enc w) /\ byte_list (wk_ct w)) keys.

Lemma WrappedKey_text keys : keys_bytes keys -> mapM WrappedKey_of_json (map WrappedKey_json keys) = Some keys.
Proof.
  intros Hk. rewrite <-(map_id keys) at 2. apply mapM_map_some. eapply Forall_impl; [exact Hk|].
  intros [enc ct] [He Hc]. unfold WrappedKey_of_json, WrappedKey_json. cbn [fst snd wk_enc wk_ct] in *.
  rewrite unhex_hex by done. cbn [mbind option_bind]. by rewrite unhex_hex.
Qed.

Lemma Envelope_text e :
  length (en_manifest e) = 32%nat -> byte_list (en_manifest e) -> byte_list (en_nonce e) -> keys_bytes (en_keys e) ->
  Envelope_from_slice (Envelope_to_vec e) = Some e.
Proof.
  intros Hl Hm Hn Hk. unfold Envelope_from_slice, Envelope_to_vec. rewrite json_round_trip. cbn [mbind option_bind ej_v ej_manifest ej_nonce ej_keys].
  rewrite Cid_text by done. cbn [mbind option_bind]. rewrite unhex_hex by done. cbn [mbind option_bind].
  rewrite WrappedKey_text by done. by destruct e.
Qed.

Lemma Manifest_text m :
  byte_list (mf_nonce_prefix m) -> Forall (fun c => length c = 32%nat /\ byte_list c) (mf_shards m) ->
  Manifest_from_slice (Manifest_to_vec m) = Some m.
Proof.
  intros Hp Hs. unfold Manifest_from_slice, Manifest_to_vec. rewrite json_round_trip.
  cbn [mbind option_bind mj_v mj_name mj_mime mj_size mj_chunk mj_chunks mj_k mj_m mj_nonce_prefix mj_shards].
  rewrite unhex_hex by done. cbn [mbind option_bind].
  rewrite (mapM_map_some Cid_from_str Cid_fmt id), map_id; [by destruct m|].
  eapply Forall_impl; [exact Hs|]. intros c [Hl Hc]. by apply Cid_text.
Qed.

(** ** Keys *)

Lemma wrap_key_bytes key to rng : byte_list key -> byte_list (wk_enc (wrap_key key to rng)) /\ byte_list (wk_ct (wrap_key key to rng)).
Proof.
  intros Hk. unfold wrap_key. pose proof (hpke_ct_range to KEY_INFO key rng Hk) as Hc. destruct (single_shot_seal _ _ _ _) as [e ct]. cbn in *.
  split; [apply hpke_enc_range|done].
Qed.

Lemma unwrap_wrapped key to rng sk :
  length key = 32%nat -> unwrap_key (wrap_key key to rng) sk = if decide (sk_to_pk sk = to) then Some key else None.
Proof.
  intros Hk. unfold unwrap_key, wrap_key.
  pose proof (hpke_open_seal sk KEY_INFO key rng) as Ho. pose proof (hpke_open_other sk to KEY_INFO key rng) as Hn.
  destruct (decide (sk_to_pk sk = to)) as [<-|Hne].
  - destruct (single_shot_seal _ _ _ _) as [e ct]. cbn [wk_enc wk_ct]. rewrite hpke_enc_bytes. cbn [mbind option_bind]. rewrite Ho. cbn [mbind option_bind].
    unfold ContentKey_from_bytes. by rewrite decide_True.
  - specialize (Hn Hne). clear Ho. destruct (single_shot_seal _ _ _ _) as [e ct]. cbn [wk_enc wk_ct]. rewrite hpke_enc_bytes. cbn [mbind option_bind]. by rewrite Hn.
Qed.

Lemma find_key_wrapped key recipients (rng : nat -> bytes) sk :
  length key = 32%nat ->
  find_key (imap (fun i to => wrap_key key to (rng i)) recipients) sk
  = if decide (sk_to_pk sk ∈ recipients) then Some key else None.
Proof.
  intros Hk. revert rng. induction recipients as [|to recipients IH]; intros rng.
  { rewrite decide_False; [done|]. apply not_elem_of_nil. }
  rewrite imap_cons. cbn [find_key]. rewrite unwrap_wrapped by done.
  destruct (decide (sk_to_pk sk = to)) as [<-|Hne]; [by rewrite decide_True by left|].
  etrans; [apply (IH (fun i => rng (S i)))|]. apply decide_ext. rewrite elem_of_cons. tauto.
Qed.

Lemma wrapped_bytes key recipients (rng : nat -> bytes) : byte_list key -> keys_bytes (imap (fun i to => wrap_key key to (rng i)) recipients).
Proof. intros Hk. apply Forall_lookup_2. intros i w. rewrite list_lookup_imap, fmap_Some. intros (to & _ & ->). by apply wrap_key_bytes. Qed.
End codecs.

(** ** Stripes *)

Lemma map_lookup_seqZ {A B} (f : A -> B) (d : A) (l : list A) :
  map (fun j => f (default d (l !! Z.to_nat j))) (seqZ 0 (Z.of_nat (length l))) = map f l.
Proof.
  apply list_eq. intros i. change (map f l) with (f <$> l). rewrite list_lookup_fmap.
  change (map ?g (seqZ 0 (Z.of_nat (length l))) !! i) with ((g <$> seqZ 0 (Z.of_nat (length l))) !! i). rewrite list_lookup_fmap.
  destruct (l !! i) as [x|] eqn:E.
  - apply lookup_lt_Some in E as Hi. rewrite lookup_seqZ_lt by lia. cbn. rewrite Z.add_0_l, Nat2Z.id, E. done.
  - apply lookup_ge_None in E. rewrite lookup_seqZ_ge by lia. done.
Qed.

Lemma zip_map_r {A B} (f : A -> B) l : zip l (map f l) = map (fun x => (x, f x)) l.
Proof. induction l as [|x l IH]; [done|]. cbn. by rewrite IH. Qed.

Lemma count_some_le group : count_some group <= Z.of_nat (length group).
Proof. unfold count_some. induction group as [|[x|] g IH]; cbn in *; lia. Qed.

Lemma count_some_app g1 g2 : count_some (g1 ++ g2) = count_some g1 + count_some g2.
Proof. unfold count_some. rewrite List.filter_app, length_app. lia. Qed.

Lemma count_some_all group : count_some group = Z.of_nat (length group) <-> forallb (fun g => bool_decide (is_Some g)) group = true.
Proof.
  induction group as [|x g IH]; [done|]. pose proof (count_some_le g). unfold count_some in *. cbn.
  destruct x as [x|]; cbn in *; [|by split; [lia|]]. rewrite <-IH. lia.
Qed.

Section stripes.
Context `{Sh : Sha256} `{Ae : Aead} `{!AeadLaws Ae} `{R : ReedSolomon} `{!ReedSolomonLaws R}.
Context (key prefix aad data : bytes) (chunk k m : Z) (rs : option Rs).
Context (Hchunk : 0 <= chunk) (Hk : 1 <= k) (Hm : 0 <= m) (Hrs : code_of k m = Ok rs).

Definition cts (i : Z) : list bytes := map (fun j => seal_chunk key prefix aad data chunk (i * k + j)) (seqZ 0 k).
Definition zeros : list bytes := replicate (Z.to_nat m) (replicate (Z.to_nat (chunk + TAG)) 0).

(** The shards of stripe [i]. *)
Definition stripe_shards (i : Z) (g : list bytes) : Prop :=
  exists parity, g = cts i ++ parity /\ length parity = Z.to_nat m
    /\ Forall (fun s => length s = Z.to_nat (chunk + TAG)) g
    /\ match rs with Some r => rs_encode r (cts i ++ zeros) = Some g | None => m = 0 end.

Lemma cts_length i : length (cts i) = Z.to_nat k.
Proof. unfold cts. rewrite length_map, length_seqZ. done. Qed.

Lemma cts_sizes i : 0 <= i -> Forall (fun s => length s = Z.to_nat (chunk + TAG)) (cts i).
Proof.
  intros Hi. unfold cts. apply Forall_map, Forall_forall. intros j Hj%elem_of_seqZ. unfold seal_chunk, TAG.
  rewrite aead_tag_length, plain_chunk_length by nia. lia.
Qed.

Lemma code_some r : rs = Some r -> rs_new k m = Some r /\ 0 < m.
Proof.
  intros ->. revert Hrs. unfold code_of. destruct (0 <? m) eqn:E; [|done].
  destruct (rs_new k m) as [r'|]; cbn; intros [= ->]; split; [done|lia].
Qed.

Lemma code_none : rs = None -> m = 0.
Proof.
  intros ->. revert Hrs. unfold code_of. destruct (0 <? m) eqn:E; [|lia]. by destruct (rs_new k m).
Qed.

Lemma padded_sizes i : 0 <= i -> Forall (fun s => length s = Z.to_nat (chunk + TAG)) (cts i ++ zeros).
Proof.
  intros Hi. apply Forall_app. split; [by apply cts_sizes|]. apply Forall_replicate, length_replicate.
Qed.

Lemma seal_stripe_ok i : 0 <= i -> exists g, seal_stripe rs key prefix aad data chunk k m i = Ok g /\ stripe_shards i g.
Proof.
  intros Hi. unfold seal_stripe, stripe_shards. fold (cts i). fold zeros.
  assert (exists o, rs = o) as [[r|] Er] by eauto; rewrite Er.
  - destruct (code_some r Er) as [Hr Hm0].
    destruct (rs_encode_ok k m r (cts i) zeros (Z.to_nat (chunk + TAG)) Hr (cts_length i) (length_replicate _ _)
      ltac:(unfold TAG; lia) (padded_sizes i Hi)) as (parity & E & Hl & Hp).
    exists (cts i ++ parity). rewrite E. split; [done|]. exists parity. split_and!; try done.
    apply Forall_app. split; [by apply cts_sizes|done].
  - exists (cts i). split; [done|]. exists []. rewrite app_nil_r. split_and!; try done.
    + rewrite (code_none Er). done.
    + by apply cts_sizes.
    + by apply code_none.
Qed.

(** What a node that knows [get] finds of a shard. *)
Definition present (get : Cid -> option bytes) (s : bytes) : option bytes :=
  if decide (get (Cid_of s) = Some s) then Some s else None.

Lemma present_cases get g : Forall2 (fun p s => p = None \/ p = Some s) (map (present get) g) g.
Proof. induction g as [|s g IH]; constructor; [|done]. unfold present. destruct (decide _); auto. Qed.

Lemma data_shards_open man i :
  mf_nonce_prefix man = prefix -> 0 <= i ->
  try_map (fun '(j, ct) => open_chunk man key aad (i * k + j) ct) (zip (seqZ 0 k) (Some <$> cts i))
  = Ok (map (fun j => plain_chunk data chunk (i * k + j)) (seqZ 0 k)).
Proof.
  intros Hp Hi. unfold cts. change (Some <$> map ?f ?l) with (map Some (map f l)). rewrite map_map, zip_map_r.
  rewrite (try_map_ok _ (fun x => plain_chunk data chunk (i * k + x.1))).
  - by rewrite map_map.
  - intros [j ct] Hin. apply list_elem_of_fmap in Hin as (j' & [= -> ->] & _). cbn.
    unfold open_chunk, seal_chunk. cbn. rewrite Hp, aead_open_seal. done.
Qed.

(** A stripe is recovered exactly when [k] of its shards are found intact. *)
Lemma recover_stripe_ok man get shards i g :
  mf_k man = k -> mf_m man = m -> mf_chunk man = chunk -> mf_nonce_prefix man = prefix -> 0 <= i -> stripe_shards i g ->
  try_map (fun j => intact man shards (i * (k + m) + j)) (seqZ 0 (k + m)) = Ok (map (present get) g) ->
  recover_stripe man rs key aad shards i =
  if k <=? count_some (map (present get) g)
  then Ok (concat (map (fun j => plain_chunk data chunk (i * k + j)) (seqZ 0 k)))
  else Err (TooFewShards i (count_some (map (present get) g)) k).
Proof.
  intros Ek Em Ec Ep Hi (parity & -> & Hl & Hsz & Henc) Hg. unfold recover_stripe. rewrite Ek, Em, Hg. cbn [result_bind].
  set (group := map (present get) (cts i ++ parity)) in *.
  assert (group = map (present get) (cts i) ++ map (present get) parity) as Eg by apply map_app.
  assert (take (Z.to_nat k) group = map (present get) (cts i)) as Et.
  { rewrite Eg. apply take_app_length'. by rewrite length_map, cts_length. }
  destruct (forallb _ (take (Z.to_nat k) group)) eqn:Eall.
  - rewrite Et in Eall. apply count_some_all in Eall as Hc. rewrite length_map, cts_length in Hc.
    assert (k <= count_some group) as Hkc by (rewrite Eg, count_some_app; unfold count_some in *; lia).
    replace (k <=? count_some group) with true by lia. cbn [result_bind]. rewrite Et.
    replace (map (present get) (cts i)) with (Some <$> cts i); [by rewrite data_shards_open|].
    clear -Eall. induction (cts i) as [|s l IH]; [done|]. cbn in *. apply andb_true_iff in Eall as [E1 E2].
    rewrite IH by done. unfold present in *. destruct (decide _); [done|]. by apply bool_decide_eq_true, is_Some_alt in E1.
  - destruct (count_some group <? k) eqn:Elt; [by replace (k <=? count_some group) with false by lia|].
    replace (k <=? count_some group) with true by lia. assert (exists o, rs = o) as [[r|] Er] by eauto; rewrite Er in Henc |- *.
    + destruct (code_some r Er) as [Hr _].
      destruct (rs_reconstruct_ok k m r (cts i) zeros parity (Z.to_nat (chunk + TAG)) group Hr (cts_length i) (length_replicate _ _)
        ltac:(unfold TAG; lia) (padded_sizes i Hi) Henc (present_cases get _)) as (group' & -> & Et').
      { unfold count_some in Elt. lia. }
      cbn [ok_or result_bind]. rewrite Et'. by rewrite data_shards_open.
    + exfalso. rewrite Henc in Hl. assert (parity = []) as Ep0 by (by apply nil_length_inv).
      rewrite Et in Eall. enough (forallb (fun g => bool_decide (is_Some g)) (map (present get) (cts i)) = true) by congruence.
      apply count_some_all. pose proof (count_some_le (map (present get) (cts i))) as Hle.
      rewrite Eg, Ep0, count_some_app in Elt. change (count_some (map _ [])) with 0 in Elt.
      rewrite length_map, cts_length in *. lia.
Qed.
End stripes.
