(* ===== verification/VaultProps.v ===== *)
(** * Vault: theorems

    A sealed file opens for its recipients from any [k] intact shards per stripe, and never gives
    anything but the file; with instances of the libraries that show the hypotheses can hold. *)

From S2P Require Import Prelude Ipld TextCodec Vault VaultFacts.
From stdpp Require Import base list list_numbers countable strings.
From Stdlib Require Import ZArith Lia.

Open Scope Z_scope.
Open Scope bolt_scope.

(** The random bytes have the lengths the code draws. *)
Record random_ok (rng : SealRandom) : Prop := {
  ro_key : length (sr_key rng) = 32%nat /\ byte_list (sr_key rng);
  ro_prefix : length (sr_prefix rng) = 16%nat /\ byte_list (sr_prefix rng);
  ro_nonce : length (sr_nonce rng) = 24%nat /\ byte_list (sr_nonce rng);
}.

Section props.
Context `{Sh : Sha256} `{SB : !Sha256Bytes Sh} `{Ae : Aead} `{AL : !AeadLaws Ae} `{Hp : Hpke} `{HL : !HpkeLaws Hp}.
Context `{R : ReedSolomon} `{RL : !ReedSolomonLaws R}.
Context `{JE : Json EnvelopeJson} `{JEL : !JsonLaws EnvelopeJson} `{JM : Json ManifestJson} `{JML : !JsonLaws ManifestJson}.

(** Options [seal] accepts, for which the coding library has a code. *)
Definition options_ok (opts : Options) : Prop :=
  1 <= op_k opts <= 32 /\ 0 <= op_m opts <= 32 /\ (0 < op_m opts -> is_Some (rs_new (op_k opts) (op_m opts))).

(** The intact shards of stripe [i] among those [get] returns. *)
Definition shards_found (get : Cid -> option bytes) (s : Sealed) (opts : Options) (i : Z) : Z :=
  let per := Z.to_nat (op_k opts + op_m opts) in
  count_some (map (fun b => present get (bk_data b)) (take per (drop (Z.to_nat i * per) (sd_shards s)))).

(** [get] never returns other bytes with the digest of a block of the file. *)
Definition unforged (get : Cid -> option bytes) (s : Sealed) : Prop :=
  forall b d, b ∈ sd_manifest s :: sd_shards s -> get (bk_cid b) = Some d -> Cid_of d = bk_cid b -> d = bk_data b.

Definition stripe_count (s : Sealed) (opts : Options) : Z := Z.of_nat (length (sd_shards s)) / (op_k opts + op_m opts).

Section sealing.
Context (data name mime : bytes) (recipients : list PublicKey) (opts : Options) (rng : SealRandom).
Context (Hopts : options_ok opts) (Hrng : random_ok rng).

(** What [seal] makes: the stripes, the manifest and the envelope. *)
Record sealed_as (s : Sealed) (chunk n : Z) (rs : option Rs) (groups : list (list bytes)) (man : Manifest) : Prop := {
  sa_layout : layout (Z.of_nat (length data)) (op_k opts) = Ok (chunk, n * op_k opts);
  sa_chunk : 4096 <= chunk <= 262144;
  sa_n : 1 <= n /\ Z.of_nat (length data) <= n * op_k opts * chunk /\ n * op_k opts < 2 ^ 32;
  sa_code : code_of (op_k opts) (op_m opts) = Ok rs;
  sa_groups : Forall2 (stripe_shards (sr_key rng) (sr_prefix rng) (chunk_aad (n * op_k opts)) data chunk (op_k opts) (op_m opts) rs)
                (seqZ 0 n) groups;
  sa_shards : sd_shards s = map Block_new (concat groups);
  sa_man : man = mkManifest VERSION name mime (Z.of_nat (length data)) chunk (n * op_k opts) (op_k opts) (op_m opts)
                   (sr_prefix rng) (map bk_cid (sd_shards s));
  sa_manifest : sd_manifest s = Block_new (aead_encrypt (sr_key rng) (sr_nonce rng) (Manifest_to_vec man) MANIFEST_AAD);
  sa_envelope : sd_envelope s = Block_new (Envelope_to_vec (mkEnvelope VERSION (bk_cid (sd_manifest s)) (sr_nonce rng)
                  (imap (fun i to => wrap_key (sr_key rng) to (sr_wrap rng i)) recipients)));
}.

Lemma seal_shape (Hsize : Z.of_nat (length data) < 2 ^ 49) (Hrec : recipients <> []) : exists s chunk n rs groups man,
  Vault.seal data name mime recipients opts rng = Ok s /\ sealed_as s chunk n rs groups man.
Proof.
  destruct Hopts as (Hk & Hm & Hr).
  destruct (layout_ok (Z.of_nat (length data)) (op_k opts)) as (chunk & n & El & Hc & Hn & Hfit & Hn32); [lia|lia|].
  assert (exists rs, code_of (op_k opts) (op_m opts) = Ok rs) as [rs Ecode].
  { unfold code_of. destruct (0 <? op_m opts) eqn:E; [|by eexists]. destruct Hr as [r ->]; [lia|]. by eexists. }
  destruct (try_map_groups (seal_stripe rs (sr_key rng) (sr_prefix rng) (chunk_aad (n * op_k opts)) data chunk (op_k opts) (op_m opts))
    (stripe_shards (sr_key rng) (sr_prefix rng) (chunk_aad (n * op_k opts)) data chunk (op_k opts) (op_m opts) rs) (seqZ 0 n))
    as (groups & Eg & Hg).
  { intros i Hi%elem_of_seqZ. apply seal_stripe_ok; try done; lia. }
  eexists _, chunk, n, rs, groups, _. unfold Vault.seal.
  replace (negb _ || _) with false by (symmetry; apply orb_false_iff; split; [apply negb_false_iff, andb_true_iff|]; lia).
  rewrite bool_decide_false by (intros E0%nil_length_inv; done). rewrite El. cbn [result_bind].
  rewrite Ecode. cbn [result_bind]. rewrite (wrap_small 32 (n * _)) by (unfold in_range; nia).
  rewrite Z.div_mul by lia. rewrite Eg. cbn [result_bind].
  rewrite (wrap_small 32 chunk), (wrap_small 8 (op_k opts)), (wrap_small 8 (op_m opts)) by (unfold in_range; lia).
  split; [done|]. by constructor.
Qed.

Section opened.
Context (s : Sealed) (chunk n : Z) (rs : option Rs) (groups : list (list bytes)) (man : Manifest).
Context (Hs : sealed_as s chunk n rs groups man) (get : Cid -> option bytes) (Hget : unforged get s).

Lemma group_sizes : Forall (fun g => length g = Z.to_nat (op_k opts + op_m opts)) groups /\ length groups = Z.to_nat n.
Proof.
  destruct Hopts as (Hk & Hm & _). pose proof (sa_groups _ _ _ _ _ _ Hs) as Hg. split.
  - apply Forall_lookup_2. intros i g Eg. destruct (Forall2_lookup_r _ _ _ _ _ Hg Eg) as (x & _ & parity & -> & Hl & _).
    rewrite length_app, cts_length. lia.
  - rewrite <-(Forall2_length _ _ _ Hg), length_seqZ. done.
Qed.

Lemma group_at i : 0 <= i < n -> exists g, groups !! Z.to_nat i = Some g
  /\ stripe_shards (sr_key rng) (sr_prefix rng) (chunk_aad (n * op_k opts)) data chunk (op_k opts) (op_m opts) rs i g.
Proof.
  intros Hi. destruct (Forall2_lookup_l _ _ _ (Z.to_nat i) i (sa_groups _ _ _ _ _ _ Hs)) as (g & Eg & Hg).
  { rewrite lookup_seqZ_lt by lia. f_equal. lia. }
  by exists g.
Qed.

Lemma shards_total : Z.of_nat (length (sd_shards s)) = n * (op_k opts + op_m opts) /\ stripe_count s opts = n.
Proof.
  destruct Hopts as (Hk & Hm & _). destruct group_sizes as [Hg Hl]. pose proof (sa_n _ _ _ _ _ _ Hs).
  assert (Z.of_nat (length (sd_shards s)) = n * (op_k opts + op_m opts)) as E.
  { rewrite (sa_shards _ _ _ _ _ _ Hs), length_map, (concat_even_length _ _ Hg), Hl. nia. }
  split; [done|]. unfold stripe_count. rewrite E. apply Z.div_mul. lia.
Qed.

(** Every shard of a stripe is found intact, or not at all. *)
Lemma stripe_intact i g :
  0 <= i < n -> groups !! Z.to_nat i = Some g ->
  stripe_shards (sr_key rng) (sr_prefix rng) (chunk_aad (n * op_k opts)) data chunk (op_k opts) (op_m opts) rs i g ->
  try_map (fun j => intact man (map get (mf_shards man)) (i * (op_k opts + op_m opts) + j)) (seqZ 0 (op_k opts + op_m opts))
  = Ok (map (present get) g).
Proof.
  intros Hi Eg (parity & Egp & Hl & Hsz & _). destruct Hopts as (Hk & Hm & _). destruct group_sizes as [Hgs Hgl].
  assert (length g = Z.to_nat (op_k opts + op_m opts)) as Hlg by exact (Forall_lookup_1 _ _ _ _ Hgs Eg).
  rewrite (try_map_ok _ (fun j => present get (default [] (g !! Z.to_nat j)))).
  { replace (op_k opts + op_m opts) with (Z.of_nat (length g)) by lia. by rewrite map_lookup_seqZ. }
  intros j Hj%elem_of_seqZ. destruct (lookup_lt_is_Some_2 g (Z.to_nat j)) as [x Ex]; [lia|]. rewrite Ex. change (default [] (Some x)) with x.
  assert (concat groups !! Z.to_nat (i * (op_k opts + op_m opts) + j) = Some x) as Ecx.
  { rewrite <-Ex. replace (Z.to_nat (i * (op_k opts + op_m opts) + j)) with (Z.to_nat i * Z.to_nat (op_k opts + op_m opts) + Z.to_nat j)%nat by nia.
    apply concat_lookup; [done|done|lia]. }
  assert (length x = Z.to_nat (chunk + TAG)) as Hx by exact (Forall_lookup_1 _ _ _ _ Hsz Ex).
  assert (Block_new x ∈ sd_shards s) as Hin.
  { rewrite (sa_shards _ _ _ _ _ _ Hs). apply (list_elem_of_fmap_2 Block_new).
    by eapply list_elem_of_lookup_2. }
  assert (mf_shards man !! Z.to_nat (i * (op_k opts + op_m opts) + j) = Some (Cid_of x)) as Ecid.
  { rewrite (sa_man _ _ _ _ _ _ Hs). cbn [mf_shards]. rewrite (sa_shards _ _ _ _ _ _ Hs), map_map.
    change (map ?f ?l !! _) with ((f <$> l) !! Z.to_nat (i * (op_k opts + op_m opts) + j)). rewrite list_lookup_fmap, Ecx. done. }
  unfold intact. change (map get ?l !! _) with ((get <$> l) !! Z.to_nat (i * (op_k opts + op_m opts) + j)).
  rewrite list_lookup_fmap, Ecid. cbn [fmap option_fmap option_map]. unfold present.
  assert (mf_chunk man = chunk) as -> by (by rewrite (sa_man _ _ _ _ _ _ Hs)).
  pose proof (sa_chunk _ _ _ _ _ _ Hs) as Hch.
  destruct (get (Cid_of x)) as [d|] eqn:Ed; [|by rewrite decide_False].
  destruct (Z.of_nat (length d) =? chunk + TAG) eqn:El.
  - unfold Cid_matches. destruct (bool_decide (Cid_of d = Cid_of x)) eqn:Em.
    + apply bool_decide_eq_true in Em. assert (d = x) as ->; [|by rewrite decide_True].
      apply (Hget (Block_new x) d); [by right|done|done].
    + apply bool_decide_eq_false in Em. rewrite decide_False; [done|]. by intros [= ->].
  - rewrite decide_False; [done|]. intros [= ->]. rewrite Hx in El. apply Z.eqb_neq in El. apply El. unfold TAG. lia.
Qed.

Lemma found_group i g :
  groups !! Z.to_nat i = Some g -> shards_found get s opts i = count_some (map (present get) g).
Proof.
  intros Eg. destruct group_sizes as [Hgs _]. unfold shards_found. rewrite (sa_shards _ _ _ _ _ _ Hs).
  set (per := Z.to_nat (op_k opts + op_m opts)) in *. f_equal.
  change (map Block_new (concat groups)) with (Block_new <$> concat groups).
  rewrite <-fmap_drop, <-fmap_take. change (map ?f (Block_new <$> ?l)) with (map f (map Block_new l)). rewrite map_map. cbn [bk_data Block_new].
  f_equal. clear -Eg Hgs. revert Eg. generalize (Z.to_nat i). intros a. revert a.
  induction Hgs as [|g0 l Hg0 _ IH]; intros a Ea; [done|]. destruct a as [|a]; cbn in Ea |- *.
  - injection Ea as ->. by rewrite drop_0, take_app_length'.
  - rewrite <-(IH a Ea). f_equal. rewrite <-drop_drop, drop_app_length' by done. done.
Qed.
(** ** Recovery *)

Definition stripe_plain (i : Z) : bytes := concat (map (fun j => plain_chunk data chunk (i * op_k opts + j)) (seqZ 0 (op_k opts))).

Lemma stripes_plain : take (length data) (concat (map stripe_plain (seqZ 0 n))) = data.
Proof.
  destruct Hopts as (Hk & _). pose proof (sa_chunk _ _ _ _ _ _ Hs). pose proof (sa_n _ _ _ _ _ _ Hs) as (Hn & Hfit & _).
  assert (concat (map stripe_plain (seqZ 0 n)) = concat (map (plain_chunk data chunk) (seqZ 0 (n * op_k opts)))) as ->.
  { rewrite <-seqZ_split by lia. unfold stripe_plain. induction (seqZ 0 n) as [|i l IH]; [done|].
    cbn [map concat]. by rewrite map_app, concat_app, map_map, IH. }
  rewrite plain_chunks by nia. rewrite (take_ge data) by lia. by rewrite take_app_length.
Qed.

Lemma stripe_outcome i :
  0 <= i < n ->
  recover_stripe man rs (sr_key rng) (chunk_aad (n * op_k opts)) (map get (mf_shards man)) i
  = if op_k opts <=? shards_found get s opts i then Ok (stripe_plain i)
    else Err (TooFewShards i (shards_found get s opts i) (op_k opts)).
Proof.
  intros Hi. destruct Hopts as (Hk & Hm & _). destruct (group_at i Hi) as (g & Eg & Hg).
  rewrite (found_group i g Eg). pose proof (sa_chunk _ _ _ _ _ _ Hs).
  apply (recover_stripe_ok _ (sr_prefix rng)) with (m := op_m opts); try (rewrite (sa_man _ _ _ _ _ _ Hs); done); try lia; try done.
  - apply (sa_code _ _ _ _ _ _ Hs).
  - by apply stripe_intact.
Qed.

Lemma recover_eq :
  recover man (sr_key rng) (map get (mf_shards man))
  = (out <-? try_map (recover_stripe man rs (sr_key rng) (chunk_aad (n * op_k opts)) (map get (mf_shards man))) (seqZ 0 n);
     Ok (take (length data) (concat out))).
Proof.
  destruct Hopts as (Hk & Hm & _). unfold recover. rewrite bool_decide_true by apply length_map. cbn [negb].
  assert (mf_k man = op_k opts /\ mf_m man = op_m opts /\ mf_chunks man = n * op_k opts /\ mf_size man = Z.of_nat (length data))
    as (Ek & Em & Ec & Es) by (by rewrite (sa_man _ _ _ _ _ _ Hs)).
  unfold stripes. rewrite Ek, Em, Ec, Es, (sa_code _ _ _ _ _ _ Hs). cbn [result_bind].
  replace (op_k opts =? 0) with false by lia. cbn [result_bind]. by rewrite Z.div_mul, Nat2Z.id by lia.
Qed.

Lemma recover_all : (forall i, 0 <= i < n -> op_k opts <= shards_found get s opts i) -> recover man (sr_key rng) (map get (mf_shards man)) = Ok data.
Proof.
  intros Hall. rewrite recover_eq, (try_map_ok _ stripe_plain).
  - cbn [result_bind]. by rewrite stripes_plain.
  - intros i Hi%elem_of_seqZ. rewrite stripe_outcome by lia. specialize (Hall i ltac:(lia)). by replace (_ <=? _) with true by lia.
Qed.

Lemma recover_any :
  recover man (sr_key rng) (map get (mf_shards man)) = Ok data
  \/ exists i, 0 <= i < n /\ shards_found get s opts i < op_k opts
     /\ recover man (sr_key rng) (map get (mf_shards man)) = Err (TooFewShards i (shards_found get s opts i) (op_k opts)).
Proof.
  rewrite recover_eq.
  destruct (try_map_first (recover_stripe man rs (sr_key rng) (chunk_aad (n * op_k opts)) (map get (mf_shards man))) stripe_plain
    (fun e => exists i, 0 <= i < n /\ shards_found get s opts i < op_k opts /\ e = TooFewShards i (shards_found get s opts i) (op_k opts))
    (seqZ 0 n)) as [->|(e & -> & i & Hi & Hf & ->)].
  - intros i Hi%elem_of_seqZ. rewrite stripe_outcome by lia. destruct (_ <=? _) eqn:E; [by left|right].
    eexists. split; [done|]. exists i. split; [lia|]. split; [lia|done].
  - left. cbn [result_bind]. by rewrite stripes_plain.
  - right. by exists i.
Qed.

(** ** Opening *)

Definition envelope_of : Envelope :=
  mkEnvelope VERSION (bk_cid (sd_manifest s)) (sr_nonce rng) (imap (fun i to => wrap_key (sr_key rng) to (sr_wrap rng i)) recipients).

Lemma parse_sealed : parse_envelope (bk_data (sd_envelope s)) = Ok envelope_of.
Proof.
  destruct Hrng as [[_ Hkb] _ [Hnl Hnb]]. rewrite (sa_envelope _ _ _ _ _ _ Hs). unfold parse_envelope. cbn [bk_data Block_new]. fold envelope_of.
  assert (bk_cid (sd_manifest s) = Cid_of (bk_data (sd_manifest s))) as Ec by (by rewrite (sa_manifest _ _ _ _ _ _ Hs)).
  rewrite Envelope_text; cbn [en_manifest en_nonce en_keys en_v envelope_of]; rewrite ?Ec; try apply sha256_bytes; try done; [|by apply wrapped_bytes].
  cbn [ok_or result_bind en_nonce envelope_of]. rewrite bool_decide_true by done. done.
Qed.

Lemma open_manifest_sealed : open_manifest envelope_of (bk_data (sd_manifest s)) (sr_key rng) = Ok man.
Proof.
  destruct Hrng as [_ [Hpl Hpb] [Hnl Hnb]]. destruct Hopts as (Hk & Hm & _). destruct (shards_total) as [Htot _].
  unfold open_manifest, envelope_of. cbn [en_manifest en_nonce]. rewrite (sa_manifest _ _ _ _ _ _ Hs). cbn [bk_cid bk_data Block_new].
  unfold Cid_matches. rewrite !bool_decide_true by done. cbn [negb]. rewrite aead_open_seal. cbn [ok_or result_bind].
  assert (mf_k man = op_k opts /\ mf_m man = op_m opts /\ mf_chunks man = n * op_k opts /\ mf_size man = Z.of_nat (length data)
    /\ mf_v man = VERSION /\ mf_chunk man = chunk /\ mf_nonce_prefix man = sr_prefix rng /\ mf_shards man = map bk_cid (sd_shards s))
    as (Ek & Em & Ec & Es & Ev & Eh & Ep & Esh) by (by rewrite (sa_man _ _ _ _ _ _ Hs)).
  rewrite Manifest_text.
  - cbn [ok_or result_bind]. rewrite Ek, Em, Ec, Es, Ev, Eh, Ep, Esh, (sa_layout _ _ _ _ _ _ Hs). cbn [result_bind].
    rewrite bool_decide_true, length_map, Z.div_mul, Htot by (done || lia). rewrite !Z.eqb_refl.
    by replace (op_k opts =? 0) with false by lia.
  - by rewrite Ep.
  - rewrite Esh, (sa_shards _ _ _ _ _ _ Hs), map_map. apply Forall_map, Forall_true. intros x. apply sha256_bytes.
Qed.

Lemma open_eq sk :
  open (bk_data (sd_envelope s)) sk get
  = if decide (sk_to_pk sk ∈ recipients) then
      mblock <-? ok_or (get (bk_cid (sd_manifest s))) (Corrupt "manifest block missing");
      m <-? open_manifest envelope_of mblock (sr_key rng);
      out <-? recover m (sr_key rng) (map get (mf_shards m));
      Ok (m, out)
    else Err NotRecipient.
Proof.
  destruct Hrng as [[Hkl _] _ _]. unfold open. rewrite parse_sealed. cbn [result_bind]. unfold open_key, envelope_of at 1. cbn [en_keys].
  rewrite find_key_wrapped by done. by destruct (decide _).
Qed.
End opened.
End sealing.

(** A copy of the envelope with one more wrapped key is the envelope of a file sealed for one more
    recipient. *)
Lemma sealed_added data name mime recipients opts rng s chunk n rs groups man to r :
  sealed_as data name mime recipients opts rng s chunk n rs groups man ->
  sealed_as data name mime (recipients ++ [to]) opts
    (mkSealRandom (sr_key rng) (sr_prefix rng) (sr_nonce rng) (fun i => if decide (i < length recipients)%nat then sr_wrap rng i else r))
    (mkSealed (add_recipient (envelope_of recipients rng s) (sr_key rng) to r) (sd_manifest s) (sd_shards s) (sd_key s)) chunk n rs groups man.
Proof.
  intros []. constructor; try done. cbn [sd_envelope sd_manifest]. unfold add_recipient, envelope_of. cbn [en_v en_manifest en_nonce en_keys sr_key sr_nonce sr_wrap].
  do 3 f_equal. rewrite imap_app. f_equal.
  - apply imap_ext. intros i x Hi. apply lookup_lt_Some in Hi. by rewrite decide_True.
  - cbn. rewrite decide_False by lia. done.
Qed.

(** What [open] can do with the envelope of a sealed file, whatever [get] returns. *)
Lemma open_sealed data name mime recipients opts rng s chunk n rs groups man sk get :
  options_ok opts -> random_ok rng -> sealed_as data name mime recipients opts rng s chunk n rs groups man -> unforged get s ->
  (sk_to_pk sk ∈ recipients -> get (bk_cid (sd_manifest s)) = Some (bk_data (sd_manifest s)) ->
   (forall i, 0 <= i < stripe_count s opts -> op_k opts <= shards_found get s opts i) ->
   open (bk_data (sd_envelope s)) sk get = Ok (man, data))
  /\ match open (bk_data (sd_envelope s)) sk get with
     | Ok (m, out) => sk_to_pk sk ∈ recipients /\ m = man /\ out = data
     | Err NotRecipient => sk_to_pk sk ∉ recipients
     | Err (Corrupt why) => get (bk_cid (sd_manifest s)) <> Some (bk_data (sd_manifest s))
     | Err (TooFewShards i have need) =>
       0 <= i < stripe_count s opts /\ have = shards_found get s opts i /\ need = op_k opts /\ have < need
     | Err _ => False
     end.
Proof.
  intros Ho Hr Hs Hg. destruct (shards_total data name mime recipients opts rng Ho s chunk n rs groups man Hs) as [_ ->].
  rewrite (open_eq data name mime recipients opts rng Hr s chunk n rs groups man Hs get sk). split.
  - intros Hin -> Hall. rewrite decide_True by done. cbn [ok_or result_bind].
    rewrite (open_manifest_sealed data name mime recipients opts rng Ho Hr s chunk n rs groups man Hs). cbn [result_bind].
    by rewrite (recover_all data name mime recipients opts rng Ho s chunk n rs groups man Hs get Hg Hall).
  - destruct (decide (sk_to_pk sk ∈ recipients)) as [Hin|]; [|done].
    destruct (get (bk_cid (sd_manifest s))) as [b|] eqn:Eb; cbn [ok_or result_bind]; [|done].
    destruct (decide (b = bk_data (sd_manifest s))) as [->|Hne].
    + rewrite (open_manifest_sealed data name mime recipients opts rng Ho Hr s chunk n rs groups man Hs). cbn [result_bind].
      destruct (recover_any data name mime recipients opts rng Ho s chunk n rs groups man Hs get Hg) as [->|(i & Hi & Hf & ->)]; done.
    + unfold open_manifest, Cid_matches. cbn [envelope_of en_manifest]. rewrite bool_decide_false; [by intros [= ->]|].
      intros Ec. apply Hne, (Hg (sd_manifest s)); [by left|done|done].
Qed.

(** C17.  A file sealed with valid options opens for every recipient and gives the file, its name,
    type and size, from any [k] intact shards of each stripe: the other blocks may be missing or
    altered.  The same holds for a recipient added later with the content key. *)
Theorem sealed_file_opens (data name mime : bytes) (recipients : list PublicKey) (opts : Options) (rng : SealRandom)
    (Hopts : options_ok opts) (Hrng : random_ok rng) (Hsize : Z.of_nat (length data) < 2 ^ 49) (Hrec : recipients <> []) :
  exists s e, Vault.seal data name mime recipients opts rng = Ok s /\ parse_envelope (bk_data (sd_envelope s)) = Ok e
  /\ forall (sk : PrivateKey) (get : Cid -> option bytes) (block : Block),
     (sk_to_pk sk ∈ recipients /\ block = sd_envelope s \/ exists r, block = add_recipient e (sr_key rng) (sk_to_pk sk) r) ->
     unforged get s -> get (bk_cid (sd_manifest s)) = Some (bk_data (sd_manifest s)) ->
     (forall i, 0 <= i < stripe_count s opts -> op_k opts <= shards_found get s opts i) ->
     exists man, open (bk_data block) sk get = Ok (man, data)
       /\ mf_name man = name /\ mf_mime man = mime /\ mf_size man = Z.of_nat (length data).
Proof.
  destruct (seal_shape data name mime recipients opts rng Hopts Hsize Hrec) as (s & chunk & n & rs & groups & man & E & Hs).
  exists s, (envelope_of recipients rng s). split; [done|]. split; [by eapply parse_sealed|].
  intros sk get block Hb Hg Hm Hall. exists man. split; [|by rewrite (sa_man _ _ _ _ _ _ _ _ _ _ _ _ Hs)].
  destruct Hb as [[Hin ->]|[r ->]].
  - by eapply open_sealed.
  - pose proof (sealed_added _ _ _ _ _ _ _ _ _ _ _ _ (sk_to_pk sk) r Hs) as Hs'.
    eapply (open_sealed _ _ _ _ _ _ _ _ _ _ _ _ sk get Hopts) in Hs' as [Hok _]; [|by destruct Hrng|exact Hg].
    apply Hok; [apply elem_of_app; right; by left|exact Hm|exact Hall].
Qed.

(** C18.  Whatever blocks are supplied, opening a sealed file gives the file or an error that says
    why: not a recipient, no manifest block with the right CID, or a stripe with fewer than [k]
    intact shards, named with its count; never other data, never a panic. *)
Theorem open_gives_file_or_error (data name mime : bytes) (recipients : list PublicKey) (opts : Options) (rng : SealRandom)
    (sk : PrivateKey) (get : Cid -> option bytes) (s : Sealed)
    (Hopts : options_ok opts) (Hrng : random_ok rng) (Hsize : Z.of_nat (length data) < 2 ^ 49)
    (Hseal : Vault.seal data name mime recipients opts rng = Ok s) (Hget : unforged get s) :
  match open (bk_data (sd_envelope s)) sk get with
  | Ok (man, out) => out = data /\ mf_name man = name /\ sk_to_pk sk ∈ recipients
  | Err NotRecipient => sk_to_pk sk ∉ recipients
  | Err (Corrupt _) => get (bk_cid (sd_manifest s)) <> Some (bk_data (sd_manifest s))
  | Err (TooFewShards i have need) =>
    0 <= i < stripe_count s opts /\ have = shards_found get s opts i /\ need = op_k opts /\ have < need
  | Err _ => False
  end.
Proof.
  assert (recipients <> []) as Hrec.
  { intros ->. revert Hseal. unfold Vault.seal. by destruct (_ || _). }
  destruct (seal_shape data name mime recipients opts rng Hopts Hsize Hrec) as (s' & chunk & n & rs & groups & man & E & Hs).
  rewrite Hseal in E. injection E as <-.
  destruct (open_sealed _ _ _ _ _ _ _ _ _ _ _ _ sk get Hopts Hrng Hs Hget) as [_ Ho].
  destruct (open _ _ _) as [[m out]|[]]; try done. destruct Ho as (? & -> & ->). by rewrite (sa_man _ _ _ _ _ _ _ _ _ _ _ _ Hs).
Qed.

(** [layout] is called before [k] is checked: a manifest with [k = 0] makes [open_manifest] divide
    by zero. *)
Lemma manifest_zero_k_aborts e block key plain m :
  Cid_matches (en_manifest e) block = true -> length (en_nonce e) = 24%nat ->
  aead_decrypt key (en_nonce e) block MANIFEST_AAD = Some plain -> Manifest_from_slice plain = Some m -> mf_k m = 0 ->
  open_manifest e block key = Err Aborted.
Proof.
  intros Hc Hn Hd Hm Hk. unfold open_manifest. rewrite Hc, bool_decide_true, Hd by done. cbn [negb ok_or result_bind]. rewrite Hm.
  cbn [ok_or result_bind]. rewrite Hk. unfold layout. rewrite Z.mul_0_r. done.
Qed.
End props.

(** ** Witnesses *)

Module VaultWitness.
(** The last 32 bytes, as a digest. *)
#[export] Instance w_sha : Sha256 := fun d => map (fun x => x mod 256) (take 32 (rev d ++ replicate 32 0)).
#[export] Instance w_sha_bytes : Sha256Bytes w_sha.
Proof.
  intros d. unfold sha256, w_sha. split.
  - rewrite length_map, length_take, length_app, length_replicate. lia.
  - apply Forall_map, Forall_true. intros x. apply Z.mod_pos_bound. lia.
Qed.

#[export] Instance w_aead : Aead := {|
  aead_encrypt _ _ msg _ := msg ++ replicate 16 7;
  aead_decrypt _ _ ct _ := Some (take (length ct - 16) ct);
|}.
#[export] Instance w_aead_laws : AeadLaws w_aead.
Proof.
  split; intros; cbn [aead_encrypt aead_decrypt w_aead].
  - by rewrite length_app, length_replicate, Nat.add_sub, take_app_length.
  - by rewrite length_app, length_replicate.
Qed.

(** Two key pairs. *)
#[export] Instance w_hpke : Hpke := {|
  PrivateKey := bool;
  PublicKey := bool;
  EncappedKey := unit;
  PublicKey_eq_dec := _;
  sk_to_pk sk := sk;
  enc_to_bytes _ := [];
  enc_from_bytes _ := Some tt;
  single_shot_seal pk _ msg _ := (tt, (if pk : bool then 1 else 0) :: msg);
  single_shot_open sk _ _ ct :=
    match ct with
    | t :: msg => if t =? (if sk : bool then 1 else 0) then Some msg else None
    | _ => None
    end;
|}.
#[export] Instance w_hpke_laws : HpkeLaws w_hpke.
Proof.
  split; cbn; intros.
  - by destruct e.
  - constructor.
  - constructor; [destruct pk; lia|done].
  - by destruct sk.
  - by destruct sk, pk.
Qed.

(** One data shard; parity shard [j] adds [j + 1] to every byte. *)
Fixpoint first_some (i : Z) (l : list (option bytes)) : option bytes :=
  match l with
  | [] => None
  | Some v :: _ => Some (map (fun x => x - i) v)
  | None :: l => first_some (i + 1) l
  end.

#[export] Instance w_rs : ReedSolomon := {|
  Rs := unit;
  rs_new k _ := if k =? 1 then Some tt else None;
  rs_encode _ l := match l with d :: zs => Some (d :: imap (fun j _ => map (fun x => x + Z.of_nat (S j)) d) zs) | [] => None end;
  rs_reconstruct_data _ l := d ← first_some 0 l; Some (Some d :: drop 1 l);
|}.

Lemma map_shift d i : map (fun x => x - i) (map (fun x => x + i) d) = d.
Proof. rewrite map_map. etrans; [|apply map_id]. apply map_ext. intros; lia. Qed.

Lemma first_some_shifted d group : forall i parity,
  Forall2 (fun g s => g = None \/ g = Some s) group parity ->
  (forall j s, parity !! j = Some s -> s = map (fun x => x + (i + Z.of_nat j)) d) ->
  (0 < length (List.filter (fun g => bool_decide (is_Some g)) group))%nat -> first_some i group = Some d.
Proof.
  induction group as [|g group IH]; intros i parity Hf Hp Hc; [cbn in Hc; lia|].
  apply Forall2_cons_inv_l in Hf as (s & parity' & Hg & Hf & ->). destruct Hg as [->| ->]; cbn in Hc |- *.
  - apply (IH (i + 1) parity' Hf); [|done]. intros j s' Hj. rewrite (Hp (S j) s' Hj). apply map_ext. intros; lia.
  - rewrite (Hp 0%nat s eq_refl). rewrite Z.add_0_r. by rewrite map_shift.
Qed.

#[export] Instance w_rs_laws : ReedSolomonLaws w_rs.
Proof.
  split.
  - intros k m [] data zeros n Hn Hd Hz H0 Hl. cbn in Hn. destruct (k =? 1) eqn:Ek; [|done]. apply Z.eqb_eq in Ek as ->.
    destruct data as [|d [|]]; try done. eexists. split; [reflexivity|]. rewrite length_imap. split; [done|].
    apply Forall_lookup_2. intros i x. rewrite list_lookup_imap, fmap_Some. intros (z & _ & ->). rewrite length_map.
    by inversion_clear Hl.
  - intros k m [] data zeros parity n group Hn Hd Hz H0 Hl He Hg Hc. cbn in Hn. destruct (k =? 1) eqn:Ek; [|done]. apply Z.eqb_eq in Ek as ->.
    destruct data as [|d [|]]; try done. cbn in He. injection He as <-. cbn [rs_reconstruct_data w_rs].
    rewrite (first_some_shifted d group 0 _ Hg); [by eexists|intros [|j] s; [cbn|]|lia].
    + intros [= <-]. symmetry. etrans; [|apply map_id]. apply map_ext. intros; lia.
    + change (([d] ++ ?l) !! S j) with (l !! j). rewrite list_lookup_imap, fmap_Some. intros (z & _ & ->). apply map_ext. intros; lia.
Qed.

Definition countable_json T `{Countable T} : Json T := {|
  json_to_vec x := [Zpos (encode x)];
  json_from_slice b := match b with [Zpos p] => decode p | _ => None end;
|}.

#[export] Instance EnvelopeJson_eq_dec : EqDecision EnvelopeJson.
Proof. solve_decision. Defined.
#[export] Program Instance EnvelopeJson_countable : Countable EnvelopeJson :=
  inj_countable' (fun e => (ej_v e, ej_manifest e, ej_nonce e, ej_keys e)) (fun '(a, b, c, d) => mkEnvelopeJson a b c d) _.
Next Obligation. by intros []. Qed.
#[export] Instance ManifestJson_eq_dec : EqDecision ManifestJson.
Proof. solve_decision. Defined.
#[export] Program Instance ManifestJson_countable : Countable ManifestJson :=
  inj_countable' (fun r => (mj_v r, mj_name r, mj_mime r, mj_size r, mj_chunk r, mj_chunks r, mj_k r, mj_m r, mj_nonce_prefix r, mj_shards r))
    (fun '(a, b, c, d, e, f, g, h, i, j) => mkManifestJson a b c d e f g h i j) _.
Next Obligation. by intros []. Qed.

#[export] Instance w_envelope_json : Json EnvelopeJson := countable_json EnvelopeJson.
#[export] Instance w_manifest_json : Json ManifestJson := countable_json ManifestJson.
#[export] Instance w_envelope_json_laws : JsonLaws EnvelopeJson.
Proof. intros x. cbn. apply decode_encode. Qed.
#[export] Instance w_manifest_json_laws : JsonLaws ManifestJson.
Proof. intros x. cbn. apply decode_encode. Qed.

(** A small file for two recipients, one parity shard. *)
Definition w_data : bytes := [104; 105; 33].
Definition w_opts : Options := mkOptions 1 1.
Definition w_rng : SealRandom := mkSealRandom (replicate 32 9) (replicate 16 8) (replicate 24 3) (fun _ => []).
Definition w_recipients : list (@PublicKey w_hpke) := [true; false].
Definition w_sk : @PrivateKey w_hpke := false.
Definition w_sealed : Sealed :=
  match Vault.seal w_data [102] [116] w_recipients w_opts w_rng with Ok s => s | Err _ => mkSealed (mkBlock [] []) (mkBlock [] []) [] [] end.

Lemma w_seal : Vault.seal w_data [102] [116] w_recipients w_opts w_rng = Ok w_sealed.
Proof. vm_compute. reflexivity. Qed.

(** Only the manifest and the parity shard are left. *)
Definition kept : list Block := sd_manifest w_sealed :: drop 1 (sd_shards w_sealed).
Fixpoint get_from (l : list Block) (c : Cid) : option bytes :=
  match l with [] => None | b :: l => if decide (bk_cid b = c) then Some (bk_data b) else get_from l c end.

(** A checked condition under which what is kept is not forged. *)
Definition returns_own (get : Cid -> option bytes) (b : Block) : bool :=
  match get (bk_cid b) with Some d => bool_decide (d = bk_data b) | None => true end.

Lemma unforged_check get s : forallb (returns_own get) (sd_manifest s :: sd_shards s) = true -> unforged get s.
Proof.
  intros Hall b d Hb Hd _. rewrite forallb_forall in Hall. apply list_elem_of_In in Hb. specialize (Hall b Hb).
  unfold returns_own in Hall. rewrite Hd in Hall. by apply bool_decide_eq_true in Hall.
Qed.

Lemma w_options : options_ok w_opts.
Proof. unfold options_ok, w_opts. cbn. split; [lia|]. split; [lia|by eexists]. Qed.

Lemma w_random : random_ok w_rng.
Proof. split; (split; [done|]); cbn; repeat constructor; lia. Qed.

Lemma sealed_file_opens_witness :
  exists man, open (bk_data (sd_envelope w_sealed)) w_sk (get_from kept) = Ok (man, w_data) /\ mf_name man = [102].
Proof.
  destruct (sealed_file_opens w_data [102] [116] w_recipients w_opts w_rng w_options w_random ltac:(reflexivity) ltac:(discriminate))
    as (s & e & Es & _ & Hs). rewrite w_seal in Es. injection Es as <-.
  destruct (Hs w_sk (get_from kept) (sd_envelope w_sealed)) as (man & E & En & _).
  - left. split; [right; left|reflexivity].
  - apply unforged_check. vm_compute. reflexivity.
  - vm_compute. reflexivity.
  - intros i Hi. assert (stripe_count w_sealed w_opts = 1) as En by (vm_compute; reflexivity). rewrite En in Hi.
    assert (i = 0) as -> by lia. vm_compute. discriminate.
  - exists man. split; [exact E|exact En].
Defined.

Lemma open_gives_file_or_error_witness :
  match open (bk_data (sd_envelope w_sealed)) w_sk (get_from [sd_manifest w_sealed]) with
  | Err (TooFewShards i have need) => i = 0 /\ have = 0 /\ need = 1
  | _ => False
  end.
Proof.
  pose proof (open_gives_file_or_error w_data [102] [116] w_recipients w_opts w_rng w_sk (get_from [sd_manifest w_sealed]) w_sealed
    w_options w_random ltac:(reflexivity) w_seal ltac:(apply unforged_check; vm_compute; reflexivity)) as H.
  assert (stripe_count w_sealed w_opts = 1 /\ shards_found (get_from [sd_manifest w_sealed]) w_sealed w_opts 0 = 0) as [E1 E2]
    by (vm_compute; split; reflexivity).
  assert (exists i have need, open (bk_data (sd_envelope w_sealed)) w_sk (get_from [sd_manifest w_sealed]) = Err (TooFewShards i have need))
    as (i & have & need & E) by (do 3 eexists; vm_compute; reflexivity).
  rewrite E in *. rewrite E1 in H. destruct H as (Hi & -> & -> & _). assert (i = 0) as -> by lia. rewrite E2.
  split; [reflexivity|split; reflexivity].
Defined.
End VaultWitness.
