(* ===== verification/Der.v ===== *)
(** * Certificates, CRLs and DER

    Models crates/attest/src/der.rs: the DER reader the SGX extension needs, certificates and CRLs
    with P-256 keys, and PEM.  X.509 parsing and ECDSA are libraries, parameters of the model. *)

From S2P Require Import Prelude Types TextCodec.
From stdpp Require Import base list list_numbers strings.
From Stdlib Require Import ZArith Lia.

Open Scope Z_scope.
Open Scope bolt_scope.

(** [Error] of crates/attest/src/lib.rs; [Aborted] stands for a panic. *)
Inductive AttestError :=
  | EDer (what : string)
  | ECollateral (what : string)
  | ESignature (what : string)
  | EExpired (what : string)
  | ERevoked
  | EQuote (what : string)
  | ETpm (what : string)
  | Aborted.

(** ** Byte slices *)

(** [d[a..b]], and [d.get(a..b)] with the error of the caller. *)
Definition slice (d : bytes) (a b : Z) : bytes := take (Z.to_nat (b - a)) (drop (Z.to_nat a) d).
Definition in_bounds (d : bytes) (a b : Z) : bool := (0 <=? a) && (a <=? b) && (b <=? Z.of_nat (length d)).
Definition get_slice (d : bytes) (a b : Z) (e : AttestError) : result AttestError bytes :=
  if in_bounds d a b then Ok (slice d a b) else Err e.
Definition index_slice (d : bytes) (a b : Z) : result AttestError bytes := get_slice d a b Aborted.
Definition get_byte (d : bytes) (i : Z) (e : AttestError) : result AttestError Z :=
  if in_bounds d i (i + 1) then ok_or (d !! Z.to_nat i) e else Err e.

(** ** The libraries *)

(** The parts of an [X509Certificate] the code reads. *)
Record X509 := mkX509 {
  x_public_key : bytes;
  x_signature : bytes;
  x_extensions : list (bytes * bytes);
  x_tbs : bytes;
  x_raw_serial : bytes;
  x_issuer : bytes;
  x_subject : bytes;
  x_not_before : Z;
  x_not_after : Z;
  x_spki : bytes;
}.

Record X509Crl := mkX509Crl {
  xc_signature : bytes;
  xc_issuer : bytes;
  xc_last_update : Z;
  xc_next_update : option Z;
  xc_revoked : list bytes;
  xc_tbs : bytes;
}.

(** [x509_parser]; [x509_verify_signature c key] checks the signature of [c] under the key of
    another certificate. *)
Class X509Lib := {
  x509_from_der : bytes -> option X509;
  crl_from_der : bytes -> option X509Crl;
  x509_verify_signature : X509 -> X509 -> bool;
}.

(** [p256::ecdsa]: signatures as (r ‖ s) or DER, keys as SEC1 points. *)
Class P256 := {
  P256Signature : Type;
  P256Key : Type;
  sig_from_slice : bytes -> option P256Signature;
  sig_from_der : bytes -> option P256Signature;
  key_from_sec1 : bytes -> option P256Key;
  ecdsa_verify : P256Key -> bytes -> P256Signature -> bool;
}.

(** ** DER elements *)

Fixpoint tlv_length (d : bytes) (p : Z) (n : nat) (len : Z) : result AttestError Z :=
  match n with
  | O => Ok len
  | S n => b <-? get_byte d p (EDer "truncated element"); tlv_length d (p + 1) n (Z.lor (Z.shiftl len 8) b)
  end.

(** Tag, content start, content length. *)
Definition tlv (d : bytes) (p : Z) : result AttestError (Z * Z * Z) :=
  tag <-? get_byte d p (EDer "truncated element");
  first <-? get_byte d (p + 1) (EDer "truncated element");
  sl <-? (if first <? 128 then Ok (p + 2, first)
          else let n := Z.land first 127 in
               if (n =? 0) || (4 <? n) then Err (EDer "length")
               else len <-? tlv_length d (p + 2) (Z.to_nat n) 0; Ok (p + 2 + n, len));
  let '(start, len) := sl in
  if Z.of_nat (length d) <? start + len then Err (EDer "truncated element") else Ok (tag, start, len).

Definition expect (d : bytes) (p tag : Z) : result AttestError (Z * Z) :=
  r <-? tlv d p;
  let '(t, s, n) := r in
  if negb (t =? tag) then Err (EDer "unexpected tag") else Ok (s, n).

Fixpoint strip_zeros (b : bytes) : bytes :=
  match b with 0 :: b => strip_zeros b | _ => b end.

Definition int32 (b : bytes) : result AttestError bytes :=
  let b := strip_zeros b in
  if 32 <? Z.of_nat (length b) then Err (EDer "integer too long")
  else Ok (replicate (32 - length b) 0 ++ b).

(** ** Signatures and certificates *)

Section certificates.
Context `{K : Keccak} `{X : X509Lib} `{P : P256}.

Definition Point : Type := bytes * bytes.

Definition p256_verify (msg : bytes) (sig : P256Signature) (key : Point) : bool :=
  match key_from_sec1 (4 :: key.1 ++ key.2) with
  | Some k => ecdsa_verify k msg sig
  | None => false
  end.

Definition p256_verify_raw (msg sig : bytes) (key : Point) : bool :=
  match sig_from_slice sig with
  | Some s => p256_verify msg s key
  | None => false
  end.

Record Cert := mkCert {
  ce_der : bytes;
  ce_tbs : bytes;
  ce_serial : bytes;
  ce_issuer : B256;
  ce_subject : B256;
  ce_not_before : Z;
  ce_not_after : Z;
  ce_key : Point;
  ce_sig : P256Signature;
  ce_ext : list (bytes * bytes);
}.

Definition Cert_parse (der : bytes) : result AttestError Cert :=
  c <-? ok_or (x509_from_der der) (EDer "certificate");
  let pk := x_public_key c in
  if negb (bool_decide (length pk = 65%nat)) || negb (bool_decide (pk !! 0%nat = Some 4)) then Err (EDer "not a P-256 key") else
  let key := (slice pk 1 33, slice pk 33 65) in
  sig <-? ok_or (sig_from_der (x_signature c)) (EDer "signature");
  serial <-? int32 (x_raw_serial c);
  Ok (mkCert der (x_tbs c) serial (keccak256 (x_issuer c)) (keccak256 (x_subject c)) (u64 (x_not_before c)) (u64 (x_not_after c))
        key sig (x_extensions c)).

Definition Cert_signed_by (c : Cert) (key : Point) : bool := p256_verify (ce_tbs c) (ce_sig c) key.
Definition valid_at (c : Cert) (now : Z) : bool := (ce_not_before c <=? now) && (now <=? ce_not_after c).
Definition extension (c : Cert) (oid : bytes) : option bytes :=
  snd <$> List.find (fun '(o, _) => bool_decide (o = oid)) (ce_ext c).

Record Crl := mkCrl {
  cr_issuer : B256;
  cr_this_update : Z;
  cr_next_update : Z;
  cr_serials : list bytes;
  cr_tbs : bytes;
  cr_sig : P256Signature;
}.

Fixpoint int32_all (l : list bytes) : result AttestError (list bytes) :=
  match l with
  | [] => Ok []
  | b :: l => x <-? int32 b; r <-? int32_all l; Ok (x :: r)
  end.

Definition Crl_parse (der : bytes) : result AttestError Crl :=
  l <-? ok_or (crl_from_der der) (EDer "CRL");
  sig <-? ok_or (sig_from_der (xc_signature l)) (EDer "signature");
  serials <-? int32_all (xc_revoked l);
  Ok (mkCrl (keccak256 (xc_issuer l)) (u64 (xc_last_update l)) (match xc_next_update l with Some t => u64 t | None => 0 end)
        serials (xc_tbs l) sig).

Definition Crl_signed_by (l : Crl) (key : Point) : bool := p256_verify (cr_tbs l) (cr_sig l) key.
End certificates.

(** ** PEM *)

Definition BEGIN_CERT : bytes := ascii_bytes "-----BEGIN CERTIFICATE-----".
Definition END_CERT : bytes := ascii_bytes "-----END CERTIFICATE-----".

Definition pem_block (block : list Z) : result AttestError bytes :=
  let body := default [] (head (str_split END_CERT block)) in
  ok_or (base64_decode (utf8_bytes (List.filter (fun c => negb (is_whitespace c)) body))) (EDer "base64").

Fixpoint pem_blocks (l : list (list Z)) : result AttestError (list bytes) :=
  match l with
  | [] => Ok []
  | block :: l => c <-? pem_block block; r <-? pem_blocks l; Ok (c :: r)
  end.

Definition pem_certs (pem : bytes) : result AttestError (list bytes) :=
  text <-? ok_or (utf8_chars pem) (EDer "PEM");
  pem_blocks (drop 1 (str_split BEGIN_CERT text)).

Definition pem_encode_one (c : bytes) : bytes :=
  BEGIN_CERT ++ [10] ++ concat (map (fun line => line ++ [10]) (chunks 64 (base64_encode c))) ++ END_CERT ++ [10].
Definition pem_encode (certs : list bytes) : bytes := concat (map pem_encode_one certs).
