(* ===== verification/DerFacts.v ===== *)
(** * DER and PEM: lemmas and theorems

    The elements the DER reader returns lie inside the input, and a PEM chain reads back as the
    certificates it was made of. *)

From S2P Require Import Prelude Types TextCodec Der.
From stdpp Require Import base list list_numbers strings.
From Stdlib Require Import ZArith Lia.

Open Scope Z_scope.
Open Scope bolt_scope.

(** ** Slices *)

Lemma slice_app pre s a b : 0 <= a -> slice (pre ++ s) (Z.of_nat (length pre) + a) (Z.of_nat (length pre) + b) = slice s a b.
Proof.
  intros Ha. unfold slice. replace (Z.to_nat (Z.of_nat (length pre) + a)) with (length pre + Z.to_nat a)%nat by lia.
  rewrite <-drop_drop, drop_app_length. f_equal. lia.
Qed.

Lemma get_slice_app pre s a b e :
  0 <= a -> get_slice (pre ++ s) (Z.of_nat (length pre) + a) (Z.of_nat (length pre) + b) e = get_slice s a b e.
Proof.
  intros Ha. unfold get_slice. rewrite slice_app by done.
  assert (in_bounds (pre ++ s) (Z.of_nat (length pre) + a) (Z.of_nat (length pre) + b) = in_bounds s a b) as ->; [|done].
  unfold in_bounds. rewrite length_app. apply eq_true_iff_eq. rewrite !andb_true_iff, !Z.leb_le. lia.
Qed.

Lemma get_slice_here b rest e : get_slice (b ++ rest) 0 (Z.of_nat (length b)) e = Ok b.
Proof.
  unfold get_slice, in_bounds, slice. rewrite length_app. replace ((0 <=? 0) && _ && _) with true.
  - rewrite Z.sub_0_r, Nat2Z.id. cbn [Z.to_nat]. by rewrite drop_0, take_app_length.
  - symmetry. rewrite !andb_true_iff, !Z.leb_le. lia.
Qed.

Lemma get_slice_skip b s k x y e : Z.of_nat (length b) = k -> k <= x -> get_slice (b ++ s) x y e = get_slice s (x - k) (y - k) e.
Proof. intros <- Hx. rewrite <-(get_slice_app b s (x - _)) by lia. f_equal; lia. Qed.

Lemma slice_join d a b c : 0 <= a <= b -> b <= c -> slice d a b ++ slice d b c = slice d a c.
Proof.
  intros Ha Hb. unfold slice. replace (Z.to_nat b) with (Z.to_nat a + Z.to_nat (b - a))%nat by lia.
  rewrite <-drop_drop, take_take_drop. f_equal. lia.
Qed.

(** ** UTF-8 of ASCII text *)

Lemma utf8_chars_ascii s : Forall (fun c => 0 <= c < 128) s -> utf8_chars s = Some s.
Proof. induction 1 as [|c s Hc _ IH]; [done|]. cbn. replace (c <? 128) with true by lia. by rewrite IH. Qed.

Lemma utf8_bytes_ascii s : Forall (fun c => 0 <= c < 128) s -> utf8_bytes s = s.
Proof.
  unfold utf8_bytes. induction 1 as [|c s Hc _ IH]; [done|]. cbn. unfold utf8_char_bytes at 1. replace (c <? 128) with true by lia.
  cbn. by rewrite IH.
Qed.

(** ** Splitting *)

(** Text in which the pattern starts nowhere, whatever follows. *)
Definition no_start (pat s rest : list Z) : Prop :=
  forall i, (i < length s)%nat -> starts_with pat (drop i s ++ rest) = false.

Lemma split_go_skip pat n cur s rest : length s = n -> split_go pat n cur (s ++ rest) = split_go pat 0 cur rest.
Proof. revert n. induction s as [|x s IH]; intros [|n] Hn; try done. cbn. apply IH. by injection Hn. Qed.

Lemma split_go_pass pat cur s rest : no_start pat s rest -> split_go pat 0 cur (s ++ rest) = split_go pat 0 (cur ++ s) rest.
Proof.
  revert cur. induction s as [|x s IH]; intros cur Hs; [by rewrite app_nil_r|].
  pose proof (Hs 0%nat ltac:(cbn; lia)) as H0. rewrite drop_0 in H0. cbn [app] in *. cbn [split_go]. rewrite H0, IH.
  - by rewrite <-app_assoc.
  - intros i Hi. apply (Hs (S i)). cbn. lia.
Qed.

Lemma starts_with_app pat rest : starts_with pat (pat ++ rest) = true.
Proof. induction pat as [|p pat IH]; [done|]. cbn. by rewrite Z.eqb_refl. Qed.

Lemma split_go_match pat cur rest : pat <> [] -> split_go pat 0 cur (pat ++ rest) = cur :: split_go pat 0 [] rest.
Proof.
  destruct pat as [|p pat]; [done|]. intros _. pose proof (starts_with_app (p :: pat) rest) as E. cbn [app] in E |- *. cbn [split_go].
  rewrite E. f_equal. cbn [length]. apply split_go_skip. lia.
Qed.

Lemma no_start_app pat s1 s2 rest : no_start pat s1 (s2 ++ rest) -> no_start pat s2 rest -> no_start pat (s1 ++ s2) rest.
Proof.
  intros H1 H2 i Hi. rewrite length_app in Hi. destruct (decide (i < length s1)%nat).
  - rewrite drop_app_le by lia. rewrite <-app_assoc. by apply H1.
  - rewrite drop_app_ge by lia. apply H2. lia.
Qed.

(** Characters the pattern does not start with. *)
Lemma no_start_first p pat s rest : Forall (fun c => c <> p) s -> no_start (p :: pat) s rest.
Proof.
  intros Hs i Hi. destruct (drop i s) as [|c l] eqn:E.
  - apply (f_equal length) in E. rewrite length_drop in E. cbn in E. lia.
  - cbn. assert (c <> p) as Hc.
    { rewrite <-(take_drop i s), E in Hs. apply Forall_app in Hs as [_ Hs]. by inversion_clear Hs. }
    replace (p =? c) with false by lia. done.
Qed.

(** ** Lines *)

Lemma chunks_go_concat n fuel l : (0 < n)%nat -> (length l <= fuel)%nat -> concat (chunks_go fuel n l) = l.
Proof.
  intros Hn. revert l. induction fuel as [|fuel IH]; intros l Hl.
  - by apply Nat.le_0_r, nil_length_inv in Hl as ->.
  - destruct l as [|x l]; [done|]. cbn [chunks_go concat]. rewrite IH; [apply take_drop|].
    rewrite length_drop. cbn in *. lia.
Qed.

Lemma pieces_concat n l : (0 < n)%nat -> concat (chunks n l) = l.
Proof. intros. by apply chunks_go_concat. Qed.

Lemma filter_lines s lines :
  Forall (fun c => is_whitespace c = false) s -> concat lines = s ->
  List.filter (fun c => negb (is_whitespace c)) (concat (map (fun line => line ++ [10]) lines)) = s.
Proof.
  intros Hs <-. induction lines as [|l lines IH]; [done|]. cbn in *. apply Forall_app in Hs as [Hl Hs].
  rewrite !List.filter_app, IH by done. cbn. rewrite app_nil_r. f_equal. clear -Hl.
  induction Hl as [|c l Hc _ IH]; [done|]. cbn. by rewrite Hc, IH.
Qed.

Lemma lines_forall (Q : Z -> Prop) s lines : Forall Q s -> Q 10 -> concat lines = s -> Forall Q (concat (map (fun line => line ++ [10]) lines)).
Proof.
  intros Hs H10 <-. induction lines as [|l lines IH]; [constructor|]. cbn in *. apply Forall_app in Hs as [Hl Hs].
  rewrite !Forall_app. split; [split; [done|by constructor]|by apply IH].
Qed.

(** ** PEM *)

(** The text between the markers of a certificate. *)
Definition pem_body (c : bytes) : bytes := [10] ++ concat (map (fun line => line ++ [10]) (chunks 64 (base64_encode c))).

Lemma pem_body_text c : byte_list c -> Forall (fun x => x <> 45 /\ 0 <= x < 128) (pem_body c).
Proof.
  intros Hc. unfold pem_body. apply Forall_app. split; [repeat constructor; lia|].
  apply (lines_forall _ (base64_encode c)); [|lia|by apply pieces_concat; lia].
  eapply Forall_impl; [by apply base64_text|]. by intros x (? & ? & ?).
Qed.

Lemma pem_body_filter c : byte_list c -> List.filter (fun x => negb (is_whitespace x)) (pem_body c) = base64_encode c.
Proof.
  intros Hc. unfold pem_body. rewrite List.filter_app. cbn [List.filter app]. apply filter_lines; [|by apply pieces_concat; lia].
  eapply Forall_impl; [by apply base64_text|]. by intros x [? _].
Qed.

Lemma markers_apart rest : no_start BEGIN_CERT (END_CERT ++ [10]) rest.
Proof. intros i Hi. do 26 (destruct i as [|i]; [reflexivity|]). cbn in Hi. lia. Qed.

Lemma pem_block_one c : byte_list c -> pem_block (pem_body c ++ END_CERT ++ [10]) = Ok c.
Proof.
  intros Hc. unfold pem_block, str_split. rewrite split_go_pass.
  2: { apply no_start_first. eapply Forall_impl; [by apply pem_body_text|]. by intros x [? _]. }
  rewrite split_go_match by done. change (default [] (head (([] ++ pem_body c) :: ?l))) with (pem_body c).
  rewrite pem_body_filter, utf8_bytes_ascii, base64_round_trip; try done.
  eapply Forall_impl; [by apply base64_text|]. by intros x (? & ? & ?).
Qed.

Lemma split_begin certs cur :
  Forall byte_list certs ->
  split_go BEGIN_CERT 0 cur (pem_encode certs) = match certs with
    | [] => [cur]
    | _ => cur :: map (fun c => pem_body c ++ END_CERT ++ [10]) certs
    end.
Proof.
  intros Hc. revert cur. induction Hc as [|c certs Hc _ IH]; intros cur; [done|].
  unfold pem_encode in *. cbn [map concat]. unfold pem_encode_one at 1. rewrite <-!app_assoc.
  rewrite split_go_match by done. f_equal.
  assert (forall rest, [10] ++ concat (map (fun line => line ++ [10]) (chunks 64 (base64_encode c))) ++ END_CERT ++ [10] ++ rest
    = (pem_body c ++ END_CERT ++ [10]) ++ rest) as E.
  { intros rest. unfold pem_body. by rewrite <-!app_assoc. }
  rewrite E, split_go_pass.
  2: { apply no_start_app; [|apply markers_apart]. apply no_start_first. eapply Forall_impl; [by apply pem_body_text|]. by intros x [? _]. }
  rewrite IH. cbn [app map]. destruct certs; done.
Qed.

(** A PEM chain reads back as the certificates it encodes, whatever bytes they are: base64,
    line breaks and markers are undone. *)
Theorem pem_round_trip (certs : list bytes) (Hbytes : Forall byte_list certs) : pem_certs (pem_encode certs) = Ok certs.
Proof.
  unfold pem_certs. rewrite utf8_chars_ascii.
  2: { unfold pem_encode. apply Forall_concat, Forall_map. eapply Forall_impl; [exact Hbytes|]. intros c Hc. unfold pem_encode_one.
       rewrite !Forall_app. split; [by apply (bool_decide_unpack _); vm_compute|].
       pose proof (pem_body_text c Hc) as Hb. unfold pem_body in Hb. apply Forall_app in Hb as [H1 H2].
       split; [repeat constructor; lia|]. split; [eapply Forall_impl; [exact H2|]; by intros x (? & ?)|].
       split; [by apply (bool_decide_unpack _); vm_compute|repeat constructor; lia]. }
  cbn [ok_or result_bind]. unfold str_split. rewrite split_begin by done.
  assert (pem_blocks (map (fun c => pem_body c ++ END_CERT ++ [10]) certs) = Ok certs) as E.
  { induction Hbytes as [|c certs Hc _ IH]; [done|]. cbn [map pem_blocks]. rewrite pem_block_one by done. cbn [result_bind]. by rewrite IH. }
  by destruct certs.
Qed.

Lemma pem_round_trip_witness : pem_certs (pem_encode [[48; 130; 1]; []; [255]]) = Ok [[48; 130; 1]; []; [255]].
Proof. apply (pem_round_trip [[48; 130; 1]; []; [255]]). repeat constructor; lia. Defined.
