(* ===== verification/Tpm.v ===== *)
(** * TPM 2.0 attestation

    Models crates/attest/src/tpm.rs: the structures a TPM signs, the replay of a boot event log into
    the PCRs, the appraisal of a machine's evidence and the credential challenge.  SHA-256, HMAC,
    AES-128, RSA-OAEP, X.509 and ECDSA are libraries, parameters of the model; random bytes are
    arguments. *)

From S2P Require Import Prelude Types Ipld TextCodec Der.
From stdpp Require Import base list list_numbers gmap strings.
From Stdlib Require Import ZArith Lia.

Open Scope Z_scope.
Open Scope bolt_scope.

(** ** The libraries *)

Class TpmCrypto := {
  hmac_sha256 : bytes -> bytes -> bytes;
  aes128_encrypt_block : bytes -> bytes -> bytes;
  RsaKey : Type;
  rsa_from_spki : bytes -> option RsaKey;
  rsa_oaep_encrypt : RsaKey -> bytes -> bytes -> bytes -> option bytes;
  abi_encode_measurement : Z -> list bytes -> bytes;
}.

(** A MAC is 32 bytes, a cipher block 16. *)
Class TpmCryptoLaws (T : TpmCrypto) : Prop := {
  hmac_length : forall key msg, length (hmac_sha256 key msg) = 32%nat /\ byte_list (hmac_sha256 key msg);
  aes_block_length : forall key block, length (aes128_encrypt_block key block) = 16%nat;
}.

(** ** Constants *)

Definition TPM_GENERATED : Z := 4283712327.
Definition ST_ATTEST_QUOTE : Z := 32792.
Definition ALG_SHA256 : Z := 11.
Definition ALG_ECC : Z := 35.
Definition ALG_ECDSA : Z := 24.
Definition ALG_NULL : Z := 16.
Definition ECC_NIST_P256 : Z := 3.

Definition FIXED_TPM : Z := Z.shiftl 1 1.
Definition FIXED_PARENT : Z := Z.shiftl 1 4.
Definition SENSITIVE_DATA_ORIGIN : Z := Z.shiftl 1 5.
Definition USER_WITH_AUTH : Z := Z.shiftl 1 6.
Definition RESTRICTED : Z := Z.shiftl 1 16.
Definition DECRYPT : Z := Z.shiftl 1 17.
Definition SIGN : Z := Z.shiftl 1 18.
Definition AK_ATTRIBUTES : Z :=
  Z.lor (Z.lor (Z.lor (Z.lor FIXED_TPM FIXED_PARENT) SENSITIVE_DATA_ORIGIN) RESTRICTED) SIGN.

Definition EV_NO_ACTION : Z := 3.
Definition EV_IPL : Z := 13.
Definition EV_EFI_BOOT_SERVICES_APPLICATION : Z := 2147483651.
Definition DEFAULT_PCRS : Z := 2303.

(** ** Readers and writers *)

(** A reader is the bytes it has left. *)
Definition R : Type := bytes.

Definition r_bytes (n : Z) (r : R) : result AttestError (bytes * R) :=
  if Z.of_nat (length r) <? n then Err (ETpm "truncated structure")
  else Ok (take (Z.to_nat n) r, drop (Z.to_nat n) r).
Definition r_uint (n : Z) (r : R) : result AttestError (Z * R) :=
  br <-? r_bytes n r; Ok (be_val br.1, br.2).
Definition r_u8 : R -> result AttestError (Z * R) := r_uint 1.
Definition r_u16 : R -> result AttestError (Z * R) := r_uint 2.
Definition r_u32 : R -> result AttestError (Z * R) := r_uint 4.
Definition r_u64 : R -> result AttestError (Z * R) := r_uint 8.
Definition r_tpm2b (r : R) : result AttestError (bytes * R) :=
  nr <-? r_u16 r; r_bytes nr.1 nr.2.
Definition r_done (r : R) : bool := bool_decide (length r = 0%nat).

(** [b.len() as u16], then the bytes. *)
Definition tpm2b (b : bytes) : bytes := be_bytes 2 (Z.of_nat (length b)) ++ b.

(** Reads a value and checks it. *)
Definition r_expect (m : result AttestError (Z * R)) (v : Z) (why : string) : result AttestError R :=
  xr <-? m; if xr.1 =? v then Ok xr.2 else Err (ETpm why).

Definition array32 (b : bytes) : result AttestError bytes :=
  if bool_decide (length b = 32%nat) then Ok b else Err (ETpm "point").

(** Little-endian integers of the event log. *)
Definition le_bytes (n : nat) (x : Z) : bytes := rev (be_bytes n x).
Definition le_val (b : bytes) : Z := be_val (rev b).
Definition le_at (n : Z) (d : bytes) (p : Z) : result AttestError Z :=
  b <-? get_slice d p (p + n) (ETpm "event log"); Ok (le_val b).

Section tpm.
Context `{K : Keccak} `{Sh : Sha256} `{X : X509Lib} `{P : P256} `{T : TpmCrypto}.

(** ** The attestation key's public area *)

Record EccPublic := mkEccPublic { ep_attributes : Z; ep_point : Point; ep_raw : bytes }.

Definition EccPublic_new (attributes : Z) (point : Point) : EccPublic :=
  let b := be_bytes 2 ALG_ECC ++ be_bytes 2 ALG_SHA256 ++ be_bytes 4 attributes ++ tpm2b [] ++ be_bytes 2 ALG_NULL
           ++ be_bytes 2 ALG_ECDSA ++ be_bytes 2 ALG_SHA256 ++ be_bytes 2 ECC_NIST_P256 ++ be_bytes 2 ALG_NULL
           ++ tpm2b point.1 ++ tpm2b point.2 in
  mkEccPublic attributes point b.

Definition EccPublic_parse (raw : bytes) : result AttestError EccPublic :=
  r <-? r_expect (r_u16 raw) ALG_ECC "the attestation key is not an ECC key";
  r <-? r_expect (r_u16 r) ALG_SHA256 "name algorithm is not SHA-256";
  ar <-? r_u32 r;
  pr <-? r_tpm2b ar.2;
  r <-? r_expect (r_u16 pr.2) ALG_NULL "signing key with a symmetric algorithm";
  r <-? r_expect (r_u16 r) ALG_ECDSA "scheme is not ECDSA-SHA256";
  r <-? r_expect (r_u16 r) ALG_SHA256 "scheme is not ECDSA-SHA256";
  r <-? r_expect (r_u16 r) ECC_NIST_P256 "curve is not P-256";
  kr <-? r_u16 r;
  xr <-? r_tpm2b kr.2;
  x <-? array32 xr.1;
  yr <-? r_tpm2b xr.2;
  y <-? array32 yr.1;
  if negb (r_done yr.2) then Err (ETpm "trailing bytes in the public area")
  else Ok (mkEccPublic ar.1 (x, y) raw).

Definition EccPublic_name (e : EccPublic) : bytes := be_bytes 2 ALG_SHA256 ++ sha256 (ep_raw e).

(** ** Quotes *)

Record Quote := mkQuote {
  q_signer : bytes;
  q_extra_data : bytes;
  q_clock : Z;
  q_reset_count : Z;
  q_restart_count : Z;
  q_safe : bool;
  q_firmware : Z;
  q_pcr_mask : Z;
  q_pcr_digest : bytes;
}.

(** [mask |= b << (8 * i)] for the first three bytes of a selection. *)
Fixpoint select_mask (sel : bytes) (i : Z) (mask : Z) : Z :=
  match sel with
  | [] => mask
  | b :: sel => select_mask sel (i + 1) (Z.lor mask (u32 (Z.shiftl b (8 * i))))
  end.

(** The selections: each takes at least three bytes, so the bytes left are enough fuel. *)
Fixpoint parse_selections (fuel : nat) (count mask : Z) (r : R) : result AttestError (Z * R) :=
  if count <=? 0 then Ok (mask, r) else
  match fuel with
  | O => Err Aborted
  | S fuel =>
    ar <-? r_u16 r;
    nr <-? r_u8 ar.2;
    sr <-? r_bytes nr.1 nr.2;
    if negb (ar.1 =? ALG_SHA256) then
      if existsb (fun b => negb (b =? 0)) sr.1 then Err (ETpm "quote selects a bank other than SHA-256")
      else parse_selections fuel (count - 1) mask sr.2
    else parse_selections fuel (count - 1) (select_mask (take 3 sr.1) 0 mask) sr.2
  end.

Definition Quote_parse (raw : bytes) : result AttestError Quote :=
  r <-? r_expect (r_u32 raw) TPM_GENERATED "not generated by a TPM";
  r <-? r_expect (r_u16 r) ST_ATTEST_QUOTE "not a quote";
  signer <-? r_tpm2b r;
  extra <-? r_tpm2b signer.2;
  clock <-? r_u64 extra.2;
  reset <-? r_u32 clock.2;
  restart <-? r_u32 reset.2;
  safe <-? r_u8 restart.2;
  firmware <-? r_u64 safe.2;
  count <-? r_u32 firmware.2;
  mask <-? parse_selections (S (length count.2)) count.1 0 count.2;
  digest <-? r_tpm2b mask.2;
  if negb (r_done digest.2) then Err (ETpm "trailing bytes in the quote")
  else Ok (mkQuote signer.1 extra.1 clock.1 reset.1 restart.1 (negb (safe.1 =? 0)) firmware.1 mask.1 digest.1).

Definition Quote_encode (q : Quote) : bytes :=
  be_bytes 4 TPM_GENERATED ++ be_bytes 2 ST_ATTEST_QUOTE ++ tpm2b (q_signer q) ++ tpm2b (q_extra_data q)
  ++ be_bytes 8 (q_clock q) ++ be_bytes 4 (q_reset_count q) ++ be_bytes 4 (q_restart_count q)
  ++ [if q_safe q then 1 else 0] ++ be_bytes 8 (q_firmware q) ++ be_bytes 4 1 ++ be_bytes 2 ALG_SHA256 ++ [3]
  ++ take 3 (le_bytes 4 (q_pcr_mask q)) ++ tpm2b (q_pcr_digest q).

(** ** Signatures *)

Definition encode_signature (r s : bytes) : bytes :=
  be_bytes 2 ALG_ECDSA ++ be_bytes 2 ALG_SHA256 ++ tpm2b r ++ tpm2b s.

(** A half is cut to its last 32 bytes or padded on the left. *)
Definition signature_half (v : bytes) : bytes :=
  let v := if 32 <? Z.of_nat (length v) then drop (length v - 32) v else v in
  replicate (32 - length v) 0 ++ v.

Definition parse_signature (raw : bytes) : result AttestError bytes :=
  r <-? r_expect (r_u16 raw) ALG_ECDSA "signature is not ECDSA-SHA256";
  r <-? r_expect (r_u16 r) ALG_SHA256 "signature is not ECDSA-SHA256";
  vr <-? r_tpm2b r;
  wr <-? r_tpm2b vr.2;
  Ok (signature_half vr.1 ++ signature_half wr.1).

(** ** PCRs *)

Definition selects (mask : Z) (i : nat) : bool := negb (Z.land mask (Z.shiftl 1 (Z.of_nat i)) =? 0).
Definition selected (pcrs : list bytes) (mask : Z) : list bytes :=
  omap (fun i => pcrs !! i) (List.filter (selects mask) (seq 0 24)).
Definition pcr_digest (pcrs : list bytes) (mask : Z) : bytes :=
  sha256 (concat (map snd (List.filter (fun '(i, _) => selects mask i) (imap (fun i v => (i, v)) pcrs)))).
Definition measurement_bytes (mask : Z) (values : list bytes) : bytes := abi_encode_measurement mask values.

(** ** The event log *)

Record Event := mkEvent { ev_pcr : Z; ev_kind : Z; ev_digest : bytes; ev_data : bytes }.

Definition SPEC_ID : bytes := ascii_bytes "Spec ID Event03" ++ [0].
Definition STARTUP_LOCALITY : bytes := ascii_bytes "StartupLocality" ++ [0].

(** The digest sizes the header declares, by algorithm. *)
Fixpoint read_sizes (fuel : nat) (spec : bytes) (i n : Z) (sizes : gmap Z Z) : result AttestError (gmap Z Z) :=
  if n <=? i then Ok sizes else
  match fuel with
  | O => Err Aborted
  | S fuel =>
    alg <-? le_at 2 spec (28 + 4 * i);
    size <-? le_at 2 spec (30 + 4 * i);
    read_sizes fuel spec (i + 1) n (<[alg := size]> sizes)
  end.

(** The digests of one event: where they end, and the SHA-256 one.  The slice is not checked against
    the end of the log. *)
Fixpoint read_digests (fuel : nat) (log : bytes) (sizes : gmap Z Z) (count q : Z) (digest : option bytes)
    : result AttestError (Z * option bytes) :=
  if count <=? 0 then Ok (q, digest) else
  match fuel with
  | O => Err Aborted
  | S fuel =>
    alg <-? le_at 2 log q;
    len <-? ok_or (sizes !! alg) (ETpm "unknown digest algorithm");
    digest <-? (if alg =? ALG_SHA256 then d <-? index_slice log (q + 2) (q + 2 + len); Ok (Some d) else Ok digest);
    read_digests fuel log sizes (count - 1) (q + 2 + len) digest
  end.

(** [h(old ‖ digest)]. *)
Definition extend (pcrs : list bytes) (pcr : Z) (digest : bytes) : list bytes :=
  <[Z.to_nat pcr := sha256 (default [] (pcrs !! Z.to_nat pcr) ++ digest)]> pcrs.

(** The effect of one event on the PCRs; an [EV_NO_ACTION] event is not kept. *)
Definition apply_event (pcr kind : Z) (digest : option bytes) (data : bytes) (pcrs : list bytes) (events : list Event)
    : result AttestError (list bytes * list Event) :=
  if 24 <=? pcr then Err (ETpm "PCR index") else
  if kind =? EV_NO_ACTION then
    if starts_with STARTUP_LOCALITY data && (pcr =? 0)
    then Ok (<[0%nat := replicate 31 0 ++ [default 0 (data !! 16%nat)]]> pcrs, events)
    else Ok (pcrs, events)
  else
    digest <-? ok_or digest (ETpm "event without a SHA-256 digest");
    Ok (extend pcrs pcr digest, events ++ [mkEvent pcr kind digest data]).

(** Every event takes at least 16 bytes. *)
Fixpoint replay_loop (fuel : nat) (log : bytes) (sizes : gmap Z Z) (p : Z) (pcrs : list bytes) (events : list Event)
    : result AttestError (list bytes * list Event) :=
  if Z.of_nat (length log) <=? p then Ok (pcrs, events) else
  match fuel with
  | O => Err Aborted
  | S fuel =>
    pcr <-? le_at 4 log p;
    kind <-? le_at 4 log (p + 4);
    count <-? le_at 4 log (p + 8);
    qd <-? read_digests (S (length log)) log sizes count (p + 12) None;
    let '(q, digest) := qd in
    dlen <-? le_at 4 log q;
    data <-? get_slice log (q + 4) (q + 4 + dlen) (ETpm "event data");
    pe <-? apply_event pcr kind digest data pcrs events;
    replay_loop fuel log sizes (q + 4 + dlen) pe.1 pe.2
  end.

Definition replay (log : bytes) : result AttestError (list bytes * list Event) :=
  size <-? le_at 4 log 28;
  spec <-? get_slice log 32 (32 + size) (ETpm "event log header");
  if negb (starts_with SPEC_ID spec) then Err (ETpm "not a crypto-agile event log") else
  n <-? le_at 4 spec 24;
  sizes <-? read_sizes (S (length spec)) spec 0 n ∅;
  if negb (bool_decide (sizes !! ALG_SHA256 = Some 32)) then Err (ETpm "the event log has no SHA-256 bank") else
  replay_loop (S (length log)) log sizes (32 + size) (replicate 24 (replicate 32 0)) [].

Definition encode_event (e : Event) : bytes :=
  le_bytes 4 (ev_pcr e) ++ le_bytes 4 (ev_kind e) ++ le_bytes 4 1 ++ le_bytes 2 ALG_SHA256 ++ ev_digest e
  ++ le_bytes 4 (Z.of_nat (length (ev_data e))) ++ ev_data e.

Definition log_spec : bytes :=
  SPEC_ID ++ le_bytes 4 0 ++ [0; 2; 0; 2] ++ le_bytes 4 1 ++ le_bytes 2 ALG_SHA256 ++ le_bytes 2 32 ++ [0].

Definition encode_log (events : list Event) : bytes :=
  le_bytes 4 0 ++ le_bytes 4 EV_NO_ACTION ++ replicate 20 0 ++ le_bytes 4 (Z.of_nat (length log_spec)) ++ log_spec
  ++ concat (map encode_event events).

(** ** Appraisal *)

Record Evidence := mkEvidence {
  e_ek_cert : bytes;
  e_ek_chain : list bytes;
  e_ak_public : bytes;
  e_quote : bytes;
  e_signature : bytes;
  e_event_log : bytes;
}.

Record Appraisal := mkAppraisal {
  ap_machine_id : B256;
  ap_ak_name : bytes;
  ap_qualifying_data : bytes;
  ap_pcr_mask : Z;
  ap_pcrs : list bytes;
  ap_measurement : B256;
  ap_ek_spki : bytes;
}.

Fixpoint parse_all (why : string) (l : list bytes) : result AttestError (list X509) :=
  match l with
  | [] => Ok []
  | c :: l => x <-? ok_or (x509_from_der c) (ETpm why); r <-? parse_all why l; Ok (x :: r)
  end.

Definition in_time (now : Z) (c : X509) : bool := (u64 (x_not_before c) <=? now) && (now <=? u64 (x_not_after c)).

(** The first anchor with the issuer's name. *)
Definition anchor_of (anchors : list X509) (c : X509) : option X509 :=
  List.find (fun r => bool_decide (x_subject r = x_issuer c)) anchors.

Fixpoint walk_chain (anchors : list X509) (now : Z) (cur : X509) (chain : list X509) : result AttestError unit :=
  if negb (in_time now cur) then Err (ETpm "EK certificate chain out of its validity") else
  if match anchor_of anchors cur with Some root => x509_verify_signature cur root | None => false end then Ok () else
  match chain with
  | [] => Err (ETpm "EK certificate does not chain to a trusted TPM vendor")
  | next :: chain =>
    if negb (bool_decide (x_subject next = x_issuer cur)) || negb (x509_verify_signature cur next)
    then Err (ETpm "EK certificate chain signature")
    else walk_chain anchors now next chain
  end.

Definition appraise (ev : Evidence) (roots : list bytes) (now : Z) : result AttestError Appraisal :=
  ek <-? ok_or (x509_from_der (e_ek_cert ev)) (ETpm "EK certificate");
  chain <-? parse_all "EK chain" (e_ek_chain ev);
  anchors <-? parse_all "TPM root" roots;
  _ <-? walk_chain anchors now ek chain;
  let ek_spki := x_spki ek in
  ak <-? EccPublic_parse (e_ak_public ev);
  if negb (Z.land (ep_attributes ak) AK_ATTRIBUTES =? AK_ATTRIBUTES) || negb (Z.land (ep_attributes ak) DECRYPT =? 0)
  then Err (ETpm "the attestation key is not a restricted TPM-bound signing key") else
  sig <-? parse_signature (e_signature ev);
  if negb (p256_verify_raw (e_quote ev) sig (ep_point ak)) then Err (ETpm "quote signature") else
  q <-? Quote_parse (e_quote ev);
  if negb (bool_decide (q_signer q = EccPublic_name ak)) then Err (ETpm "quote signed by another key") else
  pe <-? replay (e_event_log ev);
  let pcrs := pe.1 in
  if negb (bool_decide (q_pcr_digest q = pcr_digest pcrs (q_pcr_mask q))) then Err (ETpm "PCR digest does not match the event log") else
  let values := selected pcrs (q_pcr_mask q) in
  Ok (mkAppraisal (keccak256 ek_spki) (EccPublic_name ak) (q_extra_data q) (q_pcr_mask q) values
        (keccak256 (measurement_bytes (q_pcr_mask q) values)) ek_spki).

Definition activation_data (binding agent_hash : B256) : B256 := keccak256 (be_bytes 32 binding ++ be_bytes 32 agent_hash).

(** ** The credential challenge *)

(** [while out.len() < bytes]: every block adds 32 bytes. *)
Fixpoint kdfa_loop (fuel : nat) (key label u v : bytes) (bits counter : Z) (out : bytes) : bytes :=
  match fuel with
  | O => out
  | S fuel =>
    if Z.of_nat (length out) <? div_ceil bits 8
    then kdfa_loop fuel key label u v bits (u32 (counter + 1))
           (out ++ hmac_sha256 key (be_bytes 4 counter ++ label ++ [0] ++ u ++ v ++ be_bytes 4 bits))
    else out
  end.
Definition kdfa (key label u v : bytes) (bits : Z) : bytes :=
  take (Z.to_nat (div_ceil bits 8)) (kdfa_loop (Z.to_nat (div_ceil bits 8)) key label u v bits 1 []).

(** The chunks of 16, the last one short; [iv] is overwritten from its start. *)
Fixpoint cfb_loop (key : bytes) (decrypt : bool) (iv : bytes) (cs : list bytes) : bytes :=
  match cs with
  | [] => []
  | chunk :: cs =>
    let ks := aes128_encrypt_block key iv in
    let o := zip_with Z.lxor chunk ks in
    let fb := if decrypt then chunk else o in
    o ++ cfb_loop key decrypt (fb ++ drop (length fb) iv) cs
  end.
Definition aes_cfb (key data : bytes) (decrypt : bool) : result AttestError bytes :=
  if negb (bool_decide (length key = 16%nat)) then Err Aborted
  else Ok (cfb_loop key decrypt (replicate 16 0) (chunks 16 data)).

Definition hmac256 (key : bytes) (parts : list bytes) : bytes := hmac_sha256 key (concat parts).

Definition STORAGE : bytes := ascii_bytes "STORAGE".
Definition INTEGRITY : bytes := ascii_bytes "INTEGRITY".
Definition IDENTITY : bytes := ascii_bytes "IDENTITY" ++ [0].

Definition make_credential (ek_spki ak_name secret seed oaep_rng : bytes) : result AttestError (bytes * bytes) :=
  ek <-? ok_or (rsa_from_spki ek_spki) (ETpm "only RSA endorsement keys are supported");
  enc_seed <-? ok_or (rsa_oaep_encrypt ek IDENTITY seed oaep_rng) (ETpm "OAEP");
  let sym := kdfa seed STORAGE ak_name [] 128 in
  enc_identity <-? aes_cfb sym (tpm2b secret) false;
  let hmac_key := kdfa seed INTEGRITY [] [] 256 in
  let integrity := hmac256 hmac_key [enc_identity; ak_name] in
  let inner := tpm2b integrity ++ enc_identity in
  Ok (tpm2b inner, tpm2b enc_seed).

Definition open_credential (seed ak_name blob : bytes) : result AttestError bytes :=
  inner <-? r_tpm2b blob;
  ir <-? r_tpm2b inner.1;
  let enc_identity := ir.2 in
  let hmac_key := kdfa seed INTEGRITY [] [] 256 in
  if negb (bool_decide (hmac256 hmac_key [enc_identity; ak_name] = ir.1)) then Err (ETpm "credential integrity") else
  let sym := kdfa seed STORAGE ak_name [] 128 in
  plain <-? aes_cfb sym enc_identity true;
  sr <-? r_tpm2b plain;
  Ok sr.1.
End tpm.
