(* ===== verification/TpmFacts.v ===== *)
(** * TPM structures: round trips

    What a TPM encodes reads back: public areas, quotes, signatures, event logs and credential
    challenges. *)

From S2P Require Import Prelude Types Ipld TextCodec Der DerFacts Tpm.
From stdpp Require Import base list list_numbers gmap strings.
From Stdlib Require Import ZArith Lia.

Open Scope Z_scope.
Open Scope bolt_scope.

(** ** Readers *)

Lemma r_bytes_app b rest n : Z.of_nat (length b) = n -> r_bytes n (b ++ rest) = Ok (b, rest).
Proof.
  intros <-. unfold r_bytes. rewrite length_app. destruct (Z.ltb_spec (Z.of_nat (length b + length rest)) (Z.of_nat (length b))); [lia|].
  rewrite Nat2Z.id. by rewrite take_app_length, drop_app_length.
Qed.

Lemma r_uint_be n x rest k : Z.of_nat n = k -> in_range (8 * k) x -> r_uint k (be_bytes n x ++ rest) = Ok (x, rest).
Proof.
  intros <- Hx. unfold r_uint. rewrite r_bytes_app by by rewrite be_bytes_length. cbn [result_bind fst snd]. by rewrite be_val_bytes_small.
Qed.

Lemma r_expect_be n x rest k why : Z.of_nat n = k -> in_range (8 * k) x -> r_expect (r_uint k (be_bytes n x ++ rest)) x why = Ok rest.
Proof. intros. unfold r_expect. rewrite r_uint_be by done. cbn. by rewrite Z.eqb_refl. Qed.

Lemma r_tpm2b_app b rest : Z.of_nat (length b) < 65536 -> r_tpm2b (tpm2b b ++ rest) = Ok (b, rest).
Proof.
  intros Hb. unfold r_tpm2b, tpm2b, r_u16. rewrite <-app_assoc, r_uint_be by (done || (unfold in_range; lia)). cbn [result_bind fst snd].
  by apply r_bytes_app.
Qed.

Lemma tpm2b_nil_end b : tpm2b b = tpm2b b ++ [].
Proof. by rewrite app_nil_r. Qed.

(** ** Public areas *)

Section structures.
Context `{K : Keccak} `{Sh : Sha256} `{X : X509Lib} `{P : P256} `{T : TpmCrypto}.

Lemma EccPublic_round_trip attributes x y :
  in_range 32 attributes -> length x = 32%nat -> length y = 32%nat ->
  EccPublic_parse (ep_raw (EccPublic_new attributes (x, y))) = Ok (EccPublic_new attributes (x, y)).
Proof.
  intros Ha Hx Hy. unfold EccPublic_new. cbn [ep_raw fst snd]. unfold EccPublic_parse. unfold r_u16, r_u32.
  rewrite r_expect_be by done. cbn [result_bind]. rewrite r_expect_be by done. cbn [result_bind].
  rewrite r_uint_be by done. cbn [result_bind fst snd]. rewrite r_tpm2b_app by done. cbn [result_bind fst snd].
  do 4 (rewrite r_expect_be by done; cbn [result_bind]). rewrite r_uint_be by done. cbn [result_bind fst snd].
  rewrite r_tpm2b_app by lia. cbn [result_bind fst snd]. unfold array32. rewrite bool_decide_true by done. cbn [result_bind].
  rewrite (tpm2b_nil_end y) at 1. rewrite r_tpm2b_app by lia. cbn [result_bind fst snd]. rewrite bool_decide_true by done. done.
Qed.

(** ** Quotes *)

(** Fields that fit their encodings; a mask selects among 24 PCRs. *)
Record quote_ok (q : Quote) : Prop := {
  qo_signer : Z.of_nat (length (q_signer q)) < 65536;
  qo_extra : Z.of_nat (length (q_extra_data q)) < 65536;
  qo_digest : Z.of_nat (length (q_pcr_digest q)) < 65536;
  qo_clock : in_range 64 (q_clock q);
  qo_reset : in_range 32 (q_reset_count q);
  qo_restart : in_range 32 (q_restart_count q);
  qo_firmware : in_range 64 (q_firmware q);
  qo_mask : in_range 24 (q_pcr_mask q);
}.

Lemma select_mask_le m : in_range 24 m -> select_mask (take 3 (le_bytes 4 m)) 0 0 = m.
Proof.
  intros Hm. unfold in_range in Hm. unfold le_bytes. cbn -[Z.modulo Z.div Z.lor Z.shiftl wrap].
  rewrite Z.lor_0_l. change (8 * 0) with 0. change (8 * 1) with 8. change (8 * 2) with 16. unfold wrap.
  rewrite !Z.shiftl_mul_pow2 by done. rewrite !(Z.mod_small (_ * _)) by (eval_pow; euclid).
  match goal with |- Z.lor (Z.lor ?a ?b) ?c = _ => rewrite (Z.lor_comm a b), (Z.lor_comm _ c), (lor_low 8 b a), (lor_low 16 c) end.
  all: eval_pow; euclid.
Qed.

Lemma Quote_round_trip q : quote_ok q -> Quote_parse (Quote_encode q) = Ok q.
Proof.
  intros []. unfold Quote_encode, Quote_parse, r_u16, r_u32, r_u64.
  rewrite r_expect_be by done. cbn [result_bind]. rewrite r_expect_be by done. cbn [result_bind].
  do 2 (rewrite r_tpm2b_app by done; cbn [result_bind fst snd]). do 3 (rewrite r_uint_be by done; cbn [result_bind fst snd]).
  unfold r_u8, r_uint at 1. rewrite (r_bytes_app [_]) by done. cbn [result_bind fst snd]. do 2 (rewrite r_uint_be by done; cbn [result_bind fst snd]).
  cbn [parse_selections]. change (1 <=? 0) with false. cbv iota. unfold r_u16. rewrite r_uint_be by done. cbn [result_bind fst snd].
  unfold r_u8, r_uint. rewrite (r_bytes_app [3]) by done. cbn [result_bind fst snd]. change (be_val [3]) with 3.
  rewrite r_bytes_app by done. cbn [result_bind fst snd]. rewrite Z.eqb_refl. cbn [negb].
  rewrite take_take. change (3 `min` 3)%nat with 3%nat. rewrite select_mask_le by done.
  rewrite (tpm2b_nil_end (q_pcr_digest q)).
  assert (forall fuel m r, parse_selections fuel (1 - 1) m r = Ok (m, r)) as -> by (by intros []).
  cbn [result_bind fst snd]. rewrite r_tpm2b_app by done. cbn [result_bind fst snd].
  change (negb (r_done [])) with false. cbv iota. f_equal. destruct q as [? ? ? ? ? [] ? ? ?]; done.
Qed.

Lemma signature_round_trip r s :
  length r = 32%nat -> length s = 32%nat -> parse_signature (encode_signature r s) = Ok (r ++ s).
Proof.
  intros Hr Hs. unfold parse_signature, encode_signature, r_u16. do 2 (rewrite r_expect_be by done; cbn [result_bind]).
  rewrite r_tpm2b_app by lia. cbn [result_bind fst snd]. rewrite (tpm2b_nil_end s), r_tpm2b_app by lia. cbn [result_bind fst snd].
  unfold signature_half. rewrite Hr, Hs. change (32 <? Z.of_nat 32) with false. cbv iota zeta. rewrite Hr, Hs. done.
Qed.
End structures.

(** ** Positions in a log *)

Lemma le_at_app pre s a n : 0 <= a -> le_at n (pre ++ s) (Z.of_nat (length pre) + a) = le_at n s a.
Proof. intros Ha. unfold le_at. rewrite <-Z.add_assoc, get_slice_app by done. done. Qed.

Lemma le_bytes_length n x : length (le_bytes n x) = n.
Proof. unfold le_bytes. by rewrite length_rev, be_bytes_length. Qed.

Lemma le_at_here n x rest k : Z.of_nat n = k -> in_range (8 * k) x -> le_at k (le_bytes n x ++ rest) 0 = Ok x.
Proof.
  intros <- Hx. unfold le_at. rewrite Z.add_0_l. 
  pose proof (get_slice_here (le_bytes n x) rest (ETpm "event log")) as E. rewrite le_bytes_length in E. rewrite E.
  cbn [result_bind]. unfold le_val, le_bytes. by rewrite rev_involutive, be_val_bytes_small.
Qed.

(** Skips a field of known length. *)
Lemma le_at_skip n b s k a : Z.of_nat (length b) = k -> k <= a -> le_at n (b ++ s) a = le_at n s (a - k).
Proof. intros <- Ha. rewrite <-(le_at_app b s (a - _)) by lia. f_equal. lia. Qed.

(** ** Event logs *)

Section events.
Context `{Sh : Sha256}.

Record event_ok (e : Event) : Prop := {
  eo_pcr : 0 <= ev_pcr e < 24;
  eo_kind : in_range 32 (ev_kind e);
  eo_digest : length (ev_digest e) = 32%nat;
  eo_data : Z.of_nat (length (ev_data e)) < 2 ^ 32;
}.

(** What one event does to the PCRs, and whether it is kept. *)
Definition event_pcrs (pcrs : list bytes) (e : Event) : list bytes :=
  if ev_kind e =? EV_NO_ACTION then
    if starts_with STARTUP_LOCALITY (ev_data e) && (ev_pcr e =? 0)
    then <[0%nat := replicate 31 0 ++ [default 0 (ev_data e !! 16%nat)]]> pcrs else pcrs
  else extend pcrs (ev_pcr e) (ev_digest e).
Definition event_kept (e : Event) : bool := negb (ev_kind e =? EV_NO_ACTION).

Lemma apply_event_ok e pcrs events :
  event_ok e ->
  apply_event (ev_pcr e) (ev_kind e) (Some (ev_digest e)) (ev_data e) pcrs events
  = Ok (event_pcrs pcrs e, events ++ List.filter event_kept [e]).
Proof.
  intros []. unfold apply_event, event_pcrs, event_kept. cbn [List.filter]. replace (24 <=? ev_pcr e) with false by lia.
  destruct (ev_kind e =? EV_NO_ACTION); cbn; [|by destruct e]. rewrite app_nil_r. by destruct (_ && _).
Qed.

Definition event_length (e : Event) : Z := 50 + Z.of_nat (length (ev_data e)).

Lemma encode_event_length e : event_ok e -> Z.of_nat (length (encode_event e)) = event_length e.
Proof.
  intros []. unfold encode_event, event_length. rewrite !length_app, !le_bytes_length. lia.
Qed.

(** The fields of an event at its start. *)
Lemma event_fields e rest :
  event_ok e ->
  let s := encode_event e ++ rest in
  le_at 4 s 0 = Ok (ev_pcr e) /\ le_at 4 s 4 = Ok (ev_kind e) /\ le_at 4 s 8 = Ok 1 /\ le_at 2 s 12 = Ok ALG_SHA256
  /\ (forall er, get_slice s 14 46 er = Ok (ev_digest e)) /\ le_at 4 s 46 = Ok (Z.of_nat (length (ev_data e)))
  /\ (forall er, get_slice s 50 (50 + Z.of_nat (length (ev_data e))) er = Ok (ev_data e)).
Proof.
  intros []. cbn zeta. unfold encode_event. rewrite <-!app_assoc.
  assert (forall n x, Z.of_nat (length (le_bytes n x)) = Z.of_nat n) as Hl by (intros; by rewrite le_bytes_length).
  assert (in_range 32 (ev_pcr e)) by (unfold in_range; lia). assert (in_range 32 (Z.of_nat (length (ev_data e)))) by (unfold in_range; lia).
  split_and!; intros; repeat first
    [ rewrite (le_at_skip _ (le_bytes _ _) _ _ _ (Hl _ _)) by (cbn; lia)
    | rewrite (get_slice_skip (le_bytes _ _) _ _ _ _ _ (Hl _ _)) by (cbn; lia)
    | rewrite (le_at_skip _ (ev_digest e) _ 32) by (cbn; lia)
    | rewrite (get_slice_skip (ev_digest e) _ 32) by (cbn; lia) ];
    try (apply le_at_here; done || (unfold in_range, ALG_SHA256; lia)).
  - match goal with |- get_slice _ ?a ?b _ = _ => replace a with 0 by (cbn; lia); replace b with (Z.of_nat (length (ev_digest e))) by (cbn; lia) end.
    apply get_slice_here.
  - match goal with |- get_slice _ ?a ?b _ = _ => replace a with 0 by (cbn; lia); replace b with (Z.of_nat (length (ev_data e))) by (cbn; lia) end.
    apply get_slice_here.
Qed.

Lemma digests_ok pre e rest sizes n :
  event_ok e -> sizes !! ALG_SHA256 = Some 32 ->
  read_digests (S n) (pre ++ encode_event e ++ rest) sizes 1 (Z.of_nat (length pre) + 12) None
  = Ok (Z.of_nat (length pre) + 46, Some (ev_digest e)).
Proof.
  intros He Hs. destruct (event_fields e rest He) as (_ & _ & _ & Ha & Hd & _). cbn zeta in *.
  cbn [read_digests]. change (1 <=? 0) with false. cbv iota. rewrite le_at_app, Ha by lia. cbn [result_bind]. rewrite Hs. cbn [ok_or result_bind].
  rewrite Z.eqb_refl. unfold index_slice. replace (Z.of_nat (length pre) + 12 + 2) with (Z.of_nat (length pre) + 14) by lia.
  replace (Z.of_nat (length pre) + 14 + 32) with (Z.of_nat (length pre) + 46) by lia. rewrite get_slice_app, Hd by lia. cbn [result_bind].
  by destruct n.
Qed.

Lemma replay_events es : forall fuel pre sizes pcrs events,
  Forall event_ok es -> sizes !! ALG_SHA256 = Some 32 -> (length es < fuel)%nat ->
  replay_loop fuel (pre ++ concat (map encode_event es)) sizes (Z.of_nat (length pre)) pcrs events
  = Ok (foldl event_pcrs pcrs es, events ++ List.filter event_kept es).
Proof.
  induction es as [|e es IH]; intros fuel pre sizes pcrs events Hes Hs Hf.
  - cbn [map concat]. rewrite app_nil_r. destruct fuel; cbn [replay_loop]; rewrite Z.leb_refl; by rewrite app_nil_r.
  - apply Forall_cons in Hes as [He Hes]. destruct fuel as [|fuel]; [cbn in Hf; lia|]. cbn [map concat].
    destruct (event_fields e (concat (map encode_event es)) He) as (F0 & F1 & F2 & _ & _ & F3 & F4). cbn zeta in *.
    pose proof (encode_event_length e He) as Hl. unfold event_length in Hl.
    cbn [replay_loop].
    match goal with |- (if Z.of_nat (length ?l) <=? _ then _ else _) = _ => assert (Z.of_nat (length pre) < Z.of_nat (length l)) as Hlt end.
    { rewrite !length_app. lia. }
    apply Z.leb_gt in Hlt. rewrite Hlt. clear Hlt.
    rewrite <-(Z.add_0_r (Z.of_nat (length pre))) at 1. rewrite le_at_app, F0 by lia. cbn [result_bind].
    rewrite le_at_app, F1 by lia. cbn [result_bind]. rewrite le_at_app, F2 by lia. cbn [result_bind].
    rewrite digests_ok by done. cbn [result_bind]. rewrite le_at_app, F3 by lia. cbn [result_bind].
    rewrite <-!Z.add_assoc, get_slice_app by lia. change (46 + 4) with 50.
    replace (46 + (4 + Z.of_nat (length (ev_data e)))) with (50 + Z.of_nat (length (ev_data e))) by lia. rewrite F4. cbn [result_bind].
    rewrite apply_event_ok by done. cbn [result_bind fst snd].
    replace (Z.of_nat (length pre) + (50 + Z.of_nat (length (ev_data e)))) with (Z.of_nat (length (pre ++ encode_event e)))
      by (rewrite length_app; lia).
    rewrite app_assoc, IH by (try done; cbn in Hf; lia). cbn [foldl]. rewrite <-app_assoc. do 3 f_equal. by cbn; destruct (event_kept e).
Qed.

Lemma spec_length : length log_spec = 33%nat.
Proof. done. Qed.

Lemma encode_log_many es : (length es <= length (concat (map encode_event es)))%nat.
Proof.
  induction es as [|e es IH]; [done|]. cbn [map concat length]. rewrite length_app. enough (0 < length (encode_event e))%nat by lia.
  unfold encode_event. rewrite !length_app, !le_bytes_length. lia.
Qed.
End events.

(** Replaying an encoded event log succeeds and gives the PCRs obtained by applying the events
    in order from zero (extending the PCR of each, or setting the locality), and the events that
    extend a PCR. *)
Theorem event_log_round_trip `{Sh : Sha256} (events : list Event) (Hok : Forall event_ok events) :
  replay (encode_log events) = Ok (foldl event_pcrs (replicate 24 (replicate 32 0)) events, List.filter event_kept events).
Proof.
  unfold replay, encode_log.
  assert (forall n x, Z.of_nat (length (le_bytes n x)) = Z.of_nat n) as Hl by (intros; by rewrite le_bytes_length).
  set (tail := concat (map encode_event events)).
  assert (le_at 4 (le_bytes 4 0 ++ le_bytes 4 EV_NO_ACTION ++ replicate 20 0 ++ le_bytes 4 (Z.of_nat (length log_spec)) ++ log_spec ++ tail) 28 = Ok 33) as ->.
  { do 2 (rewrite (le_at_skip _ (le_bytes _ _) _ _ _ (Hl _ _)) by (cbn; lia)). rewrite (le_at_skip _ (replicate 20 0) _ 20) by (cbn; lia).
    by apply le_at_here. }
  cbn [result_bind].
  assert (forall er, get_slice (le_bytes 4 0 ++ le_bytes 4 EV_NO_ACTION ++ replicate 20 0 ++ le_bytes 4 (Z.of_nat (length log_spec)) ++ log_spec ++ tail) 32 (32 + 33) er = Ok log_spec) as ->.
  { intros er. do 2 (rewrite (get_slice_skip (le_bytes _ _) _ _ _ _ _ (Hl _ _)) by (cbn; lia)). rewrite (get_slice_skip (replicate 20 0) _ 20) by (cbn; lia).
    rewrite (get_slice_skip (le_bytes _ _) _ _ _ _ _ (Hl _ _)) by (cbn; lia). apply (get_slice_here log_spec). }
  cbn [result_bind]. change (negb (starts_with SPEC_ID log_spec)) with false. cbv iota.
  change (le_at 4 log_spec 24) with (Ok (E := AttestError) 1). cbn [result_bind].
  change (read_sizes (S (length log_spec)) log_spec 0 1 ∅) with (Ok (E := AttestError) (<[ALG_SHA256 := 32]> (∅ : gmap Z Z))).
  cbn [result_bind]. rewrite bool_decide_true by apply lookup_insert_eq. cbn [negb].
  rewrite !app_assoc. set (pre := (((_ ++ _) ++ _) ++ _) ++ log_spec).
  change (32 + 33) with (Z.of_nat (length pre)). unfold tail. rewrite replay_events; [done|done|apply lookup_insert_eq|].
  rewrite length_app. pose proof (encode_log_many events). lia.
Qed.
