(* ===== verification/TpmProps.v ===== *)
(** * TPM attestation: theorems

    The credential challenge gives the secret back to the holder of the seed, an accepted appraisal
    rests on a chain of certificates and on the replayed boot log, and the witnesses of the TPM
    theorems. *)

From S2P Require Import Prelude Types Ipld TextCodec Der DerFacts Tpm TpmFacts.
From stdpp Require Import base list list_numbers gmap strings.
From Stdlib Require Import ZArith Lia.

Open Scope Z_scope.
Open Scope bolt_scope.

(** ** The cipher *)

Section credential.
Context `{Sh : Sha256} `{T : TpmCrypto} `{TL : !TpmCryptoLaws T}.

Lemma lxor_twice a b : length a = length b -> zip_with Z.lxor (zip_with Z.lxor a b) b = a.
Proof.
  revert b. induction a as [|x a IH]; intros [|y b] Hl; try done. cbn. rewrite IH by (by injection Hl).
  by rewrite Z.lxor_assoc, Z.lxor_nilpotent, Z.lxor_0_r.
Qed.

(** The chunks of 16: full ones, and a last one that may be short. *)
Inductive sixteens : list bytes -> Prop :=
  | sixteens_nil : sixteens []
  | sixteens_last c : (length c <= 16)%nat -> sixteens [c]
  | sixteens_cons c cs : length c = 16%nat -> sixteens cs -> sixteens (c :: cs).

Lemma zip_with_app_take (a b : bytes) : zip_with Z.lxor a b = zip_with Z.lxor a (take (length a) b).
Proof. revert b. induction a as [|x a IH]; intros [|y b]; try done. cbn. by rewrite <-IH. Qed.

Lemma cfb_length key dec iv cs : sixteens cs -> length (cfb_loop key dec iv cs) = length (concat cs).
Proof.
  intros Hs. revert iv. induction Hs as [|c Hc|c cs Hc _ IH]; intros iv; [done| |]; cbn [cfb_loop concat].
  - rewrite !app_nil_r. rewrite length_zip_with, aes_block_length. lia.
  - rewrite !length_app, length_zip_with, aes_block_length, IH. lia.
Qed.

(** The encrypted chunks, chunk by chunk. *)
Fixpoint cfb_chunks (key iv : bytes) (cs : list bytes) : list bytes :=
  match cs with
  | [] => []
  | c :: cs => let o := zip_with Z.lxor c (aes128_encrypt_block key iv) in o :: cfb_chunks key (o ++ drop (length o) iv) cs
  end.

Lemma cfb_concat key iv cs : cfb_loop key false iv cs = concat (cfb_chunks key iv cs).
Proof. revert iv. induction cs as [|c cs IH]; intros iv; [done|]. cbn. by rewrite IH. Qed.

Lemma cfb_chunk_sizes key iv cs : sixteens cs -> sixteens (cfb_chunks key iv cs) /\ map length (cfb_chunks key iv cs) = map length cs.
Proof.
  intros Hs. revert iv. induction Hs as [|c Hc|c cs Hc Hs IH]; intros iv; cbn [cfb_chunks map].
  - split; [constructor|done].
  - split; [apply sixteens_last|f_equal]; rewrite length_zip_with, aes_block_length; lia.
  - destruct (IH (zip_with Z.lxor c (aes128_encrypt_block key iv) ++ drop (length (zip_with Z.lxor c (aes128_encrypt_block key iv))) iv)) as [H1 H2].
    split; [apply sixteens_cons; [|exact H1]|rewrite H2; f_equal]; by rewrite length_zip_with, aes_block_length, Hc.
Qed.

Lemma cfb_inverse key iv cs : sixteens cs -> cfb_loop key true iv (cfb_chunks key iv cs) = concat cs.
Proof.
  intros Hs. revert iv. induction Hs as [|c Hc|c cs Hc Hs IH]; intros iv; [done| |]; cbn [cfb_chunks cfb_loop concat].
  - f_equal. set (ks := aes128_encrypt_block key iv).
    assert (length ks = 16%nat) as Hk by apply aes_block_length.
    rewrite (zip_with_app_take c ks), (zip_with_app_take (zip_with _ _ _) ks).
    rewrite length_zip_with, length_take, Hk. replace (length c `min` (length c `min` 16))%nat with (length c) by lia.
    apply lxor_twice. rewrite length_take. lia.
  - rewrite lxor_twice by (by rewrite aes_block_length). f_equal. apply IH.
Qed.

(** Cutting again what was cut into chunks. *)
Lemma chunks_sixteens fuel l : (length l <= fuel)%nat -> sixteens (chunks_go fuel 16 l).
Proof.
  revert l. induction fuel as [|fuel IH]; intros l Hl; [destruct l; constructor|].
  destruct l as [|x l]; [constructor|]. cbn [chunks_go]. set (l' := x :: l) in *.
  destruct (decide (length l' <= 16)%nat) as [Hs|Hs].
  - rewrite drop_ge, take_ge by done. destruct fuel; by constructor.
  - apply sixteens_cons; [rewrite length_take; lia|]. apply IH. rewrite length_drop. cbn in *. lia.
Qed.

Lemma chunks_of_concat cs fuel :
  sixteens cs -> Forall (fun c => c <> []) cs -> (length (concat cs) <= fuel)%nat -> chunks_go fuel 16 (concat cs) = cs.
Proof.
  intros Hs. revert fuel. induction Hs as [|c Hc|c cs Hc Hs IH]; intros fuel Hne Hf.
  - by destruct fuel.
  - cbn in *. rewrite app_nil_r in *. apply Forall_cons in Hne as [Hne _]. destruct c as [|x c]; [done|].
    destruct fuel as [|fuel]; [cbn in Hf; lia|]. cbn [chunks_go]. rewrite drop_ge, take_ge by done. by destruct fuel.
  - apply Forall_cons in Hne as [Hne Hnes]. cbn [concat] in *. rewrite length_app in Hf. destruct fuel as [|fuel]; [lia|].
    destruct c as [|x c]; [done|]. cbn [chunks_go app].
    change (take 16 (x :: c ++ concat cs) :: chunks_go fuel 16 (drop 16 (x :: c ++ concat cs)) = (x :: c) :: cs).
    change (x :: c ++ concat cs) with ((x :: c) ++ concat cs). rewrite take_app_length', drop_app_length' by done.
    f_equal. apply IH; [done|lia].
Qed.

Lemma chunks_nonempty n fuel l : (0 < n)%nat -> Forall (fun c => c <> []) (chunks_go fuel n l).
Proof.
  intros Hn. revert l. induction fuel as [|fuel IH]; intros l; [destruct l; constructor|].
  destruct l as [|x l]; [constructor|]. cbn [chunks_go]. constructor; [|apply IH]. by destruct n; [lia|].
Qed.

Lemma same_sizes_nonempty (l m : list bytes) :
  map length m = map length l -> Forall (fun c => c <> []) l -> Forall (fun c => c <> []) m.
Proof.
  revert m. induction l as [|c l IH]; intros [|d m] Hlen Hne; try done. cbn in Hlen. injection Hlen as E1 E2.
  apply Forall_cons in Hne as [Hne Hnes]. constructor; [|by apply IH]. intros ->. symmetry in E1. by apply nil_length_inv in E1.
Qed.

Lemma aes_cfb_inverse key data c : aes_cfb key data false = Ok c -> length c = length data /\ aes_cfb key c true = Ok data.
Proof.
  unfold aes_cfb. destruct (negb _); [done|]. intros [= <-].
  assert (sixteens (chunks 16 data)) as Hs by (by apply chunks_sixteens).
  pose proof (chunks_nonempty 16 (length data) data ltac:(lia)) as Hne.
  rewrite cfb_length by done. rewrite pieces_concat by lia. split; [done|]. f_equal.
  destruct (cfb_chunk_sizes key (replicate 16 0) (chunks 16 data) Hs) as [Hc Hlen].
  rewrite cfb_concat. unfold chunks at 1. rewrite chunks_of_concat; [|done| |done].
  - rewrite cfb_inverse by done. apply pieces_concat. lia.
  - by apply (same_sizes_nonempty (chunks 16 data)).
Qed.

(** ** The challenge *)

Lemma kdfa_length key label u v bits : 0 < bits <= 256 -> length (kdfa key label u v bits) = Z.to_nat (div_ceil bits 8).
Proof.
  intros Hb. unfold kdfa. rewrite length_take. enough (Z.to_nat (div_ceil bits 8) <= length (kdfa_loop (Z.to_nat (div_ceil bits 8)) key label u v bits 1 []))%nat by lia.
  assert (1 <= div_ceil bits 8 <= 32) as Hd.
  { unfold div_ceil. split; [apply Z.div_le_lower_bound; lia|]. apply Z.lt_succ_r, Z.div_lt_upper_bound; lia. }
  destruct (Z.to_nat (div_ceil bits 8)) as [|n] eqn:E; [lia|]. cbn [kdfa_loop length]. change (Z.of_nat 0) with 0.
  replace (0 <? div_ceil bits 8) with true by lia. cbn [app].
  assert (forall fuel c out, (length out <= length (kdfa_loop fuel key label u v bits c out))%nat) as Hmono.
  { induction fuel as [|fuel IH]; intros c out; cbn [kdfa_loop]; [done|]. destruct (_ <? _); [|done]. etrans; [|apply IH]. rewrite length_app. lia. }
  etrans; [|apply Hmono]. match goal with |- context [hmac_sha256 ?k ?m] => destruct (hmac_length k m) as [Hl _] end. rewrite Hl. lia.
Qed.

(** A credential challenge made for a seed opens under the same seed and key name and gives
    the secret back: the cipher, the integrity check and the encodings are undone. *)
Theorem credential_round_trip (ek_spki ak_name secret seed oaep_rng : bytes) (enc_seed : bytes) (ek : RsaKey)
    (Hek : rsa_from_spki ek_spki = Some ek) (Hoaep : rsa_oaep_encrypt ek IDENTITY seed oaep_rng = Some enc_seed)
    (Hlen : Z.of_nat (length secret) <= 65000) :
  exists blob enc, make_credential ek_spki ak_name secret seed oaep_rng = Ok (blob, enc) /\ enc = tpm2b enc_seed
    /\ open_credential seed ak_name blob = Ok secret.
Proof.
  unfold make_credential. rewrite Hek. cbn [ok_or result_bind]. rewrite Hoaep. cbn [ok_or result_bind].
  set (sym := kdfa seed STORAGE ak_name [] 128).
  assert (length sym = 16%nat) as Hsym by (unfold sym; by rewrite kdfa_length).
  destruct (aes_cfb sym (tpm2b secret) false) as [c|e] eqn:Ec.
  2: { unfold aes_cfb in Ec. by rewrite bool_decide_true in Ec. }
  destruct (aes_cfb_inverse _ _ _ Ec) as [Hc Hd]. cbn [result_bind]. eexists _, _. split; [done|]. split; [done|].
  assert (length (tpm2b secret) = (2 + length secret)%nat) as Ht by done.
  set (mac := hmac256 _ _). assert (length mac = 32%nat) as Hm by apply hmac_length.
  unfold open_credential. rewrite (tpm2b_nil_end (_ ++ _)), r_tpm2b_app.
  2: { rewrite length_app. change (length (tpm2b mac)) with (2 + length mac)%nat. lia. }
  cbn [result_bind fst snd]. rewrite r_tpm2b_app by lia. cbn [result_bind fst snd]. rewrite bool_decide_true by done. cbn [negb].
  fold sym. rewrite Hd. cbn [result_bind]. rewrite (tpm2b_nil_end secret), r_tpm2b_app by lia. done.
Qed.
End credential.

(** ** Appraisal *)

Section appraisal.
Context `{K : Keccak} `{Sh : Sha256} `{X : X509Lib} `{P : P256} `{T : TpmCrypto}.

(** A certificate in its validity whose issuer is an anchor, or a certificate chained itself; every
    link is a verified signature under the name of the issuer. *)
Inductive chained (anchors : list X509) (now : Z) : X509 -> Prop :=
  | chained_root c root :
      in_time now c = true -> root ∈ anchors -> x_subject root = x_issuer c -> x509_verify_signature c root = true ->
      chained anchors now c
  | chained_next c next :
      in_time now c = true -> x_subject next = x_issuer c -> x509_verify_signature c next = true -> chained anchors now next ->
      chained anchors now c.

Lemma walk_chain_sound anchors now chain : forall cur, walk_chain anchors now cur chain = Ok () -> chained anchors now cur.
Proof.
  assert (forall cur, in_time now cur = true ->
    match anchor_of anchors cur with Some root => x509_verify_signature cur root | None => false end = true -> chained anchors now cur) as Hroot.
  { intros cur Et. destruct (anchor_of anchors cur) as [root|] eqn:Ea; [|done]. intros Hv.
    apply List.find_some in Ea as [Hin Hs]. apply bool_decide_eq_true in Hs. apply (chained_root _ _ cur root); try done. by apply list_elem_of_In. }
  induction chain as [|next chain IH]; intros cur; cbn [walk_chain]; destruct (in_time now cur) eqn:Et; cbn [negb]; try done;
    destruct (match anchor_of anchors cur with Some root => _ | None => false end) eqn:Er; try done; try (intros _; by apply Hroot).
  destruct (bool_decide _) eqn:Es; [|done]. destruct (x509_verify_signature cur next) eqn:Ev; [|done]. cbn. intros Hw.
  apply (chained_next _ _ cur next); [done|by apply bool_decide_eq_true in Es|done|by apply IH].
Qed.

(** ** The replayed PCRs *)

Lemma apply_event_length pcr kind digest data pcrs events r :
  apply_event pcr kind digest data pcrs events = Ok r -> length r.1 = length pcrs.
Proof.
  unfold apply_event. destruct (24 <=? pcr); [done|]. destruct (kind =? EV_NO_ACTION).
  - destruct (_ && _); intros [= <-]; [apply length_insert|done].
  - destruct digest; [|done]. cbn. intros [= <-]. apply length_insert.
Qed.

Lemma replay_loop_length log sizes fuel : forall p pcrs events r,
  replay_loop fuel log sizes p pcrs events = Ok r -> length r.1 = length pcrs.
Proof.
  induction fuel as [|fuel IH]; intros p pcrs events r; cbn [replay_loop]; destruct (_ <=? p); try (by intros [= <-]).
  intros Hr. destruct (le_at 4 log p) as [pcr|]; [|done]. cbn [result_bind] in Hr. destruct (le_at 4 log (p + 4)) as [kind|]; [|done]. cbn [result_bind] in Hr.
  destruct (le_at 4 log (p + 8)) as [count|]; [|done]. cbn [result_bind] in Hr.
  destruct (read_digests _ _ _ _ _ _) as [[q digest]|]; [|done]. cbn [result_bind] in Hr.
  destruct (le_at 4 log q) as [dlen|]; [|done]. cbn [result_bind] in Hr.
  destruct (get_slice _ _ _ _) as [data|]; [|done]. cbn [result_bind] in Hr.
  destruct (apply_event _ _ _ _ _ _) as [pe|] eqn:Ea; [|done]. cbn [result_bind] in Hr.
  rewrite (IH _ _ _ _ Hr). by eapply apply_event_length.
Qed.

Lemma replay_length log pcrs events : replay log = Ok (pcrs, events) -> length pcrs = 24%nat.
Proof.
  unfold replay. destruct (le_at 4 log 28) as [size|]; [|done]. cbn [result_bind].
  destruct (get_slice _ _ _ _) as [spec|]; [|done]. cbn [result_bind]. destruct (negb _); [done|].
  destruct (le_at 4 spec 24) as [n|]; [|done]. cbn [result_bind]. destruct (read_sizes _ _ _ _ _) as [sizes|]; [|done]. cbn [result_bind].
  destruct (negb _); [done|]. intros Hr. by apply replay_loop_length in Hr.
Qed.

(** What a quote's digest covers is the list of values the appraisal reports. *)
Lemma pcr_digest_selected pcrs mask : length pcrs = 24%nat -> pcr_digest pcrs mask = sha256 (concat (selected pcrs mask)).
Proof.
  intros Hl. unfold pcr_digest, selected. do 2 f_equal. rewrite <-Hl. clear Hl.
  assert (forall k (l : list bytes), map snd (List.filter (fun '(i, _) => selects mask i) (imap (fun i v => ((k + i)%nat, v)) l))
    = omap (fun i => l !! (i - k)%nat) (List.filter (selects mask) (seq k (length l)))) as H.
  { intros k l. revert k. induction l as [|x l IH]; intros k; [done|]. rewrite imap_cons. cbn [length seq].
    cbn [List.filter]. rewrite Nat.add_0_r.
    assert (imap ((fun i v => ((k + i)%nat, v)) ∘ S) l = imap (fun i v => ((S k + i)%nat, v)) l) as -> by (apply imap_ext; intros; cbn; f_equal; lia).
    assert (omap (fun i => (x :: l) !! (i - k)%nat) (List.filter (selects mask) (seq (S k) (length l)))
      = omap (fun i => l !! (i - S k)%nat) (List.filter (selects mask) (seq (S k) (length l)))) as E.
    { apply list_omap_ext. apply Forall_Forall2_diag, Forall_forall. intros i Hi. apply list_elem_of_In, List.filter_In in Hi as [Hi _].
      apply in_seq in Hi. by replace (i - k)%nat with (S (i - S k)) by lia. }
    destruct (selects mask k) eqn:Es; cbn [map omap list_omap snd].
    - rewrite Nat.sub_diag. cbn. f_equal. rewrite E. apply (IH (S k)).
    - rewrite E. apply (IH (S k)). }
  specialize (H 0%nat pcrs). cbn [Nat.add] in H. rewrite H. apply list_omap_ext, Forall_Forall2_diag, Forall_true. intros i. by rewrite Nat.sub_0_r.
Qed.

(** C20.  An accepted appraisal rests on what it claims: the endorsement key's certificate chains to
    a trusted root within validity; the quote is signed by a restricted, TPM-bound signing key that
    cannot decrypt and names it; and the reported PCR values are those the event log replays to, and
    those the signed digest covers. *)
Theorem appraisal_rests_on_tpm (ev : Evidence) (roots : list bytes) (now : Z) (a : Appraisal)
    (Hok : appraise ev roots now = Ok a) :
  exists ek anchors ak sig q pcrs events,
    x509_from_der (e_ek_cert ev) = Some ek /\ parse_all "TPM root" roots = Ok anchors /\ chained anchors now ek
    /\ ap_machine_id a = keccak256 (x_spki ek)
    /\ EccPublic_parse (e_ak_public ev) = Ok ak /\ ap_ak_name a = EccPublic_name ak
    /\ Z.land (ep_attributes ak) AK_ATTRIBUTES = AK_ATTRIBUTES /\ Z.land (ep_attributes ak) DECRYPT = 0
    /\ parse_signature (e_signature ev) = Ok sig /\ p256_verify_raw (e_quote ev) sig (ep_point ak) = true
    /\ Quote_parse (e_quote ev) = Ok q /\ q_signer q = EccPublic_name ak /\ ap_qualifying_data a = q_extra_data q
    /\ replay (e_event_log ev) = Ok (pcrs, events) /\ ap_pcr_mask a = q_pcr_mask q /\ ap_pcrs a = selected pcrs (q_pcr_mask q)
    /\ q_pcr_digest q = sha256 (concat (ap_pcrs a))
    /\ ap_measurement a = keccak256 (measurement_bytes (ap_pcr_mask a) (ap_pcrs a)).
Proof.
  unfold appraise in Hok. destruct (x509_from_der _) as [ek|]; [|done]. cbn [ok_or result_bind] in Hok.
  destruct (parse_all "EK chain" _) as [chain|]; [|done]. cbn [result_bind] in Hok.
  destruct (parse_all "TPM root" _) as [anchors|]; [|done]. cbn [result_bind] in Hok.
  destruct (walk_chain _ _ _ _) as [[]|] eqn:Ew; [|done]. cbn [result_bind] in Hok.
  destruct (EccPublic_parse _) as [ak|]; [|done]. cbn [result_bind] in Hok.
  destruct (Z.land (ep_attributes ak) AK_ATTRIBUTES =? AK_ATTRIBUTES) eqn:E1; [|done].
  destruct (Z.land (ep_attributes ak) DECRYPT =? 0) eqn:E2; [|done]. cbn [negb orb] in Hok.
  destruct (parse_signature _) as [sig|]; [|done]. cbn [result_bind] in Hok. destruct (p256_verify_raw _ _ _) eqn:Ev; [|done]. cbn [negb] in Hok.
  destruct (Quote_parse _) as [q|]; [|done]. cbn [result_bind] in Hok. destruct (bool_decide (q_signer q = _)) eqn:Es; [|done]. cbn [negb] in Hok.
  destruct (replay _) as [[pcrs events]|] eqn:Er; [|done]. cbn [result_bind fst] in Hok.
  destruct (bool_decide (q_pcr_digest q = _)) eqn:Ed; [|done]. cbn [negb] in Hok. injection Hok as <-.
  apply bool_decide_eq_true in Es, Ed. exists ek, anchors, ak, sig, q, pcrs, events. cbn -[selected AK_ATTRIBUTES DECRYPT].
  rewrite Ed, pcr_digest_selected by by eapply replay_length. split_and!; try done; try lia. by eapply walk_chain_sound.
Qed.
End appraisal.

(** A log whose first event ends inside its digest makes [replay] panic instead of reporting an
    error. *)
Lemma truncated_log_aborts `{Sh : Sha256} :
  replay (encode_log [] ++ le_bytes 4 0 ++ le_bytes 4 EV_IPL ++ le_bytes 4 1 ++ le_bytes 2 ALG_SHA256) = Err Aborted.
Proof. vm_compute. reflexivity. Qed.

(** ** Witnesses *)

Module TpmWitness.
#[export] Instance w_keccak : Keccak := fun b => be_val b mod 2 ^ 256.
#[export] Instance w_sha : Sha256 := fun d => map (fun x => x mod 256) (take 32 (rev d ++ replicate 32 0)).

#[export] Instance w_crypto : TpmCrypto := {|
  hmac_sha256 key msg := map (fun x => x mod 256) (take 32 (rev msg ++ key ++ replicate 32 0));
  aes128_encrypt_block key block := take 16 (map (fun x => x + 1) block ++ replicate 16 0);
  RsaKey := unit;
  rsa_from_spki _ := Some tt;
  rsa_oaep_encrypt _ _ msg _ := Some msg;
  abi_encode_measurement mask values := be_bytes 4 mask ++ concat values;
|}.

#[export] Instance w_crypto_laws : TpmCryptoLaws w_crypto.
Proof.
  split; intros; cbn -[take replicate].
  - rewrite length_map, length_take, !length_app, length_replicate. split; [lia|].
    apply Forall_map, Forall_true. intros x. apply Z.mod_pos_bound. lia.
  - rewrite length_take, length_app, length_replicate. lia.
Qed.

(** A vendor root (the certificate [[2]]) and a machine's certificate ([[1]]). *)
Definition cert (subject issuer : bytes) : X509 := mkX509 [] [] [] [] [] issuer subject 10 1000 (subject ++ [7]).
#[export] Instance w_x509 : X509Lib := {|
  x509_from_der d := match d with [1] => Some (cert [65] [66]) | [2] => Some (cert [66] [66]) | _ => None end;
  crl_from_der _ := None;
  x509_verify_signature c key := bool_decide (x_issuer c = x_subject key);
|}.
#[export] Instance w_p256 : P256 := {|
  P256Signature := bytes;
  P256Key := unit;
  sig_from_slice s := Some s;
  sig_from_der s := Some s;
  key_from_sec1 _ := Some tt;
  ecdsa_verify _ _ sig := bool_decide (length sig = 64%nat);
|}.

Definition events : list Event :=
  [mkEvent 0 EV_NO_ACTION (replicate 32 0) (STARTUP_LOCALITY ++ [3]); mkEvent 0 EV_IPL (replicate 32 5) [1; 2]; mkEvent 11 EV_IPL (replicate 32 6) []].

Lemma events_ok : Forall event_ok events.
Proof. repeat constructor; cbn; try reflexivity; try discriminate. Qed.

Lemma event_log_round_trip_witness :
  exists pcrs, replay (encode_log events) = Ok (pcrs, drop 1 events) /\ pcrs !! 11%nat = Some (sha256 (replicate 32 0 ++ replicate 32 6)).
Proof.
  exists (foldl event_pcrs (replicate 24 (replicate 32 0)) events). split.
  - rewrite (event_log_round_trip events events_ok). reflexivity.
  - vm_compute. reflexivity.
Defined.

Lemma credential_round_trip_witness :
  exists blob enc, make_credential [1] [0; 11] [42; 43; 44] (replicate 32 1) [] = Ok (blob, enc)
    /\ open_credential (replicate 32 1) [0; 11] blob = Ok [42; 43; 44].
Proof.
  destruct (credential_round_trip [1] [0; 11] [42; 43; 44] (replicate 32 1) [] (replicate 32 1) (tt : @RsaKey w_crypto) eq_refl eq_refl ltac:(cbn; lia))
    as (blob & enc & E & _ & Eo).
  exists blob, enc. split; [exact E|exact Eo].
Defined.

Definition ak : EccPublic := EccPublic_new AK_ATTRIBUTES (replicate 32 3, replicate 32 4).
Definition quote : Quote :=
  mkQuote (EccPublic_name ak) [9] 1 2 3 true 4 2049 (pcr_digest (foldl event_pcrs (replicate 24 (replicate 32 0)) events) 2049).
Definition evidence : Evidence :=
  mkEvidence [1] [] (ep_raw ak) (Quote_encode quote) (encode_signature (replicate 32 1) (replicate 32 2)) (encode_log events).

Lemma appraisal_rests_on_tpm_witness :
  exists a, appraise evidence [[2]] 100 = Ok a /\ ap_pcr_mask a = 2049
    /\ exists q, Quote_parse (e_quote evidence) = Ok q /\ q_pcr_digest q = sha256 (concat (ap_pcrs a)).
Proof.
  destruct (appraise evidence [[2]] 100) as [a|e] eqn:E; [|vm_compute in E; discriminate].
  exists a. split; [reflexivity|]. split; [vm_compute in E; injection E as <-; reflexivity|].
  destruct (appraisal_rests_on_tpm evidence [[2]] 100 a E)
    as (ek & anchors & k & sig & q & pcrs & evs & _ & _ & _ & _ & _ & _ & _ & _ & _ & _ & Eq & _ & _ & _ & _ & _ & Ed & _).
  exists q. split; [exact Eq|exact Ed].
Defined.
End TpmWitness.
