(* ===== verification/Intel.v ===== *)
(** * Intel attestation collateral

    Models crates/attest/src/intel.rs: the CAs under the trust anchor, revocations, TCB info and the
    quoting enclave's identity, how documents replace older ones, the status of a platform and of a
    quoting enclave, and the SGX extension of a PCK certificate.  JSON parsing, the [hex] crate and
    RFC 3339 dates are libraries, parameters of the model; the order in which a hash map is
    traversed is an argument. *)

From S2P Require Import Prelude Types Ipld TextCodec Der.
From stdpp Require Import base list list_numbers gmap strings.
From Stdlib Require Import ZArith Lia.

Open Scope Z_scope.
Open Scope bolt_scope.

(** ** JSON documents *)

(** [serde_json::Value]. *)
Inductive Value :=
  | JNull
  | JBool (b : bool)
  | JPosInt (n : Z)
  | JNegInt (n : Z)
  | JFloat
  | JString (s : bytes)
  | JArray (l : list Value)
  | JObject (fields : list (bytes * Value)).

(** [v[key]]: [Null] where there is no such field. *)
Definition field (key : string) (v : Value) : Value :=
  match v with
  | JObject fields => match List.find (fun '(k, _) => bool_decide (k = ascii_bytes key)) fields with Some (_, x) => x | None => JNull end
  | _ => JNull
  end.
Definition as_str (v : Value) : option bytes := match v with JString s => Some s | _ => None end.
Definition as_u64 (v : Value) : option Z := match v with JPosInt n => Some n | _ => None end.
Definition as_array (v : Value) : option (list Value) := match v with JArray l => Some l | _ => None end.
Definition is_str (v : Value) (s : string) : bool := bool_decide (as_str v = Some (ascii_bytes s)).

(** The parsed document ([tcbInfo], [enclaveIdentity] and [signature], the first two as raw text), a
    value, hexadecimal text and dates. *)
Class JsonDocs := {
  json_signed : bytes -> option (option bytes * option bytes * bytes);
  json_value : bytes -> option Value;
  hex_text : bytes -> option bytes;
  rfc3339 : bytes -> option Z;
}.

(** ** TCB statuses *)

Definition UNKNOWN : Z := 0.
Definition UP_TO_DATE : Z := 1.
Definition SW_HARDENING_NEEDED : Z := 2.
Definition CONFIGURATION_NEEDED : Z := 3.
Definition CONFIGURATION_AND_SW_HARDENING_NEEDED : Z := 4.
Definition OUT_OF_DATE : Z := 5.
Definition OUT_OF_DATE_CONFIGURATION_NEEDED : Z := 6.
Definition REVOKED : Z := 7.

Definition status_name (s : Z) : string :=
  if s =? 1 then "UpToDate" else if s =? 2 then "SWHardeningNeeded" else if s =? 3 then "ConfigurationNeeded"
  else if s =? 4 then "ConfigurationAndSWHardeningNeeded" else if s =? 5 then "OutOfDate"
  else if s =? 6 then "OutOfDateConfigurationNeeded" else if s =? 7 then "Revoked" else "Unknown".
Definition status_parse (s : bytes) : option Z := List.find (fun i => bool_decide (ascii_bytes (status_name i) = s)) (seqZ 1 7).

(** ** State *)

Record Ca := mkCa { ca_key : Point; ca_not_after : Z }.

Record TcbLevel := mkTcbLevel { tl_sgx : bytes; tl_pcesvn : Z; tl_tdx : bytes; tl_status : Z }.

Record TdxModule := mkTdxModule {
  tm_mrsigner : bytes;
  tm_attributes : bytes;
  tm_mask : bytes;
  tm_levels : list (Z * Z);
}.

Record TcbInfo := mkTcbInfo {
  ti_evaluation : Z;
  ti_issue_date : Z;
  ti_next_update : Z;
  ti_seam_mrsigner : bytes;
  ti_seam_attributes : bytes;
  ti_seam_mask : bytes;
  ti_levels : list TcbLevel;
  ti_modules : gmap Z TdxModule;
}.

Record QeIdentity := mkQeIdentity {
  qi_evaluation : Z;
  qi_issue_date : Z;
  qi_next_update : Z;
  qi_miscselect : bytes;
  qi_miscselect_mask : bytes;
  qi_attributes : bytes;
  qi_attributes_mask : bytes;
  qi_mrsigner : bytes;
  qi_isvprodid : Z;
  qi_levels : list (Z * Z);
}.

Record Collateral := mkCollateral {
  co_root : Point;
  co_cas : gmap B256 Ca;
  co_revoked : gset (B256 * bytes);
  co_crl_this_update : gmap B256 Z;
  co_tcb : gmap bytes TcbInfo;
  co_qe : option QeIdentity;
}.

Definition Collateral_with_root (root : Point) : Collateral := mkCollateral root ∅ ∅ ∅ ∅ None.

(** ** Fields of a document *)

Section collateral.
Context `{K : Keccak} `{X : X509Lib} `{P : P256} `{J : JsonDocs}.

Definition hexn (n : nat) (v : Value) : result AttestError bytes :=
  s <-? ok_or (as_str v) (ECollateral "expected a hex string");
  b <-? ok_or (hex_text s) (ECollateral "hex");
  if bool_decide (length b = n) then Ok b else Err (ECollateral "hex length").

Definition uint (v : Value) : result AttestError Z := ok_or (as_u64 v) (ECollateral "expected a number").

Definition date (v : Value) : result AttestError Z :=
  s <-? ok_or (as_str v) (ECollateral "expected a date");
  t <-? ok_or (rfc3339 s) (ECollateral "date");
  Ok (u64 t).

(** Maps until the first error. *)
Fixpoint each {A B} (f : A -> result AttestError B) (l : list A) : result AttestError (list B) :=
  match l with
  | [] => Ok []
  | x :: l => y <-? f x; r <-? each f l; Ok (y :: r)
  end.

Definition svns (v : Value) : result AttestError bytes :=
  a <-? ok_or (as_array v) (ECollateral "components");
  if negb (bool_decide (length a = 16%nat)) then Err (ECollateral "components")
  else each (fun c => n <-? uint (field "svn" c); Ok (u8 n)) a.

Definition st (v : Value) : result AttestError Z :=
  ok_or (status_parse (default [] (as_str v))) (ECollateral "status").

Definition hex_or_empty (v : Value) : result AttestError bytes := ok_or (hex_text (default [] (as_str v))) (ECollateral "hex").

(** [u8::from_str_radix(h, 16)]. *)
Fixpoint hex_digits (l : bytes) (acc : Z) : option Z :=
  match l with
  | [] => Some acc
  | c :: l => d ← to_digit16 c; if acc * 16 + d <=? 255 then hex_digits l (acc * 16 + d) else None
  end.
Definition u8_from_hex (h : bytes) : option Z :=
  match h with
  | [] => None
  | [43] => None
  | 43 :: h => hex_digits h 0
  | h => hex_digits h 0
  end.

Definition strip_prefix (pre s : bytes) : option bytes := if starts_with pre s then Some (drop (length pre) s) else None.

(** ** Certificates and revocations *)

Definition add_ca (col : Collateral) (der : bytes) (now : Z) : result AttestError (B256 * Collateral) :=
  c <-? Cert_parse der;
  if negb (Cert_signed_by c (co_root col)) then Err (ESignature "CA certificate") else
  if negb (valid_at c now) then Err (EExpired "CA certificate") else
  if bool_decide ((ce_issuer c, ce_serial c) ∈ co_revoked col) then Err ERevoked else
  Ok (ce_subject c,
      mkCollateral (co_root col) (<[ce_subject c := mkCa (ce_key c) (ce_not_after c)]> (co_cas col)) (co_revoked col)
        (co_crl_this_update col) (co_tcb col) (co_qe col)).

Definition add_crl (col : Collateral) (der : bytes) : result AttestError Collateral :=
  l <-? Crl_parse der;
  let key := default (co_root col) (ca_key <$> co_cas col !! cr_issuer l) in
  if negb (Crl_signed_by l key) then Err (ESignature "CRL") else
  if cr_this_update l <=? default 0 (co_crl_this_update col !! cr_issuer l) then Err (ECollateral "CRL not newer") else
  Ok (mkCollateral (co_root col) (co_cas col) (co_revoked col ∪ list_to_set (map (fun s => (cr_issuer l, s)) (cr_serials l)))
        (<[cr_issuer l := cr_this_update l]> (co_crl_this_update col)) (co_tcb col) (co_qe col)).

Definition is_revoked (col : Collateral) (issuer : B256) (serial : bytes) : bool := bool_decide ((issuer, serial) ∈ co_revoked col).

(** The first CA, in the order of the map, under which the signature verifies. *)
Fixpoint find_signer (order : list (B256 * Ca)) (body sig : bytes) (now : Z) : result AttestError B256 :=
  match order with
  | [] => Err (ESignature "collateral")
  | (subject, ca) :: order =>
    if p256_verify_raw body sig (ca_key ca) then
      if ca_not_after ca <? now then Err (EExpired "collateral signer") else Ok subject
    else find_signer order body sig now
  end.
Definition check_signed (order : list (B256 * Ca)) (body sig : bytes) (now : Z) : result AttestError B256 :=
  sig <-? ok_or (hex_text sig) (ECollateral "signature hex");
  find_signer order body sig now.

(** ** TCB info and identities *)

Definition not_newer (evaluation issue_date cur_evaluation cur_issue_date : Z) : bool :=
  (evaluation <? cur_evaluation) || ((evaluation =? cur_evaluation) && (issue_date <=? cur_issue_date)).

Definition tcb_level (l : Value) : result AttestError TcbLevel :=
  let t := field "tcb" l in
  sgx <-? svns (field "sgxtcbcomponents" t);
  pcesvn <-? uint (field "pcesvn" t);
  tdx <-? svns (field "tdxtcbcomponents" t);
  status <-? st (field "tcbStatus" l);
  Ok (mkTcbLevel sgx (u16 pcesvn) tdx status).

(** An [isvsvn] level, at the width of its type. *)
Definition isv_level (w : Z) (l : Value) : result AttestError (Z * Z) :=
  n <-? uint (field "isvsvn" (field "tcb" l));
  s <-? st (field "tcbStatus" l);
  Ok (wrap w n, s).

Definition tdx_module (e : Value) : result AttestError (Z * TdxModule) :=
  let id := default [] (as_str (field "id" e)) in
  major <-? ok_or (h ← strip_prefix (ascii_bytes "TDX_") id; u8_from_hex h) (ECollateral "module id");
  ls <-? ok_or (as_array (field "tcbLevels" e)) (ECollateral "tcbLevels");
  lv <-? each (isv_level 8) ls;
  mrsigner <-? hex_or_empty (field "mrsigner" e);
  attributes <-? hexn 8 (field "attributes" e);
  mask <-? hexn 8 (field "attributesMask" e);
  Ok (major, mkTdxModule mrsigner attributes mask lv).

Definition set_tcb_info (order : list (B256 * Ca)) (col : Collateral) (json : bytes) (now : Z)
    : result AttestError (bytes * B256 * Collateral) :=
  doc <-? ok_or (json_signed json) (ECollateral "JSON");
  let '(tcb_info, _, signature) := doc in
  raw <-? ok_or tcb_info (ECollateral "tcbInfo");
  signer <-? check_signed order raw signature now;
  i <-? ok_or (json_value raw) (ECollateral "JSON");
  if negb (is_str (field "id" i) "TDX") || negb (bool_decide (as_u64 (field "version" i) = Some 3)) then Err (ECollateral "not TDX TCB info v3") else
  fmspc <-? hexn 6 (field "fmspc" i);
  evaluation <-? uint (field "tcbEvaluationDataNumber" i);
  let evaluation := u32 evaluation in
  issue_date <-? date (field "issueDate" i);
  if match co_tcb col !! fmspc with
     | Some cur => not_newer evaluation issue_date (ti_evaluation cur) (ti_issue_date cur)
     | None => false
     end then Err (ECollateral "TCB info not newer") else
  let m := field "tdxModule" i in
  ls <-? ok_or (as_array (field "tcbLevels" i)) (ECollateral "tcbLevels");
  levels <-? each tcb_level ls;
  modules <-? each tdx_module (default [] (as_array (field "tdxModuleIdentities" i)));
  next_update <-? date (field "nextUpdate" i);
  seam_mrsigner <-? hex_or_empty (field "mrsigner" m);
  seam_attributes <-? hexn 8 (field "attributes" m);
  seam_mask <-? hexn 8 (field "attributesMask" m);
  let info := mkTcbInfo evaluation issue_date next_update seam_mrsigner seam_attributes seam_mask levels
                (foldl (fun acc '(major, tm) => <[major := tm]> acc) ∅ modules) in
  Ok (fmspc, signer, mkCollateral (co_root col) (co_cas col) (co_revoked col) (co_crl_this_update col) (<[fmspc := info]> (co_tcb col)) (co_qe col)).

Definition set_qe_identity (order : list (B256 * Ca)) (col : Collateral) (json : bytes) (now : Z) : result AttestError (B256 * Collateral) :=
  doc <-? ok_or (json_signed json) (ECollateral "JSON");
  let '(_, enclave_identity, signature) := doc in
  raw <-? ok_or enclave_identity (ECollateral "enclaveIdentity");
  signer <-? check_signed order raw signature now;
  e <-? ok_or (json_value raw) (ECollateral "JSON");
  if negb (is_str (field "id" e) "TD_QE") then Err (ECollateral "not the TD_QE identity") else
  evaluation <-? uint (field "tcbEvaluationDataNumber" e);
  let evaluation := u32 evaluation in
  issue_date <-? date (field "issueDate" e);
  if match co_qe col with
     | Some cur => not_newer evaluation issue_date (qi_evaluation cur) (qi_issue_date cur)
     | None => false
     end then Err (ECollateral "QE identity not newer") else
  ls <-? ok_or (as_array (field "tcbLevels" e)) (ECollateral "tcbLevels");
  levels <-? each (isv_level 16) ls;
  next_update <-? date (field "nextUpdate" e);
  miscselect <-? hexn 4 (field "miscselect" e);
  miscselect_mask <-? hexn 4 (field "miscselectMask" e);
  attributes <-? hexn 16 (field "attributes" e);
  attributes_mask <-? hexn 16 (field "attributesMask" e);
  mrsigner <-? hexn 32 (field "mrsigner" e);
  isvprodid <-? uint (field "isvprodid" e);
  let qe := mkQeIdentity evaluation issue_date next_update miscselect miscselect_mask attributes attributes_mask mrsigner (u16 isvprodid) levels in
  Ok (signer, mkCollateral (co_root col) (co_cas col) (co_revoked col) (co_crl_this_update col) (co_tcb col) (Some qe)).

(** ** Statuses *)

Definition masked (a m : bytes) : bytes := zip_with Z.land a m.

(** [(from..16).all(|k| a[k] >= b[k])]. *)
Definition at_least (from : nat) (a b : bytes) : bool :=
  forallb (fun k => default 0 (b !! k) <=? default 0 (a !! k)) (seq from (16 - from)).

Definition level_for (levels : list (Z * Z)) (svn : Z) : option Z := snd <$> List.find (fun '(v, _) => v <=? svn) levels.

(** The status of the TDX module: [None] where the collateral does not know it. *)
Definition module_status (info : TcbInfo) (tee_tcb_svn mr_signer_seam seam_attributes : bytes) : option Z :=
  let major := default 0 (tee_tcb_svn !! 1%nat) in
  if major =? 0 then
    if negb (bool_decide (mr_signer_seam = ti_seam_mrsigner info))
       || negb (bool_decide (masked seam_attributes (ti_seam_mask info) = ti_seam_attributes info)) then None
    else Some UP_TO_DATE
  else
    mi ← ti_modules info !! major;
    if negb (bool_decide (mr_signer_seam = tm_mrsigner mi)) || negb (bool_decide (masked seam_attributes (tm_mask mi) = tm_attributes mi)) then None
    else level_for (tm_levels mi) (default 0 (tee_tcb_svn !! 0%nat)).

Definition level_matches (comp_svn : bytes) (pcesvn : Z) (tee_tcb_svn : bytes) (l : TcbLevel) : bool :=
  let from := if default 0 (tee_tcb_svn !! 1%nat) =? 0 then 0%nat else 2%nat in
  (tl_pcesvn l <=? pcesvn) && at_least 0 comp_svn (tl_sgx l) && at_least from tee_tcb_svn (tl_tdx l).

Definition tdx_status (col : Collateral) (fmspc comp_svn : bytes) (pcesvn : Z) (tee_tcb_svn mr_signer_seam seam_attributes : bytes) : Z * Z :=
  match co_tcb col !! fmspc with
  | None => (UNKNOWN, 0)
  | Some info =>
    let next := ti_next_update info in
    match module_status info tee_tcb_svn mr_signer_seam seam_attributes with
    | None => (UNKNOWN, next)
    | Some ms =>
      match List.find (level_matches comp_svn pcesvn tee_tcb_svn) (ti_levels info) with
      | Some l => (Z.max (tl_status l) ms, next)
      | None => (UNKNOWN, next)
      end
    end
  end.

Definition qe_status (col : Collateral) (miscselect attributes mrsigner : bytes) (isvprodid isvsvn : Z) : Z * Z :=
  match co_qe col with
  | None => (UNKNOWN, 0)
  | Some qe =>
    if negb (bool_decide (masked miscselect (qi_miscselect_mask qe) = qi_miscselect qe))
       || negb (bool_decide (masked attributes (qi_attributes_mask qe) = qi_attributes qe))
       || negb (bool_decide (mrsigner = qi_mrsigner qe)) || negb (isvprodid =? qi_isvprodid qe)
    then (UNKNOWN, qi_next_update qe)
    else (default UNKNOWN (level_for (qi_levels qe) isvsvn), qi_next_update qe)
  end.
End collateral.

(** ** The SGX extension of a PCK certificate *)

Record PckExtension := mkPckExtension {
  px_ppid : bytes;
  px_cpusvn : bytes;
  px_pcesvn : Z;
  px_pceid : bytes;
  px_fmspc : bytes;
  px_comp_svn : bytes;
}.
Definition PckExtension_default : PckExtension := mkPckExtension (replicate 16 0) (replicate 16 0) 0 (replicate 2 0) (replicate 6 0) (replicate 16 0).

Definition set_ppid (v : bytes) (x : PckExtension) := mkPckExtension v (px_cpusvn x) (px_pcesvn x) (px_pceid x) (px_fmspc x) (px_comp_svn x).
Definition set_cpusvn (v : bytes) (x : PckExtension) := mkPckExtension (px_ppid x) v (px_pcesvn x) (px_pceid x) (px_fmspc x) (px_comp_svn x).
Definition set_pcesvn (v : Z) (x : PckExtension) := mkPckExtension (px_ppid x) (px_cpusvn x) v (px_pceid x) (px_fmspc x) (px_comp_svn x).
Definition set_pceid (v : bytes) (x : PckExtension) := mkPckExtension (px_ppid x) (px_cpusvn x) (px_pcesvn x) v (px_fmspc x) (px_comp_svn x).
Definition set_fmspc (v : bytes) (x : PckExtension) := mkPckExtension (px_ppid x) (px_cpusvn x) (px_pcesvn x) (px_pceid x) v (px_comp_svn x).
Definition set_comp_svn (i : nat) (v : Z) (x : PckExtension) :=
  mkPckExtension (px_ppid x) (px_cpusvn x) (px_pcesvn x) (px_pceid x) (px_fmspc x) (<[i := v]> (px_comp_svn x)).

Definition SGX_OID : bytes := ascii_bytes "1.2.840.113741.1.13.1".
Definition SGX_OID_DER : bytes := [42; 134; 72; 134; 248; 77; 1; 13; 1].

Section pck.
Context `{P : P256}.

(** An octet string of [n] bytes at [val]. *)
Definition octets (d : bytes) (val n : Z) : result AttestError bytes :=
  sl <-? expect d val 4;
  if negb (sl.2 =? n) then Err (EDer "SGX extension length") else index_slice d sl.1 (sl.1 + sl.2).

(** An integer at [v], right-aligned in 32 bytes. *)
Definition der_int (d : bytes) (v : Z) : result AttestError bytes :=
  sl <-? expect d v 2;
  b <-? index_slice d sl.1 (sl.1 + sl.2);
  int32 b.

(** One entry of the TCB sequence, by the last arc of its OID. *)
Definition tcb_entry (d : bytes) (arc v : Z) (x : PckExtension) : result AttestError PckExtension :=
  if (1 <=? arc) && (arc <=? 16) then n <-? der_int d v; Ok (set_comp_svn (Z.to_nat (arc - 1)) (default 0 (n !! 31%nat)) x)
  else if arc =? 17 then n <-? der_int d v; Ok (set_pcesvn (be_val (slice n 30 32)) x)
  else if arc =? 18 then
    sl <-? expect d v 4;
    if negb (sl.2 =? 16) then Err (EDer "cpusvn") else b <-? index_slice d sl.1 (sl.1 + sl.2); Ok (set_cpusvn b x)
  else Ok x.

Fixpoint tcb_entries (fuel : nat) (d : bytes) (q stop : Z) (x : PckExtension) : result AttestError PckExtension :=
  if stop <=? q then Ok x else
  match fuel with
  | O => Err Aborted
  | S fuel =>
    e2 <-? expect d q 48;
    let q := e2.1 + e2.2 in
    o2 <-? expect d e2.1 6;
    if negb (o2.2 =? 11) then tcb_entries fuel d q stop x else
    arc <-? get_byte d (o2.1 + 10) Aborted;
    x <-? tcb_entry d arc (o2.1 + o2.2) x;
    tcb_entries fuel d q stop x
  end.

(** One entry of the extension; [found] records which have been seen. *)
Definition pck_entry (d : bytes) (arc val : Z) (x : PckExtension) (found : Z) : result AttestError (PckExtension * Z) :=
  if arc =? 1 then b <-? octets d val 16; Ok (set_ppid b x, Z.lor found 1)
  else if arc =? 2 then
    sl <-? expect d val 48;
    x <-? tcb_entries (S (length d)) d sl.1 (sl.1 + sl.2) x;
    Ok (x, Z.lor found 2)
  else if arc =? 3 then b <-? octets d val 2; Ok (set_pceid b x, Z.lor found 4)
  else if arc =? 4 then b <-? octets d val 6; Ok (set_fmspc b x, Z.lor found 8)
  else Ok (x, found).

(** Every element takes at least two bytes, so the bytes of [d] are enough fuel. *)
Fixpoint pck_entries (fuel : nat) (d : bytes) (p stop : Z) (x : PckExtension) (found : Z) : result AttestError (PckExtension * Z) :=
  if stop <=? p then Ok (x, found) else
  match fuel with
  | O => Err Aborted
  | S fuel =>
    e <-? expect d p 48;
    o <-? expect d e.1 6;
    let p := e.1 + e.2 in
    if negb (o.2 =? 10) then pck_entries fuel d p stop x found else
    oid <-? index_slice d o.1 (o.1 + 9);
    if negb (bool_decide (oid = SGX_OID_DER)) then pck_entries fuel d p stop x found else
    arc <-? get_byte d (o.1 + 9) Aborted;
    xf <-? pck_entry d arc (o.1 + o.2) x found;
    pck_entries fuel d p stop xf.1 xf.2
  end.

Definition PckExtension_of (cert : Cert) : result AttestError PckExtension :=
  d <-? ok_or (extension cert SGX_OID) (EDer "no SGX extension");
  sl <-? expect d 0 48;
  xf <-? pck_entries (S (length d)) d sl.1 (sl.1 + sl.2) PckExtension_default 0;
  if negb (xf.2 =? 15) then Err (EDer "incomplete SGX extension") else Ok xf.1.
End pck.
