(* ===== verification/Tdx.v ===== *)
(** * Intel TDX quotes

    Models crates/attest/src/tdx.rs: the layout of TD and QE reports and the verification of a quote
    against collateral. *)

From S2P Require Import Prelude Types Ipld TextCodec Der Intel.
From stdpp Require Import base list list_numbers gmap strings.
From Stdlib Require Import ZArith Lia.

Open Scope Z_scope.
Open Scope bolt_scope.

Definition HEADER : Z := 48.
Definition BODY : Z := 584.
Definition QE_REPORT : Z := 384.
Definition COLLATERAL_GRACE : Z := 14 * 86400.

(** ** Reports *)

Record TdReport := mkTdReport {
  tr_tee_tcb_svn : bytes;
  tr_mr_seam : bytes;
  tr_mr_signer_seam : bytes;
  tr_seam_attributes : bytes;
  tr_td_attributes : bytes;
  tr_xfam : bytes;
  tr_mr_td : bytes;
  tr_mr_config_id : bytes;
  tr_mr_owner : bytes;
  tr_mr_owner_config : bytes;
  tr_rtmr : list bytes;
  tr_report_data : bytes;
}.

Definition TdReport_default : TdReport :=
  mkTdReport (replicate 16 0) (replicate 48 0) (replicate 48 0) (replicate 8 0) (replicate 8 0) (replicate 8 0) (replicate 48 0)
    (replicate 48 0) (replicate 48 0) (replicate 48 0) (replicate 4 (replicate 48 0)) (replicate 64 0).

(** [arr::<N>(d, p)]. *)
Definition arr (n : Z) (d : bytes) (p : Z) : result AttestError bytes := index_slice d p (p + n).

Definition TdReport_parse (b : bytes) : result AttestError TdReport :=
  if Z.of_nat (length b) <? BODY then Err (EQuote "short TD report") else
  tee_tcb_svn <-? arr 16 b 0;
  mr_seam <-? arr 48 b 16;
  mr_signer_seam <-? arr 48 b 64;
  seam_attributes <-? arr 8 b 112;
  td_attributes <-? arr 8 b 120;
  xfam <-? arr 8 b 128;
  mr_td <-? arr 48 b 136;
  mr_config_id <-? arr 48 b 184;
  mr_owner <-? arr 48 b 232;
  mr_owner_config <-? arr 48 b 280;
  r0 <-? arr 48 b 328;
  r1 <-? arr 48 b 376;
  r2 <-? arr 48 b 424;
  r3 <-? arr 48 b 472;
  report_data <-? arr 64 b 520;
  Ok (mkTdReport tee_tcb_svn mr_seam mr_signer_seam seam_attributes td_attributes xfam mr_td mr_config_id mr_owner mr_owner_config
        [r0; r1; r2; r3] report_data).

Definition TdReport_encode (r : TdReport) : bytes :=
  tr_tee_tcb_svn r ++ tr_mr_seam r ++ tr_mr_signer_seam r ++ tr_seam_attributes r ++ tr_td_attributes r ++ tr_xfam r ++ tr_mr_td r
  ++ tr_mr_config_id r ++ tr_mr_owner r ++ tr_mr_owner_config r ++ concat (tr_rtmr r) ++ tr_report_data r.

Definition measurement_bytes (mr_td : bytes) (rtmr : list bytes) : bytes := mr_td ++ concat rtmr.
Definition measurement `{Keccak} (r : TdReport) : B256 := keccak256 (measurement_bytes (tr_mr_td r) (take 3 (tr_rtmr r))).
Definition debug (r : TdReport) : bool := negb (Z.land (default 0 (tr_td_attributes r !! 0%nat)) 1 =? 0).

(** The fields of a quoting enclave's report, and its encoding. *)
Record QeReport := mkQeReport {
  qr_cpusvn : bytes;
  qr_miscselect : bytes;
  qr_attributes : bytes;
  qr_mrenclave : bytes;
  qr_mrsigner : bytes;
  qr_isvprodid : Z;
  qr_isvsvn : Z;
  qr_report_data : bytes;
}.

(** [b[a..a + len].copy_from_slice(v)]. *)
Definition put_slice (a : nat) (v b : bytes) : bytes := take a b ++ v ++ drop (a + length v) b.

Definition QeReport_encode (r : QeReport) : bytes :=
  let b := replicate (Z.to_nat QE_REPORT) 0 in
  let b := put_slice 0 (qr_cpusvn r) b in
  let b := put_slice 16 (qr_miscselect r) b in
  let b := put_slice 48 (qr_attributes r) b in
  let b := put_slice 64 (qr_mrenclave r) b in
  let b := put_slice 128 (qr_mrsigner r) b in
  let b := put_slice 256 (rev (be_bytes 2 (qr_isvprodid r))) b in
  let b := put_slice 258 (rev (be_bytes 2 (qr_isvsvn r))) b in
  put_slice 320 (qr_report_data r) b.

(** ** Verification *)

Section tdx.
Context `{K : Keccak} `{Sh : Sha256} `{X : X509Lib} `{P : P256}.

Record Verified := mkVerified {
  ve_tcb_status : Z;
  ve_qe_status : Z;
  ve_machine_id : B256;
  ve_pck : PckExtension;
  ve_pck_serial : bytes;
  ve_pck_issuer : B256;
  ve_report : TdReport;
}.

(** A little-endian integer. *)
Definition le (d : bytes) (p n : Z) : result AttestError Z :=
  b <-? get_slice d p (p + n) (EQuote "truncated");
  Ok (be_val (rev b)).

(** Reads an integer and checks it. *)
Definition le_is (d : bytes) (p n v : Z) (why : string) : result AttestError unit :=
  x <-? le d p n; if x =? v then Ok () else Err (EQuote why).

Definition check_that (b : bool) (e : AttestError) : result AttestError unit := if b then Ok () else Err e.

Definition verify (q : bytes) (col : Collateral) (now : Z) : result AttestError Verified :=
  _ <-? check_that (HEADER + BODY + 4 + 128 + 6 <=? Z.of_nat (length q)) (EQuote "short");
  _ <-? le_is q 0 2 4 "version";
  _ <-? le_is q 2 2 2 "attestation key type";
  _ <-? le_is q 4 4 129 "not a TD quote";
  body <-? index_slice q HEADER (HEADER + BODY);
  report <-? TdReport_parse body;
  _ <-? check_that (negb (debug report)) (EQuote "debug TD");
  sig_len <-? le q (HEADER + BODY) 4;
  let s := HEADER + BODY + 4 in
  _ <-? check_that (s + sig_len <=? Z.of_nat (length q)) (EQuote "signature data");
  ak_x <-? arr 32 q (s + 64);
  ak_y <-? arr 32 q (s + 96);
  let ak := (ak_x, ak_y) in
  signed <-? index_slice q 0 (HEADER + BODY);
  sig <-? index_slice q s (s + 64);
  _ <-? check_that (p256_verify_raw signed sig ak) (EQuote "TD report signature");
  _ <-? le_is q (s + 128) 2 6 "certification data type";
  let qe := s + 128 + 6 in
  qe_report <-? get_slice q qe (qe + QE_REPORT) (EQuote "truncated");
  qe_sig <-? get_slice q (qe + QE_REPORT) (qe + QE_REPORT + 64) (EQuote "truncated");
  auth_len <-? le q (qe + QE_REPORT + 64) 2;
  let auth := qe + QE_REPORT + 66 in
  auth_data <-? get_slice q auth (auth + auth_len) (EQuote "truncated");
  let bind := sha256 (ak_x ++ ak_y ++ auth_data) in
  bound <-? index_slice qe_report 320 352;
  zeros <-? index_slice qe_report 352 384;
  _ <-? check_that (bool_decide (bound = bind) && bool_decide (zeros = replicate 32 0)) (EQuote "QE report data");
  let cert := auth + auth_len in
  _ <-? le_is q cert 2 5 "PCK chain type";
  chain_len <-? le q (cert + 2) 4;
  pem <-? get_slice q (cert + 6) (cert + 6 + chain_len) (EQuote "truncated");
  chain <-? pem_certs pem;
  leaf <-? ok_or (head chain) (EQuote "PCK chain");
  pck <-? Cert_parse leaf;
  ca <-? ok_or (co_cas col !! ce_issuer pck) (EQuote "unknown PCK issuer");
  _ <-? check_that (negb ((ca_not_after ca <? now) || negb (valid_at pck now))) (EExpired "PCK certificate");
  _ <-? check_that (Cert_signed_by pck (ca_key ca)) (ESignature "PCK certificate");
  _ <-? check_that (negb (is_revoked col (ce_issuer pck) (ce_serial pck))) ERevoked;
  _ <-? check_that (p256_verify_raw qe_report qe_sig (ce_key pck)) (EQuote "QE report signature");
  ext <-? PckExtension_of pck;
  let '(tcb_status, next) := tdx_status col (px_fmspc ext) (px_comp_svn ext) (px_pcesvn ext) (tr_tee_tcb_svn report)
                               (tr_mr_signer_seam report) (tr_seam_attributes report) in
  _ <-? check_that (negb (tcb_status =? UNKNOWN)) (EQuote "TCB level unknown");
  _ <-? check_that (now <=? u64 (next + COLLATERAL_GRACE)) (EExpired "TCB info");
  miscselect <-? arr 4 qe_report 16;
  attributes <-? arr 16 qe_report 48;
  mrsigner <-? arr 32 qe_report 128;
  isvprodid <-? le qe_report 256 2;
  isvsvn <-? le qe_report 258 2;
  let '(qes, next) := qe_status col miscselect attributes mrsigner (u16 isvprodid) (u16 isvsvn) in
  _ <-? check_that (negb (qes =? UNKNOWN)) (EQuote "quoting enclave unknown");
  _ <-? check_that (now <=? u64 (next + COLLATERAL_GRACE)) (EExpired "QE identity");
  Ok (mkVerified tcb_status qes (keccak256 (px_ppid ext)) ext (ce_serial pck) (ce_issuer pck) report).
End tdx.
