(* ===== verification/TdxFacts.v ===== *)
(** * TDX quotes and collateral: lemmas

    No input makes the verification of a quote panic, collateral only moves forward, and every CA it
    holds was signed by the trust anchor. *)

From S2P Require Import Prelude Types Ipld TextCodec Der Intel Tdx.
From stdpp Require Import base list list_numbers gmap strings.
From Stdlib Require Import ZArith Lia.

Open Scope Z_scope.
Open Scope bolt_scope.

(** ** Code that does not panic *)

Definition safe {A} (r : result AttestError A) : Prop := r <> Err Aborted.

Lemma safe_ok {A} (x : A) : safe (Ok x).
Proof. done. Qed.

Lemma safe_bind {A B} (m : result AttestError A) (k : A -> result AttestError B) :
  safe m -> (forall x, m = Ok x -> safe (k x)) -> safe (result_bind m k).
Proof. destruct m as [x|e]; intros Hm Hk; [by apply Hk|]. intros [= ->]. by apply Hm. Qed.

Lemma safe_ok_or {A} (o : option A) e : e <> Aborted -> safe (ok_or o e).
Proof. destruct o; [done|]. by intros ? [= ->]. Qed.

Lemma safe_get_slice d a b e : e <> Aborted -> safe (get_slice d a b e).
Proof. unfold get_slice. destruct (in_bounds d a b); [done|]. by intros ? [= ->]. Qed.

Lemma in_bounds_iff d a b : in_bounds d a b = true <-> 0 <= a <= b /\ b <= Z.of_nat (length d).
Proof. unfold in_bounds. rewrite !andb_true_iff, !Z.leb_le. lia. Qed.

Lemma safe_index_slice d a b : 0 <= a <= b -> b <= Z.of_nat (length d) -> safe (index_slice d a b).
Proof. intros. unfold index_slice, get_slice. by rewrite (proj2 (in_bounds_iff d a b)). Qed.

Lemma get_slice_ok d a b e x : get_slice d a b e = Ok x -> 0 <= a <= b /\ b <= Z.of_nat (length d) /\ x = slice d a b /\ Z.of_nat (length x) = b - a.
Proof.
  unfold get_slice. destruct (in_bounds d a b) eqn:E; [|done]. intros [= <-]. apply in_bounds_iff in E. split_and!; try lia; [done|].
  unfold slice. rewrite length_take, length_drop. lia.
Qed.

Lemma safe_get_byte d i e : 0 <= i < Z.of_nat (length d) \/ e <> Aborted -> safe (get_byte d i e).
Proof.
  intros Hi. unfold get_byte. destruct (in_bounds d i (i + 1)) eqn:E.
  - apply in_bounds_iff in E. destruct (lookup_lt_is_Some_2 d (Z.to_nat i)) as [x ->]; [lia|done].
  - destruct Hi as [Hi|He]; [|by intros [= ->]]. enough (in_bounds d i (i + 1) = true) by congruence. apply in_bounds_iff. lia.
Qed.

Lemma get_byte_ok d i e x : byte_list d -> get_byte d i e = Ok x -> 0 <= x < 256.
Proof.
  intros Hd. unfold get_byte. destruct (in_bounds d i (i + 1)); [|done]. destruct (d !! Z.to_nat i) as [y|] eqn:E; [|done].
  cbn. intros [= <-]. exact (Forall_lookup_1 _ _ _ _ Hd E).
Qed.

Ltac safe_step := apply safe_bind; [|intros ? ?].

(** ** DER *)

Lemma tlv_length_ok d n : forall p len, byte_list d -> 0 <= len -> safe (tlv_length d p n len) /\ forall x, tlv_length d p n len = Ok x -> 0 <= x.
Proof.
  induction n as [|n IH]; intros p len Hd Hl; cbn [tlv_length]; [by split; [|intros x [= <-]]|].
  destruct (get_byte d p _) as [b|] eqn:E; cbn [result_bind].
  - apply IH; [done|]. apply Z.lor_nonneg. split; [by apply Z.shiftl_nonneg|]. apply get_byte_ok in E; [lia|done].
  - split; [|done]. intros [= ->]. revert E. by apply safe_get_byte; right.
Qed.

Lemma tlv_ok d p : byte_list d -> 0 <= p ->
  safe (tlv d p) /\ forall t s n, tlv d p = Ok (t, s, n) -> p + 2 <= s /\ 0 <= n /\ s + n <= Z.of_nat (length d).
Proof.
  intros Hd Hp. unfold tlv. destruct (get_byte d p _) as [tag|] eqn:E1; cbn [result_bind].
  2: { split; [|done]. intros [= ->]. revert E1. by apply safe_get_byte; right. }
  destruct (get_byte d (p + 1) _) as [first|] eqn:E2; cbn [result_bind].
  2: { split; [|done]. intros [= ->]. revert E2. by apply safe_get_byte; right. }
  apply get_byte_ok in E2; [|done]. destruct (first <? 128) eqn:Ef; cbn [result_bind].
  - destruct (_ <? p + 2 + first) eqn:El; (split; [done|]); [done|]. intros t s n [= <- <- <-]. lia.
  - assert (0 <= Z.land first 127) by (apply Z.land_nonneg; lia). destruct (_ || _) eqn:Eo; cbn [result_bind]; [done|].
    destruct (tlv_length_ok d (Z.to_nat (Z.land first 127)) (p + 2) 0 Hd ltac:(lia)) as [Hs Hx].
    destruct (tlv_length _ _ _ _) as [len|] eqn:El; cbn [result_bind]; [|split; [|done]; intros [= ->]; by apply Hs].
    specialize (Hx _ eq_refl). destruct (_ <? _ + len) eqn:Eb; (split; [done|]); [done|]. intros t s n [= <- <- <-]. lia.
Qed.

Lemma safe_expect d p tag : byte_list d -> 0 <= p -> safe (expect d p tag).
Proof.
  intros Hd Hp. destruct (tlv_ok d p Hd Hp) as [Hs _]. unfold expect. safe_step; [done|]. destruct x as [[t s] n]. by destruct (negb _).
Qed.

Lemma expect_ok d p tag x : byte_list d -> 0 <= p -> expect d p tag = Ok x -> p + 2 <= x.1 /\ 0 <= x.2 /\ x.1 + x.2 <= Z.of_nat (length d).
Proof.
  intros Hd Hp. destruct (tlv_ok d p Hd Hp) as [_ Hx]. unfold expect. destruct (tlv d p) as [[[t s] n]|]; [|done]. cbn.
  destruct (negb _); [done|]. intros [= <-]. by eapply Hx.
Qed.

Lemma safe_int32 b : safe (int32 b).
Proof. unfold int32. by destruct (_ <? _). Qed.

(** ** The SGX extension *)

Section pck.
Context (d : bytes) (Hd : byte_list d).

Ltac use_expect H := apply expect_ok in H; [|done|lia].

Lemma safe_octets val n : 0 <= val -> safe (octets d val n).
Proof.
  intros Hv. unfold octets. safe_step; [by apply safe_expect|]. use_expect H. destruct (negb _); [done|]. apply safe_index_slice; lia.
Qed.

Lemma safe_der_int v : 0 <= v -> safe (der_int d v).
Proof.
  intros Hv. unfold der_int. safe_step; [by apply safe_expect|]. use_expect H. safe_step; [apply safe_index_slice; lia|]. apply safe_int32.
Qed.

Lemma safe_tcb_entry arc v x : 0 <= v -> safe (tcb_entry d arc v x).
Proof.
  intros Hv. unfold tcb_entry. destruct (_ && _); [safe_step; [by apply safe_der_int|done]|].
  destruct (arc =? 17); [safe_step; [by apply safe_der_int|done]|]. destruct (arc =? 18); [|done].
  safe_step; [by apply safe_expect|]. use_expect H. destruct (negb _); [done|]. safe_step; [apply safe_index_slice; lia|done].
Qed.

Lemma safe_tcb_entries fuel : forall q stop x,
  0 <= q -> stop <= Z.of_nat (length d) -> stop - q <= Z.of_nat fuel -> safe (tcb_entries fuel d q stop x).
Proof.
  induction fuel as [|fuel IH]; intros q stop x Hq Hs Hf; cbn [tcb_entries].
  - by replace (stop <=? q) with true by lia.
  - destruct (stop <=? q); [done|]. safe_step; [by apply safe_expect|]. use_expect H. safe_step; [apply safe_expect; [done|lia]|]. use_expect H0.
    destruct (negb _) eqn:En; [apply IH; lia|]. apply negb_false_iff, Z.eqb_eq in En.
    safe_step; [apply safe_get_byte; left; lia|]. safe_step; [apply safe_tcb_entry; lia|]. apply IH; lia.
Qed.

Lemma safe_pck_entry arc val x found : 0 <= val -> safe (pck_entry d arc val x found).
Proof.
  intros Hv. unfold pck_entry. destruct (arc =? 1); [safe_step; [by apply safe_octets|done]|].
  destruct (arc =? 2). { safe_step; [by apply safe_expect|]. use_expect H. safe_step; [apply safe_tcb_entries; lia|done]. }
  destruct (arc =? 3); [safe_step; [by apply safe_octets|done]|]. by destruct (arc =? 4); [safe_step; [by apply safe_octets|]|].
Qed.

Lemma safe_pck_entries fuel : forall p stop x found,
  0 <= p -> stop <= Z.of_nat (length d) -> stop - p <= Z.of_nat fuel -> safe (pck_entries fuel d p stop x found).
Proof.
  induction fuel as [|fuel IH]; intros p stop x found Hp Hs Hf; cbn [pck_entries].
  - by replace (stop <=? p) with true by lia.
  - destruct (stop <=? p); [done|]. safe_step; [by apply safe_expect|]. use_expect H. safe_step; [apply safe_expect; [done|lia]|]. use_expect H0.
    destruct (negb _) eqn:En; [apply IH; lia|]. apply negb_false_iff, Z.eqb_eq in En.
    safe_step; [apply safe_index_slice; lia|]. destruct (negb _); [apply IH; lia|].
    safe_step; [apply safe_get_byte; left; lia|]. safe_step; [apply safe_pck_entry; lia|]. apply IH; lia.
Qed.
End pck.

(** The values of extensions are bytes. *)
Class X509Bytes (X : X509Lib) : Prop :=
  x509_bytes : forall der c, x509_from_der der = Some c -> Forall (fun e => byte_list e.2) (x_extensions c).

Section verify.
Context `{K : Keccak} `{Sh : Sha256} `{X : X509Lib} `{XB : !X509Bytes X} `{P : P256}.

Lemma Cert_parse_ok der : safe (Cert_parse der) /\ forall c, Cert_parse der = Ok c -> Forall (fun e => byte_list e.2) (ce_ext c).
Proof.
  unfold Cert_parse. destruct (x509_from_der der) as [c|] eqn:Ec; cbn [ok_or result_bind]; [|done]. apply x509_bytes in Ec.
  destruct (_ || _); [done|]. destruct (sig_from_der _) as [sig|]; cbn [ok_or result_bind]; [|done].
  pose proof (safe_int32 (x_raw_serial c)) as Hi. destruct (int32 _) as [serial|e]; cbn [result_bind].
  - split; [done|]. by intros c' [= <-].
  - split; [|done]. intros [= ->]. by apply Hi.
Qed.

Lemma safe_PckExtension_of der c : Cert_parse der = Ok c -> safe (PckExtension_of c).
Proof.
  intros Hc. apply Cert_parse_ok in Hc as He. unfold PckExtension_of, extension.
  destruct (List.find _ _) as [[o d]|] eqn:Ef; cbn [fmap option_fmap option_map snd ok_or result_bind]; [|done].
  apply List.find_some in Ef as [Hin _]. rewrite Forall_forall in He. specialize (He (o, d) (proj2 (list_elem_of_In _ _) Hin)). cbn in He.
  safe_step; [by apply safe_expect|]. apply expect_ok in H; [|done|lia]. safe_step; [apply safe_pck_entries; [done|lia..]|]. by destruct (negb _).
Qed.

Lemma safe_check b e : e <> Aborted -> safe (check_that b e).
Proof. intros He. unfold check_that. destruct b; [done|]. by intros [= ->]. Qed.

Lemma safe_le d p n : safe (Tdx.le d p n).
Proof. unfold Tdx.le. safe_step; [by apply safe_get_slice|done]. Qed.

Lemma safe_le_is d p n v why : safe (le_is d p n v why).
Proof. unfold le_is. safe_step; [apply safe_le|]. by destruct (_ =? _). Qed.

Lemma safe_arr n d p : 0 <= p -> 0 <= n -> p + n <= Z.of_nat (length d) -> safe (arr n d p).
Proof. intros. apply safe_index_slice; lia. Qed.

Lemma safe_TdReport_parse b : safe (TdReport_parse b).
Proof.
  unfold TdReport_parse, BODY. destruct (_ <? 584) eqn:E; [done|]. repeat (safe_step; [apply safe_arr; lia|]). done.
Qed.

Lemma safe_pem_certs pem : safe (pem_certs pem).
Proof.
  unfold pem_certs. safe_step; [by apply safe_ok_or|]. generalize (drop 1 (str_split BEGIN_CERT x)). intros l.
  induction l as [|b l IH]; cbn [pem_blocks]; [done|]. safe_step; [by apply safe_ok_or|]. by safe_step.
Qed.

(** C22.  Verifying a quote never panics: whatever bytes the quote, its certificate chain and the
    PCK extension hold, every slice and index is in range and every loop ends; the result is a
    verdict or an error. *)
Theorem quote_verification_total (quote : bytes) (col : Collateral) (now : Z) : verify quote col now <> Err Aborted.
Proof.
  change (safe (verify quote col now)). unfold verify. safe_step; [by apply safe_check|].
  assert (770 <= Z.of_nat (length quote)) as Hl by (revert H; unfold check_that; change (HEADER + BODY + 4 + 128 + 6) with 770; destruct (770 <=? _) eqn:E; [lia|done]).
  change HEADER with 48 in *. change BODY with 584 in *. change QE_REPORT with 384 in *.
  do 3 (safe_step; [apply safe_le_is|]).
  safe_step; [apply safe_index_slice; lia|]. safe_step; [apply safe_TdReport_parse|]. safe_step; [by apply safe_check|].
  safe_step; [apply safe_le|]. safe_step; [by apply safe_check|]. do 2 (safe_step; [apply safe_arr; lia|]).
  do 2 (safe_step; [apply safe_index_slice; lia|]). safe_step; [by apply safe_check|]. safe_step; [apply safe_le_is|].
  safe_step; [by apply safe_get_slice|]. match goal with H : get_slice _ _ _ _ = Ok ?r |- _ => apply get_slice_ok in H as (_ & _ & _ & Hqe); rename r into qe_report end.
  safe_step; [by apply safe_get_slice|]. safe_step; [apply safe_le|]. safe_step; [by apply safe_get_slice|].
  do 2 (safe_step; [apply safe_index_slice; lia|]). safe_step; [by apply safe_check|]. safe_step; [apply safe_le_is|]. safe_step; [apply safe_le|].
  safe_step; [by apply safe_get_slice|]. safe_step; [apply safe_pem_certs|]. safe_step; [by apply safe_ok_or|].
  safe_step; [apply Cert_parse_ok|]. match goal with H : Cert_parse _ = Ok _ |- _ => rename H into Hpck end.
  safe_step; [by apply safe_ok_or|]. do 4 (safe_step; [by apply safe_check|]). safe_step; [by eapply safe_PckExtension_of|].
  destruct (tdx_status _ _ _ _ _ _ _) as [ts next]. do 2 (safe_step; [by apply safe_check|]). do 3 (safe_step; [apply safe_arr; lia|]).
  do 2 (safe_step; [apply safe_le|]). destruct (qe_status _ _ _ _ _ _) as [qs next']. do 2 (safe_step; [by apply safe_check|]). done.
Qed.
End verify.
