(* ===== verification/TdxProps.v ===== *)
(** * TDX attestation: theorems

    A verified quote is signed along a chain that starts at the trust anchor, collateral only moves
    forward, and TD reports read back; with instances that show the hypotheses can hold. *)

From S2P Require Import Prelude Types Ipld TextCodec Der DerFacts Intel Tdx TdxFacts.
From stdpp Require Import base list list_numbers gmap relations strings.
From Stdlib Require Import ZArith Lia.

Open Scope Z_scope.
Open Scope bolt_scope.

(** ** Steps of collateral *)

Section collateral.
Context `{K : Keccak} `{X : X509Lib} `{P : P256} `{J : JsonDocs}.

(** One accepted certificate, CRL or document; a hash map is traversed in some order. *)
Inductive collateral_step (c : Collateral) : Collateral -> Prop :=
  | step_ca der now s c' : add_ca c der now = Ok (s, c') -> collateral_step c c'
  | step_crl der c' : add_crl c der = Ok c' -> collateral_step c c'
  | step_tcb order json now f s c' :
      order ≡ₚ map_to_list (co_cas c) -> set_tcb_info order c json now = Ok (f, s, c') -> collateral_step c c'
  | step_qe order json now s c' :
      order ≡ₚ map_to_list (co_cas c) -> set_qe_identity order c json now = Ok (s, c') -> collateral_step c c'.

(** At least as new: a larger evaluation number, or the same and an issue date not before. *)
Definition no_older (e d e' d' : Z) : Prop := e < e' \/ e = e' /\ d <= d'.

Record forward (c c' : Collateral) : Prop := {
  fw_root : co_root c' = co_root c;
  fw_revoked : co_revoked c ⊆ co_revoked c';
  fw_crl : forall i t, co_crl_this_update c !! i = Some t -> exists t', co_crl_this_update c' !! i = Some t' /\ t <= t';
  fw_tcb : forall f info, co_tcb c !! f = Some info -> exists info', co_tcb c' !! f = Some info'
    /\ no_older (ti_evaluation info) (ti_issue_date info) (ti_evaluation info') (ti_issue_date info');
  fw_qe : forall q, co_qe c = Some q -> exists q', co_qe c' = Some q'
    /\ no_older (qi_evaluation q) (qi_issue_date q) (qi_evaluation q') (qi_issue_date q');
}.

Lemma no_older_refl e d : no_older e d e d.
Proof. right. lia. Qed.

Lemma newer_no_older e d e' d' : not_newer e' d' e d = false -> no_older e d e' d'.
Proof. unfold not_newer, no_older. rewrite orb_false_iff, andb_false_iff. lia. Qed.

Lemma forward_refl c : forward c c.
Proof. split; try done; eauto using no_older_refl, Z.le_refl. Qed.

Lemma forward_trans c1 c2 c3 : forward c1 c2 -> forward c2 c3 -> forward c1 c3.
Proof.
  intros [R1 V1 L1 T1 Q1] [R2 V2 L2 T2 Q2]. split; [congruence|set_solver|..].
  - intros i t Hi. destruct (L1 _ _ Hi) as (t' & Hi' & ?). destruct (L2 _ _ Hi') as (t'' & ? & ?). exists t''. split; [done|lia].
  - intros f x Hx. destruct (T1 _ _ Hx) as (x' & Hx' & N1). destruct (T2 _ _ Hx') as (x'' & ? & N2). exists x''. split; [done|].
    unfold no_older in *. lia.
  - intros x Hx. destruct (Q1 _ Hx) as (x' & Hx' & N1). destruct (Q2 _ Hx') as (x'' & ? & N2). exists x''. split; [done|].
    unfold no_older in *. lia.
Qed.

Ltac next H := apply result_bind_ok in H as (? & ? & H).

(** What an accepted CA certificate is. *)
Definition ca_certified (root : Point) (subject : B256) (ca : Ca) : Prop :=
  exists der cert at_time, Cert_parse der = Ok cert /\ Cert_signed_by cert root = true /\ valid_at cert at_time = true
    /\ ce_subject cert = subject /\ ca = mkCa (ce_key cert) (ce_not_after cert).

Lemma add_ca_inv c der now s c' :
  add_ca c der now = Ok (s, c') -> forward c c' /\ exists ca, co_cas c' = <[s := ca]> (co_cas c) /\ ca_certified (co_root c) s ca.
Proof.
  unfold add_ca. intros Hc. apply result_bind_ok in Hc as (cert & Ep & Hc). destruct (Cert_signed_by _ _) eqn:Es; [|done].
  destruct (valid_at _ _) eqn:Ev; [|done]. cbn [negb] in Hc. destruct (bool_decide _); [done|]. injection Hc as <- <-. split.
  - destruct (forward_refl c). split; done.
  - eexists. split; [done|]. by exists der, cert, now.
Qed.

Lemma add_crl_inv c der c' : add_crl c der = Ok c' -> forward c c' /\ co_cas c' = co_cas c.
Proof.
  unfold add_crl. intros Hc. apply result_bind_ok in Hc as (l & El & Hc). destruct (negb _); [done|]. destruct (_ <=? _) eqn:En; [done|].
  injection Hc as <-. split; [|done]. destruct (forward_refl c). split; try done; cbn [co_revoked co_crl_this_update].
  - set_solver.
  - intros i t Hi. destruct (decide (i = cr_issuer l)) as [->|Hne].
    + rewrite lookup_insert_eq. rewrite Hi in En. cbn in En. eexists. split; [done|]. lia.
    + rewrite lookup_insert_ne by done. exists t. split; [done|lia].
Qed.

Lemma set_tcb_info_inv order c json now f s c' :
  set_tcb_info order c json now = Ok (f, s, c') -> forward c c' /\ co_cas c' = co_cas c.
Proof.
  unfold set_tcb_info. intros Hc. apply result_bind_ok in Hc as ([[tcb ?] sig] & _ & Hc). next Hc. next Hc. next Hc.
  destruct (_ || _); [done|]. apply result_bind_ok in Hc as (fmspc & _ & Hc). next Hc. apply result_bind_ok in Hc as (issue & _ & Hc).
  destruct (match co_tcb c !! fmspc with Some _ => _ | None => _ end) eqn:En; [done|].
  do 7 next Hc. injection Hc as <- <- <-. split; [|done]. destruct (forward_refl c). split; try done. cbn [co_tcb].
  intros f' info Hi. destruct (decide (f' = fmspc)) as [->|Hne].
  - rewrite lookup_insert_eq. rewrite Hi in En. eexists. split; [done|]. by apply newer_no_older.
  - rewrite lookup_insert_ne by done. eauto.
Qed.

Lemma set_qe_identity_inv order c json now s c' :
  set_qe_identity order c json now = Ok (s, c') -> forward c c' /\ co_cas c' = co_cas c.
Proof.
  unfold set_qe_identity. intros Hc. apply result_bind_ok in Hc as ([[? qe] sig] & _ & Hc). next Hc. next Hc. next Hc.
  destruct (negb _); [done|]. next Hc. apply result_bind_ok in Hc as (issue & _ & Hc).
  destruct (match co_qe c with Some _ => _ | None => _ end) eqn:En; [done|].
  do 9 next Hc. injection Hc as <- <-. split; [|done]. destruct (forward_refl c). split; try done. cbn [co_qe].
  intros q Hq. rewrite Hq in En. eexists. split; [done|]. by apply newer_no_older.
Qed.

Lemma step_forward c c' : collateral_step c c' -> forward c c'.
Proof. intros []; [by eapply add_ca_inv|by eapply add_crl_inv|by eapply set_tcb_info_inv|by eapply set_qe_identity_inv]. Qed.

(** Every CA was certified by the trust anchor. *)
Definition cas_certified (c : Collateral) : Prop := map_Forall (ca_certified (co_root c)) (co_cas c).

Lemma step_certified c c' : collateral_step c c' -> cas_certified c -> cas_certified c'.
Proof.
  intros Hs Hc. pose proof (step_forward _ _ Hs) as [Er _ _ _ _]. unfold cas_certified. rewrite Er. destruct Hs as [der now s c' Ha|der c' Ha|? ? ? ? ? c' _ Ha|? ? ? ? c' _ Ha].
  - apply add_ca_inv in Ha as (_ & ca & -> & Hca). by apply map_Forall_insert_2.
  - by apply add_crl_inv in Ha as (_ & ->).
  - by apply set_tcb_info_inv in Ha as (_ & ->).
  - by apply set_qe_identity_inv in Ha as (_ & ->).
Qed.

Lemma reachable_certified c c' : rtc collateral_step c c' -> cas_certified c -> cas_certified c' /\ co_root c' = co_root c.
Proof.
  induction 1 as [c|c1 c2 c3 Hs _ IH]; intros Hc; [done|]. destruct IH as [H1 H2]; [by eapply step_certified|].
  split; [done|]. rewrite H2. by apply step_forward in Hs as [].
Qed.

(** C21.  Accepted collateral never goes back: whatever certificates, CRLs and documents follow, a
    revocation stays, the date of an issuer's CRL never decreases, TCB info and the quoting enclave's
    identity are only replaced by ones with a larger evaluation number or the same and a date not
    before, and the trust anchor never changes. *)
Theorem collateral_moves_forward (c c' : Collateral) (Hrun : rtc collateral_step c c') : forward c c'.
Proof. induction Hrun; [apply forward_refl|]. eapply forward_trans; [by apply step_forward|done]. Qed.
End collateral.

(** ** Quotes *)

Lemma ok_or_some {E A} (o : option A) (e : E) x : ok_or o e = Ok x -> o = Some x.
Proof. destruct o; [|done]. by intros [= ->]. Qed.

Lemma check_that_ok b e x : check_that b e = Ok x -> b = true.
Proof. unfold check_that. by destruct b. Qed.

Ltac next H x E := apply result_bind_ok in H as (x & E & H).
Ltac passed H E := let x := fresh in apply result_bind_ok in H as (x & E & H); apply check_that_ok in E; clear x.

(** C19.  A verified quote hangs on the trust anchor: the anchor signed the certificate of a CA that
    is still in its validity, that CA signed the PCK certificate, which is valid and not revoked, the
    PCK key signed the quoting enclave's report, that report commits to the attestation key, and the
    attestation key signed the header and body of the quote; the TD is not in debug mode, and the
    platform and the enclave are known to the collateral.  Whether the CA's own certificate was
    revoked is not part of the claim: [verify] does not look. *)
Theorem quote_chain_of_trust `{K : Keccak} `{Sh : Sha256} `{X : X509Lib} `{P : P256} `{J : JsonDocs}
    (root : Point) (col : Collateral) (quote : bytes) (now : Z) (v : Verified)
    (Hrun : rtc collateral_step (Collateral_with_root root) col) (Hok : verify quote col now = Ok v) :
  exists ca_der ca added pck auth td_sig qe_sig,
    let ak := (slice quote 700 732, slice quote 732 764) in
    let qe_report := slice quote 770 1154 in
    Cert_parse ca_der = Ok ca /\ Cert_signed_by ca root = true /\ valid_at ca added = true /\ now <= ce_not_after ca
    /\ ce_subject ca = ce_issuer pck /\ Cert_signed_by pck (ce_key ca) = true /\ valid_at pck now = true
    /\ (ce_issuer pck, ce_serial pck) ∉ co_revoked col
    /\ p256_verify_raw qe_report qe_sig (ce_key pck) = true
    /\ slice qe_report 320 352 = sha256 (ak.1 ++ ak.2 ++ auth)
    /\ p256_verify_raw (slice quote 0 632) td_sig ak = true
    /\ TdReport_parse (slice quote 48 632) = Ok (ve_report v) /\ debug (ve_report v) = false
    /\ PckExtension_of pck = Ok (ve_pck v) /\ ve_machine_id v = keccak256 (px_ppid (ve_pck v))
    /\ ve_tcb_status v <> UNKNOWN /\ ve_qe_status v <> UNKNOWN.
Proof.
  destruct (reachable_certified _ _ Hrun) as [Hcas Hroot]; [by apply map_Forall_empty|]. cbn [co_root Collateral_with_root] in Hroot.
  unfold verify in Hok. passed Hok E0. next Hok y1 F1. next Hok y2 F2. next Hok y3 F3. next Hok body Ebody. next Hok report Ereport. passed Hok Edebug.
  next Hok sig_len E'. passed Hok Esl. next Hok akx Ex. next Hok aky Ey. next Hok sgd Esigned. next Hok sg Esig. passed Hok Etd.
  next Hok x2 E2. next Hok qr0 Eqe. next Hok qs0 Eqs. next Hok auth_len Eal. next Hok au Eauth. next Hok bound Ebound. next Hok zs Ezeros.
  passed Hok Ebind. next Hok x3 E3. next Hok cl Ecl. next Hok pm Epem. next Hok chain Echain. next Hok leaf Eleaf. next Hok pck Epck.
  next Hok ca Eca. passed Hok Evalid. passed Hok Esb. passed Hok Erev. passed Hok Eqsig. next Hok px Eext.
  destruct (tdx_status _ _ _ _ _ _ _) as [ts next1] eqn:Ets. passed Hok Eu. passed Hok Eg. next Hok ms Ems. next Hok at' Eat. next Hok mr Emr.
  next Hok pid Epid. next Hok isv Eisv. destruct (qe_status _ _ _ _ _ _) as [qs next2] eqn:Eqst. passed Hok Eu2. passed Hok Eg2. injection Hok as <-.
  unfold arr, index_slice in *. change HEADER with 48 in *. change BODY with 584 in *. change QE_REPORT with 384 in *.
  apply get_slice_ok in Ebody as (_ & _ & -> & _). apply get_slice_ok in Ex as (_ & _ & -> & _). apply get_slice_ok in Ey as (_ & _ & -> & _).
  apply get_slice_ok in Esigned as (_ & _ & -> & _). apply get_slice_ok in Esig as (_ & _ & -> & _). apply get_slice_ok in Eqe as (_ & _ & -> & _).
  apply get_slice_ok in Ebound as (_ & _ & -> & _). apply andb_true_iff in Ebind as [Ebind _]. apply bool_decide_eq_true in Ebind.
  apply ok_or_some in Eca. apply negb_true_iff, orb_false_iff in Evalid as [Enow Evalid]. apply negb_false_iff in Evalid.
  unfold is_revoked in Erev. apply negb_true_iff, bool_decide_eq_false in Erev. apply negb_true_iff in Edebug, Eu, Eu2.
  destruct (map_Forall_lookup_1 _ _ _ _ Hcas Eca) as (der & cert & added & Ecp & Ecs & Ecv & Esub & ->). rewrite Hroot in Ecs. cbn [ca_key ca_not_after] in *.
  eexists der, cert, added, pck, au, _, qs0. cbn zeta. split_and!; try done; try lia; cbn; by apply Z.eqb_neq.
Qed.

(** ** Reports *)

(** The fields of a report have the sizes of their arrays. *)
Definition report_sizes (r : TdReport) : Prop :=
  map length [tr_tee_tcb_svn r; tr_mr_seam r; tr_mr_signer_seam r; tr_seam_attributes r; tr_td_attributes r; tr_xfam r; tr_mr_td r;
    tr_mr_config_id r; tr_mr_owner r; tr_mr_owner_config r; tr_report_data r] = [16; 48; 48; 8; 8; 8; 48; 48; 48; 48; 64]%nat
  /\ map length (tr_rtmr r) = [48; 48; 48; 48]%nat.

Definition SIZES : list nat := [16; 48; 48; 8; 8; 8; 48; 48; 48; 48; 48; 48; 48; 48; 64]%nat.

(** A field of a concatenation, by its index. *)
Lemma arr_field (l : list bytes) sizes i v n p :
  map length l = sizes -> l !! i = Some v -> Z.of_nat (list_sum (take i sizes)) = p -> Z.of_nat (default 0%nat (sizes !! i)) = n ->
  arr n (concat l) p = Ok v.
Proof.
  intros <- Hi <- <-. change (map length l) with (length <$> l). rewrite list_lookup_fmap, Hi. cbn [fmap option_fmap option_map default].
  rewrite <-fmap_take. change (length <$> take i l) with (map (@length Z) (take i l)). rewrite <-length_concat.
  rewrite <-(take_drop_middle l i v Hi) at 1. rewrite concat_app. cbn [concat]. unfold arr, index_slice.
  rewrite <-(Z.add_0_r (Z.of_nat _)) at 1. rewrite get_slice_app by lia. apply get_slice_here.
Qed.

(** Rewrites the next field read, by its index. *)
Ltac read_field Hf El n v := rewrite (Hf n v) by (try rewrite El; reflexivity); cbn [result_bind].

Lemma parse_concat l a b c d e f g h i j r0 r1 r2 r3 k :
  l = [a; b; c; d; e; f; g; h; i; j; r0; r1; r2; r3; k] -> map length l = SIZES ->
  TdReport_parse (concat l) = Ok (mkTdReport a b c d e f g h i j [r0; r1; r2; r3] k).
Proof.
  intros El Hl. unfold TdReport_parse. assert (length (concat l) = 584%nat) as Hn by (rewrite length_concat; by rewrite Hl).
  rewrite Hn. change (Z.of_nat 584 <? BODY) with false. cbv iota.
  assert (forall n v m p, l !! n = Some v -> Z.of_nat (list_sum (take n SIZES)) = p -> Z.of_nat (default 0%nat (SIZES !! n)) = m ->
    arr m (concat l) p = Ok v) as Hf by (intros; by eapply arr_field).
  read_field Hf El 0%nat a. read_field Hf El 1%nat b. read_field Hf El 2%nat c. read_field Hf El 3%nat d. read_field Hf El 4%nat e. read_field Hf El 5%nat f. read_field Hf El 6%nat g. read_field Hf El 7%nat h.
  read_field Hf El 8%nat i. read_field Hf El 9%nat j. read_field Hf El 10%nat r0. read_field Hf El 11%nat r1. read_field Hf El 12%nat r2. read_field Hf El 13%nat r3. read_field Hf El 14%nat k.
  done.
Qed.

Lemma encode_concat a b c d e f g h i j r0 r1 r2 r3 k :
  TdReport_encode (mkTdReport a b c d e f g h i j [r0; r1; r2; r3] k) = concat [a; b; c; d; e; f; g; h; i; j; r0; r1; r2; r3; k].
Proof. unfold TdReport_encode. cbn. by rewrite !app_nil_r, <-!app_assoc. Qed.

(** A TD report and its 584 bytes determine each other: every report reads back from its
    encoding, and every 584 bytes are the encoding of the report they read as. *)
Theorem td_report_round_trip (r : TdReport) (b : bytes) (Hr : report_sizes r) (Hb : Z.of_nat (length b) = BODY) :
  TdReport_parse (TdReport_encode r) = Ok r /\ exists r', TdReport_parse b = Ok r' /\ TdReport_encode r' = b.
Proof.
  split.
  - destruct r as [x1 x2 x3 x4 x5 x6 x7 x8 x9 x10 rt x12]. destruct Hr as [H1 H2]. cbn in H1, H2.
    destruct rt as [|r0 [|r1 [|r2 [|r3 [|]]]]]; try done. rewrite encode_concat. apply parse_concat; [done|].
    injection H1. injection H2. intros. unfold SIZES. cbn. congruence.
  - set (l := [slice b 0 16; slice b 16 64; slice b 64 112; slice b 112 120; slice b 120 128; slice b 128 136; slice b 136 184; slice b 184 232;
      slice b 232 280; slice b 280 328; slice b 328 376; slice b 376 424; slice b 424 472; slice b 472 520; slice b 520 584]).
    assert (concat l = b) as El.
    { unfold l. cbn [concat]. rewrite app_nil_r, !slice_join by lia. unfold slice, BODY in *. cbn [Z.to_nat]. rewrite drop_0. apply take_ge. lia. }
    eexists. split; [|rewrite encode_concat; exact El]. rewrite <-El at 1. apply parse_concat; [reflexivity|].
    unfold l, SIZES, slice, BODY in *. cbn [map]. repeat rewrite length_take, length_drop. repeat f_equal_list; lia.
Qed.

(** ** Witnesses *)

Module TdxWitness.
#[export] Instance w_keccak : Keccak := fun b => be_val b mod 2 ^ 256.
#[export] Instance w_sha : Sha256 := fun d => map (fun x => x mod 256) (take 32 (rev d ++ replicate 32 0)).

(** A PCK certificate's SGX extension: PPID, an empty TCB sequence, PCE and FMSPC. *)
Definition element (tag : Z) (body : bytes) : bytes := [tag; Z.of_nat (length body)] ++ body.
Definition entry (arc : Z) (value : bytes) : bytes := element 48 (element 6 (SGX_OID_DER ++ [arc]) ++ value).
Definition sgx_extension : bytes :=
  element 48 (entry 1 (element 4 (replicate 16 7)) ++ entry 2 (element 48 []) ++ entry 3 (element 4 [0; 0]) ++ entry 4 (element 4 (replicate 6 0))).

(** The CA's certificate is [[1]], the machine's [[2]]. *)
Definition x509 (subject issuer : bytes) : X509 :=
  mkX509 (4 :: replicate 64 9) [] [(SGX_OID, sgx_extension)] [] [5] issuer subject 10 1000 [].
#[export] Instance w_x509 : X509Lib := {|
  x509_from_der d := match d with [1] => Some (x509 [66] [67]) | [2] => Some (x509 [65] [66]) | _ => None end;
  crl_from_der _ := None;
  x509_verify_signature _ _ := true;
|}.
#[export] Instance w_x509_bytes : X509Bytes w_x509.
Proof.
  assert (byte_list sgx_extension) as Hb by (apply (bool_decide_unpack _); vm_compute; exact I).
  intros der c. cbn. intros E. assert (x_extensions c = [(SGX_OID, sgx_extension)]) as ->; [|by constructor].
  revert E. repeat case_match; intros; simplify_eq; done.
Qed.

(** A signature verifies under every key of 65 bytes. *)
#[export] Instance w_p256 : P256 := {|
  P256Signature := unit;
  P256Key := bytes;
  sig_from_slice s := if decide (length s = 64%nat) then Some tt else None;
  sig_from_der _ := Some tt;
  key_from_sec1 k := if decide (length k = 65%nat) then Some k else None;
  ecdsa_verify _ _ _ := true;
|}.

Definition obj (l : list (string * Value)) : Value := JObject (map (fun '(k, v) => (ascii_bytes k, v)) l).
Definition svn_list : Value := JArray (replicate 16 (obj [("svn"%string, JPosInt 0)])).
Definition tcb_info : Value := obj [
  ("id"%string, JString (ascii_bytes "TDX")); ("version"%string, JPosInt 3); ("fmspc"%string, JString (replicate 6 0));
  ("tcbEvaluationDataNumber"%string, JPosInt 17); ("issueDate"%string, JString [50]); ("nextUpdate"%string, JString [200]);
  ("tdxModule"%string, obj [("mrsigner"%string, JString (replicate 48 0)); ("attributes"%string, JString (replicate 8 0)); ("attributesMask"%string, JString (replicate 8 0))]);
  ("tcbLevels"%string, JArray [obj [("tcbStatus"%string, JString (ascii_bytes "UpToDate"));
     ("tcb"%string, obj [("sgxtcbcomponents"%string, svn_list); ("pcesvn"%string, JPosInt 0); ("tdxtcbcomponents"%string, svn_list)])]])].
Definition qe_identity : Value := obj [
  ("id"%string, JString (ascii_bytes "TD_QE")); ("tcbEvaluationDataNumber"%string, JPosInt 17); ("issueDate"%string, JString [50]); ("nextUpdate"%string, JString [200]);
  ("miscselect"%string, JString (replicate 4 0)); ("miscselectMask"%string, JString (replicate 4 0));
  ("attributes"%string, JString (replicate 16 0)); ("attributesMask"%string, JString (replicate 16 0));
  ("mrsigner"%string, JString (replicate 32 0)); ("isvprodid"%string, JPosInt 0);
  ("tcbLevels"%string, JArray [obj [("tcbStatus"%string, JString (ascii_bytes "UpToDate")); ("tcb"%string, obj [("isvsvn"%string, JPosInt 0)])]])].

(** The document [[1]] is the TCB info, [[2]] the identity; hexadecimal text is the bytes. *)
#[export] Instance w_docs : JsonDocs := {|
  json_signed d := match d with [1] => Some (Some [1], None, replicate 64 0) | [2] => Some (None, Some [2], replicate 64 0) | _ => None end;
  json_value d := match d with [1] => Some tcb_info | [2] => Some qe_identity | _ => None end;
  hex_text s := Some s;
  rfc3339 s := head s;
|}.

Definition root : Point := (replicate 32 1, replicate 32 2).
Definition run {A} (r : result AttestError A) (d : A) : A := match r with Ok x => x | Err _ => d end.
Definition col0 : Collateral := Collateral_with_root root.
Definition col1 : Collateral := (run (add_ca col0 [1] 100) (0, col0)).2.
Definition col2 : Collateral := (run (set_tcb_info (map_to_list (co_cas col1)) col1 [1] 100) ([], 0, col1)).2.
Definition col : Collateral := (run (set_qe_identity (map_to_list (co_cas col2)) col2 [2] 100) (0, col2)).2.

Lemma col_reachable : rtc collateral_step (Collateral_with_root root) col.
Proof.
  apply rtc_l with col1; [eapply (step_ca _ [1] 100); vm_compute; reflexivity|].
  apply rtc_l with col2; [eapply (step_tcb _ (map_to_list (co_cas col1)) [1] 100); [reflexivity|vm_compute; reflexivity]|].
  apply rtc_once. eapply (step_qe _ (map_to_list (co_cas col2)) [2] 100); [reflexivity|vm_compute; reflexivity].
Qed.

Definition ak_bytes : bytes := replicate 64 3.
Definition qe_report : bytes :=
  QeReport_encode (mkQeReport (replicate 16 0) (replicate 4 0) (replicate 16 0) (replicate 32 0) (replicate 32 0) 0 0 (sha256 ak_bytes ++ replicate 32 0)).
Definition pem : bytes := pem_encode [[2]].
Definition le_bytes (n : nat) (x : Z) : bytes := rev (be_bytes n x).
Definition quote : bytes :=
  [4; 0; 2; 0; 129; 0; 0; 0] ++ replicate 40 0 ++ TdReport_encode TdReport_default ++ le_bytes 4 100 ++ replicate 64 1 ++ ak_bytes
  ++ [6; 0; 0; 0; 0; 0] ++ qe_report ++ replicate 64 2 ++ [0; 0] ++ [5; 0] ++ le_bytes 4 (Z.of_nat (length pem)) ++ pem.

Lemma quote_chain_of_trust_witness :
  exists v ca, verify quote col 100 = Ok v /\ Cert_signed_by ca root = true /\ 100 <= ce_not_after ca /\ ve_tcb_status v = UP_TO_DATE.
Proof.
  destruct (verify quote col 100) as [v|e] eqn:E; [|vm_compute in E; discriminate].
  destruct (quote_chain_of_trust root col quote 100 v col_reachable E) as (der & ca & added & pck & auth & s1 & s2 & _ & Hs & _ & Hn & _).
  exists v, ca. split; [reflexivity|]. split; [exact Hs|]. split; [exact Hn|]. vm_compute in E. injection E as <-. reflexivity.
Defined.

Lemma quote_verification_total_witness : verify (take 1200 quote) col 100 <> Err Aborted.
Proof. apply quote_verification_total. Defined.

Lemma collateral_moves_forward_witness : co_root col = root /\ co_revoked (Collateral_with_root root) ⊆ co_revoked col.
Proof. destruct (collateral_moves_forward _ _ col_reachable) as [Hr Hv _ _ _]. split; [exact Hr|exact Hv]. Defined.

Lemma td_report_round_trip_witness :
  TdReport_parse (TdReport_encode TdReport_default) = Ok TdReport_default
  /\ exists r, TdReport_parse (replicate 584 8) = Ok r /\ TdReport_encode r = replicate 584 8.
Proof. apply (td_report_round_trip TdReport_default (replicate 584 8)); [split; reflexivity|reflexivity]. Defined.
End TdxWitness.
