(* ===== verification/Bitswap.v ===== *)
(** * Bitswap

    Models crates/net/src/bitswap.rs: the messages of the block exchange, how wants are answered
    and blocks accepted ([handle]), the split of large replies, and the two clients of the engine,
    [fetch] and [probe].  The clients wait on one broadcast channel and share the set of wanted
    CIDs, so the engine is a system of concurrent tasks: [bitswap_step] interleaves the items of
    received messages with the starts, receptions, timers and ends of any number of fetches and
    probes.  Streams and the protobuf codec (prost) are not modelled; CIDs and varints are the
    library classes of Car.v, and a peer id is a type with equality. *)

From S2P Require Import Prelude Types Params Ipld Car.
From stdpp Require Import base list list_numbers gmap strings.
From Stdlib Require Import ZArith Lia.

Open Scope Z_scope.
Open Scope bolt_scope.

Definition MAX_MESSAGE : Z := Z.shiftl 4 20.
Definition MAX_PEERS : nat := 5.

Definition WANT_BLOCK : Z := 0.
Definition WANT_HAVE : Z := 1.
Definition HAVE : Z := 0.
Definition DONT_HAVE : Z := 1.

(** ** Messages (module [pb]) *)

Record Entry := mkEntry {
  en_block : bytes;
  en_priority : Z;
  en_cancel : bool;
  en_want_type : Z;
  en_send_dont_have : bool;
}.

Record Wantlist := mkWantlist { wl_entries : list Entry; wl_full : bool }.

Record PbBlock := mkPbBlock { pb_prefix : bytes; pb_data : bytes }.

Record BlockPresence := mkBlockPresence { bp_cid : bytes; bp_type : Z }.

Record PbMessage := mkPbMessage {
  pm_wantlist : option Wantlist;
  pm_blocks : list bytes;
  pm_payload : list PbBlock;
  pm_presences : list BlockPresence;
  pm_pending_bytes : Z;
}.

Definition PbMessage_default : PbMessage := mkPbMessage None [] [] [] 0.

(** [reply.payload.push(b)] and [reply.block_presences.push(p)]. *)
Definition push_payload (b : PbBlock) (m : PbMessage) : PbMessage :=
  mkPbMessage (pm_wantlist m) (pm_blocks m) (pm_payload m ++ [b]) (pm_presences m) (pm_pending_bytes m).
Definition push_presence (p : BlockPresence) (m : PbMessage) : PbMessage :=
  mkPbMessage (pm_wantlist m) (pm_blocks m) (pm_payload m) (pm_presences m ++ [p]) (pm_pending_bytes m).

(** [Cid::try_from(&[u8])]. *)
Class CidTryFrom := cid_try_from : bytes -> option Cid.
Class CidTryFromLaws `{CB : CidBytes} (T : CidTryFrom) : Prop :=
  cid_try_from_bytes : forall c, cid_try_from (cid_to_bytes c) = Some c.

Section bitswap.
Context `{K : Keccak} `{Sh : Sha256} `{V : Varint} `{CB : CidBytes} `{CT : CidTryFrom}.
Context {PeerId : Type} `{EqDecision PeerId}.

(** ** CID prefixes *)

Definition cid_prefix (cid : Cid) : bytes :=
  concat (map varint_encode
    [cid_version cid; cid_codec cid; cid_code cid; Z.of_nat (length (cid_digest cid))]).

(** [Multihash::<64>::wrap] refuses digests longer than 64 bytes. *)
Definition cid_from_prefix (prefix data : bytes) : option Cid :=
  '(version, rest) ← varint_decode prefix;
  '(codec, rest) ← varint_decode rest;
  '(code, rest) ← varint_decode rest;
  '(_, _) ← varint_decode rest;
  if negb (version =? 1) then None
  else
    digest ← (if code =? KECCAK_256 then Some (b256_bytes (keccak256 data))
              else if code =? SHA2_256 then Some (sha256 data) else None);
    if Z.of_nat (length digest) <=? 64 then Some (new_v1 codec code digest) else None.

(** ** Answering and accepting *)

(** One iteration of the loop over the wantlist. *)
Definition answer (source : Cid -> option bytes) (reply : PbMessage) (e : Entry) : PbMessage :=
  if en_cancel e then reply
  else
    match cid_try_from (en_block e) with
    | None => reply
    | Some cid =>
        match source cid with
        | Some data =>
            if en_want_type e =? WANT_BLOCK then push_payload (mkPbBlock (cid_prefix cid) data) reply
            else if en_want_type e =? WANT_HAVE then push_presence (mkBlockPresence (en_block e) HAVE) reply
            else reply
        | None =>
            if en_send_dont_have e then push_presence (mkBlockPresence (en_block e) DONT_HAVE) reply
            else reply
        end
    end.

Definition block_cost (b : PbBlock) : Z := Z.of_nat (length (pb_data b) + length (pb_prefix b) + 16).

(** The loop of [split]: the parts so far, the current one and its size. *)
Fixpoint split_loop (payload : list PbBlock) (parts : list PbMessage) (cur : PbMessage) (size : Z)
  : list PbMessage :=
  match payload with
  | [] => parts ++ [cur]
  | b :: payload =>
      let len := block_cost b in
      if (MAX_MESSAGE - 1024 <? size + len) && negb (bool_decide (pm_payload cur = [])) then
        split_loop payload (parts ++ [cur]) (push_payload b PbMessage_default) len
      else split_loop payload parts (push_payload b cur) (size + len)
  end.

Definition split (msg : PbMessage) : list PbMessage :=
  split_loop (pm_payload msg) [] (mkPbMessage None [] [] (pm_presences msg) 0) 0.

(** The messages sent back for a wantlist. *)
Definition answer_wants (source : Cid -> option bytes) (msg : PbMessage) : list PbMessage :=
  match pm_wantlist msg with
  | None => []
  | Some wl =>
      let reply := foldl (answer source) PbMessage_default (wl_entries wl) in
      if bool_decide (pm_payload reply = []) && bool_decide (pm_presences reply = []) then []
      else split reply
  end.

Inductive Arrival :=
  | ABlock (peer : PeerId) (cid : Cid) (data : bytes)
  | ADontHave (peer : PeerId) (cid : Cid).

Definition receive_presence (wanted : gset Cid) (peer : PeerId) (p : BlockPresence) : option Arrival :=
  if bp_type p =? DONT_HAVE then
    cid ← cid_try_from (bp_cid p);
    if bool_decide (cid ∈ wanted) then Some (ADontHave peer cid) else None
  else None.

Definition receive_block (wanted : gset Cid) (peer : PeerId) (b : PbBlock) : option Arrival :=
  cid ← cid_from_prefix (pb_prefix b) (pb_data b);
  if negb (bool_decide (cid ∈ wanted)) then None
  else match verify cid (pb_data b) with
       | Ok _ => Some (ABlock peer cid (pb_data b))
       | Err _ => None
       end.

(** A message handled while no client starts or ends: the replies and the arrivals announced. *)
Definition handle (source : Cid -> option bytes) (wanted : gset Cid) (peer : PeerId) (msg : PbMessage)
  : list PbMessage * list Arrival :=
  (answer_wants source msg,
   omap (receive_presence wanted peer) (pm_presences msg) ++ omap (receive_block wanted peer) (pm_payload msg)).

Definition want_entry (c : Cid) : Entry := mkEntry (cid_to_bytes c) 1 false WANT_BLOCK true.

Definition want_message (cids : list Cid) : PbMessage :=
  mkPbMessage (Some (mkWantlist (map want_entry cids) false)) [] [] [] 0.

(** ** Fetching *)

(** The local state of a call of [fetch]; [fe_rx] is its receiver of the broadcast channel. *)
Record Fetch := mkFetch {
  fe_cids : list Cid;
  fe_peers : list PeerId;
  fe_got : gmap Cid bytes;
  fe_todo : gset Cid;
  fe_fanned : bool;
  fe_rx : list Arrival;
}.

(** Messages to send: to each target, in order. *)
Definition Ask : Type := list PeerId * PbMessage.

Definition lookup_local (source : Cid -> option bytes) (acc : gmap Cid bytes * gset Cid) (c : Cid)
  : gmap Cid bytes * gset Cid :=
  match source c with
  | Some d => (<[c := d]> (fst acc), snd acc)
  | None => (fst acc, {[c]} ∪ snd acc)
  end.

(** [ask]: one want message for what is missing (in the order of the set, which is unspecified). *)
Definition ask (todo : gset Cid) (targets : list PeerId) : Ask := (targets, want_message (elements todo)).

(** The start of [fetch], up to the loop. *)
Definition fetch_start (source : Cid -> option bytes) (cids : list Cid) (peers : list PeerId) : Fetch * list Ask :=
  let '(got, todo) := foldl (lookup_local source) (∅, ∅) cids in
  (mkFetch cids peers got todo (Nat.leb (length peers) 1) [],
   if bool_decide (todo = ∅) then []
   else match peers with [] => [] | first :: _ => [ask todo [first]] end).

(** An arrival taken from the channel. *)
Definition fetch_arrival (f : Fetch) (a : Arrival) : Fetch * list Ask :=
  match a with
  | ABlock _ cid data =>
      if bool_decide (cid ∈ fe_todo f) then
        (mkFetch (fe_cids f) (fe_peers f) (<[cid := data]> (fe_got f)) (fe_todo f ∖ {[cid]}) (fe_fanned f) (fe_rx f), [])
      else (f, [])
  | ADontHave peer cid =>
      if negb (fe_fanned f) && bool_decide (cid ∈ fe_todo f) && bool_decide (head (fe_peers f) = Some peer) then
        (mkFetch (fe_cids f) (fe_peers f) (fe_got f) (fe_todo f) true (fe_rx f),
         [ask (fe_todo f) (take (MAX_PEERS - 1) (drop 1 (fe_peers f)))])
      else (f, [])
  end.

(** The periodic round: everyone is asked again. *)
Definition fetch_round (f : Fetch) : Fetch * list Ask :=
  (mkFetch (fe_cids f) (fe_peers f) (fe_got f) (fe_todo f) true (fe_rx f),
   [ask (fe_todo f) (take MAX_PEERS (fe_peers f))]).

(** What [fetch] returns: the blocks, or the CIDs that did not arrive. *)
Definition fetch_result (f : Fetch) : result (gset Cid) (gmap Cid bytes) :=
  if bool_decide (fe_todo f = ∅) then Ok (fe_got f) else Err (fe_todo f).

Definition set_rx (rx : list Arrival) (f : Fetch) : Fetch :=
  mkFetch (fe_cids f) (fe_peers f) (fe_got f) (fe_todo f) (fe_fanned f) rx.

(** ** Probing one peer *)

Record Probe := mkProbe {
  pr_cid : Cid;
  pr_peer : PeerId;
  pr_result : option bytes;
  pr_over : bool;          (** the loop was left by [break] *)
  pr_rx : list Arrival;
}.

Definition probe_start (cid : Cid) (peer : PeerId) : Probe := mkProbe cid peer None false [].

(** What the loop asks of its peer, every two seconds. *)
Definition probe_ask (p : Probe) : Ask := ([pr_peer p], want_message [pr_cid p]).

Definition probe_arrival (p : Probe) (a : Arrival) : Probe :=
  match a with
  | ABlock q c data =>
      if bool_decide (q = pr_peer p) && bool_decide (c = pr_cid p)
      then mkProbe (pr_cid p) (pr_peer p) (Some data) true (pr_rx p) else p
  | ADontHave q c =>
      if bool_decide (q = pr_peer p) && bool_decide (c = pr_cid p)
      then mkProbe (pr_cid p) (pr_peer p) (pr_result p) true (pr_rx p) else p
  end.

Definition probe_result (p : Probe) : result (gset Cid) bytes := ok_or (pr_result p) {[pr_cid p]}.

Definition set_probe_rx (rx : list Arrival) (p : Probe) : Probe :=
  mkProbe (pr_cid p) (pr_peer p) (pr_result p) (pr_over p) rx.

(** ** The engine and its clients *)

(** A task that runs, by a number of its own; [bs_served] records the blocks received from peers
    and [bs_asked] what was sent to them. *)
Record Bitswap := mkBitswap {
  bs_wanted : gset Cid;
  bs_fetches : gmap nat Fetch;
  bs_probes : gmap nat Probe;
  bs_done : list (Fetch * result (gset Cid) (gmap Cid bytes));
  bs_probed : list (Probe * result (gset Cid) bytes);
  bs_served : list (PeerId * PbBlock);
  bs_asked : list Ask;
}.

Definition Bitswap_new : Bitswap := mkBitswap ∅ ∅ ∅ [] [] [] [].

(** [arrivals.send]: every waiting client receives it. *)
Definition announce (a : option Arrival) (s : Bitswap) : Bitswap :=
  match a with
  | None => s
  | Some a =>
      mkBitswap (bs_wanted s) ((fun f => set_rx (fe_rx f ++ [a]) f) <$> bs_fetches s)
        ((fun p => set_probe_rx (pr_rx p ++ [a]) p) <$> bs_probes s)
        (bs_done s) (bs_probed s) (bs_served s) (bs_asked s)
  end.

Definition put_fetch (i : nat) (r : Fetch * list Ask) (s : Bitswap) : Bitswap :=
  mkBitswap (bs_wanted s) (<[i := fst r]> (bs_fetches s)) (bs_probes s) (bs_done s) (bs_probed s)
    (bs_served s) (bs_asked s ++ snd r).
Definition put_probe (i : nat) (p : Probe) (asks : list Ask) (s : Bitswap) : Bitswap :=
  mkBitswap (bs_wanted s) (bs_fetches s) (<[i := p]> (bs_probes s)) (bs_done s) (bs_probed s)
    (bs_served s) (bs_asked s ++ asks).
Definition set_wanted (w : gset Cid) (s : Bitswap) : Bitswap :=
  mkBitswap w (bs_fetches s) (bs_probes s) (bs_done s) (bs_probed s) (bs_served s) (bs_asked s).
Definition log_served (x : PeerId * PbBlock) (s : Bitswap) : Bitswap :=
  mkBitswap (bs_wanted s) (bs_fetches s) (bs_probes s) (bs_done s) (bs_probed s) (x :: bs_served s) (bs_asked s).

Definition end_fetch (i : nat) (f : Fetch) (s : Bitswap) : Bitswap :=
  mkBitswap (bs_wanted s ∖ list_to_set (fe_cids f)) (delete i (bs_fetches s)) (bs_probes s)
    ((f, fetch_result f) :: bs_done s) (bs_probed s) (bs_served s) (bs_asked s).
Definition end_probe (i : nat) (p : Probe) (s : Bitswap) : Bitswap :=
  mkBitswap (bs_wanted s ∖ {[pr_cid p]}) (bs_fetches s) (delete i (bs_probes s))
    (bs_done s) ((p, probe_result p) :: bs_probed s) (bs_served s) (bs_asked s).

(** A call of [fetch] up to its first wait; it returns at once when nothing is missing. *)
Definition begin_fetch (source : Cid -> option bytes) (i : nat) (cids : list Cid) (peers : list PeerId)
    (s : Bitswap) : Bitswap :=
  let '(f, asks) := fetch_start source cids peers in
  if bool_decide (fe_todo f = ∅) then
    mkBitswap (bs_wanted s) (bs_fetches s) (bs_probes s) ((f, fetch_result f) :: bs_done s) (bs_probed s)
      (bs_served s) (bs_asked s)
  else put_fetch i (f, asks) (set_wanted (bs_wanted s ∪ fe_todo f) s).

Definition begin_probe (i : nat) (cid : Cid) (peer : PeerId) (s : Bitswap) : Bitswap :=
  put_probe i (probe_start cid peer) [probe_ask (probe_start cid peer)] (set_wanted ({[cid]} ∪ bs_wanted s) s).

(** The steps of the tasks; [source_ok] says which local blockstores a fetch may find (it changes with
    time, but not while a fetch looks its CIDs up).  A loop runs while something is missing and may be left at any time
    (deadline, channel closed); a slow receiver loses the oldest arrivals ([Lagged]). *)
Inductive bitswap_step (source_ok : (Cid -> option bytes) -> Prop) : Bitswap -> Bitswap -> Prop :=
| step_presence peer p s :
    bitswap_step source_ok s (announce (receive_presence (bs_wanted s) peer p) s)
| step_block peer b s :
    bitswap_step source_ok s (announce (receive_block (bs_wanted s) peer b) (log_served (peer, b) s))
| step_begin_fetch source i cids peers s :
    source_ok source -> bs_fetches s !! i = None -> bitswap_step source_ok s (begin_fetch source i cids peers s)
| step_fetch_recv i f a rx s :
    bs_fetches s !! i = Some f -> fe_todo f <> ∅ -> fe_rx f = a :: rx ->
    bitswap_step source_ok s (put_fetch i (fetch_arrival (set_rx rx f) a) s)
| step_fetch_lag i f n s :
    bs_fetches s !! i = Some f -> bitswap_step source_ok s (put_fetch i (set_rx (drop n (fe_rx f)) f, []) s)
| step_fetch_round i f s :
    bs_fetches s !! i = Some f -> fe_todo f <> ∅ -> bitswap_step source_ok s (put_fetch i (fetch_round f) s)
| step_fetch_end i f s :
    bs_fetches s !! i = Some f -> bitswap_step source_ok s (end_fetch i f s)
| step_begin_probe i cid peer s :
    bs_probes s !! i = None -> bitswap_step source_ok s (begin_probe i cid peer s)
| step_probe_ask i p s :
    bs_probes s !! i = Some p -> pr_over p = false -> bitswap_step source_ok s (put_probe i p [probe_ask p] s)
| step_probe_recv i p a rx s :
    bs_probes s !! i = Some p -> pr_over p = false -> pr_rx p = a :: rx ->
    bitswap_step source_ok s (put_probe i (probe_arrival (set_probe_rx rx p) a) [] s)
| step_probe_lag i p n s :
    bs_probes s !! i = Some p -> bitswap_step source_ok s (put_probe i (set_probe_rx (drop n (pr_rx p)) p) [] s)
| step_probe_end i p s :
    bs_probes s !! i = Some p -> bitswap_step source_ok s (end_probe i p s).
End bitswap.
