(* ===== verification/BitswapFacts.v ===== *)
(** * Facts about bitswap

    What the clients of the exchange get, whatever peers send and however the tasks interleave
    ([fetched_blocks_verify]); a want answered by a peer that holds the blocks completes the fetch
    ([served_fetch_completes]); large replies are split without loss ([reply_split]); and the
    defect of the shared set of wants ([shared_wants_drop_block]). *)

From S2P Require Import Prelude Types TypesFacts Params Ipld IpldFacts Car CarFacts Bitswap.
From stdpp Require Import base list list_numbers gmap strings relations.
From Stdlib Require Import ZArith Lia.

Open Scope Z_scope.
Open Scope bolt_scope.

Section facts.
Context `{K : Keccak} `{Sh : Sha256} `{V : Varint} `{CB : CidBytes} `{CT : CidTryFrom}.
Context {PeerId : Type} `{EqDecision PeerId}.
Abbreviation System := (@Bitswap PeerId).

Definition verified (c : Cid) (d : bytes) : Prop := verify c d = Ok ().

(** ** What peers can make the engine announce *)

Lemma receive_block_inv wanted (peer : PeerId) b a :
  receive_block wanted peer b = Some a ->
  exists c, a = ABlock peer c (pb_data b) /\ verified c (pb_data b) /\ c ∈ wanted.
Proof.
  unfold receive_block. destruct (cid_from_prefix _ _) as [c|]; [|done]. cbn.
  case_bool_decide as Hw; [|done]. cbn. destruct (verify c (pb_data b)) as [[]|] eqn:Ev; [|done].
  intros [= <-]. eauto.
Qed.

Lemma receive_presence_inv wanted (peer : PeerId) p a :
  receive_presence wanted peer p = Some a -> exists c, a = ADontHave peer c.
Proof.
  unfold receive_presence. destruct (_ =? _); [|done]. destruct (cid_try_from _) as [c|]; [|done]. cbn.
  case_bool_decide; [|done]. intros [= <-]. eauto.
Qed.

(** An arrival is backed by what a peer sent. *)
Definition backed_arrival (served : list (PeerId * PbBlock)) (a : Arrival) : Prop :=
  match a with
  | ABlock peer c d => verified c d /\ exists b, (peer, b) ∈ served /\ pb_data b = d
  | ADontHave _ _ => True
  end.

Record fetch_ok (served : list (PeerId * PbBlock)) (f : @Fetch PeerId) : Prop := {
  fo_cids : dom (fe_got f) ∪ fe_todo f = list_to_set (fe_cids f);
  fo_got c d : fe_got f !! c = Some d -> verified c d;
  fo_rx : Forall (backed_arrival served) (fe_rx f);
}.

Record probe_ok (served : list (PeerId * PbBlock)) (p : @Probe PeerId) : Prop := {
  po_result d : pr_result p = Some d -> backed_arrival served (ABlock (pr_peer p) (pr_cid p) d);
  po_rx : Forall (backed_arrival served) (pr_rx p);
}.

Record system_ok (s : System) : Prop := {
  so_fetches i f : bs_fetches s !! i = Some f -> fetch_ok (bs_served s) f;
  so_probes i p : bs_probes s !! i = Some p -> probe_ok (bs_served s) p;
  so_done f r : (f, r) ∈ bs_done s -> fetch_ok (bs_served s) f /\ r = fetch_result f;
  so_probed p r : (p, r) ∈ bs_probed s -> probe_ok (bs_served s) p /\ r = probe_result p;
}.

(** ** Steps of a single client *)

Lemma backed_more served x a : backed_arrival served a -> backed_arrival (x :: served) a.
Proof. destruct a; [|done]. intros [Hv (b & Hb & Hd)]. split; [done|]. exists b. split; [by right|done]. Qed.

Lemma fetch_ok_more served x f : fetch_ok served f -> fetch_ok (x :: served) f.
Proof. intros []. split; [done|done|]. eapply Forall_impl; [done|]. intros a. apply backed_more. Qed.

Lemma probe_ok_more served x p : probe_ok served p -> probe_ok (x :: served) p.
Proof.
  intros []. split; [intros d Hd; by apply backed_more, po_result0|].
  eapply Forall_impl; [done|]. intros a. apply backed_more.
Qed.

Lemma fetch_start_ok served source cids (peers : list PeerId) :
  (forall c d, source c = Some d -> verified c d) -> fetch_ok served (fst (fetch_start source cids peers)).
Proof.
  intros Hs. unfold fetch_start.
  enough (forall l got todo, (forall c d, got !! c = Some d -> verified c d) ->
    let '(got', todo') := foldl (lookup_local source) (got, todo) l in
    dom got' ∪ todo' = dom got ∪ todo ∪ list_to_set l /\ (forall c d, got' !! c = Some d -> verified c d)) as H.
  { specialize (H cids ∅ ∅ ltac:(intros c d; by rewrite lookup_empty)). destruct (foldl _ _ _) as [got todo]. destruct H as [Hd Hv].
    split; [cbn in *; set_solver|done|constructor]. }
  induction l as [|c l IH]; intros got todo Hv; [cbn; set_solver|]. cbn [foldl]. unfold lookup_local at 2. cbn [fst snd].
  destruct (source c) as [d|] eqn:E.
  - specialize (IH (<[c := d]> got) todo). destruct (foldl _ _ _) as [got' todo']. destruct IH as [Hd Hv'].
    + intros c' d' [[<- <-]|[_ ?]]%lookup_insert_Some; eauto.
    + split; [|done]. rewrite Hd. set_solver.
  - specialize (IH got ({[c]} ∪ todo)). destruct (foldl _ _ _) as [got' todo']. destruct IH as [Hd Hv']; [done|].
    split; [|done]. rewrite Hd. set_solver.
Qed.

Lemma fetch_arrival_ok served f a :
  fetch_ok served f -> backed_arrival served a -> fetch_ok served (fst (fetch_arrival f a)).
Proof.
  intros [Hc Hg Hr] Ha. destruct a as [peer c d|peer c]; cbn [fetch_arrival].
  - case_bool_decide as Hin; [|done]. split; cbn; [|intros c' d' [[<- <-]|[_ ?]]%lookup_insert_Some; [apply Ha|eauto]|done].
    rewrite dom_insert_L, <-Hc. apply set_eq. intros x. destruct (decide (x = c)); set_solver.
  - destruct (_ && _); [|done]. by split.
Qed.

Lemma probe_arrival_ok served p a :
  probe_ok served p -> backed_arrival served a -> probe_ok served (probe_arrival p a).
Proof.
  intros [Hr Hx] Ha. destruct a as [q c d|q c]; cbn [probe_arrival]; do 2 case_bool_decide; cbn; try done; subst.
  split; [|done]. cbn. by intros d' [= <-].
Qed.

(** ** The system *)

Ltac system H := destruct H as [Hf Hp Hd Hpd].

Lemma announce_ok s a :
  system_ok s -> (forall x, a = Some x -> backed_arrival (bs_served s) x) -> system_ok (announce a s).
Proof.
  intros H Ha. destruct a as [a|]; [|done]. specialize (Ha a eq_refl). system H. split; cbn; [| |done|done].
  - intros i f. rewrite lookup_fmap. destruct (bs_fetches s !! i) as [f0|] eqn:E; [|done]. intros [= <-].
    destruct (Hf i f0 E). split; cbn; [done|done|]. by apply Forall_app_2; [|constructor].
  - intros i p. rewrite lookup_fmap. destruct (bs_probes s !! i) as [p0|] eqn:E; [|done]. intros [= <-].
    destruct (Hp i p0 E). split; cbn; [done|]. by apply Forall_app_2; [|constructor].
Qed.

Lemma put_fetch_ok s i r : system_ok s -> fetch_ok (bs_served s) (fst r) -> system_ok (put_fetch i r s).
Proof. intros H Hr. system H. split; cbn; [|done..]. intros j f [[_ <-]|[_ ?]]%lookup_insert_Some; eauto. Qed.

Lemma put_probe_ok s i p asks : system_ok s -> probe_ok (bs_served s) p -> system_ok (put_probe i p asks s).
Proof. intros H Hr. system H. split; cbn; [done| |done..]. intros j q [[_ <-]|[_ ?]]%lookup_insert_Some; eauto. Qed.

Lemma log_served_ok s x : system_ok s -> system_ok (log_served x s).
Proof.
  intros H. system H. split; cbn; intros.
  - eapply fetch_ok_more; eauto.
  - eapply probe_ok_more; eauto.
  - edestruct Hd; eauto using fetch_ok_more.
  - edestruct Hpd; eauto using probe_ok_more.
Qed.

Lemma drop_backed served n (l : list (@Arrival PeerId)) :
  Forall (backed_arrival served) l -> Forall (backed_arrival served) (drop n l).
Proof. rewrite !Forall_forall. intros H a Ha. apply H. eapply subseteq_drop, Ha. Qed.

Definition trusted_source (source : Cid -> option bytes) : Prop :=
  forall c d, source c = Some d -> verified c d.

Lemma begin_fetch_ok s source i cids (peers : list PeerId) :
  trusted_source source -> system_ok s -> system_ok (begin_fetch source i cids peers s).
Proof.
  intros Hs H. unfold begin_fetch. pose proof (fetch_start_ok (bs_served s) source cids peers Hs) as Hf0.
  destruct (fetch_start _ _ _) as [f asks]. cbn [fst] in Hf0. case_bool_decide.
  - system H. split; cbn; [done|done| |done]. intros f' r [[= -> ->]|?]%elem_of_cons; [done|eauto].
  - apply put_fetch_ok; [|done]. system H. by split.
Qed.

Lemma bitswap_step_ok s s' : bitswap_step trusted_source s s' -> system_ok s -> system_ok s'.
Proof.
  intros Hstep H. pose proof H as H0. system H0. destruct Hstep; eauto using begin_fetch_ok.
  - apply announce_ok; [done|]. intros a Ha. by apply receive_presence_inv in Ha as [c ->].
  - apply announce_ok; [by apply log_served_ok|]. intros a Ha. apply receive_block_inv in Ha as (c & -> & Hv & _).
    split; [done|]. exists b. split; [by left|done].
  - destruct (Hf _ _ H0) as [Hc Hg Hr]. rewrite H2 in Hr. apply Forall_cons in Hr as [Ha Hr].
    apply put_fetch_ok; [done|]. apply fetch_arrival_ok; [by split|done].
  - destruct (Hf _ _ H0) as [Hc Hg Hr]. apply put_fetch_ok; [done|]. split; [done|done|by apply drop_backed].
  - destruct (Hf _ _ H0) as [Hc Hg Hr]. apply put_fetch_ok; [done|]. by split.
  - split; cbn; [|done| |done].
    + intros j g [_ ?]%lookup_delete_Some. eauto.
    + intros g r [[= -> ->]|?]%elem_of_cons; eauto.
  - apply put_probe_ok; [by split|]. by split; [|constructor].
  - apply put_probe_ok; eauto.
  - destruct (Hp _ _ H0) as [Hr Hx]. rewrite H2 in Hx. apply Forall_cons in Hx as [Ha Hx].
    apply put_probe_ok; [done|]. apply probe_arrival_ok; [by split|done].
  - destruct (Hp _ _ H0) as [Hr Hx]. apply put_probe_ok; [done|]. split; [done|by apply drop_backed].
  - split; cbn; [done| |done|].
    + intros j g [_ ?]%lookup_delete_Some. eauto.
    + intros g r [[= -> ->]|?]%elem_of_cons; eauto.
Qed.

(** C15.  What a client of the exchange gets is what it asked for, whatever peers send, whichever
    messages are lost and however any number of concurrent fetches and probes interleave: a fetch
    that succeeds returns exactly the CIDs asked for, each with content that verifies; one that
    fails names CIDs it was asked for; a probe that succeeds returns content that verifies and that
    the probed peer itself sent. *)
Theorem fetched_blocks_verify (s : System) (Hrun : rtc (bitswap_step trusted_source) Bitswap_new s) :
  (forall f got, (f, Ok got) ∈ bs_done s ->
     dom got = list_to_set (fe_cids f) /\ forall c d, got !! c = Some d -> verify c d = Ok ())
  /\ (forall f missing, (f, Err missing) ∈ bs_done s -> missing <> ∅ /\ missing ⊆ list_to_set (fe_cids f))
  /\ (forall p d, (p, Ok d) ∈ bs_probed s ->
       verify (pr_cid p) d = Ok () /\ exists b, (pr_peer p, b) ∈ bs_served s /\ pb_data b = d).
Proof.
  assert (system_ok s) as H.
  { assert (system_ok Bitswap_new) as H0 by (split; cbn; [done|done|..]; intros ? ? []%elem_of_nil).
    revert H0. induction Hrun as [|s1 s2 s3 Hstep _ IH]; [done|]. intros H1. by apply IH, (bitswap_step_ok s1). }
  split; [|split].
  - intros f got [[Hc Hg _] E]%(so_done _ H). unfold fetch_result in E. case_bool_decide as Ht; [|done].
    injection E as ->. split; [|done]. rewrite <-Hc, Ht. set_solver.
  - intros f m [[Hc _ _] E]%(so_done _ H). unfold fetch_result in E. case_bool_decide; [done|].
    injection E as ->. split; [done|]. set_solver.
  - intros p d [[Hr _] E]%(so_probed _ H). unfold probe_result, ok_or in E.
    destruct (pr_result p) as [d'|]; [|done]. injection E as ->. by apply Hr.
Qed.

(** ** Splitting replies *)

Definition payload_cost (l : list PbBlock) : Z := sumZ (map block_cost l).

Definition part_fits (p : PbMessage) : Prop :=
  payload_cost (pm_payload p) <= MAX_MESSAGE - 1024 \/ length (pm_payload p) = 1%nat.

Lemma split_loop_parts payload parts cur size :
  size = payload_cost (pm_payload cur) -> (pm_payload cur = [] \/ part_fits cur) ->
  exists first rest, split_loop payload parts cur size = parts ++ first :: rest
    /\ concat (map pm_payload (first :: rest)) = pm_payload cur ++ payload
    /\ pm_presences first = pm_presences cur
    /\ (pm_payload cur <> [] -> pm_payload first <> [])
    /\ Forall (fun p => pm_presences p = [] /\ pm_payload p <> []) rest
    /\ Forall (fun p => pm_payload p = [] \/ part_fits p) (first :: rest).
Proof.
  revert parts cur size. induction payload as [|b payload IH]; intros parts cur size Hs Hc; cbn [split_loop].
  { exists cur, []. split; [done|]. split; [by cbn; rewrite app_nil_r|]. split; [done|]. split; [done|].
    split; constructor; [done|constructor]. }
  assert (forall m, payload_cost (pm_payload (push_payload b m)) = payload_cost (pm_payload m) + block_cost b) as Hpush.
  { intros m. unfold payload_cost. cbn. rewrite map_app, sumZ_app. cbn. lia. }
  destruct (Z.ltb_spec (MAX_MESSAGE - 1024) (size + block_cost b)) as [Hbig|Hsmall]; cbn [andb].
  - case_bool_decide as Hnil; cbn [negb].
    + destruct (IH parts (push_payload b cur) (size + block_cost b)) as (first & rest & E & Hp & Hq & Hn & Hr & Hf).
      * by rewrite Hpush, Hs.
      * right. right. cbn. by rewrite Hnil.
      * exists first, rest. rewrite E, Hp. split; [done|]. split; [cbn; by rewrite <-app_assoc|].
    split; [done|]. split; [intros _; apply Hn; cbn; by destruct (pm_payload cur)|done].
    + destruct (IH (parts ++ [cur]) (push_payload b PbMessage_default) (block_cost b)) as (first & rest & E & Hp & Hq & Hn & Hr & Hf).
      * by rewrite Hpush.
      * right. by right.
      * exists cur, (first :: rest). rewrite E, <-app_assoc. split; [done|].
        split; [cbn [map concat] in *; rewrite Hp; done|]. split; [done|]. split; [done|]. split; [|by constructor].
        constructor; [|done]. split; [done|]. by apply Hn.
  - destruct (IH parts (push_payload b cur) (size + block_cost b)) as (first & rest & E & Hp & Hq & Hn & Hr & Hf).
    + by rewrite Hpush, Hs.
    + right. left. rewrite Hpush, <-Hs. lia.
    + exists first, rest. rewrite E, Hp. split; [done|]. split; [cbn; by rewrite <-app_assoc|].
    split; [done|]. split; [intros _; apply Hn; cbn; by destruct (pm_payload cur)|done].
Qed.

(** A reply is split without loss: the parts carry the blocks in order, the first one all
    presences, and every other part at least one block and nothing else; the blocks of a part stay
    within the message limit, or are a single block. *)
Theorem reply_split (m : PbMessage) :
  concat (map pm_payload (Bitswap.split m)) = pm_payload m
  /\ (exists first rest, Bitswap.split m = first :: rest /\ pm_presences first = pm_presences m
       /\ Forall (fun p => pm_presences p = [] /\ pm_payload p <> []) rest)
  /\ Forall (fun p => payload_cost (pm_payload p) <= MAX_MESSAGE - 1024 \/ length (pm_payload p) = 1%nat) (Bitswap.split m).
Proof.
  destruct (split_loop_parts (pm_payload m) [] (mkPbMessage None [] [] (pm_presences m) 0) 0)
    as (first & rest & E & Hp & Hq & _ & Hr & Hf); [done|by left|].
  change (split_loop (pm_payload m) [] _ 0) with (Bitswap.split m) in E. rewrite E. cbn [app].
  split; [done|]. split; [by exists first, rest|].
  eapply Forall_impl; [exact Hf|]. intros p [->|?]; [|done]. left. by vm_compute.
Qed.

(** ** An exchange between two engines *)
Section exchange.
Context `{!VarintLaws V} `{!CidTryFromLaws CT} (Hsha : forall d, length (sha256 d) = 32%nat).

(** A block's prefix and content give its CID back. *)
Lemma cid_from_cid_prefix c d :
  verified c d -> cid_version c = 1 -> cid_from_prefix (cid_prefix c) d = Some c.
Proof.
  unfold verified, verify. destruct (MAX_IPLD_BLOCK_BYTES <? _); [done|]. destruct c as [v codec code digest]. cbn.
  intros Hv ->.
  assert (exists known, (code = KECCAK_256 /\ known = b256_bytes (keccak256 d) \/ code = SHA2_256 /\ known = sha256 d)
    /\ in_range 64 codec /\ length known = 32%nat /\ digest = known) as (known & Hk & Hc & Hl & ->).
  { destruct (Z.eqb_spec codec ETH_BLOCK) as [->|]; cbn in Hv.
    - destruct (Z.eqb_spec code KECCAK_256) as [->|]; cbn in Hv; [|done].
      exists (b256_bytes (keccak256 d)). case_bool_decide; [|done].
      split; [by left|]. split; [by split|]. split; [by unfold b256_bytes; rewrite be_bytes_length|done].
    - destruct ((codec =? RAW) || (codec =? DAG_CBOR)) eqn:Eo; cbn in Hv; [|done].
      destruct (Z.eqb_spec code SHA2_256) as [->|]; cbn in Hv; [|done].
      exists (sha256 d). case_bool_decide; [|done]. split; [by right|].
      split; [|by rewrite Hsha]. apply orb_true_iff in Eo as [E%Z.eqb_eq|E%Z.eqb_eq]; rewrite E; by split. }
  unfold cid_from_prefix, cid_prefix. cbn [cid_version cid_codec cid_code cid_digest map concat]. rewrite Hl, app_nil_r.
  assert (in_range 64 code) as Hcode by (by destruct Hk as [[-> _]|[-> _]]).
  assert (in_range 64 1 /\ in_range 64 (Z.of_nat 32)) as [H1 H32] by (by split).
  do 3 (rewrite varint_decode_encode by done; cbn [mbind option_bind]).
  rewrite <-(app_nil_r (varint_encode _)), (varint_decode_encode (Z.of_nat 32) []) by done. cbn [mbind option_bind].
  destruct Hk as [[-> ->]|[-> ->]]; unfold KECCAK_256, SHA2_256;
    cbn [Z.eqb Pos.eqb negb mbind option_bind]; by rewrite Hl.
Qed.

(** What a peer that holds the blocks sends for a want. *)
Lemma answer_held source cids reply :
  (forall c, c ∈ cids -> is_Some (source c)) ->
  foldl (answer source) reply (map want_entry cids)
  = mkPbMessage (pm_wantlist reply) (pm_blocks reply)
      (pm_payload reply ++ map (fun c => mkPbBlock (cid_prefix c) (default [] (source c))) cids)
      (pm_presences reply) (pm_pending_bytes reply).
Proof.
  revert reply. induction cids as [|c cids IH]; intros reply Hs; cbn [map foldl].
  { rewrite app_nil_r. by destruct reply. }
  destruct (Hs c ltac:(left)) as [d Hd]. rewrite IH by (intros; apply Hs; by right).
  unfold answer, want_entry. cbn. rewrite cid_try_from_bytes, Hd. cbn. by rewrite <-app_assoc.
Qed.

Lemma answer_wants_held source cids :
  (forall c, c ∈ cids -> is_Some (source c)) ->
  concat (map pm_payload (answer_wants source (want_message cids)))
    = map (fun c => mkPbBlock (cid_prefix c) (default [] (source c))) cids
  /\ Forall (fun p => pm_presences p = []) (answer_wants source (want_message cids)).
Proof.
  intros Hs. unfold answer_wants, want_message. cbn [pm_wantlist wl_entries]. rewrite answer_held by done.
  set (reply := mkPbMessage _ _ _ _ _). destruct cids as [|c cids]; [by split|].
  rewrite bool_decide_false by done. cbn [andb].
  destruct (reply_split reply) as (Hp & (first & rest & E & Hq & Hr) & _). split; [done|].
  rewrite E. constructor; [done|]. eapply Forall_impl; [done|]. by intros p [? _].
Qed.

Lemma receive_held wanted (peer : PeerId) source cids :
  (forall c, c ∈ cids -> c ∈ wanted /\ exists d, source c = Some d /\ verified c d /\ cid_version c = 1) ->
  omap (receive_block wanted peer) (map (fun c => mkPbBlock (cid_prefix c) (default [] (source c))) cids)
  = map (fun c => ABlock peer c (default [] (source c))) cids.
Proof.
  induction cids as [|c cids IH]; intros H; [done|]. cbn [map].
  destruct (H c ltac:(left)) as (Hw & d & Hd & Hv & H1). cbn [omap list_omap].
  rewrite IH by (intros; apply H; by right). unfold receive_block. cbn [pb_prefix pb_data].
  rewrite Hd. cbn [default]. rewrite cid_from_cid_prefix by done. cbn. rewrite bool_decide_true by done. cbn.
  unfold verified in Hv. by rewrite Hv.
Qed.

Definition fetch_arrivals : @Fetch PeerId -> list Arrival -> Fetch := foldl (fun f a => fst (fetch_arrival f a)).

Lemma fetch_blocks (peer : PeerId) (data : Cid -> bytes) cids f :
  let f' := fetch_arrivals f (map (fun c => ABlock peer c (data c)) cids) in
  fe_todo f' = fe_todo f ∖ list_to_set cids
  /\ forall c, fe_got f' !! c = if decide (c ∈ fe_todo f /\ c ∈ cids) then Some (data c) else fe_got f !! c.
Proof.
  revert f. induction cids as [|c cids IH]; intros f; cbn [map fetch_arrivals foldl].
  { split; [set_solver|]. intros c. rewrite decide_False; [done|]. intros [_ []%elem_of_nil]. }
  destruct (IH (fst (fetch_arrival f (ABlock peer c (data c))))) as [Ht Hg]. unfold fetch_arrivals in *.
  cbn [fetch_arrival] in *. case_bool_decide as Hin; cbn [fst] in *.
  - rewrite Ht. cbn. split; [set_solver|]. intros x. rewrite Hg. cbn.
    destruct (decide (x = c)) as [->|Hne].
    + rewrite decide_False by set_solver. rewrite lookup_insert_eq, decide_True by set_solver. done.
    + rewrite lookup_insert_ne by done. repeat case_decide; set_solver.
  - rewrite Ht. split; [set_solver|]. intros x. rewrite Hg. repeat case_decide; set_solver.
Qed.

(** A peer that holds what a fetch wants completes it: the want message a fetch sends, answered
    by an engine whose blockstore holds the blocks, comes back as messages which, handled by the
    asking engine, leave nothing missing; the fetch returns the blocks of that store. *)
Theorem served_fetch_completes (source local : Cid -> option bytes) (wanted : gset Cid) (server : PeerId) (f : Fetch)
    (Hheld : forall c, c ∈ fe_todo f -> exists d, source c = Some d /\ verify c d = Ok () /\ cid_version c = 1)
    (Hwanted : fe_todo f ⊆ wanted) :
  let replies := answer_wants source (snd (ask (fe_todo f) [server])) in
  let arrivals := concat (map (fun m => snd (handle local wanted server m)) replies) in
  exists got, fetch_result (fetch_arrivals f arrivals) = Ok got
    /\ (forall c, c ∈ fe_todo f -> got !! c = source c) /\ (forall c, c ∉ fe_todo f -> got !! c = fe_got f !! c).
Proof.
  intros replies arrivals. set (cids := elements (fe_todo f)).
  destruct (answer_wants_held source cids) as [Hp Hq].
  { intros c Hc%elem_of_elements. destruct (Hheld c Hc) as (d & -> & _). eauto. }
  assert (arrivals = map (fun c => ABlock server c (default [] (source c))) cids) as ->.
  { rewrite <-(receive_held wanted), <-Hp.
    - unfold arrivals, replies, ask. cbn [snd]. fold cids. clear Hp.
      induction Hq as [|p l Hp _ IH]; [done|]. cbn [map concat]. rewrite IH, omap_app. unfold handle. cbn [snd]. by rewrite Hp.
    - intros c Hc%elem_of_elements. split; [set_solver|]. by apply Hheld. }
  destruct (fetch_blocks server (fun c => default [] (source c)) cids f) as [Ht Hg]. cbn beta in *.
  eexists. unfold fetch_result. rewrite bool_decide_true by (rewrite Ht; unfold cids; set_solver).
  split; [done|]. split; intros c Hc; rewrite Hg.
  - rewrite decide_True by (split; [done|by apply elem_of_elements]). by destruct (Hheld c Hc) as (d & -> & _).
  - rewrite decide_False; [done|]. by intros [? _].
Qed.
End exchange.
End facts.

(** ** Witnesses, and a defect *)
Module BitswapWitness.
Import CarWitness.

#[local] Instance toy_keccak : Keccak := fun b => Z.of_nat (length b).
#[local] Instance toy_sha : Sha256 := fun b => be_bytes 32 (256 * Z.of_nat (length b) + default 0 (head b)).
#[local] Instance toy_try_from : CidTryFrom := fun b => fst <$> cid_read_bytes b.
#[local] Instance toy_try_from_laws : CidTryFromLaws toy_try_from.
Proof.
  intros c. unfold cid_try_from, toy_try_from. rewrite <-(app_nil_r (cid_to_bytes c)). by rewrite cid_read_to_bytes.
Qed.

Lemma toy_sha_length d : length (sha256 d) = 32%nat.
Proof. unfold sha256, toy_sha. apply be_bytes_length. Qed.

Definition content : bytes := [7; 8].
Definition cid : Cid := sha256_cid RAW content.
Definition empty_store : Cid -> option bytes := fun _ => None.
Definition full_store : Cid -> option bytes := fun c => if decide (c = cid) then Some content else None.
Definition served_block : PbBlock := mkPbBlock (cid_prefix cid) content.

Lemma empty_trusted : trusted_source empty_store.
Proof. by intros c d. Qed.

(** Executions, as sequences of events; peers are numbers. *)
Inductive Event :=
  | EPresence (peer : nat) (p : BlockPresence)
  | EBlock (peer : nat) (b : PbBlock)
  | EFetch (i : nat) (cids : list Cid) (peers : list nat)
  | ERecv (i : nat)
  | EEnd (i : nat)
  | EProbe (i : nat) (c : Cid) (peer : nat)
  | EProbeRecv (i : nat)
  | EProbeEnd (i : nat).

Definition exec (s : @Bitswap nat) (e : Event) : Bitswap :=
  match e with
  | EPresence peer p => announce (receive_presence (bs_wanted s) peer p) s
  | EBlock peer b => announce (receive_block (bs_wanted s) peer b) (log_served (peer, b) s)
  | EFetch i cids peers =>
      if bs_fetches s !! i then s else begin_fetch empty_store i cids peers s
  | ERecv i =>
      match bs_fetches s !! i with
      | Some f => match fe_rx f with
                  | a :: rx => if decide (fe_todo f = ∅) then s else put_fetch i (fetch_arrival (set_rx rx f) a) s
                  | [] => s
                  end
      | None => s
      end
  | EEnd i => match bs_fetches s !! i with Some f => end_fetch i f s | None => s end
  | EProbe i c peer => if bs_probes s !! i then s else begin_probe i c peer s
  | EProbeRecv i =>
      match bs_probes s !! i with
      | Some p => match pr_rx p with
                  | a :: rx => if pr_over p then s else put_probe i (probe_arrival (set_probe_rx rx p) a) [] s
                  | [] => s
                  end
      | None => s
      end
  | EProbeEnd i => match bs_probes s !! i with Some p => end_probe i p s | None => s end
  end.

Lemma exec_step s e : rtc (bitswap_step trusted_source) s (exec s e).
Proof.
  destruct e; cbn [exec].
  - apply rtc_once, step_presence.
  - apply rtc_once, step_block.
  - destruct (bs_fetches s !! i) eqn:E; [done|]. by apply rtc_once, step_begin_fetch.
  - destruct (bs_fetches s !! i) as [f|] eqn:E; [|done]. destruct (fe_rx f) eqn:Er; [done|]. case_decide; [done|].
    by eapply rtc_once, step_fetch_recv.
  - destruct (bs_fetches s !! i) as [f|] eqn:E; [|done]. by apply rtc_once, step_fetch_end.
  - destruct (bs_probes s !! i) eqn:E; [done|]. by apply rtc_once, step_begin_probe.
  - destruct (bs_probes s !! i) as [p|] eqn:E; [|done]. destruct (pr_rx p) eqn:Er; [done|].
    destruct (pr_over p) eqn:Eo; [done|]. by eapply rtc_once, step_probe_recv.
  - destruct (bs_probes s !! i) as [p|] eqn:E; [|done]. by apply rtc_once, step_probe_end.
Qed.

Lemma exec_reachable l : rtc (bitswap_step trusted_source) Bitswap_new (foldl exec Bitswap_new l).
Proof.
  generalize (@Bitswap_new nat). induction l as [|e l IH]; intros s; [done|]. cbn [foldl].
  etransitivity; [apply exec_step|apply IH].
Qed.

(** Peer 1 has nothing, peer 2 serves the block of a fetch and of a probe. *)
Definition exchange : list Event := [
  EFetch 0 [cid] [1%nat; 2%nat]; EProbe 0 cid 2; EPresence 1 (mkBlockPresence (cid_to_bytes cid) DONT_HAVE);
  ERecv 0; EBlock 2 served_block; ERecv 0; EProbeRecv 0; EProbeRecv 0; EEnd 0; EProbeEnd 0].

(** The outcomes of the fetches and probes that ended. *)
Definition fetch_outcomes (s : @Bitswap nat) : list (result (list Cid) (option bytes)) :=
  map (fun x => match snd x with Ok got => Ok (got !! cid) | Err m => Err (elements m) end) (bs_done s).
Definition probe_outcomes (s : @Bitswap nat) : list (nat * Cid * option bytes) :=
  map (fun x => (pr_peer (fst x), pr_cid (fst x), match snd x with Ok d => Some d | Err _ => None end)) (bs_probed s).

Lemma fetched_blocks_verify_witness :
  let s := foldl exec Bitswap_new exchange in
  fetch_outcomes s = [Ok (Some content)] /\ probe_outcomes s = [(2%nat, cid, Some content)]
  /\ map fst (bs_asked s) = [[1%nat]; [2%nat]; [2%nat]]
  /\ verify cid content = Ok () /\ exists b, (2%nat, b) ∈ bs_served s /\ pb_data b = content.
Proof.
  cbv zeta.
  pose proof (fetched_blocks_verify (foldl exec Bitswap_new exchange) (exec_reachable exchange)) as (_ & _ & H).
  assert (fetch_outcomes (foldl exec Bitswap_new exchange) = [Ok (Some content)]) as E1 by (vm_compute; reflexivity).
  assert (probe_outcomes (foldl exec Bitswap_new exchange) = [(2%nat, cid, Some content)]) as E2 by (vm_compute; reflexivity).
  assert (map fst (bs_asked (foldl exec Bitswap_new exchange)) = [[1%nat]; [2%nat]; [2%nat]]) as E3 by (vm_compute; reflexivity).
  revert H E1 E2 E3. generalize (foldl exec Bitswap_new exchange). intros s H E1 E2 E3.
  split; [exact E1|]. split; [exact E2|]. split; [exact E3|].
  unfold probe_outcomes in E2. destruct (bs_probed s) as [|[p [d|m]] [|]]; try discriminate E2.
  injection E2 as <- <- <-. apply (H p d). left.
Defined.

(** Peer 2 answers the want of a fetch with the block. *)
Lemma served_fetch_completes_witness :
  let f := fst (fetch_start empty_store [cid] [2%nat]) in
  exists got, fetch_result (fetch_arrivals f
      (concat (map (fun m => snd (handle empty_store {[cid]} 2%nat m)) (answer_wants full_store (want_message [cid])))))
    = Ok got /\ got !! cid = Some content.
Proof.
  set (f := fst (fetch_start empty_store [cid] [2%nat])).
  assert (fe_todo f = {[cid]}) as Ef by (unfold f, fetch_start; cbn; set_solver).
  clearbody f.
  destruct (served_fetch_completes toy_sha_length full_store empty_store {[cid]} 2%nat f) as (got & E & Hg & _).
  - rewrite Ef. intros c ->%elem_of_singleton. exists content. split; [by vm_compute|]. split; by vm_compute.
  - by rewrite Ef.
  - exists got. cbv zeta. split; [|rewrite Hg by (by rewrite Ef, elem_of_singleton); by vm_compute].
    rewrite <-E. unfold ask. cbn [snd]. rewrite Ef, elements_singleton. reflexivity.
Defined.

(** Two fetches want the same CID.  The first gives up and takes the CID out of the shared set of
    wants; the block the second one asked for then arrives, with its right content, and is dropped
    as unsolicited: the second fetch fails although its peer served the block. *)
Lemma shared_wants_drop_block :
  let s := foldl exec Bitswap_new [EFetch 0 [cid] [1%nat]; EFetch 1 [cid] [2%nat]; EEnd 0;
                                   EBlock 2 served_block; ERecv 1; EEnd 1] in
  verify cid (pb_data served_block) = Ok () /\ bs_served s = [(2%nat, served_block)]
  /\ fetch_outcomes s = [Err [cid]; Err [cid]].
Proof. cbv zeta. split; [vm_compute; reflexivity|]. split; vm_compute; reflexivity. Qed.
End BitswapWitness.
