(* ===== verification/Nodes.v ===== *)
(** * The node census

    Models crates/net/src/nodes.rs: the book of known nodes, fed by the peers this node is connected
    to and by the heartbeats nodes gossip, and read by the explorer.  Peer ids and multiaddresses are
    those of libp2p (class [Libp2p]); a heartbeat's codec is dag-cbor.  The clocks are arguments: unix
    seconds and, for the rate limit, a monotonic clock in seconds.  A [HashMap] is iterated in an
    unspecified order, an argument of the operations whose result depends on it.  A string is the list
    of its characters. *)

From S2P Require Import Prelude Types Ipld TextCodec.
From stdpp Require Import base list list_numbers sorting gmap strings.
From Stdlib Require Import ZArith Lia.

Open Scope Z_scope.
Open Scope bolt_scope.

Definition HEARTBEAT : Z := 10 * 60.
Definition EXPIRY : Z := 35 * 60.
Definition MAX_NODES : Z := 10000.
Definition MAX_SKEW_SECS : Z := 15 * 60.
Definition MAX_INFO_BYTES : Z := 2048.
Definition MIN_INTERVAL : Z := 120.

(** ** Addresses *)

(** [std::net::IpAddr], by octets and by 16-bit segments. *)
Inductive IpAddr :=
  | V4 (octets : list Z)
  | V6 (segments : list Z).

#[export] Instance IpAddr_eq_dec : EqDecision IpAddr.
Proof. solve_decision. Defined.

(** The protocols of a multiaddress the code tells apart. *)
Inductive Protocol :=
  | P2pCircuit
  | Ip4 (octets : list Z)
  | Ip6 (segments : list Z)
  | OtherProtocol.

Class Libp2p := {
  PeerId : Type;
  PeerId_eq_dec :: EqDecision PeerId;
  PeerId_countable :: Countable PeerId;
  peer_to_bytes : PeerId -> bytes;
  Multiaddr : Type;
  ma_iter : Multiaddr -> list Protocol;
  ma_try_from : bytes -> option Multiaddr;
}.

Definition octet (i : nat) (l : list Z) : Z := default 0 (l !! i).

(** The classes of [Ipv4Addr] and [Ipv6Addr] the code asks for, as the standard library defines
    them. *)
Definition v4_is_loopback (o : list Z) : bool := octet 0 o =? 127.
Definition v4_is_private (o : list Z) : bool :=
  (octet 0 o =? 10) || ((octet 0 o =? 172) && (16 <=? octet 1 o) && (octet 1 o <=? 31))
  || ((octet 0 o =? 192) && (octet 1 o =? 168)).
Definition v4_is_unspecified (o : list Z) : bool := bool_decide (o = [0; 0; 0; 0]).
Definition v4_is_link_local (o : list Z) : bool := (octet 0 o =? 169) && (octet 1 o =? 254).
Definition v4_is_multicast (o : list Z) : bool := (224 <=? octet 0 o) && (octet 0 o <=? 239).
Definition v4_is_broadcast (o : list Z) : bool := bool_decide (o = [255; 255; 255; 255]).
Definition v4_is_documentation (o : list Z) : bool :=
  ((octet 0 o =? 192) && (octet 1 o =? 0) && (octet 2 o =? 2))
  || ((octet 0 o =? 198) && (octet 1 o =? 51) && (octet 2 o =? 100))
  || ((octet 0 o =? 203) && (octet 1 o =? 0) && (octet 2 o =? 113)).

Definition v6_is_loopback (s : list Z) : bool := bool_decide (s = [0; 0; 0; 0; 0; 0; 0; 1]).
Definition v6_is_unspecified (s : list Z) : bool := bool_decide (s = replicate 8 0).
Definition v6_is_multicast (s : list Z) : bool := Z.land (octet 0 s) 65280 =? 65280.
Definition to_ipv4_mapped (s : list Z) : option (list Z) :=
  if bool_decide (take 6 s = [0; 0; 0; 0; 0; 65535])
  then Some [octet 6 s / 256; octet 6 s mod 256; octet 7 s / 256; octet 7 s mod 256] else None.

Definition is_public_v4 (o : list Z) : bool :=
  negb (v4_is_loopback o || v4_is_private o || v4_is_unspecified o || v4_is_link_local o
        || v4_is_multicast o || v4_is_broadcast o || v4_is_documentation o
        || (octet 0 o =? 0)
        || ((octet 0 o =? 100) && (64 <=? octet 1 o) && (octet 1 o <? 128))
        || (240 <=? octet 0 o)).

Definition is_public (ip : IpAddr) : bool :=
  match ip with
  | V4 o => is_public_v4 o
  | V6 s =>
      negb (v6_is_loopback s || v6_is_unspecified s || v6_is_multicast s
            || (Z.land (octet 0 s) 65472 =? 65152)
            || (Z.land (octet 0 s) 65024 =? 64512)
            || ((octet 0 s =? 8193) && (octet 1 s =? 3512)))
      && match to_ipv4_mapped s with Some v4 => is_public_v4 v4 | None => true end
  end.

(** [agent.split_whitespace().next().unwrap_or("").chars().take(64)]. *)
Fixpoint skip_whitespace (s : list Z) : list Z :=
  match s with c :: s' => if is_whitespace c then skip_whitespace s' else s | [] => [] end.
Fixpoint word (s : list Z) : list Z :=
  match s with c :: s => if is_whitespace c then [] else c :: word s | [] => [] end.
Definition version_of (agent : list Z) : list Z := take 64 (word (skip_whitespace agent)).

(** One iteration of the loop of [merge_ips]. *)
Definition merge_ip (out : list IpAddr) (ip : IpAddr) : list IpAddr :=
  if bool_decide (ip ∈ out) || negb (Nat.ltb (length out) 8) then out else out ++ [ip].
Definition merge_ips (first then_ : list IpAddr) : list IpAddr := foldl merge_ip [] (first ++ then_).

Section nodes.
Context `{L : Libp2p}.

Definition ip_of (p : Protocol) : option IpAddr :=
  match p with Ip4 o => Some (V4 o) | Ip6 s => Some (V6 s) | _ => None end.

Definition public_ip (a : Multiaddr) : option IpAddr :=
  if existsb (fun p => match p with P2pCircuit => true | _ => false end) (ma_iter a) then None
  else
    ip ← head (omap ip_of (ma_iter a));
    if is_public ip then Some ip else None.

(** ** Heartbeats *)

Record NodeInfo := mkNodeInfo {
  ni_v : Z;
  ni_peer : bytes;
  ni_agent : list Z;
  ni_addrs : list bytes;
  ni_at : Z;
}.

Definition NodeInfo_encode `{DagCbor NodeInfo} (i : NodeInfo) : bytes := to_vec i.

Definition NodeInfo_decode `{DagCbor NodeInfo} (b : bytes) : option NodeInfo :=
  if MAX_INFO_BYTES <? Z.of_nat (length b) then None
  else
    i ← from_slice b;
    if (ni_v i =? 1) && (Z.of_nat (length (utf8_bytes (ni_agent i))) <=? 128)
       && (Z.of_nat (length (ni_addrs i)) <=? 8) then Some i else None.

(** ** The book *)

Record NodeRecord := mkNodeRecord {
  nr_peer : PeerId;
  nr_version : list Z;
  nr_ips : list IpAddr;
  nr_seen : Z;
  nr_direct : bool;
  nr_local : bool;
}.

Record NodeBook := mkNodeBook {
  nb_nodes : gmap PeerId NodeRecord;
  nb_accepted : gmap PeerId Z;
}.

Definition NodeBook_default : NodeBook := mkNodeBook ∅ ∅.

(** [min_by_key]: the first of the smallest, in the order of iteration. *)
Fixpoint min_seen (best : NodeRecord) (l : list NodeRecord) : NodeRecord :=
  match l with
  | [] => best
  | r :: l => min_seen (if nr_seen r <? nr_seen best then r else best) l
  end.
Definition oldest (order : list NodeRecord) : option PeerId :=
  match List.filter (fun r => negb (nr_local r)) order with
  | [] => None
  | r :: l => Some (nr_peer (min_seen r l))
  end.

(** The record the book drops to make room for [rec]. *)
Definition evict (order : list NodeRecord) (rec : NodeRecord) (b : NodeBook) : NodeBook :=
  if bool_decide (nb_nodes b !! nr_peer rec = None) && (MAX_NODES <=? Z.of_nat (size (nb_nodes b))) then
    match oldest order with
    | Some p => mkNodeBook (delete p (nb_nodes b)) (delete p (nb_accepted b))
    | None => b
    end
  else b.

Definition put (order : list NodeRecord) (rec : NodeRecord) (b : NodeBook) : NodeBook :=
  let b := evict order rec b in
  mkNodeBook (<[nr_peer rec := rec]> (nb_nodes b)) (nb_accepted b).

Definition observe_peer (order : list NodeRecord) (now : Z) (peer : PeerId) (agent : list Z)
    (conn_ip : option IpAddr) (listen : list Multiaddr) (b : NodeBook) : NodeBook :=
  let listen_ips := omap public_ip listen in
  let old := match nb_nodes b !! peer with Some r => nr_ips r | None => [] end in
  let ips := merge_ips (merge_ips (option_list conn_ip) listen_ips) old in
  put order (mkNodeRecord peer (version_of agent) ips now true false) b.

Definition set_direct (d : bool) (r : NodeRecord) : NodeRecord :=
  mkNodeRecord (nr_peer r) (nr_version r) (nr_ips r) (nr_seen r) d (nr_local r).

Definition disconnected (peer : PeerId) (b : NodeBook) : NodeBook :=
  mkNodeBook (alter (set_direct false) peer (nb_nodes b)) (nb_accepted b).

(** [info.at.abs_diff(now)]. *)
Definition abs_diff (a b : Z) : Z := Z.abs (a - b).

Definition claimed_ips (info : NodeInfo) : list IpAddr := omap public_ip (omap ma_try_from (ni_addrs info)).

(** [now] is the unix time, [t] the monotonic one. *)
Definition heartbeat (order : list NodeRecord) (now t : Z) (author : PeerId) (info : NodeInfo) (b : NodeBook)
  : NodeBook * bool :=
  if (MAX_SKEW_SECS <? abs_diff (ni_at info) now) || negb (bool_decide (ni_peer info = peer_to_bytes author))
  then (b, false)
  else if match nb_accepted b !! author with Some a => t - a <? MIN_INTERVAL | None => false end
  then (b, false)
  else
    let b := mkNodeBook (nb_nodes b) (<[author := t]> (nb_accepted b)) in
    let '(seen_ips, direct) := match nb_nodes b !! author with
                               | Some r => (if nr_direct r then nr_ips r else [], nr_direct r)
                               | None => ([], false)
                               end in
    let rec := mkNodeRecord author (version_of (ni_agent info)) (merge_ips seen_ips (claimed_ips info)) now direct false in
    (put order rec b, true).

Definition set_local (order : list NodeRecord) (now : Z) (peer : PeerId) (agent : list Z) (addrs : list Multiaddr)
    (b : NodeBook) : NodeBook :=
  put order (mkNodeRecord peer (version_of agent) (merge_ips (omap public_ip addrs) []) now false true) b.

Definition kept (cutoff : Z) (r : NodeRecord) : bool := nr_local r || nr_direct r || (cutoff <=? nr_seen r).

(** [sort_by_key(|r| r.peer.to_bytes())]. *)
Fixpoint bytes_le (a b : bytes) : bool :=
  match a, b with
  | [], _ => true
  | _ :: _, [] => false
  | x :: a, y :: b => (x <? y) || ((x =? y) && bytes_le a b)
  end.
Definition record_le (x y : NodeRecord) : Prop := Is_true (bytes_le (peer_to_bytes (nr_peer x)) (peer_to_bytes (nr_peer y))).
#[export] Instance record_le_dec : RelDecision record_le.
Proof. intros x y. unfold record_le. apply _. Defined.

Definition nodes (now : Z) (b : NodeBook) : NodeBook * list NodeRecord :=
  let cutoff := saturating_sub now EXPIRY in
  let live := filter (fun kv => Is_true (kept cutoff (snd kv))) (nb_nodes b) in
  (mkNodeBook live (nb_accepted b), merge_sort record_le (map snd (map_to_list live))).
End nodes.
