(* ===== verification/NodesFacts.v ===== *)
(** * Facts about the node census

    The book stays within its limits and holds only well-formed records ([census_well_formed]); a
    heartbeat speaks for its author alone ([heartbeat_speaks_for_author]); the listing is exactly the
    nodes still counted ([census_lists_live]).  [expired_authors_kept] shows that the rate limiter
    remembers authors whose record expired, [evicted_author_renews] that it forgets those dropped to
    make room. *)

From S2P Require Import Prelude Types Ipld TextCodec Nodes.
From stdpp Require Import base list list_numbers sorting gmap strings relations.
From Stdlib Require Import ZArith Lia.

Open Scope Z_scope.
Open Scope bolt_scope.

(** ** Addresses and versions *)

Definition ips_ok (l : list IpAddr) : Prop := NoDup l /\ (length l <= 8)%nat /\ Forall (fun ip => is_public ip = true) l.

Lemma merge_ips_ok first then_ :
  Forall (fun ip => is_public ip = true) (first ++ then_) -> ips_ok (merge_ips first then_).
Proof.
  unfold merge_ips. enough (forall l out, ips_ok out -> Forall (fun ip => is_public ip = true) l -> ips_ok (foldl merge_ip out l)) as H.
  { intros Hl. apply H; [|done]. split; [constructor|]. split; [cbn; lia|constructor]. }
  induction l as [|ip l IH]; intros out Hout Hl; [done|]. apply Forall_cons in Hl as [Hip Hl]. cbn [foldl]. apply IH; [|done].
  unfold merge_ip. case_bool_decide as Hin; [done|]. cbn [orb]. destruct (Nat.ltb_spec (length out) 8); [|done].
  destruct Hout as (Hd & Hlen & Hp). cbn [negb]. split; [|split].
  - apply NoDup_app. split; [done|]. split; [|apply NoDup_singleton]. intros x Hx ->%list_elem_of_singleton. done.
  - rewrite length_app. cbn. lia.
  - by apply Forall_app_2; [|constructor].
Qed.

(** What was seen comes before what is claimed. *)
Lemma merge_ips_prefix first then_ : ips_ok first -> exists l, merge_ips first then_ = first ++ l.
Proof.
  intros (Hd & Hlen & _). unfold merge_ips. rewrite foldl_app.
  assert (foldl merge_ip [] first = first) as ->.
  { enough (forall l out, NoDup (out ++ l) -> (length (out ++ l) <= 8)%nat -> foldl merge_ip out l = out ++ l) as H by (by apply H).
    induction l as [|ip l IH]; intros out Hnd Hle; [by rewrite app_nil_r|]. cbn [foldl]. unfold merge_ip at 2.
    rewrite bool_decide_false by (apply NoDup_app in Hnd as (_ & H & _); intros Hin; apply (H ip Hin); left).
    rewrite length_app in Hle. cbn in Hle. destruct (Nat.ltb_spec (length out) 8); [|lia]. cbn [negb orb].
    rewrite IH; [by rewrite <-app_assoc|by rewrite <-app_assoc|rewrite <-app_assoc, !length_app; cbn; lia]. }
  generalize first. induction then_ as [|ip l IH]; intros out; [exists []; by rewrite app_nil_r|]. cbn [foldl].
  unfold merge_ip at 2. destruct (_ || _); [apply IH|]. destruct (IH (out ++ [ip])) as [l' ->]. exists (ip :: l').
  by rewrite <-app_assoc.
Qed.

Definition version_ok (v : list Z) : Prop := (length v <= 64)%nat /\ Forall (fun c => is_whitespace c = false) v.

Lemma version_of_ok agent : version_ok (version_of agent).
Proof.
  unfold version_of. split; [rewrite length_take; lia|]. apply Forall_take.
  induction (skip_whitespace agent) as [|c s IH]; [constructor|]. cbn. destruct (is_whitespace c) eqn:E; by constructor.
Qed.

Section facts.
Context `{L : Libp2p}.

Lemma public_ip_public a ip : public_ip a = Some ip -> is_public ip = true.
Proof.
  unfold public_ip. destruct (existsb _ _); [done|]. destruct (head _) as [x|]; [|done]. cbn.
  destruct (is_public x) eqn:E; [|done]. by intros [= <-].
Qed.

Lemma public_ips l : Forall (fun ip => is_public ip = true) (omap public_ip l).
Proof.
  apply Forall_forall. intros ip (a & _ & Ha)%list_elem_of_omap. by eapply public_ip_public.
Qed.

(** ** The book *)

Context (me : PeerId).

Record record_ok (p : PeerId) (r : NodeRecord) : Prop := {
  ro_peer : nr_peer r = p;
  ro_ips : ips_ok (nr_ips r);
  ro_version : version_ok (nr_version r);
  ro_local : nr_local r = true -> p = me;
}.

Record book_ok (b : NodeBook) : Prop := {
  bo_records p r : nb_nodes b !! p = Some r -> record_ok p r;
  bo_size : Z.of_nat (size (nb_nodes b)) <= MAX_NODES;
}.

(** [order] is an order in which the records may be iterated. *)
Definition iteration (b : NodeBook) (order : list NodeRecord) : Prop := order ≡ₚ map snd (map_to_list (nb_nodes b)).

Lemma elem_of_iteration b order r : iteration b order -> r ∈ order <-> exists p, nb_nodes b !! p = Some r.
Proof.
  intros ->. rewrite list_elem_of_In, in_map_iff. split.
  - intros ([p r'] & <- & H%list_elem_of_In%elem_of_map_to_list). by exists p.
  - intros [p H]. exists (p, r). split; [done|]. by apply list_elem_of_In, elem_of_map_to_list.
Qed.

Lemma min_seen_spec best l :
  min_seen best l ∈ best :: l /\ forall r, r ∈ best :: l -> nr_seen (min_seen best l) <= nr_seen r.
Proof.
  revert best. induction l as [|x l IH]; intros best; cbn [min_seen].
  { split; [left|]. intros r ->%list_elem_of_singleton. lia. }
  destruct (IH (if nr_seen x <? nr_seen best then x else best)) as [Hin Hmin].
  set (m := min_seen _ l) in *. split.
  - destruct (nr_seen x <? nr_seen best); apply elem_of_cons in Hin as [->|?]; set_solver.
  - intros r Hr. destruct (Z.ltb_spec (nr_seen x) (nr_seen best)).
    + pose proof (Hmin x ltac:(left)). apply elem_of_cons in Hr as [->|Hr]; [lia|by apply Hmin].
    + pose proof (Hmin best ltac:(left)). apply elem_of_cons in Hr as [->|[->|Hr]%elem_of_cons]; [done|lia|]. apply Hmin. by right.
Qed.

(** The record dropped is one of the longest unheard that are not this node's own. *)
Lemma oldest_spec b order p :
  book_ok b -> iteration b order -> oldest order = Some p ->
  exists r, nb_nodes b !! p = Some r /\ nr_local r = false
    /\ forall q r', nb_nodes b !! q = Some r' -> nr_local r' = false -> nr_seen r <= nr_seen r'.
Proof.
  intros Hb Ho. unfold oldest.
  assert (forall r, r ∈ List.filter (fun r => negb (nr_local r)) order <-> r ∈ order /\ nr_local r = false) as Hf.
  { intros r. by rewrite !list_elem_of_In, filter_In, negb_true_iff. }
  destruct (List.filter _ order) as [|x l]; [done|]. intros [= <-].
  destruct (min_seen_spec x l) as [Hin Hmin]. apply Hf in Hin as [Hin Hl].
  apply (elem_of_iteration b order) in Hin as [q Hq]; [|done].
  exists (min_seen x l). rewrite (ro_peer _ _ (bo_records _ Hb _ _ Hq)). split; [done|]. split; [done|].
  intros q' r' Hq' Hl'. apply Hmin, Hf. split; [|done]. apply (elem_of_iteration b); eauto.
Qed.

Lemma oldest_exists b order :
  book_ok b -> iteration b order -> MAX_NODES <= Z.of_nat (size (nb_nodes b)) -> is_Some (oldest order).
Proof.
  intros Hb Ho Hs. unfold oldest. destruct (List.filter _ order) as [|x l] eqn:E; [|by eexists]. exfalso.
  assert (dom (nb_nodes b) ⊆ {[me]}) as Hsub.
  { intros p [r Hr]%elem_of_dom. apply elem_of_singleton, (ro_local _ _ (bo_records _ Hb _ _ Hr)).
    destruct (nr_local r) eqn:El; [done|].
    assert (r ∈ List.filter (fun r => negb (nr_local r)) order) as Hin.
    { rewrite list_elem_of_In, filter_In, El. split; [|done]. apply list_elem_of_In, (elem_of_iteration b); eauto. }
    rewrite E in Hin. by apply elem_of_nil in Hin. }
  apply subseteq_size in Hsub. rewrite size_dom, size_singleton in Hsub. unfold MAX_NODES in Hs. lia.
Qed.

(** What [put] does to each entry. *)
Lemma put_outcome b order rec p :
  book_ok b -> iteration b order ->
  nb_nodes (put order rec b) !! nr_peer rec = Some rec
  /\ (p <> nr_peer rec -> nb_nodes (put order rec b) !! p = nb_nodes b !! p
      \/ (nb_nodes (put order rec b) !! p = None /\ nb_nodes b !! nr_peer rec = None
          /\ MAX_NODES <= Z.of_nat (size (nb_nodes b))
          /\ exists r, nb_nodes b !! p = Some r /\ nr_local r = false
             /\ forall q r', nb_nodes b !! q = Some r' -> nr_local r' = false -> nr_seen r <= nr_seen r')).
Proof.
  intros Hb Ho. unfold put. cbn. split; [apply lookup_insert_eq|]. intros Hp. rewrite lookup_insert_ne by done.
  unfold evict. case_bool_decide as Hn; [|by left]. cbn [andb].
  destruct (Z.leb_spec MAX_NODES (Z.of_nat (size (nb_nodes b)))); [|by left].
  destruct (oldest order) as [q|] eqn:E; [|by left]. cbn. destruct (decide (p = q)) as [->|].
  - right. rewrite lookup_delete_eq. split; [done|]. split; [done|]. split; [done|]. by eapply oldest_spec.
  - left. by rewrite lookup_delete_ne.
Qed.

(** What [put] does to the accepted times: only the record dropped loses its own. *)
Lemma put_accepted b order rec p :
  book_ok b -> iteration b order ->
  nb_accepted (put order rec b) !! p = nb_accepted b !! p
  \/ (nb_accepted (put order rec b) !! p = None /\ p <> nr_peer rec
      /\ is_Some (nb_nodes b !! p) /\ nb_nodes (put order rec b) !! p = None).
Proof.
  intros Hb Ho. unfold put, evict. case_bool_decide as Hn; [|by left]. cbn [andb].
  destruct (MAX_NODES <=? _); [|by left]. destruct (oldest order) as [q|] eqn:E; [|by left]. cbn.
  destruct (decide (p = q)) as [->|Hpq]; [|left; by rewrite lookup_delete_ne]. right.
  destruct (oldest_spec b order q Hb Ho E) as (r & Hr & _). assert (q <> nr_peer rec) as Hne by (intros ->; congruence).
  rewrite lookup_insert_ne, !lookup_delete_eq by done. by split_and!.
Qed.

Lemma put_ok b order rec : book_ok b -> iteration b order -> record_ok (nr_peer rec) rec -> book_ok (put order rec b).
Proof.
  intros Hb Ho Hr. split.
  - intros p r Hp. destruct (put_outcome b order rec p Hb Ho) as [Hself Hother].
    destruct (decide (p = nr_peer rec)) as [->|Hne]; [congruence|].
    destruct (Hother Hne) as [E|[E _]]; rewrite E in Hp; [by apply Hb|done].
  - unfold put. cbn. destruct Hb as [Hrec Hsize]. unfold evict. case_bool_decide as Hn; cbn [andb].
    + destruct (Z.leb_spec MAX_NODES (Z.of_nat (size (nb_nodes b)))) as [Hfull|Hroom].
      * destruct (oldest_exists b order) as [q Hq]; [by split|done|done|]. rewrite Hq. cbn.
        destruct (oldest_spec b order q) as (r & Hq' & _); [by split|done|done|].
        rewrite map_size_insert_None by (by rewrite lookup_delete_None; right).
        rewrite map_size_delete_Some by done. pose proof (map_size_ne_0_lookup_2 (nb_nodes b) q ltac:(eauto)). lia.
      * rewrite map_size_insert_None by done. lia.
    + rewrite map_size_insert_Some by (by apply not_eq_None_Some). done.
Qed.

(** Every operation of the book; this node is [me], and connection addresses are public. *)
Inductive census_step : NodeBook -> NodeBook -> Prop :=
| cs_observe order now peer agent conn listen b :
    iteration b order -> Forall (fun ip => is_public ip = true) (option_list conn) ->
    census_step b (observe_peer order now peer agent conn listen b)
| cs_disconnected peer b : census_step b (disconnected peer b)
| cs_heartbeat order now t author info b :
    iteration b order -> census_step b (fst (heartbeat order now t author info b))
| cs_set_local order now agent addrs b :
    iteration b order -> census_step b (set_local order now me agent addrs b)
| cs_nodes now b : census_step b (fst (nodes now b)).

Lemma old_ips b p : book_ok b -> Forall (fun ip => is_public ip = true) (match nb_nodes b !! p with Some r => nr_ips r | None => [] end).
Proof.
  intros Hb. destruct (nb_nodes b !! p) as [r|] eqn:E; [|constructor]. by apply (ro_ips _ _ (bo_records _ Hb _ _ E)).
Qed.

Lemma accept_ok b a : book_ok b -> book_ok (mkNodeBook (nb_nodes b) a).
Proof. intros []. by split. Qed.

Lemma census_step_ok b b' : census_step b b' -> book_ok b -> book_ok b'.
Proof.
  intros Hstep Hb. destruct Hstep as [order now peer agent conn listen b Ho Hc|peer b|order now t author info b Ho|order now agent addrs b Ho|now b].
  - apply put_ok; [done|done|]. split; [done| |apply version_of_ok|done]. apply merge_ips_ok, Forall_app_2; [|by apply old_ips].
    apply merge_ips_ok, Forall_app_2; [done|apply public_ips].
  - destruct Hb as [Hr Hs]. split; cbn.
    + intros p r Hp. apply lookup_alter_Some in Hp as [(<- & r0 & E & ->)|[_ E]]; [|by apply Hr].
      destruct (Hr _ _ E). by split.
    + by rewrite <-size_dom, dom_alter_L, size_dom.
  - unfold heartbeat. destruct (_ || _); [done|]. destruct (match nb_accepted b !! author with Some a => t - a <? MIN_INTERVAL | None => false end); [done|].
    set (b1 := mkNodeBook _ _). assert (book_ok b1) as Hb1 by (by apply accept_ok).
    pose proof (old_ips b author Hb) as Hold. change (nb_nodes b1) with (nb_nodes b).
    destruct (nb_nodes b !! author) as [r|] eqn:E; cbn [fst].
    + apply put_ok; [done|done|]. split; [done| |apply version_of_ok|done].
      apply merge_ips_ok, Forall_app_2; [destruct (nr_direct r); [done|constructor]|apply public_ips].
    + apply put_ok; [done|done|]. split; [done| |apply version_of_ok|done]. apply merge_ips_ok, public_ips.
  - apply put_ok; [done|done|]. split; [done| |apply version_of_ok|done]. apply merge_ips_ok. rewrite app_nil_r. apply public_ips.
  - destruct Hb as [Hr Hs]. split; cbn.
    + intros p r [Hp _]%map_lookup_filter_Some. by apply Hr.
    + set (live := filter _ _). assert (dom live ⊆ dom (nb_nodes b)) as Hd by apply dom_filter_subseteq.
      apply subseteq_size in Hd. rewrite !size_dom in Hd. lia.
Qed.

Lemma reachable_book b : rtc census_step NodeBook_default b -> book_ok b.
Proof.
  intros Hrun. assert (book_ok NodeBook_default) as H0 by (split; cbn [nb_nodes NodeBook_default]; [intros p r; by rewrite lookup_empty|by rewrite map_size_empty]).
  revert H0. induction Hrun as [|b1 b2 b3 Hstep _ IH]; [done|]. intros H1. by apply IH, (census_step_ok b1).
Qed.

(** After any sequence of operations the census is within its bounds and well formed: at most
    [MAX_NODES] records, each filed under its own peer id, with at most eight distinct public
    addresses and a version of at most 64 characters without white space; only this node's own record
    is marked local. *)
Theorem census_well_formed (b : NodeBook) (Hrun : rtc census_step NodeBook_default b) :
  Z.of_nat (size (nb_nodes b)) <= MAX_NODES
  /\ forall p r, nb_nodes b !! p = Some r ->
     nr_peer r = p /\ NoDup (nr_ips r) /\ (length (nr_ips r) <= 8)%nat /\ Forall (fun ip => is_public ip = true) (nr_ips r)
     /\ (length (nr_version r) <= 64)%nat /\ Forall (fun c => is_whitespace c = false) (nr_version r)
     /\ (nr_local r = true -> p = me).
Proof.
  apply reachable_book in Hrun as [Hr Hs].
  split; [done|]. intros p r [Hp (Hd & Hl & Hip) [Hv Hw] Hloc]%Hr. done.
Qed.

Lemma heartbeat_limited b order now t t0 author info :
  nb_accepted b !! author = Some t0 -> t - t0 < MIN_INTERVAL -> heartbeat order now t author info b = (b, false).
Proof.
  intros Ha Ht. unfold heartbeat. destruct (_ || _); [done|]. rewrite Ha. by rewrite (proj2 (Z.ltb_lt _ _) Ht).
Qed.

(** C16.  A heartbeat speaks for its author alone.  A refused one changes nothing.  An accepted one is
    recent, names its author, and comes at least [MIN_INTERVAL] after the last accepted one; it renews
    the author's record, with the addresses this node has seen the author at before the claimed ones,
    and leaves every other record as it was, unless the book was full and the author new: then one
    record, the longest unheard that is not this node's own, is dropped.  The time of acceptance is
    kept for the author, so that another heartbeat of the author less than [MIN_INTERVAL] later is
    refused while it is kept; the other authors' times are kept too, except that of the record
    dropped, whose author may speak again at once. *)
Theorem heartbeat_speaks_for_author (b : NodeBook) (order : list NodeRecord) (now t : Z) (author : PeerId) (info : NodeInfo)
    (Hrun : rtc census_step NodeBook_default b) (Horder : iteration b order) :
  let '(b', ok) := heartbeat order now t author info b in
  (ok = false -> b' = b)
  /\ (ok = true ->
      Z.abs (ni_at info - now) <= MAX_SKEW_SECS /\ ni_peer info = peer_to_bytes author
      /\ (forall a, nb_accepted b !! author = Some a -> MIN_INTERVAL <= t - a)
      /\ (exists r, nb_nodes b' !! author = Some r /\ nr_seen r = now /\ nr_version r = version_of (ni_agent info)
           /\ forall r0, nb_nodes b !! author = Some r0 -> nr_direct r = nr_direct r0
              /\ (nr_direct r0 = true -> exists claimed, nr_ips r = nr_ips r0 ++ claimed))
      /\ forall p, p <> author -> nb_nodes b' !! p = nb_nodes b !! p
         \/ (nb_nodes b' !! p = None /\ nb_nodes b !! author = None /\ MAX_NODES <= Z.of_nat (size (nb_nodes b))
             /\ exists r, nb_nodes b !! p = Some r /\ nr_local r = false
                /\ forall q r', nb_nodes b !! q = Some r' -> nr_local r' = false -> nr_seen r <= nr_seen r'))
  /\ (ok = true -> nb_accepted b' !! author = Some t
      /\ (forall p, p <> author -> nb_accepted b' !! p = nb_accepted b !! p
            \/ (nb_accepted b' !! p = None /\ is_Some (nb_nodes b !! p) /\ nb_nodes b' !! p = None))
      /\ forall b'' order' now' t' info', nb_accepted b'' !! author = nb_accepted b' !! author -> t' - t < MIN_INTERVAL ->
           heartbeat order' now' t' author info' b'' = (b'', false)).
Proof.
  apply reachable_book in Hrun as Hb. unfold heartbeat at 1, abs_diff.
  destruct (Z.ltb_spec MAX_SKEW_SECS (Z.abs (ni_at info - now))); cbn [orb]; [by split|].
  case_bool_decide as Hid; cbn [negb]; [|by split].
  destruct (match nb_accepted b !! author with Some a => t - a <? MIN_INTERVAL | None => false end) eqn:Erate; [by split|].
  set (b1 := mkNodeBook _ _). assert (book_ok b1) as Hb1 by (by apply accept_ok). change (nb_nodes b1) with (nb_nodes b).
  assert (forall a, nb_accepted b !! author = Some a -> MIN_INTERVAL <= t - a) as Hrate.
  { intros a Ha. rewrite Ha in Erate. lia. }
  destruct (match nb_nodes b !! author with Some r => _ | None => _ end) as [seen_ips direct] eqn:Eseen.
  set (rec := mkNodeRecord author _ _ _ _ _). split; [done|]. split; intros _.
  - split; [done|]. split; [done|]. split; [done|]. split.
    + exists rec. split; [by destruct (put_outcome b1 order rec author Hb1 Horder)|]. split; [done|]. split; [done|].
      intros r0 E. rewrite E in Eseen. injection Eseen as <- <-. split; [done|]. intros Hd. cbn. rewrite Hd.
      apply merge_ips_prefix, (ro_ips _ _ (bo_records _ Hb _ _ E)).
    + intros p Hp. by destruct (put_outcome b1 order rec p Hb1 Horder) as [_ Ho]; apply Ho.
  - assert (nb_accepted (put order rec b1) !! author = Some t) as Hacc.
    { destruct (put_accepted b1 order rec author Hb1 Horder) as [->|(_ & Hne & _)]; [apply lookup_insert_eq|done]. }
    split; [done|]. split.
    + intros p Hp. destruct (put_accepted b1 order rec p Hb1 Horder) as [->|(? & _ & ? & ?)]; [left|by right].
      by apply lookup_insert_ne.
    + intros b'' order' now' t' info' Hkept Ht. by apply heartbeat_limited with t; [rewrite Hkept|].
Qed.

(** An author whose record is dropped to make room is forgotten by the rate limiter: after a new
    author's heartbeat at a full book, its next one is accepted however soon it comes. *)
Lemma evicted_author_renews b order now t author info b' p order' now' t' info' :
  book_ok b -> MAX_NODES <= Z.of_nat (size (nb_nodes b)) -> oldest order = Some p ->
  nb_nodes b !! author = None -> heartbeat order now t author info b = (b', true) -> p <> author ->
  abs_diff (ni_at info') now' <= MAX_SKEW_SECS -> ni_peer info' = peer_to_bytes p ->
  snd (heartbeat order' now' t' p info' b') = true.
Proof.
  intros Hb Hfull Hp Hnew Hrun Hne Hskew Hpeer.
  assert (nb_accepted b' !! p = None) as Hnone.
  { revert Hrun. unfold heartbeat. destruct (_ || _); [done|].
    destruct (match nb_accepted b !! author with Some a => t - a <? MIN_INTERVAL | None => false end); [done|].
    cbn. rewrite Hnew. intros [= <-]. unfold put, evict. cbn. rewrite Hnew.
    rewrite bool_decide_true by done. rewrite (proj2 (Z.leb_le _ _) Hfull). cbn. rewrite Hp. apply lookup_delete_eq. }
  unfold heartbeat. rewrite Hnone, Hpeer, bool_decide_true by done.
  replace (MAX_SKEW_SECS <? abs_diff (ni_at info') now') with false by lia. cbn.
  destruct (nb_nodes b' !! p); reflexivity.
Qed.

Lemma bytes_le_total x y : bytes_le x y = true \/ bytes_le y x = true.
Proof.
  revert y. induction x as [|a x IH]; intros [|b y]; cbn; [by left..|by right|].
  destruct (Z.lt_trichotomy a b) as [H|[->|H]].
  - left. apply orb_true_iff. left. lia.
  - rewrite !Z.ltb_irrefl, Z.eqb_refl. apply IH.
  - right. apply orb_true_iff. left. lia.
Qed.

Lemma bytes_le_trans x y z : bytes_le x y = true -> bytes_le y z = true -> bytes_le x z = true.
Proof.
  revert y z. induction x as [|a x IH]; intros [|b y] [|c z]; cbn; try done.
  rewrite !orb_true_iff, !andb_true_iff, !Z.ltb_lt, !Z.eqb_eq.
  intros [H1|[-> H1]] [H2|[E H2]]; try (left; lia). right. split; [done|]. by eapply IH.
Qed.

#[local] Instance record_le_total : Total record_le.
Proof. intros x y. unfold record_le. rewrite !Is_true_true. apply bytes_le_total. Qed.
#[local] Instance record_le_trans : Transitive record_le.
Proof. intros x y z. unfold record_le. rewrite !Is_true_true. apply bytes_le_trans. Qed.

(** The listing is exactly the nodes that still count, in the order of their ids: this node's
    own, those connected, and those heard of within [EXPIRY]; the others leave the book. *)
Theorem census_lists_live (b : NodeBook) (now : Z) (Hrun : rtc census_step NodeBook_default b) :
  let '(b', l) := nodes now b in
  (forall r, r ∈ l <-> nb_nodes b !! nr_peer r = Some r
     /\ (nr_local r = true \/ nr_direct r = true \/ saturating_sub now EXPIRY <= nr_seen r))
  /\ NoDup (map nr_peer l) /\ StronglySorted record_le l
  /\ forall p r, nb_nodes b' !! p = Some r <-> r ∈ l /\ nr_peer r = p.
Proof.
  apply reachable_book in Hrun as Hb. unfold nodes. set (live := filter _ _).
  assert (forall p r, live !! p = Some r <-> nb_nodes b !! p = Some r /\ kept (saturating_sub now EXPIRY) r = true) as Hlive.
  { intros p r. unfold live. rewrite map_lookup_filter_Some. cbn [snd]. by rewrite Is_true_true. }
  assert (forall r, r ∈ merge_sort record_le (map snd (map_to_list live)) <-> live !! nr_peer r = Some r) as Hin.
  { intros r. rewrite merge_sort_Permutation, list_elem_of_In, in_map_iff. split.
    - intros ([p r'] & <- & H%list_elem_of_In%elem_of_map_to_list). cbn [snd].
      pose proof (proj1 (proj1 (Hlive p r') H)) as Hn. by rewrite (ro_peer _ _ (bo_records _ Hb _ _ Hn)).
    - intros H. exists (nr_peer r, r). split; [done|]. by apply list_elem_of_In, elem_of_map_to_list. }
  split; [|split; [|split]].
  - intros r. rewrite Hin, Hlive. unfold kept. rewrite !orb_true_iff, Z.leb_le. naive_solver.
  - change (map nr_peer) with (fmap (M := list) nr_peer). rewrite merge_sort_Permutation.
    assert (nr_peer <$> map snd (map_to_list live) = (map_to_list live).*1) as ->; [|apply NoDup_fst_map_to_list].
    change (map snd) with (fmap (M := list) (@snd PeerId NodeRecord)). rewrite <-list_fmap_compose.
    apply list_fmap_ext. intros i [p r] Hi%list_elem_of_lookup_2%elem_of_map_to_list. cbn.
    apply Hlive in Hi as [Hi _]. exact (ro_peer _ _ (bo_records _ Hb _ _ Hi)).
  - apply StronglySorted_merge_sort; apply _.
  - intros p r. cbn [nb_nodes]. rewrite Hin. split; [|by intros [? <-]].
    intros H. pose proof (proj1 (proj1 (Hlive p r) H)) as Hn. by rewrite (ro_peer _ _ (bo_records _ Hb _ _ Hn)).
Qed.
End facts.

(** ** Witnesses *)
Module CensusWitness.
#[local] Instance toy_libp2p : Libp2p := {
  PeerId := nat;
  peer_to_bytes p := [Z.of_nat p];
  Multiaddr := list Protocol;
  ma_iter := id;
  ma_try_from b := Some [Ip4 (take 4 b); OtherProtocol];
}.

Definition peer (n : nat) : PeerId := n.
Definition agent : list Z := [98; 47; 49; 32; 102].
Definition info (p : nat) (ip : bytes) : NodeInfo := mkNodeInfo 1 [Z.of_nat p] agent [ip] 1000.

(** Peer 1 is connected over a private network and announces its public address; peer 2 is only
    heard of. *)
Definition book0 : NodeBook := observe_peer [] 990 (peer 1) agent None [[Ip4 [127; 0; 0; 1]; OtherProtocol]] NodeBook_default.
Definition all (b : NodeBook) : list NodeRecord := map snd (map_to_list (nb_nodes b)).
Definition book1 : NodeBook := fst (heartbeat (all book0) 1000 50 (peer 1) (info 1 [8; 8; 8; 8]) book0).
Definition book2 : NodeBook := fst (heartbeat (all book1) 1000 60 (peer 2) (info 2 [1; 1; 1; 1]) book1).
Definition book3 : NodeBook := set_local (all book2) 1000 (peer 0) agent [[Ip4 [9; 9; 9; 9]]] book2.

Lemma book_reachable : rtc (census_step (peer 0)) NodeBook_default book3 /\ rtc (census_step (peer 0)) NodeBook_default book1.
Proof.
  assert (rtc (census_step (peer 0)) NodeBook_default book1) as H1.
  { eapply rtc_l; [apply (cs_observe (peer 0) [] 990 (peer 1) agent None [[Ip4 [127; 0; 0; 1]; OtherProtocol]]); [exact (Permutation_refl _)|constructor]|].
    apply rtc_once, (cs_heartbeat (peer 0) (all book0) 1000 50 (peer 1) (info 1 [8; 8; 8; 8]) book0). exact (Permutation_refl _). }
  split; [|done]. etransitivity; [exact H1|].
  eapply rtc_l; [apply (cs_heartbeat (peer 0) (all book1) 1000 60 (peer 2) (info 2 [1; 1; 1; 1]) book1); exact (Permutation_refl _)|].
  apply rtc_once, (cs_set_local (peer 0) (all book2) 1000 agent [[Ip4 [9; 9; 9; 9]]] book2). exact (Permutation_refl _).
Qed.

Lemma census_well_formed_witness :
  nr_ips <$> nb_nodes book3 !! (peer 1) = Some [V4 [8; 8; 8; 8]] /\ Z.of_nat (size (nb_nodes book3)) <= MAX_NODES.
Proof.
  split; [vm_compute; reflexivity|].
  destruct (census_well_formed (peer 0) book3 (proj1 book_reachable)) as [H _]. exact H.
Defined.

Lemma heartbeat_speaks_for_author_witness :
  snd (heartbeat (all book1) 1000 60 (peer 2) (info 2 [1; 1; 1; 1]) book1) = true
  /\ ni_peer (info 2 [1; 1; 1; 1]) = [2]
  /\ nb_accepted book2 !! peer 2 = Some 60
  /\ heartbeat (all book2) 1100 179 (peer 2) (info 2 [1; 1; 1; 1]) book2 = (book2, false).
Proof.
  pose proof (heartbeat_speaks_for_author (peer 0) book1 (all book1) 1000 60 (peer 2) (info 2 [1; 1; 1; 1])
    (proj2 book_reachable) (Permutation_refl _)) as H.
  assert (snd (heartbeat (all book1) 1000 60 (peer 2) (info 2 [1; 1; 1; 1]) book1) = true) as E by (vm_compute; reflexivity).
  split; [exact E|]. unfold book2. revert H E. destruct (heartbeat _ _ _ _ _ book1) as [b ok]. intros (_ & H1 & H2) E.
  cbn [snd fst] in *. specialize (H1 E). specialize (H2 E). split; [apply H1|]. split; [apply H2|]. apply H2; [done|]. unfold MIN_INTERVAL. lia.
Defined.

(** At time 4000 peer 2 no longer counts. *)
Lemma census_lists_live_witness :
  map nr_peer (snd (nodes 4000 book3)) = [(peer 0); (peer 1)] /\ NoDup (map nr_peer (snd (nodes 4000 book3))).
Proof.
  split; [vm_compute; reflexivity|].
  pose proof (census_lists_live (peer 0) book3 4000 (proj1 book_reachable)) as H. revert H.
  destruct (nodes 4000 book3) as [b l]. intros (_ & H & _). exact H.
Defined.

(** The rate limiter never forgets an author whose record expired: the entry of peer 2 outlives it,
    so the entries are not bounded by [MAX_NODES]. *)
Lemma expired_authors_kept :
  let b := fst (nodes 4000 book3) in
  nr_peer <$> nb_nodes b !! (peer 2) = None /\ nb_accepted b !! (peer 2) = Some 60.
Proof. cbv zeta. split; vm_compute; reflexivity. Qed.
End CensusWitness.
