(* ===== verification/Sync.v ===== *)
(** * Synchronization

    Models crates/sync/src/lib.rs: the announcement of a block, and the follower that verifies an
    announced block, walks back to a block it has, fetches what is missing and imports the blocks
    oldest first, under the proofs of finality it can check.  The chain is the state; the calls the
    follower makes on it are those of Chain.v and ForkChoice.v.  Code behind interfaces is a parameter:
    [fetch] stands for [NetHandle::fetch] (bitswap; what it promises is shown in BitswapFacts.v),
    [FinalityCheck] for the trait of that name.  The loop over parents is bounded by fuel where the code
    has no bound. *)

From S2P Require Import Prelude Types Params Bls AuditCerts Pow Committee History Epochs Forks TxPool Ipld Car Index.
From S2P Require Import TrieIface Store Overlay BlockStore BlockCerts Exec Queries Hooks Chain ForkChoice.
From stdpp Require Import base list list_numbers sorting gmap strings.
From Stdlib Require Import ZArith Lia.

Open Scope Z_scope.
Open Scope bolt_scope.

(** ** Announcements (crates/net/src/lib.rs) *)

Record Announce := mkAnnounce {
  an_height : Z;
  an_root : Cid;
  an_envelope : bytes;
  an_header : bytes;
  an_inline : list (Cid * bytes);
  an_proof : bytes;
  an_at : Z;
}.

Inductive SyncError :=
  | SIpld (e : IpldError)
  | SNet
  | SChain (e : ChainError)
  | SFork (head : Z)
  | STask
  | SNotFinal
  | SAbort        (** a panic *)
  | SFuel.        (** the walk over parents took more steps than the fuel *)

Inductive Outcome :=
  | Imported (height count : Z)
  | AlreadyKnown.

Inductive Verdict := Final | NotFinal | Unknown.

Section sync.
Context `{K : Keccak} `{Sh : Sha256} `{R : HeaderRlp} `{AR : AlloyReceipt} `{AB : !AlloyBlock} `{BR : !BodyRlp}.
Context `{CE : DagCbor Envelope} `{CL : DagCbor (list Cid)} `{CI : DagCbor EpochIndex} `{CB : CidBytes}.
Context `{SR : StateRlp} `{TO : TrieOps} `{SA : SolAbi} `{FC : ForkCode} `{HS : Hasher}.
Context `{B : Blst} `{CC : !CertCodec} `{DA : DagCbor AuditCert} `{DV : DagCbor VerdictCert} `{DT : DagCbor AttestCert}.
Context `{EV : !Revm ChainView}.

(** [bundle.blocks.iter().find(..).unwrap_or_default()]. *)
Definition find_block (b : BlockBundle) (c : Cid) : bytes :=
  match List.find (fun x => bool_decide (x.1 = c)) (bd_blocks b) with Some x => x.2 | None => [] end.

Definition announce_for (b : BlockBundle) : Announce :=
  let inline := if body_len b <=? INLINE_BODY_BYTES
                then map (fun c => (c, find_block b c)) (env_chunks (bd_envelope b)) else [] in
  mkAnnounce (env_height (bd_envelope b)) (bd_root b) (find_block b (bd_root b))
    (find_block b (env_header (bd_envelope b))) inline [] 0.

(** The chunks of an envelope in the blockstore; [None] when one is missing. *)
Fixpoint stored_chunks (b : BlockTables) (chunks : list Cid) : option (list (Cid * bytes)) :=
  match chunks with
  | [] => Some []
  | c :: chunks => data ← ipld b !! c; rest ← stored_chunks b chunks; Some ((c, data) :: rest)
  end.

Definition announce_stored (c : Chain) (number : Z) (proof : bytes) : option Announce :=
  root ← envelopes (ch_blocks c) !! number;
  envelope ← ipld (ch_blocks c) !! root;
  env ← (match Envelope_decode envelope with Ok e => Some e | Err _ => None end);
  header ← ipld (ch_blocks c) !! env_header env;
  inline ← stored_chunks (ch_blocks c) (env_chunks env);
  let size := sumZ (map (fun x => Z.of_nat (length x.2)) inline) in
  Some (mkAnnounce number root envelope header (if INLINE_BODY_BYTES <? size then [] else inline) proof 0).

(** ** The follower *)

(** Checks finality proofs against the committees in local state. *)
Record FinalityCheck := mkFinalityCheck {
  fc_check : Chain -> Z -> B256 -> bytes -> Verdict;
  fc_parent_proof : bytes -> option bytes;
  fc_is_epoch_start : Z -> bool;
}.

Variable cfg : ChainConfig.
Variable finality : option FinalityCheck.
Variable fetch : list Cid -> option (gmap Cid bytes).

(** Computations on the chain that may fail. *)
Definition SM (A : Type) : Type := Chain -> result SyncError A * Chain.
Definition sret {A} (a : A) : SM A := fun c => (Ok a, c).
Definition sfail {A} (e : SyncError) : SM A := fun c => (Err e, c).
Definition sbind {A B} (m : SM A) (k : A -> SM B) : SM B := fun c =>
  match m c with
  | (Ok a, c) => k a c
  | (Err e, c) => (Err e, c)
  end.
Definition sread {A} (f : Chain -> A) : SM A := fun c => (Ok (f c), c).
Definition sok {A} (r : result SyncError A) : SM A := fun c => (r, c).

(** A call of a chain operation: [.map_err(..)??]. *)
Definition call {A} (m : CM A) : SM A := fun c =>
  match m c with
  | (Ok a, c) => (Ok a, c)
  | (Err e, c) => (Err (SChain e), c)
  end.

Definition ipld_err {A} (r : result IpldError A) : result SyncError A :=
  match r with Ok a => Ok a | Err e => Err (SIpld e) end.

(** The checks an announcement passes first: the envelope, the block hash and whether it is mined. *)
Definition open_announce (a : Announce) : result SyncError (Envelope * B256 * bool) :=
  _ <-? ipld_err (verify (an_root a) (an_envelope a));
  envelope <-? ipld_err (Envelope_decode (an_envelope a));
  if negb (env_height envelope =? an_height a) then Err (SIpld (Malformed "announce height"))
  else
    _ <-? ipld_err (verify (env_header envelope) (an_header a));
    tip_hash <-? ok_or (Envelope_block_hash envelope) (SIpld (Malformed "header cid"));
    h <-? ok_or (unrlp_header (an_header a)) (SIpld (Malformed "header"));
    Ok (envelope, tip_hash, 0 <? hd_difficulty h).

(** What the announcement itself supplies; a later entry replaces an earlier one. *)
Definition supplied_parts (a : Announce) (envelope : Envelope) : gmap Cid bytes :=
  foldl (fun have x => <[x.1 := x.2]> have) {[env_header envelope := an_header a]} (an_inline a).

(** Stores a block that was fetched, whatever it is. *)
Definition keep_ipld (cid : Cid) (data : bytes) (c : Chain) : Chain :=
  with_db (put_ipld cid data (ch_blocks c)) (ch_state c) c.

(** The parent envelope's bytes: from the blockstore, or fetched and kept there. *)
Definition parent_bytes (head : Z) (parent : Cid) : SM bytes := fun c =>
  match ipld (ch_blocks c) !! parent with
  | Some b => (Ok b, c)
  | None =>
      match fetch [parent] with
      | None => (Err SNet, c)
      | Some got =>
          match got !! parent with
          | None => (Err (SFork head), c)
          | Some b => (Ok b, keep_ipld parent b c)
          end
      end
  end.

Definition parent_envelope (head : Z) (env : Envelope) : SM (Cid * Envelope) :=
  match env_parent env with
  | None => sfail (SFork head)
  | Some parent =>
      sbind (parent_bytes head parent) (fun b =>
      sbind (sok (ipld_err (Envelope_decode b))) (fun e => sret (parent, e)))
  end.

(** The loop that collects the missing envelopes, newest first ([last] is the one reached). *)
Fixpoint walk_parents (n : nat) (head : Z) (chain_of : list (Cid * Envelope)) (last : Envelope)
  : SM (list (Cid * Envelope) * Envelope) :=
  if u64 (head + 1) <? env_height last then
    match n with
    | O => sfail SFuel
    | S n =>
        sbind (parent_envelope head last) (fun x =>
        walk_parents n head (chain_of ++ [x]) x.2)
    end
  else sret (chain_of, last).

(** Every header and chunk of the envelopes that is not at hand yet. *)
Definition needed (have : gmap Cid bytes) (l : list (Cid * Envelope)) : list Cid :=
  List.filter (fun c => bool_decide (have !! c = None)) (concat (map (fun x => env_header x.2 :: env_chunks x.2) l)).

Definition fetch_missing (have : gmap Cid bytes) (l : list (Cid * Envelope)) : result SyncError (gmap Cid bytes) :=
  let need := needed have l in
  if bool_decide (need = []) then Ok have
  else got <-? ok_or (fetch need) SNet; Ok (got ∪ have).

(** (height, hash, certificate) of a block, for the boundary proofs. *)
Definition Meta : Type := Z * option B256 * bytes.
Definition meta_of (x : Cid * Envelope) : Meta := (env_height x.2, Envelope_block_hash x.2, env_qc x.2).

(** The next epoch start after [prev] in the batch, with the block before it. *)
Fixpoint boundary (check : FinalityCheck) (prev : Meta) (rest : list Meta) : option (Meta * Meta) :=
  match rest with
  | [] => None
  | m :: rest => if fc_is_epoch_start check m.1.1 then Some (prev, m) else boundary check m rest
  end.

(** What is proven when the loop meets an unproven block. *)
Definition prove_next (check : FinalityCheck) (a : Announce) (tip_hash : B256) (m : Meta) (rest : list Meta) (c : Chain)
  : result SyncError Z :=
  let at_tip := match fc_check check c (an_height a) tip_hash (an_proof a) with
                | Final => Ok (an_height a)
                | _ => Err SNotFinal
                end in
  match boundary check m rest with
  | Some ((h, Some parent_hash, _), (_, _, qc)) =>
      match fc_parent_proof check qc with
      | Some proof =>
          match fc_check check c h parent_hash proof with
          | Final => Ok h
          | NotFinal => Err SNotFinal
          | Unknown => at_tip
          end
      | None => at_tip
      end
  | _ => at_tip
  end.

Definition header_mined (have : gmap Cid bytes) (env : Envelope) : bool :=
  match (b ← have !! env_header env; unrlp_header b) with
  | Some h => negb (hd_difficulty h =? 0)
  | None => false
  end.

Definition import_mined_item (now : Z) (have : gmap Cid bytes) (x : Cid * Envelope) : SM Z :=
  sbind (sok (ipld_err (decode_block x.2 (fun c => have !! c)))) (fun block =>
  sbind (call (import_mined_with_cert cfg now (db_header block) (db_transactions block) (Some x.1) (Certs_of x.2))) (fun _ =>
  sret (hd_number (db_header block)))).

Definition import_final_item (have : gmap Cid bytes) (x : Cid * Envelope) : SM Z :=
  sbind (sok (ipld_err (decode_block x.2 (fun c => have !! c)))) (fun block =>
  sbind (call (Chain.import_final cfg (db_header block) (db_transactions block) (Some x.1) (Certs_of x.2))) (fun _ =>
  sret (hd_number (db_header block)))).

(** The import loop, oldest first; [proven] is the height up to which blocks are known final. *)
Fixpoint import_loop (now : Z) (a : Announce) (tip_hash : B256) (have : gmap Cid bytes) (proven height : Z)
    (l : list (Cid * Envelope)) : SM Z :=
  match l with
  | [] => sret height
  | x :: l =>
      if header_mined have x.2 && bool_decide (is_Some finality) then
        sbind (import_mined_item now have x) (fun height => import_loop now a tip_hash have proven height l)
      else
        sbind (if proven <? env_height x.2 then
                 match finality with
                 | None => sfail SAbort
                 | Some check => fun c => (prove_next check a tip_hash (meta_of x) (map meta_of l) c, c)
                 end
               else sret proven) (fun proven =>
        sbind (import_final_item have x) (fun height => import_loop now a tip_hash have proven height l))
  end.

Definition apply_finality (height : Z) (hash : B256) (proof : bytes) : SM () := fun c =>
  match finality with
  | None => (Ok (), c)
  | Some check =>
      if bool_decide (proof = []) then (Ok (), c)
      else match fc_check check c height hash proof with
           | Final => sbind (call (finalize cfg hash height)) (fun _ => sret ()) c
           | NotFinal => (Err SNotFinal, c)
           | Unknown => (Ok (), c)
           end
  end.

Definition known (c : Chain) (hash : B256) : bool := match knows c hash with Ok b => b | Err _ => false end.

(** The loop of [on_mined]: back to a known block, at most [max_walk] envelopes. *)
Fixpoint walk_branch (n : nat) (head max_walk : Z) (branch : list (Cid * Envelope)) (last : Envelope)
  : SM (list (Cid * Envelope)) :=
  match n with
  | O => sfail SFuel
  | S n =>
      sbind (parent_envelope head last) (fun x =>
      sbind (sok (ok_or (Envelope_block_hash x.2) (SIpld (Malformed "header cid")))) (fun hash =>
      sbind (sread (fun c => known c hash)) (fun k =>
      if k : bool then sret branch
      else
        let branch := branch ++ [x] in
        if max_walk <? Z.of_nat (length branch) then sfail (SFork head)
        else walk_branch n head max_walk branch x.2)))
  end.

Fixpoint import_branch_items (now : Z) (have : gmap Cid bytes) (height : Z) (l : list (Cid * Envelope)) : SM Z :=
  match l with
  | [] => sret height
  | x :: l => sbind (import_mined_item now have x) (fun height => import_branch_items now have height l)
  end.

Definition head_of : SM Z := call (cbind (cread Chain.head) (fun h => cret (hd_number h))).

Definition walk_limit (a : Announce) (head : Z) : Z := u64 (u64 (saturating_sub (an_height a) head + MAX_REORG_DEPTH) + 1).

Definition on_mined (now : Z) (a : Announce) (envelope : Envelope) : SM Outcome :=
  sbind (sok (ok_or (Envelope_block_hash envelope) (SIpld (Malformed "header cid")))) (fun tip_hash =>
  sbind (sread (fun c => known c tip_hash)) (fun k =>
  if k : bool then sbind (apply_finality (an_height a) tip_hash (an_proof a)) (fun _ => sret AlreadyKnown)
  else
    sbind head_of (fun head =>
    let max_walk := walk_limit a head in
    let have := supplied_parts a envelope in
    sbind (walk_branch (S (Z.to_nat max_walk)) head max_walk [(an_root a, envelope)] envelope) (fun branch =>
    sbind (sok (fetch_missing have branch)) (fun have =>
    sbind (import_branch_items now have head (rev branch)) (fun height =>
    sbind (apply_finality (an_height a) tip_hash (an_proof a)) (fun _ =>
    sret (Imported height (Z.of_nat (length branch)))))))))).

Definition handle_announce (fuel : nat) (now : Z) (a : Announce) : SM Outcome :=
  sbind (sok (open_announce a)) (fun '(envelope, tip_hash, mined) =>
  if mined && bool_decide (is_Some finality) then on_mined now a envelope
  else
    sbind head_of (fun head =>
    if an_height a <=? head then sret AlreadyKnown
    else
      sbind (fun c => match finality with
                      | Some check =>
                          match fc_check check c (an_height a) tip_hash (an_proof a) with
                          | NotFinal => (Err SNotFinal, c)
                          | v => (Ok v, c)
                          end
                      | None => (Ok Final, c)
                      end) (fun verdict =>
      sbind (walk_parents fuel head [(an_root a, envelope)] envelope) (fun '(chain_of, last) =>
      sbind (sread (fun c => envelopes (ch_blocks c) !! head)) (fun ours =>
      if negb (bool_decide (env_parent last = ours)) then sfail (SFork head)
      else
        sbind (sok (fetch_missing (supplied_parts a envelope) chain_of)) (fun have =>
        let proven := match verdict with Final => an_height a | _ => head end in
        sbind (import_loop now a tip_hash have proven head (rev chain_of)) (fun height =>
        sret (Imported height (Z.of_nat (length chain_of)))))))))).

(** What the node serves over bitswap ([ChainBlocks::get]). *)
Definition ChainBlocks_get (c : Chain) (cid : Cid) : option bytes := ipld (ch_blocks c) !! cid.
End sync.

(** ** The event loop *)

(** The network's events: an announcement, with the answers the network gives while it is handled and
    the clock; the others are ignored. *)
Inductive NetEvent :=
  | NAnnounce (fetch : list Cid -> option (gmap Cid bytes)) (now : Z) (announce : Announce)
  | NOther.

Section follower.
Context `{K : Keccak} `{Sh : Sha256} `{R : HeaderRlp} `{AR : AlloyReceipt} `{AB : !AlloyBlock} `{BR : !BodyRlp}.
Context `{CE : DagCbor Envelope} `{CL : DagCbor (list Cid)} `{CI : DagCbor EpochIndex} `{CB : CidBytes}.
Context `{SR : StateRlp} `{TO : TrieOps} `{SA : SolAbi} `{FC : ForkCode} `{HS : Hasher}.
Context `{B : Blst} `{CC : !CertCodec} `{DA : DagCbor AuditCert} `{DV : DagCbor VerdictCert} `{DT : DagCbor AttestCert}.
Context `{EV : !Revm ChainView}.
Variable cfg : ChainConfig.
Variable finality : option FinalityCheck.

Definition on_event (fuel : nat) (e : NetEvent) (c : Chain) : Chain :=
  match e with
  | NAnnounce fetch now a => snd (handle_announce cfg finality fetch fuel now a c)
  | NOther => c
  end.

(** Announcements are handled one at a time; a failed one is logged. *)
Definition run_follower (fuel : nat) (events : list NetEvent) (c : Chain) : Chain :=
  foldl (fun c e => on_event fuel e c) c events.
End follower.
