(* ===== verification/SyncFacts.v ===== *)
(** * Properties of synchronization

    Whatever is announced and whatever the network answers, the follower's chain stays in order and
    what is settled stays; an announced block of the committee becomes the head only under a proof of
    finality; the walk over a mined branch is bounded; the announcement of a block opens to that block. *)

From S2P Require Import Prelude Types TypesFacts Params Bls AuditCerts Pow Committee History Epochs Forks TxPool Ipld Car Index.
From S2P Require Import TrieIface Store StoreFacts StoreHistory StoreProps Overlay BlockStore Snapshot ChainTables BlockCerts Exec Queries Hooks HooksFacts.
From S2P Require Import Chain ChainFacts ForkChoice ChainHistory ForkChoiceFacts IpldFacts CarFacts IndexFacts ChainProps Sync.
From stdpp Require Import base list list_numbers sorting gmap fin_maps strings.
From Stdlib Require Import ZArith Lia.

Open Scope Z_scope.
Open Scope bolt_scope.

Section facts.
Context `{K : Keccak} `{Sh : Sha256} `{R : HeaderRlp} `{AR : AlloyReceipt} `{AB : !AlloyBlock} `{BR : !BodyRlp}.
Context `{CE : DagCbor Envelope} `{CL : DagCbor (list Cid)} `{CI : DagCbor EpochIndex} `{CB : CidBytes}.
Context `{SR : StateRlp} `{TO : TrieOps} `{SA : SolAbi} `{FC : ForkCode} `{HS : Hasher}.
Context `{B : Blst} `{CC : !CertCodec} `{DA : DagCbor AuditCert} `{DV : DagCbor VerdictCert} `{DT : DagCbor AttestCert}.
Context `{SC : DagCbor (list SnapAccount)} `{KC : DagCbor (list bytes)} `{RC : DagCbor SnapshotRoot}.
Context `{EV : !Revm ChainView} {Un : Universe}.
Variable cfg : ChainConfig.

(** ** What computations keep *)

(** A chain in order in which what was settled in [c0] stays. *)
Definition kept (c0 c : Chain) : Prop := chain_ok c /\ settled_kept c0 c.

Lemma kept_refl c : chain_ok c -> kept c c.
Proof. intros Hc. split; [done|apply settled_kept_refl]. Qed.

Lemma kept_step c0 c c' : kept c0 c -> chain_ok c' /\ settled_kept c c' -> kept c0 c'.
Proof. intros [_ H0] [H1 H2]. split; [done|]. by eapply settled_kept_trans. Qed.

Lemma kept_op c0 c op : kept c0 c -> op_occurs cfg op c -> kept c0 (run_op cfg op c).
Proof. intros Hc Ho. eapply kept_step; [done|]. apply op_kept; [apply Hc|done]. Qed.

Definition keeps {A} (c0 : Chain) (m : SM A) : Prop := forall c, kept c0 c -> kept c0 (snd (m c)).

Lemma keeps_bind {A C} c0 (m : SM A) (k : A -> SM C) :
  keeps c0 m -> (forall c a, kept c0 c -> fst (m c) = Ok a -> keeps c0 (k a)) -> keeps c0 (sbind m k).
Proof.
  intros Hm Hk c Hc. specialize (Hm c Hc). specialize (Hk c). unfold sbind.
  destruct (m c) as [[a|e] c']; [|done]. by apply (Hk a).
Qed.

Lemma keeps_same {A} c0 (f : Chain -> result SyncError A) : keeps c0 (fun c => (f c, c)).
Proof. by intros c Hc. Qed.

Lemma keeps_call {A} c0 (m : CM A) : (forall c, kept c0 c -> kept c0 (snd (m c))) -> keeps c0 (call m).
Proof. intros Hm c Hc. specialize (Hm c Hc). unfold call. by destruct (m c) as [[a|e] c']. Qed.

Lemma keep_ipld_kept c0 cid data c : kept c0 c -> kept c0 (keep_ipld cid data c).
Proof.
  intros Hc. eapply kept_step; [done|]. apply safe_kept; [apply Hc|]. intros f Hb Hs. apply safe_tables; [|done].
  apply core_put_ipld.
Qed.

(** ** Where headers come from *)

(** Every header among the parts at hand occurs. *)
Definition have_ok (have : gmap Cid bytes) : Prop :=
  forall cid b h, have !! cid = Some b -> unrlp_header b = Some h -> occurs h.

(** Every header an announcement or an answer of the network supplies occurs. *)
Definition supplied_occur (fetch : list Cid -> option (gmap Cid bytes)) (a : Announce) : Prop :=
  (forall h, unrlp_header (an_header a) = Some h -> occurs h)
  /\ Forall (fun x => forall h, unrlp_header x.2 = Some h -> occurs h) (an_inline a)
  /\ (forall l got, fetch l = Some got -> have_ok got).

Lemma have_ok_insert cid b have :
  have_ok have -> (forall h, unrlp_header b = Some h -> occurs h) -> have_ok (<[cid := b]> have).
Proof.
  intros Hh Hb c x h. destruct (decide (c = cid)) as [->|Hne].
  - rewrite lookup_insert_eq. intros [= <-]. apply Hb.
  - rewrite lookup_insert_ne by done. apply Hh.
Qed.

Lemma supplied_parts_ok fetch a env : supplied_occur fetch a -> have_ok (supplied_parts a env).
Proof.
  intros (Hh & Hi & _). unfold supplied_parts.
  assert (have_ok {[env_header env := an_header a]}) as Hs.
  { rewrite <-insert_empty. apply have_ok_insert; [|done]. intros c x h Hx. by rewrite lookup_empty in Hx. }
  revert Hs. generalize ({[env_header env := an_header a]} : gmap Cid bytes). induction Hi as [|x l Hx _ IH]; intros have Hs; [done|].
  cbn [foldl]. by apply IH, have_ok_insert.
Qed.

Lemma fetch_missing_ok fetch a have l have' :
  supplied_occur fetch a -> have_ok have -> fetch_missing fetch have l = Ok have' -> have_ok have'.
Proof.
  intros (_ & _ & Hf) Hh. unfold fetch_missing. case_bool_decide; [by intros [= <-]|].
  destruct (fetch _) as [got|] eqn:E; [|done]. cbn. intros [= <-] c x h [Hx|[_ Hx]]%lookup_union_Some_raw; [|by eapply Hh].
  by eapply Hf.
Qed.

Lemma decoded_header env get d :
  decode_block env get = Ok d ->
  exists b, get (env_header env) = Some b /\ verify (env_header env) b = Ok () /\ unrlp_header b = Some (db_header d)
    /\ hd_number (db_header d) = env_height env.
Proof.
  unfold decode_block. intros Hd. inv_ok Hd. injection Hd as <-. apply ok_or_Ok in E, E1.
  eexists. cbn. split_and!; [done|by destruct (verify _ _) as [[]|]|done|lia].
Qed.

(** ** The follower keeps the chain in order *)

Lemma ipld_err_ok {A} (r : result IpldError A) a : ipld_err r = Ok a -> r = Ok a.
Proof. destruct r; [by intros [= ->]|done]. Qed.

Lemma import_mined_item_keeps c0 now have x : have_ok have -> keeps c0 (import_mined_item cfg now have x).
Proof.
  intros Hh. apply keeps_bind; [apply keeps_same|]. intros ?c1 d ? Hd.
  apply keeps_bind; [|intros; apply keeps_same]. apply keeps_call. intros c Hc.
  apply (kept_op c0 c (OpImportMined now (db_header d) (db_transactions d) (Some x.1) (Certs_of x.2)) Hc).
  apply ipld_err_ok, decoded_header in Hd as (b & Eb & _ & Eh & _). by eapply Hh.
Qed.

Lemma import_final_item_keeps c0 have x : have_ok have -> keeps c0 (import_final_item cfg have x).
Proof.
  intros Hh. apply keeps_bind; [apply keeps_same|]. intros ?c1 d ? Hd.
  apply keeps_bind; [|intros; apply keeps_same]. apply keeps_call. intros c Hc.
  apply (kept_op c0 c (OpImport (db_header d) (db_transactions d) (Some x.1) (Certs_of x.2)) Hc).
  apply ipld_err_ok, decoded_header in Hd as (b & Eb & _ & Eh & _). by eapply Hh.
Qed.

Lemma prove_keeps finality a tip_hash c0 proven x l :
  keeps c0 (if proven <? env_height x.2 then
              match finality with
              | None => sfail SAbort
              | Some check => fun c => (prove_next check a tip_hash (meta_of x) (map meta_of l) c, c)
              end
            else sret proven).
Proof. destruct (_ <? _); [destruct finality|]; apply keeps_same. Qed.

Lemma import_loop_keeps finality c0 now a tip_hash have l : have_ok have -> forall proven height,
  keeps c0 (import_loop cfg finality now a tip_hash have proven height l).
Proof.
  intros Hh. induction l as [|x l IH]; intros proven height; [apply keeps_same|]. cbn [import_loop].
  destruct (_ && _); (apply keeps_bind; [|intros]).
  - by apply import_mined_item_keeps.
  - apply IH.
  - apply prove_keeps.
  - apply keeps_bind; [by apply import_final_item_keeps|]. intros. apply IH.
Qed.

Lemma import_branch_keeps c0 now have l : have_ok have -> forall height, keeps c0 (import_branch_items cfg now have height l).
Proof.
  intros Hh. induction l as [|x l IH]; intros height; [apply keeps_same|].
  apply keeps_bind; [by apply import_mined_item_keeps|]. intros. apply IH.
Qed.

Lemma parent_envelope_keeps c0 fetch head env : keeps c0 (parent_envelope fetch head env).
Proof.
  unfold parent_envelope. destruct (env_parent env) as [p|]; [|apply keeps_same].
  apply keeps_bind; [|intros; apply keeps_bind; intros; apply keeps_same].
  intros c Hc. unfold parent_bytes. destruct (_ !! p); [done|]. destruct (fetch [p]) as [got|]; [|done].
  destruct (got !! p); [|done]. by apply keep_ipld_kept.
Qed.

Lemma walk_parents_keeps c0 fetch head n : forall l last, keeps c0 (walk_parents fetch n head l last).
Proof.
  induction n as [|n IH]; intros l last; cbn [walk_parents]; (destruct (_ <? _); [|apply keeps_same]); [apply keeps_same|].
  apply keeps_bind; [apply parent_envelope_keeps|]. intros. apply IH.
Qed.

Lemma walk_branch_keeps c0 fetch head m n : forall l last, keeps c0 (walk_branch fetch n head m l last).
Proof.
  induction n as [|n IH]; intros l last; cbn [walk_branch]; [apply keeps_same|].
  apply keeps_bind; [apply parent_envelope_keeps|]. intros ?c1 x ? ?.
  apply keeps_bind; [apply keeps_same|]. intros ?c1 h ? ?. apply keeps_bind; [apply keeps_same|]. intros ?c1 k ? ?.
  destruct k; [apply keeps_same|]. destruct (_ <? _); [apply keeps_same|apply IH].
Qed.

Lemma apply_finality_keeps finality c0 height hash proof : keeps c0 (apply_finality cfg finality height hash proof).
Proof.
  intros c Hc. unfold apply_finality. destruct finality as [check|]; [|done]. case_bool_decide; [done|].
  destruct (fc_check _ _ _ _ _); [|done|done].
  revert c Hc. apply (keeps_bind c0 (call (finalize cfg hash height)) (fun _ => sret ())); [|intros; apply keeps_same].
  apply keeps_call. intros c Hc. apply (kept_op c0 c (OpFinalize hash height) Hc). exact I.
Qed.

Lemma head_of_keeps c0 : keeps c0 head_of.
Proof. apply keeps_call. intros c Hc. unfold cbind, cread. by destruct (Chain.head c). Qed.

Lemma on_mined_keeps finality fetch c0 now a env :
  supplied_occur fetch a -> keeps c0 (on_mined cfg finality fetch now a env).
Proof.
  intros Hs. apply keeps_bind; [apply keeps_same|]. intros ?c1 tip ? ?. apply keeps_bind; [apply keeps_same|]. intros ?c1 [|] ? ?.
  { apply keeps_bind; [apply apply_finality_keeps|]. intros. apply keeps_same. }
  apply keeps_bind; [apply head_of_keeps|]. intros ?c1 head ? ?.
  apply keeps_bind; [apply walk_branch_keeps|]. intros ?c1 l ? ?.
  apply keeps_bind; [apply keeps_same|]. intros ?c1 have ? Hf.
  apply keeps_bind; [eapply import_branch_keeps, fetch_missing_ok; [done|by eapply supplied_parts_ok|exact Hf]|]. intros ?c1 h ? ?.
  apply keeps_bind; [apply apply_finality_keeps|]. intros. apply keeps_same.
Qed.

Lemma handle_announce_keeps finality fetch fuel c0 now a :
  supplied_occur fetch a -> keeps c0 (handle_announce cfg finality fetch fuel now a).
Proof.
  intros Hs. apply keeps_bind; [apply keeps_same|]. intros ?c1 [[env tip] mined] ? ?.
  destruct (_ && _); [by apply on_mined_keeps|]. apply keeps_bind; [apply head_of_keeps|]. intros ?c1 head ? ?.
  destruct (_ <=? _); [apply keeps_same|]. apply keeps_bind.
  { intros c Hc. destruct finality as [check|]; [|done]. by destruct (fc_check _ _ _ _ _). }
  intros ?c1 verdict ? ?. apply keeps_bind; [apply walk_parents_keeps|]. intros ?c1 [l last] ? ?.
  apply keeps_bind; [apply keeps_same|]. intros ?c1 ours ? ?. destruct (negb _); [apply keeps_same|].
  apply keeps_bind; [apply keeps_same|]. intros ?c1 have ? Hf.
  apply keeps_bind; [|intros; apply keeps_same].
  eapply import_loop_keeps, fetch_missing_ok; [done|by eapply supplied_parts_ok|exact Hf].
Qed.

(** The headers the events bring in occur. *)
Definition event_occurs (e : NetEvent) : Prop :=
  match e with
  | NAnnounce fetch _ a => supplied_occur fetch a
  | NOther => True
  end.

Lemma run_follower_keeps finality fuel c0 events c :
  Forall event_occurs events -> kept c0 c -> kept c0 (run_follower cfg finality fuel events c).
Proof.
  intros He. revert c. induction He as [|e l He _ IH]; intros c Hc; [done|]. apply IH.
  destruct e as [fetch now a|]; [|done]. by apply handle_announce_keeps.
Qed.

(** C12.  The follower is safe against its peers: whatever is announced and whatever the network answers,
    over any sequence of events, with or without a finality check, the chain stays in order, a block that
    is settled (finalized, or at or below a block of the committee) stays canonical at its height, and
    the finalized height never falls, whether the announcements are imported or fail halfway. *)
Theorem follower_keeps_settled (finality : option FinalityCheck) (fuel : nat) (events : list NetEvent) (c : Chain)
    (Hok : chain_ok c) (Hevents : Forall event_occurs events) :
  let c' := run_follower cfg finality fuel events c in
  chain_ok c'
  /\ (forall f h, settled c f -> headers (ch_blocks c) !! f = Some h -> headers (ch_blocks c') !! f = Some h /\ settled c' f)
  /\ (forall g x, finalized c = Some (g, x) -> exists g' x', finalized c' = Some (g', x') /\ g <= g').
Proof.
  intros c'. destruct (run_follower_keeps finality fuel c events c Hevents (kept_refl c Hok)) as [Hc' [K1 K2 K3]].
  split_and!; [done| |done]. intros f h Hf Eh. split; [by rewrite K1|by apply K2].
Qed.

(** ** Nothing of the committee's without a proof *)

Lemma sbind_ok {A C} (m : SM A) (k : A -> SM C) c r c' :
  sbind m k c = (Ok r, c') -> exists a c1, m c = (Ok a, c1) /\ k a c1 = (Ok r, c').
Proof. unfold sbind. destruct (m c) as [[a|e] c1]; [|done]. intros Hk. by exists a, c1. Qed.

(** The walk keeps the announced envelope first. *)
Lemma walk_parents_first fetch head n : forall l last c r c', l <> [] ->
  walk_parents fetch n head l last c = (Ok r, c') -> List.hd_error r.1 = List.hd_error l.
Proof.
  induction n as [|n IH]; intros l last c r c' Hl; cbn [walk_parents]; destruct (_ <? _); try by intros [= <- _].
  intros (x & c1 & _ & Hw)%sbind_ok. apply IH in Hw; [|by destruct l]. rewrite Hw. by destruct l.
Qed.

(** A proof of finality accepted for height [n] while the chain was in order. *)
Definition shown (check : FinalityCheck) (c0 : Chain) (n : Z) : Prop :=
  exists c x p, kept c0 c /\ fc_check check c n x p = Final.

Lemma prove_next_shown check a tip_hash m rest c0 c p :
  kept c0 c -> prove_next check a tip_hash m rest c = Ok p -> shown check c0 p.
Proof.
  intros Hc. unfold prove_next. set (at_tip := match fc_check check c (an_height a) tip_hash (an_proof a) with Final => _ | _ => _ end).
  assert (at_tip = Ok p -> shown check c0 p) as Ht.
  { unfold at_tip. destruct (fc_check check c (an_height a) tip_hash (an_proof a)) eqn:E; try done. intros [= <-]. by exists c, tip_hash, (an_proof a). }
  destruct (boundary _ _ _) as [[[[h [x|]] ?] [[? ?] qc]]|]; [|done..]. destruct (fc_parent_proof _ qc) as [pf|]; [|done].
  destruct (fc_check check c h x pf) eqn:E; try done. intros [= <-]. by exists c, x, pf.
Qed.

(** What the header of the announced block is, for whoever decodes it. *)
Lemma announced_header `{!KeccakLaws K} a env tip_hash mined have d :
  open_announce a = Ok (env, tip_hash, mined) -> decode_block env (fun c => have !! c) = Ok d ->
  (exists h, unrlp_header (an_header a) = Some h /\ db_header d = h /\ hd_number h = an_height a
     /\ mined = (0 <? hd_difficulty h) /\ header_mined have env = negb (hd_difficulty h =? 0))
  \/ collision.
Proof.
  unfold open_announce. intros Ho (b & Eb & Ev & Eh & En)%decoded_header. inv_ok Ho.
  injection Ho as <- <- <-. apply ipld_err_ok in E2. apply ok_or_Ok in E4.
  destruct (verify_unique _ _ _ _ _ Ev E2) as [->|]; [left|by right].
  exists (db_header d). rewrite E4 in Eh. injection Eh as ->. split_and!; [done|done|lia|done|].
  unfold header_mined. rewrite Eb. cbn. by rewrite E4.
Qed.

(** The last import of the loop. *)
Lemma import_tip `{!KeccakLaws K} a env tip_hash have c0 c c' r :
  open_announce a = Ok (env, tip_hash, false) -> have_ok have -> kept c0 c ->
  import_final_item cfg have (an_root a, env) c = (Ok r, c') ->
  (exists h, unrlp_header (an_header a) = Some h /\ Chain.head c' = Ok h /\ hd_number h = an_height a /\ r = an_height a) \/ collision.
Proof.
  intros Ho Hh Hc (d & c1 & Hd & Hi)%sbind_ok. injection Hd as Hd <-. apply ipld_err_ok in Hd.
  destruct (announced_header _ _ _ _ _ _ Ho Hd) as [(h & Eh & Ed & En & _)|]; [left|by right].
  apply sbind_ok in Hi as (x & c2 & Hi & Hr). injection Hr as <- <-. exists h. rewrite Ed in *. split_and!; [done| |done..].
  unfold call in Hi. cbn [fst snd] in Hi. destruct (decoded_header _ _ _ Hd) as (b & Eb & _ & Eb' & _). rewrite Ed in Eb'.
  pose proof (import_final_safe cfg _ _ _ h (db_transactions d) (Some (an_root a)) (Certs_of env)
    (Hh _ _ _ Eb Eb') c (safe_start c (proj1 Hc))) as Hs.
  destruct (Chain.import_final _ _ _ _ _ c) as [[y|e] c3]; [|done]. injection Hi as _ <-. apply Hs.
Qed.

Lemma import_loop_shown `{!KeccakLaws K} check now a env tip_hash have n0 c0 c' r :
  open_announce a = Ok (env, tip_hash, false) -> have_ok have ->
  (forall h, unrlp_header (an_header a) = Some h -> 0 <= hd_difficulty h) -> n0 < an_height a ->
  forall l proven height c, kept c0 c -> proven <= n0 \/ shown check c0 proven ->
  import_loop cfg (Some check) now a tip_hash have proven height (l ++ [(an_root a, env)]) c = (Ok r, c') ->
  ((exists h, unrlp_header (an_header a) = Some h /\ Chain.head c' = Ok h /\ hd_number h = an_height a /\ r = an_height a)
    /\ exists n, an_height a <= n /\ shown check c0 n) \/ collision.
Proof.
  intros Ho Hh Hd Hn. assert (env_height env = an_height a) as Eh.
  { unfold open_announce in Ho. inv_ok Ho. injection Ho as <- _ _. lia. }
  induction l as [|x l IH]; intros proven height c Hc Hp; cbn [app import_loop]; rewrite bool_decide_true, andb_true_r by by eexists.
  - cbn [snd]. destruct (header_mined have env) eqn:Em.
    { intros (? & ? & (d & c2 & Hdec & _)%sbind_ok & _)%sbind_ok. injection Hdec as Hdec _. apply ipld_err_ok in Hdec. right.
      destruct (announced_header _ _ _ _ _ _ Ho Hdec) as [(h & Eh' & _ & _ & Em1 & Em2)|]; [|done].
      specialize (Hd _ Eh'). rewrite Em in Em2. lia. }
    intros (p & c1 & Hprove & (r' & c2 & Hi & Hr)%sbind_ok)%sbind_ok. injection Hr as <- <-.
    assert (c1 = c /\ (an_height a <= p /\ shown check c0 p)) as [-> Hs].
    { rewrite Eh in Hprove. destruct (proven <? an_height a) eqn:Elt.
      - injection Hprove as Hprove <-. split; [done|]. pose proof (prove_next_shown _ _ _ _ _ _ _ _ Hc Hprove). split; [|done].
        unfold prove_next in Hprove. cbn in Hprove. destruct (fc_check _ _ _ _ _); try done. injection Hprove as <-. lia.
      - injection Hprove as <- <-. destruct Hp; [lia|]. split; [done|]. split; [lia|done]. }
    destruct (import_tip _ _ _ _ _ _ _ _ Ho Hh Hc Hi); [left|by right]. split; [done|by exists p].
  - destruct (header_mined have x.2).
    + intros (r' & c1 & Hi & Hl)%sbind_ok. apply IH in Hl; [done| |done].
      pose proof (import_mined_item_keeps c0 now have x Hh c Hc) as Hk. by rewrite Hi in Hk.
    + intros (p & c1 & Hprove & (r' & c2 & Hi & Hl)%sbind_ok)%sbind_ok.
      assert (c1 = c /\ (p <= n0 \/ shown check c0 p)) as [-> Hs].
      { destruct (proven <? _); injection Hprove as Hprove <-; [|by subst]. split; [done|]. right. by eapply prove_next_shown. }
      apply IH in Hl; [done| |done]. pose proof (import_final_item_keeps c0 have x Hh c Hc) as Hk. by rewrite Hi in Hk.
Qed.

(** C13.  A block of the committee becomes the head only under a proof: when a follower with a finality
    check imports an announced block that is not mined, the head is the announced header, at the announced
    height, and on the way, with the chain in order, the check accepted a proof for a block at that
    height or above; or someone found a hash collision. *)
Theorem announced_head_is_final `{!KeccakLaws K} (check : FinalityCheck) (fetch : list Cid -> option (gmap Cid bytes)) (fuel : nat)
    (now : Z) (a : Announce) (env : Envelope) (tip_hash : B256) (c c' : Chain) (height count : Z)
    (Hok : chain_ok c) (Hoccur : supplied_occur fetch a)
    (Hdifficulty : forall h, unrlp_header (an_header a) = Some h -> 0 <= hd_difficulty h)
    (Hopen : open_announce a = Ok (env, tip_hash, false))
    (Hrun : handle_announce cfg (Some check) fetch fuel now a c = (Ok (Imported height count), c')) :
  (height = an_height a
   /\ (exists h, unrlp_header (an_header a) = Some h /\ Chain.head c' = Ok h /\ hd_number h = height)
   /\ exists n c1 x proof, height <= n /\ chain_ok c1 /\ settled_kept c c1 /\ fc_check check c1 n x proof = Final)
  \/ collision.
Proof.
  unfold handle_announce in Hrun. apply sbind_ok in Hrun as ([[e t] m] & c1 & Hop & Hrun). unfold sok in Hop.
  rewrite Hopen in Hop. injection Hop as <- <- <- <-. cbn [andb] in Hrun.
  apply sbind_ok in Hrun as (head & c2 & Hhead & Hrun).
  assert (kept c c2) as Hc2 by (pose proof (head_of_keeps c c (kept_refl c Hok)) as Hk; by rewrite Hhead in Hk).
  destruct (an_height a <=? head) eqn:Eh; [done|]. apply sbind_ok in Hrun as (v & c3 & Hv & Hrun).
  assert (c3 = c2 /\ (match v with Final => an_height a | _ => head end <= head
            \/ shown check c match v with Final => an_height a | _ => head end)) as [-> Hp].
  { destruct (fc_check _ _ _ _ _) eqn:Ef; [|done|]; injection Hv as <- <-; (split; [done|]); [right|left; lia].
    by exists c2, tip_hash, (an_proof a). }
  apply sbind_ok in Hrun as ([l last] & c4 & Hw & Hrun).
  assert (kept c c4) as Hc4 by (pose proof (walk_parents_keeps c fetch head fuel [(an_root a, env)] env c2 Hc2) as Hk; by rewrite Hw in Hk).
  apply walk_parents_first in Hw; [|done]. destruct l as [|x l]; [done|]. injection Hw as ->.
  apply sbind_ok in Hrun as (ours & c5 & Hours & Hrun). injection Hours as _ <-. destruct (negb _); [done|].
  apply sbind_ok in Hrun as (have & c5 & Hf & Hrun). injection Hf as Hf <-. cbv zeta in Hrun.
  apply sbind_ok in Hrun as (r & c5 & Hl & Hr). injection Hr as <- _ <-. cbn [rev] in Hl.
  destruct (import_loop_shown check now a env tip_hash have head c c5 r Hopen
    (fetch_missing_ok _ _ _ _ _ Hoccur (supplied_parts_ok _ _ env Hoccur) Hf) Hdifficulty ltac:(lia) _ _ _ _ Hc4 Hp Hl)
    as [((h & E1 & E2 & E3 & ->) & n & Hn & c6 & x & p & [Hc6 Hk6] & Hfin)|]; [left|by right].
  split_and!; [done|by exists h|by exists n, c6, x, p].
Qed.

(** ** The walk over a mined branch ends *)

Definition ends {A} (m : SM A) : Prop := forall c, fst (m c) <> Err SFuel.

Lemma ends_bind {A C} (m : SM A) (k : A -> SM C) : ends m -> (forall a, ends (k a)) -> ends (sbind m k).
Proof. intros Hm Hk c. specialize (Hm c). unfold sbind. destruct (m c) as [[a|e] c1]; [apply Hk|]. cbn in *. congruence. Qed.

Lemma ends_ipld {A} (r : result IpldError A) : ends (sok (ipld_err r)).
Proof. intros c. by destruct r. Qed.

Lemma ends_call {A} (m : CM A) : ends (call m).
Proof. intros c. unfold call. by destruct (m c) as [[a|e] c']. Qed.

Lemma ends_ok_or {A} (o : option A) e : e <> SFuel -> ends (sok (ok_or o e)).
Proof. intros He c. destruct o; [done|]. cbn. congruence. Qed.

Lemma parent_envelope_ends fetch head env : ends (parent_envelope fetch head env).
Proof.
  unfold parent_envelope. destruct (env_parent env); [|done]. apply ends_bind; [|intros; apply ends_bind; [apply ends_ipld|done]].
  intros c1. unfold parent_bytes. destruct (_ !! _); [done|]. destruct (fetch _) as [got|]; [|done]. by destruct (got !! _).
Qed.

Lemma walk_branch_ends fetch head m n : forall l last,
  m - Z.of_nat (length l) < Z.of_nat n -> 0 < Z.of_nat n -> ends (walk_branch fetch n head m l last).
Proof.
  induction n as [|n IH]; intros l last Hn Hpos; [lia|]. cbn [walk_branch].
  apply ends_bind; [apply parent_envelope_ends|]. intros x. apply ends_bind; [by apply ends_ok_or|]. intros h.
  apply ends_bind; [done|]. intros [|]; [done|]. destruct (m <? _) eqn:E; [done|].
  rewrite length_app in E. cbn [length] in E. apply Z.ltb_ge in E. apply IH; [rewrite length_app; cbn [length]|]; lia.
Qed.

Lemma walk_branch_length fetch head m n : forall l last c r c',
  walk_branch fetch n head m l last c = (Ok r, c') -> Z.of_nat (length r) <= Z.max m (Z.of_nat (length l)).
Proof.
  induction n as [|n IH]; intros l last c r c'; cbn [walk_branch]; [done|].
  intros (x & c1 & _ & (h & c2 & _ & ([|] & c3 & _ & Hw)%sbind_ok)%sbind_ok)%sbind_ok; [injection Hw as <- _; lia|].
  destruct (m <? _) eqn:E; [done|]. apply IH in Hw. lia.
Qed.

Lemma walk_branch_nonempty fetch head m n : forall l last c c', walk_branch fetch n head m l last c = (Ok [], c') -> l = [].
Proof.
  induction n as [|n IH]; intros l last c c'; cbn [walk_branch]; [done|].
  intros (x & c1 & _ & (h & c2 & _ & ([|] & c3 & _ & Hw)%sbind_ok)%sbind_ok)%sbind_ok; [by injection Hw|].
  destruct (m <? _); [done|]. apply IH in Hw. by destruct l.
Qed.

Lemma import_branch_ends now have l : forall height, ends (import_branch_items cfg now have height l).
Proof.
  induction l as [|x l IH]; intros height; [done|]. apply ends_bind; [|intros; apply IH].
  apply ends_bind; [apply ends_ipld|]. intros. apply ends_bind; [apply ends_call|done].
Qed.

Lemma apply_finality_ends finality height hash proof : ends (apply_finality cfg finality height hash proof).
Proof.
  intros c. unfold apply_finality. destruct finality as [check|]; [|done]. case_bool_decide; [done|].
  destruct (fc_check _ _ _ _ _); [|done|done]. apply (ends_bind (call (finalize cfg hash height))); [apply ends_call|done].
Qed.

(** C14.  A mined announcement costs a bounded walk: whatever the peers answer, following the parents of a
    mined block ends within the fuel the model gives it, and what is imported is at most the distance
    to the announced height and the depth of a reorganisation, plus one. *)
Theorem mined_walk_ends (finality : option FinalityCheck) (fetch : list Cid -> option (gmap Cid bytes)) (now : Z) (a : Announce)
    (env : Envelope) (c : Chain) :
  fst (on_mined cfg finality fetch now a env c) <> Err SFuel
  /\ forall height count, fst (on_mined cfg finality fetch now a env c) = Ok (Imported height count) ->
       exists h, Chain.head c = Ok h /\ 1 <= count <= Z.max 1 (walk_limit a (hd_number h)).
Proof.
  split.
  - revert c. apply ends_bind; [by apply ends_ok_or|]. intros tip. apply ends_bind; [done|]. intros [|].
    { apply ends_bind; [apply apply_finality_ends|done]. }
    apply ends_bind; [apply ends_call|]. intros head. cbv zeta. apply ends_bind.
    { apply walk_branch_ends; cbn [length]; lia. }
    intros l. apply ends_bind.
    { intros c. unfold sok, fetch_missing. case_bool_decide; [done|]. by destruct (fetch _). }
    intros have. apply ends_bind; [apply import_branch_ends|]. intros h. apply ends_bind; [apply apply_finality_ends|done].
  - intros height count Ho. destruct (on_mined cfg finality fetch now a env c) as [o c'] eqn:Hrun. cbn in Ho. subst o.
    apply sbind_ok in Hrun as (tip & c1 & Hc1 & Hrun). injection Hc1 as _ <-.
    apply sbind_ok in Hrun as (k & c1 & Hk & Hrun). injection Hk as Hk <-. destruct k.
    { by apply sbind_ok in Hrun as (? & ? & _ & Hr). }
    apply sbind_ok in Hrun as (head & c1 & Hh & Hrun). unfold head_of, call, cbind, cread in Hh.
    destruct (Chain.head c) as [h|]; [|done]. injection Hh as <- <-. exists h. split; [done|].
    apply sbind_ok in Hrun as (l & c1 & Hw & Hrun). apply sbind_ok in Hrun as (have & c2 & _ & Hrun).
    apply sbind_ok in Hrun as (r & c3 & _ & Hrun). apply sbind_ok in Hrun as (u & c4 & _ & Hrun). injection Hrun as _ <- _.
    pose proof (walk_branch_length _ _ _ _ _ _ _ _ _ Hw) as Hlen. cbn [length] in Hlen.
    assert (0 < length l)%nat; [|lia]. destruct l; [by apply walk_branch_nonempty in Hw|cbn; lia].
Qed.

(** ** What is announced opens to the block *)

(** No two parts of a bundle share a CID. *)
Definition parts_distinct (b : BlockBundle) : Prop :=
  forall c d d', (c, d) ∈ bd_blocks b -> (c, d') ∈ bd_blocks b -> d = d'.

Lemma find_block_in b c d : parts_distinct b -> (c, d) ∈ bd_blocks b -> find_block b c = d.
Proof.
  intros Hd Hin. unfold find_block. destruct (List.find _ _) as [[c' d']|] eqn:E.
  - apply List.find_some in E as [Hin' Ec]. cbn in *. apply bool_decide_eq_true in Ec as ->.
    apply (Hd c); [by apply list_elem_of_In|done].
  - apply list_elem_of_In in Hin. pose proof (List.find_none _ _ E _ Hin) as Hn. cbn in Hn. by rewrite bool_decide_true in Hn.
Qed.

(** Inserting parts of one block keeps every part found. *)
Lemma insert_parts (l : list (Cid * bytes)) (m : gmap Cid bytes) c d :
  (forall d', (c, d') ∈ l -> d' = d) -> m !! c = Some d \/ (c, d) ∈ l ->
  foldl (fun have x => <[x.1 := x.2]> have) m l !! c = Some d.
Proof.
  revert m. induction l as [|[c' d'] l IH]; intros m Hd Hm; cbn [foldl fst snd]; [by destruct Hm as [|Hm%elem_of_nil]|].
  apply IH; [intros; apply Hd; by right|]. destruct (decide (c' = c)) as [->|Hne].
  - left. rewrite lookup_insert_eq. f_equal. apply Hd. by left.
  - rewrite lookup_insert_ne by done. destruct Hm as [|[?|]%elem_of_cons]; [by left|congruence|by right].
Qed.

Lemma header_cid_hash `{!KeccakLaws K} data : block_hash_of (header_cid (keccak256 data)) = Some (keccak256 data).
Proof.
  unfold block_hash_of, header_cid, new_v1, b256_bytes. cbn [cid_codec cid_code cid_digest]. rewrite be_bytes_length, !Z.eqb_refl.
  cbn [andb Nat.eqb]. f_equal. apply (be_val_bytes_small 32), keccak_range.
Qed.

(** The announcement of a block opens to that block: a follower that receives what the producer
    announces passes every check with the block's envelope, its hash and whether it is mined; and when
    the body is small enough to travel inline, the announcement alone decodes to the header and the
    transactions. *)
Theorem announcement_round_trip `{!KeccakLaws K} `{!HeaderRlpLaws R} `{!BodyRlpLaws BR} `{!DagCborLaws Envelope}
    (header : BlockHeader) (txs : list TxEnvelope) (parent : option Cid) (qc : bytes) (audits : list bytes)
    (Hheader : Z.of_nat (length (rlp_header header)) <= MAX_IPLD_BLOCK_BYTES)
    (Henvelope : Z.of_nat (length (Envelope_encode (bd_envelope (bundle_with_audits header txs parent qc audits))))
                 <= MAX_IPLD_BLOCK_BYTES)
    (Hparts : parts_distinct (bundle_with_audits header txs parent qc audits)) :
  let b := bundle_with_audits header txs parent qc audits in
  let a := announce_for b in
  open_announce a = Ok (bd_envelope b, header_hash header, 0 <? hd_difficulty header)
  /\ (body_len b <= INLINE_BODY_BYTES ->
      decode_block (bd_envelope b) (fun c => supplied_parts a (bd_envelope b) !! c) = Ok (mkDecoded (bd_envelope b) header txs)).
Proof.
  intros b a. assert (find_block b (bd_root b) = Envelope_encode (bd_envelope b)) as Er.
  { apply find_block_in; [done|]. cbn. right. apply elem_of_app. right. by left. }
  assert (find_block b (env_header (bd_envelope b)) = rlp_header header) as Eh by (apply find_block_in; [done|by left]).
  split.
  - unfold open_announce, a, announce_for. cbn [an_root an_envelope an_height an_header]. rewrite Er, Eh.
    unfold b at 1. cbn [bd_root bundle_with_audits]. rewrite verify_sha256 by (by right || done). cbn [ipld_err result_bind].
    unfold Envelope_decode, Envelope_encode. rewrite from_to_vec. unfold b.
    cbn [bd_envelope bundle_with_audits env_height env_header env_v ok_or result_bind]. rewrite Z.eqb_refl. cbn [negb ipld_err result_bind env_height env_header].
    rewrite Z.eqb_refl. cbn [negb].
    rewrite verify_header by done. cbn [ipld_err result_bind]. unfold Envelope_block_hash. cbn [env_header].
    rewrite header_cid_hash. cbn [ok_or result_bind]. rewrite unrlp_rlp_header. done.
  - intros Hlen. apply bundle_decodes; [done|]. intros c d Hin.
    assert ((c, d) ∈ bd_blocks b) as Hb by (revert Hin; cbn; set_solver).
    unfold supplied_parts, a, announce_for. cbn [an_header an_inline]. rewrite Eh, (proj2 (Z.leb_le _ _) Hlen).
    apply insert_parts.
    + intros d' Hd'. apply list_elem_of_fmap in Hd' as (c' & [= <- ->] & _). by apply find_block_in.
    + apply elem_of_cons in Hin as [[= -> ->]|Hin]; [left; apply lookup_singleton_eq|right].
      apply list_elem_of_fmap. exists c. rewrite (find_block_in b c d) by done. split; [done|]. cbn.
      apply list_elem_of_fmap. by exists (c, d).
Qed.
End facts.

(** ** Concrete announcements *)

Module SyncWitness.
Import ExecToy ChainWitness.

(** Accepts the proof [7]; blocks 4, 8, .. start an epoch. *)
Definition check : FinalityCheck := {|
  fc_check _ _ _ p := if bool_decide (p = [7]) then Final else NotFinal;
  fc_parent_proof _ := None;
  fc_is_epoch_start h := h mod 4 =? 0;
|}.

(** A network that has the blocks of [l]. *)
Definition serving (l : list (Cid * bytes)) (want : list Cid) : option (gmap Cid bytes) :=
  Some (list_to_map (List.filter (fun x => bool_decide (x.1 ∈ want)) l)).

Lemma serving_ok `{Universe} l :
  Forall (fun x => forall h, unrlp_header x.2 = Some h -> occurs h) l ->
  forall want got, serving l want = Some got -> have_ok got.
Proof.
  intros Hl want got [= <-] c b h Hb. apply elem_of_list_to_map_2, list_elem_of_In, List.filter_In in Hb as [Hb _].
  rewrite Forall_forall in Hl. apply list_elem_of_In in Hb. exact (Hl _ Hb h).
Qed.

(** ** A mined block *)

(** The announcement of the block [hi], mined on genesis. *)
Definition a_hi : Announce := announce_for (bundle_with_audits hi [] (envelopes (ch_blocks c0) !! 0) [] []).
Definition ev_hi : NetEvent := NAnnounce (serving []) 200 a_hi.

Lemma ev_hi_occurs : event_occurs ev_hi.
Proof.
  split; [|split; [constructor|by apply serving_ok]].
  assert (unrlp_header (an_header a_hi) = Some hi) as -> by (vm_compute; reflexivity). intros h [= <-]. apply hi_occurs.
Qed.

(** The block is imported, and genesis stays. *)
Lemma follower_keeps_settled_witness :
  headers (ch_blocks (run_follower w_cfg (Some check) 5 [NOther; ev_hi] c0)) !! 1 = Some hi
  /\ headers (ch_blocks (run_follower w_cfg (Some check) 5 [NOther; ev_hi] c0)) !! 0 = Some genesis.
Proof.
  split; [vm_compute; reflexivity|].
  refine (proj1 (proj1 (proj2 (follower_keeps_settled w_cfg (Some check) 5 [NOther; ev_hi] c0 c0_ok _)) 0 genesis _ _)).
  - constructor; [exact I|]. constructor; [exact ev_hi_occurs|constructor].
  - left. vm_compute. discriminate.
  - vm_compute. reflexivity.
Defined.

(** ** Blocks of a committee *)

Module Pos.
(** The contracts of the other witnesses, with proof of stake from epoch 0 on. *)
#[export] Instance pos_abi : SolAbi := {|
  abi_encode _ _ := [];
  abi_decode_returns _ c _ :=
    match c in Call A return option A with phaseCall => Some (mkPhaseReturn true 0 true 0 0 0) | c => HooksWitness.answer c end;
|}.

Definition no_bundle : BlockBundle := mkBundle (new_v1 0 0 []) (mkEnvelope 0 0 (new_v1 0 0 []) None [] [] []) [].

(** The block of producer [who] on the head, with its bundle, and the chain it leads to. *)
Definition produce (ts : Z) (who : Address) (c : Chain) : BlockHeader * BlockBundle * Chain :=
  match build_block w_cfg [] ts who c with
  | (Ok b, c) => (bb_header b, bb_bundle b, c)
  | (Err _, c) => (genesis, no_bundle, c)
  end.

(** Two blocks in a row, and another first block that was never final. *)
Definition p1 : BlockHeader := Eval vm_compute in (produce 100 3 c0).1.1.
Definition b1 : BlockBundle := Eval vm_compute in (produce 100 3 c0).1.2.
Definition p2 : BlockHeader := Eval vm_compute in (produce 112 3 (produce 100 3 c0).2).1.1.
Definition b2 : BlockBundle := Eval vm_compute in (produce 112 3 (produce 100 3 c0).2).1.2.
Definition forged : BlockHeader := Eval vm_compute in (produce 100 4 c0).1.1.
Definition b_forged : BlockBundle := Eval vm_compute in (produce 100 4 c0).1.2.

Definition all_headers : list BlockHeader := [genesis; p1; p2; forged].

Definition with_proof (a : Announce) : Announce :=
  mkAnnounce (an_height a) (an_root a) (an_envelope a) (an_header a) (an_inline a) [7] 0.
Definition a2 : Announce := with_proof (announce_for b2).

(** The second block's header and proof, in an envelope that names the other first block as its parent. *)
Definition b2_forged : BlockBundle := bundle_with_audits p2 [] (Some (bd_root b_forged)) [] [].
Definition a2_forged : Announce := with_proof (announce_for b2_forged).

(** A check that accepts the second block only. *)
Definition only_p2 : FinalityCheck := {|
  fc_check _ h x p := if (h =? 2) && (x =? header_hash p2) && bool_decide (p = [7]) then Final else NotFinal;
  fc_parent_proof _ := None;
  fc_is_epoch_start h := h mod 4 =? 0;
|}.

#[export] Program Instance pos_universe : Universe := {|
  occurs h := h ∈ all_headers;
  weight_of x := 5;
|}.
Next Obligation.
  assert (Forall (fun a => Forall (fun b => header_hash a = header_hash b -> a = b) all_headers) all_headers) as Hall.
  { refine (bool_decide_unpack _ (_ : bool_decide _)). vm_compute. exact I. }
  intros h1 h2 H1 H2 E. rewrite Forall_forall in Hall. specialize (Hall _ H1). rewrite Forall_forall in Hall. by apply Hall.
Qed.
Next Obligation.
  assert (Forall (fun a => 0 <= hd_number a < U64_MAX) all_headers) as Hall.
  { refine (bool_decide_unpack _ (_ : bool_decide _)). vm_compute. exact I. }
  intros h Hh. rewrite Forall_forall in Hall. by apply Hall.
Qed.
Next Obligation. intros h _. cbv beta. lia. Qed.
Next Obligation.
  assert (Forall (fun h => Forall (fun q => header_hash q = hd_parent_hash h -> hd_number h = hd_number q + 1 -> 5 = 5 + hd_difficulty h)
    all_headers) all_headers) as Hall.
  { refine (bool_decide_unpack _ (_ : bool_decide _)). vm_compute. exact I. }
  intros h q Hh Hq. rewrite Forall_forall in Hall. specialize (Hall _ Hh). rewrite Forall_forall in Hall. by apply Hall.
Qed.

Lemma pos_c0_ok : chain_ok c0.
Proof. refine (chain_open_ok _ _ _ _ _ opened). split; [by left|]. split; vm_compute; reflexivity. Qed.

#[export] Instance poly_laws : KeccakLaws poly_keccak.
Proof.
  intros b. unfold keccak256, poly_keccak, in_range. assert (0 <= 17 < 2 ^ 256) as Hacc by lia. revert Hacc. generalize 17.
  induction b as [|x b IH]; intros acc Hacc; [done|]. apply IH. pose proof (Z.mod_pos_bound (acc * 31 + x + 1) 1000003). lia.
Qed.

Lemma headers_occur l : forallb (fun x => match unrlp_header x.2 with Some h => bool_decide (h ∈ all_headers) | None => true end) l = true ->
  Forall (fun x : Cid * bytes => forall h, unrlp_header x.2 = Some h -> occurs h) l.
Proof.
  intros Hl. rewrite forallb_forall in Hl. apply Forall_forall. intros x Hx%list_elem_of_In h Eh. specialize (Hl x Hx).
  rewrite Eh in Hl. by apply bool_decide_eq_true in Hl.
Qed.

Lemma a2_occurs : supplied_occur (serving (bd_blocks b1)) a2.
Proof.
  split; [|split; [constructor|]].
  - assert (unrlp_header (an_header a2) = Some p2) as -> by (vm_compute; reflexivity). intros h [= <-]. right. right. by left.
  - apply serving_ok, headers_occur. vm_compute. reflexivity.
Qed.

(** Two blocks behind, the follower fetches the first and imports both. *)
Lemma announced_head_is_final_witness :
  exists c', handle_announce w_cfg (Some only_p2) (serving (bd_blocks b1)) 5 200 a2 c0 = (Ok (Imported 2 2), c')
    /\ ((exists h, Chain.head c' = Ok h /\ hd_number h = 2) \/ collision).
Proof.
  destruct (handle_announce w_cfg (Some only_p2) (serving (bd_blocks b1)) 5 200 a2 c0) as [r c'] eqn:E.
  assert (r = Ok (Imported 2 2)) as -> by (change r with (fst (r, c')); rewrite <- E; vm_compute; reflexivity).
  exists c'. split; [exact eq_refl|].
  assert (forall h, unrlp_header (an_header a2) = Some h -> 0 <= hd_difficulty h) as Hd.
  { assert (unrlp_header (an_header a2) = Some p2) as -> by (vm_compute; reflexivity). intros h [= <-]. vm_compute. discriminate. }
  assert (open_announce a2 = Ok (bd_envelope b2, header_hash p2, false)) as Ho by (vm_compute; reflexivity).
  destruct (announced_head_is_final w_cfg only_p2 (serving (bd_blocks b1)) 5 200 a2 (bd_envelope b2) (header_hash p2) c0 c' 2 2
    pos_c0_ok a2_occurs Hd Ho E) as [(_ & (h & _ & Eh & En) & _)|X]; [exact (or_introl (ex_intro _ h (conj Eh En)))|exact (or_intror X)].
Defined.

(** The parent an envelope names is not part of the block hash that the proof covers, and it is compared with
    the header's parent hash only when the block itself is imported: with the genuine header and proof
    of block 2 in an envelope that names a forged block 1, a follower at genesis commits the forged
    block, which no proof covers, before the announcement fails. *)
Lemma forged_parent_committed :
  fc_check only_p2 c0 1 (header_hash forged) [7] = NotFinal
  /\ let r := handle_announce w_cfg (Some only_p2) (serving (bd_blocks b_forged)) 5 200 a2_forged c0 in
     fst r = Err (SChain (EInvalidBlock "does not extend head"))
     /\ Chain.head (snd r) = Ok forged /\ settled (snd r) 1.
Proof.
  split; [vm_compute; reflexivity|]. cbv zeta. split; [vm_compute; reflexivity|]. split; [vm_compute; reflexivity|].
  right. exists 1, forged. split; [vm_compute; reflexivity|]. split; vm_compute; [reflexivity|discriminate].
Qed.
End Pos.

(** ** A small block with transactions *)

Import IpldWitness.

Lemma announcement_round_trip_witness :
  let b := bundle_with_audits (A := toy_txs) IpldWitness.header [21; 22] None [5] [] in
  decode_block (bd_envelope b) (fun c => supplied_parts (announce_for b) (bd_envelope b) !! c)
  = Ok (mkDecoded (A := toy_txs) (bd_envelope b) IpldWitness.header [21; 22]).
Proof.
  refine (proj2 (announcement_round_trip (K := toy_keccak) IpldWitness.header [21; 22] None [5] [] _ _ _) _);
    [vm_compute; discriminate..| |vm_compute; discriminate].
  intros c d d' H1 H2.
  assert (Forall (fun x => Forall (fun y => x.1 = y.1 -> x.2 = y.2) (bd_blocks toy_bundle)) (bd_blocks toy_bundle)) as Hall.
  { refine (bool_decide_unpack _ (_ : bool_decide _)). vm_compute. exact I. }
  rewrite Forall_forall in Hall. specialize (Hall _ H1). rewrite Forall_forall in Hall. exact (Hall _ H2 eq_refl).
Defined.
End SyncWitness.
